(* ===== verification/_CoqProject ===== *)
-Q . S2P
Prelude.v
Go.v
Util.v
Spec.v
Types.v
TestHelpers.v
Client.v
BatchLife.v
BTree.v
MemDB.v
MemDBCorrect.v
MemDBThms.v
MemDBConc.v
MemDBLive.v
Registry.v
Interface.v
Path.v
Cursor.v
KVLib.v
KVBackend.v
GoLevelDB.v
GoLevelDBCorrect.v
RocksDB.v
RocksDBCorrect.v
CLevelDB.v
CLevelDBCorrect.v
BackendThms.v
BoltLib.v
BoltDB.v
BoltDBCorrect.v
BoltDBThms.v
BadgerLib.v
BadgerDB.v
BadgerDBCorrect.v
BadgerDBThms.v
BadgerConc.v
TxErrors.v
PrefixDB.v
PrefixDBCorrect.v
PrefixDBThms.v
Session.v
SessionThms.v
Backends.v
Durable.v
DurableBackends.v
DurableThms.v
Heap.v
HeapIter.v
Wire.v
Proto.v
Populate.v
GrpcServer.v
GrpcServerCorrect.v
ServerConc.v
GetStream.v
RemoteDB.v
Grpc.v
RemoteDBCorrect.v
Stubs.v
RemoteDBThms.v
RemoteSpec.v
IterErrors.v
GetStreamWire.v
RemoteSetup.v
RemoteBackends.v
