(* ===== verification/Prelude.v ===== *)
(** * tm-db: a verification development

    tm-db is the key-value store interface of Tendermint with its backends.
    This library models the Go sources (paths below are relative to src/) as
    executable functions in a state monad and proves that every backend that is
    modelled implements one abstract store.

    ** The program and its model

    - types.go declares the interfaces [DB], [Batch] and [Iterator].  [Types]
      has them as records of methods and type classes, and their documentation
      as the contracts [IteratorContract] and [DBContract], which compare every
      method with the abstract store of [Spec] (a finite map from keys to
      values, scanned in key order).  [Client] has programs over a database:
      sequences of calls, batches, and scans with the loop the documentation
      prescribes ([collect]; [typical_usage] has also the check of [Error] and the
      deferred [Close]); [run_calls_spec] is the refinement lemma: a database that
      meets the contract answers every program as the abstract store does.
      What a backend can store is its record of [limits].  [BatchLife] has
      arbitrary sequences of calls on one batch, [Session] calls on a database,
      several batches and several iterators in any order the contract allows
      (no write in the domain of an open iterator, or, on a database that locks,
      none while an iterator is open), with [session_refines] against an abstract session; [SessionThms]
      instantiates it with the backends.  [Durable] has what the [Sync] methods
      promise: [DurableContract] adds to a database the contents a crash may
      leave, [durable_survives] is about rounds of a program, a crash and a
      reopening; [DurableBackends] proves the
      contract for the backends on disk and PrefixDB, [DurableThms] has the
      theorem.  [IterErrors] is about iterators whose library or stream fails,
      also at the server.
      [Interface] has the values of the interface types: a sum of the types that
      have the methods, whose calls go to the method of the type of the value;
      the contract of a type holds for its values ([embed_contract]).
    - util.go: [Util] ([cp], [cpIncr], [IsKeyInDomain], [FileExists]).  [Heap] has slices as
      headers into arrays, and with them the functions that write into memory or
      hand it to the caller: [cp], [cpIncr], [prefixed], [moveSliceToBytes];
      [HeapIter] has the [Key] methods of the iterators on this memory.
    - test_helpers.go: [TestHelpers] ([randStr]).
    - memdb.go, memdb_batch.go, memdb_iterator.go: [MemDB], over a parameter
      for the library github.com/google/btree ([BTree]: methods, laws, and the
      sorted list as a concrete tree); [MemDBCorrect] proves the contract,
      [MemDBThms] has the theorems.  [MemDB] has the iterator as a client sees
      it between calls; [MemDBConc] has the mutex (a writer that waits keeps
      new readers out), the goroutine that walks the tree, the buffered channel,
      cancellation and [Close] as an interleaving step relation; [MemDBLive] is
      about what all its runs reach.
    - prefixdb.go, prefixdb_batch.go, prefixdb_iterator.go: [PrefixDB] over any
      database, [PrefixDBCorrect], [PrefixDBThms].  [ReverseIterator] meets the
      contract except when the database holds a key the bound of [cpIncr] does
      not exclude; [PrefixDBCorrect] proves the contract without such keys, and for
      a PrefixDB with a repaired bound ([exact_PrefixDB]) always, from which the
      exact answers of the code follow.
    - goleveldb*.go, rocksdb*.go, cleveldb*.go: [GoLevelDB], [RocksDB],
      [CLevelDB].  [KVLib] has the methods and the documented laws of the
      libraries, [Cursor] those of their iterators, [KVBackend] the part of the
      correctness proof the three backends share; [BackendThms] has the
      theorems.
    - boltdb*.go: [BoltDB] over a parameter for go.etcd.io/bbolt ([BoltLib]:
      transactions as closures over a bucket, cursors, the limits on keys and
      values), [BoltDBCorrect], [BoltDBThms].
    - badger_db.go: [BadgerDB] over a parameter for
      github.com/dgraph-io/badger/v3 ([BadgerLib]: transactions, iterators in
      one direction, write batches that can be flushed once), [BadgerDBCorrect],
      [BadgerDBThms].  [BadgerConc] has the methods of one batch as the actions
      of several goroutines: the [select] on the channel [firstFlush], the calls
      of the library.  [TxErrors] has bbolt and badger when a transaction of the
      library, or an operation in one, fails.
    - db.go: [Registry] (the map of constructors, [NewDB], the [init]
      functions); [Backends] has the interface [DB] over the six backends, what
      the [init] function of each registers, and when a backend can be opened
      ([opens]); [Path] has the part of
      path/filepath the constructors use.
    - remotedb/: [RemoteDB] is the client, [GrpcServer] the server over any
      database, [Proto] the messages with their generated comparisons,
      [Populate] the generated functions that make random messages, [Wire] a
      reader of the encoding of fields, [Grpc]
      the generated stubs, the interface [DBServer], handlers and service table
      over a parameter for the gRPC library, [Stubs] the getters, [Reset] and
      [UnimplementedDBServer]; [RemoteSetup] has [NewClient], [NewRemoteDB],
      [NewServer] and [ListenAndServe].  [GrpcServerCorrect] and [RemoteDBCorrect] say what each
      method does, [RemoteDBThms] has the theorems; [RemoteSpec] specifies the
      remote database for every argument, [RemoteBackends] puts the client, the
      server, the registry and the backends together.  [ServerConc] has [Init]
      and its mutex beside concurrent requests.  [GetStream] has the
      handler of that name and the goroutine it starts as an interleaving step
      relation: the requests arrive one by one and [Recv] blocks until there is one
      or the stream has ended; other clients may act between any two steps, also
      between a [Recv] and its [Get].  [GetStreamWire] has the stubs of that stream and the frames between
      client and server.

    [Go] has the fragment of Go that is used: slices (nil and empty are
    different), the order of package bytes, error values, and the monad
    [M S A] of methods with state [S], whose results are a value, an error, a
    panic, or no result within the fuel.

    ** What the theorems show

    - Refinement: [MemDB_refines], [prefixdb_refines], [GoLevelDB_refines],
      [RocksDB_refines], [CLevelDB_refines], [BoltDB_refines],
      [BadgerDB_refines], [RemoteDB_transparent], with the error cases;
      [memdb_goleveldb_agree] follows.  [backends_serve_sessions] is the same for
      several batches and iterators at a time, under the write policy of the
      backend, [NewDB_ready] for the databases
      [NewDB] makes, [RemoteDB_end_to_end] goes from the address of a server to
      the answers of a program over every backend, [RemoteDB_answers] covers the
      arguments the encoding changes.
    - Crashes: [synced_writes_survive]: through any number of crashes and
      reopenings, what a crash leaves is what some of the first calls since the
      last opening leave, all calls up to the last [Sync] among them.
    - Concurrency of MemDB: [iterator_snapshot], [readers_see_whole_batches],
      [iterator_drains] (termination), [iterator_blocks_writers],
      [mutex_released] (liveness); of a badger batch:
      [badger_batch_flushed_once]; of [Init] at the server: [Init_races]; of
      [GetStream]: what the client receives
      ([GetStream_over_the_wire]), when it terminates and the goroutine it may leave
      behind ([GetStream_lifetime]).
    - PrefixDB: the exact answers of every program ([prefixdb_refines]), isolation
      of any number of namespaces, nesting, forward scans for every prefix, the reverse
      scans that miss the namespace, [IteratePrefix], empty prefixes.
    - Memory: [prefixed_in_memory], [iterator_keys_survive],
      [cpIncr_in_memory], [moveSliceToBytes_in_memory]: no shared arrays, no
      use of memory the library has taken back; MemDB's iterators are the
      exception and return the slices of the tree.
    - Messages: [Equal_up_to_encoding], [populated_typed],
      [populated_roundtrip].
    - Errors: closed batches, batches that are flushed twice, errors of the
      libraries ([KV_backends_errors], [Tx_backends_errors]) and of iterators
      ([iterators_report_errors], with the error that [handleIterator] loses), keys
      that are too large,
      failed initialisation, methods that are not implemented
      ([unimplemented_calls]).
    - Utilities, registry, printing and statistics.

    ** Parameters, fuel and bounds

    Code that is not in the repository is a parameter with its documented
    behaviour as the laws of a type class ([BTreeLaws], [CursorLaws], [KVLaws],
    [BoltLaws], [BadgerLaws], [RSliceLaws], [RandyLaws], [Codec], [GrpcLaws],
    and for crashes [KVDurable], [BoltDurable], [BadgerDurable];
    the packages credentials, grpc and net of the set-up are arguments); each has
    a concrete instance, which the instances of the theorems use.  Loops of a client or a handler over an
    iterator take fuel; the theorems ask for more than the number of entries
    the store can have at that point ([size m + weight cs < fuel], where
    [weight] counts the writes of the program) and conclude that the loop
    returns.  [prefixDBIterator_Next] skips at most one key, so that fuel 2 is
    enough; printing takes fuel above the number of entries.  Lengths and
    counters are unbounded, except for the limits bbolt, badger and gRPC set; [cpIncr]
    works on bytes that wrap at 8 bits, [Populate] on integers of 32 and 64
    bits, where ten rounds are enough for a varint (the reader of [Wire] refuses
    longer ones, as the library does).  [randStr] takes fuel for
    the random numbers it draws.

    ** What is not modelled

    The mutex of PrefixDB (held by [Close] only), contexts, the memory of the
    options and iterators of the C libraries, and of remotedb/proto/defs.pb.go the
    methods that only call the protobuf library (encoding and reflection), which is
    a parameter.  [ServerConc] lets a read see one word of an old and one of a new
    value of [s.db], as the memory model of Go does, and leaves out what a call on
    such a value does.  The library calls of [BadgerConc] are single actions; a stream
    of [GetStreamWire] loses no frames (its [Send] may fail).  The
    refinement theorem of the badger backend is for values that are not empty;
    [BadgerDB_iterator_quirks] says what its iterators do with an empty one. *)

From Stdlib.Strings Require Export Byte.
From stdpp Require Export base tactics option list sorting numbers strings gmap fin_maps fin_map_dom pretty.

#[export] Set Warnings "-clear-no-such-hyp".

(** ** Automation of the development

    [tmdb] collects the lemmas that close the routine goals of the components
    (order facts, invariants that an operation preserves). *)

Create HintDb tmdb discriminated.
#[export] Hint Constants Transparent : tmdb.
#[export] Hint Variables Transparent : tmdb.

(** Split every conjunction and pair of the context, then simplify equations. *)
Ltac break :=
  repeat match goal with
  | H : _ ∧ _ |- _ => destruct H
  | H : ∃ _, _ |- _ => destruct H
  | H : (_, _) = (_, _) |- _ => injection H as ??
  end; simplify_eq/=.

(** Case analysis on the scrutinee of the first [match] of the goal. *)
Ltac cases := repeat (case_match; simplify_eq/=; try done).

(** ** Generic lemmas on strictly sorted lists *)

Section strictly_sorted.
Context {A : Type} (R : relation A) `{!Irreflexive R, !Transitive R}.

Lemma StronglySorted_NoDup (l : list A) : StronglySorted R l → NoDup l.
Proof.
  induction 1 as [|x l _ IH Hall]; constructor; [|done].
  intros Hin. rewrite list.Forall_forall in Hall.
  exact (irreflexivity R x (Hall x Hin)).
Qed.

Lemma StronglySorted_cons_irrefl x l :
  StronglySorted R (x :: l) → x ∉ l.
Proof. intros H%StronglySorted_NoDup. by apply NoDup_cons in H as [??]. Qed.

(** A strictly sorted list is determined by its set of elements. *)
Lemma StronglySorted_ext (l1 l2 : list A) :
  StronglySorted R l1 → StronglySorted R l2 →
  (∀ x, x ∈ l1 ↔ x ∈ l2) → l1 = l2.
Proof.
  intros H1. revert l2.
  induction H1 as [|x l1 H1 IH Hx]; intros l2 H2 Hext.
  { destruct l2 as [|y l2]; [done|]. destruct (not_elem_of_nil y).
    apply Hext, list_elem_of_here. }
  destruct l2 as [|y l2].
  { destruct (not_elem_of_nil x). apply Hext, list_elem_of_here. }
  pose proof (StronglySorted_cons_irrefl _ _ H2) as Hny.
  pose proof (StronglySorted_cons_irrefl x l1 (SSorted_cons _ H1 Hx)) as Hnx.
  apply StronglySorted_inv in H2 as [H2 Hy].
  rewrite list.Forall_forall in Hx. rewrite list.Forall_forall in Hy.
  assert (x = y) as ->.
  { assert (x ∈ y :: l2) as [->|Hxin]%elem_of_cons by apply Hext, list_elem_of_here; [done|].
    assert (y ∈ x :: l1) as [->|Hyin]%elem_of_cons by apply Hext, list_elem_of_here; [done|].
    destruct (irreflexivity R x). transitivity y; auto. }
  f_equal. apply IH; [done|]. intros z. specialize (Hext z).
  rewrite !elem_of_cons in Hext. split; intros Hz.
  - destruct (proj1 Hext (or_intror Hz)); congruence.
  - destruct (proj2 Hext (or_intror Hz)); congruence.
Qed.

Lemma StronglySorted_filter (P : A → Prop) `{∀ x, Decision (P x)} (l : list A) :
  StronglySorted R l → StronglySorted R (filter P l).
Proof.
  induction 1 as [|x l Hl IH Hx]; [constructor|].
  rewrite filter_cons. case_decide; [|done]. constructor; [done|].
  rewrite list.Forall_forall in Hx. rewrite list.Forall_forall.
  intros y [_ Hy]%list_elem_of_filter. auto.
Qed.

End strictly_sorted.

Lemma StronglySorted_lookup {A} (R : relation A) (l : list A) i j x y :
  StronglySorted R l → l !! i = Some x → l !! j = Some y → i < j → R x y.
Proof.
  intros Hl. revert i j. induction Hl as [|z l Hl IH Hz]; intros i j Hi Hj Hij; [done|].
  destruct i as [|i], j as [|j]; simplify_eq/=; try lia.
  - rewrite list.Forall_forall in Hz. by eapply Hz, list_elem_of_lookup_2.
  - apply (IH i j); auto with lia.
Qed.

Lemma StronglySorted_reverse {A} (R : relation A) (l : list A) :
  StronglySorted R l → StronglySorted (flip R) (reverse l).
Proof.
  induction 1 as [|x l Hl IH Hx]; [constructor|].
  rewrite reverse_cons. apply StronglySorted_app_2.
  - intros y z Hy ->%list_elem_of_singleton. unfold flip.
    rewrite list.Forall_forall in Hx. by apply Hx, elem_of_reverse.
  - done.
  - by repeat constructor.
Qed.

(** Filters that agree on the list, that keep all of it, that keep nothing. *)
Lemma filter_ext_in {A} (P Q : A → Prop) `{∀ x, Decision (P x), ∀ x, Decision (Q x)} (l : list A) :
  (∀ x, x ∈ l → P x ↔ Q x) → filter P l = filter Q l.
Proof.
  induction l as [|x l IH]; [done|]. intros HPQ.
  rewrite !filter_cons, IH by (intros; apply HPQ; by right).
  pose proof (HPQ x (list_elem_of_here _ _)) as Hx.
  repeat case_decide; tauto.
Qed.

Lemma filter_all {A} (P : A → Prop) `{∀ x, Decision (P x)} (l : list A) :
  Forall P l → filter P l = l.
Proof.
  induction 1 as [|x l Hx Hl IH]; [done|]. rewrite filter_cons, decide_True by done. by f_equal.
Qed.

Lemma filter_none {A} (P : A → Prop) `{∀ x, Decision (P x)} (l : list A) :
  Forall (λ x, ¬ P x) l → filter P l = [].
Proof.
  induction 1 as [|x l Hx Hl IH]; [done|]. by rewrite filter_cons, decide_False.
Qed.

Lemma sum_list_with_insert {A} (f : A → nat) (l : list A) i x y :
  l !! i = Some x → sum_list_with f (<[i := y]> l) + f x = sum_list_with f l + f y.
Proof.
  revert i. induction l as [|z l IH]; intros [|i] H; simplify_eq/=; [lia|]. specialize (IH i H). lia.
Qed.

(** ** Integers at their width *)

(** Disjoint bits: [a << k | b] for a [b] of [k] bits. *)
Lemma Z_lor_shiftl a b k : (0 ≤ k)%Z → (0 ≤ b < 2 ^ k)%Z → Z.lor (Z.shiftl a k) b = (a * 2 ^ k + b)%Z.
Proof.
  intros Hk Hb. assert (Z.land (Z.shiftl a k) b = 0%Z) as Hland.
  { apply Z.bits_inj'. intros n Hn. rewrite Z.land_spec, Z.shiftl_spec, Z.bits_0 by done.
    destruct (decide (n < k)%Z); [by rewrite Z.testbit_neg_r by lia|].
    destruct (decide (b = 0)%Z) as [->|]; [by rewrite Z.bits_0, andb_false_r|].
    rewrite (Z.bits_above_log2 b n), andb_false_r; [done|lia|].
    assert (Z.log2 b < k)%Z by (apply Z.log2_lt_pow2; lia). lia. }
  rewrite <-Z.lxor_lor, <-Z.add_nocarry_lxor, Z.shiftl_mul_pow2 by done. done.
Qed.
