(* ===== verification/Go.v ===== *)
(** * The fragment of Go the sources use

    Byte slices with the order of package [bytes], the error values, and the
    state monad in which every method of the development is written. *)

From S2P Require Import Prelude.

(** ** Bytes *)

Abbreviation bytes := (list byte).

#[global] Instance byte_eq_decision : EqDecision byte := Byte.byte_eq_dec.

#[global] Program Instance byte_countable : Countable byte :=
  inj_countable Byte.to_N Byte.of_N _.
Next Obligation. intros b. by apply Byte.of_to_N. Qed.

(** [b++] on a Go [byte]: the addition wraps at 8 bits. *)
Definition byte_incr (b : byte) : byte :=
  default x00 (Byte.of_N ((Byte.to_N b + 1) mod 256)).

Lemma byte_to_N_inj b1 b2 : Byte.to_N b1 = Byte.to_N b2 → b1 = b2.
Proof.
  intros H. apply (f_equal Byte.of_N) in H. rewrite !Byte.of_to_N in H. congruence.
Qed.

Lemma byte_incr_to_N b :
  (Byte.to_N b < 255)%N → Byte.to_N (byte_incr b) = (Byte.to_N b + 1)%N.
Proof. by destruct b. Qed.

(** A key of the source text, e.g. [bz "key"]: [[]byte("key")]. *)
Definition bz (s : string) : bytes := String.list_byte_of_string s.

(** ** Slices

    A Go [[]byte] is [nil] or has a (possibly empty) content.  [len] and every
    function of package [bytes] treat [nil] as empty; the comparison with [nil]
    does not. *)

Abbreviation slice := (option bytes).

Definition data (s : slice) : bytes := default [] s.
Definition len (s : slice) : nat := length (data s).
Definition is_nil (s : slice) : bool := match s with None => true | Some _ => false end.

(** [append(s, t...)] on a non-nil [s] (the result of [cp]). *)
Definition append (s t : slice) : slice := Some (data s ++ data t).

(** ** Lexicographic order: package [bytes] *)

Fixpoint bcompare (a b : bytes) : comparison :=
  match a, b with
  | [], [] => Eq
  | [], _ :: _ => Lt
  | _ :: _, [] => Gt
  | x :: a, y :: b =>
      match N.compare (Byte.to_N x) (Byte.to_N y) with
      | Eq => bcompare a b
      | c => c
      end
  end.

(** [bytes.Compare(a, b)] *)
Definition bytes_Compare (a b : slice) : Z :=
  match bcompare (data a) (data b) with Lt => -1 | Eq => 0 | Gt => 1 end.

(** [bytes.Equal(a, b)] *)
Definition bytes_Equal (a b : slice) : bool := bool_decide (data a = data b).

(** [bytes.HasPrefix(s, prefix)] *)
Definition bytes_HasPrefix (s prefix : slice) : bool :=
  bool_decide (take (len prefix) (data s) = data prefix).

Definition ble (a b : bytes) : Prop := bcompare a b ≠ Gt.
Definition blt (a b : bytes) : Prop := bcompare a b = Lt.

#[global] Instance ble_dec : RelDecision ble.
Proof. intros a b. unfold ble. apply _. Defined.
#[global] Instance blt_dec : RelDecision blt.
Proof. intros a b. unfold blt. apply _. Defined.

Lemma bcompare_refl a : bcompare a a = Eq.
Proof. induction a; simpl; by rewrite ?N.compare_refl. Qed.

Lemma bcompare_eq a b : bcompare a b = Eq ↔ a = b.
Proof.
  split; [|intros ->; apply bcompare_refl].
  revert b. induction a as [|x a IH]; intros [|y b]; simpl; try done.
  destruct (N.compare_spec (Byte.to_N x) (Byte.to_N y)) as [->%byte_to_N_inj| |]; try done.
  intros ->%IH. done.
Qed.

Lemma bcompare_antisym a b : bcompare b a = CompOpp (bcompare a b).
Proof.
  revert b. induction a as [|x a IH]; intros [|y b]; simpl; try done.
  rewrite N.compare_antisym. destruct (N.compare (Byte.to_N x) (Byte.to_N y)); simpl; auto.
Qed.

#[global] Instance blt_trans : Transitive blt.
Proof.
  unfold blt. intros a. induction a as [|x a IH]; intros [|y b] [|z c]; simpl; try done.
  destruct (N.compare_spec (Byte.to_N x) (Byte.to_N y)) as [Hxy|Hxy|Hxy];
  destruct (N.compare_spec (Byte.to_N y) (Byte.to_N z)) as [Hyz|Hyz|Hyz];
  destruct (N.compare_spec (Byte.to_N x) (Byte.to_N z)) as [Hxz|Hxz|Hxz]; try done; try lia.
  apply IH.
Qed.

#[global] Instance blt_irrefl : Irreflexive blt.
Proof. intros a. unfold blt, complement. by rewrite bcompare_refl. Qed.

Lemma ble_alt a b : ble a b ↔ blt a b ∨ a = b.
Proof.
  unfold ble, blt. rewrite <-bcompare_eq. destruct (bcompare a b); intuition congruence.
Qed.

Lemma not_blt a b : ¬ blt a b ↔ ble b a.
Proof.
  unfold ble, blt. rewrite (bcompare_antisym a b). destruct (bcompare a b); naive_solver.
Qed.

Lemma not_ble a b : ¬ ble a b ↔ blt b a.
Proof. rewrite <-not_blt. destruct (decide (blt b a)); tauto. Qed.

#[global] Instance ble_trans : Transitive ble.
Proof. intros a b c. rewrite !ble_alt. intros [Hab| ->] [Hbc| ->]; auto. left. by transitivity b. Qed.

#[global] Instance ble_refl : Reflexive ble.
Proof. intros a. rewrite ble_alt. auto. Qed.

#[global] Instance ble_total : Total ble.
Proof. intros a b. destruct (decide (ble a b)) as [|H%not_ble]; [auto|]. right. rewrite ble_alt; auto. Qed.

Lemma ble_blt_trans a b c : ble a b → blt b c → blt a c.
Proof. rewrite ble_alt. intros [Hab| ->] ?; [by transitivity b|done]. Qed.

Lemma blt_ble_trans a b c : blt a b → ble b c → blt a c.
Proof. rewrite ble_alt. intros ? [Hab| ->]; [by transitivity b|done]. Qed.

Lemma blt_ble a b : blt a b → ble a b.
Proof. rewrite ble_alt. auto. Qed.

Lemma blt_ne a b : blt a b → a ≠ b.
Proof. intros H ->. exact (irreflexivity blt b H). Qed.

Lemma blt_trichotomy a b : blt a b ∨ a = b ∨ blt b a.
Proof. destruct (decide (blt a b)) as [|H%not_blt]; [auto|]. apply ble_alt in H as [|]; auto. Qed.

Lemma ble_nil a : ble [] a.
Proof. by destruct a. Qed.

Lemma ble_nil_inv a : ble a [] → a = [].
Proof. by destruct a. Qed.

#[export] Hint Resolve ble_blt_trans blt_ble_trans blt_ble ble_nil : tmdb.

(** *** Prefixes *)

Lemma bcompare_app p a b : bcompare (p ++ a) (p ++ b) = bcompare a b.
Proof. induction p; simpl; by rewrite ?N.compare_refl. Qed.

Lemma ble_app p a b : ble (p ++ a) (p ++ b) ↔ ble a b.
Proof. unfold ble. by rewrite bcompare_app. Qed.

Lemma blt_app p a b : blt (p ++ a) (p ++ b) ↔ blt a b.
Proof. unfold blt. by rewrite bcompare_app. Qed.

Lemma ble_prefix p k : p `prefix_of` k → ble p k.
Proof. intros [k' ->]. rewrite <-(app_nil_r p) at 1. apply ble_app, ble_nil. Qed.

(** A key between [p] and an extension of [p] extends [p] itself. *)
Lemma prefix_sandwich p k e : ble p k → ble k (p ++ e) → p `prefix_of` k.
Proof.
  revert k. induction p as [|x p IH]; intros k; [intros; apply prefix_nil|].
  destruct k as [|y k]; [done|]. unfold ble in *. simpl.
  rewrite (N.compare_antisym (Byte.to_N x) (Byte.to_N y)).
  destruct (N.compare_spec (Byte.to_N x) (Byte.to_N y)) as [->%byte_to_N_inj| |]; simpl; try done.
  intros. by apply prefix_cons, IH.
Qed.

(** *** What the Go comparisons decide *)

Lemma bytes_Compare_lt a b : (bytes_Compare a b < 0)%Z ↔ blt (data a) (data b).
Proof. unfold bytes_Compare, blt. destruct (bcompare _ _); split; (done || lia). Qed.

Lemma bytes_Compare_le a b : (bytes_Compare a b ≤ 0)%Z ↔ ble (data a) (data b).
Proof. unfold bytes_Compare, ble. destruct (bcompare _ _); split; (done || lia). Qed.

Lemma bytes_Compare_m1 a b : bytes_Compare a b = (-1)%Z ↔ blt (data a) (data b).
Proof. unfold bytes_Compare, blt. destruct (bcompare _ _); split; (done || lia). Qed.

Lemma bytes_HasPrefix_spec s p : bytes_HasPrefix s p = true ↔ data p `prefix_of` data s.
Proof.
  unfold bytes_HasPrefix, len. rewrite bool_decide_eq_true. split.
  - intros H. exists (drop (length (data p)) (data s)). by rewrite <-H at 1; rewrite take_drop.
  - intros [k ->]. by rewrite take_app_length.
Qed.

Lemma len_ne key : (len key =? 0) = false → data key ≠ [].
Proof. intros H%Nat.eqb_neq Hd. apply H. unfold len. by rewrite Hd. Qed.

(** ** Printing *)

(** [fmt.Printf("[%X]:\t[%X]\n", key, value)] *)
Definition hex_digit (n : N) : string :=
  String (Ascii.ascii_of_N (if (n <? 10)%N then 48 + n else 55 + n)) "".
Definition fmt_X (b : bytes) : string :=
  foldr (λ c s, (hex_digit (Byte.to_N c / 16) +:+ hex_digit (Byte.to_N c mod 16) +:+ s)%string)
    EmptyString b.
Definition tab : string := String (Ascii.ascii_of_N 9) "".
Definition newline : string := String (Ascii.ascii_of_N 10) "".
Definition print_line (key value : slice) : string :=
  ("[" +:+ fmt_X (data key) +:+ "]:" +:+ tab +:+ "[" +:+ fmt_X (data value) +:+ "]" +:+ newline)%string.

(** ** Errors

    One constructor per error value of the sources.  [errLib] stands for the
    error values of the libraries the backends wrap, named by library and
    message, so that [err == leveldb.ErrNotFound] is a decidable test. *)

Inductive error :=
  | errBatchClosed                                    (* types.go *)
  | errKeyEmpty
  | errValueNil
  | errUnknownOp (opType : Z)                         (* memdb_batch.go *)
  | errInvalidKey (key prefix : bytes)                (* prefixdb_iterator.go *)
  | errUnknownBackend (backend : string) (expected : list string)  (* db.go *)
  | errorsNew (msg : string)                          (* errors.New(msg) *)
  | errorfW (msg : string) (err : error)              (* fmt.Errorf("msg: %w", err) *)
  | errLib (lib msg : string).

#[global] Instance error_eq_decision : EqDecision error.
Proof. solve_decision. Defined.

(** ** Results

    What a call delivers: its value, a non-nil error, a panic, or no result
    within the fuel of a recursive definition.  A Go function of result type
    [(T, error)] is modelled with result type [T]: on a non-nil error the
    sources return the zero value next to it, or pass on the pair they got. *)

Inductive result (A : Type) :=
  | Ok (a : A)
  | Err (e : error)
  | Panic (msg : string)
  | Diverge.
Arguments Ok {_} _.
Arguments Err {_} _.
Arguments Panic {_} _.
Arguments Diverge {_}.

#[global] Instance result_eq_decision `{EqDecision A} : EqDecision (result A).
Proof. solve_decision. Defined.

Definition result_map {A B} (f : A → B) (r : result A) : result B :=
  match r with
  | Ok a => Ok (f a)
  | Err e => Err e
  | Panic msg => Panic msg
  | Diverge => Diverge
  end.

(** A method of an object whose state has type [S]. *)
Definition M (S A : Type) : Type := S → result A * S.

#[global] Instance M_ret S : MRet (M S) := λ A a s, (Ok a, s).
#[global] Instance M_bind S : MBind (M S) := λ A B f m s,
  match m s with
  | (Ok a, s) => f a s
  | (Err e, s) => (Err e, s)
  | (Panic msg, s) => (Panic msg, s)
  | (Diverge, s) => (Diverge, s)
  end.

Section monad.
Context {S : Type}.

Definition throw {A} (e : error) : M S A := λ s, (Err e, s).
Definition panic {A} (msg : string) : M S A := λ s, (Panic msg, s).
Definition get : M S S := λ s, (Ok s, s).
Definition put (s : S) : M S unit := λ _, (Ok tt, s).
Definition modify (f : S → S) : M S unit := λ s, (Ok tt, f s).

(** [x, err := m; ...]: run [m] and hand its error to the caller as a value. *)
Definition attempt {A} (m : M S A) : M S (A + error) := λ s,
  match m s with
  | (Ok a, s) => (Ok (inl a), s)
  | (Err e, s) => (Ok (inr e), s)
  | (Panic msg, s) => (Panic msg, s)
  | (Diverge, s) => (Diverge, s)
  end.

(** [if err != nil { return fmt.Errorf("msg: %w", err) }] *)
Definition wrap_err {A} (msg : string) (m : M S A) : M S A := λ s,
  match m s with
  | (Err e, s) => (Err (errorfW msg e), s)
  | r => r
  end.

(** [defer d()]: [d] runs on return, on an error and on a panic; its own
    result is dropped. *)
Definition deferred {A} (d : M S unit) (m : M S A) : M S A := λ s,
  let '(r, s) := m s in (r, (d s).2).

End monad.

(** A pure result as a method. *)
Definition lift_result {S A} (r : result A) : M S A := λ s, (r, s).

(** Methods of a part of the state. *)
Definition on_fst {S T A} (m : M S A) : M (S * T) A := λ '(s, t),
  let '(r, s) := m s in (r, (s, t)).
Definition on_snd {S T A} (m : M T A) : M (S * T) A := λ '(s, t),
  let '(r, t) := m t in (r, (s, t)).

(** A method called on a field of a struct. *)
Definition on_field {S D A} (proj : S → D) (set : D → S → S) (m : M D A) : M S A := λ s,
  let '(r, d) := m (proj s) in (r, set d s).

Lemma M_bind_Ok {S A B} (m : M S A) (f : A → M S B) s s' a :
  m s = (Ok a, s') → (m ≫= f) s = f a s'.
Proof. intros H. unfold mbind, M_bind. by rewrite H. Qed.

Lemma M_bind_Err {S A B} (m : M S A) (f : A → M S B) s s' e :
  m s = (Err e, s') → (m ≫= f) s = (Err e, s').
Proof. intros H. unfold mbind, M_bind. by rewrite H. Qed.

Lemma M_bind_Panic {S A B} (m : M S A) (f : A → M S B) s s' msg :
  m s = (Panic msg, s') → (m ≫= f) s = (Panic msg, s').
Proof. intros H. unfold mbind, M_bind. by rewrite H. Qed.
