(* ===== verification/Util.v ===== *)
(** * util.go: [cp], [cpIncr], [IsKeyInDomain], [FileExists]

    [cpIncr] is the routine every prefix scan rests on: the range
    [[p, cpIncr p)] must hold exactly the keys that extend [p]. *)

From S2P Require Import Prelude Go.

(** [func cp(bz []byte) (ret []byte)]: [make] never returns nil. *)
Definition cp (bz : slice) : slice := Some (data bz).

(** The loop of [cpIncr], [for i := len(bz) - 1; i >= 0; i--]; [n] is [i + 1].
    An index out of range is a Go panic. *)
Fixpoint cpIncr_loop (n : nat) (ret : bytes) : result slice :=
  match n with
  | O => Ok None
  | S i =>
      match ret !! i with
      | None => Panic "index out of range"
      | Some b =>
          if (Byte.to_N b <? 255)%N then Ok (Some (<[i := byte_incr b]> ret))
          else
            let ret := <[i := x00]> ret in
            if i =? 0 then Ok None else cpIncr_loop i ret
      end
  end.

(** [func cpIncr(bz []byte) (ret []byte)] *)
Definition cpIncr (bz : slice) : result slice :=
  if len bz =? 0 then Panic "cpIncr expects non-zero bz length"
  else cpIncr_loop (len bz) (data (cp bz)).

(** [func IsKeyInDomain(key, start, end []byte) bool] *)
Definition IsKeyInDomain (key start end_ : slice) : bool :=
  if (bytes_Compare key start <? 0)%Z then false
  else if negb (is_nil end_) && (bytes_Compare end_ key <=? 0)%Z then false
  else true.

(** [func FileExists(filePath string) bool] over [os.Stat] and [os.IsNotExist]: a
    file that cannot be looked up for another reason counts as there. *)
Definition FileExists {FileInfo : Type} (os_Stat : string → result FileInfo) (os_IsNotExist : error → bool)
    (filePath : string) : bool :=
  match os_Stat filePath with Err err => negb (os_IsNotExist err) | _ => true end.

(** ** [IsKeyInDomain] as a proposition *)

Definition below (k : bytes) (end_ : slice) : Prop :=
  match end_ with None => True | Some e => blt k e end.
Definition in_domain (start end_ : slice) (k : bytes) : Prop :=
  ble (data start) k ∧ below k end_.

#[global] Instance below_dec k end_ : Decision (below k end_).
Proof. destruct end_; simpl; apply _. Defined.
#[global] Instance in_domain_dec start end_ k : Decision (in_domain start end_ k).
Proof. unfold in_domain. apply _. Defined.

Lemma IsKeyInDomain_spec key start end_ :
  IsKeyInDomain key start end_ = bool_decide (in_domain start end_ (data key)).
Proof.
  unfold IsKeyInDomain, in_domain, below.
  destruct (Z.ltb_spec (bytes_Compare key start) 0) as [H|H].
  { apply bytes_Compare_lt in H. rewrite bool_decide_eq_false_2; [done|].
    intros [Hle _]. by apply not_blt in Hle. }
  assert (ble (data start) (data key)).
  { apply not_blt. rewrite <-bytes_Compare_lt. lia. }
  destruct end_ as [e|]; simpl.
  - destruct (Z.leb_spec (bytes_Compare (Some e) key) 0) as [H'|H'].
    + apply bytes_Compare_le in H'. rewrite bool_decide_eq_false_2; [done|].
      intros [_ Hlt]. by apply not_ble in Hlt.
    + rewrite bool_decide_eq_true_2; [done|]. split; [done|].
      apply not_ble. change e with (data (Some e)). rewrite <-bytes_Compare_le. lia.
  - by rewrite bool_decide_eq_true_2.
Qed.

(** ** [cpIncr] against a reference definition

    [incr_ref] increments from the left, by structural recursion. *)

Fixpoint incr_ref (bz : bytes) : slice :=
  match bz with
  | [] => None
  | b :: bz =>
      match incr_ref bz with
      | Some bz' => Some (b :: bz')
      | None =>
          if (Byte.to_N b <? 255)%N
          then Some (byte_incr b :: replicate (length bz) x00)
          else None
      end
  end.

Lemma incr_ref_snoc bz b :
  incr_ref (bz ++ [b]) =
    if (Byte.to_N b <? 255)%N then Some (bz ++ [byte_incr b])
    else (λ bz', bz' ++ [x00]) <$> incr_ref bz.
Proof.
  induction bz as [|c bz IH]; simpl; [by case_match|]. rewrite IH.
  destruct (Byte.to_N b <? 255)%N eqn:Hb; [done|].
  destruct (incr_ref bz); [done|]. simpl.
  case_match; [|done]. rewrite length_app, Nat.add_1_r. simpl.
  do 2 f_equal. apply (replicate_S_end (length bz)).
Qed.

(** The loop never touches what lies right of its index, and its carry is the
    carry of the reference definition. *)
Lemma cpIncr_loop_ref pre post :
  cpIncr_loop (length pre) (pre ++ post) = Ok ((λ bz, bz ++ post) <$> incr_ref pre).
Proof.
  revert post. induction pre as [|b pre IH] using rev_ind; intros post; [done|].
  rewrite length_app, Nat.add_1_r. simpl.
  rewrite <-(assoc_L (++)). simpl. rewrite list_lookup_middle by done.
  rewrite incr_ref_snoc. destruct (Byte.to_N b <? 255)%N; simpl.
  { do 2 f_equal. by rewrite insert_app_r_alt, Nat.sub_diag, <-(assoc_L (++)) by lia. }
  rewrite insert_app_r_alt, Nat.sub_diag by lia. simpl.
  destruct (Nat.eqb_spec (length pre) 0) as [Hn|Hn].
  { apply nil_length_inv in Hn. subst pre. reflexivity. }
  rewrite IH. destruct (incr_ref pre); simpl; [|done].
  by rewrite <-(assoc_L (++)).
Qed.

Lemma cpIncr_ref bz : data bz ≠ [] → cpIncr bz = Ok (incr_ref (data bz)).
Proof.
  intros Hne. unfold cpIncr, len.
  destruct (Nat.eqb_spec (length (data bz)) 0) as [H%nil_length_inv|_]; [done|].
  pose proof (cpIncr_loop_ref (data bz) []) as H. rewrite app_nil_r in H. simpl. rewrite H.
  destruct (incr_ref (data bz)); simpl; [by rewrite app_nil_r|done].
Qed.

(** ** Big-endian value *)

Fixpoint be_value (bz : bytes) : N :=
  match bz with
  | [] => 0
  | b :: bz => Byte.to_N b * 256 ^ N.of_nat (length bz) + be_value bz
  end.

Lemma byte_to_N_bound b : (Byte.to_N b < 256)%N.
Proof. by destruct b. Qed.

Lemma be_value_bound bz : (be_value bz < 256 ^ N.of_nat (length bz))%N.
Proof.
  induction bz as [|b bz IH]; [done|]. simpl length. rewrite Nat2N.inj_succ, N.pow_succ_r'.
  simpl. pose proof (byte_to_N_bound b). nia.
Qed.

Lemma be_value_zeros n : be_value (replicate n x00) = 0%N.
Proof. induction n; simpl; lia. Qed.

Lemma incr_ref_length bz bz' : incr_ref bz = Some bz' → length bz' = length bz.
Proof.
  revert bz'. induction bz as [|b bz IH]; intros bz'; simpl; [done|].
  destruct (incr_ref bz) as [bz''|]; [intros [= <-]; simpl; f_equal; auto|].
  case_match; [|done]. intros [= <-]. simpl. by rewrite length_replicate.
Qed.

Lemma incr_ref_value bz :
  match incr_ref bz with
  | Some bz' => be_value bz' = (be_value bz + 1)%N
  | None => (be_value bz + 1 = 256 ^ N.of_nat (length bz))%N
  end.
Proof.
  induction bz as [|b bz IH]; [done|]. simpl incr_ref.
  destruct (incr_ref bz) as [bz'|] eqn:E.
  { simpl. rewrite IH, (incr_ref_length _ _ E). lia. }
  destruct (N.ltb_spec (Byte.to_N b) 255) as [Hb|Hb].
  - simpl. rewrite length_replicate, be_value_zeros, byte_incr_to_N by done. lia.
  - pose proof (byte_to_N_bound b). assert (Byte.to_N b = 255)%N as Hb' by lia.
    simpl length. rewrite Nat2N.inj_succ, N.pow_succ_r'. simpl be_value. rewrite Hb'. lia.
Qed.

Lemma incr_ref_None bz : incr_ref bz = None ↔ Forall (λ b, b = xff) bz.
Proof.
  induction bz as [|b bz IH]; simpl; [by split|].
  rewrite Forall_cons, <-IH. destruct (incr_ref bz); [by split; [|intros [_ ?]]|].
  destruct (N.ltb_spec (Byte.to_N b) 255) as [Hb|Hb].
  { split; [done|]. by intros [-> _]. }
  split; [|done]. intros _. split; [|done]. apply byte_to_N_inj. pose proof (byte_to_N_bound b). simpl. lia.
Qed.

(** ** The range of a prefix

    [[p, cpIncr p)] holds the keys that extend [p] -- and, because [cpIncr]
    keeps the length of its argument and zeroes the bytes it carries over, the
    keys obtained from [cpIncr p] by dropping trailing carry bytes. *)

Definition overshoot (p k : bytes) : Prop :=
  ∃ n, incr_ref p = Some (k ++ replicate (S n) x00).

Lemma blt_zeros n k :
  blt k (replicate n x00) ↔ ∃ m, replicate n x00 = k ++ replicate (S m) x00.
Proof.
  revert k. induction n as [|n IH]; intros k; simpl.
  { split; [by destruct k|]. intros [m H]. by destruct k. }
  destruct k as [|y k]; [split; [|done]; intros _; by exists n|].
  unfold blt in *. simpl. destruct (N.compare_spec (Byte.to_N y) 0) as [Hy|Hy|Hy].
  - apply (byte_to_N_inj y x00) in Hy as ->. rewrite IH. simpl.
    split; intros [m H]; exists m; [by f_equal|by injection H].
  - lia.
  - split; [done|]. intros [m H]. injection H as <- H. simpl in Hy. lia.
Qed.

Lemma incr_ref_not_zeros p n : incr_ref p ≠ Some (replicate n x00).
Proof.
  intros H. pose proof (incr_ref_value p) as Hv. rewrite H, be_value_zeros in Hv. lia.
Qed.

Lemma prefix_cons_iff (x y : byte) (p k : bytes) :
  (x :: p) `prefix_of` (y :: k) ↔ x = y ∧ p `prefix_of` k.
Proof.
  split; [intros H; split; eauto using prefix_cons_inv_1, prefix_cons_inv_2|].
  intros [-> H]. by apply prefix_cons.
Qed.

Lemma bcompare_cons_lt x y (a b : bytes) :
  (Byte.to_N x < Byte.to_N y)%N → bcompare (x :: a) (y :: b) = Lt.
Proof. intros H%N.compare_lt_iff. simpl. by rewrite H. Qed.

Lemma bcompare_cons_gt x y (a b : bytes) :
  (Byte.to_N y < Byte.to_N x)%N → bcompare (x :: a) (y :: b) = Gt.
Proof. intros H%N.compare_gt_iff. simpl. by rewrite H. Qed.

Lemma bcompare_cons_eq x (a b : bytes) : bcompare (x :: a) (x :: b) = bcompare a b.
Proof. simpl. by rewrite N.compare_refl. Qed.

(** The three ways one more byte on the left takes part in the carry. *)
Section carry.
Context (x y : byte) (p k : bytes).
Hypothesis IH : ble p k ∧ below k (incr_ref p) ↔ p `prefix_of` k ∨ overshoot p k.

Lemma in_range_cons_nocarry p' :
  incr_ref p = Some p' →
  ble (x :: p) (y :: k) ∧ blt (y :: k) (x :: p') ↔
    x = y ∧ p `prefix_of` k ∨ ∃ n, x :: p' = (y :: k) ++ replicate (S n) x00.
Proof.
  intros E. unfold overshoot, below in IH. rewrite E in IH. unfold ble, blt in *.
  destruct (N.lt_trichotomy (Byte.to_N x) (Byte.to_N y)) as [H|[H|H]].
  - rewrite (bcompare_cons_gt y x) by done. split; [by intros []|].
    intros [[-> _]|[n [= -> _]]]; lia.
  - apply byte_to_N_inj in H as ->. rewrite !bcompare_cons_eq, IH.
    split; (intros [?|[n Hn]]; [naive_solver|right; exists n]); [by injection Hn as ->|].
    simpl in Hn. by injection Hn as ->.
  - rewrite (bcompare_cons_gt x y) by done. split; [by intros []|].
    intros [[-> _]|[n [= -> _]]]; lia.
Qed.

Lemma in_range_all_ff : incr_ref p = None → ble p k ↔ p `prefix_of` k.
Proof.
  intros E. unfold overshoot in IH. rewrite E in IH. split.
  - intros H. destruct (proj1 IH (conj H I)) as [?|[? [=]]]. done.
  - apply ble_prefix.
Qed.

Lemma in_range_cons_stop :
  incr_ref p = None → (Byte.to_N x < 255)%N →
  ble (x :: p) (y :: k) ∧ blt (y :: k) (byte_incr x :: replicate (length p) x00) ↔
    x = y ∧ p `prefix_of` k ∨
    ∃ n, byte_incr x :: replicate (length p) x00 = (y :: k) ++ replicate (S n) x00.
Proof.
  intros E Hx. rewrite <-in_range_all_ff by done. pose proof (byte_incr_to_N x Hx) as Hi.
  assert (Hov : (∃ n, byte_incr x :: replicate (length p) x00 = (y :: k) ++ replicate (S n) x00)
    ↔ y = byte_incr x ∧ blt k (replicate (length p) x00)).
  { rewrite blt_zeros. split; [intros [n [= <- H]]; eauto|]. intros [-> [n Hn]].
    exists n. simpl. by f_equal. }
  rewrite Hov. unfold ble, blt.
  destruct (N.lt_trichotomy (Byte.to_N x) (Byte.to_N y)) as [H|[H|H]].
  - rewrite (bcompare_cons_lt x y) by done.
    destruct (decide (y = byte_incr x)) as [->|Hne].
    + rewrite bcompare_cons_eq. split; [intros [_ ?]; by right|].
      intros [[Hxi _]|[_ ?]]; [rewrite <-Hxi in H; lia|done].
    + assert (Byte.to_N y ≠ Byte.to_N (byte_incr x)) by (by intros ?%byte_to_N_inj).
      rewrite bcompare_cons_gt by lia. split; [by intros []|].
      intros [[-> _]|[? _]]; [lia|done].
  - apply byte_to_N_inj in H as ->. rewrite bcompare_cons_eq, bcompare_cons_lt by lia.
    split; [naive_solver|]. intros [?|[Hy _]]; [naive_solver|]. rewrite <-Hy in Hi. lia.
  - rewrite (bcompare_cons_gt x y) by done. split; [by intros []|].
    intros [[-> _]|[-> _]]; lia.
Qed.

Lemma in_range_cons_all :
  incr_ref p = None → ¬ (Byte.to_N x < 255)%N →
  ble (x :: p) (y :: k) ↔ x = y ∧ p `prefix_of` k.
Proof.
  intros E Hx. rewrite <-in_range_all_ff by done. pose proof (byte_to_N_bound y) as Hy. unfold ble.
  destruct (N.lt_trichotomy (Byte.to_N x) (Byte.to_N y)) as [H|[H|H]]; [lia| |].
  - apply byte_to_N_inj in H as ->. rewrite bcompare_cons_eq. tauto.
  - rewrite (bcompare_cons_gt x y) by done. split; [done|]. intros [-> _]. lia.
Qed.
End carry.

Lemma in_range_incr_ref p k :
  ble p k ∧ below k (incr_ref p) ↔ p `prefix_of` k ∨ overshoot p k.
Proof.
  revert k. induction p as [|x p IH]; intros k.
  { split; [intros _; left; apply prefix_nil|]. intros _. split; [apply ble_nil|done]. }
  destruct k as [|y k].
  { split; [by intros []|]. intros [H|[n H]]; [by apply prefix_nil_not in H|].
    by apply incr_ref_not_zeros in H. }
  specialize (IH k). rewrite prefix_cons_iff. unfold overshoot. simpl incr_ref.
  destruct (incr_ref p) as [p'|] eqn:E.
  - rewrite <-E in IH. simpl below. rewrite (in_range_cons_nocarry x y p k IH p' E).
    split; (intros [?|[n Hn]]; [by left|right; exists n; congruence]).
  - rewrite <-E in IH. destruct (N.ltb_spec (Byte.to_N x) 255) as [Hx|Hx].
    + simpl below. rewrite (in_range_cons_stop x y p k IH E Hx).
      split; (intros [?|[n Hn]]; [by left|right; exists n; congruence]).
    + simpl below. rewrite (in_range_cons_all x y p k IH E) by lia.
      split; [naive_solver|]. by intros [?|[n [=]]].
Qed.

(** Where [cpIncr] does not carry, or carries out of the whole slice, the range
    is exact. *)
Definition exact_prefix (p : bytes) : bool :=
  bool_decide (last p ≠ Some xff) || bool_decide (Forall (λ b, b = xff) p).

Lemma exact_prefix_no_overshoot p k : exact_prefix p = true → ¬ overshoot p k.
Proof.
  intros Hp [n Hn]. unfold exact_prefix in Hp. apply orb_true_iff in Hp as [Hp|Hp].
  2:{ apply bool_decide_eq_true in Hp. apply incr_ref_None in Hp. congruence. }
  apply bool_decide_eq_true in Hp. destruct p as [|b p _] using rev_ind; [done|].
  rewrite last_snoc in Hp. rewrite incr_ref_snoc, replicate_S_end, (assoc_L (++)) in Hn.
  destruct (N.ltb_spec (Byte.to_N b) 255) as [Hb|Hb].
  - injection Hn as Hn. apply app_inj_2 in Hn as [_ Hn]; [|done]. injection Hn as Hn.
    pose proof (byte_incr_to_N b Hb) as Hi. rewrite Hn in Hi. simpl in Hi. lia.
  - destruct Hp. f_equal. apply byte_to_N_inj. pose proof (byte_to_N_bound b). simpl. lia.
Qed.

Lemma exact_prefix_range p k :
  exact_prefix p = true → ble p k ∧ below k (incr_ref p) ↔ p `prefix_of` k.
Proof.
  intros Hp. rewrite in_range_incr_ref. pose proof (exact_prefix_no_overshoot p k Hp). tauto.
Qed.

(** ** Theorems *)

(** C17: [cpIncr] is big-endian increment at fixed length: the result has the
    length of the argument and its value plus one; it is nil exactly for
    [0xFF...FF], where the sum does not fit; the empty slice panics, and the loop
    never indexes out of range. *)
Theorem cpIncr_value (bz : slice) :
  match cpIncr bz with
  | Ok (Some r) => length r = length (data bz) ∧ be_value r = (be_value (data bz) + 1)%N
  | Ok None => data bz ≠ [] ∧ Forall (λ b, b = xff) (data bz) ∧
               (be_value (data bz) + 1 = 256 ^ N.of_nat (length (data bz)))%N
  | Panic _ => data bz = []
  | _ => False
  end.
Proof.
  destruct (decide (data bz = [])) as [Hbz|Hbz].
  { unfold cpIncr, len. by rewrite Hbz. }
  rewrite cpIncr_ref by done. pose proof (incr_ref_value (data bz)) as Hv.
  destruct (incr_ref (data bz)) as [r|] eqn:E.
  - by apply incr_ref_length in E.
  - by rewrite <-incr_ref_None.
Qed.

(** C18: the range [[p, cpIncr(p))] that prefix scans use holds exactly the keys
    that extend [p], and besides them only keys that become [cpIncr(p)] when zero
    bytes are appended; there are no such keys when [p] does not end in [0xFF] or
    is all [0xFF]. *)
Theorem cpIncr_range (p : bytes) (e : slice) (k : bytes) :
  cpIncr (Some p) = Ok e →
  (IsKeyInDomain (Some k) (Some p) e = true ↔
     p `prefix_of` k ∨ ∃ n, e = Some (k ++ replicate (S n) x00)) ∧
  (exact_prefix p = true → IsKeyInDomain (Some k) (Some p) e = true ↔ p `prefix_of` k).
Proof.
  intros He. assert (p ≠ []) as Hp by (intros ->; discriminate He).
  rewrite cpIncr_ref in He by done. simplify_eq/=.
  rewrite IsKeyInDomain_spec, bool_decide_eq_true. unfold in_domain. simpl.
  split; [apply in_range_incr_ref|apply exact_prefix_range].
Qed.

Lemma cpIncr_range_witness :
  IsKeyInDomain (Some [x02]) (Some [x01; xff]) (Some [x02; x00]) = true ∧
  ∀ k, IsKeyInDomain (Some k) (Some [x01; xff]) (Some [x02; x00]) = true ↔
    [x01; xff] `prefix_of` k ∨ ∃ n, Some [x02; x00] = Some (k ++ replicate (S n) x00).
Proof.
  split; [reflexivity|]. intros k.
  exact (proj1 (cpIncr_range [x01; xff] (Some [x02; x00]) k eq_refl)).
Defined.

(** [IsKeyInDomain] decides [start <= key < end] in the lexicographic order
    of bytes, a nil [end] being no bound. *)
Theorem IsKeyInDomain_order (key start end_ : slice) :
  IsKeyInDomain key start end_ = true ↔
    bcompare (data start) (data key) ≠ Gt ∧
    match end_ with None => True | Some e => bcompare (data key) e = Lt end.
Proof. rewrite IsKeyInDomain_spec, bool_decide_eq_true. done. Qed.
