(* ===== verification/Spec.v ===== *)
(** * The abstract store

    What the documentation of types.go promises of a database, as functions on
    a finite map from non-empty keys to values: the reference the backends are
    proved to refine. *)

From S2P Require Import Prelude Go Util.

Abbreviation entry := (bytes * bytes)%type.
Abbreviation store := (gmap bytes bytes).

(** ** Entries in key order *)

Definition key_le (x y : entry) : Prop := ble x.1 y.1.
Definition key_lt (x y : entry) : Prop := blt x.1 y.1.

#[global] Instance key_le_dec : RelDecision key_le.
Proof. intros x y. unfold key_le. apply _. Defined.
#[global] Instance key_le_trans : Transitive key_le.
Proof. intros x y z. unfold key_le. apply transitivity. Qed.
#[global] Instance key_le_total : Total key_le.
Proof. intros x y. apply (total ble). Qed.
#[global] Instance key_lt_trans : Transitive key_lt.
Proof. intros x y z. unfold key_lt. apply transitivity. Qed.
#[global] Instance key_lt_irrefl : Irreflexive key_lt.
Proof. intros x. apply (irreflexivity blt). Qed.

Definition entries (m : store) : list entry := merge_sort key_le (map_to_list m).

(** [Iterator(start, end)] visits the entries of the domain in ascending order,
    [ReverseIterator(start, end)] the same entries in descending order. *)
Definition scan (m : store) (start end_ : slice) (reverse_ : bool) : list entry :=
  let l := filter (λ kv, in_domain start end_ kv.1) (entries m) in
  if reverse_ then reverse l else l.

(** ** The operations *)

(** An empty, non-nil bound is refused. *)
Definition bad_bounds (start end_ : slice) : bool :=
  (negb (is_nil start) && (len start =? 0)) || (negb (is_nil end_) && (len end_ =? 0)).

Definition spec_Get (m : store) (key : slice) : result slice :=
  if len key =? 0 then Err errKeyEmpty else Ok (m !! data key).

Definition spec_Has (m : store) (key : slice) : result bool :=
  if len key =? 0 then Err errKeyEmpty else Ok (bool_decide (is_Some (m !! data key))).

Definition spec_Set (m : store) (key value : slice) : result unit * store :=
  if len key =? 0 then (Err errKeyEmpty, m)
  else match value with
       | None => (Err errValueNil, m)
       | Some v => (Ok tt, <[data key := v]> m)
       end.

Definition spec_Delete (m : store) (key : slice) : result unit * store :=
  if len key =? 0 then (Err errKeyEmpty, m) else (Ok tt, delete (data key) m).

(** A batch holds its writes in order; [None] is a written or closed batch. *)
Inductive write := WSet (k v : bytes) | WDelete (k : bytes).
Definition write_key (w : write) : bytes := match w with WSet k _ | WDelete k => k end.

Definition apply_write (m : store) (w : write) : store :=
  match w with WSet k v => <[k := v]> m | WDelete k => delete k m end.
Definition apply_writes (ws : list write) (m : store) : store := foldl apply_write m ws.

Definition spec_batch_Set (b : option (list write)) (key value : slice) :
    result unit * option (list write) :=
  if len key =? 0 then (Err errKeyEmpty, b)
  else match value, b with
       | None, _ => (Err errValueNil, b)
       | Some _, None => (Err errBatchClosed, b)
       | Some v, Some ws => (Ok tt, Some (ws ++ [WSet (data key) v]))
       end.

Definition spec_batch_Delete (b : option (list write)) (key : slice) :
    result unit * option (list write) :=
  if len key =? 0 then (Err errKeyEmpty, b)
  else match b with
       | None => (Err errBatchClosed, b)
       | Some ws => (Ok tt, Some (ws ++ [WDelete (data key)]))
       end.

Definition spec_batch_Write (b : option (list write)) (m : store) : result unit * store :=
  match b with
  | None => (Err errBatchClosed, m)
  | Some ws => (Ok tt, apply_writes ws m)
  end.

Lemma spec_Set_cases m key value :
  (∃ e, (spec_Set m key value).1 = Err e) ∨ (spec_Set m key value).1 = Ok tt.
Proof. unfold spec_Set. case_match; [eauto|]. destruct value; eauto. Qed.

Lemma spec_Delete_cases m key : (∃ e, (spec_Delete m key).1 = Err e) ∨ (spec_Delete m key).1 = Ok tt.
Proof. unfold spec_Delete. case_match; eauto. Qed.

Lemma spec_batch_Set_closed key value : ∃ e, spec_batch_Set None key value = (Err e, None).
Proof. unfold spec_batch_Set. case_match; [eauto|]. destruct value; eauto. Qed.

Lemma spec_batch_Delete_closed key : ∃ e, spec_batch_Delete None key = (Err e, None).
Proof. unfold spec_batch_Delete. case_match; eauto. Qed.

(** ** Facts about the order of entries *)

Lemma elem_of_entries m k v : (k, v) ∈ entries m ↔ m !! k = Some v.
Proof. unfold entries. by rewrite merge_sort_Permutation, elem_of_map_to_list. Qed.

Lemma NoDup_entries_keys m : NoDup (entries m).*1.
Proof. unfold entries. rewrite merge_sort_Permutation. apply NoDup_fst_map_to_list. Qed.

Lemma StronglySorted_strict l :
  StronglySorted key_le l → NoDup l.*1 → StronglySorted key_lt l.
Proof.
  induction 1 as [|x l Hl IH Hx]; intros Hnd; [constructor|].
  apply NoDup_cons in Hnd as [Hnin Hnd]. constructor; [auto|].
  rewrite list.Forall_forall in *. intros y Hy. unfold key_lt. unfold key_le in Hx.
  destruct (proj1 (ble_alt _ _) (Hx y Hy)) as [|Heq]; [done|].
  destruct Hnin. rewrite Heq. by apply list_elem_of_fmap_2.
Qed.

Lemma entries_sorted m : StronglySorted key_lt (entries m).
Proof.
  apply StronglySorted_strict, NoDup_entries_keys. apply (StronglySorted_merge_sort key_le _).
Qed.

Lemma key_lt_NoDup_keys l : StronglySorted key_lt l → NoDup l.*1.
Proof.
  induction 1 as [|x l Hl IH Hx]; simpl; constructor; [|done].
  rewrite list.Forall_forall in Hx. intros (y & Heq & Hy)%list_elem_of_fmap.
  specialize (Hx y Hy). unfold key_lt in Hx. rewrite Heq in Hx.
  by apply (irreflexivity blt) in Hx.
Qed.

Lemma key_lt_elem_inj l k v v' :
  StronglySorted key_lt l → (k, v) ∈ l → (k, v') ∈ l → v = v'.
Proof.
  intros H%key_lt_NoDup_keys H1 H2.
  apply (elem_of_list_to_map_1 (M := gmap bytes)) in H1; [|done].
  apply (elem_of_list_to_map_1 (M := gmap bytes)) in H2; [|done]. congruence.
Qed.

(** The scan is the only ascending list of the entries of the domain. *)
Lemma scan_unique m start end_ l :
  StronglySorted key_lt l →
  (∀ k v, (k, v) ∈ l ↔ m !! k = Some v ∧ in_domain start end_ k) →
  scan m start end_ false = l.
Proof.
  intros Hl Hel. unfold scan.
  apply (StronglySorted_ext key_lt); [by apply StronglySorted_filter, entries_sorted|done|].
  intros [k v]. rewrite list_elem_of_filter, elem_of_entries, Hel. simpl. tauto.
Qed.

Lemma entries_list_to_map l :
  StronglySorted key_lt l → entries (list_to_map l) = l.
Proof.
  intros Hl. apply (StronglySorted_ext key_lt); [apply entries_sorted|done|].
  intros [k v]. rewrite elem_of_entries. symmetry. apply elem_of_list_to_map.
  by apply key_lt_NoDup_keys.
Qed.

Lemma elem_of_scan m start end_ r k v :
  (k, v) ∈ scan m start end_ r ↔ m !! k = Some v ∧ in_domain start end_ k.
Proof.
  unfold scan. destruct r; rewrite ?elem_of_reverse, list_elem_of_filter, elem_of_entries;
    simpl; tauto.
Qed.

Lemma scan_sorted m start end_ : StronglySorted key_lt (scan m start end_ false).
Proof. apply StronglySorted_filter, entries_sorted. Qed.

Lemma scan_reverse m start end_ :
  scan m start end_ true = reverse (scan m start end_ false).
Proof. done. Qed.

Lemma length_scan m start end_ r : length (scan m start end_ r) ≤ size m.
Proof.
  assert (length (scan m start end_ false) ≤ size m).
  { unfold scan, entries. etrans; [apply length_filter|].
    rewrite merge_sort_Permutation. by rewrite length_map_to_list. }
  destruct r; [|done]. by rewrite scan_reverse, length_reverse.
Qed.

Lemma apply_writes_app ws1 ws2 m :
  apply_writes (ws1 ++ ws2) m = apply_writes ws2 (apply_writes ws1 m).
Proof. apply foldl_app. Qed.
