(* ===== verification/Types.v ===== *)
(** * types.go: the interfaces [DB], [Batch], [Iterator] and their contract

    The operations are records of methods in the state monad; the contracts
    state, against the abstract store of [Spec], what the doc comments of
    types.go promise.  A component that uses a database (PrefixDB, the gRPC
    server) is proved against the contract; a backend is proved to meet it. *)

From S2P Require Import Prelude Go Util Spec.

(** ** The interfaces *)

(** [type Iterator interface] *)
Class IteratorOps (I : Type) := {
  it_Domain : I → slice * slice;
  it_Valid : M I bool;
  it_Next : M I unit;
  it_Key : M I slice;
  it_Value : M I slice;
  it_Error : I → option error;
  it_Close : M I unit;
}.

(** [type Batch interface]; [S] is the state of the database it writes to. *)
Class BatchOps (S B : Type) := {
  b_Set : slice → slice → M (B * S) unit;
  b_Delete : slice → M (B * S) unit;
  b_Write : M (B * S) unit;
  b_WriteSync : M (B * S) unit;
  b_Close : M (B * S) unit;
}.

(** [type DB interface]; [Print] delivers the lines it prints. *)
Record DBOps (S I B : Type) := {
  db_Get : slice → M S slice;
  db_Has : slice → M S bool;
  db_Set : slice → slice → M S unit;
  db_SetSync : slice → slice → M S unit;
  db_Delete : slice → M S unit;
  db_DeleteSync : slice → M S unit;
  db_Iterator : slice → slice → M S I;
  db_ReverseIterator : slice → slice → M S I;
  db_Close : M S unit;
  db_NewBatch : M S B;
  db_Print : M S (list string);
  db_Stats : M S (gmap string string);
}.
Arguments db_Get {_ _ _} _ _ _.
Arguments db_Has {_ _ _} _ _ _.
Arguments db_Set {_ _ _} _ _ _ _.
Arguments db_SetSync {_ _ _} _ _ _ _.
Arguments db_Delete {_ _ _} _ _ _.
Arguments db_DeleteSync {_ _ _} _ _ _.
Arguments db_Iterator {_ _ _} _ _ _ _.
Arguments db_ReverseIterator {_ _ _} _ _ _ _.
Arguments db_Close {_ _ _} _ _.
Arguments db_NewBatch {_ _ _} _ _.
Arguments db_Print {_ _ _} _ _.
Arguments db_Stats {_ _ _} _ _.

(** ** Replies

    [reply m s r Q]: called in state [s], the method [m] delivers [r] and
    leaves a state that satisfies [Q]. *)

Definition reply {S A} (m : M S A) (s : S) (r : result A) (Q : S → Prop) : Prop :=
  ∃ s', m s = (r, s') ∧ Q s'.

Section reply.
Context {S : Type}.
Implicit Types (s : S).

Lemma reply_ret {A} (a : A) s (Q : S → Prop) : Q s → reply (mret a) s (Ok a) Q.
Proof. intros. by exists s. Qed.

Lemma reply_throw {A} e s (Q : S → Prop) : Q s → reply (throw (A := A) e) s (Err e) Q.
Proof. intros. by exists s. Qed.

Lemma reply_panic {A} msg s (Q : S → Prop) : Q s → reply (panic (A := A) msg) s (Panic msg) Q.
Proof. intros. by exists s. Qed.

Lemma reply_bind {A B} (m : M S A) (f : A → M S B) s a r (Q R : S → Prop) :
  reply m s (Ok a) Q → (∀ s', Q s' → reply (f a) s' r R) → reply (m ≫= f) s r R.
Proof.
  intros (s1 & Hm & HQ) Hf. destruct (Hf s1 HQ) as (s2 & H2 & HR).
  exists s2. by rewrite (M_bind_Ok _ _ _ _ _ Hm).
Qed.

Lemma reply_bind_Err {A B} (m : M S A) (f : A → M S B) s e (Q : S → Prop) :
  reply m s (Err e) Q → reply (m ≫= f) s (Err e) Q.
Proof. intros (s1 & Hm & HQ). exists s1. by rewrite (M_bind_Err _ _ _ _ _ Hm). Qed.

Lemma reply_bind_Panic {A B} (m : M S A) (f : A → M S B) s msg (Q : S → Prop) :
  reply m s (Panic msg) Q → reply (m ≫= f) s (Panic msg) Q.
Proof. intros (s1 & Hm & HQ). exists s1. by rewrite (M_bind_Panic _ _ _ _ _ Hm). Qed.

Lemma reply_mono {A} (m : M S A) s r (Q R : S → Prop) :
  reply m s r Q → (∀ s', Q s' → R s') → reply m s r R.
Proof. intros (s1 & ? & ?) HQR. exists s1. auto. Qed.

Lemma reply_det {A} (m : M S A) s r1 r2 (Q R : S → Prop) :
  reply m s r1 Q → reply m s r2 R → r1 = r2.
Proof. intros (s1 & ? & ?) (s2 & ? & ?). congruence. Qed.

End reply.

Lemma on_fst_reply {S T A} (m : M S A) (s : S) (t : T) r (Q : S → Prop) :
  reply m s r Q → reply (on_fst m) (s, t) r (λ st, Q st.1 ∧ st.2 = t).
Proof. intros (s' & H & HQ). exists (s', t). unfold on_fst. by rewrite H. Qed.

Lemma on_field_reply {S D A} (proj : S → D) (set : D → S → S) (m : M D A) s r (Q : D → Prop) :
  (∀ d s, proj (set d s) = d) → reply m (proj s) r Q →
  reply (on_field proj set m) s r (λ s', Q (proj s')).
Proof.
  intros Hps (d & H & HQ). exists (set d s). unfold on_field. rewrite H. by rewrite Hps.
Qed.

(** ** The contract of an iterator

    [it_rep it start end l]: the iterator [it] of domain [(start, end)] has
    still to deliver exactly the entries [l], in that order. *)

Definition invalid_msg : string := "iterator is invalid".

Class IteratorContract (I : Type) `{!IteratorOps I} := {
  it_rep : I → slice → slice → list entry → Prop;
  law_Valid it s e l : it_rep it s e l →
    reply it_Valid it (Ok (bool_decide (l ≠ []))) (λ it', it_rep it' s e l);
  law_Next it s e x l : it_rep it s e (x :: l) →
    reply it_Next it (Ok tt) (λ it', it_rep it' s e l);
  law_Next_invalid it s e : it_rep it s e [] →
    reply it_Next it (Panic invalid_msg) (λ it', it_rep it' s e []);
  law_Key it s e k v l : it_rep it s e ((k, v) :: l) →
    reply it_Key it (Ok (Some k)) (λ it', it_rep it' s e ((k, v) :: l));
  law_Key_invalid it s e : it_rep it s e [] →
    reply it_Key it (Panic invalid_msg) (λ it', it_rep it' s e []);
  law_Value it s e k v l : it_rep it s e ((k, v) :: l) →
    reply it_Value it (Ok (Some v)) (λ it', it_rep it' s e ((k, v) :: l));
  law_Value_invalid it s e : it_rep it s e [] →
    reply it_Value it (Panic invalid_msg) (λ it', it_rep it' s e []);
  law_Error it s e l : it_rep it s e l → it_Error it = None;
  law_it_Close it s e l : it_rep it s e l → reply it_Close it (Ok tt) (λ _, True);
}.

(** [Domain] returns the bounds the iterator was created with. *)
Class IteratorDomain (I : Type) `{!IteratorOps I, !IteratorContract I} :=
  law_Domain it s e l : it_rep it s e l → it_Domain it = (s, e).

(** Some return them in the other order. *)
Class IteratorBounds (I : Type) `{!IteratorOps I, !IteratorContract I} :=
  law_Bounds it s e l : it_rep it s e l → it_Domain it = (s, e) ∨ it_Domain it = (e, s).
#[global] Instance domain_bounds (I : Type) `{!IteratorOps I, !IteratorContract I, !IteratorDomain I} : IteratorBounds I.
Proof. intros it s e l H. left. by eapply law_Domain. Qed.

(** ** The contract of a database and of its batches *)

(** What a backend can store and look up: some limit the size of keys and
    values, reserve some keys, or limit the number of operations of a batch. *)
Record limits := {
  fits_write : write → Prop;
  fits_read : bytes → Prop;
  batch_limit : option nat;
}.
Definition within (l : limits) (n : nat) : Prop :=
  match batch_limit l with None => True | Some k => n ≤ k end.
Definition no_limits : limits := {| fits_write _ := True; fits_read _ := True; batch_limit := None |}.

Lemma within_le l m n : m ≤ n → within l n → within l m.
Proof. unfold within. destruct (batch_limit l); [lia|done]. Qed.

(** [Set(key, value)] with a nil value is refused before anything is stored. *)
Definition set_fits (l : limits) (key value : slice) : Prop :=
  match value with Some v => fits_write l (WSet (data key) v) | None => True end.
Definition delete_fits (l : limits) (key : slice) : Prop := fits_write l (WDelete (data key)).

(** The methods of a batch except [Close]. *)
Inductive batch_method {S B} `{!BatchOps S B} : M (B * S) unit → Prop :=
  | bm_Set key value : batch_method (b_Set key value)
  | bm_Delete key : batch_method (b_Delete key)
  | bm_Write : batch_method b_Write
  | bm_WriteSync : batch_method b_WriteSync.

Class DBContract {S I B : Type} `{!IteratorOps I, !BatchOps S B} (ops : DBOps S I B) := {
  db_it_contract :: IteratorContract I;
  db_inv : S → Prop;
  db_model : S → store;
  db_fits : limits;
  batch_rep : B → option (list write) → Prop;
  law_Get s key : db_inv s → fits_read db_fits (data key) →
    reply (db_Get ops key) s (spec_Get (db_model s) key)
      (λ s', db_inv s' ∧ db_model s' = db_model s);
  law_Has s key : db_inv s → fits_read db_fits (data key) →
    reply (db_Has ops key) s (spec_Has (db_model s) key)
      (λ s', db_inv s' ∧ db_model s' = db_model s);
  law_Set s key value : db_inv s → set_fits db_fits key value →
    reply (db_Set ops key value) s (spec_Set (db_model s) key value).1
      (λ s', db_inv s' ∧ db_model s' = (spec_Set (db_model s) key value).2);
  law_SetSync s key value : db_inv s → set_fits db_fits key value →
    reply (db_SetSync ops key value) s (spec_Set (db_model s) key value).1
      (λ s', db_inv s' ∧ db_model s' = (spec_Set (db_model s) key value).2);
  law_Delete s key : db_inv s → delete_fits db_fits key →
    reply (db_Delete ops key) s (spec_Delete (db_model s) key).1
      (λ s', db_inv s' ∧ db_model s' = (spec_Delete (db_model s) key).2);
  law_DeleteSync s key : db_inv s → delete_fits db_fits key →
    reply (db_DeleteSync ops key) s (spec_Delete (db_model s) key).1
      (λ s', db_inv s' ∧ db_model s' = (spec_Delete (db_model s) key).2);
  law_Iterator s start end_ : db_inv s → bad_bounds start end_ = false →
    ∃ it, reply (db_Iterator ops start end_) s (Ok it)
        (λ s', db_inv s' ∧ db_model s' = db_model s) ∧
      it_rep it start end_ (scan (db_model s) start end_ false);
  law_ReverseIterator s start end_ : db_inv s → bad_bounds start end_ = false →
    ∃ it, reply (db_ReverseIterator ops start end_) s (Ok it)
        (λ s', db_inv s' ∧ db_model s' = db_model s) ∧
      it_rep it start end_ (scan (db_model s) start end_ true);
  law_Iterator_bad s start end_ : db_inv s → bad_bounds start end_ = true →
    reply (db_Iterator ops start end_) s (Err errKeyEmpty)
      (λ s', db_inv s' ∧ db_model s' = db_model s);
  law_ReverseIterator_bad s start end_ : db_inv s → bad_bounds start end_ = true →
    reply (db_ReverseIterator ops start end_) s (Err errKeyEmpty)
      (λ s', db_inv s' ∧ db_model s' = db_model s);
  law_NewBatch s : db_inv s →
    ∃ b, reply (db_NewBatch ops) s (Ok b) (λ s', db_inv s' ∧ db_model s' = db_model s) ∧
      batch_rep b (Some []);
  law_batch_Set b ws s key value : batch_rep b (Some ws) → db_inv s → set_fits db_fits key value →
    within db_fits (Datatypes.S (length ws)) →
    reply (b_Set key value) (b, s) (spec_batch_Set (Some ws) key value).1
      (λ bs, batch_rep bs.1 (spec_batch_Set (Some ws) key value).2 ∧
             db_inv bs.2 ∧ db_model bs.2 = db_model s);
  law_batch_Delete b ws s key : batch_rep b (Some ws) → db_inv s → delete_fits db_fits key →
    within db_fits (Datatypes.S (length ws)) →
    reply (b_Delete key) (b, s) (spec_batch_Delete (Some ws) key).1
      (λ bs, batch_rep bs.1 (spec_batch_Delete (Some ws) key).2 ∧
             db_inv bs.2 ∧ db_model bs.2 = db_model s);
  law_batch_Write b ws s : batch_rep b (Some ws) → db_inv s →
    reply b_Write (b, s) (Ok tt)
      (λ bs, batch_rep bs.1 None ∧ db_inv bs.2 ∧ db_model bs.2 = apply_writes ws (db_model s));
  law_batch_WriteSync b ws s : batch_rep b (Some ws) → db_inv s →
    reply b_WriteSync (b, s) (Ok tt)
      (λ bs, batch_rep bs.1 None ∧ db_inv bs.2 ∧ db_model bs.2 = apply_writes ws (db_model s));
  (** "Only Close() can be called after, other methods will error." *)
  law_batch_closed b s m : batch_rep b None → db_inv s → batch_method m →
    ∃ e, reply m (b, s) (Err e)
      (λ bs, batch_rep bs.1 None ∧ db_inv bs.2 ∧ db_model bs.2 = db_model s);
  law_batch_Close b ws s : batch_rep b ws → db_inv s →
    reply b_Close (b, s) (Ok tt)
      (λ bs, batch_rep bs.1 None ∧ db_inv bs.2 ∧ db_model bs.2 = db_model s);
  law_Close s : db_inv s → reply (db_Close ops) s (Ok tt) (λ _, True);
}.
