(* ===== verification/TestHelpers.v ===== *)
(** * test_helpers.go: [bz], [randStr]

    [bz] is [Go.bz].  [randStr] draws its characters from a source of random
    numbers, a parameter. *)

From S2P Require Import Prelude Go Util Spec Types.

Definition strChars : bytes := bz "0123456789ABCDEFGHIJKLMNOPQRSTUVWXYZabcdefghijklmnopqrstuvwxyz".

(** The inner loop, [for i := 0; i < 10; i++]; [n] is [10 - i].  It delivers
    [chars] and whether it leaves [MAIN_LOOP]. *)
Fixpoint randStr_inner (n : nat) (length_ : Z) (val : Z) (chars : bytes) : result (bool * bytes) :=
  match n with
  | O => Ok (false, chars)
  | S n =>
      let v := Z.land val 63 in
      if (62 <=? v)%Z then randStr_inner n length_ (Z.shiftr val 6) chars
      else
        match strChars !! Z.to_nat v with
        | None => Panic "index out of range"
        | Some c =>
            let chars := chars ++ [c] in
            if (Z.of_nat (length chars) =? length_)%Z then Ok (true, chars)
            else randStr_inner n length_ (Z.shiftr val 6) chars
        end
  end.

Section randStr.
(** [rand.Int63()] *)
Context {R : Type} (Int63 : R → Z * R).

(** [MAIN_LOOP: for { ... }] *)
Fixpoint randStr_loop (fuel : nat) (length_ : Z) (chars : bytes) : M R bytes := λ r,
  match fuel with
  | O => (Diverge, r)
  | S fuel =>
      let '(val, r) := Int63 r in
      match randStr_inner 10 length_ val chars with
      | Ok (true, chars) => (Ok chars, r)
      | Ok (false, chars) => randStr_loop fuel length_ chars r
      | Err e => (Err e, r)
      | Panic msg => (Panic msg, r)
      | Diverge => (Diverge, r)
      end
  end.

Definition randStr (fuel : nat) (length_ : Z) : M R bytes := randStr_loop fuel length_ [].

(** ** A reference definition *)

(** The first [k] numbers of the source. *)
Fixpoint draws (k : nat) (r : R) : list Z :=
  match k with O => [] | S k => (Int63 r).1 :: draws k (Int63 r).2 end.

(** The ten digits of a number to the base 64, the lowest first; those below 62
    stand for a character. *)
Definition digits (val : Z) : list nat := (λ i, Z.to_nat ((val / 64 ^ Z.of_nat i) mod 64)) <$> seq 0 10.
Definition chars_of (ds : list nat) : bytes := omap (λ d, strChars !! d) ds.
Definition characters (vals : list Z) : bytes := chars_of (mjoin (digits <$> vals)).

Definition alphanumeric (c : byte) : Prop :=
  let n := Byte.to_N c in
  (48 ≤ n ∧ n ≤ 57 ∨ 65 ≤ n ∧ n ≤ 90 ∨ 97 ≤ n ∧ n ≤ 122)%N.

End randStr.

(** ** Facts *)

#[global] Instance alphanumeric_dec c : Decision (alphanumeric c).
Proof. unfold alphanumeric. apply _. Defined.

Lemma strChars_alphanumeric : Forall alphanumeric strChars.
Proof. apply (bool_decide_eq_true_1 _). vm_compute. reflexivity. Qed.

Lemma chars_of_alphanumeric ds : Forall alphanumeric (chars_of ds).
Proof.
  apply list.Forall_forall. intros c (d & _ & Hd)%list_elem_of_omap.
  pose proof strChars_alphanumeric as H. rewrite list.Forall_forall in H. by eapply H, list_elem_of_lookup_2.
Qed.

(** The first [n] digits; [val & 0x3f] and [val >>= 6] on numbers. *)
Definition digs (n : nat) (val : Z) : list nat :=
  (λ i, Z.to_nat ((val / 64 ^ Z.of_nat i) mod 64)) <$> seq 0 n.

Lemma digs_S n val : digs (S n) val = Z.to_nat (val mod 64) :: digs n (val / 64).
Proof.
  unfold digs. simpl. rewrite Z.div_1_r. f_equal. rewrite <-fmap_S_seq, <-list_fmap_compose.
  apply list_fmap_ext. intros j i _. simpl. rewrite Nat2Z.inj_succ, Z.pow_succ_r by lia.
  by rewrite Z.div_div by (lia || apply Z.pow_pos_nonneg; lia).
Qed.

Lemma chars_of_cons d ds c : strChars !! d = Some c → chars_of (d :: ds) = c :: chars_of ds.
Proof. intros H. unfold chars_of. simpl. by rewrite H. Qed.

Lemma chars_of_skip d ds : 62 ≤ d → chars_of (d :: ds) = chars_of ds.
Proof. intros H. unfold chars_of. simpl. by rewrite (lookup_ge_None_2 strChars d). Qed.

(** The inner loop appends the characters of the number until there are enough. *)
Lemma randStr_inner_spec n len val chars : (Z.of_nat (length chars) < len ∨ len ≤ 0)%Z →
  let all := chars ++ chars_of (digs n val) in
  randStr_inner n len val chars =
    if bool_decide (0 < len ≤ Z.of_nat (length all))%Z then Ok (true, take (Z.to_nat len) all)
    else Ok (false, all).
Proof.
  revert val chars. induction n as [|n IH]; intros val chars Hlen all.
  { unfold all. simpl. rewrite app_nil_r. by rewrite bool_decide_eq_false_2 by lia. }
  unfold all. rewrite digs_S. cbn [randStr_inner].
  change 63%Z with (Z.ones 6). rewrite Z.land_ones, Z.shiftr_div_pow2 by lia.
  change (2 ^ 6)%Z with 64%Z. pose proof (Z.mod_pos_bound val 64 ltac:(lia)) as Hv.
  destruct (Z.leb_spec 62 (val mod 64)) as [H62|H62].
  { rewrite chars_of_skip by lia. by apply IH. }
  destruct (lookup_lt_is_Some_2 strChars (Z.to_nat (val mod 64))) as [c Hc].
  { change (length strChars) with 62. lia. }
  rewrite Hc, (chars_of_cons _ _ _ Hc), length_app. simpl length.
  replace (chars ++ c :: chars_of (digs n (val / 64))) with ((chars ++ [c]) ++ chars_of (digs n (val / 64)))
    by by rewrite <-(assoc_L (++)).
  destruct (Z.eqb_spec (Z.of_nat (length chars + 1)) len) as [Heq|Hne].
  - rewrite bool_decide_eq_true_2 by (rewrite !length_app; simpl; lia).
    by rewrite take_app_length' by (rewrite length_app; simpl; lia).
  - apply IH. rewrite length_app. simpl. lia.
Qed.

Section theorems.
Context {R : Type} (Int63 : R → Z * R).

Lemma characters_cons val vals : characters (val :: vals) = chars_of (digs 10 val) ++ characters vals.
Proof. unfold characters, chars_of. cbn [fmap list_fmap mjoin list_join]. by rewrite omap_app. Qed.

Lemma randStr_loop_spec k fuel len chars r :
  (Z.of_nat (length chars) < len)%Z → k ≤ fuel →
  (len ≤ Z.of_nat (length (chars ++ characters (draws Int63 k r))))%Z →
  ∃ r', randStr_loop Int63 fuel len chars r =
    (Ok (take (Z.to_nat len) (chars ++ characters (draws Int63 k r))), r').
Proof.
  revert fuel chars r. induction k as [|k IH]; intros fuel chars r Hlt Hk Hle.
  { simpl in Hle. rewrite app_nil_r in Hle. lia. }
  destruct fuel as [|fuel]; [lia|]. cbn [randStr_loop draws] in *.
  destruct (Int63 r) as [val r1]. simpl fst in *. simpl snd in *.
  rewrite characters_cons, (assoc_L (++)) in *. rewrite randStr_inner_spec by lia.
  case_bool_decide as Hd.
  - exists r1. by rewrite (take_app_le (chars ++ chars_of (digs 10 val))) by lia.
  - apply IH; [|lia|done]. lia.
Qed.

(** C40: a string of [length >= 1] characters is the first [length] of the
    characters the digits of the random numbers stand for, all of them letters
    and digits, and is delivered as soon as there are that many; no index is out
    of range.  For [length <= 0] the loop never ends, whatever the source. *)
Theorem randStr_draws k fuel len r :
  ((1 ≤ len)%Z → (len ≤ Z.of_nat (length (characters (draws Int63 k r))))%Z → k ≤ fuel →
   ∃ s r', randStr Int63 fuel len r = (Ok s, r') ∧ s = take (Z.to_nat len) (characters (draws Int63 k r)) ∧
     Z.of_nat (length s) = len ∧ Forall alphanumeric s) ∧
  ((len ≤ 0)%Z → (randStr Int63 fuel len r).1 = Diverge).
Proof.
  split.
  - intros H1 Hle Hk. destruct (randStr_loop_spec k fuel len [] r) as (r' & Hr); [simpl; lia|done|done|].
    eexists _, r'. split; [exact Hr|]. split; [done|]. split.
    + simpl. rewrite length_take. lia.
    + apply Forall_take, chars_of_alphanumeric.
  - intros H0. unfold randStr. generalize ([] : bytes). revert r. induction fuel as [|fuel IH]; intros r chars; [done|].
    cbn [randStr_loop]. destruct (Int63 r) as [val r1]. rewrite randStr_inner_spec by lia.
    rewrite bool_decide_eq_false_2 by lia. apply IH.
Qed.

End theorems.

(** A source that counts up. *)
Definition counter (n : Z) : Z * Z := (n, (n + 1)%Z).

Lemma randStr_draws_witness :
  ∃ s r', randStr counter 2 12 1000000007%Z = (Ok s, r') ∧ Z.of_nat (length s) = 12%Z ∧ Forall alphanumeric s.
Proof.
  destruct (proj1 (randStr_draws counter 2 2 12 1000000007%Z)) as (s & r' & H1 & _ & H2 & H3).
  - lia.
  - vm_compute. discriminate.
  - lia.
  - exists s, r'. exact (conj H1 (conj H2 H3)).
Defined.
