(* ===== verification/Client.v ===== *)
(** * Client programs over a database

    A client calls the methods of a database, runs batches and iterates with
    the loop the doc comment of [Iterator] (types.go) prescribes.  Against any
    database that meets the contract, every such program gets the answers the
    abstract store gives. *)

From S2P Require Import Prelude Go Util Spec Types.

(** ** The iteration loop

    [for ; itr.Valid(); itr.Next() { k, v := itr.Key(), itr.Value(); ... }] *)

Section collect.
Context {I : Type} `{!IteratorOps I}.

Fixpoint collect (fuel : nat) : M I (list (slice * slice)) :=
  match fuel with
  | O => λ it, (Diverge, it)
  | S fuel =>
      valid ← it_Valid;
      if (valid : bool) then
        k ← it_Key;
        v ← it_Value;
        _ ← it_Next;
        rest ← collect fuel;
        mret ((k, v) :: rest)
      else mret []
  end.

Definition as_slices (l : list entry) : list (slice * slice) :=
  (λ kv, (Some kv.1, Some kv.2)) <$> l.

Lemma collect_spec `{!IteratorContract I} it s e l fuel :
  it_rep it s e l → length l < fuel →
  reply (collect fuel) it (Ok (as_slices l)) (λ it', it_rep it' s e []).
Proof.
  revert it l. induction fuel as [|fuel IH]; intros it l Hrep Hlen; [lia|]. simpl.
  eapply reply_bind; [by apply law_Valid|]. intros it1 H1. destruct l as [|[k v] l].
  { rewrite bool_decide_eq_false_2 by auto. by apply reply_ret. }
  rewrite bool_decide_eq_true_2 by done.
  eapply reply_bind; [eapply law_Key, H1|]. intros it2 H2.
  eapply reply_bind; [eapply law_Value, H2|]. intros it3 H3.
  eapply reply_bind; [eapply law_Next, H3|]. intros it4 H4.
  eapply reply_bind; [apply IH; [exact H4|simpl in Hlen; lia]|]. intros it5 H5.
  by apply reply_ret.
Qed.

(** The whole of the documented usage: the loop, then
    [if err := itr.Error(); err != nil { ... }], and [defer itr.Close()].  The
    client has what it read and what [Error] says. *)
Definition typical_usage (fuel : nat) : M I (list (slice * slice) * option error) :=
  deferred it_Close
    (items ← collect fuel;
     itr ← get;
     mret (items, it_Error itr)).

Lemma typical_usage_eq fuel it it' items :
  collect fuel it = (Ok items, it') → (typical_usage fuel it).1 = Ok (items, it_Error it').
Proof. intros H. unfold typical_usage, deferred, mbind, M_bind. by rewrite H. Qed.

(** An iterator that meets the contract delivers everything and has no error. *)
Lemma typical_usage_spec `{!IteratorContract I} it s e l fuel :
  it_rep it s e l → length l < fuel → (typical_usage fuel it).1 = Ok (as_slices l, None).
Proof.
  intros Hrep Hlen. destruct (collect_spec it s e l fuel Hrep Hlen) as (it' & Hc & Hrep').
  rewrite (typical_usage_eq _ _ _ _ Hc). by rewrite (law_Error it' s e [] Hrep').
Qed.

End collect.

(** ** Programs *)

Inductive batch_call := BSet (key value : slice) | BDelete (key : slice).

Inductive call :=
  | CGet (key : slice)
  | CHas (key : slice)
  | CSet (key value : slice)
  | CSetSync (key value : slice)
  | CDelete (key : slice)
  | CDeleteSync (key : slice)
  | CScan (start end_ : slice) (reverse : bool)
  | CBatch (calls : list batch_call) (sync : bool).

Inductive answer :=
  | AValue (r : result slice)
  | ABool (r : result bool)
  | AUnit (r : result unit)
  | AScan (r : result (list (slice * slice)))
  | ABatch (rs : list (result unit)) (r : result unit).

Section run.
Context {S I B : Type} `{!IteratorOps I, !BatchOps S B} (ops : DBOps S I B).

(** Open an iterator, run the loop, close it. *)
Definition run_scan (fuel : nat) (start end_ : slice) (reverse : bool) :
    M S (list (slice * slice)) :=
  mbind (M := M S) (λ it s, ((deferred it_Close (collect fuel) it).1, s))
    (if reverse then db_ReverseIterator ops start end_ else db_Iterator ops start end_).

Definition run_batch_call (c : batch_call) : M (B * S) unit :=
  match c with
  | BSet key value => b_Set key value
  | BDelete key => b_Delete key
  end.

Fixpoint run_batch_calls (l : list batch_call) (bs : B * S) : list (result unit) * (B * S) :=
  match l with
  | [] => ([], bs)
  | c :: l =>
      let '(r, bs) := run_batch_call c bs in
      let '(rs, bs) := run_batch_calls l bs in (r :: rs, bs)
  end.

(** Create a batch, fill it, write it, close it. *)
Definition run_batch (l : list batch_call) (sync : bool) (s : S) : answer * S :=
  match db_NewBatch ops s with
  | (Ok b, s) =>
      let '(rs, bs) := run_batch_calls l (b, s) in
      let '(r, bs) := (if sync then b_WriteSync else b_Write) bs in
      let '(_, bs) := b_Close bs in
      (ABatch rs r, bs.2)
  | (Err e, s) => (ABatch [] (Err e), s)
  | (Panic msg, s) => (ABatch [] (Panic msg), s)
  | (Diverge, s) => (ABatch [] Diverge, s)
  end.

Definition run_call (fuel : nat) (c : call) (s : S) : answer * S :=
  match c with
  | CGet key => let '(r, s) := db_Get ops key s in (AValue r, s)
  | CHas key => let '(r, s) := db_Has ops key s in (ABool r, s)
  | CSet key value => let '(r, s) := db_Set ops key value s in (AUnit r, s)
  | CSetSync key value => let '(r, s) := db_SetSync ops key value s in (AUnit r, s)
  | CDelete key => let '(r, s) := db_Delete ops key s in (AUnit r, s)
  | CDeleteSync key => let '(r, s) := db_DeleteSync ops key s in (AUnit r, s)
  | CScan start end_ rev => let '(r, s) := run_scan fuel start end_ rev s in (AScan r, s)
  | CBatch l sync => run_batch l sync s
  end.

Fixpoint run_calls (fuel : nat) (cs : list call) (s : S) : list answer * S :=
  match cs with
  | [] => ([], s)
  | c :: cs =>
      let '(a, s) := run_call fuel c s in
      let '(l, s) := run_calls fuel cs s in (a :: l, s)
  end.

End run.

(** ** What the abstract store answers *)

Definition spec_batch_call (ws : option (list write)) (c : batch_call) :
    result unit * option (list write) :=
  match c with
  | BSet key value => spec_batch_Set ws key value
  | BDelete key => spec_batch_Delete ws key
  end.

Fixpoint spec_batch_calls (l : list batch_call) (ws : option (list write)) :
    list (result unit) * option (list write) :=
  match l with
  | [] => ([], ws)
  | c :: l =>
      let '(r, ws) := spec_batch_call ws c in
      let '(rs, ws) := spec_batch_calls l ws in (r :: rs, ws)
  end.

Lemma spec_batch_call_open ws c :
  ∃ ws', (spec_batch_call (Some ws) c).2 = Some ws' ∧ length ws' ≤ S (length ws).
Proof.
  destruct c as [key [v|]|key]; simpl; unfold spec_batch_Set, spec_batch_Delete; case_match;
    eexists; (split; [done|]); rewrite ?length_app; simpl; lia.
Qed.

Definition spec_scan (m : store) (start end_ : slice) (reverse : bool) :
    result (list (slice * slice)) :=
  if bad_bounds start end_ then Err errKeyEmpty
  else Ok (as_slices (scan m start end_ reverse)).

Definition spec_call (c : call) (m : store) : answer * store :=
  match c with
  | CGet key => (AValue (spec_Get m key), m)
  | CHas key => (ABool (spec_Has m key), m)
  | CSet key value | CSetSync key value =>
      let '(r, m) := spec_Set m key value in (AUnit r, m)
  | CDelete key | CDeleteSync key => let '(r, m) := spec_Delete m key in (AUnit r, m)
  | CScan start end_ rev => (AScan (spec_scan m start end_ rev), m)
  | CBatch l _ =>
      let '(rs, ws) := spec_batch_calls l (Some []) in
      let '(r, m) := spec_batch_Write ws m in (ABatch rs r, m)
  end.

Fixpoint spec_calls (cs : list call) (m : store) : list answer * store :=
  match cs with
  | [] => ([], m)
  | c :: cs =>
      let '(a, m) := spec_call c m in
      let '(l, m) := spec_calls cs m in (a :: l, m)
  end.

(** How many entries a program can add: a bound on the length of a scan. *)
Definition call_weight (c : call) : nat :=
  match c with
  | CSet _ _ | CSetSync _ _ => 1
  | CBatch l _ => length l
  | _ => 0
  end.
Definition weight (cs : list call) : nat := sum_list_with call_weight cs.

(** The writes of a program, which the backend must be able to store. *)
Definition batch_call_fits (fits : limits) (c : batch_call) : Prop :=
  match c with
  | BSet key value => set_fits fits key value
  | BDelete key => delete_fits fits key
  end.
Definition call_fits (fits : limits) (c : call) : Prop :=
  match c with
  | CGet key | CHas key => fits_read fits (data key)
  | CSet key value | CSetSync key value => set_fits fits key value
  | CDelete key | CDeleteSync key => delete_fits fits key
  | CBatch l _ => Forall (batch_call_fits fits) l ∧ within fits (length l)
  | _ => True
  end.

Lemma calls_fit_mono (P Q : limits) cs :
  (∀ w, fits_write P w → fits_write Q w) → (∀ k, fits_read P k → fits_read Q k) →
  (∀ n, within P n → within Q n) →
  Forall (call_fits P) cs → Forall (call_fits Q) cs.
Proof.
  intros HPQ Hr Hn Hcs. eapply Forall_impl; [exact Hcs|]. unfold call_fits, set_fits, delete_fits.
  intros [| |? []|? []| | | |l]; simpl; auto. intros [Hl ?]. split; [|auto]. eapply Forall_impl; [exact Hl|].
  intros [? []|]; unfold batch_call_fits, set_fits, delete_fits; simpl; auto.
Qed.

(** A backend without limits. *)
Lemma calls_fit (fits : limits) cs :
  (∀ w, fits_write fits w) → (∀ k, fits_read fits k) → batch_limit fits = None → Forall (call_fits fits) cs.
Proof.
  intros Hall Hread Hnone. apply (calls_fit_mono no_limits); [auto|auto| |].
  { intros n _. unfold within. by rewrite Hnone. }
  apply list.Forall_forall. intros [| |? []|? []| | | |l] _; try done.
  split; [|done]. apply list.Forall_forall. by intros [? []|] _.
Qed.

Lemma no_limits_fit cs : Forall (call_fits no_limits) cs.
Proof. by apply calls_fit. Qed.

(** ** Refinement *)

Section refinement.
Context {S I B : Type} `{!IteratorOps I, !BatchOps S B} (ops : DBOps S I B).
Context `{!DBContract ops}.

Lemma run_scan_spec fuel start end_ rev s :
  db_inv s → size (db_model s) < fuel →
  reply (run_scan ops fuel start end_ rev) s (spec_scan (db_model s) start end_ rev)
    (λ s', db_inv s' ∧ db_model s' = db_model s).
Proof.
  intros Hinv Hfuel. unfold run_scan, spec_scan.
  destruct (bad_bounds start end_) eqn:Hb.
  { apply reply_bind_Err. destruct rev; [by apply law_ReverseIterator_bad|by apply law_Iterator_bad]. }
  assert (∃ it, reply (if rev then db_ReverseIterator ops start end_ else db_Iterator ops start end_)
      s (Ok it) (λ s', db_inv s' ∧ db_model s' = db_model s) ∧
    it_rep it start end_ (scan (db_model s) start end_ rev)) as (it & Hit & Hrep).
  { destruct rev; [by apply law_ReverseIterator|by apply law_Iterator]. }
  eapply reply_bind; [exact Hit|]. intros s' Hs'. exists s'. split; [|done].
  pose proof (length_scan (db_model s) start end_ rev).
  destruct (collect_spec it start end_ _ fuel Hrep) as (it' & Hc & _); [lia|].
  unfold deferred. by rewrite Hc.
Qed.

Lemma run_batch_call_spec c b ws s :
  batch_rep b (Some ws) → db_inv s → batch_call_fits db_fits c → within db_fits (Datatypes.S (length ws)) →
  reply (run_batch_call c) (b, s) (spec_batch_call (Some ws) c).1
    (λ bs, batch_rep bs.1 (spec_batch_call (Some ws) c).2 ∧ db_inv bs.2 ∧ db_model bs.2 = db_model s).
Proof. intros. destruct c; [by apply law_batch_Set|by apply law_batch_Delete]. Qed.

Lemma run_batch_calls_spec l b ws s :
  batch_rep b (Some ws) → db_inv s → Forall (batch_call_fits db_fits) l →
  within db_fits (length ws + length l) →
  ∃ b' s' ws', run_batch_calls l (b, s) = ((spec_batch_calls l (Some ws)).1, (b', s')) ∧
    (spec_batch_calls l (Some ws)).2 = Some ws' ∧ batch_rep b' (Some ws') ∧
    db_inv s' ∧ db_model s' = db_model s.
Proof.
  revert b ws s. induction l as [|c l IH]; intros b ws s Hb Hinv Hfit Hlim; [by exists b, s, ws|].
  apply Forall_cons in Hfit as [Hc Hfit]. simpl in Hlim.
  assert (within db_fits (Datatypes.S (length ws))) as Hone by (eapply within_le, Hlim; lia).
  destruct (run_batch_call_spec c b ws s Hb Hinv Hc Hone) as ([b1 s1] & Hrun & Hb1 & Hinv1 & Hm1).
  simpl. rewrite Hrun. destruct (spec_batch_call_open ws c) as (ws1 & Hws1 & Hlen).
  destruct (spec_batch_call (Some ws) c) as [r o]. simpl in *. subst o.
  destruct (IH b1 ws1 s1 Hb1 Hinv1 Hfit) as (b2 & s2 & ws2 & -> & ? & ? & ? & ?);
    [eapply within_le, Hlim; lia|].
  destruct (spec_batch_calls l (Some ws1)) as [rs o2]. simpl in *. exists b2, s2, ws2.
  repeat split; [done..|congruence].
Qed.

Lemma run_batch_spec l sync s :
  db_inv s → Forall (batch_call_fits db_fits) l → within db_fits (length l) →
  ∃ s', run_batch ops l sync s = ((spec_call (CBatch l sync) (db_model s)).1, s') ∧
    db_inv s' ∧ db_model s' = (spec_call (CBatch l sync) (db_model s)).2.
Proof.
  intros Hinv Hfit Hlim. unfold run_batch. destruct (law_NewBatch s Hinv) as (b & (s1 & -> & Hinv1 & Hm1) & Hb).
  destruct (run_batch_calls_spec l b [] s1 Hb Hinv1 Hfit Hlim) as (b2 & s2 & ws & -> & Hws & Hb2 & Hinv2 & Hm2).
  simpl. destruct (spec_batch_calls l (Some [])) as [rs o]. simpl in *. subst o.
  assert (reply (if sync then b_WriteSync else b_Write) (b2, s2) (Ok tt)
      (λ bs, batch_rep bs.1 None ∧ db_inv bs.2 ∧
             db_model bs.2 = apply_writes ws (db_model s))) as ([b3 s3] & Hw & ? & ? & ?).
  { rewrite <-Hm1, <-Hm2. destruct sync; [by apply law_batch_WriteSync|by apply law_batch_Write]. }
  rewrite Hw. simpl in *.
  destruct (law_batch_Close b3 None s3) as ([b4 s4] & -> & _ & ? & ?); [done..|].
  exists s4. simpl in *.
  repeat split; [done..|congruence].
Qed.

Lemma run_call_spec fuel c s :
  db_inv s → call_fits db_fits c → size (db_model s) < fuel →
  ∃ s', run_call ops fuel c s = ((spec_call c (db_model s)).1, s') ∧
    db_inv s' ∧ db_model s' = (spec_call c (db_model s)).2.
Proof.
  intros Hinv Hfit Hfuel.
  destruct c as [key|key|key v|key v|key|key|start end_ rev|l sync]; simpl in *.
  - destruct (law_Get s key Hinv Hfit) as (s' & -> & ?). by exists s'.
  - destruct (law_Has s key Hinv Hfit) as (s' & -> & ?). by exists s'.
  - destruct (law_Set s key v Hinv Hfit) as (s' & -> & ?). exists s'. by destruct (spec_Set _ _ _).
  - destruct (law_SetSync s key v Hinv Hfit) as (s' & -> & ?). exists s'. by destruct (spec_Set _ _ _).
  - destruct (law_Delete s key Hinv Hfit) as (s' & -> & ?). exists s'. by destruct (spec_Delete _ _).
  - destruct (law_DeleteSync s key Hinv Hfit) as (s' & -> & ?). exists s'. by destruct (spec_Delete _ _).
  - destruct (run_scan_spec fuel start end_ rev s Hinv Hfuel) as (s' & -> & ?). by exists s'.
  - destruct Hfit. by apply run_batch_spec.
Qed.

End refinement.

Lemma size_apply_writes ws m : size (apply_writes ws m) ≤ size m + length ws.
Proof.
  revert m. induction ws as [|w ws IH]; intros m; simpl; [lia|].
  specialize (IH (apply_write m w)). unfold apply_writes in *.
  assert (size (apply_write m w) ≤ S (size m)); [|lia].
  destruct w as [k v|k]; simpl; [rewrite map_size_insert|rewrite map_size_delete];
    case_match; simpl; lia.
Qed.

Lemma spec_batch_calls_length l ws ws' :
  (spec_batch_calls l (Some ws)).2 = Some ws' → length ws' ≤ length ws + length l.
Proof.
  revert ws. induction l as [|c l IH]; intros ws; simpl; [intros [= ->]; lia|].
  destruct (spec_batch_call_open ws c) as (ws1 & H1 & Hl).
  destruct (spec_batch_call (Some ws) c) as [r o]. simpl in *. subst o.
  destruct (spec_batch_calls l (Some ws1)) as [rs o] eqn:E. simpl. intros ->.
  specialize (IH ws1). rewrite E in IH. specialize (IH eq_refl). lia.
Qed.

Lemma spec_batch_calls_open l ws : is_Some (spec_batch_calls l (Some ws)).2.
Proof.
  revert ws. induction l as [|c l IH]; intros ws; simpl; [eauto|].
  destruct (spec_batch_call_open ws c) as (ws1 & H1 & _).
  destruct (spec_batch_call (Some ws) c) as [r o]. simpl in *. subst o.
  specialize (IH ws1). by destruct (spec_batch_calls l (Some ws1)).
Qed.

Lemma spec_call_size c m : size (spec_call c m).2 ≤ size m + call_weight c.
Proof.
  assert (Hset : ∀ key v, size (spec_Set m key v).2 ≤ size m + 1).
  { intros key v. unfold spec_Set. case_match; simpl; [lia|]. destruct v; simpl; [|lia].
    rewrite map_size_insert. case_match; simpl; lia. }
  assert (Hdel : ∀ key, size (spec_Delete m key).2 ≤ size m + 0).
  { intros key. unfold spec_Delete. case_match; simpl; [lia|]. rewrite map_size_delete.
    case_match; simpl; lia. }
  destruct c as [key|key|key v|key v|key|key|start end_ rev|l sync]; simpl; try lia.
  - specialize (Hset key v). by destruct (spec_Set m key v).
  - specialize (Hset key v). by destruct (spec_Set m key v).
  - specialize (Hdel key). by destruct (spec_Delete m key).
  - specialize (Hdel key). by destruct (spec_Delete m key).
  - pose proof (spec_batch_calls_length l []) as Hlen.
    destruct (spec_batch_calls_open l []) as [ws Hws]. specialize (Hlen ws Hws).
    destruct (spec_batch_calls l (Some [])) as [rs o]. simpl in *. subst o. simpl.
    pose proof (size_apply_writes ws m). lia.
Qed.

Section programs.
Context {S I B : Type} `{!IteratorOps I, !BatchOps S B} (ops : DBOps S I B).
Context `{!DBContract ops}.

Lemma run_calls_spec fuel cs s :
  db_inv s → Forall (call_fits db_fits) cs → size (db_model s) + weight cs < fuel →
  ∃ s', run_calls ops fuel cs s = ((spec_calls cs (db_model s)).1, s') ∧
    db_inv s' ∧ db_model s' = (spec_calls cs (db_model s)).2.
Proof.
  revert s. induction cs as [|c cs IH]; intros s Hinv Hfit Hfuel; simpl; [by exists s|].
  apply Forall_cons in Hfit as [Hc Hfit].
  unfold weight in *. simpl in Hfuel.
  destruct (run_call_spec ops fuel c s Hinv Hc) as (s1 & -> & Hinv1 & Hm1); [lia|].
  pose proof (spec_call_size c (db_model s)) as Hsize.
  destruct (spec_call c (db_model s)) as [a m1]. simpl in *. subst m1.
  destruct (IH s1 Hinv1 Hfit) as (s2 & -> & Hinv2 & Hm2); [lia|].
  destruct (spec_calls cs (db_model s1)) as [l m2]. simpl in *. by exists s2.
Qed.

End programs.
