(* ===== verification/BatchLife.v ===== *)
(** * The life of a batch

    Any sequence of calls on one batch, [Write] and [Close] at any place and any
    number of times.  types.go: "Write writes the batch, possibly without
    flushing to disk. Only Close() can be called after, other methods will
    error." *)

From S2P Require Import Prelude Go Util Spec Types Client.

Inductive batch_step :=
  | BCall (c : batch_call)
  | BWrite (sync : bool)
  | BClose.

(** What a call must answer: a result, or some error. *)
Definition answers (r : result unit) (expected : option (result unit)) : Prop :=
  match expected with Some r' => r = r' | None => ∃ e, r = Err e end.

(** The abstract batch: its operations, nothing once it is written or closed. *)
Definition spec_batch_step (c : batch_step) (ws : option (list write)) (m : store) :
    option (result unit) * (option (list write) * store) :=
  match c, ws with
  | BClose, _ => (Some (Ok tt), (None, m))
  | _, None => (None, (None, m))
  | BCall c, Some ws => let '(r, ws) := spec_batch_call (Some ws) c in (Some r, (ws, m))
  | BWrite _, Some ws => (Some (Ok tt), (None, apply_writes ws m))
  end.

Fixpoint spec_batch_steps (l : list batch_step) (ws : option (list write)) (m : store) :
    list (option (result unit)) * store :=
  match l with
  | [] => ([], m)
  | c :: l =>
      let '(r, (ws, m)) := spec_batch_step c ws m in
      let '(rs, m) := spec_batch_steps l ws m in (r :: rs, m)
  end.

Definition batch_step_fits (fits : limits) (c : batch_step) : Prop :=
  match c with BCall c => batch_call_fits fits c | _ => True end.

Section life.
Context {S I B : Type} `{!IteratorOps I, !BatchOps S B}.

Definition run_batch_step (c : batch_step) : M (B * S) unit :=
  match c with
  | BCall c => run_batch_call c
  | BWrite sync => if sync then b_WriteSync else b_Write
  | BClose => b_Close
  end.

Fixpoint run_batch_steps (l : list batch_step) (bs : B * S) : list (result unit) * (B * S) :=
  match l with
  | [] => ([], bs)
  | c :: l =>
      let '(r, bs) := run_batch_step c bs in
      let '(rs, bs) := run_batch_steps l bs in (r :: rs, bs)
  end.

Context (ops : DBOps S I B) `{!DBContract ops}.

(** How many operations the batch can hold after one call more. *)
Lemma spec_batch_step_length c ws m :
  length (default [] (spec_batch_step c ws m).2.1) ≤ Datatypes.S (length (default [] ws)).
Proof.
  destruct c as [c| |], ws as [ws|]; simpl; try lia.
  destruct (spec_batch_call_open ws c) as (ws' & Hws & ?). destruct (spec_batch_call (Some ws) c).
  simpl in *. by subst.
Qed.

Lemma run_batch_step_spec c b ws s :
  batch_rep b ws → db_inv s → batch_step_fits db_fits c →
  (∀ c', c = BCall c' → within db_fits (Datatypes.S (length (default [] ws)))) →
  let spec := spec_batch_step c ws (db_model s) in
  ∃ r, answers r spec.1 ∧
    reply (run_batch_step c) (b, s) r
      (λ bs, batch_rep bs.1 spec.2.1 ∧ db_inv bs.2 ∧ db_model bs.2 = spec.2.2).
Proof.
  intros Hb Hinv Hfit Hlim. assert (c ≠ BClose → ws = None → ∃ r, (∃ e, r = Err e) ∧
    reply (run_batch_step c) (b, s) r
      (λ bs, batch_rep bs.1 None ∧ db_inv bs.2 ∧ db_model bs.2 = db_model s)) as Hclosed.
  { intros Hc ->. destruct (law_batch_closed b s (run_batch_step c) Hb Hinv) as [e He]; [|by eauto].
    destruct c as [[]|[]|]; simpl; (constructor || done). }
  destruct ws as [ws|]; simpl in Hlim.
  - destruct c as [c|sync|]; simpl.
    + pose proof (run_batch_call_spec ops c b ws s Hb Hinv Hfit (Hlim c eq_refl)) as H.
      destruct (spec_batch_call (Some ws) c) as [r ws']. by exists r.
    + exists (Ok tt). split; [done|]. destruct sync; [by apply law_batch_WriteSync|by apply law_batch_Write].
    + exists (Ok tt). split; [done|]. by eapply law_batch_Close.
  - destruct c as [c|sync|]; [by apply Hclosed..|].
    exists (Ok tt). split; [done|]. by eapply law_batch_Close.
Qed.

(** A batch of a database that meets the contract answers every sequence of
    calls as the abstract batch does. *)
Lemma run_batch_steps_spec l b ws s :
  batch_rep b ws → db_inv s → Forall (batch_step_fits db_fits) l →
  within db_fits (length (default [] ws) + length l) →
  let spec := spec_batch_steps l ws (db_model s) in
  ∃ rs b' s', run_batch_steps l (b, s) = (rs, (b', s')) ∧ Forall2 answers rs spec.1 ∧
    db_inv s' ∧ db_model s' = spec.2.
Proof.
  revert b ws s. induction l as [|c l IH]; intros b ws s Hb Hinv Hfit Hlim; simpl; [by exists [], b, s|].
  apply Forall_cons in Hfit as [Hc Hfit]. simpl in Hlim.
  destruct (run_batch_step_spec c b ws s Hb Hinv Hc) as (r & Hr & [b1 s1] & -> & Hb1 & Hinv1 & Hm1);
    [intros _ _; eapply within_le, Hlim; lia|]. simpl in *.
  pose proof (spec_batch_step_length c ws (db_model s)) as Hlen.
  destruct (spec_batch_step c ws (db_model s)) as [o [ws1 m1]]. simpl in *. subst m1.
  destruct (IH b1 ws1 s1 Hb1 Hinv1 Hfit) as (rs & b2 & s2 & -> & Hrs & Hinv2 & Hm2);
    [eapply within_le, Hlim; lia|].
  destruct (spec_batch_steps l ws1 (db_model s1)) as [os m2]. simpl in *.
  exists (r :: rs), b2, s2. split_and!; [done|by constructor|done|done].
Qed.

End life.

(** The call returned: no panic, no endless loop. *)
Definition returned (r : result unit) : Prop := r = Ok tt ∨ ∃ e, r = Err e.

Lemma spec_batch_call_returned ws c : returned (spec_batch_call ws c).1.
Proof.
  unfold returned. destruct c as [key [v|]|key]; simpl; unfold spec_batch_Set, spec_batch_Delete;
    repeat case_match; simpl; eauto.
Qed.

Lemma spec_batch_steps_returned l ws m rs :
  Forall2 answers rs (spec_batch_steps l ws m).1 → Forall returned rs.
Proof.
  revert ws m rs. induction l as [|c l IH]; intros ws m rs; simpl.
  { intros Hnil. apply Forall2_nil_inv_r in Hnil. by subst. }
  assert (∀ r, answers r (spec_batch_step c ws m).1 → returned r) as Hc.
  { unfold returned. intros r. destruct c as [c| |], ws as [ws|]; simpl; auto.
    pose proof (spec_batch_call_returned (Some ws) c) as Hr.
    destruct (spec_batch_call (Some ws) c). simpl in *. intros ->. exact Hr. }
  destruct (spec_batch_step c ws m) as [o [ws1 m1]]. specialize (IH ws1 m1).
  destruct (spec_batch_steps l ws1 m1) as [os m2]. simpl in *.
  intros Hrs. apply Forall2_cons_inv_r in Hrs as (r & rs' & ? & ? & ->). constructor; [by apply Hc|by apply IH].
Qed.
