(* ===== verification/BTree.v ===== *)
(** * The B-tree library (github.com/google/btree)

    MemDB stores its items in a B-tree of a third-party package.  Its methods
    are parameters of the model; [BTreeLaws] states their documented behaviour
    in terms of the ascending list of the stored items.  [RefBTree] is a
    concrete instance (a sorted list) that shows the laws can hold and on which
    MemDB can be evaluated. *)

From S2P Require Import Prelude.

(** ** Traversals

    A traversal calls its visitor on the items of a range, in order, "until
    iterator returns false".  The visitor closes over variables, its state. *)

Section visit.
Context {Item St : Type}.

Fixpoint visit (f : Item → St → bool * St) (l : list Item) (st : St) : St :=
  match l with
  | [] => st
  | i :: l => let '(continue, st) := f i st in if continue then visit f l st else st
  end.

Lemma visit_all (g : Item → St → St) l st :
  visit (λ i st, (true, g i st)) l st = foldl (λ st i, g i st) st l.
Proof. revert st. induction l as [|i l IH]; intros st; simpl; auto. Qed.

End visit.

(** ** Methods and laws *)

Class BTreeOps (Item T : Type) := {
  bt_New : Z → T;
  bt_Get : T → Item → option Item;
  bt_Has : T → Item → bool;
  bt_ReplaceOrInsert : T → Item → option Item * T;
  bt_Delete : T → Item → option Item * T;
  bt_Len : T → Z;
  bt_Ascend {St} : T → (Item → St → bool * St) → St → St;
  bt_Descend {St} : T → (Item → St → bool * St) → St → St;
  bt_AscendGreaterOrEqual {St} : T → Item → (Item → St → bool * St) → St → St;
  bt_AscendRange {St} : T → Item → Item → (Item → St → bool * St) → St → St;
  bt_DescendLessOrEqual {St} : T → Item → (Item → St → bool * St) → St → St;
}.

(** Items are equal for the tree when neither is less than the other. *)
Definition same {Item} (less : Item → Item → bool) (i j : Item) : Prop :=
  less i j = false ∧ less j i = false.

#[global] Instance same_dec {Item} (less : Item → Item → bool) i j : Decision (same less i j).
Proof. unfold same. apply _. Defined.

Class BTreeLaws {Item T : Type} (less : Item → Item → bool) `{!BTreeOps Item T} := {
  bt_ok : T → Prop;
  bt_items : T → list Item;
  bt_sorted t : bt_ok t → StronglySorted (λ i j, less i j = true) (bt_items t);
  bt_New_ok d : bt_ok (bt_New d);
  bt_New_items d : bt_items (bt_New d) = [];
  bt_Get_spec t i j : bt_ok t → bt_Get t i = Some j ↔ j ∈ bt_items t ∧ same less i j;
  bt_Has_spec t i : bt_ok t → bt_Has t i = true ↔ ∃ j, j ∈ bt_items t ∧ same less i j;
  bt_ReplaceOrInsert_ok t i : bt_ok t → bt_ok (bt_ReplaceOrInsert t i).2;
  bt_ReplaceOrInsert_items t i j : bt_ok t →
    j ∈ bt_items (bt_ReplaceOrInsert t i).2 ↔ j = i ∨ (j ∈ bt_items t ∧ ¬ same less i j);
  bt_Delete_ok t i : bt_ok t → bt_ok (bt_Delete t i).2;
  bt_Delete_items t i j : bt_ok t →
    j ∈ bt_items (bt_Delete t i).2 ↔ j ∈ bt_items t ∧ ¬ same less i j;
  bt_Len_spec t : bt_ok t → bt_Len t = Z.of_nat (length (bt_items t));
  bt_Ascend_spec St t (f : Item → St → bool * St) st : bt_ok t →
    bt_Ascend t f st = visit f (bt_items t) st;
  bt_Descend_spec St t (f : Item → St → bool * St) st : bt_ok t →
    bt_Descend t f st = visit f (reverse (bt_items t)) st;
  bt_AscendGreaterOrEqual_spec St t pivot (f : Item → St → bool * St) st : bt_ok t →
    bt_AscendGreaterOrEqual t pivot f st =
      visit f (filter (λ i, less i pivot = false) (bt_items t)) st;
  bt_AscendRange_spec St t ge lt (f : Item → St → bool * St) st : bt_ok t →
    bt_AscendRange t ge lt f st =
      visit f (filter (λ i, less i ge = false ∧ less i lt = true) (bt_items t)) st;
  bt_DescendLessOrEqual_spec St t pivot (f : Item → St → bool * St) st : bt_ok t →
    bt_DescendLessOrEqual t pivot f st =
      visit f (reverse (filter (λ i, less pivot i = false) (bt_items t))) st;
}.

(** ** A concrete instance *)

Module RefBTree.
Section ref.
Context {Item : Type} (less : Item → Item → bool).

Definition t : Type := list Item.

Definition find (l : list Item) (i : Item) : option Item :=
  head (filter (λ j, same less i j) l).
Definition insert (l : list Item) (i : Item) : list Item :=
  filter (λ j, less j i = true) l ++ [i] ++ filter (λ j, less i j = true) l.
Definition remove (l : list Item) (i : Item) : list Item :=
  filter (λ j, ¬ same less i j) l.

Instance ops : BTreeOps Item t := {|
  bt_New _ := [];
  bt_Get l i := find l i;
  bt_Has l i := bool_decide (is_Some (find l i));
  bt_ReplaceOrInsert l i := (find l i, insert l i);
  bt_Delete l i := (find l i, remove l i);
  bt_Len l := Z.of_nat (length l);
  bt_Ascend St l f st := visit f l st;
  bt_Descend St l f st := visit f (reverse l) st;
  bt_AscendGreaterOrEqual St l pivot f st := visit f (filter (λ i, less i pivot = false) l) st;
  bt_AscendRange St l ge lt f st :=
    visit f (filter (λ i, less i ge = false ∧ less i lt = true) l) st;
  bt_DescendLessOrEqual St l pivot f st :=
    visit f (reverse (filter (λ i, less pivot i = false) l)) st;
|}.

Abbreviation lt := (λ i j, less i j = true).
Hypothesis less_irrefl : ∀ i, less i i = false.
Hypothesis less_trans : ∀ i j k, less i j = true → less j k = true → less i k = true.
(** Items the order does not separate compare alike with every other item. *)
Hypothesis same_less : ∀ i j k, same less i j → less i k = less j k.

Lemma lt_irreflexive : Irreflexive lt.
Proof. intros i. unfold complement. by rewrite less_irrefl. Qed.

Lemma lt_transitive : Transitive lt.
Proof. intros i j k. apply less_trans. Qed.

Lemma find_spec l i j : StronglySorted lt l → find l i = Some j ↔ j ∈ l ∧ same less i j.
Proof.
  intros Hl. unfold find. split.
  - intros H. apply head_Some_elem_of in H. by apply list_elem_of_filter in H as [??].
  - intros [Hj Hs]. assert (j ∈ filter (same less i) l) as Hin by by apply list_elem_of_filter.
    assert (StronglySorted lt (filter (same less i) l)) as Hf by by apply StronglySorted_filter.
    destruct (filter (same less i) l) as [|j' l'] eqn:E; [by apply not_elem_of_nil in Hin|].
    simpl. f_equal. apply elem_of_cons in Hin as [->|Hin]; [done|exfalso].
    apply StronglySorted_inv in Hf as [_ Hf]. rewrite list.Forall_forall in Hf.
    assert (same less i j') as Hs'.
    { assert (j' ∈ filter (same less i) l) as [? _]%list_elem_of_filter; [|done].
      rewrite E. apply list_elem_of_here. }
    specialize (Hf j Hin). rewrite <-(same_less i j' j Hs') in Hf. destruct Hs. congruence.
Qed.

Lemma not_same i j : ¬ same less i j ↔ less i j = true ∨ less j i = true.
Proof. unfold same. destruct (less i j), (less j i); naive_solver. Qed.

Lemma insert_sorted l i : StronglySorted lt l → StronglySorted lt (insert l i).
Proof.
  intros Hl. unfold insert. apply StronglySorted_app_2.
  - intros x y [Hx _]%list_elem_of_filter [->|Hy]%elem_of_cons; [done|].
    apply list_elem_of_filter in Hy as [Hy _]. by eapply less_trans.
  - by apply StronglySorted_filter.
  - constructor; [by apply StronglySorted_filter|]. rewrite list.Forall_forall.
    by intros y [Hy _]%list_elem_of_filter.
Qed.

Lemma elem_of_insert l i j : j ∈ insert l i ↔ j = i ∨ (j ∈ l ∧ ¬ same less i j).
Proof.
  unfold insert. rewrite !elem_of_app, list_elem_of_singleton, !list_elem_of_filter, not_same.
  tauto.
Qed.

#[refine] Instance laws : BTreeLaws less := {| bt_ok := StronglySorted lt; bt_items := id |}.
Proof.
  - done.
  - constructor.
  - done.
  - intros. by apply find_spec.
  - intros t i Ht. simpl. rewrite bool_decide_eq_true. unfold is_Some.
    split; intros [j Hj]; exists j; by apply find_spec.
  - intros. by apply insert_sorted.
  - intros. apply elem_of_insert.
  - intros. by apply StronglySorted_filter.
  - intros. simpl. unfold remove. rewrite list_elem_of_filter. tauto.
  - done.
  - done.
  - done.
  - done.
  - done.
  - done.
Defined.

End ref.
End RefBTree.
