(* ===== verification/MemDB.v ===== *)
(** * memdb.go, memdb_batch.go, memdb_iterator.go: the in-memory backend

    The methods of MemDB, of its batches and of its iterators as they behave
    between acquiring and releasing the mutex; [MemDBConc] models the mutex, the
    traversal goroutine and its channel, and shows that an iterator delivers to
    its client what [newMemDBIterator] below computes. *)

From S2P Require Import Prelude Go Util Spec Types BTree.

(** ** Items *)

(** [type item struct] *)
Record item := Item { item_key : slice; item_value : slice }.

(** [func (i item) Less(other btree.Item) bool] *)
Definition item_Less (i other : item) : bool :=
  (bytes_Compare (item_key i) (item_key other) =? -1)%Z.

Definition newKey (key : slice) : item := {| item_key := key; item_value := None |}.
Definition newPair (key value : slice) : item := {| item_key := key; item_value := value |}.

Definition bTreeDegree : Z := 32.

Section memdb.
Context {T : Type} `{!BTreeOps item T}.

(** [type MemDB struct]; the mutex is in [MemDBConc]. *)
Record MemDB := { btree : T }.

(** [func NewMemDB() *MemDB] *)
Definition NewMemDB : MemDB := {| btree := bt_New bTreeDegree |}.

(** ** Database methods *)

Definition MemDB_Get (key : slice) : M MemDB slice :=
  if len key =? 0 then throw errKeyEmpty
  else
    db ← get;
    match bt_Get (btree db) (newKey key) with
    | Some i => mret (item_value i)
    | None => mret None
    end.

Definition MemDB_Has (key : slice) : M MemDB bool :=
  if len key =? 0 then throw errKeyEmpty
  else db ← get; mret (bt_Has (btree db) (newKey key)).

(** [func (db *MemDB) set(key, value []byte)] *)
Definition MemDB_set (key value : slice) : M MemDB unit :=
  modify (λ db, {| btree := (bt_ReplaceOrInsert (btree db) (newPair key value)).2 |}).

(** [func (db *MemDB) delete(key []byte)] *)
Definition MemDB_delete (key : slice) : M MemDB unit :=
  modify (λ db, {| btree := (bt_Delete (btree db) (newKey key)).2 |}).

Definition MemDB_Set (key value : slice) : M MemDB unit :=
  if len key =? 0 then throw errKeyEmpty
  else if is_nil value then throw errValueNil
  else MemDB_set key value.

Definition MemDB_SetSync (key value : slice) : M MemDB unit := MemDB_Set key value.

Definition MemDB_Delete (key : slice) : M MemDB unit :=
  if len key =? 0 then throw errKeyEmpty else MemDB_delete key.

Definition MemDB_DeleteSync (key : slice) : M MemDB unit := MemDB_Delete key.

Definition MemDB_Close : M MemDB unit := mret tt.

Definition MemDB_Print : M MemDB (list string) :=
  db ← get;
  mret (bt_Ascend (btree db)
          (λ i out, (true, out ++ [print_line (item_key i) (item_value i)])) []).

Definition MemDB_Stats : M MemDB (gmap string string) :=
  db ← get;
  mret (<["database.size" := pretty (bt_Len (btree db))]> (<["database.type" := "memDB"]> ∅)).

(** ** Batches *)

Definition opTypeSet : Z := 1.
Definition opTypeDelete : Z := 2.

(** [type operation struct] *)
Record operation := { op_type : Z; op_key : slice; op_value : slice }.

(** [type memDBBatch struct]; [None] is the nil [ops] of a closed batch. *)
Record memDBBatch := { ops : option (list operation) }.

Definition newMemDBBatch : memDBBatch := {| ops := Some [] |}.

Definition memDBBatch_Set (key value : slice) : M memDBBatch unit :=
  if len key =? 0 then throw errKeyEmpty
  else if is_nil value then throw errValueNil
  else
    b ← get;
    match ops b with
    | None => throw errBatchClosed
    | Some l =>
        put {| ops := Some (l ++ [{| op_type := opTypeSet; op_key := key; op_value := value |}]) |}
    end.

Definition memDBBatch_Delete (key : slice) : M memDBBatch unit :=
  if len key =? 0 then throw errKeyEmpty
  else
    b ← get;
    match ops b with
    | None => throw errBatchClosed
    | Some l =>
        put {| ops := Some (l ++ [{| op_type := opTypeDelete; op_key := key; op_value := None |}]) |}
    end.

Definition memDBBatch_Close : M memDBBatch unit := put {| ops := None |}.

(** [for _, op := range b.ops { switch op.opType ... }] *)
Fixpoint write_ops (l : list operation) : M MemDB unit :=
  match l with
  | [] => mret tt
  | op :: l =>
      if (op_type op =? opTypeSet)%Z then
        _ ← MemDB_set (op_key op) (op_value op); write_ops l
      else if (op_type op =? opTypeDelete)%Z then
        _ ← MemDB_delete (op_key op); write_ops l
      else throw (errUnknownOp (op_type op))
  end.

Definition memDBBatch_Write : M (memDBBatch * MemDB) unit :=
  bs ← get;
  match ops bs.1 with
  | None => throw errBatchClosed
  | Some l => _ ← on_snd (write_ops l); on_fst memDBBatch_Close
  end.

Definition memDBBatch_WriteSync : M (memDBBatch * MemDB) unit := memDBBatch_Write.

Definition MemDB_NewBatch : M MemDB memDBBatch := mret newMemDBBatch.

#[global] Instance memDBBatch_ops : BatchOps MemDB memDBBatch := {|
  b_Set key value := on_fst (memDBBatch_Set key value);
  b_Delete key := on_fst (memDBBatch_Delete key);
  b_Write := memDBBatch_Write;
  b_WriteSync := memDBBatch_WriteSync;
  b_Close := on_fst memDBBatch_Close;
|}.

(** ** Iterators *)

(** The visitor of the traversal goroutine.  Its closure holds [skipEqual] and
    the items sent on the channel; until [Close] the context is not done, and
    the send is the only ready case of the [select]. *)
Definition visitor (abortLessThan : slice) (i : item) (st : slice * list item) :
    bool * (slice * list item) :=
  let '(skipEqual, sent) := st in
  if negb (is_nil skipEqual) && bytes_Equal (item_key i) skipEqual then (true, (None, sent))
  else if negb (is_nil abortLessThan) &&
          (bytes_Compare (item_key i) abortLessThan =? -1)%Z then (false, (skipEqual, sent))
  else (true, (skipEqual, sent ++ [i])).

(** The [switch] of the goroutine: the items it sends, in order. *)
Definition traverse (t : T) (start end_ : slice) (reverse : bool) : list item :=
  (match start, end_, reverse with
   | None, None, false => bt_Ascend t (visitor None) (None, [])
   | None, None, true => bt_Descend t (visitor None) (None, [])
   | _, None, false => bt_AscendGreaterOrEqual t (newKey start) (visitor None) (None, [])
   | _, _, false => bt_AscendRange t (newKey start) (newKey end_) (visitor None) (None, [])
   | _, None, true => bt_Descend t (visitor start) (None, [])
   | _, _, true => bt_DescendLessOrEqual t (newKey end_) (visitor start) (end_, [])
   end).2.

(** [type memDBIterator struct]; [ch] is what is still to be received. *)
Record memDBIterator := {
  mit_ch : list item;
  mit_item : option item;
  mit_start : slice;
  mit_end : slice;
  mit_useMtx : bool;
}.

(** [item, ok := <-ch] on a channel that is closed after its last item. *)
Definition receive (it : memDBIterator) : memDBIterator :=
  match mit_ch it with
  | i :: ch => {| mit_ch := ch; mit_item := Some i;
                  mit_start := mit_start it; mit_end := mit_end it;
                  mit_useMtx := mit_useMtx it |}
  | [] => {| mit_ch := []; mit_item := None;
             mit_start := mit_start it; mit_end := mit_end it;
                  mit_useMtx := mit_useMtx it |}
  end.

Definition newMemDBIteratorMtxChoice (db : MemDB) (start end_ : slice) (reverse useMtx : bool) :
    memDBIterator :=
  receive {| mit_ch := traverse (btree db) start end_ reverse; mit_item := None;
             mit_start := start; mit_end := end_; mit_useMtx := useMtx |}.

Definition newMemDBIterator (db : MemDB) (start end_ : slice) (reverse : bool) : memDBIterator :=
  newMemDBIteratorMtxChoice db start end_ reverse true.

Definition memDBIterator_Domain (it : memDBIterator) : slice * slice := (mit_start it, mit_end it).

Definition memDBIterator_Valid : M memDBIterator bool :=
  it ← get; mret (bool_decide (is_Some (mit_item it))).

Definition memDBIterator_assertIsValid : M memDBIterator unit :=
  v ← memDBIterator_Valid; if (v : bool) then mret tt else panic "iterator is invalid".

Definition memDBIterator_Next : M memDBIterator unit :=
  _ ← memDBIterator_assertIsValid; modify receive.

Definition memDBIterator_Error (it : memDBIterator) : option error := None.

(** [i.item.key] on a nil [item] is a nil pointer dereference. *)
Definition deref_item (f : item → slice) : M memDBIterator slice :=
  it ← get;
  match mit_item it with
  | Some i => mret (f i)
  | None => panic "nil pointer dereference"
  end.

Definition memDBIterator_Key : M memDBIterator slice :=
  _ ← memDBIterator_assertIsValid; deref_item item_key.

Definition memDBIterator_Value : M memDBIterator slice :=
  _ ← memDBIterator_assertIsValid; deref_item item_value.

Definition memDBIterator_Close : M memDBIterator unit :=
  modify (λ it, {| mit_ch := []; mit_item := None;
                   mit_start := mit_start it; mit_end := mit_end it;
                  mit_useMtx := mit_useMtx it |}).

#[global] Instance memDBIterator_ops : IteratorOps memDBIterator := {|
  it_Domain := memDBIterator_Domain;
  it_Valid := memDBIterator_Valid;
  it_Next := memDBIterator_Next;
  it_Key := memDBIterator_Key;
  it_Value := memDBIterator_Value;
  it_Error := memDBIterator_Error;
  it_Close := memDBIterator_Close;
|}.

(** [if (start != nil && len(start) == 0) || (end != nil && len(end) == 0)] *)
Definition MemDB_Iterator (start end_ : slice) : M MemDB memDBIterator :=
  if (negb (is_nil start) && (len start =? 0)) || (negb (is_nil end_) && (len end_ =? 0))
  then throw errKeyEmpty
  else db ← get; mret (newMemDBIterator db start end_ false).

Definition MemDB_ReverseIterator (start end_ : slice) : M MemDB memDBIterator :=
  if (negb (is_nil start) && (len start =? 0)) || (negb (is_nil end_) && (len end_ =? 0))
  then throw errKeyEmpty
  else db ← get; mret (newMemDBIterator db start end_ true).

Definition MemDB_IteratorNoMtx (start end_ : slice) : M MemDB memDBIterator :=
  if (negb (is_nil start) && (len start =? 0)) || (negb (is_nil end_) && (len end_ =? 0))
  then throw errKeyEmpty
  else db ← get; mret (newMemDBIteratorMtxChoice db start end_ false false).

Definition MemDB_ReverseIteratorNoMtx (start end_ : slice) : M MemDB memDBIterator :=
  if (negb (is_nil start) && (len start =? 0)) || (negb (is_nil end_) && (len end_ =? 0))
  then throw errKeyEmpty
  else db ← get; mret (newMemDBIteratorMtxChoice db start end_ true false).

Definition MemDB_ops : DBOps MemDB memDBIterator memDBBatch := {|
  db_Get := MemDB_Get;
  db_Has := MemDB_Has;
  db_Set := MemDB_Set;
  db_SetSync := MemDB_SetSync;
  db_Delete := MemDB_Delete;
  db_DeleteSync := MemDB_DeleteSync;
  db_Iterator := MemDB_Iterator;
  db_ReverseIterator := MemDB_ReverseIterator;
  db_Close := MemDB_Close;
  db_NewBatch := MemDB_NewBatch;
  db_Print := MemDB_Print;
  db_Stats := MemDB_Stats;
|}.

End memdb.
Arguments MemDB : clear implicits.
