(* ===== verification/MemDBCorrect.v ===== *)
(** * MemDB meets the contract of a database

    For every B-tree that behaves as documented, MemDB refines the abstract
    store: point operations, batches, forward and reverse iterators. *)

From S2P Require Import Prelude Go Util Spec Types BTree MemDB.

(** ** The order of items *)

Definition item_entry (i : item) : entry := (data (item_key i), data (item_value i)).

Lemma item_Less_blt i j :
  item_Less i j = true ↔ blt (data (item_key i)) (data (item_key j)).
Proof. unfold item_Less. rewrite Z.eqb_eq. apply bytes_Compare_m1. Qed.

Lemma item_Less_false i j :
  item_Less i j = false ↔ ble (data (item_key j)) (data (item_key i)).
Proof. rewrite <-not_true_iff_false, item_Less_blt. apply not_blt. Qed.

Lemma same_item i j : same item_Less i j ↔ data (item_key i) = data (item_key j).
Proof.
  unfold same. rewrite !item_Less_false, !ble_alt. split; [|intros ->; auto].
  intros [[H1|?] [H2|?]]; try congruence.
  destruct (irreflexivity blt (data (item_key i))). by transitivity (data (item_key j)).
Qed.

Lemma item_Less_irrefl i : item_Less i i = false.
Proof. apply item_Less_false. reflexivity. Qed.

Lemma item_Less_trans i j k :
  item_Less i j = true → item_Less j k = true → item_Less i k = true.
Proof. rewrite !item_Less_blt. apply transitivity. Qed.

Lemma same_item_Less i j k : same item_Less i j → item_Less i k = item_Less j k.
Proof. intros H%same_item. unfold item_Less, bytes_Compare. by rewrite H. Qed.

(** The reference B-tree is a B-tree of items. *)
#[global] Instance ref_btree_ops : BTreeOps item (list item) := RefBTree.ops item_Less.
#[global] Instance ref_btree_laws : BTreeLaws item_Less :=
  RefBTree.laws item_Less item_Less_trans same_item_Less.

Section memdb_correct.
Context {T : Type} `{!BTreeOps item T} `{!BTreeLaws (T := T) item_Less}.
Implicit Types (db : MemDB T) (t : T).

(** ** Invariant and abstraction *)

(** No stored key is empty, no stored value is nil. *)
Definition item_ok (i : item) : Prop :=
  data (item_key i) ≠ [] ∧ is_Some (item_value i).

Definition MemDB_inv db : Prop := bt_ok (btree db) ∧ Forall item_ok (bt_items (btree db)).
Definition MemDB_model db : store := list_to_map (item_entry <$> bt_items (btree db)).

Lemma items_sorted t : bt_ok t → StronglySorted key_lt (item_entry <$> bt_items t).
Proof.
  intros Ht. eapply (StronglySorted_fmap item_entry); [|by apply bt_sorted].
  intros i j. apply item_Less_blt.
Qed.

Lemma lookup_model db k v :
  MemDB_inv db →
  MemDB_model db !! k = Some v ↔ ∃ i, i ∈ bt_items (btree db) ∧ item_entry i = (k, v).
Proof.
  intros [Hok _]. unfold MemDB_model.
  rewrite <-elem_of_list_to_map by by apply key_lt_NoDup_keys, items_sorted.
  rewrite list_elem_of_fmap. naive_solver.
Qed.

Lemma entries_model db : MemDB_inv db → entries (MemDB_model db) = item_entry <$> bt_items (btree db).
Proof. intros [Hok _]. by apply entries_list_to_map, items_sorted. Qed.

Lemma inv_item_value db i :
  MemDB_inv db → i ∈ bt_items (btree db) → item_value i = Some (data (item_value i)).
Proof.
  intros [_ Hall] Hi. rewrite list.Forall_forall in Hall.
  destruct (Hall i Hi) as [_ [v Hv]]. by rewrite Hv.
Qed.

(** ** Point operations *)

Lemma MemDB_Get_spec db key :
  MemDB_inv db → MemDB_Get key db = (spec_Get (MemDB_model db) key, db).
Proof.
  intros Hinv. unfold MemDB_Get, spec_Get. case_match; [done|]. simpl.
  unfold mbind, M_bind. simpl. destruct (bt_Get _ _) as [i|] eqn:Hi; simpl; unfold mret, M_ret.
  - apply bt_Get_spec in Hi as [Hin Hs%same_item]; [|apply Hinv].
    do 2 f_equal. rewrite (inv_item_value db i) by done. symmetry.
    apply lookup_model; [done|]. exists i. split; [done|]. unfold item_entry. by rewrite <-Hs.
  - do 2 f_equal. symmetry. apply eq_None_not_Some. intros [v Hv].
    apply lookup_model in Hv as (i & Hin & Heq); [|done].
    assert (bt_Get (btree db) (newKey key) = Some i); [|congruence].
    apply bt_Get_spec; [apply Hinv|]. split; [done|]. apply same_item.
    by injection Heq as -> _.
Qed.

Lemma MemDB_Has_spec db key :
  MemDB_inv db → MemDB_Has key db = (spec_Has (MemDB_model db) key, db).
Proof.
  intros Hinv. unfold MemDB_Has, spec_Has. case_match; [done|].
  unfold mbind, M_bind, mret, M_ret. simpl. do 2 f_equal.
  apply eq_bool_prop_intro. rewrite !Is_true_true, bool_decide_eq_true, bt_Has_spec by apply Hinv.
  split.
  - intros (i & Hin & Hs%same_item). exists (data (item_value i)).
    apply lookup_model; [done|]. exists i. unfold item_entry. by rewrite <-Hs.
  - intros [v (i & Hin & Heq)%lookup_model]; [|done]. exists i. split; [done|].
    apply same_item. by injection Heq as -> _.
Qed.

Lemma MemDB_set_spec db key v :
  MemDB_inv db → data key ≠ [] →
  MemDB_inv {| btree := (bt_ReplaceOrInsert (btree db) (newPair key (Some v))).2 |} ∧
  MemDB_model {| btree := (bt_ReplaceOrInsert (btree db) (newPair key (Some v))).2 |} =
    <[data key := v]> (MemDB_model db).
Proof.
  intros Hinv Hk. pose proof Hinv as [Hok Hall].
  set (db' := {| btree := _ |}).
  assert (MemDB_inv db') as Hinv'.
  { split; [by apply bt_ReplaceOrInsert_ok|]. rewrite list.Forall_forall in *. intros i Hi.
    apply bt_ReplaceOrInsert_items in Hi as [->|[Hi _]]; [|auto|done]. split; [done|by eexists]. }
  split; [done|]. apply map_eq. intros k'. apply option_eq. intros v'.
  rewrite lookup_model by done. simpl. setoid_rewrite bt_ReplaceOrInsert_items; [|done].
  setoid_rewrite same_item. simpl. rewrite lookup_insert_Some, lookup_model by done. split.
  - intros (i & [->|[Hin Hne]] & Heq); [by injection Heq as -> ->; left|].
    right. split; [|by eauto]. by injection Heq as <- _.
  - intros [[<- <-]|[Hne (i & Hin & Heq)]]; [by exists (newPair key (Some v)); eauto|].
    exists i. split; [|done]. right. split; [done|]. by injection Heq as -> _.
Qed.

Lemma MemDB_delete_spec db key :
  MemDB_inv db →
  MemDB_inv {| btree := (bt_Delete (btree db) (newKey key)).2 |} ∧
  MemDB_model {| btree := (bt_Delete (btree db) (newKey key)).2 |} =
    delete (data key) (MemDB_model db).
Proof.
  intros Hinv. pose proof Hinv as [Hok Hall].
  set (db' := {| btree := _ |}).
  assert (MemDB_inv db') as Hinv'.
  { split; [by apply bt_Delete_ok|]. rewrite list.Forall_forall in *. intros i Hi.
    apply bt_Delete_items in Hi as [Hi _]; auto. }
  split; [done|]. apply map_eq. intros k'. apply option_eq. intros v'.
  rewrite lookup_model by done. simpl. setoid_rewrite bt_Delete_items; [|done].
  setoid_rewrite same_item. simpl. rewrite lookup_delete_Some, lookup_model by done. split.
  - intros (i & [Hin Hne] & Heq). split; [|by eauto]. by injection Heq as <- _.
  - intros [Hne (i & Hin & Heq)]. exists i. split; [|done]. split; [done|].
    by injection Heq as -> _.
Qed.

Lemma MemDB_Set_spec db key value :
  MemDB_inv db →
  reply (MemDB_Set key value) db (spec_Set (MemDB_model db) key value).1
    (λ db', MemDB_inv db' ∧ MemDB_model db' = (spec_Set (MemDB_model db) key value).2).
Proof.
  intros Hinv. unfold MemDB_Set, spec_Set. destruct (len key =? 0) eqn:Hk; [by exists db|].
  destruct value as [v|]; [|by exists db]. eexists. split; [done|].
  by apply MemDB_set_spec, len_ne.
Qed.

Lemma MemDB_Delete_spec db key :
  MemDB_inv db →
  reply (MemDB_Delete key) db (spec_Delete (MemDB_model db) key).1
    (λ db', MemDB_inv db' ∧ MemDB_model db' = (spec_Delete (MemDB_model db) key).2).
Proof.
  intros Hinv. unfold MemDB_Delete, spec_Delete. destruct (len key =? 0); [by exists db|].
  eexists. split; [done|]. by apply MemDB_delete_spec.
Qed.

(** ** Batches *)

Inductive op_write : operation → write → Prop :=
  | op_write_Set key v : data key ≠ [] →
      op_write {| op_type := opTypeSet; op_key := key; op_value := Some v |} (WSet (data key) v)
  | op_write_Delete key : data key ≠ [] →
      op_write {| op_type := opTypeDelete; op_key := key; op_value := None |} (WDelete (data key)).

Definition memDBBatch_rep (b : memDBBatch) (ws : option (list write)) : Prop :=
  match ops b, ws with
  | None, None => True
  | Some l, Some ws => Forall2 op_write l ws
  | _, _ => False
  end.

Lemma write_ops_spec l ws db :
  Forall2 op_write l ws → MemDB_inv db →
  reply (write_ops l) db (Ok tt)
    (λ db', MemDB_inv db' ∧ MemDB_model db' = apply_writes ws (MemDB_model db)).
Proof.
  intros Hl. revert db. induction Hl as [|op w l ws Hop Hl IH]; intros db Hinv; simpl.
  { by apply reply_ret. }
  destruct Hop as [key v Hk|key Hk]; simpl.
  - destruct (MemDB_set_spec db key v Hinv Hk) as [Hinv' <-].
    eapply (reply_bind _ _ _ _ _ (eq _)); [by eexists|]. intros ? <-. by apply IH.
  - destruct (MemDB_delete_spec db key Hinv) as [Hinv' <-].
    eapply (reply_bind _ _ _ _ _ (eq _)); [by eexists|]. intros ? <-. by apply IH.
Qed.

Lemma memDBBatch_Set_spec b ws key value db :
  memDBBatch_rep b ws →
  reply (b_Set key value) (b, db) (spec_batch_Set ws key value).1
    (λ bs, memDBBatch_rep bs.1 (spec_batch_Set ws key value).2 ∧ bs.2 = db).
Proof.
  unfold memDBBatch_rep, reply, b_Set. intros Hb. simpl.
  unfold memDBBatch_Set, spec_batch_Set. destruct (len key =? 0) eqn:Hk; [by eexists|].
  destruct value as [v|]; [|by eexists]. unfold mbind, M_bind. simpl.
  destruct (ops b) as [l|] eqn:El, ws as [ws|]; try done; eexists; split; try done; simpl.
  - split; [|done]. apply Forall2_app; [done|]. repeat constructor. by apply len_ne.
  - by rewrite El.
Qed.

Lemma memDBBatch_Delete_spec b ws key db :
  memDBBatch_rep b ws →
  reply (b_Delete key) (b, db) (spec_batch_Delete ws key).1
    (λ bs, memDBBatch_rep bs.1 (spec_batch_Delete ws key).2 ∧ bs.2 = db).
Proof.
  unfold memDBBatch_rep, reply, b_Delete. intros Hb. simpl.
  unfold memDBBatch_Delete, spec_batch_Delete. destruct (len key =? 0) eqn:Hk; [by eexists|].
  unfold mbind, M_bind. simpl.
  destruct (ops b) as [l|] eqn:El, ws as [ws|]; try done; eexists; split; try done; simpl.
  - split; [|done]. apply Forall2_app; [done|]. repeat constructor. by apply len_ne.
  - by rewrite El.
Qed.

Lemma memDBBatch_Write_spec b ws db :
  memDBBatch_rep b ws → MemDB_inv db →
  reply memDBBatch_Write (b, db) (spec_batch_Write ws (MemDB_model db)).1
    (λ bs, memDBBatch_rep bs.1 None ∧ MemDB_inv bs.2 ∧
           MemDB_model bs.2 = (spec_batch_Write ws (MemDB_model db)).2).
Proof.
  unfold memDBBatch_rep, reply, memDBBatch_Write. intros Hb Hinv.
  unfold mbind, M_bind. simpl.
  destruct (ops b) as [l|] eqn:El, ws as [ws|]; try done; simpl.
  - destruct (write_ops_spec l ws db Hb Hinv) as (db' & -> & Hinv' & Hm). simpl. by eexists.
  - eexists. split; [done|]. simpl. by rewrite El.
Qed.

(** ** Iterators *)

(** The visitor, on a descending list none of whose keys is [skipEqual], sends
    the items down to [abortLessThan]. *)
Lemma visitor_down abort skip l acc :
  StronglySorted (λ i j, item_Less j i = true) l →
  Forall (λ i, is_nil skip = true ∨ data (item_key i) ≠ data skip) l →
  (visit (visitor abort) l (skip, acc)).2 =
    acc ++ filter (λ i, ble (data abort) (data (item_key i))) l.
Proof.
  intros Hl. revert acc. induction Hl as [|i l Hl IH Hi]; intros acc Hskip.
  { simpl. by rewrite app_nil_r. }
  apply Forall_cons in Hskip as [Hs Hskip]. simpl.
  assert (negb (is_nil skip) && bytes_Equal (item_key i) skip = false) as ->.
  { destruct Hs as [->|Hne]; [done|]. unfold bytes_Equal. by rewrite bool_decide_eq_false_2, andb_false_r. }
  destruct (negb (is_nil abort) && (bytes_Compare (item_key i) abort =? -1)%Z) eqn:Ha.
  - apply andb_prop in Ha as [_ Ha%Z.eqb_eq%bytes_Compare_m1]. simpl.
    rewrite filter_none; [by rewrite app_nil_r|]. constructor; [by apply not_ble|].
    eapply Forall_impl; [exact Hi|]. intros j Hj%item_Less_blt. simpl.
    apply not_ble. by etrans.
  - rewrite IH by done. rewrite filter_cons, decide_True; [by rewrite <-(assoc_L (++))|].
    apply andb_false_iff in Ha as [Ha|Ha].
    + destruct abort; [done|]. apply ble_nil.
    + apply Z.eqb_neq in Ha. apply not_blt. by rewrite <-bytes_Compare_m1.
Qed.

(** With [skipEqual] set to the end of the range, the end itself is left out. *)
Lemma visitor_skip abort e l :
  StronglySorted (λ i j, item_Less j i = true) l →
  Forall (λ i, ble (data (item_key i)) e) l →
  (visit (visitor abort) l (Some e, [])).2 =
    filter (λ i, ble (data abort) (data (item_key i)) ∧ blt (data (item_key i)) e) l.
Proof.
  intros Hl He. destruct l as [|i l]; [done|].
  pose proof Hl as [Hl' Hi]%StronglySorted_inv.
  assert (Forall (λ j, blt (data (item_key j)) e) l) as Hlt.
  { apply Forall_cons in He as [Hie _]. eapply Forall_impl; [exact Hi|].
    intros j Hj%item_Less_blt. by eapply blt_ble_trans. }
  assert (Hrest : ∀ l', Forall (λ j, blt (data (item_key j)) e) l' →
    filter (λ i, ble (data abort) (data (item_key i)) ∧ blt (data (item_key i)) e) l' =
    filter (λ i, ble (data abort) (data (item_key i))) l').
  { intros l' H. apply filter_ext_in. rewrite list.Forall_forall in H. naive_solver. }
  apply Forall_cons in He as [Hie He]. apply ble_alt in Hie as [Hie|Hie].
  - rewrite visitor_down, Hrest; [done|by constructor|done|].
    constructor; [right; by apply blt_ne|]. eapply Forall_impl; [exact Hlt|].
    intros j Hj. right. by apply blt_ne.
  - simpl. unfold bytes_Equal. simpl. rewrite bool_decide_eq_true_2 by done. simpl.
    rewrite visitor_down by (done || (eapply Forall_impl; [exact Hlt|]; by left)). simpl.
    rewrite filter_cons, decide_False, Hrest; [done|done|].
    rewrite Hie. intros [_ H]. by apply (irreflexivity blt) in H.
Qed.

Lemma visitor_up l acc : (visit (visitor None) l (None, acc)).2 = acc ++ l.
Proof.
  revert acc. induction l as [|i l IH]; intros acc; simpl; [by rewrite app_nil_r|].
  by rewrite IH, <-(assoc_L (++)).
Qed.

Lemma fmap_entry_filter (P : item → Prop) (Q : entry → Prop)
    `{∀ i, Decision (P i), ∀ x, Decision (Q x)} (l : list item) :
  (∀ i, i ∈ l → P i ↔ Q (item_entry i)) →
  item_entry <$> filter P l = filter Q (item_entry <$> l).
Proof.
  induction l as [|i l IH]; intros HPQ; [done|].
  assert (P i ↔ Q (item_entry i)) by apply HPQ, list_elem_of_here.
  assert (∀ j, j ∈ l → P j ↔ Q (item_entry j)) by (intros; apply HPQ; by right).
  rewrite fmap_cons, !filter_cons. repeat case_decide; try tauto; rewrite ?fmap_cons, IH; done.
Qed.

(** The goroutine of an iterator sends the entries of the domain, in the order
    of the iteration: the cases of its [switch] for a forward iterator... *)
Lemma traverse_up t start end_ :
  bt_ok t →
  traverse t start end_ false =
    filter (λ i, in_domain start end_ (data (item_key i))) (bt_items t).
Proof.
  intros Hok. unfold traverse. destruct start as [s|], end_ as [e|];
    rewrite ?bt_Ascend_spec, ?bt_AscendGreaterOrEqual_spec, ?bt_AscendRange_spec by done;
    rewrite visitor_up; simpl.
  - apply list_filter_iff. intros i. by rewrite item_Less_false, item_Less_blt.
  - apply list_filter_iff. intros i. rewrite item_Less_false. unfold in_domain. simpl. tauto.
  - apply list_filter_iff. intros i. by rewrite item_Less_false, item_Less_blt.
  - symmetry. apply filter_all, list.Forall_forall. intros i _. split; [apply ble_nil|done].
Qed.

(** ... and for a reverse iterator, with its [skipEqual] and [abortLessThan]. *)
Lemma traverse_down t start end_ :
  bt_ok t →
  traverse t start end_ true =
    reverse (filter (λ i, in_domain start end_ (data (item_key i))) (bt_items t)).
Proof.
  intros Hok. pose proof (bt_sorted t Hok) as Hs.
  assert (Hdesc : traverse t start None true =
    reverse (filter (λ i, in_domain start None (data (item_key i))) (bt_items t))).
  { assert (traverse t start None true =
      (visit (visitor start) (reverse (bt_items t)) (None, [])).2) as ->.
    { unfold traverse. destruct start; by rewrite bt_Descend_spec. }
    rewrite visitor_down; simpl; [|by apply (StronglySorted_reverse (λ i j, item_Less i j = true))
      |by apply list.Forall_forall; left].
    rewrite filter_reverse. f_equal. apply list_filter_iff. unfold in_domain. simpl. tauto. }
  destruct end_ as [e|]; [clear Hdesc|done].
  assert (traverse t start (Some e) true =
    (visit (visitor start) (reverse (filter (λ i, item_Less (newKey (Some e)) i = false)
      (bt_items t))) (Some e, [])).2) as ->.
  { unfold traverse. destruct start; by rewrite bt_DescendLessOrEqual_spec. }
  rewrite visitor_skip.
  - rewrite filter_reverse, list_filter_filter. f_equal. apply list_filter_iff. intros i.
    rewrite item_Less_false. unfold in_domain. simpl. pose proof (blt_ble (data (item_key i)) e).
    tauto.
  - by apply (StronglySorted_reverse (λ i j, item_Less i j = true)), StronglySorted_filter.
  - rewrite list.Forall_forall. intros i [Hi _]%elem_of_reverse%list_elem_of_filter.
    by apply item_Less_false in Hi.
Qed.

Lemma traverse_scan db start end_ r :
  MemDB_inv db →
  item_entry <$> traverse (btree db) start end_ r = scan (MemDB_model db) start end_ r.
Proof.
  intros Hinv. pose proof Hinv as [Hok _]. unfold scan. rewrite entries_model by done.
  rewrite <-(fmap_entry_filter (λ i, in_domain start end_ (data (item_key i)))
    (λ kv, in_domain start end_ kv.1)) by done.
  destruct r; [|by rewrite traverse_up]. by rewrite traverse_down, fmap_reverse.
Qed.

Lemma traverse_ok db start end_ r :
  MemDB_inv db → Forall item_ok (traverse (btree db) start end_ r).
Proof.
  intros [Hok Hall]. rewrite list.Forall_forall in *.
  destruct r; [rewrite traverse_down by done|rewrite traverse_up by done]; intros i Hi.
  - apply elem_of_reverse, list_elem_of_filter in Hi as [_ ?]. auto.
  - apply list_elem_of_filter in Hi as [_ ?]. auto.
Qed.

Definition memDBIterator_rep (it : memDBIterator) (s e : slice) (l : list entry) : Prop :=
  mit_start it = s ∧ mit_end it = e ∧
  Forall item_ok (option_list (mit_item it) ++ mit_ch it) ∧
  (mit_item it = None → mit_ch it = []) ∧
  l = item_entry <$> option_list (mit_item it) ++ mit_ch it.

Lemma receive_rep it s e :
  mit_start it = s → mit_end it = e → Forall item_ok (mit_ch it) →
  memDBIterator_rep (receive it) s e (item_entry <$> mit_ch it).
Proof. intros. unfold receive, memDBIterator_rep. by destruct (mit_ch it) eqn:E. Qed.

Lemma memDBIterator_Valid_spec it s e l :
  memDBIterator_rep it s e l → memDBIterator_Valid it = (Ok (bool_decide (l ≠ [])), it).
Proof.
  intros (_ & _ & _ & Hnil & ->). unfold memDBIterator_Valid, mbind, M_bind, mret, M_ret. simpl.
  do 2 f_equal. apply bool_decide_ext. destruct (mit_item it); simpl.
  - split; [done|eauto].
  - rewrite Hnil by done. by split; [intros []|].
Qed.

Lemma memDBIterator_assert_invalid it s e :
  memDBIterator_rep it s e [] → memDBIterator_assertIsValid it = (Panic invalid_msg, it).
Proof.
  intros H. unfold memDBIterator_assertIsValid, mbind, M_bind.
  by rewrite (memDBIterator_Valid_spec _ _ _ _ H).
Qed.

Lemma memDBIterator_assert_valid it s e x l :
  memDBIterator_rep it s e (x :: l) → memDBIterator_assertIsValid it = (Ok tt, it).
Proof.
  intros H. unfold memDBIterator_assertIsValid, mbind, M_bind.
  by rewrite (memDBIterator_Valid_spec _ _ _ _ H).
Qed.

(** A method that starts with [assertIsValid] panics on an exhausted iterator. *)
Lemma memDBIterator_invalid {A} (f : M memDBIterator A) it s e :
  memDBIterator_rep it s e [] →
  reply (_ ← memDBIterator_assertIsValid; f) it (Panic invalid_msg)
    (λ it', memDBIterator_rep it' s e []).
Proof.
  intros H. apply reply_bind_Panic. exists it.
  by rewrite (memDBIterator_assert_invalid _ _ _ H).
Qed.

Lemma memDBIterator_cons it s e k v l :
  memDBIterator_rep it s e ((k, v) :: l) →
  ∃ i, mit_item it = Some i ∧ item_key i = Some k ∧ item_value i = Some v ∧
    l = item_entry <$> mit_ch it.
Proof.
  intros (_ & _ & Hok & Hnil & Hl). destruct (mit_item it) as [i|]; simpl in *.
  - apply Forall_cons in Hok as [[Hk [v' Hv]] _]. exists i.
    injection Hl as -> -> Hl. rewrite Hv. destruct (item_key i); [done|by destruct Hk].
  - by rewrite Hnil in Hl.
Qed.

(** ... and runs its body on an iterator that has an entry. *)
Lemma memDBIterator_valid {A} (f : M memDBIterator A) it s e k v l r Q :
  memDBIterator_rep it s e ((k, v) :: l) →
  (∀ i, mit_item it = Some i → item_key i = Some k → item_value i = Some v →
    l = item_entry <$> mit_ch it → reply f it r Q) →
  reply (_ ← memDBIterator_assertIsValid; f) it r Q.
Proof.
  intros H Hf. eapply (reply_bind _ _ _ _ _ (eq it)).
  { exists it. by rewrite (memDBIterator_assert_valid _ _ _ _ _ H). }
  intros ? <-. destruct (memDBIterator_cons _ _ _ _ _ _ H) as (i & ? & ? & ? & ?). eauto.
Qed.

Lemma memDBIterator_Next_spec it s e x l :
  memDBIterator_rep it s e (x :: l) →
  reply memDBIterator_Next it (Ok tt) (λ it', memDBIterator_rep it' s e l).
Proof.
  destruct x as [k v]. intros H. apply (memDBIterator_valid _ _ _ _ _ _ _ _ _ H).
  intros i Hi _ _ ->. eexists. split; [done|].
  destruct H as (? & ? & Hok & _ & _). rewrite Hi in Hok. apply receive_rep; [done..|].
  by apply Forall_cons in Hok as [_ ?].
Qed.

Lemma memDBIterator_Key_spec it s e k v l :
  memDBIterator_rep it s e ((k, v) :: l) →
  reply memDBIterator_Key it (Ok (Some k)) (λ it', memDBIterator_rep it' s e ((k, v) :: l)).
Proof.
  intros H. apply (memDBIterator_valid _ _ _ _ _ _ _ _ _ H). intros i Hi Hk _ _.
  exists it. split; [|done]. unfold deref_item, mbind, M_bind. simpl. by rewrite Hi, <-Hk.
Qed.

Lemma memDBIterator_Value_spec it s e k v l :
  memDBIterator_rep it s e ((k, v) :: l) →
  reply memDBIterator_Value it (Ok (Some v)) (λ it', memDBIterator_rep it' s e ((k, v) :: l)).
Proof.
  intros H. apply (memDBIterator_valid _ _ _ _ _ _ _ _ _ H). intros i Hi _ Hv _.
  exists it. split; [|done]. unfold deref_item, mbind, M_bind. simpl. by rewrite Hi, <-Hv.
Qed.

#[global] Instance memDBIterator_contract : IteratorContract memDBIterator.
Proof.
  refine {| it_rep := memDBIterator_rep |}.
  - intros it s e l H. exists it. split; [exact (memDBIterator_Valid_spec _ _ _ _ H)|done].
  - exact memDBIterator_Next_spec.
  - exact (memDBIterator_invalid _).
  - exact memDBIterator_Key_spec.
  - exact (memDBIterator_invalid _).
  - exact memDBIterator_Value_spec.
  - exact (memDBIterator_invalid _).
  - done.
  - intros. by eexists.
Defined.

Lemma newMemDBIterator_rep db start end_ r :
  MemDB_inv db →
  memDBIterator_rep (newMemDBIterator db start end_ r) start end_
    (scan (MemDB_model db) start end_ r).
Proof.
  intros Hinv. rewrite <-traverse_scan by done.
  unfold newMemDBIterator, newMemDBIteratorMtxChoice.
  by apply (receive_rep {| mit_ch := traverse _ _ _ _ |}), traverse_ok.
Qed.

#[global] Instance memDBIterator_domain : IteratorDomain memDBIterator.
Proof. by intros it s e l (<- & <- & _). Qed.

(** ** The contract *)

#[global] Instance MemDB_contract : DBContract (MemDB_ops (T := T)).
Proof.
  refine {| db_inv := MemDB_inv; db_model := MemDB_model; db_fits := no_limits;
            batch_rep := memDBBatch_rep |}.
  - intros s key H _. exists s. by rewrite <-MemDB_Get_spec.
  - intros s key H _. exists s. by rewrite <-MemDB_Has_spec.
  - intros. by apply MemDB_Set_spec.
  - intros. by apply MemDB_Set_spec.
  - intros. by apply MemDB_Delete_spec.
  - intros. by apply MemDB_Delete_spec.
  - intros s start end_ H Hb. exists (newMemDBIterator s start end_ false).
    split; [|by apply newMemDBIterator_rep]. exists s. unfold db_Iterator. simpl.
    unfold MemDB_Iterator. fold (bad_bounds start end_). by rewrite Hb.
  - intros s start end_ H Hb. exists (newMemDBIterator s start end_ true).
    split; [|by apply newMemDBIterator_rep]. exists s. unfold db_ReverseIterator. simpl.
    unfold MemDB_ReverseIterator. fold (bad_bounds start end_). by rewrite Hb.
  - intros s start end_ H Hb. exists s. unfold db_Iterator. simpl.
    unfold MemDB_Iterator. fold (bad_bounds start end_). by rewrite Hb.
  - intros s start end_ H Hb. exists s. unfold db_ReverseIterator. simpl.
    unfold MemDB_ReverseIterator. fold (bad_bounds start end_). by rewrite Hb.
  - intros s H. exists newMemDBBatch. split; [by exists s|]. constructor.
  - intros b ws s key value Hb H _ _.
    eapply reply_mono; [by apply memDBBatch_Set_spec|]. intros [b' s'] [? Hs]. simpl in *. by subst.
  - intros b ws s key Hb H _ _.
    eapply reply_mono; [by apply memDBBatch_Delete_spec|]. intros [b' s'] [? Hs]. simpl in *. by subst.
  - intros b ws s Hb H. exact (memDBBatch_Write_spec b (Some ws) s Hb H).
  - intros b ws s Hb H. exact (memDBBatch_Write_spec b (Some ws) s Hb H).
  - intros b s m Hb H [key value|key| |].
    + destruct (memDBBatch_Set_spec b None key value s Hb) as ([b' s'] & Hr & Hb' & Hs).
      destruct (spec_batch_Set_closed key value) as [e E]. rewrite E in *. simpl in *. subst s'.
      exists e. by exists (b', s).
    + destruct (memDBBatch_Delete_spec b None key s Hb) as ([b' s'] & Hr & Hb' & Hs).
      destruct (spec_batch_Delete_closed key) as [e E]. rewrite E in *. simpl in *. subst s'.
      exists e. by exists (b', s).
    + exists errBatchClosed. exact (memDBBatch_Write_spec b None s Hb H).
    + exists errBatchClosed. exact (memDBBatch_Write_spec b None s Hb H).
  - intros b ws s _ H. by eexists.
  - intros s H. by exists s.
Defined.

Lemma NewMemDB_inv : MemDB_inv NewMemDB ∧ MemDB_model NewMemDB = ∅.
Proof.
  unfold MemDB_inv, MemDB_model, NewMemDB. simpl. rewrite bt_New_items. split; [|done].
  split; [apply bt_New_ok|constructor].
Qed.

End memdb_correct.
