(* ===== verification/MemDBThms.v ===== *)
(** * What MemDB promises its clients *)

From S2P Require Import Prelude Go Util Spec Types Client BTree MemDB MemDBCorrect.

Section theorems.
Context {T : Type} `{!BTreeOps item T} `{!BTreeLaws (T := T) item_Less}.

(** C1: for every B-tree library that behaves as documented, every program of a
    client (reads, writes, batches, scans in both directions, invalid arguments
    included) on a new MemDB gets the answers of the abstract store, and every
    loop of it ends. *)
Theorem MemDB_refines fuel cs :
  weight cs < fuel →
  ∃ db', run_calls (MemDB_ops (T := T)) fuel cs NewMemDB = ((spec_calls cs ∅).1, db') ∧
    MemDB_inv db' ∧ MemDB_model db' = (spec_calls cs ∅).2.
Proof.
  intros Hfuel. destruct (NewMemDB_inv (T := T)) as [Hinv Hm].
  pose proof (run_calls_spec MemDB_ops fuel cs NewMemDB Hinv (no_limits_fit cs)) as H.
  change (db_model NewMemDB) with (MemDB_model (T := T) NewMemDB) in H. rewrite Hm in H.
  apply H. by rewrite map_size_empty.
Qed.

(** An iterator of MemDB delivers the stored entries of its domain, each once, in
    strictly ascending key order, a reverse iterator in the opposite order. *)
Theorem MemDB_scan_sorted fuel start end_ (db : MemDB T) :
  MemDB_inv db → bad_bounds start end_ = false → size (MemDB_model db) < fuel →
  ∃ l, StronglySorted key_lt l ∧
    (∀ k v, (k, v) ∈ l ↔ MemDB_model db !! k = Some v ∧
                         IsKeyInDomain (Some k) start end_ = true) ∧
    reply (run_scan MemDB_ops fuel start end_ false) db (Ok (as_slices l))
      (λ db', MemDB_inv db' ∧ MemDB_model db' = MemDB_model db) ∧
    reply (run_scan MemDB_ops fuel start end_ true) db (Ok (as_slices (reverse l)))
      (λ db', MemDB_inv db' ∧ MemDB_model db' = MemDB_model db).
Proof.
  intros Hinv Hb Hfuel. exists (scan (MemDB_model db) start end_ false).
  split_and!; [apply scan_sorted| |..].
  - intros k v. by rewrite elem_of_scan, IsKeyInDomain_spec, bool_decide_eq_true.
  - pose proof (run_scan_spec (DBContract0 := MemDB_contract) MemDB_ops fuel start end_ false db
      Hinv Hfuel) as H. unfold spec_scan in H. by rewrite Hb in H.
  - pose proof (run_scan_spec (DBContract0 := MemDB_contract) MemDB_ops fuel start end_ true db
      Hinv Hfuel) as H. unfold spec_scan in H. by rewrite Hb in H.
Qed.

(** A batch is written once: a successful [Write] applies its operations in
    order in one step and closes the batch; every method called on a closed batch,
    except [Close], fails with [errBatchClosed] and changes nothing. *)
Theorem memDBBatch_once (b : memDBBatch) (db : MemDB T) ws :
  memDBBatch_rep b (Some ws) → MemDB_inv db →
  ∃ b' db', memDBBatch_Write (b, db) = (Ok tt, (b', db')) ∧
    MemDB_inv db' ∧ MemDB_model db' = apply_writes ws (MemDB_model db) ∧
    (∀ key v, data key ≠ [] → memDBBatch_Set key (Some v) b' = (Err errBatchClosed, b')) ∧
    (∀ key, data key ≠ [] → memDBBatch_Delete key b' = (Err errBatchClosed, b')) ∧
    memDBBatch_Write (b', db') = (Err errBatchClosed, (b', db')) ∧
    memDBBatch_WriteSync (b', db') = (Err errBatchClosed, (b', db')) ∧
    memDBBatch_Close b' = (Ok tt, b').
Proof.
  intros Hb Hinv.
  destruct (memDBBatch_Write_spec b (Some ws) db Hb Hinv) as ([b' db'] & Hw & Hb' & Hinv' & Hm).
  exists b', db'. simpl in *. unfold memDBBatch_rep in Hb'. destruct b' as [[l|]]; [done|].
  assert (∀ key, data key ≠ [] → (len key =? 0) = false) as Hlen.
  { intros key Hk. apply Nat.eqb_neq. unfold len. by destruct (data key). }
  split_and!; try done.
  - intros key v Hk. unfold memDBBatch_Set. by rewrite Hlen.
  - intros key Hk. unfold memDBBatch_Delete. by rewrite Hlen.
Qed.

(** [Print] prints one line per entry, in ascending key order, and [Stats] reports
    the number of entries. *)
Theorem MemDB_Print_Stats (db : MemDB T) :
  MemDB_inv db →
  MemDB_Print db =
    (Ok ((λ kv, print_line (Some kv.1) (Some kv.2)) <$> entries (MemDB_model db)), db) ∧
  ∃ stats, MemDB_Stats db = (Ok stats, db) ∧
    stats !! "database.size" = Some (pretty (Z.of_nat (size (MemDB_model db)))) ∧
    stats !! "database.type" = Some "memDB".
Proof.
  intros Hinv. pose proof Hinv as [Hok _]. split.
  - unfold MemDB_Print, mbind, M_bind, get, mret, M_ret. do 2 f_equal.
    rewrite bt_Ascend_spec, entries_model, <-list_fmap_compose by done.
    generalize (bt_items (btree db)). intros l.
    assert (∀ acc, visit (λ i out, (true, out ++ [print_line (item_key i) (item_value i)])) l acc =
      acc ++ ((λ i, print_line (item_key i) (item_value i)) <$> l)) as Hv.
    { induction l as [|i l IH]; intros acc; simpl; [by rewrite app_nil_r|].
      by rewrite IH, <-(assoc_L (++)). }
    rewrite Hv. done.
  - eexists. split; [done|]. rewrite bt_Len_spec by done. split.
    + rewrite lookup_insert_eq. do 3 f_equal.
      rewrite <-(length_fmap item_entry), <-entries_model by done. unfold entries.
      by rewrite merge_sort_Permutation, length_map_to_list.
    + by rewrite lookup_insert_ne, lookup_insert_eq.
Qed.

End theorems.

(** ** Instances on the reference B-tree *)

Definition sample_program : list call :=
  [CSet (Some [x62]) (Some [x02]); CSet (Some [x61]) (Some []); CSet None (Some [x01]);
   CSetSync (Some [x63]) None; CGet (Some [x61]); CHas (Some [x7a]);
   CBatch [BDelete (Some [x62]); BSet (Some [x64]) (Some [x04]); BSet (Some []) None] true;
   CScan None (Some [x64]) false; CScan None None true; CScan (Some []) None false;
   CDelete (Some [x61]); CDeleteSync (Some [x61]); CScan (Some [x61]) None false].

(** The model runs: the answers of MemDB to the program. *)
Example sample_answers :
  (run_calls (MemDB_ops (T := list item)) 10 sample_program NewMemDB).1 =
  [AUnit (Ok tt); AUnit (Ok tt); AUnit (Err errKeyEmpty); AUnit (Err errValueNil);
   AValue (Ok (Some [])); ABool (Ok false);
   ABatch [Ok tt; Ok tt; Err errKeyEmpty] (Ok tt);
   AScan (Ok [(Some [x61], Some [])]);
   AScan (Ok [(Some [x64], Some [x04]); (Some [x61], Some [])]);
   AScan (Err errKeyEmpty); AUnit (Ok tt); AUnit (Ok tt);
   AScan (Ok [(Some [x64], Some [x04])])].
Proof. vm_compute. reflexivity. Qed.

Lemma MemDB_refines_witness :
  ∃ db', run_calls (MemDB_ops (T := list item)) 10 sample_program NewMemDB =
    ((spec_calls sample_program ∅).1, db') ∧ MemDB_inv db' ∧
    MemDB_model db' = (spec_calls sample_program ∅).2.
Proof. apply (MemDB_refines (T := list item) 10 sample_program). cbv. lia. Defined.

Definition sample_db : MemDB (list item) :=
  {| btree := [newPair (Some [x61]) (Some [x01]); newPair (Some [x62]) (Some [])] |}.

Lemma sample_inv : MemDB_inv sample_db.
Proof. split; [|repeat constructor; done || by eexists]. repeat constructor. Qed.

Lemma sample_size : size (MemDB_model sample_db) < 5.
Proof.
  rewrite <-length_map_to_list, <-(merge_sort_Permutation key_le).
  fold (entries (MemDB_model sample_db)). rewrite entries_model by apply sample_inv. simpl. lia.
Qed.

Lemma MemDB_scan_sorted_witness :
  ∃ l, StronglySorted key_lt l ∧
    reply (run_scan (MemDB_ops (T := list item)) 5 None (Some [x62]) true) sample_db
      (Ok (as_slices (reverse l))) (λ db', MemDB_inv db' ∧ MemDB_model db' = MemDB_model sample_db).
Proof.
  destruct (MemDB_scan_sorted 5 None (Some [x62]) sample_db sample_inv eq_refl sample_size)
    as (l & H1 & _ & _ & H2). by exists l.
Defined.

Lemma memDBBatch_once_witness :
  ∃ b' db', memDBBatch_Write ({| ops := Some [{| op_type := opTypeDelete; op_key := Some [x61];
                                                 op_value := None |}] |}, sample_db) =
      (Ok tt, (b', db')) ∧ memDBBatch_Write (b', db') = (Err errBatchClosed, (b', db')).
Proof.
  destruct (memDBBatch_once {| ops := Some [{| op_type := opTypeDelete; op_key := Some [x61];
                                               op_value := None |}] |} sample_db [WDelete [x61]])
    as (b' & db' & H1 & _ & _ & _ & _ & H2 & _).
  - constructor; [|constructor]. by apply (op_write_Delete (Some [x61])).
  - apply sample_inv.
  - by exists b', db'.
Defined.

Lemma MemDB_Print_Stats_witness :
  MemDB_Print sample_db =
    (Ok ((λ kv, print_line (Some kv.1) (Some kv.2)) <$> entries (MemDB_model sample_db)), sample_db).
Proof. exact (proj1 (MemDB_Print_Stats sample_db sample_inv)). Defined.
