(* ===== verification/MemDBConc.v ===== *)
(** * memdb.go, memdb_iterator.go: the mutex, the traversal goroutine, the channel

    An interleaving model of MemDB: writers ([Set], [Delete], [Batch.Write])
    under the write lock, readers under the read lock, and one goroutine per
    iterator that walks the live tree and sends on a buffered channel.  Every
    step is one atomic action of one goroutine. *)

From S2P Require Import Prelude Go Util Spec Types BTree MemDB MemDBCorrect.

Definition chBufferSize : nat := 64.

Section conc.
Context {T : Type} `{!BTreeOps item T}.

(** ** State *)

(** [sync.RWMutex]: its readers, whether a writer holds it, and whether a writer
    that has called [Lock] waits for the readers to leave; "a blocked Lock call
    excludes new readers from acquiring the lock". *)
Record RWMutex := { readers : nat; writer : bool; waiting : bool }.

(** Where the goroutine of an iterator is: about to visit the [n]-th item of its
    traversal, in the [select] of the visitor with an item, about to close the
    channel, about to run the deferred [RUnlock], finished. *)
Inductive gstate :=
  | GVisit (n : nat) (skipEqual : slice)
  | GSelect (n : nat) (skipEqual : slice) (i : item)
  | GClose
  | GUnlock
  | GDone.

#[global] Instance item_eq_dec : EqDecision item.
Proof. solve_decision. Defined.
#[global] Instance gstate_eq_dec : EqDecision gstate.
Proof. solve_decision. Defined.

(** An iterator with its goroutine, channel and context.  [snap] and [received]
    are history variables: the tree when the iterator was created, and the items
    its client has received. *)
Record citer := CIter {
  ci_start : slice;
  ci_end : slice;
  ci_reverse : bool;
  ci_useMtx : bool;
  ci_g : gstate;
  ci_buf : list item;
  ci_closed : bool;
  ci_cancelled : bool;
  ci_received : list item;
  ci_snap : T;
}.

(** [s_pending] is what the holder of the write lock has still to write, with the
    whole batch it is writing; [s_getters] counts the calls of [Get], [Has],
    [Print], [Stats] in progress.  [s_log] is a history variable: the batches
    written so far, in the order of their [Unlock]s. *)
Record sys := Sys {
  s_mtx : RWMutex;
  s_tree : T;
  s_pending : option (list write * list operation);
  s_getters : nat;
  s_iters : list citer;
  s_log : list (list write);
}.

Definition init : sys :=
  {| s_mtx := {| readers := 0; writer := false; waiting := false |}; s_tree := btree NewMemDB;
     s_pending := None; s_getters := 0; s_iters := []; s_log := [] |}.

(** ** The goroutine *)

(** The items the traversal method chosen by the [switch] passes to the visitor,
    when the tree does not change under it. *)
Definition walk (t : T) (start end_ : slice) (reverse : bool) : list item :=
  let keep (i : item) (l : list item) := (true, l ++ [i]) in
  match start, end_, reverse with
  | None, None, false => bt_Ascend t keep []
  | None, None, true => bt_Descend t keep []
  | _, None, false => bt_AscendGreaterOrEqual t (newKey start) keep []
  | _, _, false => bt_AscendRange t (newKey start) (newKey end_) keep []
  | _, None, true => bt_Descend t keep []
  | _, _, true => bt_DescendLessOrEqual t (newKey end_) keep []
  end.

(** [skipEqual] and [abortLessThan] as the [switch] sets them. *)
Definition skip0 (start end_ : slice) (reverse : bool) : slice :=
  if reverse then end_ else None.
Definition abort0 (start end_ : slice) (reverse : bool) : slice :=
  if reverse then start else None.

(** One action of the goroutine, on the tree as it is now. *)
Inductive gstep (t : T) (c : citer) : gstate → list item → bool → Prop :=
  | g_end n skip :
      ci_g c = GVisit n skip →
      walk t (ci_start c) (ci_end c) (ci_reverse c) !! n = None →
      gstep t c GClose (ci_buf c) (ci_closed c)
  | g_skip n skip i :
      ci_g c = GVisit n skip →
      walk t (ci_start c) (ci_end c) (ci_reverse c) !! n = Some i →
      negb (is_nil skip) && bytes_Equal (item_key i) skip = true →
      gstep t c (GVisit (S n) None) (ci_buf c) (ci_closed c)
  | g_abort n skip i (abort := abort0 (ci_start c) (ci_end c) (ci_reverse c)) :
      ci_g c = GVisit n skip →
      walk t (ci_start c) (ci_end c) (ci_reverse c) !! n = Some i →
      negb (is_nil skip) && bytes_Equal (item_key i) skip = false →
      negb (is_nil abort) && (bytes_Compare (item_key i) abort =? -1)%Z = true →
      gstep t c GClose (ci_buf c) (ci_closed c)
  | g_select n skip i (abort := abort0 (ci_start c) (ci_end c) (ci_reverse c)) :
      ci_g c = GVisit n skip →
      walk t (ci_start c) (ci_end c) (ci_reverse c) !! n = Some i →
      negb (is_nil skip) && bytes_Equal (item_key i) skip = false →
      negb (is_nil abort) && (bytes_Compare (item_key i) abort =? -1)%Z = false →
      gstep t c (GSelect (S n) skip i) (ci_buf c) (ci_closed c)
  | g_done n skip i :                                   (* case <-ctx.Done() *)
      ci_g c = GSelect n skip i → ci_cancelled c = true →
      gstep t c GClose (ci_buf c) (ci_closed c)
  | g_send n skip i :                                   (* case ch <- &item *)
      ci_g c = GSelect n skip i → length (ci_buf c) < chBufferSize →
      gstep t c (GVisit n skip) (ci_buf c ++ [i]) (ci_closed c)
  | g_close :                                           (* close(ch) *)
      ci_g c = GClose →
      gstep t c GUnlock (ci_buf c) true.

Definition ci_step (c : citer) (g : gstate) (buf : list item) (closed : bool) : citer :=
  CIter (ci_start c) (ci_end c) (ci_reverse c) (ci_useMtx c) g buf closed
    (ci_cancelled c) (ci_received c) (ci_snap c).

(** ** The system *)

(** Who acts: a writer, a reader, a caller of [Iterator], the goroutine of the
    [i]-th iterator, the client of the [i]-th iterator. *)
Inductive label := LWriter | LReader | LNew | LGoroutine (i : nat) | LReceive (i : nat) | LCancel (i : nat).

Definition set_iter (s : sys) (i : nat) (c : citer) : sys :=
  Sys (s_mtx s) (s_tree s) (s_pending s) (s_getters s) (<[i := c]> (s_iters s)) (s_log s).

(** [Set], [Delete] write one operation; [Batch.Write] writes those of the batch. *)
Inductive step (s : sys) : label → sys → Prop :=
  | s_Lock l ws :                                       (* db.mtx.Lock() returns *)
      Forall2 op_write l ws → waiting (s_mtx s) = true →
      writer (s_mtx s) = false → readers (s_mtx s) = 0 →
      step s LWriter (Sys {| readers := 0; writer := true; waiting := false |} (s_tree s) (Some (ws, l))
                        (s_getters s) (s_iters s) (s_log s))
  | s_write ws op l db' :                               (* db.set, db.delete *)
      s_pending s = Some (ws, op :: l) →
      write_ops [op] {| btree := s_tree s |} = (Ok tt, db') →
      step s LWriter (Sys (s_mtx s) (btree db') (Some (ws, l)) (s_getters s) (s_iters s) (s_log s))
  | s_Unlock ws :                                       (* db.mtx.Unlock() *)
      s_pending s = Some (ws, []) →
      step s LWriter (Sys {| readers := readers (s_mtx s); writer := false;
                             waiting := waiting (s_mtx s) |} (s_tree s) None
                        (s_getters s) (s_iters s) (s_log s ++ [ws]))
  | s_RLock :                                           (* Get, Has: db.mtx.RLock() *)
      writer (s_mtx s) = false → waiting (s_mtx s) = false →
      step s LReader (Sys {| readers := S (readers (s_mtx s)); writer := false; waiting := false |} (s_tree s)
                        (s_pending s) (S (s_getters s)) (s_iters s) (s_log s))
  | s_RUnlock n :                                       (* Get, Has: db.mtx.RUnlock() *)
      s_getters s = S n →
      step s LReader (Sys {| readers := readers (s_mtx s) - 1; writer := writer (s_mtx s);
                             waiting := waiting (s_mtx s) |}
                        (s_tree s) (s_pending s) n (s_iters s) (s_log s))
  | s_newIterator start end_ reverse (useMtx : bool) :  (* newMemDBIteratorMtxChoice *)
      (useMtx = true → writer (s_mtx s) = false ∧ waiting (s_mtx s) = false) →
      step s LNew (Sys {| readers := (if useMtx then S (readers (s_mtx s)) else readers (s_mtx s));
                          writer := writer (s_mtx s); waiting := waiting (s_mtx s) |}
                     (s_tree s) (s_pending s) (s_getters s)
                     (s_iters s ++ [CIter start end_ reverse useMtx
                                      (GVisit 0 (skip0 start end_ reverse)) [] false false []
                                      (s_tree s)]) (s_log s))
  | s_g i c g buf closed :                              (* the goroutine of iterator [i] *)
      s_iters s !! i = Some c → gstep (s_tree s) c g buf closed →
      step s (LGoroutine i) (set_iter s i (ci_step c g buf closed))
  | s_g_RUnlock i c :                                   (* defer db.mtx.RUnlock() *)
      s_iters s !! i = Some c → ci_g c = GUnlock →
      step s (LGoroutine i)
        (Sys {| readers := (if ci_useMtx c then readers (s_mtx s) - 1 else readers (s_mtx s));
                writer := writer (s_mtx s); waiting := waiting (s_mtx s) |}
           (s_tree s) (s_pending s) (s_getters s)
           (<[i := ci_step c GDone (ci_buf c) (ci_closed c)]> (s_iters s)) (s_log s))
  | s_receive i c x buf :                               (* item, ok := <-i.ch *)
      s_iters s !! i = Some c → ci_buf c = x :: buf →
      step s (LReceive i) (set_iter s i
        (CIter (ci_start c) (ci_end c) (ci_reverse c) (ci_useMtx c) (ci_g c) buf (ci_closed c)
           (ci_cancelled c) (ci_received c ++ [x]) (ci_snap c)))
  | s_cancel i c :                                      (* i.cancel() *)
      s_iters s !! i = Some c →
      step s (LCancel i) (set_iter s i
        (CIter (ci_start c) (ci_end c) (ci_reverse c) (ci_useMtx c) (ci_g c) (ci_buf c)
           (ci_closed c) true (ci_received c) (ci_snap c)))
  | s_wait :                                            (* db.mtx.Lock() is called *)
      writer (s_mtx s) = false → waiting (s_mtx s) = false →
      step s LWriter (Sys {| readers := readers (s_mtx s); writer := false; waiting := true |}
                        (s_tree s) (s_pending s) (s_getters s) (s_iters s) (s_log s)).

Inductive reachable : sys → Prop :=
  | reach_init : reachable init
  | reach_step s lab s' : reachable s → step s lab s' → reachable s'.

(** ** Counting the holders of the read lock *)

Definition holds (c : citer) : nat :=
  match ci_g c with GDone => 0 | _ => if ci_useMtx c then 1 else 0 end.
Definition holders (l : list citer) : nat := sum_list_with holds l.

Lemma holders_insert l i c c' :
  l !! i = Some c → holders (<[i := c']> l) + holds c = holders l + holds c'.
Proof. apply sum_list_with_insert. Qed.

Lemma holders_pos l i c : l !! i = Some c → holds c ≤ holders l.
Proof.
  unfold holders. revert i. induction l as [|x l IH]; intros [|i] H; simplify_eq/=; [lia|].
  specialize (IH i H). lia.
Qed.

(** ** What a goroutine has still to send *)

Definition rest (t : T) (c : citer) : list item :=
  let w := walk t (ci_start c) (ci_end c) (ci_reverse c) in
  let f := visitor (abort0 (ci_start c) (ci_end c) (ci_reverse c)) in
  match ci_g c with
  | GVisit n skip => (visit f (drop n w) (skip, [])).2
  | GSelect n skip i => i :: (visit f (drop n w) (skip, [])).2
  | _ => []
  end.

Definition running (c : citer) : bool :=
  match ci_g c with GVisit _ _ | GSelect _ _ _ => true | _ => false end.

(** What an iterator delivers when nothing interferes. *)
Definition all_items (c : citer) : list item :=
  traverse (ci_snap c) (ci_start c) (ci_end c) (ci_reverse c).

(** ** Invariants *)

Section invariants.
Context `{!BTreeLaws (T := T) item_Less}.
Implicit Types (t : T) (c : citer) (s : sys).

Definition tree_db t : MemDB T := {| btree := t |}.

(** The store after whole batches. *)
Definition replay (log : list (list write)) : store := apply_writes (concat log) ∅.

(** The part of the invariant about an iterator's channel... *)
Record chan_ok t c : Prop := {
  ck_snap : ci_g c ≠ GDone → ci_snap c = t;
  ck_running : running c = true → all_items c = ci_received c ++ ci_buf c ++ rest t c;
  ck_prefix : ci_received c ++ ci_buf c `prefix_of` all_items c;
  ck_complete : running c = false → ci_cancelled c = false →
    all_items c = ci_received c ++ ci_buf c;
  ck_closed : ci_closed c = true ↔ ci_g c = GUnlock ∨ ci_g c = GDone;
  ck_buf : length (ci_buf c) ≤ chBufferSize;
}.

(** ... and about the state of the database it was created in. *)
Definition snap_ok (log : list (list write)) c : Prop :=
  MemDB_inv (tree_db (ci_snap c)) ∧
  ∃ log0, log0 `prefix_of` log ∧ MemDB_model (tree_db (ci_snap c)) = replay log0.

(** A writer has written the first part of its batch. *)
Definition log_ok s : Prop :=
  match s_pending s with
  | None => MemDB_model (tree_db (s_tree s)) = replay (s_log s)
  | Some (ws, l) => ∃ done todo, ws = done ++ todo ∧ Forall2 op_write l todo ∧
      MemDB_model (tree_db (s_tree s)) = apply_writes done (replay (s_log s))
  end.

Record inv s : Prop := {
  inv_readers : readers (s_mtx s) = s_getters s + holders (s_iters s);
  inv_writer : writer (s_mtx s) = true ↔ is_Some (s_pending s);
  inv_excl : writer (s_mtx s) = true → readers (s_mtx s) = 0;
  inv_db : MemDB_inv (tree_db (s_tree s));
  inv_log : log_ok s;
  inv_iters : ∀ i c, s_iters s !! i = Some c → ci_useMtx c = true →
    chan_ok (s_tree s) c ∧ snap_ok (s_log s) c;
}.

(** ** The goroutine computes [traverse] *)

Lemma visit_keep (l acc : list item) : visit (λ i l, (true, l ++ [i])) l acc = acc ++ l.
Proof.
  revert acc. induction l as [|i l IH]; intros acc; simpl; [by rewrite app_nil_r|].
  by rewrite IH, <-(assoc_L (++)).
Qed.

Lemma visit_acc abort l skip acc :
  (visit (visitor abort) l (skip, acc)).2 = acc ++ (visit (visitor abort) l (skip, [])).2.
Proof.
  revert skip acc. induction l as [|i l IH]; intros skip acc; simpl; [by rewrite app_nil_r|].
  destruct (negb _ && _); [apply IH|]. destruct (negb _ && _); simpl; [by rewrite app_nil_r|].
  rewrite IH, (IH _ [i]). by rewrite <-(assoc_L (++)).
Qed.

Lemma traverse_walk t start end_ r :
  bt_ok t →
  traverse t start end_ r =
    (visit (visitor (abort0 start end_ r)) (walk t start end_ r) (skip0 start end_ r, [])).2.
Proof.
  intros Hok. unfold traverse, walk, abort0, skip0. destruct start, end_, r;
    rewrite ?bt_Ascend_spec, ?bt_Descend_spec, ?bt_AscendGreaterOrEqual_spec,
      ?bt_AscendRange_spec, ?bt_DescendLessOrEqual_spec by done; by rewrite visit_keep.
Qed.

(** ** Preservation *)

Lemma gstep_cases t c g buf closed :
  gstep t c g buf closed →
  (running c = true ∧ closed = ci_closed c ∧ g ≠ GUnlock ∧ g ≠ GDone) ∨
  (ci_g c = GClose ∧ g = GUnlock ∧ buf = ci_buf c ∧ closed = true).
Proof. unfold running. destruct 1 as [?? E|??? E|???? E|???? E|??? E|??? E|E]; rewrite E; auto 10. Qed.

Lemma gstep_buf t c g buf closed :
  gstep t c g buf closed → length (ci_buf c) ≤ chBufferSize → length buf ≤ chBufferSize.
Proof. destruct 1; try done. rewrite length_app. simpl. lia. Qed.

(** Every action of the goroutine leaves what is received, in the channel and
    still to be sent together, unless the context is cancelled. *)
Lemma gstep_rest t c g buf closed :
  gstep t c g buf closed →
  let c' := ci_step c g buf closed in
  (running c' = true → ci_buf c' ++ rest t c' = ci_buf c ++ rest t c) ∧
  (running c' = false → ci_cancelled c = false → ci_buf c' = ci_buf c ++ rest t c) ∧
  ci_buf c' `prefix_of` ci_buf c ++ rest t c.
Proof.
  unfold rest, running, ci_step. simpl.
  destruct 1 as [n skip E H|n skip i E H Hs|n skip i ab E H Hs Ha|n skip i ab E H Hs Ha
    |n skip i E Hc|n skip i E Hb|E]; rewrite E; simpl.
  - apply lookup_ge_None in H. rewrite drop_ge, app_nil_r by done. simpl. rewrite app_nil_r. done.
  - rewrite (drop_S _ i n H). simpl. rewrite Hs. split_and!; [done|done|by apply prefix_app_r].
  - rewrite (drop_S _ i n H). simpl. rewrite Hs. fold ab. rewrite Ha. simpl. by rewrite app_nil_r.
  - rewrite (drop_S _ i n H). simpl. rewrite Hs. fold ab. rewrite Ha. simpl.
    rewrite (visit_acc _ _ skip [i]). split_and!; [done|done|by apply prefix_app_r].
  - split_and!; [done|congruence|by apply prefix_app_r].
  - rewrite <-(assoc_L (++)). simpl. split_and!; [done|done|].
    apply prefix_app. by eexists.
  - by rewrite app_nil_r.
Qed.

Lemma gstep_chan_ok t c g buf closed :
  chan_ok t c → gstep t c g buf closed → chan_ok t (ci_step c g buf closed).
Proof.
  intros [Hsn Hrun Hpre Hcomp Hcl Hbuf] Hg.
  pose proof (gstep_rest _ _ _ _ _ Hg) as (R1 & R2 & R3).
  pose proof (gstep_buf _ _ _ _ _ Hg Hbuf) as Hbuf'.
  assert (Hne : ci_g c ≠ GDone) by (inversion Hg; congruence).
  apply gstep_cases in Hg as [(Hr & -> & Hn1 & Hn2)|(E & -> & -> & ->)].
  - specialize (Hrun Hr). assert (ci_closed c = false) as Hcf.
    { apply not_true_is_false. rewrite Hcl. unfold running in Hr. destruct (ci_g c); naive_solver. }
    split; unfold all_items in *; simpl; auto.
    + intros Hr'. by rewrite Hrun, <-(R1 Hr').
    + rewrite Hrun. by apply prefix_app.
    + intros Hr' Hc. by rewrite Hrun, <-(R2 Hr' Hc).
    + rewrite Hcf. naive_solver.
  - assert (running c = false) as Hr by (unfold running; by rewrite E).
    split; unfold all_items in *; simpl; auto; naive_solver.
Qed.

Lemma new_chan_ok t start end_ r b :
  bt_ok t → chan_ok t (CIter start end_ r b (GVisit 0 (skip0 start end_ r)) [] false false [] t).
Proof.
  intros Hok. split; unfold all_items, rest; simpl; try done.
  - intros _. rewrite drop_0. by apply traverse_walk.
  - apply prefix_nil.
  - naive_solver.
  - lia.
Qed.

Lemma unlock_chan_ok t c :
  chan_ok t c → ci_g c = GUnlock → chan_ok t (ci_step c GDone (ci_buf c) (ci_closed c)).
Proof.
  intros [Hsn Hrun Hpre Hcomp Hcl Hbuf] E.
  assert (running c = false) as Hr by (unfold running; by rewrite E).
  split; unfold all_items in *; simpl; auto; [done|].
  rewrite Hcl. naive_solver.
Qed.

Lemma receive_chan_ok t c x buf :
  chan_ok t c → ci_buf c = x :: buf →
  chan_ok t (CIter (ci_start c) (ci_end c) (ci_reverse c) (ci_useMtx c) (ci_g c) buf (ci_closed c)
               (ci_cancelled c) (ci_received c ++ [x]) (ci_snap c)).
Proof.
  intros [Hsn Hrun Hpre Hcomp Hcl Hbuf] E.
  assert (Happ : ∀ l : list item, (ci_received c ++ [x]) ++ buf ++ l = ci_received c ++ ci_buf c ++ l).
  { intros l. by rewrite E, <-(assoc_L (++)). }
  split; unfold all_items in *; simpl; auto.
  - intros Hr. rewrite Happ. apply Hrun, Hr.
  - specialize (Happ []). rewrite !app_nil_r in Happ. by rewrite Happ.
  - specialize (Happ []). rewrite !app_nil_r in Happ. by rewrite Happ.
  - rewrite E in Hbuf. simpl in Hbuf. lia.
Qed.

Lemma cancel_chan_ok t c :
  chan_ok t c →
  chan_ok t (CIter (ci_start c) (ci_end c) (ci_reverse c) (ci_useMtx c) (ci_g c) (ci_buf c)
               (ci_closed c) true (ci_received c) (ci_snap c)).
Proof. intros [Hsn Hrun Hpre Hcomp Hcl Hbuf]. by split. Qed.

(** A finished goroutine does not depend on the tree any more. *)
Lemma done_chan_ok t t' c : chan_ok t c → ci_g c = GDone → chan_ok t' c.
Proof.
  intros [Hsn Hrun Hpre Hcomp Hcl Hbuf] E. split; auto; [done|].
  unfold running. by rewrite E.
Qed.

Lemma snap_ok_mono log log' c : snap_ok log c → log `prefix_of` log' → snap_ok log' c.
Proof. intros (? & log0 & ? & ?) ?. split; [done|]. exists log0. split; [by etrans|done]. Qed.

Lemma init_inv : inv init.
Proof.
  destruct NewMemDB_inv as [H1 H2]. split; simpl; try done.
Qed.

(** While an iterator holds the read lock, nobody holds the write lock. *)
Lemma locked_no_writer s i c :
  inv s → s_iters s !! i = Some c → ci_useMtx c = true → ci_g c ≠ GDone →
  writer (s_mtx s) = false ∧ 0 < readers (s_mtx s).
Proof.
  intros Hinv Hi Hm Hg. pose proof (holders_pos _ _ _ Hi) as Hp.
  assert (holds c = 1) as Hc. { unfold holds. rewrite Hm. by destruct (ci_g c). }
  assert (0 < readers (s_mtx s)) by (rewrite (inv_readers s Hinv); lia).
  split; [|done]. apply not_true_is_false. intros Hw%(inv_excl s Hinv). lia.
Qed.

Lemma writer_done s i c :
  inv s → writer (s_mtx s) = true → s_iters s !! i = Some c → ci_useMtx c = true →
  ci_g c = GDone.
Proof.
  intros Hinv Hw Hi Hm. destruct (ci_g c) eqn:Hg; try done;
    (destruct (locked_no_writer s i c Hinv Hi Hm) as [? _]; congruence).
Qed.

(** A step of one iterator that keeps its lock: only its channel matters. *)
Lemma set_iter_inv s i c c' :
  inv s → s_iters s !! i = Some c → holds c' = holds c →
  ci_useMtx c' = ci_useMtx c → ci_snap c' = ci_snap c →
  (chan_ok (s_tree s) c → chan_ok (s_tree s) c') →
  inv (set_iter s i c').
Proof.
  intros [Hr Hw Hx Hdb Hlog Hit] Hi Hh Hm Hsn Hck.
  pose proof (holders_insert _ i c c' Hi). split; simpl; try done; [lia|].
  intros j cj. rewrite list_lookup_insert_Some. intros [(-> & <- & _)|[_ Hj]]; [|by apply (Hit j)].
  rewrite Hm. intros [? Hs]%(Hit _ c Hi). split; [auto|]. unfold snap_ok in *. by rewrite Hsn.
Qed.

Lemma s_write_inv s ws op l db' :
  inv s → s_pending s = Some (ws, op :: l) →
  write_ops [op] {| btree := s_tree s |} = (Ok tt, db') →
  inv (Sys (s_mtx s) (btree db') (Some (ws, l)) (s_getters s) (s_iters s) (s_log s)).
Proof.
  intros Hinv Hp Hwr. pose proof Hinv as [Hr Hw Hx Hdb Hlog Hit].
  unfold log_ok in Hlog. rewrite Hp in Hlog. destruct Hlog as (dn & todo & -> & Hl & Hm).
  inversion Hl as [|? w ? todo' Hop Hl' E1 E2]; subst.
  destruct (write_ops_spec [op] [w] (tree_db (s_tree s))) as (db1 & Hwr' & Hdb1 & Hm1);
    [by repeat constructor|done|].
  unfold tree_db in Hwr'. rewrite Hwr in Hwr'. simplify_eq.
  assert (writer (s_mtx s) = true) as Hwt by (apply Hw; rewrite Hp; eauto).
  destruct db1 as [t1]. split; simpl; try done.
  - exists (dn ++ [w]), todo'. split_and!; [by rewrite <-(assoc_L (++))|done|].
    simpl. rewrite apply_writes_app, <-Hm. done.
  - intros i c Hi Huse. destruct (Hit i c Hi Huse) as [Hck ?]. split; [|done].
    eapply done_chan_ok; [exact Hck|].
    by apply (writer_done s i).
Qed.

Lemma s_Unlock_inv s ws :
  inv s → s_pending s = Some (ws, []) →
  inv (Sys {| readers := readers (s_mtx s); writer := false; waiting := waiting (s_mtx s) |} (s_tree s) None
         (s_getters s) (s_iters s) (s_log s ++ [ws])).
Proof.
  intros [Hr Hw Hx Hdb Hlog Hit] Hp. unfold log_ok in Hlog. rewrite Hp in Hlog.
  destruct Hlog as (dn & todo & -> & Hl & Hm). inversion Hl; subst.
  split; simpl; try done.
  - unfold log_ok. simpl. unfold replay in *. rewrite app_nil_r, concat_app, apply_writes_app, Hm.
    simpl. by rewrite app_nil_r.
  - intros i c Hi Huse. destruct (Hit i c Hi Huse) as [? Hs]. split; [done|].
    eapply snap_ok_mono; [exact Hs|by apply prefix_app_r].
Qed.

Lemma s_newIterator_inv s start end_ reverse (useMtx : bool) :
  inv s → (useMtx = true → writer (s_mtx s) = false ∧ waiting (s_mtx s) = false) →
  inv (Sys {| readers := (if useMtx then S (readers (s_mtx s)) else readers (s_mtx s));
              writer := writer (s_mtx s); waiting := waiting (s_mtx s) |} (s_tree s) (s_pending s) (s_getters s)
         (s_iters s ++ [CIter start end_ reverse useMtx
                          (GVisit 0 (skip0 start end_ reverse)) [] false false []
                          (s_tree s)]) (s_log s)).
Proof.
  intros [Hr Hw Hx Hdb Hlog Hit] Hm. split; simpl; try done.
  - unfold holders in *. rewrite sum_list_with_app. simpl. unfold holds at 2. simpl. destruct useMtx; simpl; lia.
  - intros Hwt. destruct useMtx; [|by apply Hx]. destruct Hm; congruence.
  - intros i c. rewrite lookup_snoc_Some. intros [[_ Hi]|[_ <-]]; [by apply (Hit i)|]. simpl.
    intros ->. split; [by apply new_chan_ok, Hdb|]. split; [done|]. simpl.
    exists (s_log s). split; [done|]. unfold log_ok in Hlog.
    destruct (s_pending s) eqn:Hp; [|done].
    rewrite (proj1 (Hm eq_refl)) in Hw. destruct Hw as [_ Hw]. by discriminate Hw.
Qed.

Lemma s_g_RUnlock_inv s i c :
  inv s → s_iters s !! i = Some c → ci_g c = GUnlock →
  inv (Sys {| readers := (if ci_useMtx c then readers (s_mtx s) - 1 else readers (s_mtx s));
              writer := writer (s_mtx s); waiting := waiting (s_mtx s) |} (s_tree s) (s_pending s) (s_getters s)
         (<[i := ci_step c GDone (ci_buf c) (ci_closed c)]> (s_iters s)) (s_log s)).
Proof.
  intros [Hr Hw Hx Hdb Hlog Hit] Hi Hg.
  pose proof (holders_insert _ i c (ci_step c GDone (ci_buf c) (ci_closed c)) Hi) as Hh.
  unfold holds in Hh. simpl in Hh. rewrite Hg in Hh. split; simpl; try done.
  - destruct (ci_useMtx c); lia.
  - intros Hwt%Hx. rewrite Hwt. by destruct (ci_useMtx c).
  - intros j cj. rewrite list_lookup_insert_Some. intros [(-> & <- & _)|[_ Hj]]; [|by apply (Hit j)].
    simpl. intros [? ?]%(Hit _ _ Hi). split; [by apply unlock_chan_ok|done].
Qed.

Lemma gstep_holds t c g buf closed :
  gstep t c g buf closed → holds (ci_step c g buf closed) = holds c.
Proof. unfold holds. by destruct 1 as [?? E|??? E|???? E|???? E|??? E|??? E|E]; simpl; rewrite E. Qed.

Lemma step_inv s lab s' : inv s → step s lab s' → inv s'.
Proof.
  intros Hinv. pose proof Hinv as [Hr Hw Hx Hdb Hlog Hit].
  destruct 1 as [l ws Hl Hwt Hwf Hr0|ws op l db' Hp Hwr|ws Hp|Hwf Hwt|n Hn|start end_ r useMtx Hm
    |i c g buf closed Hi Hg|i c Hi Hg|i c x buf Hi Hb|i c Hi|Hwf Hwt].
  - split; simpl; try done; [lia|].
    unfold log_ok in *. destruct (s_pending s) eqn:Hp; [by rewrite (proj2 Hw) in Hwf|].
    by exists [], ws.
  - by eapply s_write_inv.
  - by apply s_Unlock_inv.
  - split; simpl; try done; [lia|by rewrite <-Hw, Hwf].
  - split; simpl; try done; [lia|]. intros Hwt. rewrite Hx by done. done.
  - by apply s_newIterator_inv.
  - eapply set_iter_inv; try done; [by eapply gstep_holds|]. intros. by eapply gstep_chan_ok.
  - by apply s_g_RUnlock_inv.
  - eapply set_iter_inv; try done. intros. by apply receive_chan_ok.
  - eapply set_iter_inv; try done. apply cancel_chan_ok.
  - split; simpl; try done. by rewrite <-Hw, Hwf.
Qed.

Lemma reachable_inv s : reachable s → inv s.
Proof. induction 1; [apply init_inv|by eapply step_inv]. Qed.

(** ** Progress *)

(** A bound on the actions of the goroutine and the receives of its client. *)
Definition effort t c : nat :=
  let todo n := 4 * (length (walk t (ci_start c) (ci_end c) (ci_reverse c)) - n) in
  length (ci_buf c) +
  match ci_g c with
  | GVisit n _ => todo n + 4
  | GSelect n _ _ => todo n + 6
  | GClose => 3
  | GUnlock => 2
  | GDone => 0
  end.

Lemma gstep_effort t c g buf closed :
  gstep t c g buf closed → effort t (ci_step c g buf closed) < effort t c.
Proof.
  unfold effort.
  destruct 1 as [n skip E H|n skip i E H Hs|n skip i ab E H Hs Ha|n skip i ab E H Hs Ha
    |n skip i E Hc|n skip i E Hb|E]; rewrite E; simpl; try (apply lookup_lt_Some in H);
    rewrite ?length_app; simpl; lia.
Qed.

(** The goroutine or its client can act until the goroutine is done and the
    channel is empty. *)
Lemma gstep_progress t c :
  running c = true ∨ ci_g c = GClose →
  length (ci_buf c) < chBufferSize →
  ∃ g buf closed, gstep t c g buf closed.
Proof.
  intros Hg Hb. unfold running in Hg.
  destruct (ci_g c) as [n skip|n skip i| | |] eqn:E; try naive_solver.
  - destruct (walk t (ci_start c) (ci_end c) (ci_reverse c) !! n) as [i|] eqn:Hi.
    + destruct (negb (is_nil skip) && bytes_Equal (item_key i) skip) eqn:Hs.
      { do 3 eexists. by eapply g_skip. }
      destruct (negb (is_nil (abort0 (ci_start c) (ci_end c) (ci_reverse c))) &&
        (bytes_Compare (item_key i) (abort0 (ci_start c) (ci_end c) (ci_reverse c)) =? -1)%Z) eqn:Ha.
      * do 3 eexists. by eapply g_abort.
      * do 3 eexists. by eapply g_select.
    + do 3 eexists. by eapply g_end.
  - do 3 eexists. by eapply g_send.
  - do 3 eexists. by eapply g_close.
Qed.

Lemma drain_progress s i c :
  s_iters s !! i = Some c → 0 < effort (s_tree s) c →
  ∃ lab s', step s lab s' ∧ (lab = LGoroutine i ∨ lab = LReceive i).
Proof.
  intros Hi He. destruct (ci_buf c) as [|x buf] eqn:Hb.
  - destruct (decide (ci_g c = GUnlock)) as [Hg|Hg].
    { exists (LGoroutine i). eexists. split; [by eapply s_g_RUnlock|by left]. }
    destruct (gstep_progress (s_tree s) c) as (g & buf' & cl & Hs).
    + unfold effort in He. rewrite Hb in He. simpl in He. unfold running.
      destruct (ci_g c); naive_solver lia.
    + rewrite Hb. simpl. unfold chBufferSize. lia.
    + exists (LGoroutine i). eexists. split; [by eapply s_g|by left].
  - exists (LReceive i). eexists. split; [by eapply s_receive|by right].
Qed.

(** Steps of others leave an iterator that holds the lock as it is. *)
Lemma step_effort s lab s' i c :
  inv s → step s lab s' → s_iters s !! i = Some c → ci_useMtx c = true →
  ∃ c', s_iters s' !! i = Some c' ∧ ci_useMtx c' = true ∧
    effort (s_tree s') c' ≤ effort (s_tree s) c ∧
    (lab = LGoroutine i ∨ lab = LReceive i → effort (s_tree s') c' < effort (s_tree s) c).
Proof.
  intros Hinv Hst Hi Hm.
  assert (Hsame : ∀ j c' P, s_iters s !! j = Some P → ci_useMtx c' = ci_useMtx P →
    (effort (s_tree s) c' ≤ effort (s_tree s) P) →
    (lab = LGoroutine j ∨ lab = LReceive j → effort (s_tree s) c' < effort (s_tree s) P) →
    (j ≠ i → lab ≠ LGoroutine i ∧ lab ≠ LReceive i) →
    ∃ c'', <[j := c']> (s_iters s) !! i = Some c'' ∧ ci_useMtx c'' = true ∧
      effort (s_tree s) c'' ≤ effort (s_tree s) c ∧
      (lab = LGoroutine i ∨ lab = LReceive i → effort (s_tree s) c'' < effort (s_tree s) c)).
  { intros j c' P Hj Hm' Hle Hlt Hne. destruct (decide (j = i)) as [->|Hji].
    - rewrite Hi in Hj. simplify_eq. exists c'.
      rewrite list_lookup_insert_eq by by eapply lookup_lt_Some. naive_solver congruence.
    - exists c. rewrite list_lookup_insert_ne by done. naive_solver. }
  destruct Hst as [l ws Hl Hwt Hwf Hr0|ws op l db' Hp Hwr|ws Hp|Hwf Hwt|n Hn|start end_ r useMtx Hm'
    |j cj g buf closed Hj Hg|j cj Hj Hg|j cj x buf Hj Hb|j cj Hj|Hwf Hwt]; simpl;
    try (exists c; naive_solver lia).
  - assert (ci_g c = GDone) as Hg.
    { apply (writer_done s i); auto. apply (inv_writer s Hinv). by rewrite Hp. }
    exists c. unfold effort. rewrite Hg. naive_solver.
  - exists c. rewrite lookup_app_l by by eapply lookup_lt_Some. naive_solver.
  - pose proof (gstep_effort _ _ _ _ _ Hg). apply (Hsame j _ cj Hj); naive_solver lia.
  - apply (Hsame j _ cj Hj); unfold effort; simpl; rewrite ?Hg; naive_solver lia.
  - apply (Hsame j _ cj Hj); unfold effort; simpl; rewrite ?Hb; simpl; naive_solver lia.
  - apply (Hsame j _ cj Hj); unfold effort; simpl; naive_solver lia.
Qed.

End invariants.

(** ** An executable schedule

    [exec a s] performs the action [a] where it is enabled; [ADone] prefers the
    case [<-ctx.Done()] of the [select]. *)

Inductive action :=
  | AWait | ALock (l : list operation) | AWrite | AUnlock
  | ARLock | ARUnlock
  | ANew (start end_ : slice) (reverse useMtx : bool)
  | AGo (i : nat) | ADone (i : nat) | AReceive (i : nat) | ACancel (i : nat).

Definition op_to_write (op : operation) : option write :=
  if len (op_key op) =? 0 then None
  else if (op_type op =? opTypeSet)%Z then WSet (data (op_key op)) <$> op_value op
  else if (op_type op =? opTypeDelete)%Z then
    if is_nil (op_value op) then Some (WDelete (data (op_key op))) else None
  else None.

Definition gexec (t : T) (c : citer) : option (gstate * list item * bool) :=
  let abort := abort0 (ci_start c) (ci_end c) (ci_reverse c) in
  match ci_g c with
  | GVisit n skip =>
      match walk t (ci_start c) (ci_end c) (ci_reverse c) !! n with
      | None => Some (GClose, ci_buf c, ci_closed c)
      | Some i =>
          if negb (is_nil skip) && bytes_Equal (item_key i) skip
          then Some (GVisit (S n) None, ci_buf c, ci_closed c)
          else if negb (is_nil abort) && (bytes_Compare (item_key i) abort =? -1)%Z
          then Some (GClose, ci_buf c, ci_closed c)
          else Some (GSelect (S n) skip i, ci_buf c, ci_closed c)
      end
  | GSelect n skip i =>
      if decide (length (ci_buf c) < chBufferSize)
      then Some (GVisit n skip, ci_buf c ++ [i], ci_closed c) else None
  | GClose => Some (GUnlock, ci_buf c, true)
  | _ => None
  end.

Definition exec (a : action) (s : sys) : option sys :=
  match a with
  | AWait =>
      if writer (s_mtx s) || waiting (s_mtx s) then None
      else Some (Sys {| readers := readers (s_mtx s); writer := false; waiting := true |}
                   (s_tree s) (s_pending s) (s_getters s) (s_iters s) (s_log s))
  | ALock l =>
      ws ← mapM op_to_write l;
      if waiting (s_mtx s) && negb (writer (s_mtx s)) && (readers (s_mtx s) =? 0)
      then Some (Sys {| readers := 0; writer := true; waiting := false |} (s_tree s) (Some (ws, l))
                   (s_getters s) (s_iters s) (s_log s)) else None
  | AWrite =>
      match s_pending s with
      | Some (ws, op :: l) =>
          match write_ops [op] {| btree := s_tree s |} with
          | (Ok tt, db') => Some (Sys (s_mtx s) (btree db') (Some (ws, l))
                                    (s_getters s) (s_iters s) (s_log s))
          | _ => None
          end
      | _ => None
      end
  | AUnlock =>
      match s_pending s with
      | Some (ws, []) => Some (Sys {| readers := readers (s_mtx s); writer := false;
                                      waiting := waiting (s_mtx s) |} (s_tree s)
                                 None (s_getters s) (s_iters s) (s_log s ++ [ws]))
      | _ => None
      end
  | ARLock =>
      if writer (s_mtx s) || waiting (s_mtx s) then None
      else Some (Sys {| readers := S (readers (s_mtx s)); writer := false; waiting := false |} (s_tree s)
                   (s_pending s) (S (s_getters s)) (s_iters s) (s_log s))
  | ARUnlock =>
      match s_getters s with
      | O => None
      | S n => Some (Sys {| readers := readers (s_mtx s) - 1; writer := writer (s_mtx s);
                            waiting := waiting (s_mtx s) |}
                       (s_tree s) (s_pending s) n (s_iters s) (s_log s))
      end
  | ANew start end_ reverse useMtx =>
      if useMtx && (writer (s_mtx s) || waiting (s_mtx s)) then None
      else Some (Sys {| readers := (if useMtx then S (readers (s_mtx s)) else readers (s_mtx s));
                        writer := writer (s_mtx s); waiting := waiting (s_mtx s) |}
                   (s_tree s) (s_pending s) (s_getters s)
                   (s_iters s ++ [CIter start end_ reverse useMtx
                                    (GVisit 0 (skip0 start end_ reverse)) [] false false []
                                    (s_tree s)]) (s_log s))
  | AGo i =>
      c ← s_iters s !! i;
      match gexec (s_tree s) c with
      | Some (g, buf, closed) => Some (set_iter s i (ci_step c g buf closed))
      | None =>
          match ci_g c with
          | GUnlock =>
              Some (Sys {| readers := (if ci_useMtx c then readers (s_mtx s) - 1
                                       else readers (s_mtx s));
                           writer := writer (s_mtx s); waiting := waiting (s_mtx s) |}
                      (s_tree s) (s_pending s) (s_getters s)
                      (<[i := ci_step c GDone (ci_buf c) (ci_closed c)]> (s_iters s)) (s_log s))
          | _ => None
          end
      end
  | ADone i =>
      c ← s_iters s !! i;
      match ci_g c with
      | GSelect _ _ _ =>
          if ci_cancelled c then Some (set_iter s i (ci_step c GClose (ci_buf c) (ci_closed c)))
          else None
      | _ => None
      end
  | AReceive i =>
      c ← s_iters s !! i;
      match ci_buf c with
      | x :: buf =>
          Some (set_iter s i
            (CIter (ci_start c) (ci_end c) (ci_reverse c) (ci_useMtx c) (ci_g c) buf (ci_closed c)
               (ci_cancelled c) (ci_received c ++ [x]) (ci_snap c)))
      | [] => None
      end
  | ACancel i =>
      c ← s_iters s !! i;
      Some (set_iter s i
        (CIter (ci_start c) (ci_end c) (ci_reverse c) (ci_useMtx c) (ci_g c) (ci_buf c)
           (ci_closed c) true (ci_received c) (ci_snap c)))
  end.

Definition exec_all (l : list action) (s : sys) : option sys :=
  foldl (λ r a, r ≫= exec a) (Some s) l.

Lemma op_to_write_sound op w : op_to_write op = Some w → op_write op w.
Proof.
  unfold op_to_write. destruct op as [ty key value]. simpl. intros H.
  destruct (len key =? 0) eqn:Hk; [done|]. apply len_ne in Hk.
  destruct (ty =? opTypeSet)%Z eqn:E1.
  { apply Z.eqb_eq in E1 as ->. destruct value; simplify_eq/=. by constructor. }
  destruct (ty =? opTypeDelete)%Z eqn:E2; [|done].
  apply Z.eqb_eq in E2 as ->. destruct value; simplify_eq/=. by constructor.
Qed.

Lemma gexec_sound t c g buf closed :
  gexec t c = Some (g, buf, closed) → gstep t c g buf closed.
Proof.
  unfold gexec. destruct (ci_g c) as [n skip|n skip i| | |] eqn:E; try done.
  - destruct (_ !! n) as [i|] eqn:Hi; [|intros [= <- <- <-]; by eapply g_end].
    destruct (negb (is_nil skip) && _) eqn:Hs; [intros [= <- <- <-]; by eapply g_skip|].
    destruct (negb (is_nil (abort0 _ _ _)) && _) eqn:Ha; intros [= <- <- <-];
      [by eapply g_abort|by eapply g_select].
  - case_decide; [|done]. intros [= <- <- <-]. by eapply g_send.
  - intros [= <- <- <-]. by apply g_close.
Qed.

Lemma exec_sound a s s' : exec a s = Some s' → ∃ lab, step s lab s'.
Proof.
  destruct a as [|l| | | | |start end_ r useMtx|i|i|i|i]; unfold exec.
  - destruct (_ || _) eqn:E; intros [= <-]. apply orb_false_elim in E as [? ?]. eexists. by apply s_wait.
  - intros (ws & Hws & H)%bind_Some. apply mapM_Some in Hws.
    destruct (_ && _) eqn:E; simplify_eq/=.
    apply andb_prop in E as [[E0 E1%negb_true_iff]%andb_prop E2%Nat.eqb_eq].
    eexists. apply s_Lock; [|done..].
    eapply Forall2_impl; [exact Hws|]. apply op_to_write_sound.
  - destruct (s_pending s) as [[ws [|op l]]|] eqn:Hp; try done.
    destruct (write_ops [op] {| btree := s_tree s |}) as [r db'] eqn:Hw.
    destruct r as [[]|e|msg|]; try done. intros [= <-].
    eexists. by eapply s_write.
  - destruct (s_pending s) as [[ws [|op l]]|] eqn:Hp; intros [= <-]. eexists. by apply s_Unlock.
  - destruct (_ || _) eqn:E; intros [= <-]. apply orb_false_elim in E as [? ?]. eexists. by apply s_RLock.
  - destruct (s_getters s) as [|n] eqn:Hg; intros [= <-]. eexists. by apply s_RUnlock.
  - destruct (useMtx && _) eqn:Hm; intros [= <-]. eexists. apply s_newIterator.
    intros ->. by apply orb_false_elim in Hm.
  - intros (c & Hi & H)%bind_Some. destruct (gexec _ c) as [[[g buf] closed]|] eqn:Hg; simplify_eq/=.
    + eexists. by eapply s_g, gexec_sound.
    + destruct (ci_g c) eqn:E; simplify_eq/=. eexists. by apply s_g_RUnlock.
  - intros (c & Hi & H)%bind_Some. destruct (ci_g c) eqn:E; try done.
    destruct (ci_cancelled c) eqn:Hc; simplify_eq/=. eexists. eapply s_g; [done|]. by eapply g_done.
  - intros (c & Hi & H)%bind_Some. destruct (ci_buf c) eqn:E; simplify_eq/=.
    eexists. by eapply s_receive.
  - intros (c & Hi & H)%bind_Some. simplify_eq/=. eexists. by apply s_cancel.
Qed.

Lemma exec_all_reachable l s s' : reachable s → exec_all l s = Some s' → reachable s'.
Proof.
  revert s s'. induction l as [|a l IH] using rev_ind; unfold exec_all; intros s s' Hs; simpl.
  { by intros [= <-]. }
  rewrite foldl_app. simpl. intros (s1 & H1 & H2)%bind_Some.
  apply exec_sound in H2 as [lab H2]. eapply reach_step; [|exact H2]. by apply (IH s).
Qed.

End conc.

(** ** A schedule on the reference B-tree

    Two batches are written, an iterator over the domain from [a] is opened and
    its goroutine runs to the end while its client receives one item. *)

Definition op_set (k v : bytes) : operation :=
  {| op_type := opTypeSet; op_key := Some k; op_value := Some v |}.
Definition op_del (k : bytes) : operation :=
  {| op_type := opTypeDelete; op_key := Some k; op_value := None |}.

Definition demo_schedule : list action :=
  [AWait; ALock [op_set [x61] [x01]; op_set [x62] [x02]; op_set [x63] []]; AWrite; AWrite; AWrite; AUnlock;
   ANew (Some [x61]) None true true; AGo 0; AGo 0; AReceive 0].
Definition demo_finish : list action :=
  [AGo 0; AGo 0; AReceive 0; AGo 0; AGo 0; AReceive 0; AGo 0; AGo 0; AGo 0;
   AWait; ALock [op_del [x61]]; AWrite; AUnlock].

Definition demo : sys := default init (exec_all (T := list item) demo_schedule init).
Definition demo_end : sys := default init (exec_all (T := list item) demo_finish demo).
Definition demo_iter (s : sys (T := list item)) : citer :=
  default (CIter None None false false GDone [] false false [] []) (s_iters s !! 0).

Lemma demo_reachable : reachable demo.
Proof. eapply (exec_all_reachable demo_schedule init); [constructor|vm_compute; reflexivity]. Qed.

Lemma demo_end_reachable : reachable demo_end.
Proof. eapply (exec_all_reachable demo_finish demo); [apply demo_reachable|vm_compute; reflexivity]. Qed.

(** ** Theorems *)

Section theorems.
Context {T : Type} `{!BTreeOps item T} `{!BTreeLaws (T := T) item_Less}.

(** C4: whoever holds the read lock ([Get], [Has], an open iterator) sees the
    result of whole batches, in the order in which they were written: writes are
    atomic and serialised by the mutex, in every interleaving. *)
Theorem readers_see_whole_batches (s : sys (T := T)) :
  reachable s → 0 < readers (s_mtx s) →
  writer (s_mtx s) = false ∧ s_pending s = None ∧
  MemDB_model (tree_db (s_tree s)) = replay (s_log s).
Proof.
  intros Hinv%reachable_inv Hr.
  assert (writer (s_mtx s) = false) as Hw.
  { apply not_true_is_false. intros Hw%(inv_excl s Hinv). lia. }
  assert (s_pending s = None) as Hp.
  { apply eq_None_not_Some. rewrite <-(inv_writer s Hinv), Hw. done. }
  pose proof (inv_log s Hinv) as Hl. unfold log_ok in Hl. rewrite Hp in Hl. auto.
Qed.

(** Runs of the whole system. *)
Definition runs : sys (T := T) → sys (T := T) → Prop := rtc (λ s s', ∃ lab, step s lab s').

(** A call of [Iterator] or [ReverseIterator], which takes the lock, from [s] to
    [s']; the new iterator is the last one. *)
Definition opens_iterator (s s' : sys (T := T)) (start end_ : slice) (reverse : bool) : Prop :=
  step s LNew s' ∧ ∃ c, s_iters s' = s_iters s ++ [c] ∧
    ci_start c = start ∧ ci_end c = end_ ∧ ci_reverse c = reverse ∧ ci_useMtx c = true.

(** What an iterator is created with. *)
Definition fixed_part (c : citer (T := T)) :=
  (ci_start c, ci_end c, ci_reverse c, ci_useMtx c, ci_snap c).

Lemma step_fixed_part (s : sys (T := T)) lab s' i c :
  step s lab s' → s_iters s !! i = Some c →
  ∃ c', s_iters s' !! i = Some c' ∧ fixed_part c' = fixed_part c.
Proof.
  intros Hst Hi. assert (i < length (s_iters s)) as Hlt by by eapply lookup_lt_Some.
  assert (∀ j cj c', s_iters s !! j = Some cj → fixed_part c' = fixed_part cj →
    ∃ c'', <[j := c']> (s_iters s) !! i = Some c'' ∧ fixed_part c'' = fixed_part c) as Hset.
  { intros j cj c' Hj Hc. destruct (decide (j = i)) as [->|Hji].
    - exists c'. rewrite list_lookup_insert_eq by done. rewrite Hi in Hj. injection Hj as <-. done.
    - exists c. by rewrite list_lookup_insert_ne. }
  destruct Hst as [| | | | |start end_ r useMtx Hm|j cj g buf closed Hj Hg|j cj Hj Hg|j cj x buf Hj Hb|j cj Hj|];
    simpl; try (by exists c); try by apply (Hset j cj).
  exists c. by rewrite lookup_app_l.
Qed.

Lemma runs_reachable s s' : reachable s → runs s s' → reachable s'.
Proof. intros Hs. induction 1 as [|? ? ? [lab Hst] _ IH]; [done|]. by apply IH; eapply reach_step. Qed.

Lemma runs_fixed_part s s' i c :
  runs s s' → s_iters s !! i = Some c → ∃ c', s_iters s' !! i = Some c' ∧ fixed_part c' = fixed_part c.
Proof.
  intros Hrun. revert c. induction Hrun as [|s1 s2 s3 [lab Hst] _ IH]; intros c Hi; [eauto|].
  destruct (step_fixed_part s1 lab s2 i c Hst Hi) as (c2 & Hi2 & H2).
  destruct (IH c2 Hi2) as (c3 & Hi3 & H3). exists c3. split; [done|congruence].
Qed.

(** The tree an iterator is opened on: no writer is inside. *)
Lemma opened_store s s' start end_ reverse :
  reachable s → opens_iterator s s' start end_ reverse →
  ∃ c, s_iters s' !! length (s_iters s) = Some c ∧ fixed_part c = (start, end_, reverse, true, s_tree s) ∧
    MemDB_model (tree_db (s_tree s)) = replay (s_log s).
Proof.
  intros Hs [Hst (c & Hc & <- & <- & <- & Hm)]. exists c.
  assert (s_iters s' !! length (s_iters s) = Some c) as Hi
    by (rewrite Hc; by apply list_lookup_middle).
  assert (inv s') as Hinv by (eapply reachable_inv, reach_step; [exact Hs|exact Hst]).
  inversion Hst as [| | | | |st en r u Hu Heq1 Heq2| | | | |]; subst; simpl in *.
  apply app_inj_tail in Hc as [_ <-]. simpl in Hm. subst u. split; [done|]. split; [done|].
  destruct (Hu eq_refl) as [Hw _]. pose proof (inv_log _ Hinv) as Hlog. pose proof (inv_writer _ Hinv) as Hwr.
  unfold log_ok in Hlog. simpl in *. destruct (s_pending s) as [ws|]; [|done].
  assert (writer (s_mtx s) = true) by (apply Hwr; eauto). congruence.
Qed.

(** C3: an iterator opened with the lock delivers the store as it is when it
    is opened, whatever runs beside it.  That store is the result of the batches
    written before the call of [Iterator].  At any later point, what the client
    has received is an initial part of the scan of that store, and it is the
    whole scan once the channel is closed and empty and the iterator was not
    closed early. *)
Theorem iterator_snapshot (s0 s1 s : sys (T := T)) start end_ reverse :
  reachable s0 → opens_iterator s0 s1 start end_ reverse → runs s1 s →
  let all := scan (replay (s_log s0)) start end_ reverse in
  ∃ c, s_iters s !! length (s_iters s0) = Some c ∧
    item_entry <$> ci_received c `prefix_of` all ∧
    (ci_closed c = true → ci_cancelled c = false → ci_buf c = [] →
     item_entry <$> ci_received c = all).
Proof.
  intros Hs0 Hopen Hrun all.
  destruct (opened_store s0 s1 start end_ reverse Hs0 Hopen) as (c1 & Hi1 & Hf1 & Hmod).
  destruct (runs_fixed_part s1 s _ c1 Hrun Hi1) as (c & Hi & Hf). exists c. split; [done|].
  rewrite Hf1 in Hf. injection Hf as Hst Hen Hrev Hm Hsnap.
  assert (inv s) as Hinv.
  { eapply reachable_inv, runs_reachable, Hrun. eapply reach_step; [done|apply Hopen]. }
  destruct (inv_iters s Hinv _ c Hi Hm) as [Hck (Hdb & _)].
  assert (all = item_entry <$> all_items c) as ->.
  { unfold all, all_items. rewrite <-Hmod, <-Hsnap, <-Hst, <-Hen, <-Hrev.
    by rewrite <-(traverse_scan (tree_db (ci_snap c))). }
  split.
  - destruct (ck_prefix _ _ Hck) as [k Hk]. rewrite Hk, !fmap_app, <-(assoc_L (++)). by apply prefix_app_r.
  - intros Hcl Hca Hb. rewrite (ck_complete _ _ Hck), Hb, app_nil_r; [done| |done].
    apply (ck_closed _ _ Hck) in Hcl. unfold running. by destruct Hcl as [-> | ->].
Qed.

(** C5: receiving from an iterator opened with the lock (the loop of a client,
    or the draining loop of [Close]) always terminates: unless the goroutine is finished and the channel
    is closed and empty, which ends the loop, the goroutine or the client can act;
    every such action decreases [effort], and no action of anybody else increases
    it. *)
Theorem iterator_drains (s : sys (T := T)) i c :
  reachable s → s_iters s !! i = Some c → ci_useMtx c = true →
  (effort (s_tree s) c = 0 ↔ ci_g c = GDone ∧ ci_closed c = true ∧ ci_buf c = []) ∧
  (ci_closed c = false ∨ ci_buf c ≠ [] ∨ 0 < effort (s_tree s) c →
   ∃ lab s', step s lab s' ∧ (lab = LGoroutine i ∨ lab = LReceive i)) ∧
  (∀ lab s', step s lab s' → ∃ c', s_iters s' !! i = Some c' ∧
     effort (s_tree s') c' ≤ effort (s_tree s) c ∧
     (lab = LGoroutine i ∨ lab = LReceive i → effort (s_tree s') c' < effort (s_tree s) c)).
Proof.
  intros Hinv%reachable_inv Hi Hm.
  assert (effort (s_tree s) c = 0 ↔ ci_g c = GDone ∧ ci_closed c = true ∧ ci_buf c = []) as Hzero.
  { destruct (inv_iters s Hinv i c Hi Hm) as [Hck _]. pose proof (ck_closed _ _ Hck) as Hcl.
    unfold effort. split; [|by intros (-> & _ & ->)].
    destruct (ci_g c), (ci_buf c); simpl; naive_solver lia. }
  split_and!.
  - done.
  - intros Hnot. apply (drain_progress s i c Hi). destruct (decide (effort (s_tree s) c = 0)) as [H0|]; [|lia].
    apply Hzero in H0 as (_ & ? & ?). destruct Hnot as [?|[?|?]]; [congruence|done|done].
  - intros lab s' Hst. destruct (step_effort s lab s' i c) as (c' & ? & ? & ? & ?); eauto.
Qed.

(** Runs in which the client of iterator [i] neither receives nor closes. *)
Inductive runs_but (i : nat) (s : sys (T := T)) : sys (T := T) → Prop :=
  | rb_refl : runs_but i s s
  | rb_step s1 lab s2 : runs_but i s s1 → step s1 lab s2 → lab ≠ LReceive i → lab ≠ LCancel i →
      runs_but i s s2.

(** What only the client of an iterator changes. *)
Definition client_part (c : citer (T := T)) :=
  (ci_useMtx c, ci_cancelled c, ci_received c, all_items c).

Lemma step_client_part (s : sys (T := T)) lab s' i c :
  step s lab s' → lab ≠ LReceive i → lab ≠ LCancel i → s_iters s !! i = Some c →
  ∃ c', s_iters s' !! i = Some c' ∧ client_part c' = client_part c.
Proof.
  intros Hst H1 H2 Hi. assert (i < length (s_iters s)) as Hlt by by eapply lookup_lt_Some.
  assert (∀ j cj c', s_iters s !! j = Some cj → client_part c' = client_part cj →
    ∃ c'', <[j := c']> (s_iters s) !! i = Some c'' ∧ client_part c'' = client_part c) as Hset.
  { intros j cj c' Hj Hc. destruct (decide (j = i)) as [->|Hji].
    - exists c'. rewrite list_lookup_insert_eq by done. rewrite Hi in Hj. injection Hj as <-. done.
    - exists c. by rewrite list_lookup_insert_ne. }
  destruct Hst as [| | | | |start end_ r useMtx Hm|j cj g buf closed Hj Hg|j cj Hj Hg|j cj x buf Hj Hb|j cj Hj|];
    simpl; try (by exists c).
  - exists c. by rewrite lookup_app_l.
  - by apply (Hset j cj).
  - by apply (Hset j cj).
  - exists c. by rewrite list_lookup_insert_ne by congruence.
  - exists c. by rewrite list_lookup_insert_ne by congruence.
Qed.

(** An iterator whose channel cannot take what it has still to send. *)
Definition stuck (c : citer (T := T)) : Prop :=
  ci_useMtx c = true ∧ ci_cancelled c = false ∧
  length (ci_received c) + chBufferSize < length (all_items c).

Lemma stuck_locked (s : sys (T := T)) i c :
  inv s → s_iters s !! i = Some c → stuck c →
  writer (s_mtx s) = false ∧ 0 < readers (s_mtx s) ∧ s_pending s = None.
Proof.
  intros Hinv Hi (Hm & Hca & Hlen). destruct (inv_iters s Hinv i c Hi Hm) as [Hck _].
  assert (ci_g c ≠ GDone) as Hg.
  { intros Hg. pose proof (ck_complete _ _ Hck) as Hc. unfold running in Hc. rewrite Hg in Hc.
    rewrite Hc, length_app in Hlen by done. pose proof (ck_buf _ _ Hck). lia. }
  destruct (locked_no_writer s i c Hinv Hi Hm Hg) as [Hw Hr]. split_and!; try done.
  apply eq_None_not_Some. rewrite <-(inv_writer s Hinv), Hw. done.
Qed.

(** C16: as long as the client of an open iterator leaves more than [chBufferSize]
    entries unread (and does not close it) no writer is let in, whatever the
    others do; and once a writer waits, no reader is let in either: a client
    that calls [Get] within its loop over an iterator waits for ever. *)
Theorem iterator_blocks_writers (s : sys (T := T)) i c s' :
  reachable s → s_iters s !! i = Some c → stuck c → runs_but i s s' →
  writer (s_mtx s') = false ∧ s_tree s' = s_tree s ∧
  (waiting (s_mtx s) = true → waiting (s_mtx s') = true ∧ s_getters s' ≤ s_getters s ∧
    ∀ lab s2, step s' lab s2 → lab = LReader → s_getters s2 < s_getters s').
Proof.
  intros Hreach Hi Hst Hrun.
  assert (reachable s' ∧ s_tree s' = s_tree s ∧ (∃ c', s_iters s' !! i = Some c' ∧ stuck c') ∧
    (waiting (s_mtx s) = true → waiting (s_mtx s') = true ∧ s_getters s' ≤ s_getters s))
    as (Hr' & Htree & (c' & Hi' & Hst') & Hwait).
  { induction Hrun as [|s1 lab s2 _ IH Hstep H1 H2]; [by eauto 10|].
    destruct IH as (Hr1 & Ht1 & (c1 & Hi1 & Hst1) & Hw1).
    destruct (step_client_part s1 lab s2 i c1 Hstep H1 H2 Hi1) as (c2 & Hi2 & Hc2).
    destruct (stuck_locked s1 i c1 (reachable_inv s1 Hr1) Hi1 Hst1) as (Hwr & Hrd & Hp).
    split; [by eapply reach_step|]. split_and!.
    - rewrite <-Ht1. destruct Hstep; simpl; try done. congruence.
    - exists c2. split; [done|]. unfold stuck, client_part in *. by injection Hc2 as -> -> -> ->.
    - intros [Hw Hg]%Hw1. destruct Hstep; simpl; split; try done; congruence || lia. }
  destruct (stuck_locked s' i c' (reachable_inv s' Hr') Hi' Hst') as (Hwr & Hrd & Hp).
  split_and!; [done|done|]. intros [Hw Hg]%Hwait. split_and!; [done|done|].
  intros lab s2 Hstep. destruct Hstep; try done; simpl; intros _; [congruence|lia].
Qed.

End theorems.

Lemma readers_see_whole_batches_witness :
  0 < readers (s_mtx demo) ∧ MemDB_model (tree_db (s_tree demo)) = replay (s_log demo).
Proof.
  assert (0 < readers (s_mtx demo)) as H by (vm_compute; lia).
  split; [exact H|]. exact (proj2 (proj2 (readers_see_whole_batches demo demo_reachable H))).
Defined.

(** The states before and after the iterator of the schedule is opened. *)
Definition demo_before : sys := default init (exec_all (T := list item) (take 6 demo_schedule) init).
Definition demo_opened : sys := default init (exec_all (T := list item) [ANew (Some [x61]) None true true] demo_before).

Lemma exec_all_runs {T : Type} `{!BTreeOps item T} l (s s' : sys (T := T)) : exec_all l s = Some s' → runs s s'.
Proof.
  revert s'. induction l as [|a l IH] using rev_ind; unfold exec_all; intros s'; simpl; [by intros [= <-]|].
  rewrite foldl_app. simpl. intros (s1 & H1 & H2)%bind_Some.
  eapply rtc_r; [by apply IH|]. by apply exec_sound in H2.
Qed.

Lemma demo_opens : opens_iterator demo_before demo_opened (Some [x61]) None true.
Proof.
  split; [|eexists; vm_compute; eauto 10].
  exact (s_newIterator demo_before (Some [x61]) None true true (λ _, conj eq_refl eq_refl)).
Qed.

Lemma iterator_snapshot_witness :
  item_entry <$> ci_received (demo_iter demo_end) = scan (replay (s_log demo_before)) (Some [x61]) None true.
Proof.
  destruct (iterator_snapshot demo_before demo_opened demo_end (Some [x61]) None true) as (c & Hc & _ & H).
  - eapply (exec_all_reachable (take 6 demo_schedule) init); [constructor|vm_compute; reflexivity].
  - exact demo_opens.
  - eapply (exec_all_runs (drop 7 demo_schedule ++ demo_finish)). vm_compute. reflexivity.
  - assert (c = demo_iter demo_end) as -> by (vm_compute in Hc; injection Hc as <-; vm_compute; reflexivity).
    apply H; vm_compute; reflexivity.
Defined.

Lemma iterator_drains_witness :
  ∃ lab s', step demo lab s' ∧ (lab = LGoroutine 0 ∨ lab = LReceive 0).
Proof.
  destruct (iterator_drains demo 0 (demo_iter demo) demo_reachable
    ltac:(vm_compute; reflexivity) ltac:(vm_compute; reflexivity)) as (_ & H & _).
  apply H. right. right. vm_compute. lia.
Defined.

(** A store of 70 entries with an iterator its client has not read from. *)
Definition big_ops : list operation :=
  (λ n, op_set [default x00 (Byte.of_nat n)] [x01]) <$> seq 0 70.
Definition big_schedule : list action :=
  [AWait; ALock big_ops] ++ repeat AWrite 70 ++ [AUnlock; ANew None None false true].
Definition big : sys := default init (exec_all (T := list item) big_schedule init).

Lemma big_reachable : reachable big.
Proof. eapply (exec_all_reachable big_schedule init); [constructor|vm_compute; reflexivity]. Qed.

(** A writer calls [Lock] and has to wait. *)
Definition big_wait : sys := default init (exec_all (T := list item) [AWait] big).
Lemma big_wait_reachable : reachable big_wait.
Proof. eapply (exec_all_reachable [AWait] big); [apply big_reachable|vm_compute; reflexivity]. Qed.

Lemma iterator_blocks_writers_witness :
  waiting (s_mtx big_wait) = true ∧
  ∀ s', runs_but 0 big_wait s' → writer (s_mtx s') = false ∧ waiting (s_mtx s') = true.
Proof.
  assert (waiting (s_mtx big_wait) = true) as Hw by (vm_compute; reflexivity).
  split; [exact Hw|]. intros s' Hs'.
  destruct (iterator_blocks_writers big_wait 0 (demo_iter big_wait) s' big_wait_reachable)
    as (H1 & _ & H2).
  - vm_compute. reflexivity.
  - split; [vm_compute; reflexivity|]. split; [vm_compute; reflexivity|]. vm_compute. lia.
  - exact Hs'.
  - exact (conj H1 (proj1 (H2 Hw))).
Defined.
