(* ===== verification/MemDBLive.v ===== *)
(** * MemDB: the mutex is released

    Liveness of the system of [MemDBConc]: when no new call starts, what is
    under way comes to its end and leaves the mutex free, whatever the order in
    which the goroutines and their clients act. *)

From S2P Require Import Prelude Go Util Spec Types BTree MemDB MemDBCorrect MemDBConc.

(** [P] holds after finitely many steps of [R], whichever steps are taken. *)
Inductive inevitable {A : Type} (R : A → A → Prop) (P : A → Prop) (a : A) : Prop :=
  | inev_now : P a → inevitable R P a
  | inev_step : (∃ b, R a b) → (∀ b, R a b → inevitable R P b) → inevitable R P a.

(** A measure in two parts, the second of which may grow when the first falls. *)
Lemma inevitable_measure {A} (R : A → A → Prop) (I P : A → Prop) (f g : A → nat) a :
  (∀ a b, I a → R a b → I b ∧ (f b < f a ∨ f b = f a ∧ g b < g a)) →
  (∀ a, I a → P a ∨ ∃ b, R a b) → I a → inevitable R P a.
Proof.
  intros Hdec Hprog. remember (f a) as n eqn:Hn. remember (g a) as k eqn:Hk. revert k a Hn Hk.
  induction (lt_wf n) as [n _ IHn]. intros k. induction (lt_wf k) as [k _ IHk]. intros a -> -> HI.
  destruct (Hprog a HI) as [HP|Hb]; [by apply inev_now|]. apply inev_step; [done|]. intros b Hab.
  destruct (Hdec a b HI Hab) as [HIb [Hlt|[Heq Hlt]]]; [by apply (IHn (f b) Hlt (g b))|].
  by apply (IHk (g b) Hlt).
Qed.

Section live.
Context {T : Type} `{!BTreeOps item T} `{!BTreeLaws (T := T) item_Less}.
Implicit Types (s : sys (T := T)).

(** A step that starts no call: no [Lock] that waits or returns, no [RLock], no
    new iterator; [i.cancel()] only the first time. *)
Definition winding s s' : Prop :=
  ∃ lab, step s lab s' ∧ lab ≠ LNew ∧ (is_Some (s_pending s') → is_Some (s_pending s)) ∧
    s_getters s' ≤ s_getters s ∧ (waiting (s_mtx s') = true → waiting (s_mtx s) = true) ∧ s' ≠ s.

(** Nobody holds the mutex, every goroutine is finished, every channel empty. *)
Definition at_rest s : Prop :=
  readers (s_mtx s) = 0 ∧ writer (s_mtx s) = false ∧
  Forall (λ c, ci_g c = GDone ∧ ci_buf c = []) (s_iters s).

Definition to_write s : nat := match s_pending s with None => 0 | Some (_, l) => S (length l) end.
Definition to_do s : nat :=
  s_getters s + sum_list_with (λ c, effort (s_tree s) c + if ci_cancelled c then 0 else 1) (s_iters s).

Lemma to_do_iter s i c c' :
  s_iters s !! i = Some c → effort (s_tree s) c' < effort (s_tree s) c → ci_cancelled c' = ci_cancelled c →
  to_do (set_iter s i c') < to_do s.
Proof.
  intros Hi He Hc. unfold to_do. simpl.
  pose proof (sum_list_with_insert (λ c, effort (s_tree s) c + if ci_cancelled c then 0 else 1) _ i c c' Hi) as Hsum.
  simpl in Hsum. rewrite Hc in Hsum. lia.
Qed.

(** The actions of a goroutine and of its client. *)
Lemma iter_step s lab s' i :
  step s lab s' → lab = LGoroutine i ∨ lab = LReceive i →
  s_pending s' = s_pending s ∧ s_getters s' = s_getters s ∧
  waiting (s_mtx s') = waiting (s_mtx s) ∧ to_do s' < to_do s.
Proof.
  destruct 1 as [| | | | | |j c g buf closed Hj Hg|j c Hj Hg|j c x buf Hj Hb| |]; try naive_solver; intros _;
    (split_and!; [done..|]).
  - apply (to_do_iter s j c); [done| |done]. by apply gstep_effort.
  - apply (to_do_iter s j c); [done| |done]. unfold effort. simpl. rewrite Hg. lia.
  - apply (to_do_iter s j c); [done| |done]. unfold effort. simpl. rewrite Hb. simpl. lia.
Qed.

Lemma winding_decreases s s' :
  inv s → winding s s' →
  to_write s' < to_write s ∨ to_write s' = to_write s ∧ to_do s' < to_do s.
Proof.
  intros Hinv (lab & Hst & Hnew & Hp & Hg & Hw & Hne).
  assert (∀ i, lab = LGoroutine i ∨ lab = LReceive i → to_write s' = to_write s ∧ to_do s' < to_do s) as Hiter.
  { intros i Hi. destruct (iter_step s lab s' i Hst Hi) as (Hpe & _ & _ & ?). unfold to_write. by rewrite Hpe. }
  destruct Hst as [l ws Hl Hwt Hwf Hr0|ws op l db' Hpe Hwr|ws Hpe|Hwf Hwt|n Hn|start end_ r useMtx Hm
    |i c g buf closed Hi Hgs|i c Hi Hgs|i c x buf Hi Hb|i c Hi|Hwf Hwt]; simpl in *; eauto.
  - rewrite (proj2 (inv_writer s Hinv)) in Hwf; [done|]. by apply Hp.
  - left. unfold to_write. rewrite Hpe. simpl. lia.
  - left. unfold to_write. rewrite Hpe. simpl. lia.
  - lia.
  - right. split; [done|]. unfold to_do. simpl. lia.
  - done.
  - right. split; [done|]. unfold to_do. simpl. destruct (ci_cancelled c) eqn:Hc.
    + destruct Hne. unfold set_iter. destruct s as [mtx t pe ge its lg], c. simpl in *. subst. by rewrite list_insert_id.
    + set (c' := CIter (ci_start c) (ci_end c) (ci_reverse c) (ci_useMtx c) (ci_g c) (ci_buf c)
        (ci_closed c) true (ci_received c) (ci_snap c)).
      pose proof (sum_list_with_insert (λ c, effort (s_tree s) c + if ci_cancelled c then 0 else 1) _ i c c' Hi)
        as Hsum. cbv beta in Hsum. change (effort (s_tree s) c') with (effort (s_tree s) c) in Hsum.
      change (ci_cancelled c') with true in Hsum. rewrite Hc in Hsum. lia.
  - rewrite Hwt in Hw. specialize (Hw eq_refl). done.
Qed.

(** Until all is at rest something can wind down. *)
Lemma winding_progress s : inv s → at_rest s ∨ ∃ s', winding s s'.
Proof.
  intros Hinv. destruct (s_pending s) as [[ws l]|] eqn:Hp.
  - right. destruct l as [|op l].
    + eexists. exists LWriter. split; [by apply s_Unlock|]. simpl. split_and!; try done. intros E. by rewrite <-E in Hp.
    + pose proof (inv_log s Hinv) as Hlog. unfold log_ok in Hlog. rewrite Hp in Hlog.
      destruct Hlog as (dn & todo & _ & Hl & _). inversion Hl as [|? w ? todo' Hop _]; subst.
      destruct (write_ops_spec [op] [w] (tree_db (s_tree s))) as (db' & Hwr & _);
        [by repeat constructor|apply (inv_db s Hinv)|].
      eexists. exists LWriter. split; [by eapply s_write|]. simpl. rewrite Hp. split_and!; try done.
      intros E. rewrite <-E in Hp. simpl in Hp. injection Hp as Hp. apply (f_equal length) in Hp. simpl in Hp. lia.
  - destruct (s_getters s) as [|n] eqn:Hg.
    + destruct (decide (Forall (λ c, effort (s_tree s) c = 0) (s_iters s))) as [Hall|Hsome].
      * left. assert (Forall (λ c, ci_g c = GDone ∧ ci_buf c = []) (s_iters s)) as Hdone.
        { eapply Forall_impl; [exact Hall|]. intros c. unfold effort. simpl.
          destruct (ci_g c), (ci_buf c); simpl; lia || done. }
        split_and!; [|by apply not_true_is_false; rewrite (inv_writer s Hinv), Hp; intros []|done].
        rewrite (inv_readers s Hinv), Hg. unfold holders. clear -Hdone.
        induction Hdone as [|c l [Hc _] _ IH]; [done|]. simpl in *. unfold holds at 1. by rewrite Hc.
      * right. apply not_Forall_Exists, Exists_exists in Hsome as (c & Hc & He); [|apply _].
        apply list_elem_of_lookup in Hc as [i Hi]. simpl in He.
        destruct (drain_progress s i c Hi) as (lab & s' & Hst & Hlab); [lia|].
        destruct (iter_step s lab s' i Hst Hlab) as (E1 & E2 & E3 & E4).
        exists s', lab. rewrite E1, E2, E3. split_and!; try done; [by destruct Hlab; subst|]. intros ->. lia.
    + right. eexists. exists LReader. split; [by apply s_RUnlock|]. simpl. rewrite Hp, Hg. split_and!; try done; [lia|].
      intros E. rewrite <-E in Hg. simpl in Hg. lia.
Qed.

(** C15: from every state of every run, when no new call starts, the mutex
    becomes free, every goroutine ends and every channel is emptied, whichever
    of the goroutines, clients, readers and writers act and in whatever order;
    then a writer gets the lock at once. *)
Theorem mutex_released s :
  reachable s → inevitable winding (λ s', at_rest s' ∧
    (waiting (s_mtx s') = true → ∀ l ws, Forall2 op_write l ws →
      ∃ s2, step s' LWriter s2 ∧ s_pending s2 = Some (ws, l))) s.
Proof.
  intros Hs%reachable_inv. eapply (inevitable_measure _ inv _ to_write to_do); [| |exact Hs].
  - intros a b Ha Hab. split; [|by apply winding_decreases].
    destruct Hab as (lab & Hst & _). by eapply step_inv.
  - intros a Ha. destruct (winding_progress a Ha) as [Hrest|?]; [|by right]. left. split; [done|].
    intros Hw l ws Hl. destruct Hrest as (Hr & Hwr & _). eexists. split; [by apply s_Lock|done].
Qed.

End live.

(** The iterator over 70 entries of [big] with a writer waiting. *)
Lemma mutex_released_witness :
  inevitable winding (λ s', at_rest s' ∧
    (waiting (s_mtx s') = true → ∀ l ws, Forall2 op_write l ws →
      ∃ s2, step s' LWriter s2 ∧ s_pending s2 = Some (ws, l))) big_wait.
Proof. exact (mutex_released big_wait big_wait_reachable). Defined.
