(* ===== verification/Registry.v ===== *)
(** * db.go: the registry of backends and [NewDB] *)

From S2P Require Import Prelude Go.

(** [type BackendType string] and its constants *)
Abbreviation BackendType := string (only parsing).
Definition GoLevelDBBackend : BackendType := "goleveldb".
Definition CLevelDBBackend : BackendType := "cleveldb".
Definition MemDBBackend : BackendType := "memdb".
Definition BoltDBBackend : BackendType := "boltdb".
Definition RocksDBBackend : BackendType := "rocksdb".
Definition BadgerDBBackend : BackendType := "badgerdb".

Section registry.
(** The values of the interface type [DB]. *)
Context {DB : Type}.

(** [type dbCreator func(name string, dir string) (DB, error)] *)
Definition dbCreator : Type := string → string → result DB.

(** [var backends = map[BackendType]dbCreator{}] *)
Abbreviation backends_map := (gmap string dbCreator).
Definition backends0 : backends_map := ∅.

Definition registerDBCreator (backends : backends_map) (backend : BackendType)
    (creator : dbCreator) (force : bool) : backends_map :=
  if negb force && bool_decide (is_Some (backends !! backend)) then backends
  else <[backend := creator]> backends.

(** [range backends] visits the keys in an order Go does not specify. *)
Context (range : backends_map → list string).

(** [for k := range backends { keys = append(keys, string(k)) }] *)
Definition keys_loop (backends : backends_map) : list string :=
  foldl (λ keys k, keys ++ [k]) [] (range backends).

Definition NewDB (backends : backends_map) (name : string) (backend : BackendType) (dir : string) :
    result DB :=
  match backends !! backend with
  | None => Err (errUnknownBackend backend (keys_loop backends))
  | Some creator =>
      match creator name dir with
      | Err err => Err (errorfW "failed to initialize database" err)
      | r => r
      end
  end.

(** ** The [init] functions of the backends *)

(** The constructors of the files, and the build tags that include them. *)
Record creators := {
  c_badgerdb : dbCreator;
  c_boltdb : dbCreator;
  c_cleveldb : dbCreator;
  c_goleveldb : dbCreator;
  c_memdb : dbCreator;
  c_rocksdb : dbCreator;
}.
Record build_tags := { t_badgerdb : bool; t_boltdb : bool; t_cleveldb : bool; t_rocksdb : bool }.

(** Each [init] registers one backend: name, constructor and [force]. *)
Definition inits (c : creators) (t : build_tags) : list (BackendType * dbCreator * bool) :=
  (if t_badgerdb t then [(BadgerDBBackend, c_badgerdb c, true)] else []) ++
  (if t_boltdb t then [(BoltDBBackend, c_boltdb c, false)] else []) ++
  (if t_cleveldb t then [(CLevelDBBackend, c_cleveldb c, false)] else []) ++
  [(GoLevelDBBackend, c_goleveldb c, false)] ++
  [(MemDBBackend, c_memdb c, false)] ++
  (if t_rocksdb t then [(RocksDBBackend, c_rocksdb c, false)] else []).

Definition run_inits (l : list (BackendType * dbCreator * bool)) (b : backends_map) : backends_map :=
  foldl (λ b '(name, creator, force), registerDBCreator b name creator force) b l.

(** ** Lemmas *)

Lemma registerDBCreator_lookup b name creator force name' :
  registerDBCreator b name creator force !! name' =
    if decide (name' = name) then
      if force then Some creator else match b !! name with Some c => Some c | None => Some creator end
    else b !! name'.
Proof.
  unfold registerDBCreator. destruct force; simpl.
  - case_decide; subst; [by rewrite lookup_insert_eq|by rewrite lookup_insert_ne].
  - destruct (b !! name) as [c|] eqn:E; simpl.
    + case_decide; subst; [done|done].
    + case_decide; subst; [by rewrite lookup_insert_eq|by rewrite lookup_insert_ne].
Qed.

(** Registrations of distinct backends on an empty registry commute: every
    backend ends up with its own constructor. *)
Lemma run_inits_lookup l name :
  NoDup (l.*1).*1 →
  run_inits l backends0 !! name = list_to_map (M := gmap string dbCreator) l.*1 !! name.
Proof.
  revert name. induction l as [|[[n c] f] l IH] using rev_ind; intros name Hnd; [done|].
  unfold run_inits in *. rewrite foldl_app. simpl. rewrite registerDBCreator_lookup.
  rewrite !fmap_app in Hnd. apply NoDup_app in Hnd as (Hnd & Hdisj & _).
  rewrite !fmap_app. simpl.
  assert (list_to_map (M := gmap string dbCreator) l.*1 !! n = None) as Hn.
  { apply not_elem_of_list_to_map_1. intros H. apply (Hdisj n H). by left. }
  rewrite !IH, Hn by done. case_decide as Hd.
  - subst. transitivity (Some c); [by destruct f|]. symmetry.
    apply elem_of_list_to_map_1; [|].
    + rewrite !fmap_app. apply NoDup_app. split_and!; [done|done|]. simpl. apply NoDup_singleton.
    + apply elem_of_app. right. by left.
  - rewrite list_to_map_app. by rewrite lookup_union_l by (simpl; by rewrite lookup_insert_ne).
Qed.

(** The backends of a build. *)
Definition built_in (c : creators) (t : build_tags) (backend : BackendType) : option dbCreator :=
  if decide (backend = GoLevelDBBackend) then Some (c_goleveldb c)
  else if decide (backend = MemDBBackend) then Some (c_memdb c)
  else if decide (backend = BadgerDBBackend) then if t_badgerdb t then Some (c_badgerdb c) else None
  else if decide (backend = BoltDBBackend) then if t_boltdb t then Some (c_boltdb c) else None
  else if decide (backend = CLevelDBBackend) then if t_cleveldb t then Some (c_cleveldb c) else None
  else if decide (backend = RocksDBBackend) then if t_rocksdb t then Some (c_rocksdb c) else None
  else None.

Lemma inits_NoDup c t : NoDup ((inits c t).*1).*1.
Proof.
  destruct t as [[] [] [] []]; unfold inits; simpl;
    (apply (bool_decide_unpack _); vm_compute; exact I).
Qed.

Lemma inits_lookup c t backend :
  list_to_map (M := gmap string dbCreator) (inits c t).*1 !! backend = built_in c t backend.
Proof.
  unfold built_in.
  destruct t as [[] [] [] []]; unfold inits; simpl; rewrite ?lookup_insert, ?lookup_empty;
    repeat case_decide; simplify_eq; done.
Qed.

Lemma keys_loop_range b : keys_loop b = range b.
Proof.
  unfold keys_loop. assert (∀ l acc, foldl (λ keys k, keys ++ [k]) acc l = acc ++ l :> list string) as H.
  { induction l as [|x l IH]; intros acc; simpl; [by rewrite app_nil_r|].
    by rewrite IH, <-(assoc_L (++)). }
  apply H.
Qed.

(** ** Theorems *)

(** [NewDB] after the [init] functions have run. *)
Lemma NewDB_inits c t l name backend dir :
  (∀ b, range b ≡ₚ elements (dom b)) → l ≡ₚ inits c t →
  let r := NewDB (run_inits l backends0) name backend dir in
  match built_in c t backend with
  | Some creator => r = match creator name dir with
                        | Err e => Err (errorfW "failed to initialize database" e)
                        | x => x
                        end
  | None => ∃ keys, r = Err (errUnknownBackend backend keys) ∧ keys ≡ₚ ((inits c t).*1).*1
  end.
Proof.
  intros Hrange Hl. pose proof (inits_NoDup c t) as Hnd.
  assert (NoDup (l.*1).*1) as Hnd' by by rewrite Hl.
  assert (Hmap : run_inits l backends0 = list_to_map (M := gmap string dbCreator) (inits c t).*1).
  { apply map_eq. intros k. rewrite run_inits_lookup by done.
    by rewrite (list_to_map_proper (M := gmap string) l.*1 (inits c t).*1) by (done || by rewrite Hl). }
  rewrite Hmap. unfold NewDB. rewrite inits_lookup. destruct (built_in c t backend); [done|].
  eexists. split; [done|]. rewrite keys_loop_range, Hrange, dom_list_to_map_L, elements_list_to_set; done.
Qed.

(** In whatever order the [init] functions of the files of a build run, [NewDB]
    calls the constructor of the backend that is asked for and wraps its error; for
    any other name it fails, and the error lists exactly the backends of the build. *)
Theorem NewDB_after_init c t l name backend dir :
  (∀ b, range b ≡ₚ elements (dom b)) → l ≡ₚ inits c t →
  let r := NewDB (run_inits l backends0) name backend dir in
  match built_in c t backend with
  | Some creator => r = match creator name dir with
                        | Err e => Err (errorfW "failed to initialize database" e)
                        | x => x
                        end
  | None => ∃ keys, r = Err (errUnknownBackend backend keys) ∧ keys ≡ₚ ((inits c t).*1).*1
  end.
Proof. exact (NewDB_inits c t l name backend dir). Qed.

(** Registering a backend twice keeps the first constructor unless the second
    registration forces its own; other backends are not affected. *)
Theorem registerDBCreator_force b name c1 c2 force f :
  b !! name = None →
  let b2 := registerDBCreator (registerDBCreator b name c1 f) name c2 force in
  b2 !! name = Some (if force then c2 else c1) ∧
  ∀ other, other ≠ name → b2 !! other = b !! other.
Proof.
  intros Hb b2. unfold b2. split.
  - rewrite !registerDBCreator_lookup, decide_True by done. destruct force; [done|].
    rewrite decide_True, Hb by done. by destruct f.
  - intros other Ho. by rewrite !registerDBCreator_lookup, !decide_False.
Qed.

End registry.

Definition demo_creators : creators (DB := string) :=
  let ok kind name dir : result string := Ok (kind +:+ ":" +:+ name)%string in
  {| c_badgerdb := ok "badger"; c_boltdb _ _ := Err (errorsNew "timeout"); c_cleveldb := ok "clevel";
     c_goleveldb := ok "golevel"; c_memdb := ok "mem"; c_rocksdb := ok "rocks" |}.
Definition demo_tags : build_tags :=
  {| t_badgerdb := false; t_boltdb := true; t_cleveldb := false; t_rocksdb := true |}.

Lemma NewDB_after_init_witness :
  NewDB (λ b, elements (dom b)) (run_inits (reverse (inits demo_creators demo_tags)) backends0)
    "state" "boltdb" "/data" =
  Err (errorfW "failed to initialize database" (errorsNew "timeout")).
Proof.
  exact (NewDB_after_init (λ b, elements (dom b)) demo_creators demo_tags
    (reverse (inits demo_creators demo_tags)) "state" "boltdb" "/data"
    (λ b, Permutation_refl _) (reverse_Permutation _)).
Defined.

Lemma registerDBCreator_force_witness :
  registerDBCreator (registerDBCreator backends0 "memdb" (c_memdb demo_creators) false)
    "memdb" (c_goleveldb demo_creators) true !! "memdb" = Some (c_goleveldb demo_creators).
Proof.
  exact (proj1 (registerDBCreator_force backends0 "memdb" (c_memdb demo_creators)
    (c_goleveldb demo_creators) true false (lookup_empty _))).
Defined.
