(* ===== verification/Interface.v ===== *)
(** * Values of the interface types [DB], [Iterator] and [Batch]

    A value of an interface type is a value of one of the types that have its
    methods, and a call goes to the method of the type the value has.  The
    interface over two databases is their sum, with the batches and iterators of
    either; the one over all backends is a sum of sums.  [DBEmbed] says that the
    methods on the values of one of the types are the methods of that type; the
    contract of the type then holds for these values of the interface. *)

From S2P Require Import Prelude Go Util Spec Types.

(** A reply of the type, seen as a reply of the interface. *)
Definition via {X Y A : Type} (up : X → Y) (r : result A * X) : result A * Y := (r.1, up r.2).

Lemma via_reply {X Y A : Type} (up : X → Y) (m : M X A) (m' : M Y A) x r (Q : X → Prop) (R : Y → Prop) :
  m' (up x) = via up (m x) → reply m x r Q → (∀ x', Q x' → R (up x')) → reply m' (up x) r R.
Proof. intros Hm (x' & H & HQ) HR. exists (up x'). rewrite Hm, H. auto. Qed.

Lemma via_reply_map {X Y A A' : Type} (up : X → Y) (upA : A → A') (m : M X A) (m' : M Y A') x r
    (Q : X → Prop) (R : Y → Prop) :
  m' (up x) = via up (result_map upA (m x).1, (m x).2) → reply m x r Q → (∀ x', Q x' → R (up x')) →
  reply m' (up x) (result_map upA r) R.
Proof. intros Hm (x' & H & HQ) HR. exists (up x'). rewrite Hm, H. auto. Qed.

(** ** A type among those of the interface *)

Class DBEmbed {S I B S' I' B' : Type} `{!IteratorOps I, !BatchOps S B, !IteratorOps I', !BatchOps S' B'}
    (ops : DBOps S I B) (ops' : DBOps S' I' B') := {
  em_S : S → S';
  em_I : I → I';
  em_B : B → B';
  un_S : S' → option S;              (* a type assertion *)
  em_bs (bs : B * S) : B' * S' := (em_B bs.1, em_S bs.2);
  un_em_S s : un_S (em_S s) = Some s;
  em_un_S x s : un_S x = Some s → x = em_S s;
  em_Get key s : db_Get ops' key (em_S s) = via em_S (db_Get ops key s);
  em_Has key s : db_Has ops' key (em_S s) = via em_S (db_Has ops key s);
  em_Set key value s : db_Set ops' key value (em_S s) = via em_S (db_Set ops key value s);
  em_SetSync key value s : db_SetSync ops' key value (em_S s) = via em_S (db_SetSync ops key value s);
  em_Delete key s : db_Delete ops' key (em_S s) = via em_S (db_Delete ops key s);
  em_DeleteSync key s : db_DeleteSync ops' key (em_S s) = via em_S (db_DeleteSync ops key s);
  em_Iterator st en s : db_Iterator ops' st en (em_S s) =
    via em_S (result_map em_I (db_Iterator ops st en s).1, (db_Iterator ops st en s).2);
  em_ReverseIterator st en s : db_ReverseIterator ops' st en (em_S s) =
    via em_S (result_map em_I (db_ReverseIterator ops st en s).1, (db_ReverseIterator ops st en s).2);
  em_Close s : db_Close ops' (em_S s) = via em_S (db_Close ops s);
  em_NewBatch s : db_NewBatch ops' (em_S s) =
    via em_S (result_map em_B (db_NewBatch ops s).1, (db_NewBatch ops s).2);
  em_b_Set key value bs : b_Set key value (em_bs bs) = via em_bs (b_Set key value bs);
  em_b_Delete key bs : b_Delete key (em_bs bs) = via em_bs (b_Delete key bs);
  em_b_Write bs : b_Write (em_bs bs) = via em_bs (b_Write bs);
  em_b_WriteSync bs : b_WriteSync (em_bs bs) = via em_bs (b_WriteSync bs);
  em_b_Close bs : b_Close (em_bs bs) = via em_bs (b_Close bs);
  em_it_Domain it : it_Domain (em_I it) = it_Domain it;
  em_it_Valid it : it_Valid (em_I it) = via em_I (it_Valid it);
  em_it_Next it : it_Next (em_I it) = via em_I (it_Next it);
  em_it_Key it : it_Key (em_I it) = via em_I (it_Key it);
  em_it_Value it : it_Value (em_I it) = via em_I (it_Value it);
  em_it_Error it : it_Error (em_I it) = it_Error it;
  em_it_Close it : it_Close (em_I it) = via em_I (it_Close it);
}.

Section embed.
Context {S I B S' I' B' : Type} `{!IteratorOps I, !BatchOps S B, !IteratorOps I', !BatchOps S' B'}.
Context (ops : DBOps S I B) (ops' : DBOps S' I' B') `{!DBEmbed ops ops', !DBContract ops}.

Definition em_it_rep (x : I') (s e : slice) (l : list entry) : Prop := ∃ it, x = em_I it ∧ it_rep it s e l.
Definition em_inv (x : S') : Prop := ∃ s, un_S x = Some s ∧ db_inv s.
Definition em_model (x : S') : store := from_option db_model ∅ (un_S x).
Definition em_batch_rep (x : B') (ws : option (list write)) : Prop := ∃ b, x = em_B b ∧ batch_rep b ws.

Lemma em_inv_S s : db_inv s → em_inv (em_S s).
Proof. exists s. by rewrite un_em_S. Qed.
Lemma em_model_S s : em_model (em_S s) = db_model s.
Proof. unfold em_model. by rewrite un_em_S. Qed.
Lemma em_post m s' : db_inv s' ∧ db_model s' = m → em_inv (em_S s') ∧ em_model (em_S s') = m.
Proof. intros [? <-]. rewrite em_model_S. auto using em_inv_S. Qed.
Lemma em_bs_post ws m bs :
  batch_rep bs.1 ws ∧ db_inv bs.2 ∧ db_model bs.2 = m →
  em_batch_rep (em_bs bs).1 ws ∧ em_inv (em_bs bs).2 ∧ em_model (em_bs bs).2 = m.
Proof. intros (? & ? & <-). simpl. rewrite em_model_S. split; [by eexists|]. auto using em_inv_S. Qed.

(** A state, a batch or an iterator of the interface that belongs to the type. *)
Ltac em_state := match goal with H : em_inv ?x |- _ =>
  destruct H as (s0 & ->%em_un_S & Hinv0); rewrite ?em_model_S end.
Ltac em_batch := match goal with H : em_batch_rep ?b _ |- _ => destruct H as (? & -> & ?) end; em_state;
  repeat match goal with |- context [(em_B ?b, em_S ?s)] => change (em_B b, em_S s) with (em_bs (b, s)) end.
Ltac em_iter := match goal with H : em_it_rep ?it _ _ _ |- _ => destruct H as (? & -> & ?) end.

Definition embed_iterator : IteratorContract I'.
Proof.
  refine {| it_rep := em_it_rep |}; intros; em_iter.
  - eapply via_reply; [apply em_it_Valid|by eapply law_Valid|by eexists].
  - eapply via_reply; [apply em_it_Next|by eapply law_Next|by eexists].
  - eapply via_reply; [apply em_it_Next|by eapply law_Next_invalid|by eexists].
  - eapply via_reply; [apply em_it_Key|by eapply law_Key|by eexists].
  - eapply via_reply; [apply em_it_Key|by eapply law_Key_invalid|by eexists].
  - eapply via_reply; [apply em_it_Value|by eapply law_Value|by eexists].
  - eapply via_reply; [apply em_it_Value|by eapply law_Value_invalid|by eexists].
  - rewrite em_it_Error. by eapply law_Error.
  - eapply via_reply; [apply em_it_Close|by eapply law_it_Close|done].
Defined.

(** A method of a batch of the interface is one of the batch of the type. *)
Lemma em_method (m : M (B' * S') unit) :
  batch_method m → ∃ m0 : M (B * S) unit, batch_method m0 ∧ ∀ bs, m (em_bs bs) = via em_bs (m0 bs).
Proof.
  intros [key value|key| |]; eexists;
    (split; [|by intros; apply em_b_Set || apply em_b_Delete || apply em_b_Write || apply em_b_WriteSync]);
    constructor.
Qed.

Definition embed_contract : DBContract ops'.
Proof.
  refine {| db_it_contract := embed_iterator; db_inv := em_inv; db_model := em_model;
            db_fits := db_fits; batch_rep := em_batch_rep |}.
  - intros; em_state. eapply via_reply; [apply em_Get|by apply law_Get|exact (em_post _)].
  - intros; em_state. eapply via_reply; [apply em_Has|by apply law_Has|exact (em_post _)].
  - intros; em_state. eapply via_reply; [apply em_Set|by apply law_Set|exact (em_post _)].
  - intros; em_state. eapply via_reply; [apply em_SetSync|by apply law_SetSync|exact (em_post _)].
  - intros; em_state. eapply via_reply; [apply em_Delete|by apply law_Delete|exact (em_post _)].
  - intros; em_state. eapply via_reply; [apply em_DeleteSync|by apply law_DeleteSync|exact (em_post _)].
  - intros ? st en ? Hb. em_state. destruct (law_Iterator _ st en Hinv0 Hb) as (it & Hit & Hrep).
    exists (em_I it). split; [|by eexists].
    exact (via_reply_map _ em_I _ _ _ _ _ _ (em_Iterator st en _) Hit (em_post _)).
  - intros ? st en ? Hb. em_state. destruct (law_ReverseIterator _ st en Hinv0 Hb) as (it & Hit & Hrep).
    exists (em_I it). split; [|by eexists].
    exact (via_reply_map _ em_I _ _ _ _ _ _ (em_ReverseIterator st en _) Hit (em_post _)).
  - intros; em_state. exact (via_reply_map em_S em_I (db_Iterator ops start end_) _ _ (Err errKeyEmpty) _ _
      (em_Iterator _ _ _) (law_Iterator_bad _ _ _ ltac:(done) ltac:(done)) (em_post _)).
  - intros; em_state. exact (via_reply_map em_S em_I (db_ReverseIterator ops start end_) _ _ (Err errKeyEmpty) _ _
      (em_ReverseIterator _ _ _) (law_ReverseIterator_bad _ _ _ ltac:(done) ltac:(done)) (em_post _)).
  - intros; em_state. destruct (law_NewBatch _ Hinv0) as (b & Hb & Hrep). exists (em_B b). split; [|by eexists].
    exact (via_reply_map _ em_B _ _ _ _ _ _ (em_NewBatch _) Hb (em_post _)).
  - intros; em_batch. eapply (via_reply em_bs); [apply em_b_Set|by apply law_batch_Set|exact (em_bs_post _ _)].
  - intros; em_batch. eapply (via_reply em_bs); [apply em_b_Delete|by apply law_batch_Delete|exact (em_bs_post _ _)].
  - intros; em_batch. eapply (via_reply em_bs); [apply em_b_Write|by apply law_batch_Write|exact (em_bs_post _ _)].
  - intros; em_batch. eapply (via_reply em_bs); [apply em_b_WriteSync|by apply law_batch_WriteSync|exact (em_bs_post _ _)].
  - intros ? ? ? ? ? Hm; em_batch. destruct (em_method _ Hm) as (m0 & Hm0 & Heq).
    destruct (law_batch_closed _ s0 m0 ltac:(done) Hinv0 Hm0) as (err & Herr). exists err.
    exact (via_reply em_bs _ _ _ _ _ _ (Heq _) Herr (em_bs_post _ _)).
  - intros; em_batch. eapply (via_reply em_bs); [apply em_b_Close|by eapply law_batch_Close|exact (em_bs_post _ _)].
  - intros; em_state. eapply via_reply; [apply em_Close|by apply law_Close|done].
Defined.

Lemma embed_bounds : IteratorBounds I → IteratorBounds (IteratorContract0 := embed_iterator) I'.
Proof. intros Hb x s e l (it & -> & Hrep). rewrite em_it_Domain. by eapply Hb. Qed.

End embed.

(** ** Two types *)

Section sum.
Context {S1 I1 B1 S2 I2 B2 : Type}.

(** A call goes to the method of the type the value has. *)
Definition by_type {X1 X2 A : Type} (m1 : M X1 A) (m2 : M X2 A) : M (X1 + X2) A := λ x,
  match x with
  | inl x1 => via inl (m1 x1)
  | inr x2 => via inr (m2 x2)
  end.
(** A result that is a value of an interface as well. *)
Definition boxed {X A A' : Type} (up : A → A') (m : M X A) : M X A' := λ x,
  (result_map up (m x).1, (m x).2).

(** A batch has the database it was made by: the types agree. *)
Definition by_type_batch {A : Type} (m1 : M (B1 * S1) A) (m2 : M (B2 * S2) A) : M ((B1 + B2) * (S1 + S2)) A := λ x,
  match x with
  | (inl b, inl s) => via (λ bs, (inl bs.1, inl bs.2)) (m1 (b, s))
  | (inr b, inr s) => via (λ bs, (inr bs.1, inr bs.2)) (m2 (b, s))
  | _ => (Panic "the batch of another database", x)
  end.

Context `{!IteratorOps I1, !IteratorOps I2, !BatchOps S1 B1, !BatchOps S2 B2}.

#[local] Instance sum_iterator_ops : IteratorOps (I1 + I2) := {|
  it_Domain it := match it with inl it => it_Domain it | inr it => it_Domain it end;
  it_Valid := by_type it_Valid it_Valid;
  it_Next := by_type it_Next it_Next;
  it_Key := by_type it_Key it_Key;
  it_Value := by_type it_Value it_Value;
  it_Error it := match it with inl it => it_Error it | inr it => it_Error it end;
  it_Close := by_type it_Close it_Close;
|}.

#[local] Instance sum_batch_ops : BatchOps (S1 + S2) (B1 + B2) := {|
  b_Set key value := by_type_batch (b_Set key value) (b_Set key value);
  b_Delete key := by_type_batch (b_Delete key) (b_Delete key);
  b_Write := by_type_batch b_Write b_Write;
  b_WriteSync := by_type_batch b_WriteSync b_WriteSync;
  b_Close := by_type_batch b_Close b_Close;
|}.

Context (ops1 : DBOps S1 I1 B1) (ops2 : DBOps S2 I2 B2).

Definition sum_ops : DBOps (S1 + S2) (I1 + I2) (B1 + B2) := {|
  db_Get key := by_type (db_Get ops1 key) (db_Get ops2 key);
  db_Has key := by_type (db_Has ops1 key) (db_Has ops2 key);
  db_Set key value := by_type (db_Set ops1 key value) (db_Set ops2 key value);
  db_SetSync key value := by_type (db_SetSync ops1 key value) (db_SetSync ops2 key value);
  db_Delete key := by_type (db_Delete ops1 key) (db_Delete ops2 key);
  db_DeleteSync key := by_type (db_DeleteSync ops1 key) (db_DeleteSync ops2 key);
  db_Iterator start end_ :=
    by_type (boxed inl (db_Iterator ops1 start end_)) (boxed inr (db_Iterator ops2 start end_));
  db_ReverseIterator start end_ :=
    by_type (boxed inl (db_ReverseIterator ops1 start end_)) (boxed inr (db_ReverseIterator ops2 start end_));
  db_Close := by_type (db_Close ops1) (db_Close ops2);
  db_NewBatch := by_type (boxed inl (db_NewBatch ops1)) (boxed inr (db_NewBatch ops2));
  db_Print := by_type (db_Print ops1) (db_Print ops2);
  db_Stats := by_type (db_Stats ops1) (db_Stats ops2);
|}.

Definition sum_l : DBEmbed ops1 sum_ops.
Proof.
  refine {| em_S := inl; em_I := inl; em_B := inl;
            un_S x := match x with inl s => Some s | inr _ => None end |}; try done.
  all: by intros [?|?] ? [= ->] || intros * ; repeat match goal with bs : _ * _ |- _ => destruct bs end.
Defined.

Definition sum_r : DBEmbed ops2 sum_ops.
Proof.
  refine {| em_S := inr; em_I := inr; em_B := inr;
            un_S x := match x with inr s => Some s | inl _ => None end |}; try done.
  all: by intros [?|?] ? [= ->] || intros * ; repeat match goal with bs : _ * _ |- _ => destruct bs end.
Defined.

End sum.

(** ** A value that meets the contract

    Its contents are [m], and it takes calls within the limits [fits]. *)
Definition conforms {S I B : Type} `{!IteratorOps I, !BatchOps S B} (ops : DBOps S I B)
    (fits : limits) (s : S) (m : store) : Prop :=
  ∃ C : DBContract ops, IteratorBounds I ∧ db_inv s ∧ db_model s = m ∧ db_fits = fits.

Lemma contract_conforms {S I B : Type} `{!IteratorOps I, !BatchOps S B} (ops : DBOps S I B)
    `{!DBContract ops, !IteratorBounds I} (s : S) :
  db_inv s → conforms ops db_fits s (db_model s).
Proof. by eexists. Qed.

Lemma embed_conforms {S I B S' I' B' : Type} `{!IteratorOps I, !BatchOps S B, !IteratorOps I', !BatchOps S' B'}
    (ops : DBOps S I B) (ops' : DBOps S' I' B') `{!DBEmbed ops ops'} fits s m :
  conforms ops fits s m → conforms ops' fits (em_S s) m.
Proof.
  intros (C & Hb & Hinv & <- & <-). exists (embed_contract ops ops').
  split; [exact (embed_bounds ops ops' Hb)|]. split; [exact (em_inv_S ops ops' s Hinv)|].
  split; [exact (em_model_S ops ops' s)|done].
Qed.

Section conforms_sum.
Context {S1 I1 B1 S2 I2 B2 : Type} `{!IteratorOps I1, !IteratorOps I2, !BatchOps S1 B1, !BatchOps S2 B2}.
Context (ops1 : DBOps S1 I1 B1) (ops2 : DBOps S2 I2 B2).
#[local] Existing Instances sum_iterator_ops sum_batch_ops.

Lemma conforms_l fits s m : conforms ops1 fits s m → conforms (sum_ops ops1 ops2) fits (inl s) m.
Proof. exact (embed_conforms ops1 (sum_ops ops1 ops2) (DBEmbed0 := sum_l ops1 ops2) fits s m). Qed.
Lemma conforms_r fits s m : conforms ops2 fits s m → conforms (sum_ops ops1 ops2) fits (inr s) m.
Proof. exact (embed_conforms ops2 (sum_ops ops1 ops2) (DBEmbed0 := sum_r ops1 ops2) fits s m). Qed.

End conforms_sum.
