(* ===== verification/Path.v ===== *)
(** * path/filepath of the Go standard library, as the backends use it (Unix) *)

From S2P Require Import Prelude.

Definition slash : Ascii.ascii := Ascii.ascii_of_nat 47.

(** [strings.Split(s, "/")] *)
Fixpoint split_slash (s : string) : list string :=
  match s with
  | EmptyString => [EmptyString]
  | String c s =>
      if Ascii.eqb c slash then EmptyString :: split_slash s
      else match split_slash s with
           | x :: l => String c x :: l
           | [] => [String c EmptyString]
           end
  end.

(** [strings.Join(l, sep)] *)
Fixpoint strings_Join (l : list string) (sep : string) : string :=
  match l with
  | [] => EmptyString
  | [x] => x
  | x :: l => (x +:+ sep +:+ strings_Join l sep)%string
  end.

(** One element of the path, on the reversed list of the elements kept so far. *)
Definition clean_step (rooted : bool) (out : list string) (x : string) : list string :=
  if decide (x = "" ∨ x = ".") then out
  else if decide (x = "..") then
    match out with
    | y :: out' => if decide (y = "..") then x :: out else out'
    | [] => if rooted then [] else [x]
    end
  else x :: out.

(** [filepath.Clean] *)
Definition filepath_Clean (path : string) : string :=
  let rooted := match path with String c _ => Ascii.eqb c slash | EmptyString => false end in
  let out := strings_Join (reverse (foldl (clean_step rooted) [] (split_slash path))) "/" in
  if rooted then ("/" +:+ out)%string else if decide (out = "") then "." else out.

(** [filepath.Join] *)
Fixpoint filepath_Join (elem : list string) : string :=
  match elem with
  | [] => EmptyString
  | e :: l => if decide (e = "") then filepath_Join l else filepath_Clean (strings_Join elem "/")
  end.

Example Join_db : filepath_Join ["/tmp/data/"; "state.db"] = "/tmp/data/state.db".
Proof. reflexivity. Qed.
Example Join_dot : filepath_Join ["."; "a/../../b.db"] = "../b.db".
Proof. reflexivity. Qed.
