(* ===== verification/Cursor.v ===== *)
(** * Cursors of the key-value libraries

    The backends goleveldb, cleveldb and rocksdb iterate with a cursor of the
    library they wrap.  [CursorOps] has the methods the wrappers call,
    [CursorLaws] their documented behaviour: a cursor ranges over a list of
    entries in ascending key order and is at one of them or is not valid.  The
    lemmas relate a position and the bounds of a wrapper to the entries the
    wrapper has still to deliver. *)

From S2P Require Import Prelude Go Util Spec Types.

(** ** Methods and laws *)

Class CursorOps (C : Type) := {
  cur_First : C → C;                 (* First, SeekToFirst *)
  cur_Last : C → C;                  (* Last, SeekToLast *)
  cur_Seek : slice → C → C;
  cur_Next : C → C;
  cur_Prev : C → C;
  cur_Valid : C → bool;
  cur_Key : C → slice;
  cur_Value : C → slice;
  cur_Err : C → option error;        (* Error, Err, GetError *)
  cur_Release : C → C;               (* Release, Close *)
}.

Definition first_pos (L : list entry) : option nat :=
  match L with [] => None | _ => Some 0 end.
Definition last_pos (L : list entry) : option nat :=
  match L with [] => None | _ => Some (length L - 1) end.
(** The first entry whose key is not less than [k]. *)
Definition seek_pos (L : list entry) (k : bytes) : option nat :=
  fst <$> list_find (λ kv, ble k kv.1) L.
Definition next_pos (L : list entry) (i : nat) : option nat :=
  if decide (S i < length L) then Some (S i) else None.
Definition prev_pos (i : nat) : option nat :=
  match i with 0 => None | S j => Some j end.

Class CursorLaws (C : Type) `{!CursorOps C} := {
  cur_over : C → list entry → Prop;
  cur_at : C → list entry → option nat → Prop;
  claw_over c L p : cur_at c L p → cur_over c L;
  claw_bound c L i : cur_at c L (Some i) → i < length L;
  claw_First c L : cur_over c L → cur_at (cur_First c) L (first_pos L);
  claw_Last c L : cur_over c L → cur_at (cur_Last c) L (last_pos L);
  claw_Seek c L k : cur_over c L → cur_at (cur_Seek k c) L (seek_pos L (data k));
  claw_Next c L i : cur_at c L (Some i) → cur_at (cur_Next c) L (next_pos L i);
  claw_Prev c L i : cur_at c L (Some i) → cur_at (cur_Prev c) L (prev_pos i);
  claw_Valid c L p : cur_at c L p → cur_Valid c = bool_decide (is_Some p);
  claw_Key c L i kv : cur_at c L (Some i) → L !! i = Some kv → cur_Key c = Some kv.1;
  claw_Value c L i kv : cur_at c L (Some i) → L !! i = Some kv → cur_Value c = Some kv.2;
  claw_Err c L : cur_over c L → cur_Err c = None;
}.

(** ** Positions and what is left to deliver *)

Section positions.
Implicit Types (L : list entry) (s e : slice).

(** The entries of the domain from a position on, in the direction of travel. *)
Definition pending L s e (rev : bool) (p : option nat) : list entry :=
  match p with
  | None => []
  | Some i => filter (λ kv, in_domain s e kv.1) (if rev then reverse (take (S i) L) else drop i L)
  end.

(** Nothing ahead is before the domain. *)
Definition positioned L s e (rev : bool) (p : option nat) : Prop :=
  match p with
  | None => True
  | Some i => if rev then Forall (λ kv, below kv.1 e) (take (S i) L)
              else Forall (λ kv, ble (data s) kv.1) (drop i L)
  end.

(** The position where a wrapper starts. *)
Definition start_pos L s e (rev : bool) : option nat :=
  if rev then
    match e with
    | None => last_pos L
    | Some k => match seek_pos L k with Some i => prev_pos i | None => last_pos L end
    end
  else match s with None => first_pos L | Some k => seek_pos L k end.

(** The test a wrapper makes on the key the cursor is at. *)
Definition key_ahead s e (rev : bool) (k : bytes) : Prop :=
  if rev then ble (data s) k else below k e.

#[global] Instance key_ahead_dec s e rev k : Decision (key_ahead s e rev k).
Proof. unfold key_ahead. destruct rev; apply _. Defined.

(** The tests on the bounds are [key_ahead]. *)
Lemma key_ahead_test s e (rev : bool) (k : bytes) :
  (if rev then negb (is_nil s) && (bytes_Compare (Some k) s <? 0)%Z
   else negb (is_nil e) && (bytes_Compare e (Some k) <=? 0)%Z) =
  negb (bool_decide (key_ahead s e rev k)).
Proof.
  unfold key_ahead. destruct rev.
  - destruct s as [s|]; cbn [is_nil negb andb];
      [|symmetry; apply negb_false_iff, bool_decide_eq_true_2, ble_nil].
    apply eq_true_iff_eq. rewrite Z.ltb_lt, bytes_Compare_lt, negb_true_iff, bool_decide_eq_false.
    simpl. by rewrite not_ble.
  - destruct e as [e|]; cbn [is_nil negb andb];
      [|symmetry; by apply negb_false_iff, bool_decide_eq_true_2].
    apply eq_true_iff_eq. rewrite Z.leb_le, bytes_Compare_le, negb_true_iff, bool_decide_eq_false.
    simpl. by rewrite not_blt.
Qed.

Definition step_pos L (rev : bool) (i : nat) : option nat :=
  if rev then prev_pos i else next_pos L i.

Lemma sorted_lookup L i j x y :
  StronglySorted key_lt L → L !! i = Some x → L !! j = Some y → i < j → blt x.1 y.1.
Proof. intros HL Hi Hj Hij. by apply (StronglySorted_lookup key_lt L i j x y HL). Qed.

Lemma pending_step L s e rev i :
  StronglySorted key_lt L → positioned L s e rev (Some i) →
  ∀ kv, L !! i = Some kv → key_ahead s e rev kv.1 →
  pending L s e rev (Some i) = kv :: pending L s e rev (step_pos L rev i).
Proof.
  intros HL Hp kv Hkv Hk. unfold pending, step_pos, positioned, key_ahead in *. destruct rev.
  - rewrite (take_S_r _ _ kv) in Hp |- * by done. apply Forall_app in Hp as [_ [Hb _]%Forall_cons].
    rewrite reverse_snoc, filter_cons_True by done. f_equal.
    destruct i as [|i]; simpl; [by rewrite take_0|done].
  - rewrite (drop_S _ kv) in Hp |- * by done. apply Forall_cons in Hp as [Hb _].
    rewrite filter_cons_True by done. f_equal. unfold next_pos. case_decide; [done|].
    by rewrite drop_ge by lia.
Qed.

Lemma pending_stop L s e rev i :
  StronglySorted key_lt L → 
  ∀ kv, L !! i = Some kv → ¬ key_ahead s e rev kv.1 → pending L s e rev (Some i) = [].
Proof.
  intros HL kv Hkv Hk. unfold pending, key_ahead in *. apply filter_none, list.Forall_forall.
  intros y Hy [H1 H2]. apply Hk. destruct rev.
  - apply elem_of_reverse, elem_of_take in Hy as (j & Hj & Hji).
    destruct (decide (j = i)) as [->|]; [by simplify_eq|].
    etrans; [exact H1|]. apply blt_ble, (sorted_lookup L j i); auto with lia.
  - apply list_elem_of_lookup in Hy as (j & Hj). rewrite lookup_drop in Hj.
    destruct j as [|j]; [rewrite Nat.add_0_r in Hj; by simplify_eq|].
    unfold below in *. destruct e as [e|]; [|done].
    etrans; [|exact H2]. apply (sorted_lookup L i (i + S j)); auto with lia.
Qed.

Lemma positioned_step L s e rev i :
  positioned L s e rev (Some i) → positioned L s e rev (step_pos L rev i).
Proof.
  unfold positioned, step_pos. destruct rev.
  - destruct i as [|i]; simpl; [done|]. intros H. eapply Forall_take with (n := S i) in H.
    by rewrite take_take, Nat.min_l in H by lia.
  - unfold next_pos. intros H. case_decide; [|done].
    apply Forall_drop with (n := 1) in H. rewrite drop_drop in H. by rewrite Nat.add_1_r in H.
Qed.

Definition domain_of L s e (rev : bool) : list entry :=
  let l := filter (λ kv, in_domain s e kv.1) L in if rev then reverse l else l.

Lemma domain_of_scan m s e rev : domain_of (scan m s e false) s e rev = scan m s e rev.
Proof.
  unfold domain_of. rewrite filter_all; [by destruct rev|].
  apply list.Forall_forall. intros [k v] [_ ?]%elem_of_scan. done.
Qed.

Lemma seek_Some L k i :
  seek_pos L k = Some i →
  ∃ kv, L !! i = Some kv ∧ ble k kv.1 ∧ ∀ j y, L !! j = Some y → j < i → blt y.1 k.
Proof.
  unfold seek_pos. intros ([i1 kv] & H & ->)%fmap_Some.
  apply list_find_Some in H as (Hi & Hk & Hlt). exists kv. split_and!; [done|done|].
  intros j y Hj Hji. apply not_ble. by eapply Hlt.
Qed.

Lemma seek_None L k : seek_pos L k = None → Forall (λ kv, blt kv.1 k) L.
Proof.
  unfold seek_pos. rewrite fmap_None. intros H%list_find_None.
  eapply Forall_impl; [exact H|]. intros y Hy. by apply not_ble.
Qed.

(** [Seek] of a key that is there stops at it. *)
Lemma seek_at L k v j : StronglySorted key_lt L → L !! j = Some (k, v) → seek_pos L k = Some j.
Proof.
  intros HL Hj. destruct (seek_pos L k) as [i|] eqn:Hs.
  - apply seek_Some in Hs as (kv & Hi & Hk & Hlt). f_equal.
    destruct (Nat.lt_trichotomy i j) as [Hij|[->|Hij]]; [|done|].
    + apply not_blt in Hk. destruct Hk. by apply (StronglySorted_lookup _ _ _ _ _ _ HL Hi Hj).
    + by destruct (blt_ne _ _ (Hlt j (k, v) Hj Hij)).
  - apply seek_None in Hs. eapply Forall_lookup_1 in Hs; [|exact Hj]. by apply blt_ne in Hs.
Qed.

Lemma pending_last L s e :
  Forall (λ kv, below kv.1 e) L →
  positioned L s e true (last_pos L) ∧ pending L s e true (last_pos L) = domain_of L s e true.
Proof.
  intros Hb. unfold pending, positioned, domain_of, last_pos.
  destruct L as [|x L]; [done|]. rewrite take_ge by (simpl; lia).
  by rewrite filter_reverse.
Qed.

Lemma start_reverse L s e :
  StronglySorted key_lt L →
  positioned L s e true (start_pos L s e true) ∧
  pending L s e true (start_pos L s e true) = domain_of L s e true.
Proof.
  intros HL. unfold start_pos. destruct e as [e|]; [|by apply pending_last, list.Forall_forall].
  destruct (seek_pos L e) as [i|] eqn:Hs; [|by apply pending_last, seek_None].
  apply seek_Some in Hs as (kv & Hi & Hk & Hlt).
  assert (Hbelow : Forall (λ y, below y.1 (Some e)) (take i L)).
  { apply list.Forall_forall. intros y (j & Hj & Hji)%elem_of_take. simpl. by eapply Hlt. }
  assert (Habove : filter (λ y, in_domain s (Some e) y.1) (drop i L) = []).
  { apply filter_none, list.Forall_forall. intros y (j & Hj)%list_elem_of_lookup [_ Hy].
    rewrite lookup_drop in Hj. simpl in Hy. apply not_ble in Hy as []. etrans; [exact Hk|].
    destruct j as [|j]; [rewrite Nat.add_0_r in Hj; by simplify_eq|].
    apply blt_ble, (sorted_lookup L i (i + S j)); auto with lia. }
  assert (Hdom : domain_of L s (Some e) true =
    filter (λ y, in_domain s (Some e) y.1) (reverse (take i L))).
  { unfold domain_of. rewrite <-(take_drop i L) at 1.
    by rewrite filter_app, Habove, app_nil_r, filter_reverse. }
  rewrite Hdom. unfold pending, positioned. by destruct i.
Qed.

Lemma start_forward L s e :
  StronglySorted key_lt L →
  positioned L s e false (start_pos L s e false) ∧
  pending L s e false (start_pos L s e false) = domain_of L s e false.
Proof.
  intros HL. unfold start_pos, domain_of, pending, positioned. destruct s as [s|].
  - destruct (seek_pos L s) as [i|] eqn:Hs.
    + apply seek_Some in Hs as (kv & Hi & Hk & Hlt). split.
      * apply list.Forall_forall. intros y (j & Hj)%list_elem_of_lookup. rewrite lookup_drop in Hj.
        etrans; [exact Hk|]. destruct j as [|j]; [rewrite Nat.add_0_r in Hj; by simplify_eq|].
        apply blt_ble, (sorted_lookup L i (i + S j)); auto with lia.
      * rewrite <-(take_drop i L) at 2. rewrite filter_app, (filter_none _ (take i L)); [done|].
        apply list.Forall_forall. intros y (j & Hj & Hji)%elem_of_take [Hy _].
        by apply not_blt in Hy as []; eauto.
    + apply seek_None in Hs. split; [done|]. rewrite filter_none; [done|].
      eapply Forall_impl; [exact Hs|]. intros y Hy [Hy' _]. by apply not_blt in Hy' as [].
  - destruct L as [|x L]; [done|]. simpl. split; [|done].
    apply list.Forall_forall. intros. apply ble_nil.
Qed.

Lemma start_pos_spec L s e rev :
  StronglySorted key_lt L →
  positioned L s e rev (start_pos L s e rev) ∧
  pending L s e rev (start_pos L s e rev) = domain_of L s e rev.
Proof. destruct rev; [apply start_reverse|apply start_forward]. Qed.

End positions.

(** ** A cursor between bounds

    [src_rep c s e rev l]: a wrapper that moves [c] in the direction [rev]
    between [s] and [e] has still to deliver [l]. *)

Section source.
Context {C : Type} `{!CursorOps C, !CursorLaws C}.

Definition src_rep (c : C) (s e : slice) (rev : bool) (l : list entry) : Prop :=
  ∃ L p, StronglySorted key_lt L ∧ cur_at c L p ∧ positioned L s e rev p ∧
    l = pending L s e rev p.

Definition move (rev : bool) (c : C) : C := if rev then cur_Prev c else cur_Next c.

(** The tests of [Valid] of the wrappers. *)
Definition usable (dead : bool) (c : C) (s e : slice) (rev : bool) : bool :=
  negb dead && cur_Valid c &&
  negb (if rev then negb (is_nil s) && (bytes_Compare (cur_Key c) s <? 0)%Z
        else negb (is_nil e) && (bytes_Compare e (cur_Key c) <=? 0)%Z).

Lemma src_Err c s e rev l : src_rep c s e rev l → cur_Err c = None.
Proof. intros (L & p & _ & Hc & _). by eapply claw_Err, claw_over. Qed.

(** The tests of the wrappers decide whether an entry is left. *)
Lemma src_invalid c s e rev l : src_rep c s e rev l → cur_Valid c = false → l = [].
Proof.
  intros (L & p & _ & Hc & _ & ->). rewrite (claw_Valid _ _ _ Hc), bool_decide_eq_false.
  destruct p; [|done]. intros []. eauto.
Qed.

Lemma src_valid c s e rev l :
  src_rep c s e rev l → cur_Valid c = true →
  ∃ k, cur_Key c = Some k ∧ (key_ahead s e rev k ↔ l ≠ []).
Proof.
  intros (L & p & HL & Hc & Hp & ->). rewrite (claw_Valid _ _ _ Hc), bool_decide_eq_true.
  intros [i ->]. destruct (lookup_lt_is_Some_2 L i) as [kv Hkv]; [by eapply claw_bound|].
  exists kv.1. split; [by eapply claw_Key|]. split.
  - intros Hk. by rewrite (pending_step L s e rev i HL Hp kv Hkv Hk).
  - intros Hne. destruct (decide (key_ahead s e rev kv.1)) as [Hk|Hk];
      [done|]. destruct Hne. by apply (pending_stop _ _ _ _ _ HL kv Hkv).
Qed.

Lemma src_cons c s e rev kv l :
  src_rep c s e rev (kv :: l) →
  cur_Key c = Some kv.1 ∧ cur_Value c = Some kv.2 ∧ src_rep (move rev c) s e rev l.
Proof.
  intros (L & p & HL & Hc & Hp & Hl). destruct p as [i|]; [|done].
  destruct (lookup_lt_is_Some_2 L i) as [x Hx]; [by eapply claw_bound|].
  destruct (decide (key_ahead s e rev x.1)) as [Hk|Hk].
  - rewrite (pending_step L s e rev i HL Hp x Hx Hk) in Hl. simplify_eq.
    split_and!; [by eapply claw_Key|by eapply claw_Value|].
    exists L, (step_pos L rev i). split_and!; [done| |by apply positioned_step|done].
    unfold move, step_pos. destruct rev; [by apply claw_Prev|by apply claw_Next].
  - by rewrite (pending_stop L s e rev i HL x Hx Hk) in Hl.
Qed.

(** Where the constructors of the wrappers put the cursor. *)
Definition seek_start (s e : slice) (rev : bool) (c : C) : C :=
  if rev then
    match e with
    | None => cur_Last c
    | Some _ =>
        let c := cur_Seek e c in
        if cur_Valid c then
          if (bytes_Compare e (cur_Key c) <=? 0)%Z then cur_Prev c else c
        else cur_Last c
    end
  else match s with None => cur_First c | Some _ => cur_Seek s c end.

Lemma seek_start_spec c L s e rev :
  StronglySorted key_lt L → cur_over c L →
  src_rep (seek_start s e rev c) s e rev (domain_of L s e rev).
Proof.
  intros HL Hc. destruct (start_pos_spec L s e rev HL) as [Hp <-].
  exists L, (start_pos L s e rev). split_and!; [done| |done|done].
  unfold seek_start, start_pos. destruct rev.
  - destruct e as [e|]; [|by apply claw_Last].
    pose proof (claw_Seek c L (Some e) Hc) as Hat. simpl in Hat.
    rewrite (claw_Valid _ _ _ Hat). destruct (seek_pos L e) as [i|] eqn:Hs.
    + rewrite bool_decide_eq_true_2 by eauto.
      apply seek_Some in Hs as (kv & Hi & Hk & _).
      rewrite (claw_Key _ _ _ _ Hat Hi).
      assert ((bytes_Compare (Some e) (Some kv.1) <=? 0)%Z = true) as -> by by apply Z.leb_le, bytes_Compare_le.
      by apply claw_Prev.
    + rewrite bool_decide_eq_false_2 by by intros [].
      eapply claw_Last, claw_over, Hat.
  - destruct s as [s|]; [by apply claw_Seek|by apply claw_First].
Qed.

End source.

(** ** Wrappers

    A backend's iterator holds a cursor, the bounds, the direction and the flag
    [isInvalid] ("once invalid, forever invalid").  [CursorWrapper] says how its
    methods use them; every such iterator meets the contract of an iterator. *)

Class CursorWrapper (C I : Type) `{!CursorOps C, !IteratorOps I} := {
  cw_src : I → C;
  cw_start : I → slice;
  cw_end : I → slice;
  cw_rev : I → bool;
  cw_dead : I → bool;
  cw_ok : I → Prop;                  (* the other fields are as the constructor sets them *)
  cw_copyK : slice → slice;          (* how [Key] and [Value] copy what the cursor returns *)
  cw_copyV : slice → slice;
  cw_copyK_Some k : cw_copyK (Some k) = Some k;
  cw_copyV_Some v : cw_copyV (Some v) = Some v;
  cw_usable (it : I) : bool :=
    usable (cw_dead it) (cw_src it) (cw_start it) (cw_end it) (cw_rev it);
  (** [it'] is [it] with the cursor moved by [f]; the flag may be set when [it] is not usable *)
  cw_to (f : C → C) (it it' : I) : Prop :=
    cw_src it' = f (cw_src it) ∧ cw_start it' = cw_start it ∧ cw_end it' = cw_end it ∧
    cw_rev it' = cw_rev it ∧ (cw_ok it → cw_ok it') ∧
    (cw_dead it' = cw_dead it ∨ (cw_dead it' = true ∧ cw_usable it = false));
  cw_Domain it : it_Domain it = (cw_start it, cw_end it);
  cw_Error it : it_Error it = cur_Err (cw_src it);
  cw_Valid it : cur_Err (cw_src it) = None →
    reply it_Valid it (Ok (cw_usable it)) (cw_to id it);
  cw_Next it : cur_Err (cw_src it) = None →
    if cw_usable it then reply it_Next it (Ok tt) (cw_to (move (cw_rev it)) it)
    else reply it_Next it (Panic invalid_msg) (cw_to id it);
  cw_Key it : cur_Err (cw_src it) = None →
    if cw_usable it then reply it_Key it (Ok (cw_copyK (cur_Key (cw_src it)))) (cw_to id it)
    else reply it_Key it (Panic invalid_msg) (cw_to id it);
  cw_Value it : cur_Err (cw_src it) = None →
    if cw_usable it then reply it_Value it (Ok (cw_copyV (cur_Value (cw_src it)))) (cw_to id it)
    else reply it_Value it (Panic invalid_msg) (cw_to id it);
  cw_Close it : cw_ok it → reply it_Close it (Ok tt) (λ _, True);
}.

(** A method that starts with [assertIsValid]. *)
Lemma guarded {I A} (g : M I unit) (f : M I A) it it1 (b : bool) r (Q Q' : I → Prop) :
  g it = (if b then Ok tt else Panic invalid_msg, it1) →
  (b = true → reply f it1 r Q) → (b = false → Q' it1) →
  if b then reply (_ ← g; f) it r Q else reply (_ ← g; f) it (Panic invalid_msg) Q'.
Proof.
  intros H H1 H2. destruct b.
  - eapply (reply_bind _ _ _ _ _ (eq it1)); [by exists it1|]. intros ? <-. by apply H1.
  - apply reply_bind_Panic. exists it1. auto.
Qed.

Section wrapper.
Context {C I : Type} `{!CursorOps C, !CursorLaws C, !IteratorOps I, !CursorWrapper C I}.
Implicit Types (it : I).

Definition wrap_rep it (s e : slice) (l : list entry) : Prop :=
  cw_start it = s ∧ cw_end it = e ∧ cw_ok it ∧
  if cw_dead it then l = [] ∧ cur_Err (cw_src it) = None else src_rep (cw_src it) s e (cw_rev it) l.

Lemma wrap_Err it s e l : wrap_rep it s e l → cur_Err (cw_src it) = None.
Proof. intros (_ & _ & _ & H). destruct (cw_dead it); [by destruct H|by eapply src_Err]. Qed.

(** The tests of [Valid] decide whether an entry is left. *)
Lemma wrap_usable it s e l : wrap_rep it s e l → cw_usable it = bool_decide (l ≠ []).
Proof.
  intros (<- & <- & _ & H). unfold cw_usable, usable. destruct (cw_dead it); [by destruct H as [-> _]|]. simpl.
  destruct (cur_Valid (cw_src it)) eqn:Hv; simpl.
  - destruct (src_valid _ _ _ _ _ H Hv) as (k & Hk & Ha).
    rewrite Hk, key_ahead_test, negb_involutive. by apply bool_decide_ext.
  - apply src_invalid in H as ->; [|done]. by rewrite bool_decide_eq_false_2 by auto.
Qed.

Lemma wrap_keep it it' s e l : wrap_rep it s e l → cw_to id it it' → wrap_rep it' s e l.
Proof.
  intros H (Hc & Hs & He & Hr & Ho & Hd). pose proof (wrap_usable _ _ _ _ H) as Hu.
  pose proof (wrap_Err _ _ _ _ H) as Herr. destruct H as (H1 & H2 & H3 & H4). unfold wrap_rep.
  rewrite Hs, He, Hc. split_and!; [done|done|auto|]. simpl.
  destruct Hd as [-> | [-> Hd]]; [by rewrite Hr|]. split; [|done].
  rewrite Hu in Hd. apply bool_decide_eq_false in Hd. by apply dec_stable.
Qed.

Lemma wrap_cons it s e kv l :
  wrap_rep it s e (kv :: l) →
  cur_Key (cw_src it) = Some kv.1 ∧ cur_Value (cw_src it) = Some kv.2 ∧
  ∀ it', cw_to (move (cw_rev it)) it it' → wrap_rep it' s e l.
Proof.
  intros H. pose proof (wrap_usable _ _ _ _ H) as Hu. rewrite bool_decide_eq_true_2 in Hu by done.
  destruct H as (H1 & H2 & H3 & H4). destruct (cw_dead it) eqn:Hdead; [by destruct H4|].
  destruct (src_cons _ _ _ _ _ _ H4) as (Hk & Hv & Hnext). split_and!; [done|done|].
  intros it' (Hc & Hs & He & Hr & Ho & Hd). destruct Hd as [Hd|[_ Hd]]; [|congruence].
  unfold wrap_rep. rewrite Hs, He, Hc, Hr, Hd, Hdead. auto.
Qed.

#[global] Instance wrapper_contract : IteratorContract I.
Proof.
  refine {| it_rep := wrap_rep |}.
  - intros it s e l H. rewrite <-(wrap_usable _ _ _ _ H).
    eapply reply_mono; [by apply cw_Valid; eapply wrap_Err|]. intros. by eapply wrap_keep.
  - intros it s e x l H. pose proof (cw_Next it (wrap_Err _ _ _ _ H)) as Hn.
    rewrite (wrap_usable _ _ _ _ H), bool_decide_eq_true_2 in Hn by done.
    eapply reply_mono; [exact Hn|]. by apply wrap_cons in H as (_ & _ & H).
  - intros it s e H. pose proof (cw_Next it (wrap_Err _ _ _ _ H)) as Hn.
    rewrite (wrap_usable _ _ _ _ H) in Hn.
    eapply reply_mono; [exact Hn|]. intros. by eapply wrap_keep.
  - intros it s e k v l H. pose proof (cw_Key it (wrap_Err _ _ _ _ H)) as Hn.
    rewrite (wrap_usable _ _ _ _ H), bool_decide_eq_true_2 in Hn by done.
    pose proof (wrap_cons _ _ _ _ _ H) as (Hk & _ & _). rewrite Hk, cw_copyK_Some in Hn.
    eapply reply_mono; [exact Hn|]. intros. by eapply wrap_keep.
  - intros it s e H. pose proof (cw_Key it (wrap_Err _ _ _ _ H)) as Hn.
    rewrite (wrap_usable _ _ _ _ H) in Hn.
    eapply reply_mono; [exact Hn|]. intros. by eapply wrap_keep.
  - intros it s e k v l H. pose proof (cw_Value it (wrap_Err _ _ _ _ H)) as Hn.
    rewrite (wrap_usable _ _ _ _ H), bool_decide_eq_true_2 in Hn by done.
    pose proof (wrap_cons _ _ _ _ _ H) as (_ & Hv & _). rewrite Hv, cw_copyV_Some in Hn.
    eapply reply_mono; [exact Hn|]. intros. by eapply wrap_keep.
  - intros it s e H. pose proof (cw_Value it (wrap_Err _ _ _ _ H)) as Hn.
    rewrite (wrap_usable _ _ _ _ H) in Hn.
    eapply reply_mono; [exact Hn|]. intros. by eapply wrap_keep.
  - intros it s e l H. rewrite cw_Error. by eapply wrap_Err.
  - intros it s e l (_ & _ & H & _). by apply cw_Close.
Defined.

#[global] Instance wrapper_domain : IteratorDomain I.
Proof. intros it s e l (<- & <- & _). apply cw_Domain. Qed.

(** A fresh wrapper over the entries of a store. *)
Lemma wrap_start it c L s e rev :
  StronglySorted key_lt L → cur_over c L →
  cw_src it = seek_start s e rev c → cw_start it = s → cw_end it = e → cw_rev it = rev →
  cw_ok it → cw_dead it = false → wrap_rep it s e (domain_of L s e rev).
Proof.
  intros HL Hc H1 H2 H3 H4 Ho H5. split_and!; [done|done|done|]. rewrite H5, H1, H4.
  by apply seek_start_spec.
Qed.

End wrapper.
