(* ===== verification/KVLib.v ===== *)
(** * The key-value libraries behind goleveldb, cleveldb and rocksdb

    [KVOps] has the methods of github.com/syndtr/goleveldb, of
    github.com/jmhodges/levigo and of github.com/cosmos/gorocksdb that the
    backends call (a write takes its options as the flag [Sync]); [KVLaws] is
    their documented behaviour.  [RefKV] is a concrete library, on which the
    backends can be evaluated and which shows that the laws can hold. *)

From S2P Require Import Prelude Go Util Spec Types Cursor.

Class KVOps (D C W : Type) := {
  lib_Get : slice → M D slice;
  lib_Put : bool → slice → slice → M D unit;
  lib_Delete : bool → slice → M D unit;
  lib_Write : bool → W → M D unit;
  lib_NewIterator : option (slice * slice) → D → C;
  lib_Close : M D unit;
  wb_New : W;
  wb_Put : slice → slice → W → W;
  wb_Delete : slice → W → W;
  wb_Release : W → W;                (* Reset, Destroy, Close *)
}.

(** [absent] is what [Get] returns for a key that is not stored: the libraries
    differ in it. *)
Class KVLaws (D C W : Type) `{!CursorOps C, !CursorLaws C, !KVOps D C W} (absent : result slice) := {
  lib_ok : D → Prop;
  lib_model : D → store;
  wb_rep : W → list write → Prop;
  klaw_Get d key : lib_ok d → data key ≠ [] →
    reply (lib_Get key) d
      (match lib_model d !! data key with Some v => Ok (Some v) | None => absent end)
      (λ d', lib_ok d' ∧ lib_model d' = lib_model d);
  klaw_Put d sync key v : lib_ok d → data key ≠ [] →
    reply (lib_Put sync key (Some v)) d (Ok tt)
      (λ d', lib_ok d' ∧ lib_model d' = <[data key := v]> (lib_model d));
  klaw_Delete d sync key : lib_ok d → data key ≠ [] →
    reply (lib_Delete sync key) d (Ok tt)
      (λ d', lib_ok d' ∧ lib_model d' = delete (data key) (lib_model d));
  klaw_Write d sync w ws : lib_ok d → wb_rep w ws →
    reply (lib_Write sync w) d (Ok tt)
      (λ d', lib_ok d' ∧ lib_model d' = apply_writes ws (lib_model d));
  klaw_NewIterator d r : lib_ok d →
    cur_over (lib_NewIterator r d)
      (match r with None => entries (lib_model d) | Some (s, e) => scan (lib_model d) s e false end);
  klaw_Close d : lib_ok d → reply lib_Close d (Ok tt) (λ _, True);
  klaw_wb_New : wb_rep wb_New [];
  klaw_wb_Put w ws key v : wb_rep w ws →
    wb_rep (wb_Put key (Some v) w) (ws ++ [WSet (data key) v]);
  klaw_wb_Delete w ws key : wb_rep w ws → wb_rep (wb_Delete key w) (ws ++ [WDelete (data key)]);
}.

(** ** A concrete library *)

Module RefKV.

(** A cursor: the entries and the position. *)
Record cursor := Cursor { c_list : list entry; c_pos : option nat }.

Definition goto (f : list entry → option nat) (c : cursor) : cursor :=
  Cursor (c_list c) (f (c_list c)).
Definition entry_at (c : cursor) : option entry := c_pos c ≫= λ i, c_list c !! i.

#[global] Instance cursor_ops : CursorOps cursor := {|
  cur_First := goto first_pos;
  cur_Last := goto last_pos;
  cur_Seek k := goto (λ L, seek_pos L (data k));
  cur_Next c := match c_pos c with
                | Some i => goto (λ L, next_pos L i) c
                | None => goto first_pos c
                end;
  cur_Prev c := match c_pos c with
                | Some i => goto (λ _, prev_pos i) c
                | None => goto last_pos c
                end;
  cur_Valid c := bool_decide (is_Some (c_pos c));
  cur_Key c := fst <$> entry_at c;
  cur_Value c := snd <$> entry_at c;
  cur_Err _ := None;
  cur_Release c := c;
|}.

Definition in_list (L : list entry) (p : option nat) : Prop :=
  match p with None => True | Some i => i < length L end.

Lemma seek_in_list L k : in_list L (seek_pos L k).
Proof.
  destruct (seek_pos L k) as [i|] eqn:E; [|done].
  apply seek_Some in E as (kv & Hi & _). by apply lookup_lt_Some in Hi.
Qed.

#[global] Instance cursor_laws : CursorLaws cursor.
Proof.
  refine {| cur_over c L := c_list c = L ∧ in_list L (c_pos c);
            cur_at c L p := c_list c = L ∧ c_pos c = p ∧ in_list L p |}.
  - naive_solver.
  - by intros c L i (_ & _ & ?).
  - intros c L [<- _]. split_and!; try done. by destruct (c_list c); simpl; [|lia].
  - intros c L [<- _]. split_and!; try done. by destruct (c_list c); simpl; [|lia].
  - intros c L k [<- _]. split_and!; try done. apply seek_in_list.
  - intros c L i (<- & Hp & Hi). simpl. rewrite Hp. split_and!; try done.
    unfold next_pos. by case_decide.
  - intros c L i (<- & Hp & Hi). simpl. rewrite Hp. split_and!; try done.
    simpl in Hi. destruct i; simpl; [done|lia].
  - by intros c L p (_ & <- & _).
  - intros c L i kv (<- & Hp & _) Hkv. simpl. unfold entry_at. rewrite Hp. simpl. by rewrite Hkv.
  - intros c L i kv (<- & Hp & _) Hkv. simpl. unfold entry_at. rewrite Hp. simpl. by rewrite Hkv.
  - done.
Defined.

Section ref.
Context (absent : result slice).

Instance kv_ops : KVOps store cursor (list write) := {|
  lib_Get key m := (match m !! data key with Some v => Ok (Some v) | None => absent end, m);
  lib_Put _ key value m := (Ok tt, <[data key := data value]> m);
  lib_Delete _ key m := (Ok tt, delete (data key) m);
  lib_Write _ ws m := (Ok tt, apply_writes ws m);
  lib_NewIterator r m :=
    Cursor (match r with None => entries m | Some (s, e) => scan m s e false end) None;
  lib_Close := mret tt;
  wb_New := [];
  wb_Put key value ws := ws ++ [WSet (data key) (data value)];
  wb_Delete key ws := ws ++ [WDelete (data key)];
  wb_Release _ := [];
|}.

Instance kv_laws : KVLaws store cursor (list write) absent.
Proof.
  refine {| lib_ok _ := True; lib_model m := m; wb_rep := eq |}; simpl; intros; subst;
    try done; by eexists.
Defined.

End ref.
End RefKV.
