(* ===== verification/KVBackend.v ===== *)
(** * Backends over a key-value library

    goleveldb, cleveldb and rocksdb wrap their libraries in the same way: they
    check keys and values, call the library, and pass its errors on.
    [KVBackend] says so of a backend, method by method; every such backend over
    a library that behaves as documented meets the contract of a database. *)

From S2P Require Import Prelude Go Util Spec Types Cursor KVLib.

Class KVBackend {S D C W I B : Type} `{!CursorOps C, !KVOps D C W, !IteratorOps I, !BatchOps S B,
    !CursorWrapper C I} (absent : result slice) (ops : DBOps S I B) := {
  kb_db : S → D;
  kb_set : D → S → S;
  kb_db_set d s : kb_db (kb_set d s) = d;
  kb_ok : S → Prop;                  (* the other fields are as the constructor sets them *)
  kb_ok_set d s : kb_ok s → kb_ok (kb_set d s);
  kb_call {A} (m : M D A) : M S A := on_field kb_db kb_set m;
  kb_batch : B → option W;
  kb_close : B → B;
  kb_put : W → B → B;
  kb_batch_close b : kb_batch (kb_close b) = None;
  kb_batch_put w b : kb_batch (kb_put w b) = Some w;
  kb_Get key s : db_Get ops key s =
    if len key =? 0 then (Err errKeyEmpty, s)
    else let '(r, s) := kb_call (lib_Get key) s in
         (if decide (r = absent) then Ok None else r, s);
  kb_Has key s : db_Has ops key s =
    let '(r, s) := db_Get ops key s in (result_map (λ v, negb (is_nil v)) r, s);
  kb_Set (sync : bool) key value s : kb_ok s → (if sync then db_SetSync ops else db_Set ops) key value s =
    if len key =? 0 then (Err errKeyEmpty, s)
    else if is_nil value then (Err errValueNil, s) else kb_call (lib_Put sync key value) s;
  kb_Delete (sync : bool) key s : kb_ok s → (if sync then db_DeleteSync ops else db_Delete ops) key s =
    if len key =? 0 then (Err errKeyEmpty, s) else kb_call (lib_Delete sync key) s;
  kb_range : slice → slice → option (slice * slice);
  kb_range_ok s e : kb_range s e = None ∨ kb_range s e = Some (s, e);
  kb_iterator : C → slice → slice → bool → I;
  kb_Iterator (rev : bool) st en s :
    (if rev then db_ReverseIterator ops else db_Iterator ops) st en s =
    if bad_bounds st en then (Err errKeyEmpty, s)
    else (Ok (kb_iterator (lib_NewIterator (kb_range st en) (kb_db s)) st en rev), s);
  kb_iterator_ok c st en rev : bad_bounds st en = false →
    let it := kb_iterator c st en rev in
    cw_src it = seek_start st en rev c ∧ cw_start it = st ∧ cw_end it = en ∧ cw_rev it = rev ∧
    cw_ok it ∧ cw_dead it = false;
  kb_NewBatch s : ∃ b, db_NewBatch ops s = (Ok b, s) ∧ kb_batch b = Some wb_New;
  kb_batch_Set key value b s : b_Set key value (b, s) =
    if len key =? 0 then (Err errKeyEmpty, (b, s))
    else if is_nil value then (Err errValueNil, (b, s))
    else match kb_batch b with
         | None => (Err errBatchClosed, (b, s))
         | Some w => (Ok tt, (kb_put (wb_Put key value w) b, s))
         end;
  kb_batch_Delete key b s : b_Delete key (b, s) =
    if len key =? 0 then (Err errKeyEmpty, (b, s))
    else match kb_batch b with
         | None => (Err errBatchClosed, (b, s))
         | Some w => (Ok tt, (kb_put (wb_Delete key w) b, s))
         end;
  kb_batch_Write (sync : bool) b s : kb_ok s → (if sync then b_WriteSync else b_Write) (b, s) =
    match kb_batch b with
    | None => (Err errBatchClosed, (b, s))
    | Some w =>
        let '(r, s) := kb_call (lib_Write sync w) s in
        (r, (match r with Ok _ => kb_close b | _ => b end, s))
    end;
  kb_batch_Close b s : ∃ b', b_Close (b, s) = (Ok tt, (b', s)) ∧ kb_batch b' = None;
  kb_Close s : reply lib_Close (kb_db s) (Ok tt) (λ _, True) →
    reply (db_Close ops) s (Ok tt) (λ _, True);
}.

Section backend.
Context {S D C W I B : Type} `{!CursorOps C, !CursorLaws C, !KVOps D C W, !IteratorOps I,
  !BatchOps S B, !CursorWrapper C I}.
Context (absent : result slice) `{!KVLaws D C W absent}.
Context (absent_ok : ∀ v, absent ≠ Ok (Some v)).
Context (ops : DBOps S I B) `{!KVBackend absent ops}.
Implicit Types (s : S) (b : B).

Definition kb_inv s : Prop := kb_ok s ∧ lib_ok (kb_db s).
Definition kb_model s : store := lib_model (kb_db s).
Definition kb_batch_rep b (ws : option (list write)) : Prop :=
  match kb_batch b, ws with
  | None, None => True
  | Some w, Some ws => wb_rep w ws
  | _, _ => False
  end.

Lemma kb_call_reply {A} (m : M D A) s (r : result A) (f : store) :
  kb_inv s → reply m (kb_db s) r (λ d, lib_ok d ∧ lib_model d = f) →
  reply (kb_call m) s r (λ s', kb_inv s' ∧ kb_model s' = f).
Proof.
  intros [Hok _] (d & H & ? & ?). exists (kb_set d s). unfold kb_call, on_field, kb_inv, kb_model.
  rewrite H, kb_db_set. split_and!; auto using kb_ok_set.
Qed.

Lemma kb_Get_spec s key :
  kb_inv s →
  reply (db_Get ops key) s (spec_Get (kb_model s) key) (λ s', kb_inv s' ∧ kb_model s' = kb_model s).
Proof.
  intros Hinv. unfold reply, spec_Get. setoid_rewrite kb_Get.
  destruct (len key =? 0) eqn:Hk; [by exists s|].
  destruct (kb_call_reply _ s _ _ Hinv (klaw_Get (kb_db s) key (proj2 Hinv) (len_ne key Hk)))
    as (s' & -> & Hs').
  exists s'. split; [|done]. f_equal. unfold kb_model.
  destruct (lib_model (kb_db s) !! data key) as [v|]; [|by rewrite decide_True].
  rewrite decide_False; [done|]. intros H. by apply (absent_ok v).
Qed.

Lemma kb_Has_spec s key :
  kb_inv s →
  reply (db_Has ops key) s (spec_Has (kb_model s) key) (λ s', kb_inv s' ∧ kb_model s' = kb_model s).
Proof.
  intros Hinv. unfold reply. setoid_rewrite kb_Has.
  destruct (kb_Get_spec s key Hinv) as (s' & -> & Hs'). exists s'. split; [|done]. f_equal.
  unfold spec_Get, spec_Has. destruct (len key =? 0); [done|]. simpl.
  by destruct (kb_model s !! data key).
Qed.

Lemma kb_Set_spec s (sync : bool) key value :
  kb_inv s →
  reply ((if sync then db_SetSync ops else db_Set ops) key value) s
    (spec_Set (kb_model s) key value).1
    (λ s', kb_inv s' ∧ kb_model s' = (spec_Set (kb_model s) key value).2).
Proof.
  intros Hinv. unfold reply, spec_Set. rewrite kb_Set by apply Hinv.
  destruct (len key =? 0) eqn:Hk; [by exists s|]. destruct value as [v|]; [|by exists s].
  exact (kb_call_reply _ s _ _ Hinv (klaw_Put (kb_db s) sync key v (proj2 Hinv) (len_ne key Hk))).
Qed.

Lemma kb_Delete_spec s (sync : bool) key :
  kb_inv s →
  reply ((if sync then db_DeleteSync ops else db_Delete ops) key) s
    (spec_Delete (kb_model s) key).1
    (λ s', kb_inv s' ∧ kb_model s' = (spec_Delete (kb_model s) key).2).
Proof.
  intros Hinv. unfold reply, spec_Delete. rewrite kb_Delete by apply Hinv.
  destruct (len key =? 0) eqn:Hk; [by exists s|].
  exact (kb_call_reply _ s _ _ Hinv (klaw_Delete (kb_db s) sync key (proj2 Hinv) (len_ne key Hk))).
Qed.

Lemma kb_Iterator_spec s (rev : bool) st en :
  kb_inv s → bad_bounds st en = false →
  ∃ it, reply ((if rev then db_ReverseIterator ops else db_Iterator ops) st en) s (Ok it)
      (λ s', kb_inv s' ∧ kb_model s' = kb_model s) ∧
    it_rep it st en (scan (kb_model s) st en rev).
Proof.
  intros Hinv Hb. eexists. split.
  - exists s. rewrite kb_Iterator, Hb. done.
  - assert (∃ L, StronglySorted key_lt L ∧
      cur_over (lib_NewIterator (kb_range st en) (kb_db s)) L ∧
      domain_of L st en rev = scan (kb_model s) st en rev) as (L & HL & Hc & <-).
    { destruct (kb_range_ok st en) as [-> | ->]; eexists;
        (split_and!; [|apply klaw_NewIterator, Hinv|]).
      - apply entries_sorted.
      - done.
      - apply scan_sorted.
      - apply domain_of_scan. }
    destruct (kb_iterator_ok (lib_NewIterator (kb_range st en) (kb_db s)) st en rev Hb)
      as (? & ? & ? & ? & ? & ?).
    by eapply wrap_start.
Qed.

Lemma kb_Iterator_bad s (rev : bool) st en :
  kb_inv s → bad_bounds st en = true →
  reply ((if rev then db_ReverseIterator ops else db_Iterator ops) st en) s (Err errKeyEmpty)
    (λ s', kb_inv s' ∧ kb_model s' = kb_model s).
Proof. intros Hinv Hb. exists s. by rewrite kb_Iterator, Hb. Qed.

Lemma kb_batch_Set_spec b ws s key value :
  kb_batch_rep b ws →
  reply (b_Set key value) (b, s) (spec_batch_Set ws key value).1
    (λ bs, kb_batch_rep bs.1 (spec_batch_Set ws key value).2 ∧ bs.2 = s).
Proof.
  unfold kb_batch_rep, reply. setoid_rewrite kb_batch_Set. unfold spec_batch_Set. intros Hb.
  destruct (len key =? 0); [by eexists|]. destruct value as [v|]; [|by eexists]. simpl.
  destruct (kb_batch b) as [w|] eqn:E, ws as [ws|]; try done; eexists; (split; [done|]); simpl.
  - rewrite kb_batch_put. split; [by apply klaw_wb_Put|done].
  - by rewrite E.
Qed.

Lemma kb_batch_Delete_spec b ws s key :
  kb_batch_rep b ws →
  reply (b_Delete key) (b, s) (spec_batch_Delete ws key).1
    (λ bs, kb_batch_rep bs.1 (spec_batch_Delete ws key).2 ∧ bs.2 = s).
Proof.
  unfold kb_batch_rep, reply. setoid_rewrite kb_batch_Delete. unfold spec_batch_Delete. intros Hb.
  destruct (len key =? 0); [by eexists|].
  destruct (kb_batch b) as [w|] eqn:E, ws as [ws|]; try done; eexists; (split; [done|]); simpl.
  - rewrite kb_batch_put. split; [by apply klaw_wb_Delete|done].
  - by rewrite E.
Qed.

Lemma kb_batch_Write_spec (sync : bool) b ws s :
  kb_batch_rep b ws → kb_inv s →
  reply (if sync then b_WriteSync else b_Write) (b, s) (spec_batch_Write ws (kb_model s)).1
    (λ bs, kb_batch_rep bs.1 None ∧ kb_inv bs.2 ∧
           kb_model bs.2 = (spec_batch_Write ws (kb_model s)).2).
Proof.
  unfold kb_batch_rep, reply. intros Hb Hinv. rewrite kb_batch_Write by apply Hinv.
  destruct (kb_batch b) as [w|] eqn:E, ws as [ws|]; try done; simpl.
  - destruct (kb_call_reply _ s _ _ Hinv (klaw_Write (kb_db s) sync w ws (proj2 Hinv) Hb))
      as (s' & -> & ? & ?).
    eexists. split; [done|]. simpl. by rewrite kb_batch_close.
  - eexists. split; [done|]. simpl. by rewrite E.
Qed.

Definition kv_backend_contract : DBContract ops.
Proof.
  refine {| db_inv := kb_inv; db_model := kb_model; db_fits := no_limits;
            batch_rep := kb_batch_rep |}.
  - intros s key H _. by apply kb_Get_spec.
  - intros s key H _. by apply kb_Has_spec.
  - intros s key value H _. exact (kb_Set_spec s false key value H).
  - intros s key value H _. exact (kb_Set_spec s true key value H).
  - intros s key H _. exact (kb_Delete_spec s false key H).
  - intros s key H _. exact (kb_Delete_spec s true key H).
  - intros s. exact (kb_Iterator_spec s false).
  - intros s. exact (kb_Iterator_spec s true).
  - intros s. exact (kb_Iterator_bad s false).
  - intros s. exact (kb_Iterator_bad s true).
  - intros s Hinv. destruct (kb_NewBatch s) as (b & H & Hb). exists b. split; [by exists s|].
    unfold kb_batch_rep. rewrite Hb. apply klaw_wb_New.
  - intros b ws s key value Hb Hinv _ _. eapply reply_mono; [by apply kb_batch_Set_spec|].
    intros [??] [? Hs]. simpl in *. by subst.
  - intros b ws s key Hb Hinv _ _. eapply reply_mono; [by apply kb_batch_Delete_spec|].
    intros [??] [? Hs]. simpl in *. by subst.
  - intros b ws s Hb Hinv. exact (kb_batch_Write_spec false b (Some ws) s Hb Hinv).
  - intros b ws s Hb Hinv. exact (kb_batch_Write_spec true b (Some ws) s Hb Hinv).
  - intros b s m Hb Hinv [key value|key| |].
    + destruct (kb_batch_Set_spec b None s key value Hb) as ([b' s'] & Hr & Hb' & Hs).
      destruct (spec_batch_Set_closed key value) as [e E]. rewrite E in *. simpl in *. subst s'.
      exists e. by exists (b', s).
    + destruct (kb_batch_Delete_spec b None s key Hb) as ([b' s'] & Hr & Hb' & Hs).
      destruct (spec_batch_Delete_closed key) as [e E]. rewrite E in *. simpl in *. subst s'.
      exists e. by exists (b', s).
    + exists errBatchClosed. exact (kb_batch_Write_spec false b None s Hb Hinv).
    + exists errBatchClosed. exact (kb_batch_Write_spec true b None s Hb Hinv).
  - intros b ws s Hb Hinv. destruct (kb_batch_Close b s) as (b' & H & Hb').
    exists (b', s). split; [done|]. unfold kb_batch_rep. simpl. by rewrite Hb'.
  - intros s Hinv. by apply kb_Close, klaw_Close, Hinv.
Defined.

End backend.
