(* ===== verification/GoLevelDB.v ===== *)
(** * goleveldb.go, goleveldb_batch.go, goleveldb_iterator.go

    The backend over github.com/syndtr/goleveldb, for every library that has
    the methods of [KVOps]. *)

From S2P Require Import Prelude Go Util Spec Types Cursor KVLib Path.

(** [errors.ErrNotFound] *)
Definition ErrNotFound : error := errLib "leveldb" "leveldb: not found".

Section goleveldb.
Context {D C W : Type} `{!CursorOps C, !KVOps D C W}.
(** The methods [GetProperty] and [CompactRange], and [leveldb.OpenFile] with its
    options; [nil] options are [None]. *)
Context {Options : Type} (OpenFile : string → option Options → result D).
Context (GetProperty : string → M D string) (CompactRange : slice → slice → M D unit).

(** [type GoLevelDB struct] *)
Record GoLevelDB := { gl_db : D }.

(** A call on the field [db.db]. *)
Definition on_gl {A} : M D A → M GoLevelDB A := on_field gl_db (λ d _, {| gl_db := d |}).

Definition NewGoLevelDBWithOpts (name dir : string) (o : option Options) : result GoLevelDB :=
  let dbPath := filepath_Join [dir; (name +:+ ".db")%string] in
  result_map Build_GoLevelDB (OpenFile dbPath o).

Definition NewGoLevelDB (name dir : string) : result GoLevelDB :=
  NewGoLevelDBWithOpts name dir None.

(** ** Database methods *)

Definition GoLevelDB_Get (key : slice) : M GoLevelDB slice :=
  if len key =? 0 then throw errKeyEmpty
  else
    res ← attempt (on_gl (lib_Get key));
    match res with
    | inr err => if decide (err = ErrNotFound) then mret None else throw err
    | inl res => mret res
    end.

Definition GoLevelDB_Has (key : slice) : M GoLevelDB bool :=
  bytes ← GoLevelDB_Get key; mret (negb (is_nil bytes)).

Definition GoLevelDB_Set (key value : slice) : M GoLevelDB unit :=
  if len key =? 0 then throw errKeyEmpty
  else if is_nil value then throw errValueNil
  else on_gl (lib_Put false key value).

Definition GoLevelDB_SetSync (key value : slice) : M GoLevelDB unit :=
  if len key =? 0 then throw errKeyEmpty
  else if is_nil value then throw errValueNil
  else on_gl (lib_Put true key value).

Definition GoLevelDB_Delete (key : slice) : M GoLevelDB unit :=
  if len key =? 0 then throw errKeyEmpty else on_gl (lib_Delete false key).

Definition GoLevelDB_DeleteSync (key : slice) : M GoLevelDB unit :=
  if len key =? 0 then throw errKeyEmpty else on_gl (lib_Delete true key).

Definition GoLevelDB_DB (db : GoLevelDB) : D := gl_db db.

Definition GoLevelDB_Close : M GoLevelDB unit := on_gl lib_Close.

(** [for itr.Next() { ... }]; [Next] returns whether the cursor is valid. *)
Fixpoint gl_print_loop (fuel : nat) (itr : C) (out : list string) : result (list string) :=
  match fuel with
  | O => Diverge
  | S fuel =>
      let itr := cur_Next itr in
      if cur_Valid itr
      then gl_print_loop fuel itr (out ++ [print_line (cur_Key itr) (cur_Value itr)])
      else Ok out
  end.

Definition GoLevelDB_Print (fuel : nat) : M GoLevelDB (list string) :=
  str ← on_gl (GetProperty "leveldb.stats");
  db ← get;
  lift_result (gl_print_loop fuel (lib_NewIterator None (gl_db db)) [(str +:+ newline)%string]).

Definition gl_stat_keys : list string :=
  ["leveldb.num-files-at-level{n}"; "leveldb.stats"; "leveldb.sstables"; "leveldb.blockpool";
   "leveldb.cachedblock"; "leveldb.openedtables"; "leveldb.alivesnaps"; "leveldb.aliveiters"].

Fixpoint gl_stats_loop (keys : list string) (stats : gmap string string) :
    M GoLevelDB (gmap string string) :=
  match keys with
  | [] => mret stats
  | key :: keys =>
      str ← attempt (on_gl (GetProperty key));
      gl_stats_loop keys (match str with inl str => <[key := str]> stats | inr _ => stats end)
  end.

Definition GoLevelDB_Stats : M GoLevelDB (gmap string string) := gl_stats_loop gl_stat_keys ∅.

Definition GoLevelDB_ForceCompact (start limit : slice) : M GoLevelDB unit :=
  on_gl (CompactRange start limit).

(** ** Batches *)

(** [type goLevelDBBatch struct]; [None] is the nil [batch] of a closed batch. *)
Record goLevelDBBatch := { glb_batch : option W }.

Definition newGoLevelDBBatch : goLevelDBBatch := {| glb_batch := Some wb_New |}.

Definition goLevelDBBatch_Set (key value : slice) : M goLevelDBBatch unit :=
  if len key =? 0 then throw errKeyEmpty
  else if is_nil value then throw errValueNil
  else
    b ← get;
    match glb_batch b with
    | None => throw errBatchClosed
    | Some w => put {| glb_batch := Some (wb_Put key value w) |}
    end.

Definition goLevelDBBatch_Delete (key : slice) : M goLevelDBBatch unit :=
  if len key =? 0 then throw errKeyEmpty
  else
    b ← get;
    match glb_batch b with
    | None => throw errBatchClosed
    | Some w => put {| glb_batch := Some (wb_Delete key w) |}
    end.

Definition goLevelDBBatch_Close : M goLevelDBBatch unit :=
  b ← get;
  match glb_batch b with
  | Some _ => put {| glb_batch := None |}             (* b.batch.Reset(); b.batch = nil *)
  | None => mret tt
  end.

Definition goLevelDBBatch_write (sync : bool) : M (goLevelDBBatch * GoLevelDB) unit :=
  bs ← get;
  match glb_batch bs.1 with
  | None => throw errBatchClosed
  | Some w => _ ← on_snd (on_gl (lib_Write sync w)); on_fst goLevelDBBatch_Close
  end.

Definition goLevelDBBatch_Write : M (goLevelDBBatch * GoLevelDB) unit := goLevelDBBatch_write false.
Definition goLevelDBBatch_WriteSync : M (goLevelDBBatch * GoLevelDB) unit :=
  goLevelDBBatch_write true.

Definition GoLevelDB_NewBatch : M GoLevelDB goLevelDBBatch := mret newGoLevelDBBatch.

#[global] Instance goLevelDBBatch_ops : BatchOps GoLevelDB goLevelDBBatch := {|
  b_Set key value := on_fst (goLevelDBBatch_Set key value);
  b_Delete key := on_fst (goLevelDBBatch_Delete key);
  b_Write := goLevelDBBatch_Write;
  b_WriteSync := goLevelDBBatch_WriteSync;
  b_Close := on_fst goLevelDBBatch_Close;
|}.

(** ** Iterators *)

(** [type goLevelDBIterator struct] *)
Record goLevelDBIterator := {
  gli_source : C;
  gli_start : slice;
  gli_end : slice;
  gli_isReverse : bool;
  gli_isInvalid : bool;
}.

Definition newGoLevelDBIterator (source : C) (start end_ : slice) (isReverse : bool) :
    goLevelDBIterator :=
  let source :=
    if isReverse then
      if is_nil end_ then cur_Last source
      else
        let source := cur_Seek end_ source in
        if cur_Valid source then                       (* valid := source.Seek(end) *)
          let eoakey := cur_Key source in
          if (bytes_Compare end_ eoakey <=? 0)%Z then cur_Prev source else source
        else cur_Last source
    else if is_nil start then cur_First source
    else cur_Seek start source in
  {| gli_source := source; gli_start := start; gli_end := end_;
     gli_isReverse := isReverse; gli_isInvalid := false |}.

Definition goLevelDBIterator_Domain (itr : goLevelDBIterator) : slice * slice :=
  (gli_start itr, gli_end itr).

Definition goLevelDBIterator_Error (itr : goLevelDBIterator) : option error :=
  cur_Err (gli_source itr).

Definition gli_invalidate (itr : goLevelDBIterator) : goLevelDBIterator :=
  {| gli_source := gli_source itr; gli_start := gli_start itr; gli_end := gli_end itr;
     gli_isReverse := gli_isReverse itr; gli_isInvalid := true |}.

Definition gli_move (f : C → C) (itr : goLevelDBIterator) : goLevelDBIterator :=
  {| gli_source := f (gli_source itr); gli_start := gli_start itr; gli_end := gli_end itr;
     gli_isReverse := gli_isReverse itr; gli_isInvalid := gli_isInvalid itr |}.

Definition goLevelDBIterator_Valid : M goLevelDBIterator bool :=
  itr ← get;
  if gli_isInvalid itr then mret false
  else match goLevelDBIterator_Error itr with
  | Some _ => _ ← modify gli_invalidate; mret false
  | None =>
      if negb (cur_Valid (gli_source itr)) then _ ← modify gli_invalidate; mret false
      else
        let start := gli_start itr in
        let end_ := gli_end itr in
        let key := cur_Key (gli_source itr) in
        if gli_isReverse itr then
          if negb (is_nil start) && (bytes_Compare key start <? 0)%Z
          then _ ← modify gli_invalidate; mret false
          else mret true
        else
          if negb (is_nil end_) && (bytes_Compare end_ key <=? 0)%Z
          then _ ← modify gli_invalidate; mret false
          else mret true
  end.

(** A value receiver: [Valid] acts on a copy. *)
Definition goLevelDBIterator_assertIsValid : M goLevelDBIterator unit := λ itr,
  (((v ← goLevelDBIterator_Valid;
     if (v : bool) then mret tt else panic "iterator is invalid") itr).1, itr).

Definition goLevelDBIterator_Key : M goLevelDBIterator slice :=
  _ ← goLevelDBIterator_assertIsValid;
  itr ← get; mret (cp (cur_Key (gli_source itr))).

Definition goLevelDBIterator_Value : M goLevelDBIterator slice :=
  _ ← goLevelDBIterator_assertIsValid;
  itr ← get; mret (cp (cur_Value (gli_source itr))).

Definition goLevelDBIterator_Next : M goLevelDBIterator unit :=
  _ ← goLevelDBIterator_assertIsValid;
  itr ← get;
  if gli_isReverse itr then modify (gli_move cur_Prev) else modify (gli_move cur_Next).

Definition goLevelDBIterator_Close : M goLevelDBIterator unit := modify (gli_move cur_Release).

#[global] Instance goLevelDBIterator_ops : IteratorOps goLevelDBIterator := {|
  it_Domain := goLevelDBIterator_Domain;
  it_Valid := goLevelDBIterator_Valid;
  it_Next := goLevelDBIterator_Next;
  it_Key := goLevelDBIterator_Key;
  it_Value := goLevelDBIterator_Value;
  it_Error := goLevelDBIterator_Error;
  it_Close := goLevelDBIterator_Close;
|}.

Definition GoLevelDB_Iterator (start end_ : slice) : M GoLevelDB goLevelDBIterator :=
  if (negb (is_nil start) && (len start =? 0)) || (negb (is_nil end_) && (len end_ =? 0))
  then throw errKeyEmpty
  else
    db ← get;
    mret (newGoLevelDBIterator (lib_NewIterator (Some (start, end_)) (gl_db db)) start end_ false).

Definition GoLevelDB_ReverseIterator (start end_ : slice) : M GoLevelDB goLevelDBIterator :=
  if (negb (is_nil start) && (len start =? 0)) || (negb (is_nil end_) && (len end_ =? 0))
  then throw errKeyEmpty
  else
    db ← get;
    mret (newGoLevelDBIterator (lib_NewIterator (Some (start, end_)) (gl_db db)) start end_ true).

Definition GoLevelDB_ops (fuel : nat) : DBOps GoLevelDB goLevelDBIterator goLevelDBBatch := {|
  db_Get := GoLevelDB_Get;
  db_Has := GoLevelDB_Has;
  db_Set := GoLevelDB_Set;
  db_SetSync := GoLevelDB_SetSync;
  db_Delete := GoLevelDB_Delete;
  db_DeleteSync := GoLevelDB_DeleteSync;
  db_Iterator := GoLevelDB_Iterator;
  db_ReverseIterator := GoLevelDB_ReverseIterator;
  db_Close := GoLevelDB_Close;
  db_NewBatch := GoLevelDB_NewBatch;
  db_Print := GoLevelDB_Print fuel;
  db_Stats := GoLevelDB_Stats;
|}.

End goleveldb.
Arguments GoLevelDB : clear implicits.
Arguments goLevelDBBatch : clear implicits.
Arguments goLevelDBIterator : clear implicits.
