(* ===== verification/GoLevelDBCorrect.v ===== *)
(** * The goleveldb backend meets the contract of a database

    For every library that behaves as [KVLaws] says, with [ErrNotFound] for an
    absent key. *)

From S2P Require Import Prelude Go Util Spec Types Client Cursor KVLib KVBackend GoLevelDB.

Section goleveldb_correct.
Context {D C W : Type} `{!CursorOps C, !CursorLaws C, !KVOps D C W}.
Context `{!KVLaws D C W (Err ErrNotFound)}.
Context (GetProperty : string → M D string) (fuel : nat).

(** ** Iterators *)

Definition gli_usable (itr : goLevelDBIterator C) : bool :=
  usable (gli_isInvalid itr) (gli_source itr) (gli_start itr) (gli_end itr) (gli_isReverse itr).

(** [isInvalid] is set whenever a test of [Valid] fails. *)
Lemma goLevelDBIterator_Valid_eq (itr : goLevelDBIterator C) :
  cur_Err (gli_source itr) = None →
  goLevelDBIterator_Valid itr =
    (Ok (gli_usable itr), if gli_usable itr then itr else gli_invalidate itr).
Proof.
  intros Herr. destruct itr as [c s e r d]. simpl in *. unfold gli_usable, usable.
  unfold goLevelDBIterator_Valid, goLevelDBIterator_Error, mbind, M_bind. simpl. rewrite Herr.
  destruct d; [done|]. destruct (cur_Valid c); [|done]. simpl.
  destruct r; by destruct (negb _ && _).
Qed.

Lemma goLevelDBIterator_assert_eq itr :
  cur_Err (gli_source itr) = None →
  goLevelDBIterator_assertIsValid itr =
    (if gli_usable itr then Ok tt else Panic invalid_msg, itr).
Proof.
  intros H%goLevelDBIterator_Valid_eq. unfold goLevelDBIterator_assertIsValid, mbind, M_bind.
  rewrite H. by destruct (gli_usable itr).
Qed.

#[global, refine] Instance goLevelDBIterator_wrapper :
    CursorWrapper C (goLevelDBIterator C) := {|
  cw_src := gli_source;
  cw_start := gli_start;
  cw_end := gli_end;
  cw_rev := gli_isReverse;
  cw_dead := gli_isInvalid;
  cw_ok _ := True;
  cw_copyK := cp;
  cw_copyV := cp;
|}.
Proof.
  - done.
  - done.
  - done.
  - done.
  - intros it Herr. eexists. split; [by apply goLevelDBIterator_Valid_eq|].
    fold (gli_usable it). destruct (gli_usable it); simpl; eauto 10.
  - intros it Herr. eapply guarded; [by apply goLevelDBIterator_assert_eq| |by auto 10].
    intros _. exists (gli_move (move (gli_isReverse it)) it). unfold mbind, M_bind, move. simpl.
    destruct (gli_isReverse it); auto 10.
  - intros it Herr. eapply guarded; [by apply goLevelDBIterator_assert_eq| |by auto 10].
    intros _. exists it. auto 10.
  - intros it Herr. eapply guarded; [by apply goLevelDBIterator_assert_eq| |by auto 10].
    intros _. exists it. auto 10.
  - intros it. by eexists.
Defined.

(** ** The database *)

#[global, refine] Instance GoLevelDB_backend :
    KVBackend (Err ErrNotFound) (GoLevelDB_ops GetProperty fuel) := {|
  kb_db := gl_db;
  kb_set d _ := {| gl_db := d |};
  kb_ok _ := True;
  kb_batch := glb_batch;
  kb_close _ := {| glb_batch := None |};
  kb_put w _ := {| glb_batch := Some w |};
  kb_range st en := Some (st, en);
  kb_iterator := newGoLevelDBIterator;
|}.
Proof.
  - done.
  - done.
  - done.
  - done.
  - intros key db. simpl. unfold GoLevelDB_Get. destruct (len key =? 0); [done|].
    unfold mbind, M_bind, attempt. fold (on_gl (lib_Get key)).
    destruct (on_gl (lib_Get key) db) as [[v|e|msg|] db']; try done.
    destruct (decide (e = ErrNotFound)) as [-> |Hne]; [done|]. by rewrite decide_False by congruence.
  - intros key db. simpl. unfold GoLevelDB_Has, mbind, M_bind.
    by destruct (GoLevelDB_Get key db) as [[v|e|msg|] db'].
  - intros [] key value db _; simpl; unfold GoLevelDB_SetSync, GoLevelDB_Set;
      by destruct (len key =? 0), value.
  - intros [] key db _; simpl; unfold GoLevelDB_DeleteSync, GoLevelDB_Delete; by destruct (len key =? 0).
  - auto.
  - intros [] st en db; simpl; unfold GoLevelDB_Iterator, GoLevelDB_ReverseIterator;
      fold (bad_bounds st en); by destruct (bad_bounds st en).
  - intros c st en rev _. simpl. split_and!; try done. by destruct rev, st, en.
  - intros db. by exists newGoLevelDBBatch.
  - intros key value [w] db. simpl. unfold goLevelDBBatch_Set.
    by destruct (len key =? 0), value, w.
  - intros key [w] db. simpl. unfold goLevelDBBatch_Delete. by destruct (len key =? 0), w.
  - intros sync [[w|]] db _; destruct sync; try done; simpl;
      unfold goLevelDBBatch_Write, goLevelDBBatch_WriteSync, goLevelDBBatch_write, mbind, M_bind;
      simpl; unfold on_gl, on_field; by destruct (lib_Write _ w (gl_db db)) as [[[]|e|msg|] d'].
  - intros [[w|]] db; by eexists.
  - intros db H. exact (on_field_reply gl_db (λ d _, {| gl_db := d |}) _ db _ _ (λ _ _, eq_refl) H).
Defined.

#[global] Instance GoLevelDB_contract : DBContract (GoLevelDB_ops GetProperty fuel).
Proof. refine (kv_backend_contract (Err ErrNotFound) _ _). discriminate. Defined.

End goleveldb_correct.
