(* ===== verification/RocksDB.v ===== *)
(** * rocksdb.go, rocksdb_batch.go, rocksdb_iterator.go

    The backend over github.com/cosmos/gorocksdb, for every library that has the
    methods of [KVOps]. *)

From S2P Require Import Prelude Go Util Spec Types Client Path Cursor KVLib KVBackend.

(** The [*gorocksdb.Slice] of the library is a [slice]: [s.Exists()] is its being
    non-nil, [s.Data()] its bytes; [s.Free()] releases memory of the library. *)
Definition moveSliceToBytes (s : slice) : slice :=
  if is_nil s then None else Some (data s).

(** [gorocksdb.WriteOptions], as far as the backend sets them. *)
Record WriteOptions := { wo_sync : bool }.
Definition NewDefaultWriteOptions : WriteOptions := {| wo_sync := false |}.
Definition SetSync (sync : bool) (wo : WriteOptions) : WriteOptions := {| wo_sync := sync |}.

Section rocksdb.
Context {D C W : Type} `{!CursorOps C, !KVOps D C W}.
(** The options of gorocksdb with the setters [NewRocksDB] calls, the number of
    CPUs, [gorocksdb.OpenDb] and the method [GetProperty]. *)
Context {TableOptions Options Cache Filter : Type}.
Context (NewDefaultBlockBasedTableOptions : TableOptions)
  (NewLRUCache : Z → Cache) (SetBlockCache : Cache → TableOptions → TableOptions)
  (NewBloomFilter : Z → Filter) (SetFilterPolicy : Filter → TableOptions → TableOptions)
  (NewDefaultOptions : Options) (SetBlockBasedTableFactory : TableOptions → Options → Options)
  (SetMaxOpenFiles : Z → Options → Options) (SetCreateIfMissing : bool → Options → Options)
  (IncreaseParallelism : Z → Options → Options) (NumCPU : Z)
  (OptimizeLevelStyleCompaction : Z → Options → Options).
Context (OpenDb : Options → string → result D).
Context (GetProperty : string → D → string).

(** [type RocksDB struct]; the read options are the default ones. *)
Record RocksDB := { rk_db : D; rk_wo : WriteOptions; rk_woSync : WriteOptions }.

Definition rk_set (d : D) (db : RocksDB) : RocksDB :=
  {| rk_db := d; rk_wo := rk_wo db; rk_woSync := rk_woSync db |}.
Definition on_rk {A} : M D A → M RocksDB A := on_field rk_db rk_set.

Definition NewRocksDBWithOptions (name dir : string) (opts : Options) : result RocksDB :=
  let dbPath := filepath_Join [dir; (name +:+ ".db")%string] in
  result_map (λ d, {| rk_db := d; rk_wo := NewDefaultWriteOptions;
                      rk_woSync := SetSync true NewDefaultWriteOptions |}) (OpenDb opts dbPath).

Definition NewRocksDB (name dir : string) : result RocksDB :=
  let bbto := NewDefaultBlockBasedTableOptions in
  let bbto := SetBlockCache (NewLRUCache (Z.shiftl 1 30)) bbto in
  let bbto := SetFilterPolicy (NewBloomFilter 10) bbto in
  let opts := NewDefaultOptions in
  let opts := SetBlockBasedTableFactory bbto opts in
  let opts := SetMaxOpenFiles 4096 opts in
  let opts := SetCreateIfMissing true opts in
  let opts := IncreaseParallelism NumCPU opts in
  let opts := OptimizeLevelStyleCompaction (512 * 1024 * 1024) opts in
  NewRocksDBWithOptions name dir opts.

(** ** Database methods *)

Definition RocksDB_Get (key : slice) : M RocksDB slice :=
  if len key =? 0 then throw errKeyEmpty
  else res ← on_rk (lib_Get key); mret (moveSliceToBytes res).

Definition RocksDB_Has (key : slice) : M RocksDB bool :=
  bytes ← RocksDB_Get key; mret (negb (is_nil bytes)).

Definition RocksDB_Set (key value : slice) : M RocksDB unit :=
  if len key =? 0 then throw errKeyEmpty
  else if is_nil value then throw errValueNil
  else db ← get; on_rk (lib_Put (wo_sync (rk_wo db)) key value).

Definition RocksDB_SetSync (key value : slice) : M RocksDB unit :=
  if len key =? 0 then throw errKeyEmpty
  else if is_nil value then throw errValueNil
  else db ← get; on_rk (lib_Put (wo_sync (rk_woSync db)) key value).

Definition RocksDB_Delete (key : slice) : M RocksDB unit :=
  if len key =? 0 then throw errKeyEmpty
  else db ← get; on_rk (lib_Delete (wo_sync (rk_wo db)) key).

Definition RocksDB_DeleteSync (key : slice) : M RocksDB unit :=
  if len key =? 0 then throw errKeyEmpty
  else db ← get; on_rk (lib_Delete (wo_sync (rk_woSync db)) key).

(** [db.db.Close()] returns nothing. *)
Definition RocksDB_DB (db : RocksDB) : D := rk_db db.

Definition RocksDB_Close : M RocksDB unit := _ ← attempt (on_rk lib_Close); mret tt.

Definition RocksDB_Stats : M RocksDB (gmap string string) :=
  db ← get; mret (<["rocksdb.stats" := GetProperty "rocksdb.stats" (rk_db db)]> ∅).

(** ** Batches *)

(** [type rocksDBBatch struct]; [None] is the nil [batch] of a closed batch. *)
Record rocksDBBatch := { rkb_batch : option W }.

Definition newRocksDBBatch : rocksDBBatch := {| rkb_batch := Some wb_New |}.

Definition rocksDBBatch_Set (key value : slice) : M rocksDBBatch unit :=
  if len key =? 0 then throw errKeyEmpty
  else if is_nil value then throw errValueNil
  else
    b ← get;
    match rkb_batch b with
    | None => throw errBatchClosed
    | Some w => put {| rkb_batch := Some (wb_Put key value w) |}
    end.

Definition rocksDBBatch_Delete (key : slice) : M rocksDBBatch unit :=
  if len key =? 0 then throw errKeyEmpty
  else
    b ← get;
    match rkb_batch b with
    | None => throw errBatchClosed
    | Some w => put {| rkb_batch := Some (wb_Delete key w) |}
    end.

Definition rocksDBBatch_Close : M rocksDBBatch unit :=
  b ← get;
  match rkb_batch b with
  | Some _ => put {| rkb_batch := None |}             (* b.batch.Destroy(); b.batch = nil *)
  | None => mret tt
  end.

Definition rocksDBBatch_Write : M (rocksDBBatch * RocksDB) unit :=
  bs ← get;
  match rkb_batch bs.1 with
  | None => throw errBatchClosed
  | Some w =>
      _ ← on_snd (on_rk (lib_Write (wo_sync (rk_wo bs.2)) w));
      _ ← on_fst rocksDBBatch_Close;
      mret tt
  end.

Definition rocksDBBatch_WriteSync : M (rocksDBBatch * RocksDB) unit :=
  bs ← get;
  match rkb_batch bs.1 with
  | None => throw errBatchClosed
  | Some w =>
      _ ← on_snd (on_rk (lib_Write (wo_sync (rk_woSync bs.2)) w));
      on_fst rocksDBBatch_Close
  end.

Definition RocksDB_NewBatch : M RocksDB rocksDBBatch := mret newRocksDBBatch.

#[global] Instance rocksDBBatch_ops : BatchOps RocksDB rocksDBBatch := {|
  b_Set key value := on_fst (rocksDBBatch_Set key value);
  b_Delete key := on_fst (rocksDBBatch_Delete key);
  b_Write := rocksDBBatch_Write;
  b_WriteSync := rocksDBBatch_WriteSync;
  b_Close := on_fst rocksDBBatch_Close;
|}.

(** ** Iterators *)

(** [type rocksDBIterator struct] *)
Record rocksDBIterator := {
  rki_source : C;
  rki_start : slice;
  rki_end : slice;
  rki_isReverse : bool;
  rki_isInvalid : bool;
}.

Definition newRocksDBIterator (source : C) (start end_ : slice) (isReverse : bool) :
    rocksDBIterator :=
  let source :=
    if isReverse then
      if is_nil end_ then cur_Last source
      else
        let source := cur_Seek end_ source in
        if cur_Valid source then
          let eoakey := moveSliceToBytes (cur_Key source) in
          if (bytes_Compare end_ eoakey <=? 0)%Z then cur_Prev source else source
        else cur_Last source
    else if is_nil start then cur_First source
    else cur_Seek start source in
  {| rki_source := source; rki_start := start; rki_end := end_;
     rki_isReverse := isReverse; rki_isInvalid := false |}.

Definition rocksDBIterator_Domain (itr : rocksDBIterator) : slice * slice :=
  (rki_start itr, rki_end itr).

Definition rocksDBIterator_Error (itr : rocksDBIterator) : option error :=
  cur_Err (rki_source itr).

Definition rki_invalidate (itr : rocksDBIterator) : rocksDBIterator :=
  {| rki_source := rki_source itr; rki_start := rki_start itr; rki_end := rki_end itr;
     rki_isReverse := rki_isReverse itr; rki_isInvalid := true |}.

Definition rki_move (f : C → C) (itr : rocksDBIterator) : rocksDBIterator :=
  {| rki_source := f (rki_source itr); rki_start := rki_start itr; rki_end := rki_end itr;
     rki_isReverse := rki_isReverse itr; rki_isInvalid := rki_isInvalid itr |}.

Definition rocksDBIterator_Valid : M rocksDBIterator bool :=
  itr ← get;
  if rki_isInvalid itr then mret false
  else match cur_Err (rki_source itr) with
  | Some _ => _ ← modify rki_invalidate; mret false
  | None =>
      if negb (cur_Valid (rki_source itr)) then _ ← modify rki_invalidate; mret false
      else
        let start := rki_start itr in
        let end_ := rki_end itr in
        let key := moveSliceToBytes (cur_Key (rki_source itr)) in
        if rki_isReverse itr then
          if negb (is_nil start) && (bytes_Compare key start <? 0)%Z
          then _ ← modify rki_invalidate; mret false
          else mret true
        else
          if negb (is_nil end_) && (bytes_Compare end_ key <=? 0)%Z
          then _ ← modify rki_invalidate; mret false
          else mret true
  end.

Definition rocksDBIterator_assertIsValid : M rocksDBIterator unit :=
  v ← rocksDBIterator_Valid;
  if (v : bool) then mret tt else panic "iterator is invalid".

Definition rocksDBIterator_Key : M rocksDBIterator slice :=
  _ ← rocksDBIterator_assertIsValid;
  itr ← get; mret (moveSliceToBytes (cur_Key (rki_source itr))).

Definition rocksDBIterator_Value : M rocksDBIterator slice :=
  _ ← rocksDBIterator_assertIsValid;
  itr ← get; mret (moveSliceToBytes (cur_Value (rki_source itr))).

(** A value receiver: the assignment to [isInvalid] is lost with the copy, the
    cursor behind the pointer [source] moves. *)
Definition rocksDBIterator_Next : M rocksDBIterator unit := λ itr,
  let '(r, copy) :=
    (_ ← rocksDBIterator_assertIsValid;
     i ← get;
     if rki_isReverse i then modify (rki_move cur_Prev) else modify (rki_move cur_Next)) itr in
  (r, rki_move (λ _, rki_source copy) itr).

Definition rocksDBIterator_Close : M rocksDBIterator unit := modify (rki_move cur_Release).

#[global] Instance rocksDBIterator_ops : IteratorOps rocksDBIterator := {|
  it_Domain := rocksDBIterator_Domain;
  it_Valid := rocksDBIterator_Valid;
  it_Next := rocksDBIterator_Next;
  it_Key := rocksDBIterator_Key;
  it_Value := rocksDBIterator_Value;
  it_Error := rocksDBIterator_Error;
  it_Close := rocksDBIterator_Close;
|}.

Definition RocksDB_Iterator (start end_ : slice) : M RocksDB rocksDBIterator :=
  if (negb (is_nil start) && (len start =? 0)) || (negb (is_nil end_) && (len end_ =? 0))
  then throw errKeyEmpty
  else
    db ← get;
    mret (newRocksDBIterator (lib_NewIterator None (rk_db db)) start end_ false).

Definition RocksDB_ReverseIterator (start end_ : slice) : M RocksDB rocksDBIterator :=
  if (negb (is_nil start) && (len start =? 0)) || (negb (is_nil end_) && (len end_ =? 0))
  then throw errKeyEmpty
  else
    db ← get;
    mret (newRocksDBIterator (lib_NewIterator None (rk_db db)) start end_ true).

(** The loop of [Print] is the loop of every client. *)
Definition RocksDB_Print (fuel : nat) : M RocksDB (list string) :=
  itr ← RocksDB_Iterator None None;
  lift_result (result_map (λ l, (λ kv, print_line kv.1 kv.2) <$> l)
    (deferred rocksDBIterator_Close (collect fuel) itr).1).

Definition RocksDB_ops (fuel : nat) : DBOps RocksDB rocksDBIterator rocksDBBatch := {|
  db_Get := RocksDB_Get;
  db_Has := RocksDB_Has;
  db_Set := RocksDB_Set;
  db_SetSync := RocksDB_SetSync;
  db_Delete := RocksDB_Delete;
  db_DeleteSync := RocksDB_DeleteSync;
  db_Iterator := RocksDB_Iterator;
  db_ReverseIterator := RocksDB_ReverseIterator;
  db_Close := RocksDB_Close;
  db_NewBatch := RocksDB_NewBatch;
  db_Print := RocksDB_Print fuel;
  db_Stats := RocksDB_Stats;
|}.

End rocksdb.
Arguments RocksDB : clear implicits.
Arguments rocksDBBatch : clear implicits.
Arguments rocksDBIterator : clear implicits.
