(* ===== verification/RocksDBCorrect.v ===== *)
(** * The rocksdb backend meets the contract of a database

    For every library that behaves as [KVLaws] says; [Get] of an absent key
    returns a slice that does not exist. *)

From S2P Require Import Prelude Go Util Spec Types Client Cursor KVLib KVBackend RocksDB.

Section rocksdb_correct.
Context {D C W : Type} `{!CursorOps C, !CursorLaws C, !KVOps D C W}.
Context `{!KVLaws D C W (Ok None)}.
Context (GetProperty : string → D → string) (fuel : nat).

Lemma moveSliceToBytes_id s : moveSliceToBytes s = s.
Proof. by destruct s. Qed.

(** ** Iterators *)

Definition rki_usable (itr : rocksDBIterator C) : bool :=
  usable (rki_isInvalid itr) (rki_source itr) (rki_start itr) (rki_end itr) (rki_isReverse itr).
Definition rki_after (itr : rocksDBIterator C) : rocksDBIterator C :=
  if rki_usable itr then itr else rki_invalidate itr.

Lemma rocksDBIterator_Valid_eq (itr : rocksDBIterator C) :
  cur_Err (rki_source itr) = None →
  rocksDBIterator_Valid itr = (Ok (rki_usable itr), rki_after itr).
Proof.
  intros Herr. destruct itr as [c s e r d]. simpl in *. unfold rki_after, rki_usable, usable.
  unfold rocksDBIterator_Valid, mbind, M_bind. simpl. rewrite Herr, moveSliceToBytes_id.
  destruct d; [done|]. destruct (cur_Valid c); [|done]. simpl.
  destruct r; by destruct (negb _ && _).
Qed.

Lemma rocksDBIterator_assert_eq itr :
  cur_Err (rki_source itr) = None →
  rocksDBIterator_assertIsValid itr =
    (if rki_usable itr then Ok tt else Panic invalid_msg, rki_after itr).
Proof.
  intros H%rocksDBIterator_Valid_eq. unfold rocksDBIterator_assertIsValid, mbind, M_bind.
  rewrite H. by destruct (rki_usable itr).
Qed.

#[global, refine] Instance rocksDBIterator_wrapper : CursorWrapper C (rocksDBIterator C) := {|
  cw_src := rki_source;
  cw_start := rki_start;
  cw_end := rki_end;
  cw_rev := rki_isReverse;
  cw_dead := rki_isInvalid;
  cw_ok _ := True;
  cw_copyK := moveSliceToBytes;
  cw_copyV := moveSliceToBytes;
|}.
Proof.
  - done.
  - done.
  - done.
  - done.
  - intros it Herr. eexists. split; [by apply rocksDBIterator_Valid_eq|].
    fold (rki_usable it). unfold rki_after. destruct (rki_usable it); simpl; auto 10.
  - intros it Herr. unfold reply, it_Next. simpl. unfold rocksDBIterator_Next.
    fold (rki_usable it). pose proof (rocksDBIterator_assert_eq it Herr) as H.
    unfold rki_after in H. destruct (rki_usable it).
    + rewrite (M_bind_Ok _ _ _ _ _ H). unfold mbind, M_bind, move. simpl.
      destruct (rki_isReverse it) eqn:Hr; eexists; (split; [done|]); simpl; auto 10.
    + rewrite (M_bind_Panic _ _ _ _ _ H). eexists. split; [done|]. simpl. auto 10.
  - intros it Herr. eapply guarded; [by apply rocksDBIterator_assert_eq|..];
      fold (rki_usable it); unfold rki_after; intros ->; [|simpl; auto 10].
    exists it. auto 10.
  - intros it Herr. eapply guarded; [by apply rocksDBIterator_assert_eq|..];
      fold (rki_usable it); unfold rki_after; intros ->; [|simpl; auto 10].
    exists it. auto 10.
  - intros it. by eexists.
Defined.

(** ** The database *)

#[global, refine] Instance RocksDB_backend :
    KVBackend (Ok None) (RocksDB_ops GetProperty fuel) := {|
  kb_db := rk_db;
  kb_set := rk_set;
  kb_ok db := wo_sync (rk_wo db) = false ∧ wo_sync (rk_woSync db) = true;
  kb_batch := rkb_batch;
  kb_close _ := {| rkb_batch := None |};
  kb_put w _ := {| rkb_batch := Some w |};
  kb_range _ _ := None;
  kb_iterator := newRocksDBIterator;
|}.
Proof.
  - done.
  - done.
  - done.
  - done.
  - intros key db. simpl. unfold RocksDB_Get. destruct (len key =? 0); [done|].
    unfold mbind, M_bind. fold (on_rk (lib_Get key)).
    destruct (on_rk (lib_Get key) db) as [[[v|]|e|msg|] db']; try done;
      rewrite ?decide_True, ?decide_False by congruence; done.
  - intros key db. simpl. unfold RocksDB_Has, mbind, M_bind.
    by destruct (RocksDB_Get key db) as [[v|e|msg|] db'].
  - intros [] key value db [H1 H2]; simpl; unfold RocksDB_SetSync, RocksDB_Set, mbind, M_bind;
      destruct (len key =? 0), value; simpl; rewrite ?H1, ?H2; done.
  - intros [] key db [H1 H2]; simpl; unfold RocksDB_DeleteSync, RocksDB_Delete, mbind, M_bind;
      destruct (len key =? 0); simpl; rewrite ?H1, ?H2; done.
  - auto.
  - intros [] st en db; simpl; unfold RocksDB_Iterator, RocksDB_ReverseIterator;
      fold (bad_bounds st en); by destruct (bad_bounds st en).
  - intros c st en rev _. simpl. split_and!; try done. rewrite moveSliceToBytes_id.
    by destruct rev, st, en.
  - intros db. by exists newRocksDBBatch.
  - intros key value [w] db. simpl. unfold rocksDBBatch_Set. by destruct (len key =? 0), value, w.
  - intros key [w] db. simpl. unfold rocksDBBatch_Delete. by destruct (len key =? 0), w.
  - intros sync [[w|]] db [H1 H2]; destruct sync; try done; simpl;
      unfold rocksDBBatch_Write, rocksDBBatch_WriteSync, mbind, M_bind;
      simpl; unfold on_rk, on_field; rewrite ?H1, ?H2;
      by destruct (lib_Write _ w (rk_db db)) as [[[]|e|msg|] d'].
  - intros [[w|]] db; by eexists.
  - intros db (d & H & _). unfold reply. simpl. unfold RocksDB_Close, mbind, M_bind, attempt, on_rk, on_field.
    rewrite H. by eexists.
Defined.

#[global] Instance RocksDB_contract : DBContract (RocksDB_ops GetProperty fuel).
Proof. refine (kv_backend_contract (Ok None) _ _). discriminate. Defined.

End rocksdb_correct.
