(* ===== verification/CLevelDB.v ===== *)
(** * cleveldb.go, cleveldb_batch.go, cleveldb_iterator.go

    The backend over github.com/jmhodges/levigo, for every library that has the
    methods of [KVOps]. *)

From S2P Require Import Prelude Go Util Spec Types Client Path Cursor KVLib KVBackend.

(** [levigo.WriteOptions], as far as the backend sets them. *)
Record WriteOptions := { wo_sync : bool }.
Definition NewWriteOptions : WriteOptions := {| wo_sync := false |}.
Definition SetSync (sync : bool) (wo : WriteOptions) : WriteOptions := {| wo_sync := sync |}.

Section cleveldb.
Context {D C W : Type} `{!CursorOps C, !KVOps D C W}.
(** [levigo.Options] with the setters [NewCLevelDB] calls (a cache of [1 << 30]
    bytes, create if missing), [levigo.Open] and the method [PropertyValue]. *)
Context {Options : Type} (NewOptions : Options) (SetCache : Z → Options → Options)
  (SetCreateIfMissing : bool → Options → Options) (Open : string → Options → result D).
Context (PropertyValue : string → D → string).

(** [type CLevelDB struct]; the read options are the default ones. *)
Record CLevelDB := { cl_db : D; cl_wo : WriteOptions; cl_woSync : WriteOptions }.

Definition cl_set (d : D) (db : CLevelDB) : CLevelDB :=
  {| cl_db := d; cl_wo := cl_wo db; cl_woSync := cl_woSync db |}.
Definition on_cl {A} : M D A → M CLevelDB A := on_field cl_db cl_set.

Definition NewCLevelDB (name dir : string) : result CLevelDB :=
  let dbPath := filepath_Join [dir; (name +:+ ".db")%string] in
  let opts := SetCreateIfMissing true (SetCache (Z.shiftl 1 30) NewOptions) in
  result_map (λ d, {| cl_db := d; cl_wo := NewWriteOptions;
                      cl_woSync := SetSync true NewWriteOptions |}) (Open dbPath opts).

(** ** Database methods *)

Definition CLevelDB_Get (key : slice) : M CLevelDB slice :=
  if len key =? 0 then throw errKeyEmpty
  else on_cl (lib_Get key).

Definition CLevelDB_Has (key : slice) : M CLevelDB bool :=
  bytes ← CLevelDB_Get key; mret (negb (is_nil bytes)).

Definition CLevelDB_Set (key value : slice) : M CLevelDB unit :=
  if len key =? 0 then throw errKeyEmpty
  else if is_nil value then throw errValueNil
  else db ← get; on_cl (lib_Put (wo_sync (cl_wo db)) key value).

Definition CLevelDB_SetSync (key value : slice) : M CLevelDB unit :=
  if len key =? 0 then throw errKeyEmpty
  else if is_nil value then throw errValueNil
  else db ← get; on_cl (lib_Put (wo_sync (cl_woSync db)) key value).

Definition CLevelDB_Delete (key : slice) : M CLevelDB unit :=
  if len key =? 0 then throw errKeyEmpty
  else db ← get; on_cl (lib_Delete (wo_sync (cl_wo db)) key).

Definition CLevelDB_DeleteSync (key : slice) : M CLevelDB unit :=
  if len key =? 0 then throw errKeyEmpty
  else db ← get; on_cl (lib_Delete (wo_sync (cl_woSync db)) key).

(** The [Close] methods of the library return nothing. *)
Definition CLevelDB_DB (db : CLevelDB) : D := cl_db db.

Definition CLevelDB_Close : M CLevelDB unit := _ ← attempt (on_cl lib_Close); mret tt.

Definition cl_stat_keys : list string :=
  ["leveldb.num-files-at-level{n}"; "leveldb.sstables"; "leveldb.stats";
   "leveldb.approximate-memory-usage"].

Definition CLevelDB_Stats : M CLevelDB (gmap string string) :=
  db ← get;
  mret (foldl (λ stats key, <[key := PropertyValue key (cl_db db)]> stats) ∅ cl_stat_keys).

(** ** Batches *)

(** [type cLevelDBBatch struct]; [None] is the nil [batch] of a closed batch. *)
Record cLevelDBBatch := { clb_batch : option W }.

Definition newCLevelDBBatch : cLevelDBBatch := {| clb_batch := Some wb_New |}.

Definition cLevelDBBatch_Set (key value : slice) : M cLevelDBBatch unit :=
  if len key =? 0 then throw errKeyEmpty
  else if is_nil value then throw errValueNil
  else
    b ← get;
    match clb_batch b with
    | None => throw errBatchClosed
    | Some w => put {| clb_batch := Some (wb_Put key value w) |}
    end.

Definition cLevelDBBatch_Delete (key : slice) : M cLevelDBBatch unit :=
  if len key =? 0 then throw errKeyEmpty
  else
    b ← get;
    match clb_batch b with
    | None => throw errBatchClosed
    | Some w => put {| clb_batch := Some (wb_Delete key w) |}
    end.

Definition cLevelDBBatch_Close : M cLevelDBBatch unit :=
  b ← get;
  match clb_batch b with
  | Some _ => put {| clb_batch := None |}             (* b.batch.Close(); b.batch = nil *)
  | None => mret tt
  end.

Definition cLevelDBBatch_Write : M (cLevelDBBatch * CLevelDB) unit :=
  bs ← get;
  match clb_batch bs.1 with
  | None => throw errBatchClosed
  | Some w =>
      _ ← on_snd (on_cl (lib_Write (wo_sync (cl_wo bs.2)) w));
      on_fst cLevelDBBatch_Close
  end.

Definition cLevelDBBatch_WriteSync : M (cLevelDBBatch * CLevelDB) unit :=
  bs ← get;
  match clb_batch bs.1 with
  | None => throw errBatchClosed
  | Some w =>
      _ ← on_snd (on_cl (lib_Write (wo_sync (cl_woSync bs.2)) w));
      _ ← on_fst cLevelDBBatch_Close;
      mret tt
  end.

Definition CLevelDB_NewBatch : M CLevelDB cLevelDBBatch := mret newCLevelDBBatch.

#[global] Instance cLevelDBBatch_ops : BatchOps CLevelDB cLevelDBBatch := {|
  b_Set key value := on_fst (cLevelDBBatch_Set key value);
  b_Delete key := on_fst (cLevelDBBatch_Delete key);
  b_Write := cLevelDBBatch_Write;
  b_WriteSync := cLevelDBBatch_WriteSync;
  b_Close := on_fst cLevelDBBatch_Close;
|}.

(** ** Iterators *)

(** [type cLevelDBIterator struct] *)
Record cLevelDBIterator := {
  cli_source : C;
  cli_start : slice;
  cli_end : slice;
  cli_isReverse : bool;
  cli_isInvalid : bool;
}.

Definition newCLevelDBIterator (source : C) (start end_ : slice) (isReverse : bool) :
    cLevelDBIterator :=
  let source :=
    if isReverse then
      if len end_ =? 0 then cur_Last source
      else
        let source := cur_Seek end_ source in
        if cur_Valid source then
          let eoakey := cur_Key source in
          if (bytes_Compare end_ eoakey <=? 0)%Z then cur_Prev source else source
        else cur_Last source
    else if len start =? 0 then cur_First source
    else cur_Seek start source in
  {| cli_source := source; cli_start := start; cli_end := end_;
     cli_isReverse := isReverse; cli_isInvalid := false |}.

Definition cLevelDBIterator_Domain (itr : cLevelDBIterator) : slice * slice :=
  (cli_start itr, cli_end itr).

Definition cLevelDBIterator_Error (itr : cLevelDBIterator) : option error :=
  cur_Err (cli_source itr).

Definition cli_move (f : C → C) (itr : cLevelDBIterator) : cLevelDBIterator :=
  {| cli_source := f (cli_source itr); cli_start := cli_start itr; cli_end := cli_end itr;
     cli_isReverse := cli_isReverse itr; cli_isInvalid := cli_isInvalid itr |}.

(** The methods have value receivers; only the cursor behind the pointer
    [source] changes. *)
Definition cLevelDBIterator_Valid : M cLevelDBIterator bool :=
  itr ← get;
  if cli_isInvalid itr then mret false
  else match cur_Err (cli_source itr) with
  | Some _ => mret false
  | None =>
      if negb (cur_Valid (cli_source itr)) then mret false
      else
        let start := cli_start itr in
        let end_ := cli_end itr in
        let key := cur_Key (cli_source itr) in
        if cli_isReverse itr then
          if negb (is_nil start) && (bytes_Compare key start <? 0)%Z then mret false else mret true
        else
          if negb (is_nil end_) && (bytes_Compare end_ key <=? 0)%Z then mret false else mret true
  end.

Definition cLevelDBIterator_assertIsValid : M cLevelDBIterator unit :=
  v ← cLevelDBIterator_Valid;
  if (v : bool) then mret tt else panic "iterator is invalid".

Definition cLevelDBIterator_Key : M cLevelDBIterator slice :=
  _ ← cLevelDBIterator_assertIsValid;
  itr ← get; mret (cur_Key (cli_source itr)).

Definition cLevelDBIterator_Value : M cLevelDBIterator slice :=
  _ ← cLevelDBIterator_assertIsValid;
  itr ← get; mret (cur_Value (cli_source itr)).

Definition cLevelDBIterator_Next : M cLevelDBIterator unit :=
  _ ← cLevelDBIterator_assertIsValid;
  itr ← get;
  if cli_isReverse itr then modify (cli_move cur_Prev) else modify (cli_move cur_Next).

Definition cLevelDBIterator_Close : M cLevelDBIterator unit := modify (cli_move cur_Release).

#[global] Instance cLevelDBIterator_ops : IteratorOps cLevelDBIterator := {|
  it_Domain := cLevelDBIterator_Domain;
  it_Valid := cLevelDBIterator_Valid;
  it_Next := cLevelDBIterator_Next;
  it_Key := cLevelDBIterator_Key;
  it_Value := cLevelDBIterator_Value;
  it_Error := cLevelDBIterator_Error;
  it_Close := cLevelDBIterator_Close;
|}.

Definition CLevelDB_Iterator (start end_ : slice) : M CLevelDB cLevelDBIterator :=
  if (negb (is_nil start) && (len start =? 0)) || (negb (is_nil end_) && (len end_ =? 0))
  then throw errKeyEmpty
  else
    db ← get;
    mret (newCLevelDBIterator (lib_NewIterator None (cl_db db)) start end_ false).

Definition CLevelDB_ReverseIterator (start end_ : slice) : M CLevelDB cLevelDBIterator :=
  if (negb (is_nil start) && (len start =? 0)) || (negb (is_nil end_) && (len end_ =? 0))
  then throw errKeyEmpty
  else
    db ← get;
    mret (newCLevelDBIterator (lib_NewIterator None (cl_db db)) start end_ true).

(** The loop of [Print] is the loop of every client. *)
Definition CLevelDB_Print (fuel : nat) : M CLevelDB (list string) :=
  itr ← CLevelDB_Iterator None None;
  lift_result (result_map (λ l, (λ kv, print_line kv.1 kv.2) <$> l)
    (deferred cLevelDBIterator_Close (collect fuel) itr).1).

Definition CLevelDB_ops (fuel : nat) : DBOps CLevelDB cLevelDBIterator cLevelDBBatch := {|
  db_Get := CLevelDB_Get;
  db_Has := CLevelDB_Has;
  db_Set := CLevelDB_Set;
  db_SetSync := CLevelDB_SetSync;
  db_Delete := CLevelDB_Delete;
  db_DeleteSync := CLevelDB_DeleteSync;
  db_Iterator := CLevelDB_Iterator;
  db_ReverseIterator := CLevelDB_ReverseIterator;
  db_Close := CLevelDB_Close;
  db_NewBatch := CLevelDB_NewBatch;
  db_Print := CLevelDB_Print fuel;
  db_Stats := CLevelDB_Stats;
|}.

End cleveldb.
Arguments CLevelDB : clear implicits.
Arguments cLevelDBBatch : clear implicits.
Arguments cLevelDBIterator : clear implicits.
