(* ===== verification/CLevelDBCorrect.v ===== *)
(** * The cleveldb backend meets the contract of a database

    For every library that behaves as [KVLaws] says; [Get] of an absent key
    returns nil. *)

From S2P Require Import Prelude Go Util Spec Types Client Cursor KVLib KVBackend CLevelDB.

Section cleveldb_correct.
Context {D C W : Type} `{!CursorOps C, !CursorLaws C, !KVOps D C W}.
Context `{!KVLaws D C W (Ok None)}.
Context (PropertyValue : string → D → string) (fuel : nat).

(** ** Iterators *)

Definition cli_usable (itr : cLevelDBIterator C) : bool :=
  usable (cli_isInvalid itr) (cli_source itr) (cli_start itr) (cli_end itr) (cli_isReverse itr).

Lemma cLevelDBIterator_Valid_eq (itr : cLevelDBIterator C) :
  cur_Err (cli_source itr) = None →
  cLevelDBIterator_Valid itr = (Ok (cli_usable itr), itr).
Proof.
  intros Herr. destruct itr as [c s e r d]. simpl in *. unfold cli_usable, usable.
  unfold cLevelDBIterator_Valid, mbind, M_bind. simpl. rewrite Herr.
  destruct d; [done|]. destruct (cur_Valid c); [|done]. simpl.
  destruct r; by destruct (negb _ && _).
Qed.

Lemma cLevelDBIterator_assert_eq itr :
  cur_Err (cli_source itr) = None →
  cLevelDBIterator_assertIsValid itr =
    (if cli_usable itr then Ok tt else Panic invalid_msg, itr).
Proof.
  intros H%cLevelDBIterator_Valid_eq. unfold cLevelDBIterator_assertIsValid, mbind, M_bind.
  rewrite H. by destruct (cli_usable itr).
Qed.

#[global, refine] Instance cLevelDBIterator_wrapper : CursorWrapper C (cLevelDBIterator C) := {|
  cw_src := cli_source;
  cw_start := cli_start;
  cw_end := cli_end;
  cw_rev := cli_isReverse;
  cw_dead := cli_isInvalid;
  cw_ok _ := True;
  cw_copyK := id;
  cw_copyV := id;
|}.
Proof.
  - done.
  - done.
  - done.
  - done.
  - intros it Herr. exists it. split; [by apply cLevelDBIterator_Valid_eq|auto 10].
  - intros it Herr. eapply guarded; [by apply cLevelDBIterator_assert_eq| |by auto 10].
    intros _. exists (cli_move (move (cli_isReverse it)) it). unfold mbind, M_bind, move. simpl.
    destruct (cli_isReverse it); auto 10.
  - intros it Herr. eapply guarded; [by apply cLevelDBIterator_assert_eq| |by auto 10].
    intros _. exists it. auto 10.
  - intros it Herr. eapply guarded; [by apply cLevelDBIterator_assert_eq| |by auto 10].
    intros _. exists it. auto 10.
  - intros it. by eexists.
Defined.

(** ** The database *)

#[global, refine] Instance CLevelDB_backend :
    KVBackend (Ok None) (CLevelDB_ops PropertyValue fuel) := {|
  kb_db := cl_db;
  kb_set := cl_set;
  kb_ok db := wo_sync (cl_wo db) = false ∧ wo_sync (cl_woSync db) = true;
  kb_batch := clb_batch;
  kb_close _ := {| clb_batch := None |};
  kb_put w _ := {| clb_batch := Some w |};
  kb_range _ _ := None;
  kb_iterator := newCLevelDBIterator;
|}.
Proof.
  - done.
  - done.
  - done.
  - done.
  - intros key db. simpl. unfold CLevelDB_Get. destruct (len key =? 0); [done|].
    fold (on_cl (lib_Get key)).
    destruct (on_cl (lib_Get key) db) as [[[v|]|e|msg|] db']; try done;
      rewrite ?decide_True, ?decide_False by congruence; done.
  - intros key db. simpl. unfold CLevelDB_Has, mbind, M_bind.
    by destruct (CLevelDB_Get key db) as [[v|e|msg|] db'].
  - intros [] key value db [H1 H2]; simpl; unfold CLevelDB_SetSync, CLevelDB_Set, mbind, M_bind;
      destruct (len key =? 0), value; simpl; rewrite ?H1, ?H2; done.
  - intros [] key db [H1 H2]; simpl; unfold CLevelDB_DeleteSync, CLevelDB_Delete, mbind, M_bind;
      destruct (len key =? 0); simpl; rewrite ?H1, ?H2; done.
  - auto.
  - intros [] st en db; simpl; unfold CLevelDB_Iterator, CLevelDB_ReverseIterator;
      fold (bad_bounds st en); by destruct (bad_bounds st en).
  - intros c st en rev Hb. simpl. split_and!; try done. unfold bad_bounds in Hb.
    by destruct rev, st as [[]|], en as [[]|].
  - intros db. by exists newCLevelDBBatch.
  - intros key value [w] db. simpl. unfold cLevelDBBatch_Set. by destruct (len key =? 0), value, w.
  - intros key [w] db. simpl. unfold cLevelDBBatch_Delete. by destruct (len key =? 0), w.
  - intros sync [[w|]] db [H1 H2]; destruct sync; try done; simpl;
      unfold cLevelDBBatch_Write, cLevelDBBatch_WriteSync, mbind, M_bind;
      simpl; unfold on_cl, on_field; rewrite ?H1, ?H2;
      by destruct (lib_Write _ w (cl_db db)) as [[[]|e|msg|] d'].
  - intros [[w|]] db; by eexists.
  - intros db (d & H & _). unfold reply. simpl. unfold CLevelDB_Close, mbind, M_bind, attempt, on_cl, on_field.
    rewrite H. by eexists.
Defined.

#[global] Instance CLevelDB_contract : DBContract (CLevelDB_ops PropertyValue fuel).
Proof. refine (kv_backend_contract (Ok None) _ _). discriminate. Defined.

End cleveldb_correct.
