(* ===== verification/BackendThms.v ===== *)
(** * The goleveldb, rocksdb and cleveldb backends: theorems and instances *)

From S2P Require Import Prelude Go Util Spec Types Client BTree MemDB MemDBCorrect.
From S2P Require Import Path Cursor KVLib KVBackend GoLevelDB GoLevelDBCorrect RocksDB RocksDBCorrect CLevelDB CLevelDBCorrect.

Section theorems.
Context {D C W : Type} `{!CursorOps C, !CursorLaws C, !KVOps D C W}.

(** C6: for every library that behaves as documented, every program of a client on the
    goleveldb backend gets the answers of the abstract store; the library then
    holds the contents of that store. *)
Theorem GoLevelDB_refines `{!KVLaws D C W (Err ErrNotFound)} GetProperty fuel cs (db : GoLevelDB D) :
  lib_ok (gl_db db) → size (lib_model (gl_db db)) + weight cs < fuel →
  ∃ db', run_calls (GoLevelDB_ops GetProperty fuel) fuel cs db =
      ((spec_calls cs (lib_model (gl_db db))).1, db') ∧
    lib_ok (gl_db db') ∧ lib_model (gl_db db') = (spec_calls cs (lib_model (gl_db db))).2.
Proof.
  intros Hok Hfuel.
  destruct (run_calls_spec (DBContract0 := GoLevelDB_contract GetProperty fuel)
    (GoLevelDB_ops GetProperty fuel) fuel cs db) as (db' & Hrun & [_ Hok'] & Hm);
    [by split|by apply no_limits_fit|done|]. by exists db'.
Qed.

(** C7: the same for the rocksdb backend, as its constructor sets it up. *)
Theorem RocksDB_refines `{!KVLaws D C W (Ok None)} GetProperty fuel cs (d : D) :
  lib_ok d → size (lib_model d) + weight cs < fuel →
  let db := {| rk_db := d; rk_wo := NewDefaultWriteOptions;
               rk_woSync := RocksDB.SetSync true NewDefaultWriteOptions |} in
  ∃ db', run_calls (RocksDB_ops GetProperty fuel) fuel cs db =
      ((spec_calls cs (lib_model d)).1, db') ∧
    lib_ok (rk_db db') ∧ lib_model (rk_db db') = (spec_calls cs (lib_model d)).2.
Proof.
  intros Hok Hfuel db.
  destruct (run_calls_spec (DBContract0 := RocksDB_contract GetProperty fuel)
    (RocksDB_ops GetProperty fuel) fuel cs db) as (db' & Hrun & [_ Hok'] & Hm);
    [by split|by apply no_limits_fit|done|]. by exists db'.
Qed.

(** C8: the same for the cleveldb backend. *)
Theorem CLevelDB_refines `{!KVLaws D C W (Ok None)} PropertyValue fuel cs (d : D) :
  lib_ok d → size (lib_model d) + weight cs < fuel →
  let db := {| cl_db := d; cl_wo := NewWriteOptions;
               cl_woSync := CLevelDB.SetSync true NewWriteOptions |} in
  ∃ db', run_calls (CLevelDB_ops PropertyValue fuel) fuel cs db =
      ((spec_calls cs (lib_model d)).1, db') ∧
    lib_ok (cl_db db') ∧ lib_model (cl_db db') = (spec_calls cs (lib_model d)).2.
Proof.
  intros Hok Hfuel db.
  destruct (run_calls_spec (DBContract0 := CLevelDB_contract PropertyValue fuel)
    (CLevelDB_ops PropertyValue fuel) fuel cs db) as (db' & Hrun & [_ Hok'] & Hm);
    [by split|by apply no_limits_fit|done|]. by exists db'.
Qed.

(** MemDB and the goleveldb backend are interchangeable: started with the same
    contents, they give the same answers to every program. *)
Theorem memdb_goleveldb_agree `{!KVLaws D C W (Err ErrNotFound)} {T} `{!BTreeOps item T}
    `{!BTreeLaws (T := T) item_Less} GetProperty fuel cs (m : MemDB T) (g : GoLevelDB D) :
  MemDB_inv m → lib_ok (gl_db g) → MemDB_model m = lib_model (gl_db g) →
  size (MemDB_model m) + weight cs < fuel →
  (run_calls MemDB_ops fuel cs m).1 = (run_calls (GoLevelDB_ops GetProperty fuel) fuel cs g).1.
Proof.
  intros Hm Hg Heq Hfuel.
  destruct (run_calls_spec (DBContract0 := MemDB_contract) MemDB_ops fuel cs m Hm
    (no_limits_fit cs) Hfuel)
    as (m' & -> & _).
  destruct (run_calls_spec (DBContract0 := GoLevelDB_contract GetProperty fuel)
    (GoLevelDB_ops GetProperty fuel) fuel cs g) as (g' & -> & _); [by split|by apply no_limits_fit| |].
  - change (size (lib_model (gl_db g)) + weight cs < fuel). by rewrite <-Heq.
  - change ((spec_calls cs (MemDB_model m)).1 = (spec_calls cs (lib_model (gl_db g))).1).
    by rewrite Heq.
Qed.

(** What a backend does with an error of its library: it reaches the caller of
    every method, the methods with [Sync] call the library with the flag set,
    and a batch whose write failed keeps its operations and stays open.  The one
    error that is not passed on is [not_found]. *)
Definition passes_errors {S I B} `{!BatchOps S B} (ops : DBOps S I B) (handle : D → S) (open : W → B)
    (not_found : option error) : Prop :=
  ∀ (d d' : D) e key v w (sync : bool), data key ≠ [] →
  (lib_Get key d = (Err e, d') →
    let missing := bool_decide (Some e = not_found) in
    db_Get ops key (handle d) = (if missing then Ok None else Err e, handle d') ∧
    db_Has ops key (handle d) = (if missing then Ok false else Err e, handle d')) ∧
  (lib_Put sync key (Some v) d = (Err e, d') →
    (if sync then db_SetSync ops else db_Set ops) key (Some v) (handle d) = (Err e, handle d')) ∧
  (lib_Delete sync key d = (Err e, d') →
    (if sync then db_DeleteSync ops else db_Delete ops) key (handle d) = (Err e, handle d')) ∧
  (lib_Write sync w d = (Err e, d') →
    (if sync then b_WriteSync else b_Write) (open w, handle d) = (Err e, (open w, handle d'))).

(** The methods test the key, then call the library. *)
#[local] Ltac pass_errors :=
  intros d d' e key v w sync Hk;
  assert ((len key =? 0) = false) as Hlen by (apply Nat.eqb_neq; unfold len; by destruct (data key));
  repeat apply conj; intros H; [|destruct sync..]; try split;
  cbv -[lib_Get lib_Put lib_Delete lib_Write len Nat.eqb decide bool_decide ErrNotFound data];
  rewrite ?Hlen, ?H; try reflexivity.

Lemma GoLevelDB_passes_errors GetProperty fuel :
  passes_errors (GoLevelDB_ops GetProperty fuel) (λ d, {| gl_db := d |})
    (λ w, {| glb_batch := Some w |}) (Some ErrNotFound).
Proof. pass_errors. all: case_bool_decide; case_decide; simplify_eq; try done. Qed.

Lemma RocksDB_passes_errors GetProperty fuel :
  passes_errors (RocksDB_ops GetProperty fuel)
    (λ d, {| rk_db := d; rk_wo := NewDefaultWriteOptions;
             rk_woSync := RocksDB.SetSync true NewDefaultWriteOptions |})
    (λ w, {| rkb_batch := Some w |}) None.
Proof. pass_errors. Qed.

Lemma CLevelDB_passes_errors PropertyValue fuel :
  passes_errors (CLevelDB_ops PropertyValue fuel)
    (λ d, {| cl_db := d; cl_wo := NewWriteOptions; cl_woSync := CLevelDB.SetSync true NewWriteOptions |})
    (λ w, {| clb_batch := Some w |}) None.
Proof. pass_errors. Qed.

(** C26: errors of the library of the goleveldb, rocksdb and cleveldb backends, for
    every library and every way it may fail: they reach the caller unchanged,
    except that [leveldb.ErrNotFound] becomes a nil value; the [Sync] methods
    ask the library to sync and the others do not; a batch whose write failed
    stays open with its operations, so that the write can be tried again. *)
Theorem KV_backends_errors fuel :
  (∀ GetProperty, passes_errors (GoLevelDB_ops GetProperty fuel) (λ d, {| gl_db := d |})
    (λ w, {| glb_batch := Some w |}) (Some ErrNotFound)) ∧
  (∀ GetProperty, passes_errors (RocksDB_ops GetProperty fuel)
    (λ d, {| rk_db := d; rk_wo := NewDefaultWriteOptions;
             rk_woSync := RocksDB.SetSync true NewDefaultWriteOptions |})
    (λ w, {| rkb_batch := Some w |}) None) ∧
  (∀ PropertyValue, passes_errors (CLevelDB_ops PropertyValue fuel)
    (λ d, {| cl_db := d; cl_wo := NewWriteOptions; cl_woSync := CLevelDB.SetSync true NewWriteOptions |})
    (λ w, {| clb_batch := Some w |}) None).
Proof.
  repeat apply conj; intros prop;
    [apply GoLevelDB_passes_errors|apply RocksDB_passes_errors|apply CLevelDB_passes_errors].
Qed.

(** The branches of the goleveldb backend one by one. *)
Theorem GoLevelDB_errors (d d' : D) key v w e :
  data key ≠ [] → let db := {| gl_db := d |} in let db' := {| gl_db := d' |} in
  (lib_Get key d = (Err e, d') →
   GoLevelDB_Get key db = (if decide (e = ErrNotFound) then Ok None else Err e, db') ∧
   GoLevelDB_Has key db = (if decide (e = ErrNotFound) then Ok false else Err e, db')) ∧
  (lib_Put false key (Some v) d = (Err e, d') → GoLevelDB_Set key (Some v) db = (Err e, db')) ∧
  (lib_Delete false key d = (Err e, d') → GoLevelDB_Delete key db = (Err e, db')) ∧
  (lib_Write true w d = (Err e, d') →
   goLevelDBBatch_WriteSync ({| glb_batch := Some w |}, db) =
     (Err e, ({| glb_batch := Some w |}, db'))).
Proof.
  intros Hk db db'. assert ((len key =? 0) = false) as Hlen.
  { apply Nat.eqb_neq. unfold len. by destruct (data key). }
  assert (lib_Get key d = (Err e, d') →
    GoLevelDB_Get key db = (if decide (e = ErrNotFound) then Ok None else Err e, db')) as Hget.
  { intros H. unfold GoLevelDB_Get. rewrite Hlen. unfold mbind, M_bind, attempt, on_gl, on_field.
    simpl. rewrite H. by case_decide. }
  split_and!.
  - intros H. split; [by apply Hget|]. unfold GoLevelDB_Has, mbind, M_bind.
    rewrite (Hget H). by case_decide.
  - intros H. unfold GoLevelDB_Set, on_gl, on_field. rewrite Hlen. simpl. by rewrite H.
  - intros H. unfold GoLevelDB_Delete, on_gl, on_field. rewrite Hlen. simpl. by rewrite H.
  - intros H. unfold goLevelDBBatch_WriteSync, goLevelDBBatch_write, mbind, M_bind. simpl.
    unfold on_gl, on_field. simpl. by rewrite H.
Qed.

(** The options of the rocksdb backend: [SetSync], [DeleteSync] and [WriteSync] of a
    database from [NewRocksDBWithOptions] reach the library with [Sync] set, their
    counterparts without it. *)
Theorem RocksDB_sync {Options} (OpenDb : Options → string → result D) name dir opts
    (db : RocksDB D) key v w (b : rocksDBBatch W) :
  NewRocksDBWithOptions OpenDb name dir opts = Ok db → data key ≠ [] → rkb_batch b = Some w →
  (RocksDB_SetSync key (Some v) db).1 = (lib_Put true key (Some v) (rk_db db)).1 ∧
  (RocksDB_Set key (Some v) db).1 = (lib_Put false key (Some v) (rk_db db)).1 ∧
  (RocksDB_DeleteSync key db).1 = (lib_Delete true key (rk_db db)).1 ∧
  (RocksDB_Delete key db).1 = (lib_Delete false key (rk_db db)).1 ∧
  (rocksDBBatch_WriteSync (b, db)).1 = (lib_Write true w (rk_db db)).1 ∧
  (rocksDBBatch_Write (b, db)).1 = (lib_Write false w (rk_db db)).1.
Proof.
  intros Hnew Hk Hb. assert ((len key =? 0) = false) as Hlen.
  { apply Nat.eqb_neq. unfold len. by destruct (data key). }
  unfold NewRocksDBWithOptions in Hnew. destruct (OpenDb _ _) as [d| | |]; simplify_eq/=.
  unfold RocksDB_SetSync, RocksDB_Set, RocksDB_DeleteSync, RocksDB_Delete, rocksDBBatch_WriteSync,
    rocksDBBatch_Write. rewrite Hlen. simpl. destruct b as [w']. simpl in Hb. subst w'.
  unfold mbind, M_bind, on_rk, on_field. simpl. split_and!; simpl.
  - by destruct (lib_Put true key (Some v) d).
  - by destruct (lib_Put false key (Some v) d).
  - by destruct (lib_Delete true key d).
  - by destruct (lib_Delete false key d).
  - by destruct (lib_Write true w d) as [[[]|?|?|] ?].
  - by destruct (lib_Write false w d) as [[[]|?|?|] ?].
Qed.

End theorems.

(** ** Instances on the reference library *)

Definition backend_program : list call :=
  [CSet (Some [x62]) (Some [x02]); CSetSync (Some [x61]) (Some [x01]); CGet (Some [x7a]);
   CBatch [BSet (Some [x63]) (Some []); BDelete (Some [x62])] false;
   CScan None (Some [x63]) true; CScan (Some [x61]) None false].

Section goleveldb_instance.
Local Instance leveldb_ops : KVOps store RefKV.cursor (list write) := RefKV.kv_ops (Err ErrNotFound).
Local Instance leveldb_laws : KVLaws store RefKV.cursor (list write) (Err ErrNotFound) :=
  RefKV.kv_laws (Err ErrNotFound).

Definition no_property (name : string) : M store string := mret "".

Lemma GoLevelDB_refines_witness :
  ∃ db', run_calls (GoLevelDB_ops no_property 10) 10 backend_program {| gl_db := ∅ |} =
    ((spec_calls backend_program ∅).1, db') ∧ gl_db db' = (spec_calls backend_program ∅).2.
Proof.
  destruct (GoLevelDB_refines no_property 10 backend_program {| gl_db := ∅ |}) as (db' & H1 & _ & H2).
  - exact I.
  - simpl. rewrite map_size_empty. cbv. lia.
  - exists db'. exact (conj H1 H2).
Defined.

Lemma memdb_goleveldb_agree_witness :
  (run_calls (MemDB_ops (T := list item)) 10 backend_program NewMemDB).1 =
  (run_calls (GoLevelDB_ops no_property 10) 10 backend_program {| gl_db := ∅ |}).1.
Proof.
  apply (memdb_goleveldb_agree (T := list item) no_property 10 backend_program NewMemDB).
  - exact (proj1 NewMemDB_inv).
  - exact I.
  - exact (proj2 NewMemDB_inv).
  - rewrite (proj2 NewMemDB_inv), map_size_empty. cbv. lia.
Defined.

Lemma GoLevelDB_errors_witness :
  GoLevelDB_Get (Some [x61]) {| gl_db := ∅ |} = (Ok None, {| gl_db := ∅ |}).
Proof.
  refine (proj1 (proj1 (GoLevelDB_errors ∅ ∅ (Some [x61]) [] [] ErrNotFound _) _)).
  - discriminate.
  - unfold lib_Get. simpl. by rewrite lookup_empty.
Defined.

End goleveldb_instance.

Section rocksdb_instance.
Local Instance rocksdb_ops : KVOps store RefKV.cursor (list write) := RefKV.kv_ops (Ok None).
Local Instance rocksdb_laws : KVLaws store RefKV.cursor (list write) (Ok None) :=
  RefKV.kv_laws (Ok None).

Lemma RocksDB_refines_witness :
  ∃ db', run_calls (RocksDB_ops (λ _ _, "") 10) 10 backend_program
      {| rk_db := ∅; rk_wo := NewDefaultWriteOptions;
         rk_woSync := RocksDB.SetSync true NewDefaultWriteOptions |} =
    ((spec_calls backend_program ∅).1, db').
Proof.
  destruct (RocksDB_refines (λ _ _, "") 10 backend_program ∅) as (db' & H & _).
  - exact I.
  - simpl. rewrite map_size_empty. cbv. lia.
  - exists db'. exact H.
Defined.

Lemma CLevelDB_refines_witness :
  ∃ db', run_calls (CLevelDB_ops (λ _ _, "") 10) 10 backend_program
      {| cl_db := ∅; cl_wo := NewWriteOptions;
         cl_woSync := CLevelDB.SetSync true NewWriteOptions |} =
    ((spec_calls backend_program ∅).1, db').
Proof.
  destruct (CLevelDB_refines (λ _ _, "") 10 backend_program ∅) as (db' & H & _).
  - exact I.
  - simpl. rewrite map_size_empty. cbv. lia.
  - exists db'. exact H.
Defined.

(** A full disk: every write of the library fails. *)
Definition diskFull : error := errLib "os" "no space left on device".
Definition full_ops : KVOps store RefKV.cursor (list write) := {|
  lib_Get key m := (match m !! data key with Some v => Ok (Some v) | None => Ok None end, m);
  lib_Put _ _ _ := throw diskFull;
  lib_Delete _ _ := throw diskFull;
  lib_Write _ _ := throw diskFull;
  lib_NewIterator r m := RefKV.Cursor (entries m) None;
  lib_Close := mret tt;
  wb_New := [];
  wb_Put key value ws := ws ++ [WSet (data key) (data value)];
  wb_Delete key ws := ws ++ [WDelete (data key)];
  wb_Release _ := [];
|}.

Lemma KV_backends_errors_witness :
  let db := {| rk_db := (∅ : store); rk_wo := NewDefaultWriteOptions;
               rk_woSync := RocksDB.SetSync true NewDefaultWriteOptions |} in
  let b := {| rkb_batch := Some [WSet [x61] [x01]] |} in
  @rocksDBBatch_WriteSync _ _ _ full_ops (b, db) = (Err diskFull, (b, db)).
Proof.
  refine (proj2 (proj2 (proj2 (proj1 (proj2 (KV_backends_errors (KVOps0 := full_ops) 10)) (λ _ _, "") ∅ ∅ diskFull
    (Some [x61]) [] [WSet [x61] [x01]] true _))) _).
  - discriminate.
  - reflexivity.
Defined.

Lemma RocksDB_sync_witness :
  (RocksDB_SetSync (Some [x61]) (Some [x01])
     {| rk_db := ∅; rk_wo := NewDefaultWriteOptions;
        rk_woSync := RocksDB.SetSync true NewDefaultWriteOptions |}).1 =
  (lib_Put true (Some [x61]) (Some [x01]) (∅ : store)).1.
Proof.
  refine (proj1 (RocksDB_sync (λ (_ : unit) _, Ok ∅) "state" "/tmp" tt _ (Some [x61]) [x01] []
    {| rkb_batch := Some [] |} _ _ _)); [reflexivity|discriminate|reflexivity].
Defined.

End rocksdb_instance.
