(* ===== verification/BoltLib.v ===== *)
(** * The library bbolt (go.etcd.io/bbolt)

    [BoltOps] has the methods the backend calls: transactions are closures over
    a bucket, cursors return the pair they move to.  [BoltLaws] is their
    documented behaviour, for the bucket of the backend; [RefBolt] is a concrete
    library. *)

From S2P Require Import Prelude Go Util Spec Types Cursor.

(** The fields of [bbolt.Stats] the backend reports. *)
Record BoltStats := {
  FreePageN : Z; PendingPageN : Z; FreeAlloc : Z; FreelistInuse : Z; TxN : Z; OpenTxN : Z;
}.

(** A closure passed to [View], [Update] or [Batch] is a method of the
    transaction; the variables it assigns are its result. *)
Class BoltOps (D Tx Cu : Type) := {
  bolt_View {A} : M Tx A → M D A;
  bolt_Update : M Tx unit → M D unit;
  bolt_Batch : M Tx unit → M D unit;
  bolt_Begin : bool → M D Tx;
  bolt_Close : M D unit;
  bolt_Stats : D → BoltStats;
  tx_CreateBucketIfNotExists : bytes → M Tx unit;
  tx_Rollback : M Tx unit;
  bkt_Get : bytes → slice → M Tx slice;
  bkt_Put : bytes → slice → slice → M Tx unit;
  bkt_Delete : bytes → slice → M Tx unit;
  bkt_ForEach : bytes → Tx → list (slice * slice);
  bkt_Cursor : bytes → Tx → Cu;
  cu_First : Cu → (slice * slice) * Cu;
  cu_Last : Cu → (slice * slice) * Cu;
  cu_Seek : slice → Cu → (slice * slice) * Cu;
  cu_Next : Cu → (slice * slice) * Cu;
  cu_Prev : Cu → (slice * slice) * Cu;
}.

(** [MaxKeySize] and [MaxValueSize] *)
Definition MaxKeySize : Z := 32768%Z.
Definition MaxValueSize : Z := (Z.shiftl 1 31 - 2)%Z.
Definition bolt_fits (w : write) : Prop :=
  match w with
  | WSet k v => (Z.of_nat (length k) ≤ MaxKeySize)%Z ∧ (Z.of_nat (length v) ≤ MaxValueSize)%Z
  | WDelete _ => True
  end.
Definition bolt_limits : limits := {| fits_write := bolt_fits; fits_read _ := True; batch_limit := None |}.
Definition ErrKeyTooLarge : error := errLib "bbolt" "key too large".

(** A pair as the library returns it. *)
Definition pair_of (kv : entry) : slice * slice := (Some kv.1, Some kv.2).

(** What a cursor returns at position [i]; nil past the ends. *)
Definition pair_at (L : list entry) (p : option nat) : slice * slice :=
  match p ≫= λ i, L !! i with Some kv => pair_of kv | None => (None, None) end.

Class BoltLaws (D Tx Cu : Type) `{!BoltOps D Tx Cu} (bucket : bytes) := {
  bolt_ok : D → Prop;
  bolt_model : D → store;
  (** an open file, in which the bucket need not exist; it is then empty *)
  bolt_file : D → Prop;
  blaw_Create d : bolt_file d →
    reply (bolt_Update (tx_CreateBucketIfNotExists bucket)) d (Ok tt)
      (λ d', bolt_ok d' ∧ bolt_model d' = bolt_model d);
  tx_ok : Tx → Prop;
  tx_model : Tx → store;
  blaw_View {A} d (f : M Tx A) (r : result A) : bolt_ok d →
    (∀ tx, tx_ok tx → tx_model tx = bolt_model d → (f tx).1 = r) →
    reply (bolt_View f) d r (λ d', bolt_ok d' ∧ bolt_model d' = bolt_model d);
  blaw_Update d f m : bolt_ok d →
    (∀ tx, tx_ok tx → tx_model tx = bolt_model d → reply f tx (Ok tt) (λ tx', tx_ok tx' ∧ tx_model tx' = m)) →
    reply (bolt_Update f) d (Ok tt) (λ d', bolt_ok d' ∧ bolt_model d' = m);
  (** "if an error is returned then the entire transaction is rolled back" *)
  blaw_Update_Err d f e : bolt_ok d →
    (∀ tx, tx_ok tx → tx_model tx = bolt_model d → (f tx).1 = Err e) →
    reply (bolt_Update f) d (Err e) (λ d', bolt_ok d' ∧ bolt_model d' = bolt_model d);
  blaw_Batch d f m : bolt_ok d →
    (∀ tx, tx_ok tx → tx_model tx = bolt_model d → reply f tx (Ok tt) (λ tx', tx_ok tx' ∧ tx_model tx' = m)) →
    reply (bolt_Batch f) d (Ok tt) (λ d', bolt_ok d' ∧ bolt_model d' = m);
  blaw_Batch_Err d f e : bolt_ok d →
    (∀ tx, tx_ok tx → tx_model tx = bolt_model d → (f tx).1 = Err e) →
    reply (bolt_Batch f) d (Err e) (λ d', bolt_ok d' ∧ bolt_model d' = bolt_model d);
  blaw_Begin d : bolt_ok d →
    ∃ tx, reply (bolt_Begin false) d (Ok tx) (λ d', bolt_ok d' ∧ bolt_model d' = bolt_model d) ∧
      tx_ok tx ∧ tx_model tx = bolt_model d;
  blaw_Close d : bolt_ok d → reply bolt_Close d (Ok tt) (λ _, True);
  blaw_Rollback tx : tx_ok tx → reply tx_Rollback tx (Ok tt) (λ _, True);
  blaw_Get tx key : tx_ok tx → (bkt_Get bucket key tx).1 = Ok (tx_model tx !! data key);
  blaw_Put tx key v : tx_ok tx → data key ≠ [] → bolt_fits (WSet (data key) v) →
    reply (bkt_Put bucket key (Some v)) tx (Ok tt)
      (λ tx', tx_ok tx' ∧ tx_model tx' = <[data key := v]> (tx_model tx));
  blaw_Put_large tx key v : tx_ok tx → (MaxKeySize < Z.of_nat (len key))%Z →
    (bkt_Put bucket key (Some v) tx).1 = Err ErrKeyTooLarge;
  blaw_Delete tx key : tx_ok tx →
    reply (bkt_Delete bucket key) tx (Ok tt)
      (λ tx', tx_ok tx' ∧ tx_model tx' = delete (data key) (tx_model tx));
  blaw_ForEach tx : tx_ok tx → bkt_ForEach bucket tx = pair_of <$> entries (tx_model tx);
  (** a cursor over [L], at the [i]-th pair; [length L] is the position after a
      [Seek] that found no pair *)
  cu_over : Cu → list entry → Prop;
  cu_at : Cu → list entry → nat → Prop;
  blaw_Cursor tx : tx_ok tx → cu_over (bkt_Cursor bucket tx) (entries (tx_model tx));
  blaw_at_over cu L i : cu_at cu L i → cu_over cu L;
  blaw_First cu L : cu_over cu L →
    (cu_First cu).1 = pair_at L (first_pos L) ∧ cu_over (cu_First cu).2 L ∧
    (L ≠ [] → cu_at (cu_First cu).2 L 0);
  blaw_Last cu L : cu_over cu L →
    (cu_Last cu).1 = pair_at L (last_pos L) ∧ cu_over (cu_Last cu).2 L ∧
    (L ≠ [] → cu_at (cu_Last cu).2 L (length L - 1));
  blaw_Seek cu L k : cu_over cu L →
    (cu_Seek k cu).1 = pair_at L (seek_pos L (data k)) ∧
    cu_at (cu_Seek k cu).2 L (default (length L) (seek_pos L (data k)));
  blaw_Next cu L i : cu_at cu L i → i < length L →
    (cu_Next cu).1 = pair_at L (next_pos L i) ∧ cu_over (cu_Next cu).2 L ∧
    ∀ j, next_pos L i = Some j → cu_at (cu_Next cu).2 L j;
  blaw_Prev cu L i : cu_at cu L i →
    (cu_Prev cu).1 = pair_at L (prev_pos i) ∧ cu_over (cu_Prev cu).2 L ∧
    ∀ j, prev_pos i = Some j → cu_at (cu_Prev cu).2 L j;
}.

(** ** A concrete library

    A database is a map from bucket names to buckets, a transaction works on a
    copy of it; the methods of a bucket that does not exist panic (the source
    calls them on the nil [tx.Bucket] returns). *)

Module RefBolt.

Abbreviation db := (gmap bytes store).
Abbreviation cursor := (list entry * nat)%type.

Definition nil_bucket : string := "invalid memory address or nil pointer dereference".
Definition ErrKeyRequired : error := errLib "bbolt" "key required".
Definition ErrValueTooLarge : error := errLib "bbolt" "value too large".

(** A method of the bucket [b]. *)
Definition in_bucket {A} (b : bytes) (f : store → result A * store) : M db A := λ d,
  match d !! b with
  | None => (Panic nil_bucket, d)
  | Some m => let '(r, m) := f m in (r, <[b := m]> d)
  end.

(** Commit when the closure returns nil, roll back otherwise. *)
Definition transact (f : M db unit) : M db unit := λ d,
  match f d with (Ok _, d') => (Ok tt, d') | (r, _) => (r, d) end.

Definition put_pair (key value : slice) (m : store) : result unit * store :=
  if len key =? 0 then (Err ErrKeyRequired, m)
  else if (MaxKeySize <? Z.of_nat (len key))%Z then (Err ErrKeyTooLarge, m)
  else if (MaxValueSize <? Z.of_nat (len value))%Z then (Err ErrValueTooLarge, m)
  else (Ok tt, <[data key := data value]> m).

Definition no_stats : BoltStats := Build_BoltStats 0 0 0 0 0 0.

#[global] Instance ops : BoltOps db db cursor := {|
  bolt_View _ f d := ((f d).1, d);
  bolt_Update := transact;
  bolt_Batch := transact;
  bolt_Begin _ d := (Ok d, d);
  bolt_Close := mret tt;
  bolt_Stats _ := no_stats;
  tx_CreateBucketIfNotExists b d := (Ok tt, <[b := default ∅ (d !! b)]> d);
  tx_Rollback := mret tt;
  bkt_Get b key := in_bucket b (λ m, (Ok (m !! data key), m));
  bkt_Put b key value := in_bucket b (put_pair key value);
  bkt_Delete b key := in_bucket b (λ m, (Ok tt, delete (data key) m));
  bkt_ForEach b d := pair_of <$> entries (default ∅ (d !! b));
  bkt_Cursor b d := (entries (default ∅ (d !! b)), 0);
  cu_First c := (pair_at c.1 (first_pos c.1), (c.1, 0));
  cu_Last c := (pair_at c.1 (last_pos c.1), (c.1, length c.1 - 1));
  cu_Seek k c := let p := seek_pos c.1 (data k) in (pair_at c.1 p, (c.1, default (length c.1) p));
  cu_Next c := let p := next_pos c.1 c.2 in (pair_at c.1 p, (c.1, default c.2 p));
  cu_Prev c := let p := prev_pos c.2 in (pair_at c.1 p, (c.1, default 0 p));
|}.

Definition contents (b : bytes) (d : db) : store := default ∅ (d !! b).

Lemma in_bucket_reply {A} (b : bytes) (f : store → result A * store) (d : db) :
  is_Some (d !! b) →
  reply (in_bucket b f) d (f (contents b d)).1
    (λ d', is_Some (d' !! b) ∧ contents b d' = (f (contents b d)).2).
Proof.
  intros [m Hm]. unfold reply, in_bucket, contents. rewrite Hm. simpl.
  destruct (f m) as [r m']. eexists. split; [done|]. simpl. by rewrite lookup_insert_eq.
Qed.

Lemma transact_Ok (b : bytes) (f : M db unit) (d : db) (m : store) :
  is_Some (d !! b) →
  (∀ tx : db, is_Some (tx !! b) → contents b tx = contents b d →
    reply f tx (Ok tt) (λ tx', is_Some (tx' !! b) ∧ contents b tx' = m)) →
  reply (transact f) d (Ok tt) (λ d', is_Some (d' !! b) ∧ contents b d' = m).
Proof.
  intros Hd Hf. destruct (Hf d Hd eq_refl) as (d' & H & ?). exists d'.
  unfold transact. by rewrite H.
Qed.

Lemma transact_Err (b : bytes) (f : M db unit) (d : db) (e : error) :
  is_Some (d !! b) →
  (∀ tx : db, is_Some (tx !! b) → contents b tx = contents b d → (f tx).1 = Err e) →
  reply (transact f) d (Err e) (λ d', is_Some (d' !! b) ∧ contents b d' = contents b d).
Proof.
  intros Hd Hf. exists d. specialize (Hf d Hd eq_refl). unfold transact.
  destruct (f d) as [r d']. simpl in Hf. by subst.
Qed.

Definition laws (b : bytes) : BoltLaws db db cursor b.
Proof.
  refine {| bolt_ok (d : db) := is_Some (d !! b); tx_ok (d : db) := is_Some (d !! b);
            bolt_file _ := True; bolt_model := contents b; tx_model := contents b;
            cu_over (c : cursor) L := c.1 = L; cu_at (c : cursor) L i := c = (L, i) |}.
  - intros d _. eexists. split; [done|]. unfold contents. by rewrite lookup_insert_eq.
  - intros A d f r Hd Hf. exists d. simpl. by rewrite (Hf d Hd eq_refl).
  - intros d f m. by apply transact_Ok.
  - intros d f e. by apply transact_Err.
  - intros d f m. by apply transact_Ok.
  - intros d f e. by apply transact_Err.
  - intros d Hd. exists d. split; [by exists d|done].
  - intros d _. by apply reply_ret.
  - intros d _. by apply reply_ret.
  - intros d key Hd. by destruct (in_bucket_reply b (λ m, (Ok (m !! data key), m)) d Hd)
      as (d' & H & _); simpl; rewrite H.
  - intros d key v Hd Hk [Hlk Hlv].
    assert (put_pair key (Some v) (contents b d) = (Ok tt, <[data key:=v]> (contents b d))) as Hp.
    { unfold put_pair. assert ((len key =? 0) = false) as ->.
      { apply Nat.eqb_neq. unfold len. by destruct (data key). }
      change (len (Some v)) with (length v). unfold len.
      by rewrite (proj2 (Z.ltb_ge _ _) Hlk), (proj2 (Z.ltb_ge _ _) Hlv). }
    pose proof (in_bucket_reply b (put_pair key (Some v)) d Hd) as H. by rewrite Hp in H.
  - intros d key v Hd Hl. destruct (in_bucket_reply b (put_pair key (Some v)) d Hd) as (d' & H & _).
    simpl. rewrite H. simpl. unfold put_pair. rewrite (proj2 (Z.ltb_lt _ _) Hl).
    destruct (len key =? 0) eqn:Hk; [|done]. apply Nat.eqb_eq in Hk. rewrite Hk in Hl. done.
  - intros d key Hd. exact (in_bucket_reply b (λ m, (Ok tt, delete (data key) m)) d Hd).
  - done.
  - done.
  - by intros c L i ->.
  - by intros c L <-.
  - by intros c L <-.
  - by intros c L k <-.
  - intros c L i -> _. simpl. split_and!; [done|done|]. by intros j ->.
  - intros c L i ->. simpl. split_and!; [done|done|]. by intros j ->.
Defined.

End RefBolt.
