(* ===== verification/BoltDB.v ===== *)
(** * boltdb.go, boltdb_batch.go, boltdb_iterator.go

    The backend over go.etcd.io/bbolt, for every library that has the methods
    of [BoltOps]. *)

From S2P Require Import Prelude Go Util Spec Types MemDB Path Cursor BoltLib.

(** [var bucket = []byte("tm")] *)
Definition bucket : bytes := [x74; x6d].

Section boltdb.
Context {D Tx Cu : Type} `{!BoltOps D Tx Cu}.
(** [bbolt.Options] with its field [ReadOnly], [bbolt.DefaultOptions] and
    [bbolt.Open]; how [fmt] prints the statistics. *)
Context {Options : Type} (ReadOnly : Options → bool) (DefaultOptions : Options)
  (Open : string → Options → result D) (fmt_stats : BoltStats → string).

(** [type BoltDB struct] *)
Record BoltDB := { bo_db : D }.
Definition on_bo {A} : M D A → M BoltDB A := on_field bo_db (λ d _, {| bo_db := d |}).

Definition NewBoltDBWithOpts (name dir : string) (opts : Options) : result BoltDB :=
  if ReadOnly opts then Err (errorsNew "ReadOnly: true is not supported")
  else
    let dbPath := filepath_Join [dir; (name +:+ ".db")%string] in
    match Open dbPath opts with
    | Ok db =>
        let '(r, db) := bolt_Update (tx_CreateBucketIfNotExists bucket) db in
        result_map (λ _, {| bo_db := db |}) r
    | Err err => Err err
    | Panic msg => Panic msg
    | Diverge => Diverge
    end.

Definition NewBoltDB (name dir : string) : result BoltDB := NewBoltDBWithOpts name dir DefaultOptions.

(** ** Database methods *)

Definition BoltDB_Get (key : slice) : M BoltDB slice :=
  if len key =? 0 then throw errKeyEmpty
  else on_bo (bolt_View (v ← bkt_Get bucket key;
                         mret (if is_nil v then None else append (Some []) v))).

Definition BoltDB_Has (key : slice) : M BoltDB bool :=
  bytes ← BoltDB_Get key; mret (negb (is_nil bytes)).

Definition BoltDB_Set (key value : slice) : M BoltDB unit :=
  if len key =? 0 then throw errKeyEmpty
  else if is_nil value then throw errValueNil
  else on_bo (bolt_Update (bkt_Put bucket key value)).

Definition BoltDB_SetSync (key value : slice) : M BoltDB unit := BoltDB_Set key value.

Definition BoltDB_Delete (key : slice) : M BoltDB unit :=
  if len key =? 0 then throw errKeyEmpty
  else on_bo (bolt_Update (bkt_Delete bucket key)).

Definition BoltDB_DeleteSync (key : slice) : M BoltDB unit := BoltDB_Delete key.

Definition BoltDB_Close : M BoltDB unit := on_bo bolt_Close.

Definition BoltDB_Print : M BoltDB (list string) :=
  db ← get;
  lines ← on_bo (bolt_View (tx ← get;
    mret ((λ kv, print_line kv.1 kv.2) <$> bkt_ForEach bucket tx)));
  mret ((fmt_stats (bolt_Stats (bo_db db)) +:+ newline)%string :: lines).

Definition BoltDB_Stats : M BoltDB (gmap string string) :=
  db ← get;
  let stats := bolt_Stats (bo_db db) in
  mret (<["OpenTxN" := pretty (OpenTxN stats)]> (<["TxN" := pretty (TxN stats)]>
       (<["FreelistInuse" := pretty (FreelistInuse stats)]> (<["FreeAlloc" := pretty (FreeAlloc stats)]>
       (<["PendingPageN" := pretty (PendingPageN stats)]>
       (<["FreePageN" := pretty (FreePageN stats)]> ∅)))))).

(** ** Batches *)

(** [type boltDBBatch struct]; [None] is the nil [ops] of a closed batch. *)
Record boltDBBatch := { bob_ops : option (list operation) }.

Definition newBoltDBBatch : boltDBBatch := {| bob_ops := Some [] |}.

Definition boltDBBatch_Set (key value : slice) : M boltDBBatch unit :=
  if len key =? 0 then throw errKeyEmpty
  else if is_nil value then throw errValueNil
  else
    b ← get;
    match bob_ops b with
    | None => throw errBatchClosed
    | Some l =>
        put {| bob_ops := Some (l ++ [{| op_type := opTypeSet; op_key := key; op_value := value |}]) |}
    end.

Definition boltDBBatch_Delete (key : slice) : M boltDBBatch unit :=
  if len key =? 0 then throw errKeyEmpty
  else
    b ← get;
    match bob_ops b with
    | None => throw errBatchClosed
    | Some l =>
        put {| bob_ops := Some (l ++ [{| op_type := opTypeDelete; op_key := key; op_value := None |}]) |}
    end.

Definition boltDBBatch_Close : M boltDBBatch unit := put {| bob_ops := None |}.

(** [for _, op := range b.ops { switch op.opType ... }]; no default case *)
Fixpoint bolt_write_ops (l : list operation) : M Tx unit :=
  match l with
  | [] => mret tt
  | op :: l =>
      _ ← (if (op_type op =? opTypeSet)%Z then bkt_Put bucket (op_key op) (op_value op)
           else if (op_type op =? opTypeDelete)%Z then bkt_Delete bucket (op_key op)
           else mret tt);
      bolt_write_ops l
  end.

Definition boltDBBatch_Write : M (boltDBBatch * BoltDB) unit :=
  bs ← get;
  match bob_ops bs.1 with
  | None => throw errBatchClosed
  | Some l => _ ← on_snd (on_bo (bolt_Batch (bolt_write_ops l))); on_fst boltDBBatch_Close
  end.

Definition boltDBBatch_WriteSync : M (boltDBBatch * BoltDB) unit := boltDBBatch_Write.

Definition BoltDB_NewBatch : M BoltDB boltDBBatch := mret newBoltDBBatch.

#[global] Instance boltDBBatch_ops : BatchOps BoltDB boltDBBatch := {|
  b_Set key value := on_fst (boltDBBatch_Set key value);
  b_Delete key := on_fst (boltDBBatch_Delete key);
  b_Write := boltDBBatch_Write;
  b_WriteSync := boltDBBatch_WriteSync;
  b_Close := on_fst boltDBBatch_Close;
|}.

(** ** Iterators *)

(** [type boltDBIterator struct] *)
Record boltDBIterator := {
  boi_tx : Tx;
  boi_itr : Cu;
  boi_start : slice;
  boi_end : slice;
  boi_currentKey : slice;
  boi_currentValue : slice;
  boi_isInvalid : bool;
  boi_isReverse : bool;
}.

Definition newBoltDBIterator (tx : Tx) (start end_ : slice) (isReverse : bool) : boltDBIterator :=
  let itr := bkt_Cursor bucket tx in
  let '((ck, cv), itr) :=
    if isReverse then
      match end_ with
      | None => cu_Last itr
      | Some _ => let '(_, itr) := cu_Seek end_ itr in cu_Prev itr
      end
    else
      match start with
      | None => cu_First itr
      | Some _ => cu_Seek start itr
      end in
  {| boi_tx := tx; boi_itr := itr; boi_start := start; boi_end := end_;
     boi_currentKey := ck; boi_currentValue := cv;
     boi_isInvalid := false; boi_isReverse := isReverse |}.

Definition boltDBIterator_Domain (itr : boltDBIterator) : slice * slice :=
  (boi_start itr, boi_end itr).

Definition boltDBIterator_Error (itr : boltDBIterator) : option error := None.

Definition boi_invalidate (itr : boltDBIterator) : boltDBIterator :=
  {| boi_tx := boi_tx itr; boi_itr := boi_itr itr; boi_start := boi_start itr; boi_end := boi_end itr;
     boi_currentKey := boi_currentKey itr; boi_currentValue := boi_currentValue itr;
     boi_isInvalid := true; boi_isReverse := boi_isReverse itr |}.

(** [itr.currentKey, itr.currentValue = ...] *)
Definition boi_assign (kvc : (slice * slice) * Cu) (itr : boltDBIterator) : boltDBIterator :=
  {| boi_tx := boi_tx itr; boi_itr := kvc.2; boi_start := boi_start itr; boi_end := boi_end itr;
     boi_currentKey := kvc.1.1; boi_currentValue := kvc.1.2;
     boi_isInvalid := boi_isInvalid itr; boi_isReverse := boi_isReverse itr |}.

Definition boltDBIterator_Valid : M boltDBIterator bool :=
  itr ← get;
  if boi_isInvalid itr then mret false
  else match boltDBIterator_Error itr with
  | Some _ => _ ← modify boi_invalidate; mret false
  | None =>
      if is_nil (boi_currentKey itr) then _ ← modify boi_invalidate; mret false
      else if boi_isReverse itr then
        if negb (is_nil (boi_start itr)) && (bytes_Compare (boi_currentKey itr) (boi_start itr) <? 0)%Z
        then _ ← modify boi_invalidate; mret false
        else mret true
      else
        if negb (is_nil (boi_end itr)) && (bytes_Compare (boi_end itr) (boi_currentKey itr) <=? 0)%Z
        then _ ← modify boi_invalidate; mret false
        else mret true
  end.

Definition boltDBIterator_assertIsValid : M boltDBIterator unit :=
  v ← boltDBIterator_Valid;
  if (v : bool) then mret tt else panic "iterator is invalid".

Definition boltDBIterator_Next : M boltDBIterator unit :=
  _ ← boltDBIterator_assertIsValid;
  itr ← get;
  if boi_isReverse itr then put (boi_assign (cu_Prev (boi_itr itr)) itr)
  else put (boi_assign (cu_Next (boi_itr itr)) itr).

Definition boltDBIterator_Key : M boltDBIterator slice :=
  _ ← boltDBIterator_assertIsValid;
  itr ← get; mret (append (Some []) (boi_currentKey itr)).

Definition boltDBIterator_Value : M boltDBIterator slice :=
  _ ← boltDBIterator_assertIsValid;
  itr ← get;
  mret (if is_nil (boi_currentValue itr) then None else append (Some []) (boi_currentValue itr)).

Definition boltDBIterator_Close : M boltDBIterator unit :=
  on_field boi_tx (λ tx itr,
    {| boi_tx := tx; boi_itr := boi_itr itr; boi_start := boi_start itr; boi_end := boi_end itr;
       boi_currentKey := boi_currentKey itr; boi_currentValue := boi_currentValue itr;
       boi_isInvalid := boi_isInvalid itr; boi_isReverse := boi_isReverse itr |}) tx_Rollback.

#[global] Instance boltDBIterator_ops : IteratorOps boltDBIterator := {|
  it_Domain := boltDBIterator_Domain;
  it_Valid := boltDBIterator_Valid;
  it_Next := boltDBIterator_Next;
  it_Key := boltDBIterator_Key;
  it_Value := boltDBIterator_Value;
  it_Error := boltDBIterator_Error;
  it_Close := boltDBIterator_Close;
|}.

Definition BoltDB_Iterator (start end_ : slice) : M BoltDB boltDBIterator :=
  if (negb (is_nil start) && (len start =? 0)) || (negb (is_nil end_) && (len end_ =? 0))
  then throw errKeyEmpty
  else tx ← on_bo (bolt_Begin false); mret (newBoltDBIterator tx start end_ false).

Definition BoltDB_ReverseIterator (start end_ : slice) : M BoltDB boltDBIterator :=
  if (negb (is_nil start) && (len start =? 0)) || (negb (is_nil end_) && (len end_ =? 0))
  then throw errKeyEmpty
  else tx ← on_bo (bolt_Begin false); mret (newBoltDBIterator tx start end_ true).

Definition BoltDB_ops : DBOps BoltDB boltDBIterator boltDBBatch := {|
  db_Get := BoltDB_Get;
  db_Has := BoltDB_Has;
  db_Set := BoltDB_Set;
  db_SetSync := BoltDB_SetSync;
  db_Delete := BoltDB_Delete;
  db_DeleteSync := BoltDB_DeleteSync;
  db_Iterator := BoltDB_Iterator;
  db_ReverseIterator := BoltDB_ReverseIterator;
  db_Close := BoltDB_Close;
  db_NewBatch := BoltDB_NewBatch;
  db_Print := BoltDB_Print;
  db_Stats := BoltDB_Stats;
|}.

End boltdb.
Arguments BoltDB : clear implicits.
Arguments boltDBIterator : clear implicits.
