(* ===== verification/BoltDBCorrect.v ===== *)
(** * The bbolt backend meets the contract of a database

    For every library that behaves as [BoltLaws] says, and for the keys and
    values the library can store.  A write that is too large is handed back as
    the error of the library and leaves the database as it was. *)

From S2P Require Import Prelude Go Util Spec Types Client MemDB MemDBCorrect Cursor BoltLib BoltDB.

Section boltdb_correct.
Context {D Tx Cu : Type} `{!BoltOps D Tx Cu, !BoltLaws D Tx Cu bucket}.
Context (fmt_stats : BoltStats → string).

(** ** Cursors

    The methods of a bbolt cursor return the pair they move to and the iterator
    keeps it: together they are a cursor in the sense of [CursorLaws]. *)

Definition held : Type := Cu * (slice * slice).
Definition hold (r : (slice * slice) * Cu) : held := (r.2, r.1).

#[global] Instance held_ops : CursorOps held := {|
  cur_First c := hold (cu_First c.1);
  cur_Last c := hold (cu_Last c.1);
  cur_Seek k c := hold (cu_Seek k c.1);
  cur_Next c := hold (cu_Next c.1);
  cur_Prev c := hold (cu_Prev c.1);
  cur_Valid c := negb (is_nil c.2.1);
  cur_Key c := c.2.1;
  cur_Value c := c.2.2;
  cur_Err _ := None;
  cur_Release c := c;
|}.

Definition held_at (c : held) (L : list entry) (p : option nat) : Prop :=
  cu_over c.1 L ∧ c.2 = pair_at L p ∧
  match p with Some i => cu_at c.1 L i ∧ i < length L | None => True end.

Lemma held_at_intro (r : (slice * slice) * Cu) L p :
  r.1 = pair_at L p → cu_over r.2 L → (∀ j, p = Some j → cu_at r.2 L j ∧ j < length L) →
  held_at (hold r) L p.
Proof. intros Hp Ho Hj. split_and!; [done|done|]. destruct p; [by apply Hj|done]. Qed.

Lemma held_pair c L i kv : held_at c L (Some i) → L !! i = Some kv → c.2 = pair_of kv.
Proof. intros (_ & -> & _) Hkv. unfold pair_at. simpl. by rewrite Hkv. Qed.

Lemma held_Seek cu L k :
  cu_over cu L → held_at (hold (cu_Seek k cu)) L (seek_pos L (data k)).
Proof.
  intros Hc. destruct (blaw_Seek cu L k Hc) as [Hp Hat].
  apply held_at_intro; [done|by eapply blaw_at_over|].
  intros j Hj. rewrite Hj in Hat. split; [done|].
  apply seek_Some in Hj as (kv & Hi & _). by apply lookup_lt_Some in Hi.
Qed.

Lemma held_Prev cu L i :
  cu_at cu L i → i ≤ length L → held_at (hold (cu_Prev cu)) L (prev_pos i).
Proof.
  intros Hat Hi. destruct (blaw_Prev cu L i Hat) as (Hp & Ho & Hj).
  apply held_at_intro; [done|done|]. intros j E. split; [by apply Hj|].
  destruct i; simplify_eq/=. lia.
Qed.

Lemma held_First cu L : cu_over cu L → held_at (hold (cu_First cu)) L (first_pos L).
Proof.
  intros Hc. destruct (blaw_First cu L Hc) as (Hp & Ho & Hj).
  apply held_at_intro; [done|done|]. intros j E. destruct L; simplify_eq/=.
  split; [by apply Hj|lia].
Qed.

Lemma held_Last cu L : cu_over cu L → held_at (hold (cu_Last cu)) L (last_pos L).
Proof.
  intros Hc. destruct (blaw_Last cu L Hc) as (Hp & Ho & Hj).
  apply held_at_intro; [done|done|]. intros j E. destruct L; [done|]. injection E as <-.
  split; [by apply Hj|simpl; lia].
Qed.

#[global, refine] Instance held_laws : CursorLaws held := {|
  cur_over c L := cu_over c.1 L;
  cur_at := held_at;
|}.
Proof.
  - by intros c L p (? & _).
  - by intros c L i (_ & _ & _ & ?).
  - intros c L. apply held_First.
  - intros c L. apply held_Last.
  - intros c L k. apply held_Seek.
  - intros c L i (_ & _ & Hat & Hi). destruct (blaw_Next _ L i Hat Hi) as (Hp & Ho & Hj).
    apply held_at_intro; [done|done|]. intros j E. split; [by apply Hj|].
    unfold next_pos in E. case_decide; by simplify_eq.
  - intros c L i (_ & _ & Hat & Hi). apply held_Prev; [done|lia].
  - intros c L p (_ & Hp & Hi). simpl. rewrite Hp. unfold pair_at. destruct p as [i|]; simpl.
    + destruct Hi as [_ Hi]. apply lookup_lt_is_Some_2 in Hi as [kv ->]. done.
    + done.
  - intros c L i kv Hc Hkv. simpl. by rewrite (held_pair c L i kv Hc Hkv).
  - intros c L i kv Hc Hkv. simpl. by rewrite (held_pair c L i kv Hc Hkv).
  - done.
Defined.

(** ** Iterators *)

Abbreviation iter := (boltDBIterator Tx Cu).

Definition boi_held (itr : iter) : held :=
  (boi_itr itr, (boi_currentKey itr, boi_currentValue itr)).
Definition boi_usable (itr : iter) : bool :=
  usable (boi_isInvalid itr) (boi_held itr) (boi_start itr) (boi_end itr) (boi_isReverse itr).

Lemma boi_held_assign r (itr : iter) : boi_held (boi_assign r itr) = hold r.
Proof. by destruct r as [[??]?]. Qed.

(** The iterator after [Valid]. *)
Definition boi_check (itr : iter) : iter :=
  if boi_usable itr || boi_isInvalid itr then itr else boi_invalidate itr.

Lemma boi_check_usable itr : boi_usable itr = true → boi_check itr = itr.
Proof. unfold boi_check. by intros ->. Qed.

Lemma boi_check_to itr :
  boi_held (boi_check itr) = boi_held itr ∧ boi_start (boi_check itr) = boi_start itr ∧
  boi_end (boi_check itr) = boi_end itr ∧ boi_isReverse (boi_check itr) = boi_isReverse itr ∧
  (tx_ok (boi_tx itr) → tx_ok (boi_tx (boi_check itr))) ∧
  (boi_isInvalid (boi_check itr) = boi_isInvalid itr ∨
   boi_isInvalid (boi_check itr) = true ∧ boi_usable itr = false).
Proof.
  unfold boi_check. destruct (boi_usable itr) eqn:E; simpl; [by auto 10|].
  destruct (boi_isInvalid itr) eqn:E'; simpl; auto 10.
Qed.

Lemma boltDBIterator_Valid_eq (itr : iter) :
  boltDBIterator_Valid itr = (Ok (boi_usable itr), boi_check itr).
Proof.
  unfold boi_check. destruct itr as [tx c s e ck cv d r]. unfold boi_usable, usable, boltDBIterator_Valid, mbind, M_bind.
  simpl. destruct d; [done|]. simpl. destruct ck as [ck|]; [|done]. simpl.
  destruct r; by destruct (negb _ && _).
Qed.

Lemma boltDBIterator_assert_eq (itr : iter) :
  boltDBIterator_assertIsValid itr =
    (if boi_usable itr then Ok tt else Panic invalid_msg, boi_check itr).
Proof.
  unfold boltDBIterator_assertIsValid, mbind, M_bind. rewrite boltDBIterator_Valid_eq.
  by destruct (boi_usable itr).
Qed.

#[global, refine] Instance boltDBIterator_wrapper : CursorWrapper held iter := {|
  cw_src := boi_held;
  cw_start := boi_start;
  cw_end := boi_end;
  cw_rev := boi_isReverse;
  cw_dead := boi_isInvalid;
  cw_ok it := tx_ok (boi_tx it);
  cw_copyK := append (Some []);
  cw_copyV v := if is_nil v then None else append (Some []) v;
|}.
Proof.
  - done.
  - done.
  - done.
  - done.
  - intros it _. eexists. split; [by apply boltDBIterator_Valid_eq|apply boi_check_to].
  - intros it _. eapply guarded; [by apply boltDBIterator_assert_eq| |by intros; apply boi_check_to].
    intros Hu. rewrite boi_check_usable by done.
    exists (boi_assign ((if boi_isReverse it then cu_Prev else cu_Next) (boi_itr it)) it).
    split; [unfold mbind, M_bind; simpl; by destruct (boi_isReverse it)|].
    split; [|by auto 10]. rewrite boi_held_assign. unfold move. by destruct (boi_isReverse it).
  - intros it _. eapply guarded; [by apply boltDBIterator_assert_eq| |by intros; apply boi_check_to].
    intros Hu. rewrite boi_check_usable by done.
    exists it. auto 10.
  - intros it _. eapply guarded; [by apply boltDBIterator_assert_eq| |by intros; apply boi_check_to].
    intros Hu. rewrite boi_check_usable by done.
    exists it. auto 10.
  - intros it Hok. destruct (blaw_Rollback _ Hok) as (tx' & H & _).
    eexists. split; [|done]. simpl. unfold boltDBIterator_Close, on_field. by rewrite H.
Defined.

Lemma prev_pos_length (L : list entry) : prev_pos (length L) = last_pos L.
Proof. destruct L; simpl; [done|]. by rewrite Nat.sub_0_r. Qed.

(** [Seek(end)] and [Prev] reach the last pair before [end]. *)
Lemma held_seek_prev cu L e :
  cu_over cu L →
  held_at (hold (cu_Prev (cu_Seek (Some e) cu).2)) L
    (match seek_pos L e with Some i => prev_pos i | None => last_pos L end).
Proof.
  intros Hc. destruct (blaw_Seek cu L (Some e) Hc) as [_ Hat]. simpl in Hat.
  destruct (seek_pos L e) as [i|] eqn:Hs; simpl in Hat.
  - apply seek_Some in Hs as (kv & Hi%lookup_lt_Some & _). apply held_Prev; [done|lia].
  - rewrite <-prev_pos_length. by apply held_Prev.
Qed.

Lemma newBoltDBIterator_held tx s e rev :
  boi_held (newBoltDBIterator tx s e rev) = hold
    (let itr := bkt_Cursor bucket tx in
     if rev then match e with None => cu_Last itr | Some _ => cu_Prev (cu_Seek e itr).2 end
     else match s with None => cu_First itr | Some _ => cu_Seek s itr end).
Proof.
  unfold newBoltDBIterator, hold, boi_held. destruct rev; [destruct e|destruct s]; simpl;
    [destruct (cu_Seek _ _) as [? cu]; simpl; destruct (cu_Prev cu)|..];
    repeat case_match; by simplify_eq/=.
Qed.

Lemma newBoltDBIterator_spec tx s e rev :
  tx_ok tx → wrap_rep (newBoltDBIterator tx s e rev) s e (scan (tx_model tx) s e rev).
Proof.
  intros Htx. change (scan (tx_model tx) s e rev) with (domain_of (entries (tx_model tx)) s e rev).
  pose proof (blaw_Cursor tx Htx) as Hc. pose proof (entries_sorted (tx_model tx)) as HL.
  set (L := entries (tx_model tx)) in *.
  assert (∃ ck cv itr, newBoltDBIterator tx s e rev = {| boi_tx := tx; boi_itr := itr; boi_start := s;
    boi_end := e; boi_currentKey := ck; boi_currentValue := cv; boi_isInvalid := false;
    boi_isReverse := rev |}) as (ck & cv & itr & E).
  { unfold newBoltDBIterator. destruct (if rev then _ else _) as [[ck cv] itr]. eauto. }
  assert (src_rep (boi_held (newBoltDBIterator tx s e rev)) s e rev (domain_of L s e rev)) as Hsrc.
  { destruct (start_pos_spec L s e rev HL) as [Hp <-].
    exists L, (start_pos L s e rev). split_and!; [done| |done|done].
    rewrite newBoltDBIterator_held. unfold start_pos. destruct rev.
    - destruct e as [e|]; [by apply held_seek_prev|by apply held_Last].
    - destruct s as [s|]; [by apply held_Seek|by apply held_First]. }
  rewrite E in *. by split_and!.
Qed.

(** ** Batches *)

Lemma bolt_write_op_spec op w tx :
  op_write op w → bolt_fits w → tx_ok tx →
  reply (if (op_type op =? opTypeSet)%Z then bkt_Put bucket (op_key op) (op_value op)
         else if (op_type op =? opTypeDelete)%Z then bkt_Delete bucket (op_key op)
         else mret tt) tx (Ok tt)
    (λ tx', tx_ok tx' ∧ tx_model tx' = apply_write (tx_model tx) w).
Proof. intros [key v Hk|key Hk] Hfit Htx; simpl; [by apply blaw_Put|by apply blaw_Delete]. Qed.

Lemma bolt_write_ops_spec l ws tx :
  Forall2 op_write l ws → Forall bolt_fits ws → tx_ok tx →
  reply (bolt_write_ops l) tx (Ok tt)
    (λ tx', tx_ok tx' ∧ tx_model tx' = apply_writes ws (tx_model tx)).
Proof.
  intros Hl. revert tx. induction Hl as [|op w l ws Hop _ IH]; intros tx Hfit Htx.
  { by apply reply_ret. }
  apply Forall_cons in Hfit as [Hw Hfit]. simpl.
  eapply reply_bind; [by apply bolt_write_op_spec|]. simpl. intros tx1 [Htx1 Hm1].
  eapply reply_mono; [by apply IH|]. simpl. intros tx2 [? ->]. by rewrite Hm1.
Qed.

(** The first key that is too large ends the closure with an error. *)
Lemma bolt_write_ops_large l1 ws key v l2 tx :
  Forall2 op_write l1 ws → Forall bolt_fits ws → (MaxKeySize < Z.of_nat (len key))%Z → tx_ok tx →
  (bolt_write_ops (l1 ++ {| op_type := opTypeSet; op_key := key; op_value := Some v |} :: l2) tx).1 =
    Err ErrKeyTooLarge.
Proof.
  intros Hl. revert tx. induction Hl as [|op w l ws Hop _ IH]; intros tx Hfit Hlen Htx; simpl.
  - pose proof (blaw_Put_large tx key v Htx Hlen) as H. unfold mbind, M_bind.
    destruct (bkt_Put _ _ _ _) as [r tx']. simpl in H. by subst.
  - apply Forall_cons in Hfit as [Hw Hfit].
    destruct (bolt_write_op_spec op w tx Hop Hw Htx) as (tx1 & H & Htx1 & _).
    unfold mbind, M_bind at 1. rewrite H. by apply IH.
Qed.

Definition bo_batch_rep (b : boltDBBatch) (ws : option (list write)) : Prop :=
  match bob_ops b, ws with
  | None, None => True
  | Some l, Some ws => Forall2 op_write l ws ∧ Forall bolt_fits ws
  | _, _ => False
  end.

Lemma boltDBBatch_Set_spec b ws key value :
  bo_batch_rep b ws → set_fits bolt_limits key value →
  reply (boltDBBatch_Set key value) b (spec_batch_Set ws key value).1
    (λ b', bo_batch_rep b' (spec_batch_Set ws key value).2).
Proof.
  intros Hb Hfit. unfold boltDBBatch_Set, spec_batch_Set.
  destruct (len key =? 0) eqn:Hk; [by apply reply_throw|].
  destruct value as [v|]; [|by apply reply_throw]. simpl.
  unfold bo_batch_rep in Hb. destruct b as [[l|]], ws as [ws|]; try done; [|by eexists].
  destruct Hb as [Hl Hws]. eexists. split; [done|]. simpl. split.
  - apply Forall2_app; [done|]. constructor; [|done]. by constructor; apply len_ne.
  - apply Forall_app. auto.
Qed.

Lemma boltDBBatch_Delete_spec b ws key :
  bo_batch_rep b ws →
  reply (boltDBBatch_Delete key) b (spec_batch_Delete ws key).1
    (λ b', bo_batch_rep b' (spec_batch_Delete ws key).2).
Proof.
  intros Hb. unfold boltDBBatch_Delete, spec_batch_Delete.
  destruct (len key =? 0) eqn:Hk; [by apply reply_throw|].
  unfold bo_batch_rep in Hb. destruct b as [[l|]], ws as [ws|]; try done; [|by eexists].
  destruct Hb as [Hl Hws]. eexists. split; [done|]. simpl. split.
  - apply Forall2_app; [done|]. constructor; [|done]. by constructor; apply len_ne.
  - apply Forall_app. split; [done|]. by constructor.
Qed.

(** ** The database *)

Definition bo_inv (db : BoltDB D) : Prop := bolt_ok (bo_db db).
Definition bo_model (db : BoltDB D) : store := bolt_model (bo_db db).

Lemma on_bo_reply {A} (m : M D A) (db : BoltDB D) (r : result A) (f : store) :
  reply m (bo_db db) r (λ d, bolt_ok d ∧ bolt_model d = f) →
  reply (on_bo m) db r (λ db', bo_inv db' ∧ bo_model db' = f).
Proof. exact (on_field_reply bo_db (λ d _, {| bo_db := d |}) m db r _ (λ _ _, eq_refl)). Qed.

Lemma BoltDB_Get_spec db key :
  bo_inv db →
  reply (BoltDB_Get key) db (spec_Get (bo_model db) key) (λ db', bo_inv db' ∧ bo_model db' = bo_model db).
Proof.
  intros Hinv. unfold BoltDB_Get, spec_Get. destruct (len key =? 0); [by apply reply_throw|].
  apply on_bo_reply, blaw_View; [done|]. intros tx Htx Hm.
  pose proof (blaw_Get tx key Htx) as H. unfold mbind, M_bind.
  destruct (bkt_Get bucket key tx) as [r tx']. simpl in H. subst r. simpl. rewrite Hm.
  unfold bo_model. by destruct (bolt_model (bo_db db) !! data key).
Qed.

Lemma BoltDB_Has_spec db key :
  bo_inv db →
  reply (BoltDB_Has key) db (spec_Has (bo_model db) key) (λ db', bo_inv db' ∧ bo_model db' = bo_model db).
Proof.
  intros Hinv. pose proof (BoltDB_Get_spec db key Hinv) as H. unfold BoltDB_Has, spec_Get, spec_Has in *.
  destruct (len key =? 0); [by apply reply_bind_Err|].
  eapply reply_bind; [exact H|]. simpl. intros db' Hdb'. exists db'. split; [|done].
  by destruct (bo_model db !! data key).
Qed.

Lemma BoltDB_Set_spec db key value :
  bo_inv db → set_fits bolt_limits key value →
  reply (BoltDB_Set key value) db (spec_Set (bo_model db) key value).1
    (λ db', bo_inv db' ∧ bo_model db' = (spec_Set (bo_model db) key value).2).
Proof.
  intros Hinv Hfit. unfold BoltDB_Set, spec_Set. destruct (len key =? 0) eqn:Hk; [by apply reply_throw|].
  destruct value as [v|]; [|by apply reply_throw]. simpl in *.
  apply on_bo_reply, blaw_Update; [done|]. intros tx Htx Hm. unfold bo_model. rewrite <-Hm.
  apply blaw_Put; [done|by apply len_ne|done].
Qed.

Lemma BoltDB_Delete_spec db key :
  bo_inv db →
  reply (BoltDB_Delete key) db (spec_Delete (bo_model db) key).1
    (λ db', bo_inv db' ∧ bo_model db' = (spec_Delete (bo_model db) key).2).
Proof.
  intros Hinv. unfold BoltDB_Delete, spec_Delete. destruct (len key =? 0) eqn:Hk; [by apply reply_throw|].
  apply on_bo_reply, blaw_Update; [done|]. intros tx Htx Hm. unfold bo_model. rewrite <-Hm. by apply blaw_Delete.
Qed.

Lemma BoltDB_iterator_spec db s e rev :
  bo_inv db →
  ∃ it, reply (tx ← on_bo (bolt_Begin false); mret (newBoltDBIterator tx s e rev)) db (Ok it)
      (λ db', bo_inv db' ∧ bo_model db' = bo_model db) ∧
    it_rep it s e (scan (bo_model db) s e rev).
Proof.
  intros Hinv. destruct (blaw_Begin (bo_db db) Hinv) as (tx & H & Htx & Hm).
  exists (newBoltDBIterator tx s e rev). split.
  - eapply reply_bind; [by apply on_bo_reply|]. intros db' ?. by apply reply_ret.
  - unfold bo_model. rewrite <-Hm. by apply newBoltDBIterator_spec.
Qed.

Lemma boltDBBatch_Write_spec b ws db :
  bo_batch_rep b ws → bo_inv db →
  reply boltDBBatch_Write (b, db) (spec_batch_Write ws (bo_model db)).1
    (λ bs, bo_batch_rep bs.1 None ∧ bo_inv bs.2 ∧
           bo_model bs.2 = (spec_batch_Write ws (bo_model db)).2).
Proof.
  intros Hb Hinv. unfold bo_batch_rep in Hb. destruct b as [[l|]], ws as [ws|]; try done.
  - destruct Hb as [Hl Hws].
    destruct (on_bo_reply (bolt_Batch (bolt_write_ops l)) db (Ok tt) (apply_writes ws (bo_model db)))
      as (db' & Hw & ? & ?).
    { apply blaw_Batch; [done|]. intros tx Htx Hm. unfold bo_model. rewrite <-Hm.
      by apply bolt_write_ops_spec. }
    exists ({| bob_ops := None |}, db'). split; [|done].
    unfold boltDBBatch_Write, mbind, M_bind, on_snd. simpl. by rewrite Hw.
  - by eexists.
Qed.

#[global] Instance BoltDB_contract : DBContract (BoltDB_ops (D := D) (Tx := Tx) (Cu := Cu) fmt_stats).
Proof.
  refine {| db_inv := bo_inv; db_model := bo_model; db_fits := bolt_limits; batch_rep := bo_batch_rep |}.
  - intros db key H _. by apply BoltDB_Get_spec.
  - intros db key H _. by apply BoltDB_Has_spec.
  - exact BoltDB_Set_spec.
  - exact BoltDB_Set_spec.
  - intros db key H _. by apply BoltDB_Delete_spec.
  - intros db key H _. by apply BoltDB_Delete_spec.
  - intros db s e H Hb. simpl. unfold BoltDB_Iterator. fold (bad_bounds s e). rewrite Hb.
    by apply BoltDB_iterator_spec.
  - intros db s e H Hb. simpl. unfold BoltDB_ReverseIterator. fold (bad_bounds s e). rewrite Hb.
    by apply BoltDB_iterator_spec.
  - intros db s e H Hb. simpl. unfold BoltDB_Iterator. fold (bad_bounds s e). rewrite Hb.
    by apply reply_throw.
  - intros db s e H Hb. simpl. unfold BoltDB_ReverseIterator. fold (bad_bounds s e). rewrite Hb.
    by apply reply_throw.
  - intros db H. exists newBoltDBBatch. split; [by exists db|]. by split.
  - intros b ws db key value Hb H Hf _. eapply reply_mono;
      [by apply on_fst_reply, boltDBBatch_Set_spec|]. intros [??] [? Hs]. simpl in *. by subst.
  - intros b ws db key Hb H _ _. eapply reply_mono;
      [by apply on_fst_reply, boltDBBatch_Delete_spec|]. intros [??] [? Hs]. simpl in *. by subst.
  - intros b ws db Hb H. exact (boltDBBatch_Write_spec b (Some ws) db Hb H).
  - intros b ws db Hb H. exact (boltDBBatch_Write_spec b (Some ws) db Hb H).
  - intros [[l|]] db m Hb H Hm; [done|]. destruct Hm as [key value|key| |]; simpl;
      unfold boltDBBatch_Set, boltDBBatch_Delete.
    + destruct (len key =? 0), value; by eexists _, (_, _).
    + destruct (len key =? 0); by eexists _, (_, _).
    + by eexists _, (_, _).
    + by eexists _, (_, _).
  - intros b ws db Hb H. exists ({| bob_ops := None |}, db). by split_and!.
  - intros db H. destruct (blaw_Close _ H) as (d & Hd & _). exists {| bo_db := d |}.
    simpl. unfold BoltDB_Close, on_bo, on_field. by rewrite Hd.
Defined.

End boltdb_correct.
