(* ===== verification/BoltDBThms.v ===== *)
(** * The bbolt backend: theorems and instances *)

From S2P Require Import Prelude Go Util Spec Types Client MemDB MemDBCorrect.
From S2P Require Import Path Cursor BoltLib BoltDB BoltDBCorrect.

Section theorems.
Context {D Tx Cu : Type} `{!BoltOps D Tx Cu, !BoltLaws D Tx Cu bucket}.

(** C9: for every library that behaves as documented, every program of a
    client on the bbolt backend whose keys and values fit the limits of the
    library gets the answers of the abstract store, and the bucket holds the
    contents of that store. *)
Theorem BoltDB_refines fmt_stats fuel cs (db : BoltDB D) :
  bolt_ok (bo_db db) → Forall (call_fits bolt_limits) cs →
  size (bolt_model (bo_db db)) + weight cs < fuel →
  ∃ db', run_calls (BoltDB_ops fmt_stats) fuel cs db =
      ((spec_calls cs (bolt_model (bo_db db))).1, db') ∧
    bolt_ok (bo_db db') ∧ bolt_model (bo_db db') = (spec_calls cs (bolt_model (bo_db db))).2.
Proof.
  intros Hok Hfit Hfuel.
  destruct (run_calls_spec (DBContract0 := BoltDB_contract fmt_stats) (BoltDB_ops fmt_stats) fuel cs db)
    as (db' & Hrun & Hok' & Hm); [done|done|done|]. by exists db'.
Qed.

(** A key over the limit of bbolt is answered with the error of the
    library by [Set], [SetSync] and, whatever precedes it in the batch, by
    [Write]; nothing of the batch is stored, the database is as it was and the
    batch stays open. *)
Theorem BoltDB_too_large (db : BoltDB D) key v l1 ws l2 :
  bolt_ok (bo_db db) → (MaxKeySize < Z.of_nat (len key))%Z →
  Forall2 op_write l1 ws → Forall bolt_fits ws →
  let same db' := bolt_ok (bo_db db') ∧ bolt_model (bo_db db') = bolt_model (bo_db db) in
  let b := {| bob_ops := Some (l1 ++ {| op_type := opTypeSet; op_key := key; op_value := Some v |} :: l2) |} in
  reply (BoltDB_Set key (Some v)) db (Err ErrKeyTooLarge) same ∧
  reply (BoltDB_SetSync key (Some v)) db (Err ErrKeyTooLarge) same ∧
  reply boltDBBatch_Write (b, db) (Err ErrKeyTooLarge) (λ bs, bs.1 = b ∧ same bs.2).
Proof.
  intros Hok Hlen Hl Hws same b. assert ((len key =? 0) = false) as Hk.
  { apply Nat.eqb_neq. intros E. rewrite E in Hlen. done. }
  assert (reply (BoltDB_Set key (Some v)) db (Err ErrKeyTooLarge) same) as Hset.
  { unfold BoltDB_Set. rewrite Hk. simpl. apply on_bo_reply, blaw_Update_Err; [done|].
    intros tx Htx _. by apply blaw_Put_large. }
  split_and!; [done|done|].
  destruct (on_bo_reply (bolt_Batch (bolt_write_ops (default [] (bob_ops b)))) db
    (Err ErrKeyTooLarge) (bo_model db)) as (db' & Hw & Hdb').
  { apply blaw_Batch_Err; [done|]. intros tx Htx _. by eapply bolt_write_ops_large. }
  exists (b, db'). split; [|done].
  unfold boltDBBatch_Write, mbind, M_bind, on_snd. simpl in *. by rewrite Hw.
Qed.

(** [NewBoltDBWithOpts] refuses read-only options without opening the
    file; a file it can open becomes a database that is ready for use and holds
    what the bucket of the file held. *)
Theorem NewBoltDB_ready {Options} (ReadOnly : Options → bool) Open name dir opts :
  (ReadOnly opts = true →
   NewBoltDBWithOpts ReadOnly Open name dir opts = Err (errorsNew "ReadOnly: true is not supported")) ∧
  (∀ d : D, ReadOnly opts = false →
   Open (filepath_Join [dir; (name +:+ ".db")%string]) opts = Ok d → bolt_file d →
   ∃ db, NewBoltDBWithOpts ReadOnly Open name dir opts = Ok db ∧
     bolt_ok (bo_db db) ∧ bolt_model (bo_db db) = bolt_model d).
Proof.
  unfold NewBoltDBWithOpts. split; [by intros ->|]. intros d -> -> Hd.
  destruct (blaw_Create d Hd) as (d' & -> & ?). by eexists.
Qed.

(** [Print] prints the statistics of the library and then every
    entry of the database in ascending key order. *)
Theorem BoltDB_Print_entries fmt_stats (db : BoltDB D) :
  bolt_ok (bo_db db) →
  reply (BoltDB_Print fmt_stats) db
    (Ok ((fmt_stats (bolt_Stats (bo_db db)) +:+ newline)%string ::
         ((λ kv, print_line (Some kv.1) (Some kv.2)) <$> entries (bolt_model (bo_db db)))))
    (λ db', bolt_ok (bo_db db') ∧ bolt_model (bo_db db') = bolt_model (bo_db db)).
Proof.
  intros Hok. unfold BoltDB_Print. eapply (reply_bind _ _ _ _ _ (eq db)); [by exists db|].
  intros ? <-. eapply reply_bind.
  - apply on_bo_reply, blaw_View; [done|]. intros tx Htx Hm. simpl.
    rewrite blaw_ForEach, Hm, <-list_fmap_compose by done. reflexivity.
  - intros db' H. by apply reply_ret.
Qed.

End theorems.

(** ** Instances on the reference library *)

#[local] Instance ref_bolt_laws : BoltLaws RefBolt.db RefBolt.db RefBolt.cursor bucket := RefBolt.laws bucket.

Definition bolt_empty : BoltDB RefBolt.db := {| bo_db := {[ bucket := ∅ ]} |}.

Definition bolt_program : list call :=
  [CSet (Some [x62]) (Some [x02]); CSetSync (Some [x61]) (Some [x01]);
   CBatch [BSet (Some [x63]) (Some []); BDelete (Some [x62])] true;
   CScan None (Some [x63]) true; CScan (Some [x61]) None false].

Lemma bolt_empty_ok : bolt_ok (bo_db bolt_empty) ∧ bolt_model (bo_db bolt_empty) = ∅.
Proof.
  simpl. unfold RefBolt.contents. rewrite lookup_singleton_eq. split; [by eexists|done].
Qed.

Lemma bolt_program_fits : Forall (call_fits bolt_limits) bolt_program.
Proof. repeat constructor; cbv; discriminate. Qed.

Lemma BoltDB_refines_witness :
  ∃ db', run_calls (BoltDB_ops (λ _, "")) 10 bolt_program bolt_empty =
    ((spec_calls bolt_program ∅).1, db') ∧ bolt_model (bo_db db') = (spec_calls bolt_program ∅).2.
Proof.
  destruct (BoltDB_refines (λ _, "") 10 bolt_program bolt_empty) as (db' & H1 & _ & H2).
  - exact (proj1 bolt_empty_ok).
  - exact bolt_program_fits.
  - rewrite (proj2 bolt_empty_ok), map_size_empty. cbv. lia.
  - rewrite (proj2 bolt_empty_ok) in H1, H2. exists db'. exact (conj H1 H2).
Defined.

(** A key of 32769 bytes. *)
Definition long_key : slice := Some (replicate (Z.to_nat (MaxKeySize + 1)) x61).

Lemma long_key_len : (MaxKeySize < Z.of_nat (len long_key))%Z.
Proof.
  change (len long_key) with (length (replicate (Z.to_nat (MaxKeySize + 1)) x61)).
  by rewrite length_replicate, Z2Nat.id.
Qed.

Lemma BoltDB_too_large_witness :
  reply (BoltDB_Set long_key (Some [])) bolt_empty (Err ErrKeyTooLarge)
    (λ db', bolt_ok (bo_db db') ∧ bolt_model (bo_db db') = bolt_model (bo_db bolt_empty)).
Proof.
  refine (proj1 (BoltDB_too_large bolt_empty long_key []
    [{| op_type := opTypeSet; op_key := Some [x61]; op_value := Some [x01] |}]
    [WSet [x61] [x01]] [] _ _ _ _)).
  - exact (proj1 bolt_empty_ok).
  - exact long_key_len.
  - constructor; [|constructor]. exact (op_write_Set (Some [x61]) [x01] ltac:(discriminate)).
  - constructor; [|constructor]. split; cbv; discriminate.
Defined.

Lemma NewBoltDB_ready_witness :
  ∃ db, NewBoltDBWithOpts (λ ro : bool, ro) (λ _ _, Ok (∅ : RefBolt.db)) "state" "/tmp" false = Ok db ∧
    bolt_ok (bo_db db) ∧ bolt_model (bo_db db) = bolt_model (∅ : RefBolt.db).
Proof. by apply (proj2 (NewBoltDB_ready (λ ro : bool, ro) (λ _ _, Ok (∅ : RefBolt.db)) "state" "/tmp" false)). Defined.

Lemma BoltDB_Print_entries_witness :
  reply (BoltDB_Print (λ _, "stats")) bolt_empty
    (Ok (("stats" +:+ newline)%string :: ((λ kv, print_line (Some kv.1) (Some kv.2)) <$> entries ∅)))
    (λ db', bolt_ok (bo_db db') ∧ bolt_model (bo_db db') = bolt_model (bo_db bolt_empty)).
Proof.
  pose proof (BoltDB_Print_entries (λ _, "stats") bolt_empty (proj1 bolt_empty_ok)) as H.
  rewrite (proj2 bolt_empty_ok) in H at 1. exact H.
Defined.
