(* ===== verification/BadgerLib.v ===== *)
(** * The library badger (github.com/dgraph-io/badger/v3)

    [BadgerOps] has the methods the backend calls, [BadgerLaws] their documented
    behaviour; [RefBadger] is a concrete library.  Keys that start with
    "!badger!" are reserved by the library; a write batch commits on its own
    when it outgrows a transaction, hence the bound on its length. *)

From S2P Require Import Prelude Go Util Spec Types Cursor.

Class BadgerOps (D Tx C WB Item : Type) := {
  bg_View {A} : M Tx A → M D A;
  bg_Update : M Tx unit → M D unit;
  bg_Sync : M D unit;
  bg_Close : M D unit;
  bg_NewTransaction : bool → D → Tx;
  bg_NewWriteBatch : D → WB;
  txn_Get : slice → M Tx Item;
  txn_Set : slice → slice → M Tx unit;
  txn_Delete : slice → M Tx unit;
  txn_Discard : Tx → Tx;
  txn_NewIterator : bool → Tx → C;       (* the argument is [opts.Reverse] *)
  item_Key : Item → slice;
  item_KeyCopy : Item → slice;           (* [KeyCopy(nil)] *)
  item_ValueCopy : Item → result slice;  (* [ValueCopy(nil)] *)
  bi_Rewind : C → C;
  bi_Seek : slice → C → C;
  bi_Next : C → C;
  bi_Valid : C → bool;
  bi_Item : C → Item;
  bi_Close : C → C;
  bwb_Set : slice → slice → M (WB * D) unit;
  bwb_Delete : slice → M (WB * D) unit;
  bwb_Flush : M (WB * D) unit;
  bwb_Cancel : WB → WB;
}.

Definition ErrKeyNotFound : error := errLib "badger" "Key not found".
Definition badgerPrefix : bytes := bz "!badger!".
(** [maxKeySize], and half of [ValueLogFileSize] at its default *)
Definition maxKeySize : Z := 65000%Z.
Definition maxValueSize : Z := 536870911%Z.

Definition reserved (k : bytes) : Prop := badgerPrefix `prefix_of` k.
Definition badger_fits (w : write) : Prop :=
  match w with
  | WSet k v => ¬ reserved k ∧ (Z.of_nat (length k) ≤ maxKeySize)%Z ∧ (Z.of_nat (length v) ≤ maxValueSize)%Z
  | WDelete k => ¬ reserved k ∧ (Z.of_nat (length k) ≤ maxKeySize)%Z
  end.

(** [append(nil, v...)] *)
Definition copy_nil (v : bytes) : slice := match v with [] => None | _ => Some v end.

(** Where [Rewind] and [Seek] put an iterator: "If absent, it would seek to the
    next smallest key greater than the provided key if iterating in the forward
    direction. Behavior would be reversed if iterating backwards." *)
Definition rewind_pos (rev : bool) (L : list entry) : option nat :=
  if rev then last_pos L else first_pos L.
Definition seek_back_pos (L : list entry) (k : bytes) : option nat :=
  match seek_pos L k with
  | Some i => if decide (fst <$> L !! i = Some k) then Some i else prev_pos i
  | None => last_pos L
  end.
Definition badger_seek_pos (rev : bool) (L : list entry) (k : slice) : option nat :=
  if len k =? 0 then rewind_pos rev L
  else if rev then seek_back_pos L (data k) else seek_pos L (data k).

Class BadgerLaws (D Tx C WB Item : Type) `{!BadgerOps D Tx C WB Item} := {
  bg_ok : D → Prop;
  bg_model : D → store;
  btx_ok : Tx → Prop;
  btx_model : Tx → store;
  (** a batch of at most so many operations is one transaction *)
  txn_limit : nat;
  bglaw_View {A} d (f : M Tx A) (r : result A) : bg_ok d →
    (∀ tx, btx_ok tx → btx_model tx = bg_model d → (f tx).1 = r) →
    reply (bg_View f) d r (λ d', bg_ok d' ∧ bg_model d' = bg_model d);
  bglaw_Update d f m : bg_ok d →
    (∀ tx, btx_ok tx → btx_model tx = bg_model d →
      reply f tx (Ok tt) (λ tx', btx_ok tx' ∧ btx_model tx' = m)) →
    reply (bg_Update f) d (Ok tt) (λ d', bg_ok d' ∧ bg_model d' = m);
  bglaw_Sync d : bg_ok d → reply bg_Sync d (Ok tt) (λ d', bg_ok d' ∧ bg_model d' = bg_model d);
  bglaw_Close d : bg_ok d → reply bg_Close d (Ok tt) (λ _, True);
  bglaw_NewTransaction d : bg_ok d →
    btx_ok (bg_NewTransaction false d) ∧ btx_model (bg_NewTransaction false d) = bg_model d;
  (** an item of the library *)
  item_ok : Item → bytes → bytes → Prop;
  bglaw_Key item k v : item_ok item k v → item_Key item = Some k;
  bglaw_KeyCopy item k v : item_ok item k v → item_KeyCopy item = copy_nil k;
  bglaw_ValueCopy item k v : item_ok item k v → item_ValueCopy item = Ok (copy_nil v);
  bglaw_Get tx key : btx_ok tx → data key ≠ [] → ¬ reserved (data key) →
    match btx_model tx !! data key with
    | Some v => ∃ item, (txn_Get key tx).1 = Ok item ∧ item_ok item (data key) v
    | None => (txn_Get key tx).1 = Err ErrKeyNotFound
    end;
  bglaw_Set tx key v : btx_ok tx → data key ≠ [] → badger_fits (WSet (data key) v) →
    reply (txn_Set key (Some v)) tx (Ok tt)
      (λ tx', btx_ok tx' ∧ btx_model tx' = <[data key := v]> (btx_model tx));
  bglaw_Delete tx key : btx_ok tx → data key ≠ [] → badger_fits (WDelete (data key)) →
    reply (txn_Delete key) tx (Ok tt)
      (λ tx', btx_ok tx' ∧ btx_model tx' = delete (data key) (btx_model tx));
  (** iterators over the pairs [L], in one direction *)
  bi_over : C → bool → list entry → Prop;
  bi_at : C → bool → list entry → option nat → Prop;
  bglaw_NewIterator tx rev : btx_ok tx →
    bi_over (txn_NewIterator rev tx) rev (entries (btx_model tx));
  bglaw_at_over c rev L p : bi_at c rev L p → bi_over c rev L;
  bglaw_bound c rev L i : bi_at c rev L (Some i) → i < length L;
  bglaw_Rewind c rev L : bi_over c rev L → bi_at (bi_Rewind c) rev L (rewind_pos rev L);
  bglaw_Seek c rev L k : bi_over c rev L → bi_at (bi_Seek k c) rev L (badger_seek_pos rev L k);
  bglaw_Next c rev L i : bi_at c rev L (Some i) → bi_at (bi_Next c) rev L (step_pos L rev i);
  bglaw_Valid c rev L p : bi_at c rev L p → bi_Valid c = bool_decide (is_Some p);
  bglaw_Item c rev L i kv : bi_at c rev L (Some i) → L !! i = Some kv → item_ok (bi_Item c) kv.1 kv.2;
  (** write batches: pending operations, or flushed or cancelled *)
  wb_open : WB → list write → Prop;
  wb_done : WB → Prop;
  bglaw_NewWriteBatch d : bg_ok d → wb_open (bg_NewWriteBatch d) [];
  bglaw_wb_Set wb ws d key v : wb_open wb ws → bg_ok d → data key ≠ [] →
    badger_fits (WSet (data key) v) → length ws < txn_limit →
    reply (bwb_Set key (Some v)) (wb, d) (Ok tt)
      (λ bd, wb_open bd.1 (ws ++ [WSet (data key) v]) ∧ bg_ok bd.2 ∧ bg_model bd.2 = bg_model d);
  bglaw_wb_Delete wb ws d key : wb_open wb ws → bg_ok d → data key ≠ [] →
    badger_fits (WDelete (data key)) → length ws < txn_limit →
    reply (bwb_Delete key) (wb, d) (Ok tt)
      (λ bd, wb_open bd.1 (ws ++ [WDelete (data key)]) ∧ bg_ok bd.2 ∧ bg_model bd.2 = bg_model d);
  bglaw_wb_Flush wb ws d : wb_open wb ws → bg_ok d →
    reply bwb_Flush (wb, d) (Ok tt)
      (λ bd, wb_done bd.1 ∧ bg_ok bd.2 ∧ bg_model bd.2 = apply_writes ws (bg_model d));
  bglaw_wb_Cancel wb : (∃ ws, wb_open wb ws) ∨ wb_done wb → wb_done (bwb_Cancel wb);
  bglaw_wb_Set_done wb d key v : wb_done wb → bg_ok d →
    ∃ e, reply (bwb_Set key (Some v)) (wb, d) (Err e)
      (λ bd, wb_done bd.1 ∧ bg_ok bd.2 ∧ bg_model bd.2 = bg_model d);
  bglaw_wb_Delete_done wb d key : wb_done wb → bg_ok d →
    ∃ e, reply (bwb_Delete key) (wb, d) (Err e)
      (λ bd, wb_done bd.1 ∧ bg_ok bd.2 ∧ bg_model bd.2 = bg_model d);
}.

(** ** A concrete library *)

Module RefBadger.

Abbreviation db := store (only parsing).
Abbreviation cursor := (bool * list entry * option nat)%type.
Abbreviation wbatch := (option (list write)).

Definition errDone : error := errLib "badger" "Batch commit not permitted after finish".

Definition goto (p : bool → list entry → option nat) (c : cursor) : cursor := (c.1, p c.1.1 c.1.2).

#[global] Instance ops : BadgerOps db db cursor wbatch entry := {|
  bg_View _ f d := ((f d).1, d);
  bg_Update f d := match f d with (Ok _, d') => (Ok tt, d') | (r, _) => (r, d) end;
  bg_Sync := mret tt;
  bg_Close := mret tt;
  bg_NewTransaction _ d := d;
  bg_NewWriteBatch _ := Some [];
  txn_Get key d := (match d !! data key with Some v => Ok (data key, v) | None => Err ErrKeyNotFound end, d);
  txn_Set key value d := (Ok tt, <[data key := data value]> d);
  txn_Delete key d := (Ok tt, delete (data key) d);
  txn_Discard d := d;
  txn_NewIterator rev d := (rev, entries d, None);
  item_Key kv := Some kv.1;
  item_KeyCopy kv := copy_nil kv.1;
  item_ValueCopy kv := Ok (copy_nil kv.2);
  bi_Rewind := goto rewind_pos;
  bi_Seek k := goto (λ rev L, badger_seek_pos rev L k);
  bi_Next c := goto (λ rev L, c.2 ≫= step_pos L rev) c;
  bi_Valid c := bool_decide (is_Some c.2);
  bi_Item c := default ([], []) (c.2 ≫= λ i, c.1.2 !! i);
  bi_Close c := c;
  bwb_Set key value bd := match bd.1 with
    | Some ws => (Ok tt, (Some (ws ++ [WSet (data key) (data value)]), bd.2))
    | None => (Err errDone, bd) end;
  bwb_Delete key bd := match bd.1 with
    | Some ws => (Ok tt, (Some (ws ++ [WDelete (data key)]), bd.2))
    | None => (Err errDone, bd) end;
  bwb_Flush bd := match bd.1 with
    | Some ws => (Ok tt, (None, apply_writes ws bd.2))
    | None => (Panic "close of closed channel", bd) end;
  bwb_Cancel _ := None;
|}.

Definition in_range (L : list entry) (p : option nat) : Prop :=
  match p with None => True | Some i => i < length L end.

Lemma rewind_in_range rev L : in_range L (rewind_pos rev L).
Proof. destruct rev, L; simpl; lia || done. Qed.

Lemma seek_in_range rev L k : in_range L (badger_seek_pos rev L k).
Proof.
  unfold badger_seek_pos. destruct (len k =? 0); [apply rewind_in_range|].
  assert (∀ i, seek_pos L (data k) = Some i → i < length L) as Hs.
  { intros i (kv & Hi & _)%seek_Some. by apply lookup_lt_Some in Hi. }
  unfold seek_back_pos. destruct rev, (seek_pos L (data k)) as [i|]; simpl; auto.
  - specialize (Hs i eq_refl). case_decide; simpl; [done|]. destruct i; simpl; [done|lia].
  - apply (rewind_in_range true).
Qed.

Definition laws : BadgerLaws db db cursor wbatch entry.
Proof.
  refine {| bg_ok _ := True; bg_model d := d; btx_ok _ := True; btx_model d := d; txn_limit := 1000;
            item_ok item k v := item = (k, v);
            bi_over (c : cursor) rev L := c.1 = (rev, L);
            bi_at (c : cursor) rev L p := c = (rev, L, p) ∧ in_range L p;
            wb_open (wb : wbatch) ws := wb = Some ws; wb_done wb := wb = None |}.
  - intros A d f r _ Hf. exists d. by rewrite <-(Hf d Logic.I eq_refl).
  - intros d f m _ Hf. destruct (Hf d Logic.I eq_refl) as (d' & H & ?). exists d'. simpl. by rewrite H.
  - intros d _. by apply reply_ret.
  - intros d _. by apply reply_ret.
  - done.
  - by intros [] k v [= -> ->].
  - by intros [] k v [= -> ->].
  - by intros [] k v [= -> ->].
  - intros d key _ _ _. simpl. destruct (d !! data key) as [v|]; [by eexists|done].
  - intros d key v _ _ _. by eexists.
  - intros d key _ _ _. by eexists.
  - done.
  - by intros c rev L p [-> _].
  - by intros c rev L i [_ ?].
  - intros [c p] rev L H. simpl in H. subst c. split; [done|apply rewind_in_range].
  - intros [c p] rev L k H. simpl in H. subst c. split; [done|apply seek_in_range].
  - intros c rev L i [-> Hi]. split; [done|]. simpl in Hi. unfold step_pos, next_pos.
    destruct rev; [destruct i; simpl; [done|lia]|by case_decide].
  - by intros c rev L p [-> _].
  - intros c rev L i [k v] [-> _] Hi. simpl. by rewrite Hi.
  - done.
  - intros wb ws d key v -> _ _ _ _. by eexists.
  - intros wb ws d key -> _ _ _ _. by eexists.
  - intros wb ws d -> _. by eexists.
  - done.
  - intros wb d key v -> _. eexists. by eexists.
  - intros wb d key -> _. eexists. by eexists.
Defined.

End RefBadger.
