(* ===== verification/BadgerDB.v ===== *)
(** * badger_db.go

    The backend over github.com/dgraph-io/badger/v3, for every library that has
    the methods of [BadgerOps]. *)

From S2P Require Import Prelude Go Util Spec Types Path Cursor BadgerLib.

Section badgerdb.
Context {D Tx C WB Item : Type} `{!BadgerOps D Tx C WB Item}.
(** [badger.Options] with the fields [NewBadgerDB] sets, [badger.DefaultOptions],
    [badger.Open] and [os.MkdirAll]. *)
Context {Options : Type} (DefaultOptions : string → Options) (set_SyncWrites : bool → Options → Options)
  (no_Logger : Options → Options) (Open : Options → result D) (MkdirAll : string → result unit).

(** [type BadgerDB struct] *)
Record BadgerDB := { bg_db : D }.
Definition on_bg {A} : M D A → M BadgerDB A := on_field bg_db (λ d _, {| bg_db := d |}).

Definition NewBadgerDBWithOptions (opts : Options) : result BadgerDB :=
  result_map (λ db, {| bg_db := db |}) (Open opts).

Definition NewBadgerDB (dbName dir : string) : result BadgerDB :=
  let path := filepath_Join [dir; dbName] in
  match MkdirAll path with
  | Ok _ => NewBadgerDBWithOptions (no_Logger (set_SyncWrites false (DefaultOptions path)))
  | Err err => Err err
  | Panic msg => Panic msg
  | Diverge => Diverge
  end.

Definition badgerDBCreator (dbName dir : string) : result BadgerDB := NewBadgerDB dbName dir.

(** ** Database methods *)

Definition BadgerDB_Get (key : slice) : M BadgerDB slice :=
  if len key =? 0 then throw errKeyEmpty
  else on_bg (bg_View (
    r ← attempt (txn_Get key);
    match r with
    | inr err => if decide (err = ErrKeyNotFound) then mret None else throw err
    | inl item =>
        val ← lift_result (item_ValueCopy item);
        mret (if is_nil val then Some [] else val)
    end)).

Definition BadgerDB_Has (key : slice) : M BadgerDB bool :=
  if len key =? 0 then throw errKeyEmpty
  else on_bg (bg_View (
    r ← attempt (txn_Get key);
    match r with
    | inr err => if decide (err = ErrKeyNotFound) then mret false else throw err
    | inl _ => mret true
    end)).

Definition BadgerDB_Set (key value : slice) : M BadgerDB unit :=
  if len key =? 0 then throw errKeyEmpty
  else if is_nil value then throw errValueNil
  else on_bg (bg_Update (txn_Set key value)).

(** [withSync(db, err)]: [sync] is [db.Sync] in the state of the caller *)
Definition withSync {S} (sync : M S unit) (m : M S unit) : M S unit := _ ← m; sync.

Definition BadgerDB_SetSync (key value : slice) : M BadgerDB unit :=
  withSync (on_bg bg_Sync) (BadgerDB_Set key value).

Definition BadgerDB_Delete (key : slice) : M BadgerDB unit :=
  if len key =? 0 then throw errKeyEmpty
  else on_bg (bg_Update (txn_Delete key)).

Definition BadgerDB_DeleteSync (key : slice) : M BadgerDB unit :=
  withSync (on_bg bg_Sync) (BadgerDB_Delete key).

Definition BadgerDB_Close : M BadgerDB unit := on_bg bg_Close.

Definition BadgerDB_Print : M BadgerDB (list string) := mret [].

(** The nil map *)
Definition BadgerDB_Stats : M BadgerDB (gmap string string) := mret ∅.

(** ** Iterators *)

(** [type badgerDBIterator struct] *)
Record badgerDBIterator := {
  bgi_reverse : bool;
  bgi_start : slice;
  bgi_end : slice;
  bgi_txn : Tx;
  bgi_iter : C;
  bgi_lastErr : option error;
}.

Definition BadgerDB_iteratorOpts (start end_ : slice) (opts_Reverse : bool) : M BadgerDB badgerDBIterator :=
  if (negb (is_nil start) && (len start =? 0)) || (negb (is_nil end_) && (len end_ =? 0))
  then throw errKeyEmpty
  else
    b ← get;
    let txn := bg_NewTransaction false (bg_db b) in
    let iter := txn_NewIterator opts_Reverse txn in
    let iter := bi_Rewind iter in
    let iter := bi_Seek start iter in
    let iter := if opts_Reverse && bi_Valid iter && bytes_Equal (item_Key (bi_Item iter)) start
                then bi_Next iter else iter in
    mret {| bgi_reverse := opts_Reverse; bgi_start := start; bgi_end := end_;
            bgi_txn := txn; bgi_iter := iter; bgi_lastErr := None |}.

Definition BadgerDB_Iterator (start end_ : slice) : M BadgerDB badgerDBIterator :=
  BadgerDB_iteratorOpts start end_ false.

(** The bounds are passed in the opposite order. *)
Definition BadgerDB_ReverseIterator (start end_ : slice) : M BadgerDB badgerDBIterator :=
  BadgerDB_iteratorOpts end_ start true.

Definition bgi_set_iter (c : C) (i : badgerDBIterator) : badgerDBIterator :=
  {| bgi_reverse := bgi_reverse i; bgi_start := bgi_start i; bgi_end := bgi_end i;
     bgi_txn := bgi_txn i; bgi_iter := c; bgi_lastErr := bgi_lastErr i |}.

Definition badgerDBIterator_Close : M badgerDBIterator unit :=
  modify (λ i, {| bgi_reverse := bgi_reverse i; bgi_start := bgi_start i; bgi_end := bgi_end i;
                  bgi_txn := txn_Discard (bgi_txn i); bgi_iter := bi_Close (bgi_iter i);
                  bgi_lastErr := bgi_lastErr i |}).

Definition badgerDBIterator_Domain (i : badgerDBIterator) : slice * slice := (bgi_start i, bgi_end i).
Definition badgerDBIterator_Error (i : badgerDBIterator) : option error := bgi_lastErr i.

Definition badgerDBIterator_isValid (i : badgerDBIterator) : bool :=
  if negb (bi_Valid (bgi_iter i)) then false
  else if 0 <? len (bgi_end i) then
    let key := item_Key (bi_Item (bgi_iter i)) in
    let c := bytes_Compare key (bgi_end i) in
    if (negb (bgi_reverse i) && (0 <=? c)%Z) || (bgi_reverse i && (c <? 0)%Z) then false else true
  else true.

Definition badgerDBIterator_Valid : M badgerDBIterator bool := i ← get; mret (badgerDBIterator_isValid i).

Definition badgerDBIterator_Next : M badgerDBIterator unit :=
  v ← badgerDBIterator_Valid;
  if (v : bool) then modify (λ i, bgi_set_iter (bi_Next (bgi_iter i)) i)
  else panic "iterator is invalid".

Definition badgerDBIterator_Key : M badgerDBIterator slice :=
  v ← badgerDBIterator_Valid;
  if (v : bool) then i ← get; mret (item_KeyCopy (bi_Item (bgi_iter i)))
  else panic "iterator is invalid".

(** [val, err := ValueCopy(nil)]: an error is kept, the value next to it is nil *)
Definition badgerDBIterator_Value : M badgerDBIterator slice :=
  v ← badgerDBIterator_Valid;
  if (v : bool) then
    i ← get;
    r ← attempt (lift_result (item_ValueCopy (bi_Item (bgi_iter i))));
    match r with
    | inl val => mret val
    | inr err =>
        _ ← put {| bgi_reverse := bgi_reverse i; bgi_start := bgi_start i; bgi_end := bgi_end i;
                   bgi_txn := bgi_txn i; bgi_iter := bgi_iter i; bgi_lastErr := Some err |};
        mret None
    end
  else panic "iterator is invalid".

#[global] Instance badgerDBIterator_ops : IteratorOps badgerDBIterator := {|
  it_Domain := badgerDBIterator_Domain;
  it_Valid := badgerDBIterator_Valid;
  it_Next := badgerDBIterator_Next;
  it_Key := badgerDBIterator_Key;
  it_Value := badgerDBIterator_Value;
  it_Error := badgerDBIterator_Error;
  it_Close := badgerDBIterator_Close;
|}.

(** ** Batches *)

(** [type badgerDBBatch struct]; [bgb_firstFlush] tells whether the channel,
    of capacity 1, holds its element *)
Record badgerDBBatch := { bgb_wb : WB; bgb_firstFlush : bool }.

Definition BadgerDB_NewBatch : M BadgerDB badgerDBBatch :=
  b ← get; mret {| bgb_wb := bg_NewWriteBatch (bg_db b); bgb_firstFlush := true |}.

(** A method of [b.wb], which works on [b.db]. *)
Definition on_wb {A} (m : M (WB * D) A) : M (badgerDBBatch * BadgerDB) A := λ '(b, db),
  let '(r, (wb, d)) := m (bgb_wb b, bg_db db) in
  (r, ({| bgb_wb := wb; bgb_firstFlush := bgb_firstFlush b |}, {| bg_db := d |})).

Definition badgerDBBatch_Set (key value : slice) : M (badgerDBBatch * BadgerDB) unit :=
  if len key =? 0 then throw errKeyEmpty
  else if is_nil value then throw errValueNil
  else on_wb (bwb_Set key value).

Definition badgerDBBatch_Delete (key : slice) : M (badgerDBBatch * BadgerDB) unit :=
  if len key =? 0 then throw errKeyEmpty
  else on_wb (bwb_Delete key).

Definition take_flush (b : badgerDBBatch) : badgerDBBatch :=
  {| bgb_wb := bgb_wb b; bgb_firstFlush := false |}.

(** [select { case <-b.firstFlush: ... default: ... }] *)
Definition badgerDBBatch_Write : M (badgerDBBatch * BadgerDB) unit :=
  bs ← get;
  if bgb_firstFlush bs.1 then _ ← on_fst (modify take_flush); on_wb bwb_Flush
  else throw (errorsNew "batch already flushed").

Definition badgerDBBatch_WriteSync : M (badgerDBBatch * BadgerDB) unit :=
  withSync (on_snd (on_bg bg_Sync)) badgerDBBatch_Write.

Definition badgerDBBatch_Close : M (badgerDBBatch * BadgerDB) unit :=
  _ ← on_fst (modify take_flush);
  on_fst (modify (λ b, {| bgb_wb := bwb_Cancel (bgb_wb b); bgb_firstFlush := bgb_firstFlush b |})).

#[global] Instance badgerDBBatch_ops : BatchOps BadgerDB badgerDBBatch := {|
  b_Set := badgerDBBatch_Set;
  b_Delete := badgerDBBatch_Delete;
  b_Write := badgerDBBatch_Write;
  b_WriteSync := badgerDBBatch_WriteSync;
  b_Close := badgerDBBatch_Close;
|}.

Definition BadgerDB_ops : DBOps BadgerDB badgerDBIterator badgerDBBatch := {|
  db_Get := BadgerDB_Get;
  db_Has := BadgerDB_Has;
  db_Set := BadgerDB_Set;
  db_SetSync := BadgerDB_SetSync;
  db_Delete := BadgerDB_Delete;
  db_DeleteSync := BadgerDB_DeleteSync;
  db_Iterator := BadgerDB_Iterator;
  db_ReverseIterator := BadgerDB_ReverseIterator;
  db_Close := BadgerDB_Close;
  db_NewBatch := BadgerDB_NewBatch;
  db_Print := BadgerDB_Print;
  db_Stats := BadgerDB_Stats;
|}.

End badgerdb.
Arguments BadgerDB : clear implicits.
Arguments badgerDBIterator : clear implicits.
Arguments badgerDBBatch : clear implicits.
