(* ===== verification/BadgerDBCorrect.v ===== *)
(** * The badger backend meets the contract of a database

    For every library that behaves as [BadgerLaws] says; for keys the library
    does not reserve, and for values that are not empty (the iterators return
    nil for an empty value). *)

From S2P Require Import Prelude Go Util Spec Types Client Cursor BadgerLib BadgerDB.

Section badgerdb_correct.
Context {D Tx C WB Item : Type} `{!BadgerOps D Tx C WB Item, !BadgerLaws D Tx C WB Item}.
Abbreviation iter := (badgerDBIterator Tx C).
Abbreviation batch := (badgerDBBatch WB).

Definition full_entry (kv : entry) : Prop := kv.1 ≠ [] ∧ kv.2 ≠ [].
Definition full_store (m : store) : Prop := map_Forall (λ k v, full_entry (k, v)) m.

Definition badger_limits : limits :=
  {| fits_write w := badger_fits w ∧ match w with WSet _ v => v ≠ [] | _ => True end;
     fits_read k := ¬ reserved k; batch_limit := Some txn_limit |}.

Lemma copy_nil_full v : v ≠ [] → copy_nil v = Some v.
Proof. by destruct v. Qed.

(** ** Iterators *)

(** The fields of the bounds of an iterator of the domain [(s, e)]. *)
Definition bounds_of (rev : bool) (s e : slice) : slice * slice := if rev then (e, s) else (s, e).

Definition bgi_rep (it : iter) (s e : slice) (l : list entry) : Prop :=
  let rev := bgi_reverse it in
  bad_bounds s e = false ∧ (bgi_start it, bgi_end it) = bounds_of rev s e ∧ bgi_lastErr it = None ∧
  ∃ L p, StronglySorted key_lt L ∧ Forall full_entry L ∧ bi_at (bgi_iter it) rev L p ∧
    positioned L s e rev p ∧ l = pending L s e rev p.

(** The test of [Valid] on the key. *)
Lemma badger_test s e (rev : bool) k :
  bad_bounds s e = false →
  let end_ := (bounds_of rev s e).2 in
  (if 0 <? len end_ then
     if (negb rev && (0 <=? bytes_Compare (Some k) end_)%Z) || (rev && (bytes_Compare (Some k) end_ <? 0)%Z)
     then false else true
   else true) = bool_decide (key_ahead s e rev k).
Proof.
  intros Hb end_. unfold key_ahead, end_, bounds_of. destruct rev; simpl.
  - destruct s as [[|x s]|]; [done| |by rewrite bool_decide_eq_true_2 by apply ble_nil]. simpl.
    apply eq_true_iff_eq. rewrite bool_decide_eq_true.
    destruct (Z.ltb_spec (bytes_Compare (Some k) (Some (x :: s))) 0) as [H|H].
    + apply bytes_Compare_lt in H. split; [done|]. intros Hle%not_blt. by destruct Hle.
    + split; [|done]. intros _. apply not_blt. intros Hlt. apply (bytes_Compare_lt (Some k) (Some (x :: s))) in Hlt. lia.
  - destruct e as [[|x e]|]; [by destruct s as [[|]|]| |done]. simpl. rewrite orb_false_r.
    apply eq_true_iff_eq. rewrite bool_decide_eq_true.
    destruct (Z.leb_spec 0 (bytes_Compare (Some k) (Some (x :: e)))) as [H|H].
    + split; [done|]. intros Hlt. apply (bytes_Compare_lt (Some k) (Some (x :: e))) in Hlt. lia.
    + split; [|done]. intros _. by apply (bytes_Compare_lt (Some k) (Some (x :: e))) in H.
Qed.

Lemma bgi_valid it s e l : bgi_rep it s e l → badgerDBIterator_isValid it = bool_decide (l ≠ []).
Proof.
  intros (Hb & Hends & _ & L & p & HL & _ & Hat & Hpos & ->). unfold badgerDBIterator_isValid.
  rewrite (bglaw_Valid _ _ _ _ Hat). destruct p as [i|]; [|by rewrite bool_decide_eq_false_2 by auto].
  rewrite bool_decide_eq_true_2 by eauto. cbn [negb].
  destruct (lookup_lt_is_Some_2 L i) as [[k v] Hkv]; [by eapply bglaw_bound|].
  rewrite (bglaw_Key _ _ _ (bglaw_Item _ _ _ _ _ Hat Hkv)).
  apply (f_equal snd) in Hends. simpl in Hends. rewrite Hends. rewrite badger_test by done.
  apply bool_decide_ext. split.
  - intros Hk. by rewrite (pending_step L s e _ i HL Hpos _ Hkv Hk).
  - intros Hne. destruct (decide (key_ahead s e (bgi_reverse it) k)) as [Hk|Hk]; [done|].
    destruct Hne. by apply (pending_stop _ _ _ _ _ HL _ Hkv).
Qed.

Lemma badger_Valid_spec it s e l :
  bgi_rep it s e l → badgerDBIterator_Valid it = (Ok (bool_decide (l ≠ [])), it).
Proof. intros H. unfold badgerDBIterator_Valid. by rewrite <-(bgi_valid _ _ _ _ H). Qed.

(** The entry the iterator is at, and the iterator after it. *)
Lemma bgi_cons it s e kv l :
  bgi_rep it s e (kv :: l) →
  item_ok (bi_Item (bgi_iter it)) kv.1 kv.2 ∧ full_entry kv ∧
  bgi_rep (bgi_set_iter (bi_Next (bgi_iter it)) it) s e l.
Proof.
  intros (Hb & Hends & Herr & L & p & HL & Hfull & Hat & Hpos & Hl). destruct p as [i|]; [|done].
  destruct (lookup_lt_is_Some_2 L i) as [x Hx]; [by eapply bglaw_bound|].
  destruct (decide (key_ahead s e (bgi_reverse it) x.1)) as [Hk|Hk];
    [|by rewrite (pending_stop _ _ _ _ _ HL _ Hx Hk) in Hl].
  rewrite (pending_step L s e _ i HL Hpos _ Hx Hk) in Hl. simplify_eq. split_and!.
  - by eapply bglaw_Item.
  - by eapply Forall_lookup_1.
  - split_and!; [done|done|done|]. exists L, (step_pos L (bgi_reverse it) i).
    split_and!; [done|done|by apply bglaw_Next|by apply positioned_step|done].
Qed.

(** A method that starts with [if !i.Valid() { panic(...) }]. *)
Lemma badger_guard {A} (f : M iter A) it s e l :
  bgi_rep it s e l →
  (v ← badgerDBIterator_Valid; if (v : bool) then f else panic "iterator is invalid") it =
    if bool_decide (l ≠ []) then f it else (Panic invalid_msg, it).
Proof.
  intros H. unfold mbind, M_bind. rewrite (badger_Valid_spec _ _ _ _ H).
  by destruct (bool_decide (l ≠ [])).
Qed.

#[global, refine] Instance badgerDBIterator_contract : IteratorContract iter := {| it_rep := bgi_rep |}.
Proof.
  - intros it s e l H. exists it. split; [exact (badger_Valid_spec _ _ _ _ H)|done].
  - intros it s e [k v] l H. eexists. split; [exact (badger_guard _ _ _ _ _ H)|].
    by destruct (bgi_cons _ _ _ _ _ H) as (_ & _ & ?).
  - intros it s e H. exists it. split; [exact (badger_guard _ _ _ _ _ H)|done].
  - intros it s e k v l H. exists it. split; [|done]. etrans; [exact (badger_guard _ _ _ _ _ H)|].
    destruct (bgi_cons _ _ _ _ _ H) as (Hit & [Hk _] & _). unfold mbind, M_bind. simpl in *.
    by rewrite (bglaw_KeyCopy _ _ _ Hit), copy_nil_full.
  - intros it s e H. exists it. split; [exact (badger_guard _ _ _ _ _ H)|done].
  - intros it s e k v l H. exists it. split; [|done]. etrans; [exact (badger_guard _ _ _ _ _ H)|].
    destruct (bgi_cons _ _ _ _ _ H) as (Hit & [_ Hv] & _).
    unfold mbind, M_bind, attempt, lift_result. simpl in *.
    by rewrite (bglaw_ValueCopy _ _ _ Hit), copy_nil_full.
  - intros it s e H. exists it. split; [exact (badger_guard _ _ _ _ _ H)|done].
  - by intros it s e l (_ & _ & ? & _).
  - intros it s e l _. by eexists.
Defined.

#[global] Instance badgerDBIterator_bounds : IteratorBounds iter.
Proof.
  intros it s e l (_ & Hends & _). change (it_Domain it) with (bgi_start it, bgi_end it). rewrite Hends.
  unfold bounds_of. destruct (bgi_reverse it); auto.
Qed.

(** [bytes.Equal(iter.Item().Key(), start)] fails away from the bound. *)
Lemma not_at_bound c L p start :
  bi_at c true L p → (∀ i kv, p = Some i → L !! i = Some kv → kv.1 ≠ data start) →
  bi_Valid c && bytes_Equal (item_Key (bi_Item c)) start = false.
Proof.
  intros Hat Hne. rewrite (bglaw_Valid _ _ _ _ Hat). destruct p as [i|]; [|done].
  rewrite bool_decide_eq_true_2 by eauto. destruct (lookup_lt_is_Some_2 L i) as [kv Hkv]; [by eapply bglaw_bound|].
  rewrite (bglaw_Key _ _ _ (bglaw_Item _ _ _ _ _ Hat Hkv)). unfold bytes_Equal.
  apply bool_decide_eq_false_2. by eapply Hne.
Qed.

(** Where [iteratorOpts] puts the iterator: [Seek] and, in reverse, one step
    when it stops at the bound itself. *)
Lemma start_reverse_at c L e :
  Forall full_entry L → (∀ k, e = Some k → k ≠ []) → bi_over c true L →
  let c1 := bi_Seek e c in
  bi_at (if bi_Valid c1 && bytes_Equal (item_Key (bi_Item c1)) e then bi_Next c1 else c1)
    true L (start_pos L None e true).
Proof.
  intros Hfull He Hc c1. pose proof (bglaw_Seek c true L e Hc) as Hat. fold c1 in Hat.
  unfold badger_seek_pos, seek_back_pos in Hat. unfold start_pos. destruct e as [e|]; simpl in *.
  - assert ((len (Some e) =? 0) = false) as Hlen by (specialize (He e eq_refl); by destruct e).
    rewrite Hlen in Hat. destruct (seek_pos L e) as [i|] eqn:Hs.
    + apply seek_Some in Hs as ([k v] & Hi & _ & Hlt). rewrite Hi in Hat. simpl in Hat.
      case_decide as Heq.
      * rewrite (bglaw_Valid _ _ _ _ Hat), bool_decide_eq_true_2 by eauto.
        rewrite (bglaw_Key _ _ _ (bglaw_Item _ _ _ _ _ Hat Hi)). injection Heq as ->.
        unfold bytes_Equal. rewrite bool_decide_eq_true_2 by done. exact (bglaw_Next _ _ _ _ Hat).
      * rewrite (not_at_bound _ _ _ _ Hat); [done|]. intros j kv Hj Hkv.
        apply blt_ne. eapply Hlt; [exact Hkv|]. destruct i; simplify_eq/=. lia.
    + rewrite (not_at_bound _ _ _ _ Hat); [done|]. intros j kv _ Hkv.
      apply seek_None in Hs. apply blt_ne. by eapply Forall_lookup_1 in Hs.
  - change (len None =? 0) with true in Hat. simpl in Hat.
    rewrite (not_at_bound _ _ _ _ Hat); [done|]. intros j kv _ Hkv.
    eapply Forall_lookup_1 in Hfull; [|exact Hkv]. apply Hfull.
Qed.

Lemma start_forward_at c L s :
  (∀ k, s = Some k → k ≠ []) → bi_over c false L →
  bi_at (bi_Seek s c) false L (start_pos L s None false).
Proof.
  intros Hs Hc. pose proof (bglaw_Seek c false L s Hc) as Hat. unfold badger_seek_pos in Hat.
  destruct s as [s|]; [|done]. specialize (Hs s eq_refl). by destruct s.
Qed.

Definition bgd_inv (db : BadgerDB D) : Prop := bg_ok (bg_db db) ∧ full_store (bg_model (bg_db db)).
Definition bgd_model (db : BadgerDB D) : store := bg_model (bg_db db).

Lemma good_bounds s e : bad_bounds s e = false →
  (∀ k, s = Some k → k ≠ []) ∧ (∀ k, e = Some k → k ≠ []).
Proof. unfold bad_bounds. destruct s as [[|]|], e as [[|]|]; naive_solver. Qed.

Lemma full_entries m : full_store m → Forall full_entry (entries m).
Proof. intros Hm. apply list.Forall_forall. intros [k v] Hkv%elem_of_entries. by apply Hm. Qed.

Lemma iteratorOpts_spec db (rev : bool) s e :
  bgd_inv db → bad_bounds s e = false →
  ∃ it, BadgerDB_iteratorOpts (bounds_of rev s e).1 (bounds_of rev s e).2 rev db = (Ok it, db) ∧
    bgi_rep it s e (scan (bgd_model db) s e rev).
Proof.
  intros [Hok Hfull] Hb. destruct (bglaw_NewTransaction _ Hok) as [Htx Hmodel].
  pose proof (bglaw_NewIterator _ rev Htx) as Hover. rewrite Hmodel in Hover.
  apply bglaw_Rewind, bglaw_at_over in Hover. fold (bgd_model db) in Hover.
  destruct (good_bounds s e Hb) as [Hs He].
  unfold BadgerDB_iteratorOpts. fold (bad_bounds (bounds_of rev s e).1 (bounds_of rev s e).2).
  assert (bad_bounds (bounds_of rev s e).1 (bounds_of rev s e).2 = false) as ->.
  { destruct rev; simpl; [|done]. unfold bad_bounds in *. by rewrite orb_comm. }
  eexists. split; [done|]. pose proof (entries_sorted (bgd_model db)) as HL.
  destruct (start_pos_spec (entries (bgd_model db)) s e rev HL) as [Hpos Hpend].
  split_and!; [done|by destruct rev|done|].
  exists (entries (bgd_model db)), (start_pos (entries (bgd_model db)) s e rev).
  split_and!; [done|by apply full_entries| |done|exact (eq_sym Hpend)].
  destruct rev; simpl; [by apply start_reverse_at; [apply full_entries|..]|by apply start_forward_at].
Qed.

(** ** Point operations *)

Lemma on_bg_reply {A} (f : M D A) (db : BadgerDB D) (r : result A) (m : store) :
  full_store m → reply f (bg_db db) r (λ d, bg_ok d ∧ bg_model d = m) →
  reply (on_bg f) db r (λ db', bgd_inv db' ∧ bgd_model db' = m).
Proof.
  intros Hm Hf.
  eapply reply_mono; [exact (on_field_reply bg_db (λ d _, {| bg_db := d |}) f db r _ (λ _ _, eq_refl) Hf)|].
  simpl. intros [d] [Hok Hmodel]. simpl in *. unfold bgd_inv. simpl. by rewrite Hmodel.
Qed.

(** [Get] repairs an empty value, whatever the store holds. *)
Lemma View_Get_reply d key :
  bg_ok d → (len key =? 0) = false → ¬ reserved (data key) →
  reply (BadgerDB_Get key) {| bg_db := d |} (Ok (bg_model d !! data key))
    (λ db', bg_ok (bg_db db') ∧ bg_model (bg_db db') = bg_model d).
Proof.
  intros Hok Hk Hr. unfold BadgerDB_Get. rewrite Hk.
  apply (on_field_reply bg_db (λ d _, {| bg_db := d |}) _ _ _ (λ d', bg_ok d' ∧ bg_model d' = bg_model d)
    (λ _ _, eq_refl)).
  apply bglaw_View; [done|]. intros tx Htx Hm.
  pose proof (bglaw_Get tx key Htx (len_ne key Hk) Hr) as H. rewrite Hm in H.
  unfold mbind, M_bind, attempt. simpl. destruct (bg_model d !! data key) as [v|] eqn:Hv.
  - destruct H as (item & H & Hitem). destruct (txn_Get key tx) as [r tx']. simpl in H. subst r.
    unfold lift_result. rewrite (bglaw_ValueCopy _ _ _ Hitem). by destruct v.
  - destruct (txn_Get key tx) as [r tx']. simpl in H. subst r. by rewrite decide_True.
Qed.

Lemma BadgerDB_Get_spec db key :
  bgd_inv db → ¬ reserved (data key) →
  reply (BadgerDB_Get key) db (spec_Get (bgd_model db) key)
    (λ db', bgd_inv db' ∧ bgd_model db' = bgd_model db).
Proof.
  intros [Hok Hfull] Hr. unfold spec_Get.
  destruct (len key =? 0) eqn:Hk; [unfold BadgerDB_Get; rewrite Hk; by apply reply_throw|].
  destruct db as [d]. eapply reply_mono; [by apply View_Get_reply|].
  simpl. intros [d'] [Hok' Hm]. unfold bgd_inv. simpl in *. by rewrite Hm.
Qed.

Lemma BadgerDB_Has_spec db key :
  bgd_inv db → ¬ reserved (data key) →
  reply (BadgerDB_Has key) db (spec_Has (bgd_model db) key)
    (λ db', bgd_inv db' ∧ bgd_model db' = bgd_model db).
Proof.
  intros [Hok Hfull] Hr. unfold BadgerDB_Has, spec_Has.
  destruct (len key =? 0) eqn:Hk; [by apply reply_throw|].
  apply on_bg_reply; [done|]. apply bglaw_View; [done|]. intros tx Htx Hm.
  pose proof (bglaw_Get tx key Htx (len_ne key Hk) Hr) as H. rewrite Hm in H. fold (bgd_model db) in H.
  unfold mbind, M_bind, attempt. destruct (bgd_model db !! data key) as [v|] eqn:Hv.
  - destruct H as (item & H & Hitem). destruct (txn_Get key tx) as [r tx']. simpl in H. by subst r.
  - destruct (txn_Get key tx) as [r tx']. simpl in H. subst r. by rewrite decide_True.
Qed.

Lemma full_insert m k v : full_store m → k ≠ [] → v ≠ [] → full_store (<[k := v]> m).
Proof. intros. by apply map_Forall_insert_2. Qed.

Lemma BadgerDB_Set_spec db key value :
  bgd_inv db → set_fits badger_limits key value →
  reply (BadgerDB_Set key value) db (spec_Set (bgd_model db) key value).1
    (λ db', bgd_inv db' ∧ bgd_model db' = (spec_Set (bgd_model db) key value).2).
Proof.
  intros [Hok Hfull] Hfit. unfold BadgerDB_Set, spec_Set.
  destruct (len key =? 0) eqn:Hk; [by apply reply_throw|].
  destruct value as [v|]; [|by apply reply_throw]. destruct Hfit as [Hfit Hv]. simpl in Hv.
  apply on_bg_reply; [by apply full_insert; [|apply len_ne|]|].
  apply bglaw_Update; [done|]. intros tx Htx Hm. unfold bgd_model. rewrite <-Hm.
  apply bglaw_Set; [done|by apply len_ne|done].
Qed.

Lemma BadgerDB_Delete_spec db key :
  bgd_inv db → delete_fits badger_limits key →
  reply (BadgerDB_Delete key) db (spec_Delete (bgd_model db) key).1
    (λ db', bgd_inv db' ∧ bgd_model db' = (spec_Delete (bgd_model db) key).2).
Proof.
  intros [Hok Hfull] [Hfit _]. unfold BadgerDB_Delete, spec_Delete.
  destruct (len key =? 0) eqn:Hk; [by apply reply_throw|].
  apply on_bg_reply; [by apply map_Forall_delete|].
  apply bglaw_Update; [done|]. intros tx Htx Hm. unfold bgd_model. rewrite <-Hm.
  apply bglaw_Delete; [done|by apply len_ne|done].
Qed.

(** The [Sync] variants run [Sync] after a call that succeeded. *)
Lemma withSync_spec (f : M (BadgerDB D) unit) db (r : result unit) m :
  (∃ e, r = Err e) ∨ r = Ok tt →
  reply f db r (λ db', bgd_inv db' ∧ bgd_model db' = m) →
  reply (withSync (on_bg bg_Sync) f) db r (λ db', bgd_inv db' ∧ bgd_model db' = m).
Proof.
  intros [[e ->] | ->] Hf; [by apply reply_bind_Err|].
  eapply reply_bind; [exact Hf|]. simpl. intros db' [[Hok Hfull] <-].
  apply on_bg_reply; [done|]. by apply bglaw_Sync.
Qed.

(** ** Batches *)

Definition full_write (w : write) : Prop :=
  match w with WSet k v => k ≠ [] ∧ v ≠ [] | WDelete _ => True end.

Definition bgb_rep (b : batch) (ws : option (list write)) : Prop :=
  match ws with
  | Some ws => bgb_firstFlush b = true ∧ wb_open (bgb_wb b) ws ∧ Forall full_write ws
  | None => bgb_firstFlush b = false ∧ wb_done (bgb_wb b)
  end.

Lemma full_apply ws m : Forall full_write ws → full_store m → full_store (apply_writes ws m).
Proof.
  intros Hws. revert m. unfold apply_writes. induction Hws as [|w ws Hw _ IH]; intros m Hm; simpl; [done|].
  apply IH. destruct w as [k v|k]; simpl in *; [by apply full_insert; destruct Hw|by apply map_Forall_delete].
Qed.

Lemma on_wb_reply {A} (f : M (WB * D) A) (b : batch) (db : BadgerDB D) (r : result A) (Q : WB → Prop) (m : store) :
  full_store m → reply f (bgb_wb b, bg_db db) r (λ bd, Q bd.1 ∧ bg_ok bd.2 ∧ bg_model bd.2 = m) →
  reply (on_wb f) (b, db) r
    (λ bs, (Q (bgb_wb bs.1) ∧ bgb_firstFlush bs.1 = bgb_firstFlush b) ∧ bgd_inv bs.2 ∧ bgd_model bs.2 = m).
Proof.
  intros Hm ([wb d] & H & HQ & Hok & Hmodel). unfold on_wb. eexists. rewrite H. split; [done|].
  simpl in *. unfold bgd_inv, bgd_model. simpl. by rewrite Hmodel.
Qed.

Lemma badgerDBBatch_Set_spec b ws db key value :
  bgb_rep b (Some ws) → bgd_inv db → set_fits badger_limits key value →
  within badger_limits (S (length ws)) →
  reply (badgerDBBatch_Set key value) (b, db) (spec_batch_Set (Some ws) key value).1
    (λ bs, bgb_rep bs.1 (spec_batch_Set (Some ws) key value).2 ∧
           bgd_inv bs.2 ∧ bgd_model bs.2 = bgd_model db).
Proof.
  intros (Hf & Hwb & Hws) [Hok Hfull] Hfit Hlim. unfold badgerDBBatch_Set, spec_batch_Set.
  destruct (len key =? 0) eqn:Hk; [by apply reply_throw|].
  destruct value as [v|]; [|by apply reply_throw]. destruct Hfit as [Hfit Hv]. simpl in Hv, Hlim.
  eapply reply_mono.
  - apply (on_wb_reply _ _ _ (Ok tt) (λ wb, wb_open wb (ws ++ [WSet (data key) v])) _ Hfull).
    by apply bglaw_wb_Set; try apply len_ne.
  - simpl. intros [b' db'] ([Hwb' Hf'] & Hinv). simpl in *. split; [|done].
    split_and!; [by rewrite Hf'|done|]. apply Forall_app. split; [done|].
    constructor; [|done]. split; [by apply len_ne|done].
Qed.

Lemma badgerDBBatch_Delete_spec b ws db key :
  bgb_rep b (Some ws) → bgd_inv db → delete_fits badger_limits key →
  within badger_limits (S (length ws)) →
  reply (badgerDBBatch_Delete key) (b, db) (spec_batch_Delete (Some ws) key).1
    (λ bs, bgb_rep bs.1 (spec_batch_Delete (Some ws) key).2 ∧
           bgd_inv bs.2 ∧ bgd_model bs.2 = bgd_model db).
Proof.
  intros (Hf & Hwb & Hws) [Hok Hfull] [Hfit _] Hlim. unfold badgerDBBatch_Delete, spec_batch_Delete.
  destruct (len key =? 0) eqn:Hk; [by apply reply_throw|]. simpl in Hlim.
  eapply reply_mono.
  - apply (on_wb_reply _ _ _ (Ok tt) (λ wb, wb_open wb (ws ++ [WDelete (data key)])) _ Hfull).
    by apply bglaw_wb_Delete; try apply len_ne.
  - simpl. intros [b' db'] ([Hwb' Hf'] & Hinv). simpl in *. split; [|done].
    split_and!; [by rewrite Hf'|done|]. apply Forall_app. split; [done|]. by constructor.
Qed.

Lemma badgerDBBatch_Write_spec b ws db :
  bgb_rep b (Some ws) → bgd_inv db →
  reply badgerDBBatch_Write (b, db) (Ok tt)
    (λ bs, bgb_rep bs.1 None ∧ bgd_inv bs.2 ∧ bgd_model bs.2 = apply_writes ws (bgd_model db)).
Proof.
  intros (Hf & Hwb & Hws) [Hok Hfull]. unfold badgerDBBatch_Write.
  eapply (reply_bind _ _ _ _ _ (eq (b, db))); [by eexists|]. intros ? <-. simpl. rewrite Hf.
  eapply (reply_bind _ _ _ _ _ (eq (take_flush b, db))); [by eexists|]. intros ? <-.
  eapply reply_mono; [apply (on_wb_reply _ _ _ _ wb_done); [by apply (full_apply ws)|by apply bglaw_wb_Flush]|].
  simpl. intros [b' db'] ([Hwb' Hf'] & Hinv). simpl in *. by split_and!; try apply Hinv.
Qed.

Lemma badgerDBBatch_WriteSync_spec b ws db :
  bgb_rep b (Some ws) → bgd_inv db →
  reply badgerDBBatch_WriteSync (b, db) (Ok tt)
    (λ bs, bgb_rep bs.1 None ∧ bgd_inv bs.2 ∧ bgd_model bs.2 = apply_writes ws (bgd_model db)).
Proof.
  intros Hb Hinv. eapply reply_bind; [by apply (badgerDBBatch_Write_spec b ws)|].
  simpl. intros [b' db'] (Hb' & [Hok Hfull] & Hm). simpl in *.
  destruct (on_bg_reply bg_Sync db' (Ok tt) (bgd_model db') Hfull (bglaw_Sync _ Hok)) as (db2 & H & Hinv2 & Hm2).
  exists (b', db2). unfold on_snd. rewrite H. split; [done|]. simpl. by split; [exact Hb'|split; [exact Hinv2|congruence]].
Qed.

Lemma badgerDBBatch_closed b db (m : M (batch * BadgerDB D) unit) :
  bgb_rep b None → bgd_inv db → batch_method m →
  ∃ e, reply m (b, db) (Err e)
    (λ bs, bgb_rep bs.1 None ∧ bgd_inv bs.2 ∧ bgd_model bs.2 = bgd_model db).
Proof.
  intros [Hf Hwb] [Hok Hfull] [key value|key| |]; simpl.
  - unfold badgerDBBatch_Set. destruct (len key =? 0); [exists errKeyEmpty; by apply reply_throw|].
    destruct value as [v|]; [|exists errValueNil; by apply reply_throw]. simpl.
    destruct (bglaw_wb_Set_done _ _ key v Hwb Hok) as [e He]. exists e.
    eapply reply_mono; [exact (on_wb_reply _ _ _ _ wb_done _ Hfull He)|].
    simpl. intros [b' db'] ([Hwb' Hf'] & Hinv). simpl in *. split; [|done]. by split; [rewrite Hf'|].
  - unfold badgerDBBatch_Delete. destruct (len key =? 0); [exists errKeyEmpty; by apply reply_throw|].
    destruct (bglaw_wb_Delete_done _ _ key Hwb Hok) as [e He]. exists e.
    eapply reply_mono; [exact (on_wb_reply _ _ _ _ wb_done _ Hfull He)|].
    simpl. intros [b' db'] ([Hwb' Hf'] & Hinv). simpl in *. split; [|done]. by split; [rewrite Hf'|].
  - eexists. exists (b, db). unfold badgerDBBatch_Write, mbind, M_bind. simpl. by rewrite Hf.
  - eexists. exists (b, db). unfold badgerDBBatch_WriteSync, withSync, badgerDBBatch_Write, mbind, M_bind.
    simpl. by rewrite Hf.
Qed.

(** ** The contract *)

#[global] Instance BadgerDB_contract : DBContract (BadgerDB_ops (D := D) (Tx := Tx) (C := C) (WB := WB)).
Proof.
  refine {| db_inv := bgd_inv; db_model := bgd_model; db_fits := badger_limits; batch_rep := bgb_rep |}.
  - exact BadgerDB_Get_spec.
  - exact BadgerDB_Has_spec.
  - exact BadgerDB_Set_spec.
  - intros db key value H Hf. apply withSync_spec; [apply spec_Set_cases|by apply BadgerDB_Set_spec].
  - exact BadgerDB_Delete_spec.
  - intros db key H Hf. apply withSync_spec; [apply spec_Delete_cases|by apply BadgerDB_Delete_spec].
  - intros db s e H Hb. destruct (iteratorOpts_spec db false s e H Hb) as (it & Hit & Hrep).
    exists it. split; [|done]. by exists db.
  - intros db s e H Hb. destruct (iteratorOpts_spec db true s e H Hb) as (it & Hit & Hrep).
    exists it. split; [|done]. by exists db.
  - intros db s e H Hb. simpl. unfold BadgerDB_Iterator, BadgerDB_iteratorOpts. fold (bad_bounds s e).
    rewrite Hb. by apply reply_throw.
  - intros db s e H Hb. simpl. unfold BadgerDB_ReverseIterator, BadgerDB_iteratorOpts.
    unfold bad_bounds in Hb. rewrite orb_comm in Hb. rewrite Hb. by apply reply_throw.
  - intros db [Hok Hfull]. eexists. split; [by exists db|]. split_and!; [done|by apply bglaw_NewWriteBatch|done].
  - exact badgerDBBatch_Set_spec.
  - exact badgerDBBatch_Delete_spec.
  - exact badgerDBBatch_Write_spec.
  - exact badgerDBBatch_WriteSync_spec.
  - exact badgerDBBatch_closed.
  - intros b ws db Hb H. eexists. split; [done|]. simpl. split; [|done]. split; [done|]. simpl.
    apply bglaw_wb_Cancel. destruct ws as [ws|]; simpl in Hb; [left; exists ws|right]; by destruct_and!.
  - intros db [Hok _]. destruct (bglaw_Close _ Hok) as (d & H & _). exists {| bg_db := d |}.
    simpl. unfold BadgerDB_Close, on_bg, on_field. by rewrite H.
Defined.

End badgerdb_correct.
