(* ===== verification/BadgerDBThms.v ===== *)
(** * The badger backend: theorems and instances *)

From S2P Require Import Prelude Go Util Spec Types Client BatchLife Cursor BadgerLib BadgerDB BadgerDBCorrect.

Section theorems.
Context {D Tx C WB Item : Type} `{!BadgerOps D Tx C WB Item, !BadgerLaws D Tx C WB Item}.
Abbreviation badger_ops := (BadgerDB_ops (D := D) (Tx := Tx) (C := C) (WB := WB)).

(** C10: for every library that behaves as documented, every program of a
    client on the badger backend whose writes the library accepts (keys that
    are not reserved, sizes within the limits, batches that fit one
    transaction) and whose values are not empty gets the answers of the
    abstract store, and the library holds the contents of that store. *)
Theorem BadgerDB_refines fuel cs (db : BadgerDB D) :
  bg_ok (bg_db db) → full_store (bg_model (bg_db db)) → Forall (call_fits badger_limits) cs →
  size (bg_model (bg_db db)) + weight cs < fuel →
  ∃ db', run_calls badger_ops fuel cs db = ((spec_calls cs (bg_model (bg_db db))).1, db') ∧
    bg_ok (bg_db db') ∧ bg_model (bg_db db') = (spec_calls cs (bg_model (bg_db db))).2.
Proof.
  intros Hok Hfull Hfit Hfuel.
  destruct (run_calls_spec (DBContract0 := BadgerDB_contract) badger_ops fuel cs db)
    as (db' & Hrun & [Hok' _] & Hm); [done|done|done|]. by exists db'.
Qed.

(** C24: whatever calls a client makes on a badger batch, in whatever
    order and however often ([Set], [Delete], [Write], [WriteSync], [Close]),
    every call returns, although flushing a batch of the library twice, or after
    [Cancel], panics: the first [Write] applies the operations of the batch in
    order, every later call but [Close] fails and changes nothing, and a batch
    that was closed first is never written.  This is for arguments within the
    library's limits on keys and values (no empty value among them), for no more
    calls than a transaction has room for, beyond which the library commits a batch
    on its own, and for a database without empty values. *)
Theorem BadgerDB_batch_life (db : BadgerDB D) l :
  bg_ok (bg_db db) → full_store (bg_model (bg_db db)) →
  Forall (batch_step_fits badger_limits) l → length l ≤ txn_limit →
  let spec := spec_batch_steps l (Some []) (bg_model (bg_db db)) in
  ∃ b rs b' db', BadgerDB_NewBatch db = (Ok b, db) ∧
    run_batch_steps l (b, db) = (rs, (b', db')) ∧ Forall returned rs ∧ Forall2 answers rs spec.1 ∧
    bg_ok (bg_db db') ∧ bg_model (bg_db db') = spec.2.
Proof.
  intros Hok Hfull Hfit Hlen spec.
  destruct (run_batch_steps_spec badger_ops (DBContract0 := BadgerDB_contract) l
    {| bgb_wb := bg_NewWriteBatch (bg_db db); bgb_firstFlush := true |} (Some []) db)
    as (rs & b' & db' & Hrun & Hrs & [Hok' _] & Hm); [|done|done|done|].
  { split_and!; [done|by apply bglaw_NewWriteBatch|done]. }
  eexists _, rs, b', db'. split_and!; [done|exact Hrun|by eapply spec_batch_steps_returned|done|done|done].
Qed.

(** The iterator from a key that is stored. *)
Lemma iterator_at (db : BadgerDB D) k v :
  bg_ok (bg_db db) → k ≠ [] → bg_model (bg_db db) !! k = Some v →
  ∃ it : badgerDBIterator Tx C, BadgerDB_Iterator (Some k) None db = (Ok it, db) ∧
    item_ok (bi_Item (bgi_iter it)) k v ∧ badgerDBIterator_isValid it = true.
Proof.
  intros Hok Hk Hv. destruct (bglaw_NewTransaction _ Hok) as [Htx Hmodel].
  pose proof (bglaw_NewIterator _ false Htx) as Hover. rewrite Hmodel in Hover.
  apply bglaw_Rewind, bglaw_at_over, (start_forward_at _ _ (Some k)) in Hover; [|naive_solver].
  apply elem_of_entries, list_elem_of_lookup in Hv as [j Hj].
  simpl in Hover. rewrite (seek_at _ _ _ _ (entries_sorted _) Hj) in Hover.
  eexists. split; [unfold BadgerDB_Iterator, BadgerDB_iteratorOpts; by destruct k|].
  split; [by apply (bglaw_Item _ _ _ _ (k, v) Hover)|].
  unfold badgerDBIterator_isValid. simpl. by rewrite (bglaw_Valid _ _ _ _ Hover).
Qed.

(** C38: where the iterators of the backend leave the contract.  The
    [Domain] of a reverse iterator over [(start, end)] is [(end, start)],
    although it delivers the entries of that domain; and at an entry with an
    empty value [Value] is nil, although [Get] returns an empty slice. *)
Theorem BadgerDB_iterator_quirks (db : BadgerDB D) :
  bg_ok (bg_db db) →
  (∀ s e, full_store (bg_model (bg_db db)) → bad_bounds s e = false →
    ∃ it, BadgerDB_ReverseIterator s e db = (Ok it, db) ∧ badgerDBIterator_Domain it = (e, s) ∧
      ∀ fuel, size (bg_model (bg_db db)) < fuel →
        reply (collect fuel) it (Ok (as_slices (scan (bg_model (bg_db db)) s e true))) (λ _, True)) ∧
  (∀ k, k ≠ [] → ¬ reserved k → bg_model (bg_db db) !! k = Some [] →
    ∃ it, BadgerDB_Iterator (Some k) None db = (Ok it, db) ∧
      badgerDBIterator_Key it = (Ok (Some k), it) ∧ badgerDBIterator_Value it = (Ok None, it) ∧
      (BadgerDB_Get (Some k) db).1 = Ok (Some [])).
Proof.
  intros Hok. split.
  - intros s e Hfull Hb. destruct (iteratorOpts_spec db true s e) as (it & Hit & Hrep); [done|done|].
    exists it. split_and!; [exact Hit| |].
    + destruct Hrep as (_ & Hends & _). unfold badgerDBIterator_Domain. rewrite Hends.
      unfold BadgerDB_iteratorOpts in Hit. case_match; [done|]. by injection Hit as <-.
    + intros fuel Hfuel. eapply reply_mono; [eapply collect_spec; [exact Hrep|]|done].
      eapply Nat.le_lt_trans; [apply length_scan|exact Hfuel].
  - intros k Hk Hres Hv. destruct (iterator_at db k [] Hok Hk Hv) as (it & Hit & Hitem & Hvalid).
    exists it. split_and!; [exact Hit|..].
    + unfold badgerDBIterator_Key, badgerDBIterator_Valid, mbind, M_bind. simpl.
      by rewrite Hvalid, (bglaw_KeyCopy _ _ _ Hitem), copy_nil_full.
    + unfold badgerDBIterator_Value, badgerDBIterator_Valid, mbind, M_bind. simpl.
      rewrite Hvalid. unfold attempt, lift_result. by rewrite (bglaw_ValueCopy _ _ _ Hitem).
    + destruct db as [d]. destruct (View_Get_reply d (Some k)) as (db' & -> & _); [done|by destruct k|done|].
      simpl in *. by rewrite Hv.
Qed.

End theorems.

(** ** Instances on the reference library *)

#[local] Instance ref_badger_laws :
  BadgerLaws store store (bool * list entry * option nat) (option (list write)) entry := RefBadger.laws.

Definition badger_of (m : store) : BadgerDB store := {| bg_db := m |}.

Lemma badger_of_ok m : bg_ok (bg_db (badger_of m)).
Proof. exact Logic.I. Qed.

Definition badger_program : list call :=
  [CSet (Some [x62]) (Some [x02]); CSetSync (Some [x61]) (Some [x01]); CGet (Some [x62]);
   CBatch [BSet (Some [x63]) (Some [x03]); BDelete (Some [x62])] true;
   CScan None (Some [x63]) true; CScan (Some [x61]) None false].

Lemma BadgerDB_refines_witness :
  ∃ db', run_calls BadgerDB_ops 10 badger_program (badger_of ∅) =
    ((spec_calls badger_program ∅).1, db') ∧ bg_model (bg_db db') = (spec_calls badger_program ∅).2.
Proof.
  destruct (BadgerDB_refines 10 badger_program (badger_of ∅)) as (db' & H1 & _ & H2).
  - apply badger_of_ok.
  - change (full_store ∅). apply map_Forall_empty.
  - by repeat constructor; try (intros [? H]; discriminate H); try (cbv; discriminate); try (cbv; lia).
  - simpl. rewrite map_size_empty. cbv. lia.
  - exists db'. exact (conj H1 H2).
Defined.

(** Written twice, filled after that, and closed. *)
Definition badger_steps : list batch_step :=
  [BCall (BSet (Some [x61]) (Some [x01])); BWrite false; BWrite true;
   BCall (BDelete (Some [x61])); BClose; BWrite false; BClose].

Lemma BadgerDB_batch_life_witness :
  ∃ b rs b' db', BadgerDB_NewBatch (badger_of ∅) = (Ok b, badger_of ∅) ∧
    run_batch_steps badger_steps (b, badger_of ∅) = (rs, (b', db')) ∧ Forall returned rs ∧
    bg_model (bg_db db') = {[ [x61] := [x01] ]}.
Proof.
  destruct (BadgerDB_batch_life (badger_of ∅) badger_steps) as (b & rs & b' & db' & H1 & H2 & H3 & _ & _ & H4).
  - apply badger_of_ok.
  - change (full_store ∅). apply map_Forall_empty.
  - by repeat constructor; try (intros [? H]; discriminate H); try (cbv; discriminate).
  - cbv. lia.
  - exists b, rs, b', db'. split_and!; [exact H1|exact H2|exact H3|exact H4].
Defined.

Lemma BadgerDB_iterator_quirks_witness :
  (∃ it, BadgerDB_ReverseIterator (Some [x61]) (Some [x63]) (badger_of {[ [x62] := [x02] ]}) =
      (Ok it, badger_of {[ [x62] := [x02] ]}) ∧ badgerDBIterator_Domain it = (Some [x63], Some [x61])) ∧
  (∃ it, BadgerDB_Iterator (Some [x61]) None (badger_of {[ [x61] := [] ]}) =
      (Ok it, badger_of {[ [x61] := [] ]}) ∧ badgerDBIterator_Value it = (Ok None, it)).
Proof.
  split.
  - destruct (proj1 (BadgerDB_iterator_quirks (badger_of {[ [x62] := [x02] ]}) (badger_of_ok _))
      (Some [x61]) (Some [x63])) as (it & H1 & H2 & _).
    + by apply map_Forall_singleton.
    + reflexivity.
    + exists it. exact (conj H1 H2).
  - destruct (proj2 (BadgerDB_iterator_quirks (badger_of {[ [x61] := [] ]}) (badger_of_ok _)) [x61])
      as (it & H1 & _ & H2 & _).
    + discriminate.
    + intros [? H]. discriminate H.
    + apply lookup_singleton_eq.
    + exists it. exact (conj H1 H2).
Defined.
