(* ===== verification/BadgerConc.v ===== *)
(** * badger_db.go: one batch, several goroutines

    The methods of a badger batch as the actions they consist of: the [select]
    on the channel [firstFlush] is one, and every call of the library is one.
    Any number of goroutines call the methods; a schedule says whose action is
    next. *)

From S2P Require Import Prelude Go Util Spec Types Client BatchLife BadgerLib BadgerDB BadgerDBCorrect.

Section conc.
Context {D Tx C WB Item : Type} `{!BadgerOps D Tx C WB Item}.
Abbreviation batch := (badgerDBBatch WB).
Abbreviation shared := (batch * BadgerDB D)%type.

(** ** Goroutines *)

(** Where a goroutine is in the call it makes: before it, before [b.wb.Flush()],
    before [db.Sync()], before [b.wb.Cancel()]. *)
Inductive pc := Ready | Flushing | Syncing | Cancelling.

(** The calls a goroutine has still to finish. *)
Abbreviation thread := (list batch_step * pc)%type.

(** One action of the call [c]: the result of the call, or where it goes on. *)
Definition act (c : batch_step) (p : pc) (bs : shared) : (result unit + pc) * shared :=
  match p, c with
  | Ready, BCall (BSet key value) => let '(r, bs) := badgerDBBatch_Set key value bs in (inl r, bs)
  | Ready, BCall (BDelete key) => let '(r, bs) := badgerDBBatch_Delete key bs in (inl r, bs)
  | Ready, BWrite _ =>                               (* select { case <-b.firstFlush: ... *)
      if bgb_firstFlush bs.1 then (inr Flushing, (take_flush bs.1, bs.2))
      else (inl (Err (errorsNew "batch already flushed")), bs)
  | Ready, BClose => (inr Cancelling, (take_flush bs.1, bs.2))
  | Flushing, _ =>
      let '(r, bs) := on_wb bwb_Flush bs in
      (match r, c with Ok _, BWrite true => inr Syncing | _, _ => inl r end, bs)
  | Syncing, _ => let '(r, bs) := on_snd (on_bg bg_Sync) bs in (inl r, bs)
  | Cancelling, _ =>
      (inl (Ok tt), ({| bgb_wb := bwb_Cancel (bgb_wb bs.1); bgb_firstFlush := bgb_firstFlush bs.1 |}, bs.2))
  end.

(** A call whose actions are not interrupted: three at most. *)
Definition uninterrupted (c : batch_step) (bs : shared) : result unit * shared :=
  match act c Ready bs with
  | (inl r, bs) => (r, bs)
  | (inr p, bs) =>
      match act c p bs with
      | (inl r, bs) => (r, bs)
      | (inr p, bs) => match act c p bs with (inl r, bs) => (r, bs) | (inr _, bs) => (Diverge, bs) end
      end
  end.

(** ** The system *)

(** [co_trace] and [co_flushes] are history variables: the calls that have
    returned, in that order, and how often [b.wb.Flush()] was called. *)
Record conc := Conc {
  co_shared : shared;
  co_threads : list thread;
  co_trace : list (batch_step * result unit);
  co_flushes : nat;
}.

Definition start (bs : shared) (programs : list (list batch_step)) : conc :=
  {| co_shared := bs; co_threads := (λ l, (l, Ready)) <$> programs; co_trace := []; co_flushes := 0 |}.

Definition flushing (t : thread) : nat := match t.2 with Flushing => 1 | _ => 0 end.
Definition syncing (t : thread) : nat := match t.2 with Syncing => 1 | _ => 0 end.

(** The next action of the goroutine [i], when it has one. *)
Definition bstep (s : conc) (i : nat) : conc :=
  match co_threads s !! i with
  | Some (c :: todo, p) =>
      let n := co_flushes s + flushing (c :: todo, p) in
      match act c p (co_shared s) with
      | (inl r, bs) => Conc bs (<[i := (todo, Ready)]> (co_threads s)) (co_trace s ++ [(c, r)]) n
      | (inr p', bs) => Conc bs (<[i := (c :: todo, p')]> (co_threads s)) (co_trace s) n
      end
  | _ => s
  end.

Definition run (s : conc) (sched : list nat) : conc := fold_left bstep sched s.

Definition finished (s : conc) : Prop := Forall (λ t, t.1 = []) (co_threads s).

(** The operations the library has accepted, and the writes that succeeded. *)
Definition accepted_by (cr : batch_step * result unit) : list write :=
  match cr with
  | (BCall (BSet key value), Ok _) => [WSet (data key) (data value)]
  | (BCall (BDelete key), Ok _) => [WDelete (data key)]
  | _ => []
  end.
Definition accepted (tr : list (batch_step * result unit)) : list write := tr ≫= accepted_by.
Definition written (cr : batch_step * result unit) : nat :=
  match cr with (BWrite _, Ok _) => 1 | _ => 0 end.
Definition is_write (c : batch_step) : nat := match c with BWrite _ => 1 | _ => 0 end.
Definition writes_of (t : thread) : nat := sum_list_with is_write t.1.

(** ** Calls that are not interrupted are the methods of the batch *)

Lemma uninterrupted_method c bs : uninterrupted c bs = run_batch_step c bs.
Proof.
  destruct bs as [[wb f] db]. destruct c as [[key value|key]|sync|]; unfold uninterrupted; simpl.
  - by destruct (badgerDBBatch_Set _ _ _).
  - by destruct (badgerDBBatch_Delete _ _).
  - destruct sync; unfold badgerDBBatch_WriteSync, withSync, badgerDBBatch_Write, mbind, M_bind; simpl;
      destruct f; try done; simpl; destruct (bwb_Flush _) as [[[]|?|?|] [wb' d]]; try done; simpl.
    by destruct (on_bg bg_Sync _).
  - done.
Qed.

(** ** At most one flush, whatever the goroutines call *)

Definition tokens (s : conc) : nat := Nat.b2n (bgb_firstFlush (co_shared s).1).

Lemma on_wb_flag {A} (m : M (WB * D) A) bs : bgb_firstFlush (on_wb m bs).2.1 = bgb_firstFlush bs.1.
Proof. destruct bs as [b db]. unfold on_wb. by destruct (m _) as [r [wb d]]. Qed.

Lemma Set_flag key value bs : bgb_firstFlush (badgerDBBatch_Set key value bs).2.1 = bgb_firstFlush bs.1.
Proof. unfold badgerDBBatch_Set. destruct (len key =? 0), (is_nil value); try done. apply on_wb_flag. Qed.

Lemma Delete_flag key bs : bgb_firstFlush (badgerDBBatch_Delete key bs).2.1 = bgb_firstFlush bs.1.
Proof. unfold badgerDBBatch_Delete. destruct (len key =? 0); [done|]. apply on_wb_flag. Qed.

(** The element of the channel, the goroutine about to flush, the flush. *)
Definition next_flushing (o : result unit + pc) : nat :=
  match o with inr Flushing => 1 | _ => 0 end.

Lemma act_tokens c p bs (o := (act c p bs).1) (bs' := (act c p bs).2) :
  next_flushing o + Nat.b2n (bgb_firstFlush bs'.1) ≤ Nat.b2n (bgb_firstFlush bs.1).
Proof.
  unfold o, bs'. destruct p; simpl.
  - destruct c as [[key value|key]|sync|]; simpl.
    + pose proof (Set_flag key value bs) as H. destruct (badgerDBBatch_Set key value bs). simpl in *. by rewrite H.
    + pose proof (Delete_flag key bs) as H. destruct (badgerDBBatch_Delete key bs). simpl in *. by rewrite H.
    + destruct (bgb_firstFlush bs.1) eqn:E; simpl; [lia|]. by rewrite E.
    + lia.
  - pose proof (on_wb_flag bwb_Flush bs) as H. destruct (on_wb bwb_Flush bs) as [r bs1]. simpl in *.
    rewrite H. by destruct r, c as [|[]|].
  - destruct bs as [b db]. simpl. by destruct (on_bg bg_Sync db).
  - done.
Qed.

Lemma step_flush_once s i :
  sum_list_with flushing (co_threads s) + tokens s + co_flushes s ≤ 1 →
  let s' := bstep s i in sum_list_with flushing (co_threads s') + tokens s' + co_flushes s' ≤ 1.
Proof.
  intros H. unfold bstep, tokens in *. destruct (co_threads s !! i) as [[[|c todo] p]|] eqn:Hi; [done| |done].
  pose proof (act_tokens c p (co_shared s)) as Ha.
  destruct (act c p (co_shared s)) as [[r|p'] bs]; simpl in *.
  - pose proof (sum_list_with_insert flushing _ i _ (todo, Ready) Hi). unfold flushing in *; simpl in *. lia.
  - pose proof (sum_list_with_insert flushing _ i _ (c :: todo, p') Hi).
    unfold flushing in *; simpl in *. destruct p'; simpl in *; lia.
Qed.

Lemma run_flush_once sched s :
  sum_list_with flushing (co_threads s) + tokens s + co_flushes s ≤ 1 → co_flushes (run s sched) ≤ 1.
Proof.
  revert s. unfold run. induction sched as [|i sched IH]; intros s H; simpl; [lia|].
  by apply IH, step_flush_once.
Qed.

(** ** Without [Close] *)

Context `{!BadgerLaws D Tx C WB Item}.

(** The batch has accepted [ws] and is flushed or not; [m0] are the contents
    before. *)
Definition held (m0 : store) (ws : list write) (flushes : nat) (bs : shared) : Prop :=
  bgd_inv bs.2 ∧ Forall full_write ws ∧
  match flushes with
  | 0 => wb_open (bgb_wb bs.1) ws ∧ bgd_model bs.2 = m0
  | _ => bgb_firstFlush bs.1 = false ∧ wb_done (bgb_wb bs.1) ∧ bgd_model bs.2 = apply_writes ws m0
  end.

(** [Set] and [Delete] do not look at the channel. *)
Lemma run_batch_call_flag (c : batch_call) (wb : WB) f (db : BadgerDB D) :
  run_batch_call c ({| bgb_wb := wb; bgb_firstFlush := f |}, db) =
  let '(r, (b, db)) := run_batch_call c ({| bgb_wb := wb; bgb_firstFlush := true |}, db) in
  (r, ({| bgb_wb := bgb_wb b; bgb_firstFlush := f |}, db)).
Proof.
  destruct c as [key value|key]; simpl; unfold badgerDBBatch_Set, badgerDBBatch_Delete, on_wb; simpl;
    destruct (len key =? 0); try done.
  - destruct (is_nil value); [done|]. by destruct (bwb_Set key value _) as [r [wb' d]].
  - by destruct (bwb_Delete key _) as [r [wb' d]].
Qed.

Lemma spec_batch_call_accepted ws (c : batch_call) :
  returned (spec_batch_call (Some ws) c).1 ∧
  (spec_batch_call (Some ws) c).2 = Some (ws ++ accepted_by (BCall c, (spec_batch_call (Some ws) c).1)).
Proof.
  split; [apply spec_batch_call_returned|].
  destruct c as [key value|key]; simpl; unfold spec_batch_Set, spec_batch_Delete;
    destruct (len key =? 0); simpl; rewrite ?app_nil_r; try done.
  by destruct value; simpl; rewrite ?app_nil_r.
Qed.

Lemma accepted_by_Err c e : accepted_by (c, Err e) = [].
Proof. by destruct c as [[]| |]. Qed.

Lemma call_held m0 ws n (c : batch_call) bs :
  held m0 ws n bs → batch_call_fits badger_limits c → length ws < txn_limit →
  ∃ r bs', run_batch_call c bs = (r, bs') ∧ returned r ∧
    bgb_firstFlush bs'.1 = bgb_firstFlush bs.1 ∧ held m0 (ws ++ accepted_by (BCall c, r)) n bs'.
Proof.
  intros (Hinv & Hws & Hst) Hfit Hlim. destruct bs as [[wb f] db]. simpl in Hinv, Hst. destruct n as [|n].
  - destruct Hst as [Hopen Hm]. rewrite run_batch_call_flag.
    destruct (run_batch_call_spec (DBContract0 := BadgerDB_contract) BadgerDB_ops c
      {| bgb_wb := wb; bgb_firstFlush := true |} ws db) as ([b' db'] & -> & Hb' & Hinv' & Hm'); [done..|].
    destruct (spec_batch_call_accepted ws c) as [Hr Hacc]. rewrite Hacc in Hb'.
    destruct Hb' as (_ & Hopen' & Hws').
    eexists _, _. split; [done|]. split; [done|]. split; [done|].
    split; [done|]. split; [done|]. split; [done|]. by rewrite <-Hm.
  - destruct Hst as (-> & Hdone & Hm).
    destruct (badgerDBBatch_closed {| bgb_wb := wb; bgb_firstFlush := false |} db (run_batch_call c))
      as (e & [b' db'] & -> & [Hf' Hdone'] & Hinv' & Hm'); [done|done|destruct c; constructor|].
    eexists _, _. split; [done|].
    rewrite accepted_by_Err, app_nil_r.
    split; [by right; eexists|]. split; [done|].
    split; [done|]. split; [done|]. split; [done|]. split; [done|]. by rewrite <-Hm.
Qed.

Lemma flush_held m0 ws bs :
  held m0 ws 0 bs → bgb_firstFlush bs.1 = false →
  ∃ bs', on_wb bwb_Flush bs = (Ok tt, bs') ∧ bgb_firstFlush bs'.1 = false ∧ held m0 ws 1 bs'.
Proof.
  intros ([Hok Hfull] & Hws & Hopen & Hm) Hf. destruct bs as [b db]. simpl in *.
  destruct (on_wb_reply bwb_Flush b db (Ok tt) wb_done (apply_writes ws m0)) as (bs' & H & [Hdone Hf'] & Hinv' & Hm').
  - subst m0. by apply full_apply.
  - rewrite <-Hm. by apply bglaw_wb_Flush.
  - exists bs'. rewrite Hf in Hf'. split; [done|]. split; [done|]. exact (conj Hinv' (conj Hws (conj Hf' (conj Hdone Hm')))).
Qed.

Lemma sync_held m0 ws bs :
  held m0 ws 1 bs →
  ∃ bs', on_snd (on_bg bg_Sync) bs = (Ok tt, bs') ∧ bs'.1 = bs.1 ∧ held m0 ws 1 bs'.
Proof.
  intros ([Hok Hfull] & Hws & Hf & Hdone & Hm). destruct bs as [b db]. simpl in *.
  destruct (on_bg_reply bg_Sync db (Ok tt) (bgd_model db) Hfull (bglaw_Sync _ Hok)) as (db' & H & Hinv' & Hm').
  exists (b, db'). rewrite H. split; [done|]. split; [done|].
  split; [done|]. split; [done|]. simpl. by rewrite Hm'.
Qed.

(** A goroutine that never calls [Close], at a place of the call it makes. *)
Definition thread_ok (t : thread) : Prop :=
  Forall (λ c, c ≠ BClose ∧ batch_step_fits badger_limits c) t.1 ∧
  match t.2 with
  | Ready => True
  | Flushing => ∃ sync todo, t.1 = BWrite sync :: todo
  | Syncing => ∃ todo, t.1 = BWrite true :: todo
  | Cancelling => False
  end.

Record invariant (m0 : store) (all : nat) (s : conc) : Prop := {
  inv_threads : Forall thread_ok (co_threads s);
  inv_token : sum_list_with flushing (co_threads s) + tokens s + co_flushes s = 1;
  inv_written : sum_list_with written (co_trace s) + sum_list_with syncing (co_threads s) = co_flushes s;
  inv_writes : tokens s = 1 → sum_list_with writes_of (co_threads s) = all;
  inv_some : tokens s = 0 → 1 ≤ all;
  inv_room : length (accepted (co_trace s)) + sum_list_with (λ t, length t.1) (co_threads s) ≤ txn_limit;
  inv_returned : Forall (λ cr, returned cr.2) (co_trace s);
  inv_held : held m0 (accepted (co_trace s)) (co_flushes s) (co_shared s);
}.

Lemma accepted_app tr tr' : accepted (tr ++ tr') = accepted tr ++ accepted tr'.
Proof. apply bind_app. Qed.

(** The goroutine [i] becomes [t'] and the calls [done] return. *)
Lemma invariant_update m0 all s i t t' bs' done n' :
  invariant m0 all s → co_threads s !! i = Some t → thread_ok t' →
  flushing t' + Nat.b2n (bgb_firstFlush bs'.1) + n' = flushing t + tokens s + co_flushes s →
  sum_list_with written done + syncing t' + co_flushes s = syncing t + n' →
  (bgb_firstFlush bs'.1 = true → tokens s = 1 ∧ writes_of t' = writes_of t) →
  (bgb_firstFlush bs'.1 = false → tokens s = 1 → 1 ≤ writes_of t) →
  length (accepted done) + length t'.1 ≤ length t.1 →
  Forall (λ cr, returned cr.2) done →
  held m0 (accepted (co_trace s) ++ accepted done) n' bs' →
  invariant m0 all (Conc bs' (<[i := t']> (co_threads s)) (co_trace s ++ done) n').
Proof.
  intros [Hth Htok Hwr Hws Hsome Hroom Hret Hheld] Hi Ht Hf Hw Htoken Htaken Hlen Hdone Hheld'.
  pose proof (sum_list_with_insert flushing _ _ _ t' Hi) as H1.
  pose proof (sum_list_with_insert syncing _ _ _ t' Hi) as H2.
  pose proof (sum_list_with_insert writes_of _ _ _ t' Hi) as H3.
  pose proof (sum_list_with_insert (λ t, length t.1) _ _ _ t' Hi) as H4. cbv beta in H4.
  constructor; unfold tokens; cbn [co_shared co_threads co_trace co_flushes].
  - by apply Forall_insert.
  - lia.
  - rewrite sum_list_with_app. lia.
  - destruct (bgb_firstFlush bs'.1); [|done]. intros _. destruct (Htoken eq_refl) as [Hone Hsame].
    rewrite <-Hws by done. lia.
  - destruct (bgb_firstFlush bs'.1); [done|]. intros _. unfold tokens in *.
    destruct (bgb_firstFlush (co_shared s).1); [|by apply Hsome]. specialize (Htaken eq_refl eq_refl).
    pose proof (sum_list_with_insert writes_of _ _ _ ([], Ready) Hi) as H5. unfold writes_of at 4 in H5.
    rewrite <-Hws by done. simpl in H5. lia.
  - rewrite accepted_app, length_app. lia.
  - by apply Forall_app.
  - by rewrite accepted_app.
Qed.

Lemma thread_ok_rest c todo p : thread_ok (c :: todo, p) → thread_ok (todo, Ready).
Proof. intros [Hcs _]. by split; [inv Hcs|]. Qed.

Ltac update := unfold flushing, syncing, writes_of; simpl; try lia; try done; try (by intros ->).

(** [Set] and [Delete]. *)
Lemma step_call m0 all s i (c : batch_call) todo :
  invariant m0 all s → co_threads s !! i = Some (BCall c :: todo, Ready) →
  invariant m0 all (bstep s i).
Proof.
  intros H Hi. pose proof (Forall_lookup_1 _ _ _ _ (inv_threads _ _ _ H) Hi) as Ht.
  pose proof (thread_ok_rest _ _ _ Ht) as Hrest. destruct Ht as [[[_ Hfit] _]%Forall_cons _].
  pose proof (inv_room _ _ _ H) as Hroom.
  pose proof (sum_list_with_insert (λ t, length t.1) _ _ _ (todo, Ready) Hi) as Hsum. simpl in Hsum.
  destruct (call_held m0 _ _ c _ (inv_held _ _ _ H) Hfit) as (r & bs' & Hrun & Hr & Hf & Hheld); [lia|].
  assert (act (BCall c) Ready (co_shared s) = (inl r, bs')) as Hact.
  { destruct c as [key value|key]; simpl in *; by rewrite Hrun. }
  unfold bstep. rewrite Hi, Hact. assert (accepted [(BCall c, r)] = accepted_by (BCall c, r)) as Hacc by apply app_nil_r.
  eapply (invariant_update _ _ _ _ _ _ _ [_] _ H Hi); unfold tokens; rewrite ?Hf; update.
  - rewrite app_nil_r. destruct c, r; simpl; lia.
  - by apply Forall_singleton.
  - rewrite Nat.add_0_r. by rewrite <-Hacc in Hheld.
Qed.

(** [select] in [Write]. *)
Lemma step_select m0 all s i sync todo :
  invariant m0 all s → co_threads s !! i = Some (BWrite sync :: todo, Ready) →
  invariant m0 all (bstep s i).
Proof.
  intros H Hi. pose proof (Forall_lookup_1 _ _ _ _ (inv_threads _ _ _ H) Hi) as Ht.
  pose proof (thread_ok_rest _ _ _ Ht) as Hrest. pose proof (inv_held _ _ _ H) as Hheld.
  pose proof (inv_token _ _ _ H) as Htok. unfold bstep, tokens in *. rewrite Hi. simpl.
  destruct (bgb_firstFlush (co_shared s).1) eqn:Hf.
  - rewrite <-(app_nil_r (co_trace s)).
    eapply (invariant_update _ _ _ _ _ _ _ [] _ H Hi); unfold tokens; rewrite ?Hf; update.
    + split; [apply Ht|]. by eexists _, _.
    + rewrite app_nil_r, Nat.add_0_r. destruct (co_flushes s); [exact Hheld|simpl in Htok; lia].
  - eapply (invariant_update _ _ _ _ _ _ _ [_] _ H Hi); unfold tokens; rewrite ?Hf; update.
    + apply Forall_singleton. right. by eexists.
    + rewrite app_nil_r, Nat.add_0_r. exact Hheld.
Qed.

(** [b.wb.Flush()], by the goroutine that took the element. *)
Lemma step_flush m0 all s i c todo :
  invariant m0 all s → co_threads s !! i = Some (c :: todo, Flushing) →
  invariant m0 all (bstep s i).
Proof.
  intros H Hi. pose proof (Forall_lookup_1 _ _ _ _ (inv_threads _ _ _ H) Hi) as Ht.
  pose proof (thread_ok_rest _ _ _ Ht) as Hrest. pose proof (inv_held _ _ _ H) as Hheld.
  pose proof (inv_token _ _ _ H) as Htok. pose proof (sum_list_with_insert flushing _ _ _ (todo, Ready) Hi) as Hsum.
  unfold flushing at 2 4 in Hsum. simpl in Hsum. unfold tokens in Htok.
  destruct (co_flushes s) eqn:Hn; [|lia]. destruct (bgb_firstFlush (co_shared s).1) eqn:Hf; simpl in Htok; [lia|].
  destruct (flush_held m0 _ _ Hheld Hf) as (bs' & Hrun & Hf' & Hheld').
  unfold bstep. rewrite Hi. simpl. rewrite Hrun, Hn. destruct Ht as [Hcs (sync & todo' & [= -> <-])].
  destruct sync.
  - rewrite <-(app_nil_r (co_trace s)).
    eapply (invariant_update _ _ _ _ _ _ _ [] _ H Hi); unfold tokens; rewrite ?Hf', ?Hf, ?Hn; update.
    + split; [done|]. by eexists.
    + by rewrite app_nil_r.
  - eapply (invariant_update _ _ _ _ _ _ _ [_] _ H Hi); unfold tokens; rewrite ?Hf', ?Hf, ?Hn; update.
    + apply Forall_singleton. by left.
    + by rewrite app_nil_r.
Qed.

(** [db.Sync()]. *)
Lemma step_sync m0 all s i c todo :
  invariant m0 all s → co_threads s !! i = Some (c :: todo, Syncing) →
  invariant m0 all (bstep s i).
Proof.
  intros H Hi. pose proof (Forall_lookup_1 _ _ _ _ (inv_threads _ _ _ H) Hi) as Ht.
  pose proof (thread_ok_rest _ _ _ Ht) as Hrest. pose proof (inv_held _ _ _ H) as Hheld.
  pose proof (inv_token _ _ _ H) as Htok. pose proof (inv_written _ _ _ H) as Hwr.
  pose proof (sum_list_with_insert syncing _ _ _ (todo, Ready) Hi) as Hsum.
  unfold syncing at 2 4 in Hsum. simpl in Hsum.
  assert (co_flushes s = 1) as Hn by lia. rewrite Hn in Hheld.
  destruct (sync_held m0 _ _ Hheld) as (bs' & Hrun & Hb & Hheld').
  unfold bstep. rewrite Hi. simpl act. rewrite Hrun, Hn. destruct Ht as [Hcs (todo' & [= -> <-])].
  eapply (invariant_update _ _ _ _ _ _ _ [_] _ H Hi); unfold tokens; rewrite ?Hb, ?Hn; update.
  - destruct Hheld as (_ & _ & -> & _). done.
  - apply Forall_singleton. by left.
  - by rewrite app_nil_r.
Qed.

Lemma step_invariant m0 all s i : invariant m0 all s → invariant m0 all (bstep s i).
Proof.
  intros H. destruct (co_threads s !! i) as [[[|c todo] p]|] eqn:Hi;
    [unfold bstep; by rewrite Hi| |unfold bstep; by rewrite Hi].
  destruct (Forall_lookup_1 _ _ _ _ (inv_threads _ _ _ H) Hi) as [[[Hc _] _]%Forall_cons Hp].
  destruct p; [destruct c; [by eapply step_call|by eapply step_select|done]|by eapply step_flush|by eapply step_sync|done].
Qed.

Lemma run_invariant m0 all sched s : invariant m0 all s → invariant m0 all (run s sched).
Proof. revert s. unfold run. induction sched as [|i l IH]; intros s H; simpl; [done|]. by apply IH, step_invariant. Qed.

Lemma start_sum (f : thread → nat) programs :
  sum_list_with f ((λ l, (l, Ready)) <$> programs) = sum_list_with (λ l, f (l, Ready)) programs.
Proof. induction programs as [|l ls IH]; [done|]. exact (f_equal (Nat.add (f (l, Ready))) IH). Qed.

Lemma sum_zero {A} (l : list A) : sum_list_with (λ _, 0) l = 0.
Proof. induction l; simpl; lia. Qed.

Lemma start_invariant (d : D) programs :
  bg_ok d → full_store (bg_model d) →
  Forall (Forall (λ c, c ≠ BClose ∧ batch_step_fits badger_limits c)) programs →
  sum_list_with length programs ≤ txn_limit →
  invariant (bg_model d) (sum_list_with (sum_list_with is_write) programs)
    (start ({| bgb_wb := bg_NewWriteBatch d; bgb_firstFlush := true |}, {| bg_db := d |}) programs).
Proof.
  intros Hok Hfull Hprog Hlen.
  constructor; unfold start, tokens; cbn [co_shared co_threads co_trace co_flushes]; rewrite ?start_sum; try done.
  - apply Forall_fmap. eapply Forall_impl; [done|]. by split.
  - by rewrite sum_zero.
  - by rewrite sum_zero.
  - split; [done|]. split; [constructor|]. by split; [apply bglaw_NewWriteBatch|].
Qed.

(** ** Progress *)

(** No action blocks, and each brings the goroutine nearer to its end. *)
Definition effort (t : thread) : nat :=
  3 * length t.1 - match t.2 with Ready => 0 | Syncing => 2 | _ => 1 end.

Lemma step_progress s i c todo p :
  co_threads s !! i = Some (c :: todo, p) →
  sum_list_with effort (co_threads (bstep s i)) < sum_list_with effort (co_threads s).
Proof.
  intros Hi. unfold bstep. rewrite Hi.
  destruct (act c p (co_shared s)) as [[r|p'] bs] eqn:Ha; simpl.
  - pose proof (sum_list_with_insert effort _ _ _ (todo, Ready) Hi) as H. unfold effort at 2 4 in H. simpl in H.
    destruct p; lia.
  - pose proof (sum_list_with_insert effort _ _ _ (c :: todo, p') Hi) as H. unfold effort at 2 4 in H. simpl in H.
    enough (match p with Ready => 0 | Syncing => 2 | _ => 1 end <
            match p' with Ready => 0 | Syncing => 2 | _ => 1 end) by (destruct p, p'; lia).
    destruct p; simpl in Ha.
    + destruct c as [[]|sync|]; simplify_eq/=; repeat case_match; simplify_eq; lia.
    + repeat case_match; simplify_eq; lia.
    + repeat case_match; simplify_eq.
    + simplify_eq.
Qed.

(** ** The theorem *)

(** C25: however many goroutines call [Set], [Delete], [Write], [WriteSync]
    and [Close] on one badger batch, with whatever arguments, and however their
    actions interleave, the batch of the library is flushed at most once, though
    [Write] and [Close] take no lock.  Moreover, if none of them calls [Close], if
    the arguments are within the library's limits (on keys and values, and no empty
    value), if they make no more calls in all than a transaction has room for
    (beyond that the library commits on its own) and if the database has no empty
    values, then no call panics; the database
    holds nothing of the batch before the flush and then, in order, exactly the
    operations that were accepted; and once all have returned, exactly one of
    the writes has succeeded, when there was one. *)
Theorem badger_batch_flushed_once (d : D) programs sched :
  ∃ b, BadgerDB_NewBatch {| bg_db := d |} = (Ok b, {| bg_db := d |}) ∧
  let s := run (start (b, {| bg_db := d |}) programs) sched in
  co_flushes s ≤ 1 ∧
  (bg_ok d → full_store (bg_model d) → Forall (Forall (batch_step_fits badger_limits)) programs →
   sum_list_with length programs ≤ txn_limit → Forall (λ l, BClose ∉ l) programs →
    Forall (λ cr, returned cr.2) (co_trace s) ∧
    bg_model (bg_db (co_shared s).2) =
      (if co_flushes s =? 0 then bg_model d else apply_writes (accepted (co_trace s)) (bg_model d)) ∧
    (finished s →
      sum_list_with written (co_trace s) = co_flushes s ∧
      co_flushes s = Nat.min 1 (sum_list_with (sum_list_with is_write) programs))).
Proof.
  eexists. split; [done|]. intros s. split.
  - apply run_flush_once. unfold start, tokens. simpl.
    rewrite start_sum. by rewrite sum_zero.
  - intros Hok Hfull Hfit Hlen Hclose. assert (invariant (bg_model d) (sum_list_with (sum_list_with is_write) programs) s) as H.
    { apply run_invariant, start_invariant; try done. apply Forall_forall. intros l Hl.
      apply Forall_forall. intros c Hc. rewrite Forall_forall in Hclose, Hfit. split.
      - intros ->. by apply (Hclose l).
      - specialize (Hfit l Hl). rewrite Forall_forall in Hfit. auto. }
    split; [apply H|]. pose proof (inv_held _ _ _ H) as (_ & _ & Hheld). split.
    + destruct (co_flushes s); [apply Hheld|apply Hheld].
    + intros Hfin. destruct H as [Hth Htok Hwr Hws Hsome _ _ _].
      assert (sum_list_with flushing (co_threads s) = 0 ∧ sum_list_with syncing (co_threads s) = 0 ∧
        sum_list_with writes_of (co_threads s) = 0) as (H1 & H2 & H3).
      { unfold finished in Hfin. clear -Hth Hfin. induction Hfin as [|[l p] ths Hl _ IH]; [done|].
        apply Forall_cons in Hth as [[_ Hp] Hth]. simpl in Hl. subst l. destruct (IH Hth) as (? & ? & ?).
        destruct p; simpl in Hp; [done|by destruct Hp as (? & ? & ?)|by destruct Hp as (? & ?)|done]. }
      split; [lia|]. rewrite H1 in Htok. rewrite H3 in Hws. unfold tokens in *.
      destruct (bgb_firstFlush (co_shared s).1) eqn:Hf.
      * specialize (Hws eq_refl). change (Nat.b2n true) with 1 in Htok. lia.
      * specialize (Hsome eq_refl). change (Nat.b2n false) with 0 in Htok. lia.
Qed.

End conc.

(** ** Instances *)

#[local] Instance conc_badger_laws :
  BadgerLaws store store (bool * list entry * option nat) (option (list write)) entry := RefBadger.laws.

Definition conc_start (programs : list (list batch_step)) :=
  start (D := store) ({| bgb_wb := Some ([] : list write); bgb_firstFlush := true |}, {| bg_db := ∅ |}) programs.

(** While the first goroutine is between the channel and [Flush], the write of
    the second is refused and its [Set] still gets into the batch. *)
Definition two_writers : list (list batch_step) :=
  [[BCall (BSet (Some [x61]) (Some [x01])); BWrite true];
   [BWrite false; BCall (BSet (Some [x62]) (Some [x02])); BCall (BDelete (Some [x61]))]].

Example two_writers_run :
  let s := run (conc_start two_writers) [0; 0; 1; 1; 0; 1; 0] in
  (co_trace s, entries (bg_db (co_shared s).2)) =
  ([(BCall (BSet (Some [x61]) (Some [x01])), Ok tt);
    (BWrite false, Err (errorsNew "batch already flushed"));
    (BCall (BSet (Some [x62]) (Some [x02])), Ok tt);
    (BCall (BDelete (Some [x61])), Err RefBadger.errDone);
    (BWrite true, Ok tt)],
   [([x61], [x01]); ([x62], [x02])]).
Proof. vm_compute. reflexivity. Qed.

(** A [Close] between the channel and [Flush]: the library panics. *)
Example write_close_race :
  co_trace (run (conc_start [[BWrite false]; [BClose]]) [0; 1; 1; 0]) =
  [(BClose, Ok tt); (BWrite false, Panic "close of closed channel")].
Proof. vm_compute. reflexivity. Qed.

Lemma badger_batch_flushed_once_witness :
  let s := run (conc_start two_writers) [0; 0; 1; 1; 0; 1; 0] in
  finished s ∧ sum_list_with written (co_trace s) = 1 ∧ Forall (λ cr, returned cr.2) (co_trace s).
Proof.
  destruct (badger_batch_flushed_once (∅ : store) two_writers [0; 0; 1; 1; 0; 1; 0]) as (b & [= <-] & _ & H).
  intros s. destruct H as (Hret & _ & Hfin).
  - exact Logic.I.
  - change (full_store ∅). apply map_Forall_empty.
  - by repeat constructor; try (intros [? Hx]; discriminate Hx); try (cbv; discriminate).
  - cbv. lia.
  - repeat constructor; set_solver.
  - assert (finished s) as Hf by by repeat constructor.
    destruct (Hfin Hf) as [Hw Hn]. rewrite Hn in Hw. exact (conj Hf (conj Hw Hret)).
Defined.
