(* ===== verification/TxErrors.v ===== *)
(** * The bbolt and badger backends when the library fails

    For every library that runs the closures of [View], [Update] and [Batch] on a
    transaction, at whatever point it fails: when the transaction cannot be
    started or committed, or in an operation within it; and whether or not it keeps
    the laws the other theorems ask for. *)

From S2P Require Import Prelude Go Util Spec Types BTree MemDB Cursor BoltLib BoltDB BadgerLib BadgerDB.

Lemma len_eqb (key : slice) : data key ≠ [] → (len key =? 0) = false.
Proof. intros H. apply Nat.eqb_neq. unfold len. by destruct (data key). Qed.

(** ** Transactions that fail *)

Section tx.
Context {D Tx : Type}.

(** [run] is [Update] or [Batch] on the database [d]: "If an error is returned then
    the entire transaction is rolled back", and [run] returns it. *)
Definition rolls_back (run : M Tx unit → M D unit) (d : D) (tx : Tx) : Prop :=
  ∀ f e tx', f tx = (Err e, tx') → run f d = (Err e, d).

(** The transaction of the closure [f] fails, from [d] to [d']: whatever its
    closure is, or because the closure does. *)
Definition tx_fails (run : M Tx unit → M D unit) (f : M Tx unit) (d d' : D) (e : error) : Prop :=
  (∀ f', run f' d = (Err e, d')) ∨
  (d' = d ∧ ∃ tx tx', rolls_back run d tx ∧ f tx = (Err e, tx')).

Lemma tx_fails_run run f d d' e : tx_fails run f d d' e → run f d = (Err e, d').
Proof. intros [H|(-> & tx & tx' & Hr & Hf)]; [done|by eapply Hr]. Qed.

(** [run] is [View]: it runs the closure and returns its error. *)
Definition views (run : ∀ A, M Tx A → M D A) (d : D) (tx : Tx) : Prop :=
  ∀ A (f : M Tx A), run A f d = ((f tx).1, d).
Definition view_fails (run : ∀ A, M Tx A → M D A) (d d' : D) (e : error) : Prop :=
  ∀ A (f : M Tx A), run A f d = (Err e, d').

End tx.

(** ** bbolt *)

Section bolt.
Context {D Tx Cu : Type} `{!BoltOps D Tx Cu}.

(** An operation of a batch fails within the transaction. *)
Definition op_fails (op : operation) (tx : Tx) (e : error) : Prop :=
  op_type op = opTypeSet ∧ (∃ tx', bkt_Put bucket (op_key op) (op_value op) tx = (Err e, tx')) ∨
  op_type op = opTypeDelete ∧ (∃ tx', bkt_Delete bucket (op_key op) tx = (Err e, tx')).

Lemma write_ops_fails l1 op l2 tx tx1 e :
  bolt_write_ops l1 tx = (Ok tt, tx1) → op_fails op tx1 e →
  ∃ tx', bolt_write_ops (l1 ++ op :: l2) tx = (Err e, tx').
Proof.
  intros Hl Hop. revert tx Hl. induction l1 as [|o l1 IH]; intros tx Hl; simpl in *.
  - injection Hl as ->. destruct Hop as [[Ht [tx' H]]|[Ht [tx' H]]]; exists tx'; rewrite Ht; simpl;
      unfold mbind, M_bind; by rewrite H.
  - unfold mbind, M_bind in *.
    match type of Hl with context [(if ?c then ?m1 else ?m2) tx] => destruct ((if c then m1 else m2) tx) as [[[]|?|?|] tx2] end;
      simplify_eq. by apply IH.
Qed.

Definition bolt_passes_errors (d d' : D) (e : error) : Prop :=
  let db := {| bo_db := d |} in let db' := {| bo_db := d' |} in
  (view_fails (@bolt_View _ _ _ _) d d' e → ∀ key, data key ≠ [] →
    BoltDB_Get key db = (Err e, db') ∧ BoltDB_Has key db = (Err e, db')) ∧
  (∀ key v, data key ≠ [] → tx_fails bolt_Update (bkt_Put bucket key (Some v)) d d' e →
    BoltDB_Set key (Some v) db = (Err e, db') ∧ BoltDB_SetSync key (Some v) db = (Err e, db')) ∧
  (∀ key, data key ≠ [] → tx_fails bolt_Update (bkt_Delete bucket key) d d' e →
    BoltDB_Delete key db = (Err e, db') ∧ BoltDB_DeleteSync key db = (Err e, db')) ∧
  (∀ start end_, bad_bounds start end_ = false → bolt_Begin false d = (Err e, d') →
    BoltDB_Iterator start end_ db = (Err e, db') ∧ BoltDB_ReverseIterator start end_ db = (Err e, db')) ∧
  (* the transaction of a batch fails, or one of its operations: nothing is
     written and the batch stays open with its operations *)
  (∀ l, (∀ f, bolt_Batch f d = (Err e, d')) →
    let b := {| bob_ops := Some l |} in
    boltDBBatch_Write (b, db) = (Err e, (b, db')) ∧ boltDBBatch_WriteSync (b, db) = (Err e, (b, db'))) ∧
  (∀ l1 op l2 tx tx1, rolls_back bolt_Batch d tx → bolt_write_ops l1 tx = (Ok tt, tx1) → op_fails op tx1 e →
    let b := {| bob_ops := Some (l1 ++ op :: l2) |} in
    boltDBBatch_Write (b, db) = (Err e, (b, db)) ∧ boltDBBatch_WriteSync (b, db) = (Err e, (b, db))).

Lemma bolt_batch_fails l (d d' : D) e :
  bolt_Batch (bolt_write_ops l) d = (Err e, d') →
  let b := {| bob_ops := Some l |} in
  boltDBBatch_Write (b, {| bo_db := d |}) = (Err e, (b, {| bo_db := d' |})) ∧
  boltDBBatch_WriteSync (b, {| bo_db := d |}) = (Err e, (b, {| bo_db := d' |})).
Proof.
  intros H. unfold boltDBBatch_WriteSync, boltDBBatch_Write, mbind, M_bind, on_snd, on_bo, on_field. simpl. by rewrite H.
Qed.

Lemma bolt_errors d d' e : bolt_passes_errors d d' e.
Proof.
  unfold bolt_passes_errors. refine (conj _ (conj _ (conj _ (conj _ (conj _ _))))).
  - intros H key Hk. assert (BoltDB_Get key {| bo_db := d |} = (Err e, {| bo_db := d' |})) as Hget.
    { unfold BoltDB_Get. rewrite (len_eqb key Hk). unfold on_bo, on_field. simpl. by rewrite H. }
    split; [done|]. unfold BoltDB_Has, mbind, M_bind. by rewrite Hget.
  - intros key v Hk H%tx_fails_run. unfold BoltDB_SetSync, BoltDB_Set, on_bo, on_field.
    rewrite (len_eqb key Hk). simpl. by rewrite H.
  - intros key Hk H%tx_fails_run. unfold BoltDB_DeleteSync, BoltDB_Delete, on_bo, on_field.
    rewrite (len_eqb key Hk). simpl. by rewrite H.
  - intros start end_ Hb H. unfold bad_bounds in Hb. unfold BoltDB_Iterator, BoltDB_ReverseIterator. rewrite Hb.
    unfold mbind, M_bind, on_bo, on_field. simpl. by rewrite H.
  - intros l H. by apply bolt_batch_fails.
  - intros l1 op l2 tx tx1 Hr Hl Hop. apply bolt_batch_fails.
    destruct (write_ops_fails l1 op l2 tx tx1 e Hl Hop) as [tx' H]. by eapply Hr.
Qed.

End bolt.

(** ** badger *)

Section badger.
Context {D Tx C WB Item : Type} `{!BadgerOps D Tx C WB Item}.
Abbreviation Write := (badgerDBBatch_Write (D := D) (WB := WB)).
Abbreviation WriteSync := (badgerDBBatch_WriteSync (D := D) (WB := WB)).

(** Reads: the transaction fails; the library fails to find the key, or says it is
    not there; it fails to read the value, which [Has] does not ask for. *)
Definition badger_read_errors (d d' : D) (e : error) : Prop :=
  let db := {| bg_db := d |} in let db' := {| bg_db := d' |} in
  ∀ key, data key ≠ [] →
  (view_fails (@bg_View _ _ _ _ _ _) d d' e → BadgerDB_Get key db = (Err e, db') ∧ BadgerDB_Has key db = (Err e, db')) ∧
  ∀ tx tx', views (@bg_View _ _ _ _ _ _) d tx →
    (txn_Get key tx = (Err e, tx') → e ≠ ErrKeyNotFound →
      BadgerDB_Get key db = (Err e, db) ∧ BadgerDB_Has key db = (Err e, db)) ∧
    (txn_Get key tx = (Err ErrKeyNotFound, tx') →
      BadgerDB_Get key db = (Ok None, db) ∧ BadgerDB_Has key db = (Ok false, db)) ∧
    (∀ item, txn_Get key tx = (Ok item, tx') → item_ValueCopy item = Err e →
      BadgerDB_Get key db = (Err e, db) ∧ BadgerDB_Has key db = (Ok true, db)).

(** Writes: a write that fails is not followed by [Sync]; a [Sync] method succeeds
    when the write and [Sync] have succeeded, in this order, and only then; when
    only [Sync] fails, the write is done and its error is returned. *)
Definition badger_write_errors (d d' d'' : D) (e : error) : Prop :=
  let db := {| bg_db := d |} in let db' := {| bg_db := d' |} in let db'' := {| bg_db := d'' |} in
  (∀ key v, data key ≠ [] →
    (tx_fails bg_Update (txn_Set key (Some v)) d d' e →
      BadgerDB_Set key (Some v) db = (Err e, db') ∧ BadgerDB_SetSync key (Some v) db = (Err e, db')) ∧
    (BadgerDB_Set key (Some v) db = (Ok tt, db') → bg_Sync d' = (Err e, d'') →
      BadgerDB_SetSync key (Some v) db = (Err e, db'')) ∧
    (BadgerDB_SetSync key (Some v) db = (Ok tt, db'') ↔
      ∃ d1, bg_Update (txn_Set key (Some v)) d = (Ok tt, d1) ∧ bg_Sync d1 = (Ok tt, d''))) ∧
  (∀ key, data key ≠ [] →
    (tx_fails bg_Update (txn_Delete key) d d' e →
      BadgerDB_Delete key db = (Err e, db') ∧ BadgerDB_DeleteSync key db = (Err e, db')) ∧
    (BadgerDB_Delete key db = (Ok tt, db') → bg_Sync d' = (Err e, d'') →
      BadgerDB_DeleteSync key db = (Err e, db'')) ∧
    (BadgerDB_DeleteSync key db = (Ok tt, db'') ↔
      ∃ d1, bg_Update (txn_Delete key) d = (Ok tt, d1) ∧ bg_Sync d1 = (Ok tt, d''))).

(** Batches: [Set] and [Delete] pass on what the library says; a batch whose
    flush failed cannot be written again; [WriteSync] flushes and then syncs. *)
Definition badger_batch_errors (d d' d'' : D) (wb wb' : WB) (e : error) : Prop :=
  let db := {| bg_db := d |} in let db' := {| bg_db := d' |} in let db'' := {| bg_db := d'' |} in
  let b first := {| bgb_wb := wb; bgb_firstFlush := first |} in
  let b' first := {| bgb_wb := wb'; bgb_firstFlush := first |} in
  (∀ first key v, data key ≠ [] → bwb_Set key (Some v) (wb, d) = (Err e, (wb', d')) →
    badgerDBBatch_Set key (Some v) (b first, db) = (Err e, (b' first, db'))) ∧
  (∀ first key, data key ≠ [] → bwb_Delete key (wb, d) = (Err e, (wb', d')) →
    badgerDBBatch_Delete key (b first, db) = (Err e, (b' first, db'))) ∧
  (bwb_Flush (wb, d) = (Err e, (wb', d')) →
    Write (b true, db) = (Err e, (b' false, db')) ∧ WriteSync (b true, db) = (Err e, (b' false, db')) ∧
    Write (b' false, db') = (Err (errorsNew "batch already flushed"), (b' false, db')) ∧
    WriteSync (b' false, db') = (Err (errorsNew "batch already flushed"), (b' false, db'))) ∧
  (bwb_Flush (wb, d) = (Ok tt, (wb', d')) → bg_Sync d' = (Err e, d'') →
    Write (b true, db) = (Ok tt, (b' false, db')) ∧ WriteSync (b true, db) = (Err e, (b' false, db''))) ∧
  (WriteSync (b true, db) = (Ok tt, (b' false, db'')) ↔
    ∃ d1, bwb_Flush (wb, d) = (Ok tt, (wb', d1)) ∧ bg_Sync d1 = (Ok tt, d'')).

Lemma badger_reads d d' e : badger_read_errors d d' e.
Proof.
  intros key Hk. unfold BadgerDB_Get, BadgerDB_Has, on_bg, on_field. rewrite (len_eqb key Hk). simpl. split.
  { intros H. by rewrite !H. }
  intros tx tx' H. rewrite !H. unfold attempt, mbind, M_bind. split_and!.
  - intros -> Hne. by rewrite !decide_False.
  - intros ->. by rewrite !decide_True.
  - intros item -> Hv. unfold lift_result. by rewrite Hv.
Qed.

(** A call, then [Sync]. *)
Lemma withSync_Ok (m : M (BadgerDB D) unit) (d d'' : D) :
  withSync (on_bg bg_Sync) m {| bg_db := d |} = (Ok tt, {| bg_db := d'' |}) ↔
  ∃ d1, m {| bg_db := d |} = (Ok tt, {| bg_db := d1 |}) ∧ bg_Sync d1 = (Ok tt, d'').
Proof.
  unfold withSync, mbind, M_bind, on_bg, on_field. destruct (m {| bg_db := d |}) as [[[]|?|?|] [d1]]; simpl.
  - destruct (bg_Sync d1) as [r d2] eqn:E. split; [intros; simplify_eq; eauto|].
    intros (d3 & ? & ?). simplify_eq. congruence.
  - split; [done|]. by intros (? & ? & _).
  - split; [done|]. by intros (? & ? & _).
  - split; [done|]. by intros (? & ? & _).
Qed.

Lemma withSync_Err (m : M (BadgerDB D) unit) db db' e :
  m db = (Err e, db') → withSync (on_bg bg_Sync) m db = (Err e, db').
Proof. intros H. unfold withSync, mbind, M_bind. by rewrite H. Qed.

Lemma withSync_Sync (m : M (BadgerDB D) unit) db (d' d'' : D) e :
  m db = (Ok tt, {| bg_db := d' |}) → bg_Sync d' = (Err e, d'') →
  withSync (on_bg bg_Sync) m db = (Err e, {| bg_db := d'' |}).
Proof. intros H Hs. unfold withSync, mbind, M_bind, on_bg, on_field. rewrite H. simpl. by rewrite Hs. Qed.

Lemma badger_Set_eq key v (d d1 : D) r : data key ≠ [] →
  BadgerDB_Set key (Some v) {| bg_db := d |} = (r, {| bg_db := d1 |}) ↔ bg_Update (txn_Set key (Some v)) d = (r, d1).
Proof.
  intros Hk. unfold BadgerDB_Set, on_bg, on_field. rewrite (len_eqb key Hk). simpl.
  destruct (bg_Update _ d). split; intros; simplify_eq; done.
Qed.

Lemma badger_Delete_eq key (d d1 : D) r : data key ≠ [] →
  BadgerDB_Delete key {| bg_db := d |} = (r, {| bg_db := d1 |}) ↔ bg_Update (txn_Delete key) d = (r, d1).
Proof.
  intros Hk. unfold BadgerDB_Delete, on_bg, on_field. rewrite (len_eqb key Hk). simpl.
  destruct (bg_Update _ d). split; intros; simplify_eq; done.
Qed.

Lemma badger_writes d d' d'' e : badger_write_errors d d' d'' e.
Proof.
  split; intros key; [intros v|]; intros Hk; (split; [|split]).
  - intros H%tx_fails_run%(badger_Set_eq key v d d' _ Hk). split; [done|]. by apply withSync_Err.
  - apply withSync_Sync.
  - unfold BadgerDB_SetSync. rewrite withSync_Ok. by setoid_rewrite badger_Set_eq.
  - intros H%tx_fails_run%(badger_Delete_eq key d d' _ Hk). split; [done|]. by apply withSync_Err.
  - apply withSync_Sync.
  - unfold BadgerDB_DeleteSync. rewrite withSync_Ok. by setoid_rewrite badger_Delete_eq.
Qed.

Lemma badger_batches d d' d'' wb wb' e : badger_batch_errors d d' d'' wb wb' e.
Proof.
  unfold badger_batch_errors. refine (conj _ (conj _ (conj _ (conj _ _)))).
  - intros first key v Hk H. unfold badgerDBBatch_Set, on_wb. rewrite (len_eqb key Hk). simpl. by rewrite H.
  - intros first key Hk H. unfold badgerDBBatch_Delete, on_wb. rewrite (len_eqb key Hk). simpl. by rewrite H.
  - intros H. unfold badgerDBBatch_WriteSync, withSync, badgerDBBatch_Write, mbind, M_bind, on_wb. simpl. by rewrite H.
  - intros H Hs. unfold badgerDBBatch_WriteSync, withSync, badgerDBBatch_Write, mbind, M_bind, on_wb, on_bg, on_field. simpl.
    rewrite H. simpl. by rewrite Hs.
  - unfold badgerDBBatch_WriteSync, withSync, badgerDBBatch_Write, mbind, M_bind, on_wb, on_bg, on_field. simpl.
    destruct (bwb_Flush (wb, d)) as [[[]|?|?|] [wb1 d1]]; simpl.
    + destruct (bg_Sync d1) as [r d2] eqn:E. split; [intros; simplify_eq; eauto|].
      intros (d3 & ? & ?). simplify_eq. congruence.
    + split; [done|]. by intros (? & ? & _).
    + split; [done|]. by intros (? & ? & _).
    + split; [done|]. by intros (? & ? & _).
Qed.

End badger.

(** C28: errors of bbolt and badger reach the caller unchanged, whether a
    transaction cannot be run or an operation in it fails.  For bbolt: [Get] and
    [Has], [Set] and [Delete] with their [Sync] variants, the iterators when no
    transaction can be begun, and the batches, where one operation that fails, or the
    transaction, leaves the batch open with its operations and the database as it
    was.  For badger: [Get] and [Has], which take only the library's "key not found" for a missing key
    and of which only [Get] fails when the value cannot be read; [Set], [Delete]
    and [Write] with their [Sync] variants, which succeed exactly when the write and
    then [Sync] have succeeded, do not call [Sync] after a failed write, and return
    the error when only [Sync] fails; [Set] and [Delete] of a batch; and a batch whose
    flush failed cannot be written again. *)
Theorem Tx_backends_errors {BD BTx BCu D Tx C WB Item : Type}
    `{!BoltOps BD BTx BCu, !BadgerOps D Tx C WB Item} :
  (∀ (d d' : BD) e, bolt_passes_errors d d' e) ∧
  (∀ (d d' : D) e, badger_read_errors d d' e) ∧
  (∀ (d d' d'' : D) e, badger_write_errors d d' d'' e) ∧
  (∀ (d d' d'' : D) wb wb' e, badger_batch_errors d d' d'' wb wb' e).
Proof.
  split; [exact bolt_errors|]. split; [exact badger_reads|]. split; [exact badger_writes|exact badger_batches].
Qed.

(** ** An instance: a disk that is full *)

Definition disk_full : error := errLib "os" "no space left on device".

#[local] Instance full_badger : BadgerOps store store (bool * list entry * option nat) (option (list write)) entry := {|
  bg_View A := bg_View (A := A); bg_Update := bg_Update; bg_Sync := throw disk_full; bg_Close := bg_Close;
  bg_NewTransaction := bg_NewTransaction; bg_NewWriteBatch := bg_NewWriteBatch; txn_Get := txn_Get; txn_Set := txn_Set;
  txn_Delete := txn_Delete; txn_Discard := txn_Discard; txn_NewIterator := txn_NewIterator; item_Key := item_Key;
  item_KeyCopy := item_KeyCopy; item_ValueCopy _ := Err disk_full; bi_Rewind := bi_Rewind; bi_Seek := bi_Seek;
  bi_Next := bi_Next; bi_Valid := bi_Valid; bi_Item := bi_Item; bi_Close := bi_Close; bwb_Set := bwb_Set;
  bwb_Delete := bwb_Delete; bwb_Flush bd := (Err disk_full, (None, bd.2)); bwb_Cancel := bwb_Cancel;
|}.

(** A batch of bbolt whose second operation has a key that is too long. *)
Definition long_key : slice := Some (replicate (Z.to_nat 32769) x61).
Definition one_bucket : RefBolt.db := {[ bucket := ∅ ]}.
Definition good_op : operation := {| op_type := opTypeSet; op_key := Some [x61]; op_value := Some [x01] |}.
Definition long_op : operation := {| op_type := opTypeSet; op_key := long_key; op_value := Some [x01] |}.

Lemma ref_rolls_back (d : RefBolt.db) : rolls_back bolt_Batch d d.
Proof. intros f e tx' H. simpl. unfold RefBolt.transact. by rewrite H. Qed.

Lemma Tx_backends_errors_witness :
  let b := {| bob_ops := Some [good_op; long_op; good_op] |} in
  boltDBBatch_Write (b, {| bo_db := one_bucket |}) = (Err ErrKeyTooLarge, (b, {| bo_db := one_bucket |})) ∧
  BadgerDB_Get (Some [x61]) {| bg_db := ({[ [x61] := [x01] ]} : store) |} =
    (Err disk_full, {| bg_db := {[ [x61] := [x01] ]} |}) ∧
  BadgerDB_DeleteSync (Some [x61]) {| bg_db := (∅ : store) |} = (Err disk_full, {| bg_db := ∅ |}) ∧
  badgerDBBatch_Write (D := store) ({| bgb_wb := Some []; bgb_firstFlush := true |}, {| bg_db := ∅ |}) =
    (Err disk_full, ({| bgb_wb := None; bgb_firstFlush := false |}, {| bg_db := ∅ |})).
Proof.
  pose proof (Tx_backends_errors (BD := RefBolt.db) (D := store)) as (H1 & H2 & H3 & H4). split; [|split; [|split]].
  - destruct (H1 one_bucket one_bucket ErrKeyTooLarge) as (_ & _ & _ & _ & _ & H).
    refine (proj1 (H [good_op] long_op [good_op] one_bucket _ (ref_rolls_back _) eq_refl _)).
    left. split; [reflexivity|]. eexists. reflexivity.
  - destruct (H2 {[ [x61] := [x01] ]} ∅ disk_full (Some [x61]) ltac:(discriminate)) as [_ H].
    destruct (H {[ [x61] := [x01] ]} {[ [x61] := [x01] ]}) as (_ & _ & Hv); [by intros A f|].
    apply (Hv ([x61], [x01])); reflexivity.
  - destruct (H3 ∅ ∅ ∅ disk_full) as [_ H]. destruct (H (Some [x61]) ltac:(discriminate)) as (_ & Hs & _).
    apply Hs; reflexivity.
  - destruct (H4 ∅ ∅ ∅ (Some []) None disk_full) as (_ & _ & H & _). apply H. reflexivity.
Defined.
