(* ===== verification/PrefixDB.v ===== *)
(** * prefixdb.go, prefixdb_batch.go, prefixdb_iterator.go: namespaces in a database

    PrefixDB presents the keys of another database that start with a prefix as
    a database of its own.  The wrapped database is any [DBOps]; the state of a
    PrefixDB is the state of the database it wraps, so several PrefixDBs over
    one database share it, as the Go objects share the wrapped [DB]. *)

From S2P Require Import Prelude Go Util Spec Types Client.

(** ** Iterators *)

Section prefix_iterator.
Context {I : Type} `{!IteratorOps I}.

(** [type prefixDBIterator struct] *)
Record prefixDBIterator := {
  pit_prefix : slice;
  pit_start : slice;
  pit_end : slice;
  pit_source : I;
  pit_valid : bool;
  pit_err : option error;
}.

Definition set_source (itr : prefixDBIterator) (src : I) : prefixDBIterator :=
  {| pit_prefix := pit_prefix itr; pit_start := pit_start itr; pit_end := pit_end itr;
     pit_source := src; pit_valid := pit_valid itr; pit_err := pit_err itr |}.
Definition set_valid (v : bool) (itr : prefixDBIterator) : prefixDBIterator :=
  {| pit_prefix := pit_prefix itr; pit_start := pit_start itr; pit_end := pit_end itr;
     pit_source := pit_source itr; pit_valid := v; pit_err := pit_err itr |}.
Definition set_err (e : option error) (itr : prefixDBIterator) : prefixDBIterator :=
  {| pit_prefix := pit_prefix itr; pit_start := pit_start itr; pit_end := pit_end itr;
     pit_source := pit_source itr; pit_valid := pit_valid itr; pit_err := e |}.

(** A call of a method of [itr.source]. *)
Definition on_source {A} (m : M I A) : M prefixDBIterator A := λ itr,
  let '(r, src) := m (pit_source itr) in (r, set_source itr src).

(** The tests of [newPrefixIterator] on its source; delivers [valid]. *)
Definition newPrefixIterator_prime (prefix : slice) : M I bool :=
  skip ← (valid ← it_Valid;
          if (valid : bool) then key ← it_Key; mret (bytes_Equal key prefix) else mret false);
  _ ← (if (skip : bool) then it_Next else mret tt);
  valid ← it_Valid;
  if (valid : bool) then key ← it_Key; mret (bytes_HasPrefix key prefix) else mret false.

Definition newPrefixIterator (prefix start end_ : slice) (source : I) : result prefixDBIterator :=
  let '(r, source) := newPrefixIterator_prime prefix source in
  result_map (λ valid,
    {| pit_prefix := prefix; pit_start := start; pit_end := end_; pit_source := source;
       pit_valid := valid; pit_err := None |}) r.

Definition prefixDBIterator_Domain (itr : prefixDBIterator) : slice * slice :=
  (pit_start itr, pit_end itr).

Definition prefixDBIterator_Valid : M prefixDBIterator bool :=
  itr ← get;
  if negb (pit_valid itr) || bool_decide (is_Some (pit_err itr)) then mret false
  else
    valid ← on_source it_Valid;
    if negb valid then mret false
    else
      key ← on_source it_Key;
      let prefix := pit_prefix itr in
      if (len key <? len prefix)
         || negb (bytes_Equal (Some (take (len prefix) (data key))) prefix)
      then
        _ ← modify (set_err (Some (errInvalidKey (data key) (data prefix))));
        mret false
      else mret true.

Definition prefixDBIterator_assertIsValid : M prefixDBIterator unit :=
  valid ← prefixDBIterator_Valid;
  if (valid : bool) then mret tt else panic "iterator is invalid".

(** [Next] calls itself to skip a key that equals the prefix. *)
Fixpoint prefixDBIterator_Next_fuel (fuel : nat) : M prefixDBIterator unit :=
  match fuel with
  | O => λ itr, (Diverge, itr)
  | S fuel =>
      _ ← prefixDBIterator_assertIsValid;
      _ ← on_source it_Next;
      itr ← get;
      valid ← on_source it_Valid;
      inside ← (if (valid : bool) then
                  key ← on_source it_Key; mret (bytes_HasPrefix key (pit_prefix itr))
                else mret false);
      if negb inside then modify (set_valid false)
      else
        key ← on_source it_Key;
        if bytes_Equal key (pit_prefix itr) then prefixDBIterator_Next_fuel fuel else mret tt
  end.

(** Keys are unique, so at most one call is nested: see
    [prefixDBIterator_Next_enough]. *)
Definition prefixDBIterator_Next : M prefixDBIterator unit := prefixDBIterator_Next_fuel 2.

(** [key[len(itr.prefix):]] *)
Definition slice_from (s : slice) (n : nat) : result slice :=
  if len s <? n then Panic "slice bounds out of range" else Ok (drop n <$> s).

Definition prefixDBIterator_Key : M prefixDBIterator slice :=
  _ ← prefixDBIterator_assertIsValid;
  itr ← get;
  key ← on_source it_Key;
  lift_result (slice_from key (len (pit_prefix itr))).

Definition prefixDBIterator_Value : M prefixDBIterator slice :=
  _ ← prefixDBIterator_assertIsValid; on_source it_Value.

Definition prefixDBIterator_Error (itr : prefixDBIterator) : option error :=
  match it_Error (pit_source itr) with
  | Some err => Some err
  | None => pit_err itr
  end.

Definition prefixDBIterator_Close : M prefixDBIterator unit := on_source it_Close.

#[global] Instance prefixDBIterator_ops : IteratorOps prefixDBIterator := {|
  it_Domain := prefixDBIterator_Domain;
  it_Valid := prefixDBIterator_Valid;
  it_Next := prefixDBIterator_Next;
  it_Key := prefixDBIterator_Key;
  it_Value := prefixDBIterator_Value;
  it_Error := prefixDBIterator_Error;
  it_Close := prefixDBIterator_Close;
|}.

End prefix_iterator.
Arguments prefixDBIterator : clear implicits.

(** ** Batches *)

Section prefix_batch.
Context {S B : Type} `{!BatchOps S B}.

(** [type prefixDBBatch struct] *)
Record prefixDBBatch := { pb_prefix : slice; pb_source : B }.

Definition newPrefixBatch (prefix : slice) (source : B) : prefixDBBatch :=
  {| pb_prefix := prefix; pb_source := source |}.

(** A call of a method of [pb.source]. *)
Definition on_batch {A} (m : M (B * S) A) : M (prefixDBBatch * S) A := λ '(pb, s),
  let '(r, (b, s)) := m (pb_source pb, s) in (r, ({| pb_prefix := pb_prefix pb; pb_source := b |}, s)).

Definition prefixDBBatch_Set (key value : slice) : M (prefixDBBatch * S) unit :=
  if len key =? 0 then throw errKeyEmpty
  else if is_nil value then throw errValueNil
  else
    pbs ← get;
    let pkey := append (cp (pb_prefix pbs.1)) key in
    on_batch (b_Set pkey value).

Definition prefixDBBatch_Delete (key : slice) : M (prefixDBBatch * S) unit :=
  if len key =? 0 then throw errKeyEmpty
  else
    pbs ← get;
    let pkey := append (cp (pb_prefix pbs.1)) key in
    on_batch (b_Delete pkey).

Definition prefixDBBatch_Write : M (prefixDBBatch * S) unit := on_batch b_Write.
Definition prefixDBBatch_WriteSync : M (prefixDBBatch * S) unit := on_batch b_WriteSync.
Definition prefixDBBatch_Close : M (prefixDBBatch * S) unit := on_batch b_Close.

#[global] Instance prefixDBBatch_ops : BatchOps S prefixDBBatch := {|
  b_Set := prefixDBBatch_Set;
  b_Delete := prefixDBBatch_Delete;
  b_Write := prefixDBBatch_Write;
  b_WriteSync := prefixDBBatch_WriteSync;
  b_Close := prefixDBBatch_Close;
|}.

End prefix_batch.
Arguments prefixDBBatch : clear implicits.

(** ** Database methods *)

Section prefixdb.
Context {S I B : Type} `{!IteratorOps I, !BatchOps S B} (db : DBOps S I B).

(** [func (pdb *PrefixDB) prefixed(key []byte) []byte] *)
Definition prefixed (prefix key : slice) : slice := append (cp prefix) key.

Definition PrefixDB_Get (prefix key : slice) : M S slice :=
  if len key =? 0 then throw errKeyEmpty
  else value ← db_Get db (prefixed prefix key); mret value.

Definition PrefixDB_Has (prefix key : slice) : M S bool :=
  if len key =? 0 then throw errKeyEmpty
  else ok ← db_Has db (prefixed prefix key); mret ok.

Definition PrefixDB_Set (prefix key value : slice) : M S unit :=
  if len key =? 0 then throw errKeyEmpty
  else if is_nil value then throw errValueNil
  else db_Set db (prefixed prefix key) value.

Definition PrefixDB_SetSync (prefix key value : slice) : M S unit :=
  if len key =? 0 then throw errKeyEmpty
  else if is_nil value then throw errValueNil
  else db_SetSync db (prefixed prefix key) value.

Definition PrefixDB_Delete (prefix key : slice) : M S unit :=
  if len key =? 0 then throw errKeyEmpty else db_Delete db (prefixed prefix key).

Definition PrefixDB_DeleteSync (prefix key : slice) : M S unit :=
  if len key =? 0 then throw errKeyEmpty else db_DeleteSync db (prefixed prefix key).

(** [if end == nil { pend = cpIncr(pdb.prefix) } else { pend = append(cp(pdb.prefix), end...) }] *)
Definition prefix_end (prefix end_ : slice) : result slice :=
  match end_ with
  | None => cpIncr prefix
  | Some _ => Ok (append (cp prefix) end_)
  end.

Definition PrefixDB_Iterator (prefix start end_ : slice) : M S (prefixDBIterator I) :=
  if (negb (is_nil start) && (len start =? 0)) || (negb (is_nil end_) && (len end_ =? 0))
  then throw errKeyEmpty
  else
    let pstart := append (cp prefix) start in
    pend ← lift_result (prefix_end prefix end_);
    itr ← db_Iterator db pstart pend;
    lift_result (newPrefixIterator prefix start end_ itr).

Definition PrefixDB_ReverseIterator (prefix start end_ : slice) : M S (prefixDBIterator I) :=
  if (negb (is_nil start) && (len start =? 0)) || (negb (is_nil end_) && (len end_ =? 0))
  then throw errKeyEmpty
  else
    let pstart := append (cp prefix) start in
    pend ← lift_result (prefix_end prefix end_);
    ritr ← db_ReverseIterator db pstart pend;
    lift_result (newPrefixIterator prefix start end_ ritr).

Definition PrefixDB_NewBatch (prefix : slice) : M S (prefixDBBatch B) :=
  b ← db_NewBatch db; mret (newPrefixBatch prefix b).

Definition PrefixDB_Close : M S unit := db_Close db.

(** The loop of [Print] runs over an iterator of the whole namespace. *)
Definition PrefixDB_Print (fuel : nat) (prefix : slice) : M S (list string) :=
  itr ← PrefixDB_Iterator prefix None None;
  lines ← lift_result (deferred it_Close (collect fuel) itr).1;
  mret (("prefix: " +:+ fmt_X (data prefix) +:+ newline)%string ::
        ((λ kv, print_line kv.1 kv.2) <$> lines)).

Definition PrefixDB_Stats (prefix : slice) : M S (gmap string string) :=
  source ← db_Stats db;
  mret (kmap (λ key, "prefixdb.source." +:+ key)%string source ∪
        <["prefixdb.prefix.hex" := fmt_X (data prefix)]>
          (<["prefixdb.prefix.string" := String.string_of_list_byte (data prefix)]> ∅)).

(** [func NewPrefixDB(db DB, prefix []byte) *PrefixDB] *)
Definition NewPrefixDB (fuel : nat) (prefix : slice) :
    DBOps S (prefixDBIterator I) (prefixDBBatch B) := {|
  db_Get := PrefixDB_Get prefix;
  db_Has := PrefixDB_Has prefix;
  db_Set := PrefixDB_Set prefix;
  db_SetSync := PrefixDB_SetSync prefix;
  db_Delete := PrefixDB_Delete prefix;
  db_DeleteSync := PrefixDB_DeleteSync prefix;
  db_Iterator := PrefixDB_Iterator prefix;
  db_ReverseIterator := PrefixDB_ReverseIterator prefix;
  db_Close := PrefixDB_Close;
  db_NewBatch := PrefixDB_NewBatch prefix;
  db_Print := PrefixDB_Print fuel prefix;
  db_Stats := PrefixDB_Stats prefix;
|}.

(** [func IteratePrefix(db DB, prefix []byte) (Iterator, error)] *)
Definition IteratePrefix (prefix : slice) : M S I :=
  if len prefix =? 0 then db_Iterator db None None
  else
    end_ ← lift_result (cpIncr prefix);
    db_Iterator db (cp prefix) end_.

End prefixdb.
