(* ===== verification/PrefixDBCorrect.v ===== *)
(** * PrefixDB meets the contract of a database

    Over any database that meets the contract, PrefixDB with a non-empty prefix
    is the store of the keys below the prefix, as long as that database holds no
    key the bound of [cpIncr] fails to exclude ([no_overshoot]).  With a bound that
    is exact ([exact_PrefixDB]) it always is. *)

From S2P Require Import Prelude Go Util Spec Types Client PrefixDB.

(** ** The view of a namespace *)

(** An entry of the wrapped database as an entry of the namespace, if it is one:
    its key extends the prefix properly. *)
Definition strip (p : bytes) (x : entry) : option entry :=
  if decide (p `prefix_of` x.1) then
    match drop (length p) x.1 with
    | [] => None
    | k => Some (k, x.2)
    end
  else None.
Definition strip_list (p : bytes) (l : list entry) : list entry := omap (strip p) l.
Definition prefix_view (p : bytes) (m : store) : store := list_to_map (strip_list p (entries m)).

Lemma strip_Some p x k v : strip p x = Some (k, v) ↔ k ≠ [] ∧ x = (p ++ k, v).
Proof.
  unfold strip. destruct x as [key v']. simpl. split.
  - case_decide as Hp; [|done]. destruct Hp as [k' ->]. rewrite drop_app_length.
    destruct k'; naive_solver.
  - intros [Hk [= -> ->]]. rewrite decide_True by by apply prefix_app_r.
    rewrite drop_app_length. by destruct k.
Qed.

Lemma strip_self p v : strip p (p, v) = None.
Proof. unfold strip. simpl. rewrite drop_all. by case_decide. Qed.

Lemma strip_ext p k v : k ≠ [] → strip p (p ++ k, v) = Some (k, v).
Proof. intros. by apply strip_Some. Qed.

Lemma elem_of_strip_list p l k v : (k, v) ∈ strip_list p l ↔ k ≠ [] ∧ (p ++ k, v) ∈ l.
Proof.
  unfold strip_list. rewrite list_elem_of_omap. setoid_rewrite strip_Some. naive_solver.
Qed.

Lemma strip_list_sorted p l : StronglySorted key_lt l → StronglySorted key_lt (strip_list p l).
Proof.
  induction 1 as [|x l Hl IH Hx]; [constructor|]. unfold strip_list in *. simpl.
  destruct (strip p x) as [[k v]|] eqn:E; [|done]. constructor; [done|].
  apply strip_Some in E as [_ ->]. rewrite list.Forall_forall in *. intros [k' v'] Hin.
  apply elem_of_strip_list in Hin as [_ Hin]. specialize (Hx _ Hin). unfold key_lt in *.
  simpl in *. by apply blt_app in Hx.
Qed.

Lemma strip_list_reverse p l : strip_list p (reverse l) = reverse (strip_list p l).
Proof.
  unfold strip_list. induction l as [|x l IH]; [done|].
  rewrite reverse_cons, omap_app, IH. simpl. destruct (strip p x); simpl.
  - by rewrite reverse_cons.
  - by rewrite app_nil_r.
Qed.

Lemma strip_list_none p l : Forall (λ x, ¬ p `prefix_of` x.1) l → strip_list p l = [].
Proof.
  unfold strip_list. induction 1 as [|x l Hx Hl IH]; [done|]. simpl. unfold strip at 1.
  by rewrite decide_False.
Qed.

Lemma lookup_prefix_view p m k :
  prefix_view p m !! k = if decide (k = []) then None else m !! (p ++ k).
Proof.
  apply option_eq. intros v. unfold prefix_view.
  rewrite <-elem_of_list_to_map by apply key_lt_NoDup_keys, strip_list_sorted, entries_sorted.
  rewrite elem_of_strip_list, elem_of_entries. case_decide; naive_solver.
Qed.

Lemma prefix_view_insert p m k v :
  k ≠ [] → prefix_view p (<[p ++ k := v]> m) = <[k := v]> (prefix_view p m).
Proof.
  intros Hk. apply map_eq. intros k'. rewrite lookup_prefix_view, !lookup_insert, lookup_prefix_view.
  repeat case_decide; simplify_eq; done.
Qed.

Lemma prefix_view_delete p m k :
  prefix_view p (delete (p ++ k) m) = delete k (prefix_view p m).
Proof.
  apply map_eq. intros k'. rewrite lookup_prefix_view, !lookup_delete, lookup_prefix_view.
  repeat case_decide; simplify_eq; done.
Qed.

(** A write outside the namespace does not show in it. *)
Lemma prefix_view_insert_other p m k v :
  ¬ p `prefix_of` k → prefix_view p (<[k := v]> m) = prefix_view p m.
Proof.
  intros Hk. apply map_eq. intros k'. rewrite !lookup_prefix_view. case_decide; [done|].
  apply lookup_insert_ne. intros ->. apply Hk. by apply prefix_app_r.
Qed.

Lemma prefix_view_delete_other p m k :
  ¬ p `prefix_of` k → prefix_view p (delete k m) = prefix_view p m.
Proof.
  intros Hk. apply map_eq. intros k'. rewrite !lookup_prefix_view. case_decide; [done|].
  apply lookup_delete_ne. intros ->. apply Hk. by apply prefix_app_r.
Qed.

(** The range of the wrapped database a scan of the namespace runs over. *)
Definition range_end (p : bytes) (end_ : slice) : slice :=
  match end_ with None => incr_ref p | Some e => Some (p ++ e) end.

Lemma in_domain_prefix p start end_ k :
  in_domain (Some (p ++ data start)) (range_end p end_) (p ++ k) ↔ in_domain start end_ k.
Proof.
  unfold in_domain. simpl. rewrite ble_app. destruct end_ as [e|]; simpl.
  - by rewrite blt_app.
  - assert (p `prefix_of` p ++ k) as Hp by by apply prefix_app_r.
    pose proof (proj2 (in_range_incr_ref p (p ++ k)) (or_introl Hp)). tauto.
Qed.

Lemma scan_prefix_view p m start end_ r :
  scan (prefix_view p m) start end_ r =
    strip_list p (scan m (Some (p ++ data start)) (range_end p end_) r).
Proof.
  assert (scan (prefix_view p m) start end_ false =
    strip_list p (scan m (Some (p ++ data start)) (range_end p end_) false)) as H.
  { apply scan_unique; [apply strip_list_sorted, scan_sorted|]. intros k v.
    rewrite elem_of_strip_list, elem_of_scan, lookup_prefix_view, in_domain_prefix.
    case_decide; naive_solver. }
  destruct r; [|done]. by rewrite !scan_reverse, H, strip_list_reverse.
Qed.

(** What lies in that range: keys of the namespace, the prefix itself, and, if
    [end] is nil, keys beyond the namespace that [cpIncr] lets through. *)
Lemma range_prefix p start end_ k :
  in_domain (Some (p ++ data start)) (range_end p end_) k →
  p `prefix_of` k ∨ (end_ = None ∧ overshoot p k).
Proof.
  intros [Hle Hlt]. simpl in Hle.
  assert (ble p k) by (etrans; [|exact Hle]; by apply ble_prefix, prefix_app_r).
  destruct end_ as [e|]; simpl in *.
  - left. apply (prefix_sandwich p k e); [done|]. by apply blt_ble.
  - destruct (proj1 (in_range_incr_ref p k)); auto.
Qed.

(** Beyond the namespace means after all of it. *)
Lemma overshoot_after p k k' : overshoot p k → p `prefix_of` k' → blt k' k.
Proof.
  intros Hov Hp. destruct (decide (blt k' k)) as [|Hn%not_blt]; [done|exfalso].
  destruct (proj2 (in_range_incr_ref p k) (or_intror Hov)) as [Hle _].
  destruct Hp as [e ->]. pose proof (prefix_sandwich p k e Hle Hn) as [e' ->].
  destruct Hov as [n Hn']. pose proof (incr_ref_value p) as Hv. rewrite Hn' in Hv.
  pose proof (incr_ref_length _ _ Hn') as Hlen. rewrite !length_app in Hlen.
  destruct e' as [|b e']; simpl in *; lia.
Qed.

Lemma overshoot_not_prefix p k : overshoot p k → ¬ p `prefix_of` k.
Proof. intros Hov Hp. exact (irreflexivity blt k (overshoot_after p k k Hov Hp)). Qed.

(** ** Iterators *)

Section prefix_iterator_correct.
Context {I : Type} `{!IteratorOps I, !IteratorContract I}.
Implicit Types (itr : prefixDBIterator I) (l : list entry).

(** What the source of an iterator still has to deliver: keys below the prefix,
    then keys that are not. *)
Definition runs (p : bytes) (L1 L2 : list entry) : Prop :=
  Forall (λ x, p `prefix_of` x.1) L1 ∧ Forall (λ x, ¬ p `prefix_of` x.1) L2 ∧ NoDup L1.*1.

Definition prefixDBIterator_rep itr (s e : slice) l : Prop :=
  pit_start itr = s ∧ pit_end itr = e ∧ pit_err itr = None ∧
  let p := data (pit_prefix itr) in
  match l with
  | [] => pit_valid itr = false ∧ ∃ ps pe L, it_rep (pit_source itr) ps pe L
  | (k, v) :: l => pit_valid itr = true ∧ k ≠ [] ∧
      ∃ ps pe L1 L2, it_rep (pit_source itr) ps pe ((p ++ k, v) :: L1 ++ L2) ∧
        runs p ((p ++ k, v) :: L1) L2 ∧ l = strip_list p L1
  end.

(** A call on the source, seen from the iterator. *)
Lemma reply_on_source {A} (m : M I A) itr r (Q : I → Prop) :
  reply m (pit_source itr) r Q →
  reply (on_source m) itr r (λ itr', ∃ src, itr' = set_source itr src ∧ Q src).
Proof.
  intros (src & Hm & HQ). eexists. unfold on_source. rewrite Hm. eauto.
Qed.

(** [Valid] when the source stands at a key below the prefix. *)
Lemma Valid_at itr ps pe k v L :
  pit_valid itr = true → pit_err itr = None →
  it_rep (pit_source itr) ps pe ((k, v) :: L) → data (pit_prefix itr) `prefix_of` k →
  reply prefixDBIterator_Valid itr (Ok true)
    (λ itr', ∃ src, itr' = set_source itr src ∧ it_rep src ps pe ((k, v) :: L)).
Proof.
  intros Hv He Hrep Hp. unfold prefixDBIterator_Valid.
  eapply (reply_bind _ _ _ _ _ (eq itr)); [by exists itr|]. intros ? <-.
  rewrite Hv, He. simpl.
  eapply reply_bind; [by eapply reply_on_source, law_Valid|]. intros ? (src & -> & Hsrc).
  rewrite bool_decide_eq_true_2 by done. simpl.
  eapply reply_bind; [by eapply reply_on_source, law_Key|]. intros ? (src' & -> & Hsrc').
  assert ((len (Some k) <? len (pit_prefix itr)) = false) as ->.
  { apply Nat.ltb_ge. by apply prefix_length. }
  assert (bytes_Equal (Some (take (len (pit_prefix itr)) (data (Some k)))) (pit_prefix itr) = true) as ->.
  { apply bool_decide_eq_true. simpl. destruct Hp as [k' ->]. unfold len. by rewrite take_app_length. }
  simpl. apply reply_ret. by exists src'.
Qed.

(** [Valid] when the source is exhausted or [valid] is unset. *)
Lemma Valid_false itr : pit_valid itr = false →
  reply prefixDBIterator_Valid itr (Ok false) (eq itr).
Proof.
  intros Hv. unfold prefixDBIterator_Valid.
  eapply (reply_bind _ _ _ _ _ (eq itr)); [by exists itr|]. intros ? <-. rewrite Hv.
  by apply reply_ret.
Qed.

(** The part of [Next] after the source has moved, once the source does not
    stand at the prefix itself. *)
Definition settle (fuel : nat) : M (prefixDBIterator I) unit :=
  itr ← get;
  valid ← on_source it_Valid;
  inside ← (if (valid : bool) then
              key ← on_source it_Key; mret (bytes_HasPrefix key (pit_prefix itr))
            else mret false);
  if negb inside then modify (set_valid false)
  else
    key ← on_source it_Key;
    if bytes_Equal key (pit_prefix itr) then prefixDBIterator_Next_fuel fuel else mret tt.

Lemma settle_outside fuel itr s e ps pe L2 :
  pit_start itr = s → pit_end itr = e → pit_err itr = None →
  it_rep (pit_source itr) ps pe L2 →
  Forall (λ x, ¬ data (pit_prefix itr) `prefix_of` x.1) L2 →
  reply (settle fuel) itr (Ok tt) (λ itr', prefixDBIterator_rep itr' s e [] ∧
    pit_prefix itr' = pit_prefix itr).
Proof.
  intros Hs He Herr Hrep Hout. unfold settle.
  eapply (reply_bind _ _ _ _ _ (eq itr)); [by exists itr|]. intros ? <-.
  eapply reply_bind; [by eapply reply_on_source, law_Valid|]. intros ? (src & -> & Hsrc).
  assert (Hend : ∀ src' L, it_rep src' ps pe L →
    reply (modify (set_valid false)) (set_source itr src') (Ok tt)
      (λ itr', prefixDBIterator_rep itr' s e [] ∧ pit_prefix itr' = pit_prefix itr)).
  { intros src' L H. eexists. split; [done|]. split; [|done]. repeat split; simpl; eauto. }
  destruct L2 as [|[k v] L2].
  - rewrite bool_decide_eq_false_2 by auto.
    eapply reply_bind; [by eapply (reply_ret _ _ (eq (set_source itr src)))|].
    intros ? <-. by apply (Hend _ []).
  - rewrite bool_decide_eq_true_2 by done. apply Forall_cons in Hout as [Hout _].
    eapply (reply_bind _ _ _ false _ (λ itr', ∃ src', itr' = set_source itr src' ∧
      it_rep src' ps pe ((k, v) :: L2))).
    { eapply reply_bind; [by eapply reply_on_source, law_Key|]. intros ? (src' & -> & ?).
      assert (bytes_HasPrefix (Some k) (pit_prefix itr) = false) as ->.
      { apply not_true_iff_false. by rewrite bytes_HasPrefix_spec. }
      apply reply_ret. by exists src'. }
    intros ? (src' & -> & ?). by apply (Hend _ ((k, v) :: L2)).
Qed.

(** The source stands at a key below the prefix: [Next] stops there unless it is
    the prefix itself, in which case it calls itself. *)
Lemma settle_inside fuel itr ps pe k v L r Q :
  it_rep (pit_source itr) ps pe ((data (pit_prefix itr) ++ k, v) :: L) →
  (∀ src, it_rep src ps pe ((data (pit_prefix itr) ++ k, v) :: L) →
    reply (if decide (k = []) then prefixDBIterator_Next_fuel fuel else mret tt)
      (set_source itr src) r Q) →
  reply (settle fuel) itr r Q.
Proof.
  intros Hrep Hk. unfold settle. set (p := pit_prefix itr) in *.
  eapply (reply_bind _ _ _ _ _ (eq itr)); [by exists itr|]. intros ? <-.
  eapply reply_bind; [by eapply reply_on_source, law_Valid|]. intros ? (src & -> & Hsrc).
  rewrite bool_decide_eq_true_2 by done.
  eapply (reply_bind _ _ _ true _ (λ itr', ∃ src', itr' = set_source itr src' ∧
    it_rep src' ps pe ((data p ++ k, v) :: L))).
  { eapply reply_bind; [by eapply reply_on_source, law_Key|]. intros ? (src' & -> & ?).
    assert (bytes_HasPrefix (Some (data p ++ k)) p = true) as E.
    { apply bytes_HasPrefix_spec. by apply prefix_app_r. }
    fold p. rewrite E. apply reply_ret. by exists src'. }
  intros ? (src' & -> & Hsrc'). simpl.
  eapply reply_bind; [by eapply reply_on_source, law_Key|]. intros ? (src2 & -> & Hsrc2).
  specialize (Hk src2 Hsrc2). unfold bytes_Equal. simpl. fold p. case_decide as Hd.
  - rewrite bool_decide_eq_true_2; [done|]. by rewrite Hd, app_nil_r.
  - rewrite bool_decide_eq_false_2; [done|]. intros E. apply Hd.
    rewrite <-(app_nil_r (data p)) in E at 2. by apply app_inv_head in E.
Qed.

Lemma Next_fuel_unfold fuel :
  prefixDBIterator_Next_fuel (S fuel) =
    (_ ← prefixDBIterator_assertIsValid; _ ← on_source it_Next; settle fuel).
Proof. done. Qed.

(** One step of [Next] from a source position below the prefix. *)
Lemma Next_fuel_step fuel itr ps pe k v L r Q :
  pit_valid itr = true → pit_err itr = None →
  it_rep (pit_source itr) ps pe ((k, v) :: L) → data (pit_prefix itr) `prefix_of` k →
  (∀ src, it_rep src ps pe L → reply (settle fuel) (set_source itr src) r Q) →
  reply (prefixDBIterator_Next_fuel (S fuel)) itr r Q.
Proof.
  intros Hv He Hrep Hp Hnext. rewrite Next_fuel_unfold.
  eapply reply_bind.
  { unfold prefixDBIterator_assertIsValid. eapply reply_bind; [by eapply Valid_at|].
    intros itr' H. by eapply reply_ret. }
  intros ? (src & -> & Hsrc).
  eapply reply_bind; [by eapply reply_on_source, law_Next|].
  intros ? (src' & -> & Hsrc'). by apply Hnext.
Qed.

(** The source stands in front of [L1 ++ L2], and the prefix is not in [L1]. *)
Lemma settle_clean fuel itr s e ps pe L1 L2 :
  pit_start itr = s → pit_end itr = e → pit_valid itr = true → pit_err itr = None →
  it_rep (pit_source itr) ps pe (L1 ++ L2) → runs (data (pit_prefix itr)) L1 L2 →
  data (pit_prefix itr) ∉ L1.*1 →
  reply (settle fuel) itr (Ok tt) (λ itr',
    prefixDBIterator_rep itr' s e (strip_list (data (pit_prefix itr)) L1) ∧
    pit_prefix itr' = pit_prefix itr).
Proof.
  intros Hs He Hv Herr Hrep (H1 & H2 & Hnd) Hnin. destruct L1 as [|[key v] L1].
  { by eapply settle_outside. }
  pose proof H1 as [[k Hk] _]%Forall_cons. simpl in Hk. subst key.
  eapply settle_inside; [done|]. intros src Hsrc.
  assert (k ≠ []) as Hk.
  { intros ->. apply Hnin. rewrite app_nil_r. apply list_elem_of_here. }
  rewrite decide_False by done. apply reply_ret. split; [|done].
  unfold strip_list. simpl. rewrite strip_ext by done.
  repeat split; try done. exists ps, pe, L1, L2. by repeat split.
Qed.

(** Two levels of calls are enough because the prefix occurs at most once. *)
Lemma settle_any fuel itr s e ps pe L1 L2 :
  pit_start itr = s → pit_end itr = e → pit_valid itr = true → pit_err itr = None →
  it_rep (pit_source itr) ps pe (L1 ++ L2) → runs (data (pit_prefix itr)) L1 L2 →
  reply (settle (S fuel)) itr (Ok tt) (λ itr',
    prefixDBIterator_rep itr' s e (strip_list (data (pit_prefix itr)) L1) ∧
    pit_prefix itr' = pit_prefix itr).
Proof.
  intros Hs He Hv Herr Hrep Hruns.
  destruct L1 as [|[key v] L1]; [apply settle_clean with ps pe L2; try done; by apply not_elem_of_nil|].
  destruct Hruns as (H1 & H2 & Hnd). pose proof H1 as [[k Hk] H1']%Forall_cons. simpl in Hk.
  subst key. pose proof Hnd as [Hnin Hnd']%NoDup_cons.
  destruct (decide (k = [])) as [->|Hk].
  - rewrite app_nil_r in *. unfold strip_list. simpl. rewrite strip_self.
    eapply (settle_inside _ _ _ _ []); [by rewrite app_nil_r|]. intros src Hsrc.
    rewrite decide_True by done. rewrite app_nil_r in Hsrc.
    eapply Next_fuel_step; [done|done|exact Hsrc|done|]. intros src' Hsrc'.
    by apply (settle_clean fuel (set_source (set_source itr src) src') s e ps pe L1 L2).
  - eapply settle_inside; [done|]. intros src Hsrc. rewrite decide_False by done.
    apply reply_ret. split; [|done]. unfold strip_list. simpl. rewrite strip_ext by done.
    repeat split; try done. exists ps, pe, L1, L2. by repeat split.
Qed.

(** [Next] with any fuel of at least two delivers its result. *)
Lemma prefixDBIterator_Next_enough fuel itr s e x l :
  prefixDBIterator_rep itr s e (x :: l) →
  reply (prefixDBIterator_Next_fuel (S (S fuel))) itr (Ok tt)
    (λ itr', prefixDBIterator_rep itr' s e l).
Proof.
  destruct x as [k v].
  intros (Hs & He & Herr & Hv & Hk & ps & pe & L1 & L2 & Hrep & (H1 & H2 & Hnd) & ->).
  apply Forall_cons in H1 as [_ H1]. apply NoDup_cons in Hnd as [_ Hnd].
  eapply Next_fuel_step; [done|done|exact Hrep|by apply prefix_app_r|]. intros src Hsrc.
  eapply reply_mono; [by apply (settle_any fuel (set_source itr src) s e ps pe L1 L2)|].
  by intros itr' [? _].
Qed.

Lemma prefixDBIterator_Valid_spec itr s e l :
  prefixDBIterator_rep itr s e l →
  reply prefixDBIterator_Valid itr (Ok (bool_decide (l ≠ [])))
    (λ itr', prefixDBIterator_rep itr' s e l).
Proof.
  intros Hrep. pose proof Hrep as (Hs & He & Herr & H). destruct l as [|[k v] l].
  - destruct H as [Hv _]. rewrite bool_decide_eq_false_2 by auto.
    eapply reply_mono; [by apply Valid_false|]. by intros ? <-.
  - destruct H as (Hv & Hk & ps & pe & L1 & L2 & Hsrc & Hruns & ->).
    rewrite bool_decide_eq_true_2 by done.
    eapply reply_mono; [eapply Valid_at; [done|done|exact Hsrc|by apply prefix_app_r]|].
    intros ? (src & -> & Hsrc'). repeat split; try done. by exists ps, pe, L1, L2.
Qed.

Lemma prefixDBIterator_invalid {A} (f : unit → M (prefixDBIterator I) A) itr s e :
  prefixDBIterator_rep itr s e [] →
  reply (prefixDBIterator_assertIsValid ≫= f) itr (Panic invalid_msg)
    (λ itr', prefixDBIterator_rep itr' s e []).
Proof.
  intros Hrep. apply reply_bind_Panic. unfold prefixDBIterator_assertIsValid.
  eapply reply_bind; [by apply prefixDBIterator_Valid_spec|]. intros itr' H.
  rewrite bool_decide_eq_false_2 by auto. by apply reply_panic.
Qed.

(** A method that reads the source of an iterator that has an entry. *)
Lemma prefixDBIterator_valid {A} (f : M (prefixDBIterator I) A) itr s e k v l r :
  prefixDBIterator_rep itr s e ((k, v) :: l) →
  (∀ itr' ps pe L, pit_prefix itr' = pit_prefix itr →
    it_rep (pit_source itr') ps pe ((data (pit_prefix itr) ++ k, v) :: L) →
    reply f itr' r (λ itr'', ∃ src, itr'' = set_source itr' src ∧
      it_rep src ps pe ((data (pit_prefix itr) ++ k, v) :: L))) →
  reply (_ ← prefixDBIterator_assertIsValid; f) itr r
    (λ itr', prefixDBIterator_rep itr' s e ((k, v) :: l)).
Proof.
  intros (Hs & He & Herr & Hv & Hk & ps & pe & L1 & L2 & Hsrc & Hruns & ->) Hf.
  eapply (reply_bind _ _ _ _ _ (λ itr', ∃ src, itr' = set_source itr src ∧
    it_rep src ps pe ((data (pit_prefix itr) ++ k, v) :: L1 ++ L2))).
  { unfold prefixDBIterator_assertIsValid.
    eapply reply_bind; [eapply Valid_at; [done|done|exact Hsrc|by apply prefix_app_r]|].
    intros ??. by apply reply_ret. }
  intros ? (src & -> & Hsrc').
  eapply reply_mono; [by apply (Hf (set_source itr src) ps pe (L1 ++ L2))|].
  intros ? (src' & -> & Hsrc2). repeat split; try done. by exists ps, pe, L1, L2.
Qed.

Lemma prefixDBIterator_Key_spec itr s e k v l :
  prefixDBIterator_rep itr s e ((k, v) :: l) →
  reply prefixDBIterator_Key itr (Ok (Some k)) (λ itr', prefixDBIterator_rep itr' s e ((k, v) :: l)).
Proof.
  intros Hrep. eapply prefixDBIterator_valid; [done|]. intros itr' ps pe L Hp Hsrc.
  eapply (reply_bind _ _ _ _ _ (eq itr')); [by exists itr'|]. intros ? <-.
  eapply reply_bind; [by eapply reply_on_source, law_Key|]. intros ? (src & -> & Hsrc').
  eexists. split; [|by eauto]. unfold lift_result. f_equal. rewrite Hp. unfold slice_from.
  assert ((len (Some (data (pit_prefix itr) ++ k)) <? len (pit_prefix itr)) = false) as ->.
  { apply Nat.ltb_ge. unfold len. simpl. rewrite length_app. lia. }
  simpl. do 2 f_equal. apply drop_app_length.
Qed.

Lemma prefixDBIterator_Value_spec itr s e k v l :
  prefixDBIterator_rep itr s e ((k, v) :: l) →
  reply prefixDBIterator_Value itr (Ok (Some v)) (λ itr', prefixDBIterator_rep itr' s e ((k, v) :: l)).
Proof.
  intros Hrep. eapply prefixDBIterator_valid; [done|]. intros itr' ps pe L Hp Hsrc.
  by eapply reply_on_source, law_Value.
Qed.

Lemma prefixDBIterator_source itr s e l :
  prefixDBIterator_rep itr s e l → ∃ ps pe L, it_rep (pit_source itr) ps pe L.
Proof.
  intros (_ & _ & _ & H). destruct l as [|[k v] l]; [by destruct H as [_ ?]|].
  destruct H as (_ & _ & ps & pe & L1 & L2 & ? & _). eauto.
Qed.

#[global] Instance prefixDBIterator_contract : IteratorContract (prefixDBIterator I).
Proof.
  refine {| it_rep := prefixDBIterator_rep |}.
  - exact prefixDBIterator_Valid_spec.
  - exact (prefixDBIterator_Next_enough 0).
  - intros. by apply prefixDBIterator_invalid.
  - exact prefixDBIterator_Key_spec.
  - intros. by apply prefixDBIterator_invalid.
  - exact prefixDBIterator_Value_spec.
  - intros. by apply prefixDBIterator_invalid.
  - intros itr s e l Hrep. destruct (prefixDBIterator_source _ _ _ _ Hrep) as (ps & pe & L & Hsrc).
    unfold it_Error. simpl. unfold prefixDBIterator_Error. rewrite (law_Error _ _ _ _ Hsrc).
    by destruct Hrep as (_ & _ & ? & _).
  - intros itr s e l Hrep. destruct (prefixDBIterator_source _ _ _ _ Hrep) as (ps & pe & L & Hsrc).
    eapply reply_mono; [by eapply reply_on_source, law_it_Close|done].
Defined.

#[global] Instance prefixDBIterator_domain : IteratorDomain (prefixDBIterator I).
Proof. by intros itr s e l (<- & <- & _). Qed.

(** ** A new iterator *)

Lemma runs_head p L1 L2 k v L :
  runs p L1 L2 → L1 ++ L2 = (k, v) :: L → (p `prefix_of` k ↔ L1 ≠ []).
Proof.
  intros (H1 & H2 & _) E. destruct L1 as [|[k1 v1] L1]; simplify_eq/=.
  - apply Forall_cons in H2 as [H2 _]. by split.
  - apply Forall_cons in H1 as [H1 _]. by split.
Qed.

(** The last test of [newPrefixIterator]. *)
Lemma prime_check prefix src ps pe L1 L2 :
  it_rep src ps pe (L1 ++ L2) → runs (data prefix) L1 L2 →
  reply (valid ← it_Valid;
         if (valid : bool) then key ← it_Key; mret (bytes_HasPrefix key prefix) else mret false)
    src (Ok (bool_decide (L1 ≠ []))) (λ src', it_rep src' ps pe (L1 ++ L2)).
Proof.
  intros Hrep Hruns. eapply reply_bind; [by apply law_Valid|]. intros src' Hsrc'.
  destruct (L1 ++ L2) as [|[k v] L] eqn:E.
  - apply app_eq_nil in E as [-> ->]. by apply reply_ret.
  - rewrite bool_decide_eq_true_2 by done.
    eapply reply_bind; [by eapply law_Key|]. intros src2 Hsrc2.
    assert (bytes_HasPrefix (Some k) prefix = bool_decide (L1 ≠ [])) as <-; [|by apply reply_ret].
    apply eq_bool_prop_intro. rewrite !Is_true_true, bytes_HasPrefix_spec, bool_decide_eq_true.
    by eapply runs_head.
Qed.

(** The namespace starts after the prefix itself, if the source stands there. *)
Definition drop_self (p : bytes) (L1 : list entry) : list entry :=
  match L1 with
  | (k, _) :: L => if decide (k = p) then L else L1
  | [] => []
  end.

Definition at_self (p : bytes) (l : list entry) : bool :=
  match l with (k, _) :: _ => bool_decide (k = p) | [] => false end.

Lemma prime_skip prefix src ps pe L :
  it_rep src ps pe L →
  reply (valid ← it_Valid;
         if (valid : bool) then key ← it_Key; mret (bytes_Equal key prefix) else mret false)
    src (Ok (at_self (data prefix) L)) (λ src', it_rep src' ps pe L).
Proof.
  intros Hrep. eapply reply_bind; [by apply law_Valid|]. intros src1 Hsrc1.
  destruct L as [|[k v] L].
  - rewrite bool_decide_eq_false_2 by auto. by apply reply_ret.
  - rewrite bool_decide_eq_true_2 by done. eapply reply_bind; [by eapply law_Key|].
    intros src2 Hsrc2. by apply reply_ret.
Qed.

Lemma runs_drop_self p L1 L2 : runs p L1 L2 → runs p (drop_self p L1) L2.
Proof.
  intros Hruns. destruct L1 as [|[k v] L1]; [done|]. simpl. case_decide; [|done].
  destruct Hruns as (H1 & H2 & Hnd). apply Forall_cons in H1 as [_ ?].
  by apply NoDup_cons in Hnd as [_ ?].
Qed.

Lemma drop_self_notin p L1 L2 : runs p L1 L2 → ∀ v L, drop_self p L1 ≠ (p, v) :: L.
Proof.
  intros (H1 & H2 & Hnd) v L. destruct L1 as [|[k v1] L1]; simpl; [done|].
  case_decide; [|congruence]. subst k. intros ->.
  apply NoDup_cons in Hnd as [Hnin _]. apply Hnin. apply list_elem_of_here.
Qed.

Lemma strip_drop_self p L1 : strip_list p (drop_self p L1) = strip_list p L1.
Proof.
  destruct L1 as [|[k v] L1]; [done|]. simpl. case_decide; [|done]. subst k.
  unfold strip_list. simpl. by rewrite strip_self.
Qed.

Lemma prime_spec prefix src ps pe L1 L2 :
  it_rep src ps pe (L1 ++ L2) → runs (data prefix) L1 L2 →
  reply (newPrefixIterator_prime prefix) src
    (Ok (bool_decide (drop_self (data prefix) L1 ≠ [])))
    (λ src', it_rep src' ps pe (drop_self (data prefix) L1 ++ L2)).
Proof.
  intros Hrep Hruns. set (p := data prefix) in *. unfold newPrefixIterator_prime.
  eapply reply_bind; [by apply prime_skip|]. intros src1 Hsrc1. fold p.
  eapply (reply_bind _ _ _ _ _ (λ src', it_rep src' ps pe (drop_self p L1 ++ L2)));
    [|intros; by apply prime_check, runs_drop_self].
  destruct (at_self p (L1 ++ L2)) eqn:Hself.
  - destruct L1 as [|[k v] L1]; simpl in Hself.
    + destruct L2 as [|[k v] L2]; [done|]. apply bool_decide_eq_true in Hself as ->.
      destruct Hruns as (_ & H2 & _). apply Forall_cons in H2 as [H2 _]. by destruct H2.
    + simpl. rewrite decide_True by by apply bool_decide_eq_true in Hself.
      by eapply law_Next.
  - assert (drop_self p L1 = L1) as ->; [|by apply reply_ret].
    destruct L1 as [|[k v] L1]; [done|]. simpl in *. apply bool_decide_eq_false in Hself.
    by rewrite decide_False.
Qed.

(** A new iterator, in front of keys below the prefix and then others, delivers
    the former. *)
Lemma newPrefixIterator_spec prefix start end_ src ps pe L1 L2 :
  it_rep src ps pe (L1 ++ L2) → runs (data prefix) L1 L2 →
  ∃ itr, newPrefixIterator prefix start end_ src = Ok itr ∧
    prefixDBIterator_rep itr start end_ (strip_list (data prefix) L1).
Proof.
  intros Hrep Hruns. unfold newPrefixIterator.
  destruct (prime_spec prefix src ps pe L1 L2 Hrep Hruns) as (src' & -> & Hsrc').
  eexists. split; [done|]. rewrite <-strip_drop_self.
  pose proof (drop_self_notin _ _ _ Hruns) as Hself. apply runs_drop_self in Hruns.
  set (p := data prefix) in *. repeat split. simpl. fold p.
  destruct (drop_self p L1) as [|[key v] L]; [simpl; eauto|].
  pose proof Hruns as (H1 & _ & _). apply Forall_cons in H1 as [[k Hk] _]. simpl in Hk. subst key.
  assert (k ≠ []) as Hk. { intros ->. by apply (Hself v L); rewrite app_nil_r. }
  unfold strip_list. simpl. rewrite strip_ext by done.
  repeat split; [done|]. by exists ps, pe, L, L2.
Qed.

End prefix_iterator_correct.

(** ** Splitting a range of the wrapped database *)

Lemma strip_list_app p l1 l2 : strip_list p (l1 ++ l2) = strip_list p l1 ++ strip_list p l2.
Proof. apply omap_app. Qed.

(** In ascending order the namespace comes first. *)
Lemma range_split p m start end_ :
  ∃ L1 L2, scan m (Some (p ++ data start)) (range_end p end_) false = L1 ++ L2 ∧ runs p L1 L2.
Proof.
  pose proof (scan_sorted m (Some (p ++ data start)) (range_end p end_)) as Hs.
  assert (Forall (λ x, p `prefix_of` x.1 ∨ overshoot p x.1)
    (scan m (Some (p ++ data start)) (range_end p end_) false)) as Hall.
  { rewrite list.Forall_forall. intros [k v] [_ Hk]%elem_of_scan.
    destruct (range_prefix _ _ _ _ Hk) as [?|[_ ?]]; auto. }
  induction Hs as [|[k v] L Hs IH Hk].
  { exists [], []. by repeat split; constructor. }
  apply Forall_cons in Hall as [Hk' Hall]. destruct (IH Hall) as (L1 & L2 & -> & H1 & H2 & Hnd).
  destruct Hk' as [Hp|Hov].
  - exists ((k, v) :: L1), L2. repeat split; [by constructor|done|]. simpl. constructor; [|done].
    apply Forall_app in Hk as [Hk _]. rewrite list.Forall_forall in Hk.
    intros ([k' v'] & -> & Hin)%list_elem_of_fmap. exact (irreflexivity blt _ (Hk _ Hin)).
  - destruct L1 as [|[k1 v1] L1].
    + exists [], ((k, v) :: L2). repeat split; [constructor| |constructor].
      constructor; [by apply overshoot_not_prefix|done].
    + exfalso. apply Forall_cons in H1 as [H1 _]. apply Forall_cons in Hk as [Hk _].
      unfold key_lt in Hk. simpl in *. pose proof (overshoot_after _ _ _ Hov H1).
      exact (irreflexivity blt k (transitivity Hk H)).
Qed.

(** Without a key that [cpIncr] lets through, the whole range is the namespace. *)
Lemma range_all p m start end_ r :
  (∀ k, overshoot p k → m !! k = None) ∨ is_Some end_ →
  runs p (scan m (Some (p ++ data start)) (range_end p end_) r) [].
Proof.
  intros Hno. repeat split; [|constructor|].
  - rewrite list.Forall_forall. intros [k v] [Hm Hk]%elem_of_scan.
    destruct (range_prefix _ _ _ _ Hk) as [?|[-> Hov]]; [done|].
    destruct Hno as [Hno|[? [=]]]. rewrite Hno in Hm by done. done.
  - assert (NoDup (scan m (Some (p ++ data start)) (range_end p end_) false).*1)
      by apply key_lt_NoDup_keys, scan_sorted.
    destruct r; [|done]. rewrite scan_reverse, fmap_reverse. by rewrite reverse_Permutation.
Qed.

(** ** Writes below a prefix *)

Definition prefix_write (p : bytes) (w : write) : write :=
  match w with WSet k v => WSet (p ++ k) v | WDelete k => WDelete (p ++ k) end.

Lemma prefix_view_writes p ws m :
  Forall (λ w, write_key w ≠ []) ws →
  prefix_view p (apply_writes (prefix_write p <$> ws) m) = apply_writes ws (prefix_view p m).
Proof.
  intros Hws. revert m. induction Hws as [|w ws Hw Hws IH]; intros m; [done|].
  unfold apply_writes in *. simpl. rewrite IH. f_equal.
  destruct w; simpl in *; [by apply prefix_view_insert|apply prefix_view_delete].
Qed.

(** No key beyond the namespace that a range scan would meet. *)
Definition no_overshoot (p : bytes) (m : store) : Prop := ∀ k, overshoot p k → m !! k = None.

(** The wrapped database [m] differs from [m0] below the prefix only. *)
Definition ns_ok (p : bytes) (m0 m : store) : Prop :=
  ∀ k, ¬ (p `prefix_of` k ∧ k ≠ p) → m !! k = m0 !! k.

Lemma inside_ns (p k : bytes) : k ≠ [] → p `prefix_of` p ++ k ∧ p ++ k ≠ p.
Proof.
  intros Hk. split; [by apply prefix_app_r|]. intros H%(f_equal length).
  rewrite length_app in H. destruct k; [done|simpl in H; lia].
Qed.

Lemma ns_ok_insert p m0 m k v : k ≠ [] → ns_ok p m0 m → ns_ok p m0 (<[p ++ k := v]> m).
Proof.
  intros Hk Hout k' Hk'.
  rewrite lookup_insert_ne; [by apply Hout|]. intros <-. by apply Hk', inside_ns.
Qed.

Lemma ns_ok_delete p m0 m k : k ≠ [] → ns_ok p m0 m → ns_ok p m0 (delete (p ++ k) m).
Proof.
  intros Hk Hout k' Hk'.
  rewrite lookup_delete_ne; [by apply Hout|]. intros <-. by apply Hk', inside_ns.
Qed.

Lemma ns_ok_writes p m0 ws m :
  Forall (λ w, write_key w ≠ []) ws → ns_ok p m0 m →
  ns_ok p m0 (apply_writes (prefix_write p <$> ws) m).
Proof.
  intros Hws. revert m. induction Hws as [|w ws Hw Hws IH]; intros m Hm; [done|].
  unfold apply_writes in *. simpl. apply IH.
  destruct w; simpl in *; [by apply ns_ok_insert|by apply ns_ok_delete].
Qed.

Lemma ns_ok_refl p m : ns_ok p m m.
Proof. done. Qed.

(** The keys beyond the namespace are none of those that change. *)
Lemma ns_ok_overshoot p m0 m k : ns_ok p m0 m → overshoot p k → m !! k = m0 !! k.
Proof. intros Hout Hov. apply Hout. intros [Hk _]. exact (overshoot_not_prefix _ _ Hov Hk). Qed.

Lemma ns_ok_no_overshoot p m0 m : ns_ok p m0 m → no_overshoot p m0 → no_overshoot p m.
Proof. intros Hout Hno k Hov. rewrite (ns_ok_overshoot p m0 m k Hout Hov). by apply Hno. Qed.

#[export] Hint Resolve ns_ok_insert ns_ok_delete ns_ok_writes ns_ok_refl : tmdb.

Lemma exact_no_overshoot p m : exact_prefix p = true → no_overshoot p m.
Proof. intros Hp k Hov. by destruct (exact_prefix_no_overshoot p k Hp). Qed.

(** ** The end of a namespace

    The least key after all those that extend [p]: the successor of [p] as
    [cpIncr] computes it, without the zero bytes the carry leaves. *)

Fixpoint prefix_limit (p : bytes) : slice :=
  match p with
  | [] => None
  | b :: p =>
      match prefix_limit p with
      | Some q => Some (b :: q)
      | None => if (Byte.to_N b <? 255)%N then Some [byte_incr b] else None
      end
  end.

Lemma in_range_prefix_limit p k : ble p k ∧ below k (prefix_limit p) ↔ p `prefix_of` k.
Proof.
  revert k. induction p as [|x p IH]; intros k.
  { split; [intros _; apply prefix_nil|]. intros _. split; [apply ble_nil|done]. }
  destruct k as [|y k].
  { split; [by intros []|]. intros H. by apply prefix_nil_not in H. }
  specialize (IH k). rewrite prefix_cons_iff. simpl prefix_limit.
  pose proof (byte_to_N_bound y) as Hy. unfold ble, blt, below in *.
  destruct (N.lt_trichotomy (Byte.to_N x) (Byte.to_N y)) as [H|[H|H]].
  - assert (x ≠ y) by (intros ->; lia). rewrite (bcompare_cons_lt x y) by done.
    destruct (prefix_limit p) as [q|]; simpl.
    + unfold blt. rewrite bcompare_cons_gt by done. naive_solver.
    + destruct (N.ltb_spec (Byte.to_N x) 255) as [Hx|Hx]; [|lia].
      pose proof (byte_incr_to_N x Hx) as Hi. unfold blt. split; [|naive_solver]. intros [_ Hlt].
      destruct (decide (y = byte_incr x)) as [->|Hne].
      * rewrite bcompare_cons_eq in Hlt. by destruct k.
      * assert (Byte.to_N y ≠ Byte.to_N (byte_incr x)) by (by intros ?%byte_to_N_inj).
        rewrite bcompare_cons_gt in Hlt by lia. done.
  - apply byte_to_N_inj in H as ->. rewrite bcompare_cons_eq, <-IH.
    destruct (prefix_limit p) as [q|]; simpl.
    + unfold blt. rewrite bcompare_cons_eq. tauto.
    + destruct (N.ltb_spec (Byte.to_N y) 255) as [Hx|Hx]; simpl; [|tauto].
      unfold blt. rewrite bcompare_cons_lt by (rewrite byte_incr_to_N by done; lia). tauto.
  - rewrite (bcompare_cons_gt x y) by done. split; [by intros []|]. intros [-> _]. lia.
Qed.

Lemma prefix_limit_ne p q : prefix_limit p = Some q → q ≠ [].
Proof. destruct p as [|b p]; simpl; [done|]. repeat case_match; naive_solver. Qed.

(** The range of the wrapped database that is exactly the namespace. *)
Definition exact_end (p : bytes) (end_ : slice) : slice :=
  match end_ with None => prefix_limit p | Some e => Some (p ++ e) end.

Lemma exact_end_domain p start end_ k :
  in_domain (Some (p ++ data start)) (exact_end p end_) (p ++ k) ↔ in_domain start end_ k.
Proof.
  unfold in_domain. simpl. rewrite ble_app. destruct end_ as [e|]; simpl.
  - by rewrite blt_app.
  - assert (p `prefix_of` p ++ k) as Hp by by apply prefix_app_r.
    pose proof (proj2 (in_range_prefix_limit p (p ++ k)) Hp). tauto.
Qed.

Lemma exact_end_scan p m start end_ r :
  scan (prefix_view p m) start end_ r =
    strip_list p (scan m (Some (p ++ data start)) (exact_end p end_) r).
Proof.
  assert (scan (prefix_view p m) start end_ false =
    strip_list p (scan m (Some (p ++ data start)) (exact_end p end_) false)) as H.
  { apply scan_unique; [apply strip_list_sorted, scan_sorted|]. intros k v.
    rewrite elem_of_strip_list, elem_of_scan, lookup_prefix_view, exact_end_domain.
    case_decide; naive_solver. }
  destruct r; [|done]. by rewrite !scan_reverse, H, strip_list_reverse.
Qed.

Lemma exact_end_runs p m start end_ r :
  runs p (scan m (Some (p ++ data start)) (exact_end p end_) r) [].
Proof.
  repeat split; [|constructor|].
  - rewrite list.Forall_forall. intros [k v] [_ [Hle Hlt]]%elem_of_scan. simpl in Hle.
    assert (ble p k) by (etrans; [|exact Hle]; by apply ble_prefix, prefix_app_r).
    destruct end_ as [e|]; simpl in *.
    + apply (prefix_sandwich p k e); [done|]. by apply blt_ble.
    + by apply in_range_prefix_limit.
  - assert (NoDup (scan m (Some (p ++ data start)) (exact_end p end_) false).*1)
      by apply key_lt_NoDup_keys, scan_sorted.
    destruct r; [|done]. rewrite scan_reverse, fmap_reverse. by rewrite reverse_Permutation.
Qed.

(** ** The contract *)

(** A database whose [ReverseIterator] is another. *)
Definition with_reverse {S I B : Type} (ops : DBOps S I B) (rev : slice → slice → M S I) : DBOps S I B := {|
  db_Get := db_Get ops; db_Has := db_Has ops; db_Set := db_Set ops; db_SetSync := db_SetSync ops;
  db_Delete := db_Delete ops; db_DeleteSync := db_DeleteSync ops; db_Iterator := db_Iterator ops;
  db_ReverseIterator := rev; db_Close := db_Close ops; db_NewBatch := db_NewBatch ops;
  db_Print := db_Print ops; db_Stats := db_Stats ops;
|}.

Section prefixdb_correct.
Context {S I B : Type} `{!IteratorOps I, !BatchOps S B} (db : DBOps S I B).
Context `{!DBContract db} (prefix : slice) (fuel : nat).
Hypothesis prefix_ne : data prefix ≠ [].
(** The wrapped database when the PrefixDB is opened. *)
Context (m0 : store).
Let p : bytes := data prefix.

Definition PrefixDB_model (s : S) : store := prefix_view p (db_model s).
Definition PrefixDB_fits : limits :=
  {| fits_write w := fits_write db_fits (prefix_write p w);
     fits_read k := fits_read db_fits (p ++ k); batch_limit := batch_limit db_fits |}.
Definition PrefixDB_inv (s : S) : Prop := db_inv s ∧ ns_ok p m0 (db_model s).

Lemma prefixed_len key : (len (prefixed prefix key) =? 0) = false.
Proof.
  apply Nat.eqb_neq. unfold len, prefixed, append. simpl. rewrite length_app. fold p.
  destruct p eqn:E; [|done]. by destruct prefix_ne.
Qed.

Lemma prefixed_data key : data (prefixed prefix key) = p ++ data key.
Proof. done. Qed.

Lemma key_ne key : (len key =? 0) = false → data key ≠ [].
Proof. unfold len. by destruct (data key). Qed.

Lemma PrefixDB_Get_spec s key :
  PrefixDB_inv s → fits_read PrefixDB_fits (data key) →
  reply (PrefixDB_Get db prefix key) s (spec_Get (PrefixDB_model s) key)
    (λ s', PrefixDB_inv s' ∧ PrefixDB_model s' = PrefixDB_model s).
Proof.
  intros [Hinv Hno] Hfit. unfold PrefixDB_Get. destruct (len key =? 0) eqn:Hk.
  { unfold spec_Get. rewrite Hk. by apply reply_throw. }
  pose proof (law_Get s (prefixed prefix key) Hinv Hfit) as H. unfold spec_Get, PrefixDB_model in *.
  rewrite prefixed_len in H. rewrite Hk, lookup_prefix_view, decide_False by by apply key_ne.
  eapply reply_bind; [exact H|]. intros s' [Hinv' Hm]. apply reply_ret.
  unfold PrefixDB_inv, PrefixDB_model. by rewrite Hm.
Qed.

Lemma PrefixDB_Has_spec s key :
  PrefixDB_inv s → fits_read PrefixDB_fits (data key) →
  reply (PrefixDB_Has db prefix key) s (spec_Has (PrefixDB_model s) key)
    (λ s', PrefixDB_inv s' ∧ PrefixDB_model s' = PrefixDB_model s).
Proof.
  intros [Hinv Hno] Hfit. unfold PrefixDB_Has. destruct (len key =? 0) eqn:Hk.
  { unfold spec_Has. rewrite Hk. by apply reply_throw. }
  pose proof (law_Has s (prefixed prefix key) Hinv Hfit) as H. unfold spec_Has, PrefixDB_model in *.
  rewrite prefixed_len in H. rewrite Hk, lookup_prefix_view, decide_False by by apply key_ne.
  eapply reply_bind; [exact H|]. intros s' [Hinv' Hm]. apply reply_ret.
  unfold PrefixDB_inv, PrefixDB_model. by rewrite Hm.
Qed.

(** [Set] and [SetSync] differ in the method of the wrapped database only. *)
Lemma PrefixDB_set_spec (set : slice → slice → M S unit) s key value :
  reply (set (prefixed prefix key) value) s (spec_Set (db_model s) (prefixed prefix key) value).1
    (λ s', db_inv s' ∧ db_model s' = (spec_Set (db_model s) (prefixed prefix key) value).2) →
  PrefixDB_inv s →
  reply (if len key =? 0 then throw errKeyEmpty
         else if is_nil value then throw errValueNil
         else set (prefixed prefix key) value) s (spec_Set (PrefixDB_model s) key value).1
    (λ s', PrefixDB_inv s' ∧ PrefixDB_model s' = (spec_Set (PrefixDB_model s) key value).2).
Proof.
  intros Hset [Hinv Hno]. unfold spec_Set in *.
  rewrite prefixed_len in Hset. destruct (len key =? 0) eqn:Hk; [by apply reply_throw|].
  destruct value as [v|]; simpl in *; [|by apply reply_throw].
  eapply reply_mono; [exact Hset|]. intros s' [Hinv' Hm]. unfold PrefixDB_inv, PrefixDB_model.
  rewrite Hm. fold p. split; [split; [done|by apply ns_ok_insert; [apply key_ne|]]|].
  by apply prefix_view_insert, key_ne.
Qed.

Lemma PrefixDB_delete_spec (del : slice → M S unit) s key :
  reply (del (prefixed prefix key)) s (spec_Delete (db_model s) (prefixed prefix key)).1
    (λ s', db_inv s' ∧ db_model s' = (spec_Delete (db_model s) (prefixed prefix key)).2) →
  PrefixDB_inv s →
  reply (if len key =? 0 then throw errKeyEmpty else del (prefixed prefix key)) s
    (spec_Delete (PrefixDB_model s) key).1
    (λ s', PrefixDB_inv s' ∧ PrefixDB_model s' = (spec_Delete (PrefixDB_model s) key).2).
Proof.
  intros Hdel [Hinv Hno]. unfold spec_Delete in *.
  rewrite prefixed_len in Hdel. destruct (len key =? 0) eqn:Hk; [by apply reply_throw|].
  eapply reply_mono; [exact Hdel|]. intros s' [Hinv' Hm]. unfold PrefixDB_inv, PrefixDB_model.
  rewrite Hm. split; [split; [done|by apply ns_ok_delete; [apply key_ne|]]|]. apply prefix_view_delete.
Qed.

(** *** Iterators *)

Lemma prefix_end_spec end_ : prefix_end prefix end_ = Ok (range_end p end_).
Proof. destruct end_ as [e|]; [done|]. by apply cpIncr_ref. Qed.

Lemma prefix_bounds start end_ :
  bad_bounds (append (cp prefix) start) (range_end p end_) = false.
Proof.
  unfold bad_bounds. apply orb_false_iff. split.
  - simpl. pose proof (prefixed_len start) as H. unfold prefixed in H. by rewrite H.
  - destruct end_ as [e|]; simpl.
    + pose proof (prefixed_len (Some e)) as H. unfold len, prefixed, append in *. simpl in *.
      fold p in H. by rewrite H.
    + destruct (incr_ref p) as [q|] eqn:E; [|done]. apply incr_ref_length in E. simpl.
      unfold len. simpl. rewrite E. fold p in prefix_ne. by destruct p.
Qed.

(** A forward iterator delivers the namespace in ascending order, whatever else
    the wrapped database holds. *)
Lemma PrefixDB_Iterator_spec s start end_ :
  db_inv s → bad_bounds start end_ = false →
  ∃ itr, reply (PrefixDB_Iterator db prefix start end_) s (Ok itr)
      (λ s', db_inv s' ∧ db_model s' = db_model s) ∧
    prefixDBIterator_rep itr start end_ (scan (PrefixDB_model s) start end_ false).
Proof.
  intros Hinv Hb. unfold PrefixDB_Iterator. fold (bad_bounds start end_). rewrite Hb.
  destruct (law_Iterator s _ _ Hinv (prefix_bounds start end_)) as (src & Hsrc & Hrep).
  destruct (range_split p (db_model s) start end_) as (L1 & L2 & HL & Hruns).
  change (append (cp prefix) start) with (Some (p ++ data start)) in *. rewrite HL in Hrep.
  destruct (newPrefixIterator_spec prefix start end_ src _ _ L1 L2 Hrep Hruns) as (itr & Hnew & Hitr).
  exists itr. split.
  - eapply (reply_bind _ _ _ _ _ (eq s)); [by rewrite prefix_end_spec; eexists|]. intros ? <-.
    eapply reply_bind; [exact Hsrc|]. intros s' Hs'. exists s'. by rewrite Hnew.
  - unfold PrefixDB_model. rewrite scan_prefix_view, HL, strip_list_app.
    rewrite (strip_list_none p L2) by apply Hruns. by rewrite app_nil_r.
Qed.

(** A reverse iterator delivers it in descending order, unless [end] is nil and
    a key beyond the namespace lies in the range [cpIncr] bounds. *)
Lemma PrefixDB_ReverseIterator_spec s start end_ :
  db_inv s → no_overshoot p (db_model s) ∨ is_Some end_ → bad_bounds start end_ = false →
  ∃ itr, reply (PrefixDB_ReverseIterator db prefix start end_) s (Ok itr)
      (λ s', db_inv s' ∧ db_model s' = db_model s) ∧
    prefixDBIterator_rep itr start end_ (scan (PrefixDB_model s) start end_ true).
Proof.
  intros Hinv Hno Hb. unfold PrefixDB_ReverseIterator. fold (bad_bounds start end_). rewrite Hb.
  destruct (law_ReverseIterator s _ _ Hinv (prefix_bounds start end_)) as (src & Hsrc & Hrep).
  pose proof (range_all p (db_model s) start end_ true Hno) as Hruns.
  change (append (cp prefix) start) with (Some (p ++ data start)) in *.
  rewrite <-(app_nil_r (scan _ _ _ _)) in Hrep.
  destruct (newPrefixIterator_spec prefix start end_ src _ _ _ [] Hrep Hruns) as (itr & Hnew & Hitr).
  exists itr. split.
  - eapply (reply_bind _ _ _ _ _ (eq s)); [by rewrite prefix_end_spec; eexists|]. intros ? <-.
    eapply reply_bind; [exact Hsrc|]. intros s' Hs'. exists s'. by rewrite Hnew.
  - unfold PrefixDB_model. by rewrite scan_prefix_view.
Qed.

(** *** Batches *)

Definition prefixDBBatch_rep (pb : prefixDBBatch B) (ws : option (list write)) : Prop :=
  pb_prefix pb = prefix ∧
  batch_rep (pb_source pb) ((λ l : list write, prefix_write p <$> l) <$> ws) ∧
  from_option (Forall (λ w, write_key w ≠ [])) True ws.

Lemma reply_on_batch {A} (m : M (B * S) A) pb s r (Q : B * S → Prop) :
  reply m (pb_source pb, s) r Q →
  reply (on_batch m) (pb, s) r
    (λ pbs, pb_prefix pbs.1 = pb_prefix pb ∧ Q (pb_source pbs.1, pbs.2)).
Proof. intros ([b s'] & Hm & HQ). eexists. unfold on_batch. rewrite Hm. by split. Qed.

Lemma prefixed_within ws :
  within PrefixDB_fits (Datatypes.S (length ws)) →
  within db_fits (Datatypes.S (length (prefix_write p <$> ws))).
Proof. by rewrite length_fmap. Qed.

Lemma prefixDBBatch_Set_spec pb ws s key value :
  prefixDBBatch_rep pb (Some ws) → PrefixDB_inv s → set_fits PrefixDB_fits key value →
  within PrefixDB_fits (Datatypes.S (length ws)) →
  reply (b_Set key value) (pb, s) (spec_batch_Set (Some ws) key value).1
    (λ bs, prefixDBBatch_rep bs.1 (spec_batch_Set (Some ws) key value).2 ∧
           PrefixDB_inv bs.2 ∧ PrefixDB_model bs.2 = PrefixDB_model s).
Proof.
  intros (Hp & Hb & Hws) [Hinv Hno] Hfit Hlim. unfold b_Set. simpl. unfold prefixDBBatch_Set, spec_batch_Set.
  destruct (len key =? 0) eqn:Hk; [by apply reply_throw|].
  destruct value as [v|]; [|by apply reply_throw]. simpl.
  eapply (reply_bind _ _ _ _ _ (eq (pb, s))); [by eexists|]. intros ? <-. simpl. rewrite Hp.
  pose proof (law_batch_Set _ _ s (prefixed prefix key) (Some v) Hb Hinv Hfit (prefixed_within ws Hlim)) as H.
  unfold spec_batch_Set in H. rewrite (prefixed_len key) in H.
  apply (reply_on_batch _ pb s) in H. simpl in *.
  eapply reply_mono; [exact H|]. intros [pb' s'] (Hp' & Hb' & Hinv' & Hm). simpl in *.
  unfold PrefixDB_inv, PrefixDB_model, prefixDBBatch_rep. rewrite Hm, Hp'.
  split_and!; try done; simpl; [by rewrite fmap_app|]. apply Forall_app. split; [done|].
  by repeat constructor; apply key_ne.
Qed.

Lemma prefixDBBatch_Delete_spec pb ws s key :
  prefixDBBatch_rep pb (Some ws) → PrefixDB_inv s → delete_fits PrefixDB_fits key →
  within PrefixDB_fits (Datatypes.S (length ws)) →
  reply (b_Delete key) (pb, s) (spec_batch_Delete (Some ws) key).1
    (λ bs, prefixDBBatch_rep bs.1 (spec_batch_Delete (Some ws) key).2 ∧
           PrefixDB_inv bs.2 ∧ PrefixDB_model bs.2 = PrefixDB_model s).
Proof.
  intros (Hp & Hb & Hws) [Hinv Hno] Hfit Hlim. unfold b_Delete. simpl.
  unfold prefixDBBatch_Delete, spec_batch_Delete.
  destruct (len key =? 0) eqn:Hk; [by apply reply_throw|].
  eapply (reply_bind _ _ _ _ _ (eq (pb, s))); [by eexists|]. intros ? <-. simpl. rewrite Hp.
  pose proof (law_batch_Delete _ _ s (prefixed prefix key) Hb Hinv Hfit (prefixed_within ws Hlim)) as H.
  unfold spec_batch_Delete in H. rewrite (prefixed_len key) in H.
  apply (reply_on_batch _ pb s) in H. simpl in *.
  eapply reply_mono; [exact H|]. intros [pb' s'] (Hp' & Hb' & Hinv' & Hm). simpl in *.
  unfold PrefixDB_inv, PrefixDB_model, prefixDBBatch_rep. rewrite Hm, Hp'.
  split_and!; try done; simpl; [by rewrite fmap_app|]. apply Forall_app. split; [done|].
  by repeat constructor; apply key_ne.
Qed.

(** [Write] and [WriteSync] differ in the method of the wrapped batch only. *)
Lemma prefixDBBatch_write_spec (write_ : M (B * S) unit) pb ws s :
  (∀ b ws, batch_rep b (Some ws) →
    reply write_ (b, s) (Ok tt)
      (λ bs, batch_rep bs.1 None ∧ db_inv bs.2 ∧ db_model bs.2 = apply_writes ws (db_model s))) →
  prefixDBBatch_rep pb (Some ws) → PrefixDB_inv s →
  reply (on_batch write_) (pb, s) (Ok tt)
    (λ bs, prefixDBBatch_rep bs.1 None ∧ PrefixDB_inv bs.2 ∧
           PrefixDB_model bs.2 = apply_writes ws (PrefixDB_model s)).
Proof.
  intros Hwrite (Hp & Hb & Hws) [Hinv Hno]. specialize (Hwrite _ _ Hb).
  apply (reply_on_batch _ pb s) in Hwrite. simpl in *.
  eapply reply_mono; [exact Hwrite|]. intros [pb' s'] (Hp' & Hb' & Hinv' & Hm). simpl in *.
  unfold PrefixDB_inv, PrefixDB_model, prefixDBBatch_rep. rewrite Hm, Hp'.
  split_and!; try done; [by apply ns_ok_writes|]. by apply prefix_view_writes.
Qed.

Lemma prefixDBBatch_Close_spec pb ws s :
  prefixDBBatch_rep pb ws → PrefixDB_inv s →
  reply b_Close (pb, s) (Ok tt)
    (λ bs, prefixDBBatch_rep bs.1 None ∧ PrefixDB_inv bs.2 ∧ PrefixDB_model bs.2 = PrefixDB_model s).
Proof.
  intros (Hp & Hb & Hws) [Hinv Hno].
  eapply reply_mono; [by eapply (reply_on_batch b_Close), law_batch_Close|].
  intros [pb' s'] (Hp' & Hb' & Hinv' & Hm). simpl in *.
  unfold PrefixDB_inv, PrefixDB_model, prefixDBBatch_rep. rewrite Hm, Hp'. done.
Qed.

Lemma prefixDBBatch_closed_spec pb s (m : M (B * S) unit) :
  prefixDBBatch_rep pb None → PrefixDB_inv s → batch_method m →
  ∃ e, reply (on_batch m) (pb, s) (Err e)
    (λ bs, prefixDBBatch_rep bs.1 None ∧ PrefixDB_inv bs.2 ∧ PrefixDB_model bs.2 = PrefixDB_model s).
Proof.
  intros (Hp & Hb & Hws) [Hinv Hno] Hm. destruct (law_batch_closed _ s m Hb Hinv Hm) as [e He].
  exists e. eapply reply_mono; [by apply (reply_on_batch m)|].
  intros [pb' s'] (Hp' & Hb' & Hinv' & Hm'). simpl in *.
  unfold PrefixDB_inv, PrefixDB_model, prefixDBBatch_rep. rewrite Hm', Hp'. done.
Qed.

(** Every method of a closed batch fails. *)
Lemma prefixDBBatch_method_closed pb s (m : M (prefixDBBatch B * S) unit) :
  prefixDBBatch_rep pb None → PrefixDB_inv s → batch_method m →
  ∃ e, reply m (pb, s) (Err e)
    (λ bs, prefixDBBatch_rep bs.1 None ∧ PrefixDB_inv bs.2 ∧ PrefixDB_model bs.2 = PrefixDB_model s).
Proof.
  intros Hb H [key value|key| |]; simpl.
  - unfold prefixDBBatch_Set. destruct (len key =? 0); [exists errKeyEmpty; by apply reply_throw|].
    destruct value as [v|]; [|exists errValueNil; by apply reply_throw]. simpl.
    destruct (prefixDBBatch_closed_spec pb s (b_Set (prefixed (pb_prefix pb) key) (Some v)) Hb H
      (bm_Set _ _)) as [e He]. exists e.
    by eapply (reply_bind _ _ _ _ _ (eq (pb, s))); [eexists|intros ? <-].
  - unfold prefixDBBatch_Delete. destruct (len key =? 0); [exists errKeyEmpty; by apply reply_throw|].
    destruct (prefixDBBatch_closed_spec pb s (b_Delete (prefixed (pb_prefix pb) key)) Hb H
      (bm_Delete _)) as [e He]. exists e.
    by eapply (reply_bind _ _ _ _ _ (eq (pb, s))); [eexists|intros ? <-].
  - by apply prefixDBBatch_closed_spec; [| |constructor].
  - by apply prefixDBBatch_closed_spec; [| |constructor].
Qed.

Definition rev_contract (rev : slice → slice → M S (prefixDBIterator I))
    (rev_spec : ∀ s start end_, PrefixDB_inv s → bad_bounds start end_ = false →
      ∃ itr, reply (rev start end_) s (Ok itr) (λ s', db_inv s' ∧ db_model s' = db_model s) ∧
        prefixDBIterator_rep itr start end_ (scan (PrefixDB_model s) start end_ true))
    (rev_bad : ∀ s start end_, bad_bounds start end_ = true → rev start end_ s = (Err errKeyEmpty, s)) :
  DBContract (with_reverse (NewPrefixDB db fuel prefix) rev).
Proof using All.
  assert (Hsame : ∀ s s', PrefixDB_inv s → db_inv s' ∧ db_model s' = db_model s →
    PrefixDB_inv s' ∧ PrefixDB_model s' = PrefixDB_model s).
  { intros s s' [_ Hno] [Hinv Hm]. unfold PrefixDB_inv, PrefixDB_model. by rewrite Hm. }
  refine {| db_inv := PrefixDB_inv; db_model := PrefixDB_model; db_fits := PrefixDB_fits;
            batch_rep := prefixDBBatch_rep |}.
  - exact PrefixDB_Get_spec.
  - exact PrefixDB_Has_spec.
  - intros s key value H Hfit. apply PrefixDB_set_spec; [|done].
    apply law_Set; [apply H|by destruct value].
  - intros s key value H Hfit. apply PrefixDB_set_spec; [|done].
    apply law_SetSync; [apply H|by destruct value].
  - intros s key H Hfit. apply PrefixDB_delete_spec; [|done]. by apply law_Delete; [apply H|].
  - intros s key H Hfit. apply PrefixDB_delete_spec; [|done]. by apply law_DeleteSync; [apply H|].
  - intros s start end_ H Hb.
    destruct (PrefixDB_Iterator_spec s start end_ (proj1 H) Hb) as (it & Hit & Hrep).
    exists it. split; [|done]. eapply reply_mono; [exact Hit|]. eauto.
  - intros s start end_ H Hb.
    destruct (rev_spec s start end_ H Hb) as (it & Hit & Hrep).
    exists it. split; [|done]. eapply reply_mono; [exact Hit|]. eauto.
  - intros s start end_ H Hb. unfold db_Iterator. simpl. unfold PrefixDB_Iterator.
    fold (bad_bounds start end_). rewrite Hb. by apply reply_throw.
  - intros s start end_ H Hb. exists s. split; [by apply rev_bad|done].
  - intros s H. destruct (law_NewBatch s (proj1 H)) as (b & Hb & Hrep).
    exists (newPrefixBatch prefix b).
    split; [|split; [done|split; [exact Hrep|constructor]]].
    eapply reply_bind; [exact Hb|]. intros s' Hs'. apply reply_ret. eauto.
  - exact prefixDBBatch_Set_spec.
  - exact prefixDBBatch_Delete_spec.
  - intros pb ws s Hb H. apply prefixDBBatch_write_spec; [|done..].
    intros b ws' Hb'. apply law_batch_Write; [done|apply H].
  - intros pb ws s Hb H. apply prefixDBBatch_write_spec; [|done..].
    intros b ws' Hb'. apply law_batch_WriteSync; [done|apply H].
  - exact prefixDBBatch_method_closed.
  - exact prefixDBBatch_Close_spec.
  - intros s H. exact (law_Close (ops := db) s (proj1 H)).
Defined.

(** The PrefixDB itself, as long as no key beyond the namespace is in the way of
    a reverse scan. *)
Definition PrefixDB_contract (Hno : no_overshoot p m0) : DBContract (NewPrefixDB db fuel prefix).
Proof using All.
  apply (rev_contract (PrefixDB_ReverseIterator db prefix)).
  - intros s start end_ [Hinv Hns] Hb. apply PrefixDB_ReverseIterator_spec; [done| |done].
    left. by eapply ns_ok_no_overshoot.
  - intros s start end_ Hb. unfold PrefixDB_ReverseIterator. fold (bad_bounds start end_). by rewrite Hb.
Defined.

(** The PrefixDB whose reverse iterators start at the end of the namespace, which
    is what [ReverseIterator] means to do, meets it over every database. *)
Definition exact_ReverseIterator (start end_ : slice) : M S (prefixDBIterator I) :=
  if bad_bounds start end_ then throw errKeyEmpty
  else
    ritr ← db_ReverseIterator db (append (cp prefix) start) (exact_end p end_);
    lift_result (newPrefixIterator prefix start end_ ritr).

Lemma exact_bounds start end_ : bad_bounds (append (cp prefix) start) (exact_end p end_) = false.
Proof.
  destruct end_ as [e|]; [exact (prefix_bounds start (Some e))|].
  pose proof (prefix_bounds start None) as H. unfold bad_bounds in *. apply orb_false_iff in H as [-> _].
  simpl. destruct (prefix_limit p) as [q|] eqn:E; [|done]. apply prefix_limit_ne in E. by destruct q.
Qed.

Lemma exact_ReverseIterator_spec s start end_ :
  PrefixDB_inv s → bad_bounds start end_ = false →
  ∃ itr, reply (exact_ReverseIterator start end_) s (Ok itr) (λ s', db_inv s' ∧ db_model s' = db_model s) ∧
    prefixDBIterator_rep itr start end_ (scan (PrefixDB_model s) start end_ true).
Proof.
  intros [Hinv _] Hb. unfold exact_ReverseIterator. rewrite Hb.
  destruct (law_ReverseIterator s _ _ Hinv (exact_bounds start end_)) as (src & Hsrc & Hrep).
  change (append (cp prefix) start) with (Some (p ++ data start)) in *.
  pose proof (exact_end_runs p (db_model s) start end_ true) as Hruns.
  rewrite <-(app_nil_r (scan _ _ _ _)) in Hrep.
  destruct (newPrefixIterator_spec prefix start end_ src _ _ _ [] Hrep Hruns) as (itr & Hnew & Hitr).
  exists itr. split.
  - eapply reply_bind; [exact Hsrc|]. intros s' Hs'. exists s'. by rewrite Hnew.
  - unfold PrefixDB_model. by rewrite exact_end_scan.
Qed.

Definition exact_PrefixDB : DBOps S (prefixDBIterator I) (prefixDBBatch B) :=
  with_reverse (NewPrefixDB db fuel prefix) exact_ReverseIterator.

Definition exact_contract : DBContract exact_PrefixDB.
Proof using All.
  apply (rev_contract exact_ReverseIterator); [exact exact_ReverseIterator_spec|].
  intros s start end_ Hb. unfold exact_ReverseIterator. by rewrite Hb.
Defined.

(** With an end the two are the same. *)
Lemma exact_same start e : exact_ReverseIterator start (Some e) = PrefixDB_ReverseIterator db prefix start (Some e).
Proof. done. Qed.

End prefixdb_correct.
