(* ===== verification/PrefixDBThms.v ===== *)
(** * What a PrefixDB shows its clients

    Theorems about every database that meets the contract, wrapped in one or
    more PrefixDBs, and about [IteratePrefix]; their instances on MemDB. *)

From S2P Require Import Prelude Go Util Spec Types.
From S2P Require Import Client BTree MemDB MemDBCorrect PrefixDB PrefixDBCorrect.

(** A namespace is no larger than the database. *)
Lemma prefix_view_size p m : size (prefix_view p m) ≤ size m.
Proof.
  unfold prefix_view. rewrite <-(length_map_to_list (list_to_map _)), map_to_list_to_map
    by apply key_lt_NoDup_keys, strip_list_sorted, entries_sorted.
  rewrite <-(length_map_to_list m).
  assert (length (entries m) = length (map_to_list m)) as <-.
  { unfold entries. by rewrite merge_sort_Permutation. }
  generalize (entries m). intros l. induction l as [|x l IH]; [done|].
  unfold strip_list, omap in *. simpl. destruct (strip p x); simpl; lia.
Qed.

Section lemmas.
Context {S I B : Type} `{!IteratorOps I, !BatchOps S B} (db : DBOps S I B) `{!DBContract db}.

(** Keys outside the namespace, other namespaces among them, do not change. *)
Lemma ns_ok_other p q m0 m :
  ns_ok p m0 m → ¬ p `prefix_of` q → ¬ q `prefix_of` p → prefix_view q m = prefix_view q m0.
Proof.
  intros Hout Hpq Hqp. apply map_eq. intros k. rewrite !lookup_prefix_view.
  case_decide; [done|]. apply Hout. intros [Hp _].
  destruct (prefix_weak_total p q (q ++ k)) as [?|?]; [done|by apply prefix_app_r|done|done].
Qed.

Lemma prefix_view_nested p q m : q ≠ [] → prefix_view q (prefix_view p m) = prefix_view (p ++ q) m.
Proof.
  intros Hq. apply map_eq. intros k. rewrite !lookup_prefix_view, <-(assoc_L (++)).
  repeat case_decide; try done. destruct q; simplify_eq/=.
Qed.

Lemma incr_ref_app p q r : incr_ref q = Some r → incr_ref (p ++ q) = Some (p ++ r).
Proof. intros H. induction p as [|x p IH]; simpl; [done|]. by rewrite IH. Qed.

Lemma incr_ref_app_ff p q :
  incr_ref q = None → incr_ref (p ++ q) = (λ r, r ++ replicate (length q) x00) <$> incr_ref p.
Proof.
  intros H. induction p as [|x p IH]; simpl; [done|]. rewrite IH. destruct (incr_ref p); simpl; [done|].
  case_match; simpl; [|done]. by rewrite length_app, replicate_add.
Qed.

(** Below a prefix, [cpIncr] lets the same keys through as below the whole one,
    unless the inner prefix is all [0xFF]. *)
Lemma overshoot_app p q r k :
  incr_ref q = Some r → overshoot (p ++ q) k ↔ ∃ k', k = p ++ k' ∧ overshoot q k'.
Proof.
  intros Hr. unfold overshoot. rewrite (incr_ref_app p q r Hr), Hr. split.
  - intros [n [= Hn]]. apply app_eq_inv in Hn as [(l & -> & Hl)|(l & -> & Hl)]; [|naive_solver].
    exfalso. apply (incr_ref_not_zeros q (length r)). rewrite Hr. f_equal. symmetry. apply replicate_as_elem_of. split; [done|].
    intros x Hx. assert (x ∈ replicate (Datatypes.S n) x00) as ?%elem_of_replicate; [|tauto].
    simpl. rewrite Hl. apply elem_of_app. by right.
  - intros (k' & -> & n & [= ->]). exists n. by rewrite (assoc_L (++)).
Qed.

Lemma no_overshoot_ff p q m : incr_ref q = None → no_overshoot (p ++ q) m → no_overshoot p m.
Proof.
  intros Hq Hno k [n Hn]. apply Hno. exists (n + length q). rewrite (incr_ref_app_ff p q Hq), Hn.
  rewrite <-Nat.add_succ_l, replicate_add, (assoc_L (++)). done.
Qed.

(** Whether a key beyond the namespace is in the database. *)
#[local] Instance overshoot_dec p k : Decision (overshoot p k).
Proof.
  refine (cast_if (decide (length k < length p ∧ incr_ref p = Some (k ++ replicate (length p - length k) x00)))).
  - destruct a as [Hlt H]. exists (length p - length k - 1). rewrite H. do 3 f_equal. lia.
  - intros [m H]. apply n. pose proof (incr_ref_length _ _ H) as Hl.
    rewrite length_app, length_replicate in Hl. split; [lia|]. rewrite H. do 3 f_equal. lia.
Defined.

Definition overshoots (p : bytes) (m : store) : bool :=
  bool_decide (Exists (λ kv, overshoot p kv.1) (entries m)).

Lemma overshoots_spec p m : overshoots p m = true ↔ ∃ k v, overshoot p k ∧ m !! k = Some v.
Proof.
  unfold overshoots. rewrite bool_decide_eq_true, Exists_exists. split.
  - intros ([k v] & Hin & Hov). exists k, v. split; [done|]. by apply elem_of_entries.
  - intros (k & v & Hov & Hk). exists (k, v). split; [|done]. by apply elem_of_entries.
Qed.

Lemma overshoots_false p m : overshoots p m = false ↔ no_overshoot p m.
Proof.
  rewrite <-not_true_iff_false, overshoots_spec. split.
  - intros H k Hov. apply eq_None_not_Some. intros [v Hv]. eauto.
  - intros H (k & v & Hov & Hk). rewrite H in Hk; done.
Qed.

(** Writes in the namespace do not change that. *)
Lemma overshoots_ns_ok p m0 m : ns_ok p m0 m → overshoots p m = overshoots p m0.
Proof.
  intros Hns. apply eq_true_iff_eq. rewrite !overshoots_spec.
  split; intros (k & v & Hov & Hk); exists k, v; (split; [done|]); by rewrite <-Hk, (ns_ok_overshoot p m0 m).
Qed.

Lemma overshoots_nested p q r m :
  incr_ref q = Some r → overshoots q (prefix_view p m) = overshoots (p ++ q) m.
Proof.
  intros Hr. apply eq_true_iff_eq. rewrite !overshoots_spec. split.
  - intros (k & v & Hov & Hk). rewrite lookup_prefix_view in Hk. case_decide; [done|].
    exists (p ++ k), v. split; [|done]. apply (overshoot_app p q r); eauto.
  - intros (? & v & (k & -> & Hov)%(overshoot_app p q r) & Hk); [|done]. exists k, v. split; [done|].
    rewrite lookup_prefix_view, decide_False; [done|]. intros ->. destruct Hov as [n Hn].
    by apply incr_ref_not_zeros in Hn.
Qed.

(** A reverse scan meets the keys beyond the namespace first. *)
Lemma reverse_scan_overshoot p m start k v :
  overshoot p k → m !! k = Some v →
  ∃ x L, scan m (Some (p ++ data start)) (incr_ref p) true = x :: L ∧ overshoot p x.1.
Proof.
  intros Hov Hk.
  assert (∀ y, y ∈ scan m (Some (p ++ data start)) (incr_ref p) true →
    p `prefix_of` y.1 ∨ overshoot p y.1) as Hall.
  { intros [ky vy] [_ Hy]%elem_of_scan. simpl.
    destruct (range_prefix p start None ky Hy) as [?|[_ ?]]; auto. }
  assert ((k, v) ∈ scan m (Some (p ++ data start)) (incr_ref p) true) as Hin.
  { apply elem_of_scan. split; [done|]. split.
    - simpl. apply blt_ble, (overshoot_after p); [done|by apply prefix_app_r].
    - by apply (in_range_incr_ref p k); right. }
  assert (StronglySorted (flip key_lt) (scan m (Some (p ++ data start)) (incr_ref p) true)) as Hs
    by apply StronglySorted_reverse, scan_sorted.
  destruct (scan m (Some (p ++ data start)) (incr_ref p) true) as [|x L];
    [by apply not_elem_of_nil in Hin|].
  exists x, L. split; [done|]. apply StronglySorted_inv in Hs as [_ Hs].
  apply elem_of_cons in Hin as [<-|Hin]; [done|].
  destruct (Hall x (list_elem_of_here _ _)) as [Hp|?]; [|done]. exfalso.
  rewrite list.Forall_forall in Hs. specialize (Hs _ Hin). unfold flip, key_lt in Hs. simpl in Hs.
  exact (irreflexivity blt k (transitivity Hs (overshoot_after p k x.1 Hov Hp))).
Qed.

Lemma prime_outside `{!IteratorContract I} prefix (src : I) ps pe x L :
  it_rep src ps pe (x :: L) → ¬ data prefix `prefix_of` x.1 →
  reply (newPrefixIterator_prime prefix) src (Ok false) (λ src', it_rep src' ps pe (x :: L)).
Proof.
  destruct x as [k v]. simpl. intros Hrep Hx. unfold newPrefixIterator_prime.
  eapply (reply_bind _ _ _ _ _ (λ src', it_rep src' ps pe ((k, v) :: L))).
  { eapply reply_bind; [by eapply law_Valid|]. intros s1 H1. rewrite bool_decide_eq_true_2 by done.
    eapply reply_bind; [by eapply law_Key, H1|]. intros s2 H2. by apply reply_ret. }
  intros s1 H1. assert (bytes_Equal (Some k) prefix = false) as ->.
  { unfold bytes_Equal. apply bool_decide_eq_false_2. simpl. intros ->. by apply Hx. }
  eapply (reply_bind _ _ _ _ _ (λ src', it_rep src' ps pe ((k, v) :: L))); [by apply reply_ret|].
  intros s2 H2.
  eapply reply_bind; [by eapply law_Valid|]. intros s3 H3. rewrite bool_decide_eq_true_2 by done.
  eapply reply_bind; [by eapply law_Key, H3|]. intros s4 H4.
  assert (bytes_HasPrefix (Some k) prefix = false) as ->; [|by apply reply_ret].
  apply not_true_is_false. by rewrite bytes_HasPrefix_spec.
Qed.

(** A source whose first key is outside the namespace makes an empty iterator. *)
Lemma PrefixDB_reverse_outside prefix (s : S) start (p := data prefix) :
  p ≠ [] → db_inv s → bad_bounds start None = false →
  (∃ x L, scan (db_model s) (Some (p ++ data start)) (incr_ref p) true = x :: L ∧
     ¬ p `prefix_of` x.1) →
  ∃ itr, reply (PrefixDB_ReverseIterator db prefix start None) s (Ok itr)
      (λ s', db_inv s' ∧ db_model s' = db_model s) ∧
    prefixDBIterator_rep itr start None [].
Proof.
  intros Hp Hinv Hb (x & L & Hscan & Hx).
  destruct (law_ReverseIterator s _ _ Hinv (prefix_bounds prefix Hp start None))
    as (src & Hsrc & Hrep).
  change (append (cp prefix) start) with (Some (p ++ data start)) in *.
  change (range_end (data prefix) None) with (incr_ref p) in *. rewrite Hscan in Hrep.
  destruct (prime_outside prefix src _ _ x L Hrep Hx) as (src' & Hprime & Hrep').
  exists {| pit_prefix := prefix; pit_start := start; pit_end := None; pit_source := src';
            pit_valid := false; pit_err := None |}. split.
  - unfold PrefixDB_ReverseIterator. fold (bad_bounds start None). rewrite Hb.
    eapply (reply_bind _ _ _ _ _ (eq s)); [rewrite (prefix_end_spec prefix Hp); by eexists|]. intros ? <-.
    eapply reply_bind; [exact Hsrc|]. intros s' Hs'. exists s'. unfold newPrefixIterator.
    by rewrite Hprime.
  - unfold prefixDBIterator_rep. simpl. eauto 10.
Qed.

(** Then the reverse scan without an end delivers nothing. *)
Lemma reverse_scan_blind prefix fuel fuel' start (s : S) (p := data prefix) :
  p ≠ [] → db_inv s → bad_bounds start None = false → overshoots p (db_model s) = true → 0 < fuel' →
  reply (run_scan (NewPrefixDB db fuel prefix) fuel' start None true) s (Ok [])
    (λ s', db_inv s' ∧ db_model s' = db_model s).
Proof.
  intros Hp Hinv Hb (k & v & Hov & Hk)%overshoots_spec Hfuel. unfold run_scan.
  destruct (PrefixDB_reverse_outside prefix s start Hp Hinv Hb) as (itr & Hitr & Hrep).
  { destruct (reverse_scan_overshoot p (db_model s) start k v Hov Hk) as (x & L & Hscan & Hx).
    exists x, L. split; [done|]. by apply overshoot_not_prefix. }
  eapply reply_bind; [exact Hitr|]. intros s' Hs'. exists s'. split; [|done].
  destruct (collect_spec (IteratorContract0 := prefixDBIterator_contract) itr start None [] fuel' Hrep)
    as (it' & Hc & _); [simpl; lia|].
  unfold deferred. by rewrite Hc.
Qed.

(** What a PrefixDB answers where a database of its own would answer [a]: a
    reverse scan without an end delivers nothing as soon as a key beyond the
    namespace is in the database. *)
Definition prefix_answer (blind : bool) (c : call) (a : answer) : answer :=
  match c with
  | CScan start None true => if blind && negb (bad_bounds start None) then AScan (Ok []) else a
  | _ => a
  end.

Lemma prefix_answer_sees c a : prefix_answer false c a = a.
Proof. by destruct c as [| | | | | |? [] []|]. Qed.

Lemma prefix_answers_see cs m : zip_with (prefix_answer false) cs (spec_calls cs m).1 = (spec_calls cs m).1.
Proof.
  revert m. induction cs as [|c cs IH]; intros m; simpl; [done|]. destruct (spec_call c m) as [a m1].
  specialize (IH m1). destruct (spec_calls cs m1). simpl in *. by rewrite prefix_answer_sees, IH.
Qed.

Lemma prefixdb_run_call prefix fuel c m0 (s : S) (p := data prefix) (v := prefix_view p (db_model s)) :
  p ≠ [] → PrefixDB_inv db prefix m0 s → call_fits (PrefixDB_fits db prefix) c → size v < fuel →
  ∃ s', run_call (NewPrefixDB db fuel prefix) fuel c s =
      (prefix_answer (overshoots p m0) c (spec_call c v).1, s') ∧
    PrefixDB_inv db prefix m0 s' ∧ prefix_view p (db_model s') = (spec_call c v).2.
Proof.
  intros Hp Hs Hfit Hfuel. pose proof (overshoots_ns_ok p m0 _ (proj2 Hs)) as Hov.
  destruct (overshoots p m0) eqn:Hblind.
  2:{ rewrite prefix_answer_sees. apply overshoots_false in Hblind.
      exact (run_call_spec (NewPrefixDB db fuel prefix)
        (DBContract0 := PrefixDB_contract db prefix fuel Hp m0 Hblind) fuel c s Hs Hfit Hfuel). }
  destruct (run_call_spec (exact_PrefixDB db prefix fuel)
    (DBContract0 := exact_contract db prefix fuel Hp m0) fuel c s Hs Hfit Hfuel) as (s' & Hrun & Hs' & Hm).
  destruct c as [| | | | | |start [e|] [|]|]; try by exists s'. simpl.
  destruct (bad_bounds start None) eqn:Hb; simpl.
  - exists s. split; [|done]. unfold spec_scan. rewrite Hb. unfold run_scan. simpl.
    unfold PrefixDB_ReverseIterator. fold (bad_bounds start None). by rewrite Hb.
  - destruct (reverse_scan_blind prefix fuel fuel start s Hp (proj1 Hs) Hb Hov) as (s2 & -> & Hinv2 & Hm2); [lia|].
    exists s2. split; [done|]. split; [split; [done|]|by rewrite Hm2].
    rewrite Hm2. apply Hs.
Qed.

Lemma prefixdb_run_from prefix fuel cs m0 (s : S) (p := data prefix) (v := prefix_view p (db_model s)) :
  p ≠ [] → PrefixDB_inv db prefix m0 s → Forall (call_fits (PrefixDB_fits db prefix)) cs →
  size v + weight cs < fuel →
  ∃ s', run_calls (NewPrefixDB db fuel prefix) fuel cs s =
      (zip_with (prefix_answer (overshoots p m0)) cs (spec_calls cs v).1, s') ∧
    PrefixDB_inv db prefix m0 s' ∧ prefix_view p (db_model s') = (spec_calls cs v).2.
Proof.
  intros Hp. subst v p. revert s. induction cs as [|c cs IH]; intros s Hs Hfit Hfuel; [by exists s|].
  apply Forall_cons in Hfit as [Hc Hfit]. unfold weight in *. simpl in *.
  destruct (prefixdb_run_call prefix fuel c m0 s Hp Hs Hc) as (s1 & -> & Hs1 & Hm1); [lia|].
  pose proof (spec_call_size c (prefix_view (data prefix) (db_model s))) as Hsize.
  destruct (spec_call c (prefix_view (data prefix) (db_model s))) as [a m1]. simpl in *. subst m1.
  destruct (IH s1 Hs1 Hfit) as (s2 & -> & Hs2 & Hm2); [lia|].
  destruct (spec_calls cs (prefix_view (data prefix) (db_model s1))) as [l m2]. simpl in *. by exists s2.
Qed.

Lemma prefixdb_run prefix fuel cs (s : S) (p := data prefix) (v := prefix_view p (db_model s)) :
  p ≠ [] → db_inv s → Forall (call_fits (PrefixDB_fits db prefix)) cs → size v + weight cs < fuel →
  ∃ s', run_calls (NewPrefixDB db fuel prefix) fuel cs s =
      (zip_with (prefix_answer (overshoots p (db_model s))) cs (spec_calls cs v).1, s') ∧
    db_inv s' ∧ prefix_view p (db_model s') = (spec_calls cs v).2 ∧ ns_ok p (db_model s) (db_model s').
Proof.
  intros Hp Hinv Hfit Hfuel.
  destruct (prefixdb_run_from prefix fuel cs (db_model s) s Hp) as (s' & ? & [? ?] & ?); [by split|done|done|].
  exists s'. by split_and!.
Qed.

End lemmas.

(** A PrefixDB whose prefix has a successor never asks the database below for a
    reverse iterator without an end. *)
Lemma nested_exact {S I B : Type} `{!IteratorOps I, !BatchOps S B} (db : DBOps S I B)
    prefix1 prefix2 fuel cs (s : S) r :
  data prefix2 ≠ [] → incr_ref (data prefix2) = Some r →
  run_calls (NewPrefixDB (NewPrefixDB db fuel prefix1) fuel prefix2) fuel cs s =
  run_calls (NewPrefixDB (exact_PrefixDB db prefix1 fuel) fuel prefix2) fuel cs s.
Proof.
  intros Hq Hr. revert s. induction cs as [|c cs IH]; intros s; [done|]. simpl.
  assert (run_call (NewPrefixDB (NewPrefixDB db fuel prefix1) fuel prefix2) fuel c s =
    run_call (NewPrefixDB (exact_PrefixDB db prefix1 fuel) fuel prefix2) fuel c s) as ->.
  { destruct c as [| | | | | |start [e|] []|]; try done.
    assert (PrefixDB_ReverseIterator (NewPrefixDB db fuel prefix1) prefix2 start None =
      PrefixDB_ReverseIterator (exact_PrefixDB db prefix1 fuel) prefix2 start None) as Heq.
    { unfold PrefixDB_ReverseIterator, prefix_end. by rewrite cpIncr_ref, Hr. }
    simpl. unfold run_scan. simpl. by rewrite Heq. }
  destruct (run_call _ fuel c s) as [a s1]. by rewrite IH.
Qed.

(** ** PrefixDBs side by side *)

Section side_by_side.
Context {S I B : Type} `{!IteratorOps I, !BatchOps S B} (db : DBOps S I B) `{!DBContract db}.
Context {J : Type} `{!EqDecision J} (prefix : J → slice).

(** Calls on several PrefixDBs over one database, in any order. *)
Fixpoint run_side_by_side (fuel : nat) (l : list (J * call)) (s : S) : list (J * answer) * S :=
  match l with
  | [] => ([], s)
  | (j, c) :: l =>
      let '(a, s) := run_call (NewPrefixDB db fuel (prefix j)) fuel c s in
      let '(rest, s) := run_side_by_side fuel l s in ((j, a) :: rest, s)
  end.

(** What belongs to one of them. *)
Definition of_one {A : Type} (j : J) (l : list (J * A)) : list A := (filter (λ x, x.1 = j) l).*2.

Lemma of_one_cons {A : Type} j i (a : A) l : of_one j ((i, a) :: l) = if decide (i = j) then a :: of_one j l else of_one j l.
Proof. unfold of_one. rewrite filter_cons. simpl. by case_decide. Qed.

Lemma side_by_side_run fuel l (s : S) :
  (∀ j, data (prefix j) ≠ []) → (∀ i j, i ≠ j → ¬ data (prefix i) `prefix_of` data (prefix j)) →
  db_inv s → Forall (λ x, call_fits (PrefixDB_fits db (prefix x.1)) x.2) l →
  (∀ j, size (prefix_view (data (prefix j)) (db_model s)) + weight (of_one j l) < fuel) →
  ∃ answers s', run_side_by_side fuel l s = (answers, s') ∧ db_inv s' ∧
    ∀ j, let v := prefix_view (data (prefix j)) (db_model s) in
      prefix_view (data (prefix j)) (db_model s') = (spec_calls (of_one j l) v).2 ∧
      (exact_prefix (data (prefix j)) = true → of_one j answers = (spec_calls (of_one j l) v).1).
Proof.
  intros Hne Hinc. revert s. induction l as [|[i c] l IH]; intros s Hinv Hfit Hfuel.
  { exists [], s. by split_and!. }
  apply Forall_cons in Hfit as [Hc Hfit]. simpl in *.
  assert (size (prefix_view (data (prefix i)) (db_model s)) < fuel) as Hf by (specialize (Hfuel i); lia).
  destruct (prefixdb_run_call db (prefix i) fuel c (db_model s) s (Hne i)) as (s1 & -> & [Hinv1 Hns] & Hm1);
    [by split|done|done|].
  assert (∀ j, i ≠ j → prefix_view (data (prefix j)) (db_model s1) = prefix_view (data (prefix j)) (db_model s)) as Hother.
  { intros j Hij. apply (ns_ok_other (data (prefix i))); auto. }
  pose proof (spec_call_size c (prefix_view (data (prefix i)) (db_model s))) as Hsize. rewrite <-Hm1 in Hsize.
  destruct (IH s1 Hinv1 Hfit) as (answers & s' & -> & Hinv' & Hall).
  { intros j. specialize (Hfuel j). rewrite of_one_cons in Hfuel. case_decide as Hij.
    - subst j. unfold weight in *. simpl in *. lia.
    - by rewrite Hother. }
  eexists _, s'. split; [done|]. split; [done|]. intros j. specialize (Hall j) as [Hv Ha].
  rewrite !of_one_cons. case_decide as Hij; [|by rewrite Hother in Hv, Ha by done]. subst j.
  simpl. rewrite Hm1 in Hv, Ha. destruct (spec_call c _) as [a m1]. simpl in *.
  destruct (spec_calls (of_one i l) m1) as [al m2]. simpl in *. split; [done|]. intros Hex.
  rewrite (Ha Hex). f_equal. rewrite (proj2 (overshoots_false _ _)) by by apply exact_no_overshoot.
  apply prefix_answer_sees.
Qed.

End side_by_side.

(** ** Theorems *)

Section theorems.
Context {S I B : Type} `{!IteratorOps I, !BatchOps S B} (db : DBOps S I B) `{!DBContract db}.

(** C2: a PrefixDB with a non-empty prefix is a database of its own.  Over any
    database that meets the contract, whatever else that holds, every program of a
    client (reads, writes, batches, forward and reverse scans; within the limits the
    database has for the prefixed keys) gets the answers of an abstract store that
    starts with the namespace's entries, with one exception: a reverse scan without an end
    delivers nothing when the database holds a key that [cpIncr] fails to exclude.
    Without such a key there is no exception.  In either case the namespace ends as the abstract
    store does, and every key outside it is as it was. *)
Theorem prefixdb_refines prefix fuel cs (s : S) (p := data prefix) (v := prefix_view p (db_model s)) :
  p ≠ [] → db_inv s → Forall (call_fits (PrefixDB_fits db prefix)) cs → size v + weight cs < fuel →
  ∃ answers s', run_calls (NewPrefixDB db fuel prefix) fuel cs s = (answers, s') ∧
    answers = zip_with (prefix_answer (overshoots p (db_model s))) cs (spec_calls cs v).1 ∧
    (no_overshoot p (db_model s) → answers = (spec_calls cs v).1) ∧
    db_inv s' ∧ prefix_view p (db_model s') = (spec_calls cs v).2 ∧
    ∀ k, ¬ (p `prefix_of` k ∧ k ≠ p) → db_model s' !! k = db_model s !! k.
Proof.
  intros Hp Hinv Hfit Hfuel.
  destruct (prefixdb_run db prefix fuel cs s Hp Hinv Hfit Hfuel) as (s' & ? & ? & ? & ?).
  eexists _, s'. split_and!; try done. intros Hno%overshoots_false.
  fold p. rewrite Hno. apply prefix_answers_see.
Qed.

(** C19: PrefixDBs over one database whose prefixes are not empty and none of
    which is a prefix of another are isolated.  Any number of clients may call them in any
    order, within the limits the database has for the prefixed keys: each namespace
    ends as if its own calls had been made alone on it, and where the prefix does not
    end in [0xFF], or is all [0xFF], its client also gets the answers it would get
    alone. *)
Theorem prefixdb_isolated {J : Type} `{!EqDecision J} (prefix : J → slice) fuel l (s : S) :
  (∀ j, data (prefix j) ≠ []) → (∀ i j, i ≠ j → ¬ data (prefix i) `prefix_of` data (prefix j)) →
  db_inv s → Forall (λ x, call_fits (PrefixDB_fits db (prefix x.1)) x.2) l →
  (∀ j, size (prefix_view (data (prefix j)) (db_model s)) + weight (of_one j l) < fuel) →
  ∃ answers s', run_side_by_side db prefix fuel l s = (answers, s') ∧ db_inv s' ∧
    ∀ j, let v := prefix_view (data (prefix j)) (db_model s) in
      prefix_view (data (prefix j)) (db_model s') = (spec_calls (of_one j l) v).2 ∧
      (exact_prefix (data (prefix j)) = true → of_one j answers = (spec_calls (of_one j l) v).1).
Proof. intros. by apply side_by_side_run. Qed.

(** C20: a PrefixDB over a PrefixDB gives every program (within the limits the
    database has for the prefixed keys) the same answers as one PrefixDB of the
    concatenated prefix, for non-empty prefixes of which the inner one is not all
    [0xFF], whatever else the database holds; and when it is all [0xFF], if no key
    that [cpIncr] fails to exclude is in the database. *)
Theorem prefixdb_nested prefix1 prefix2 fuel cs (s : S) (p := data prefix1) (q := data prefix2) :
  p ≠ [] → q ≠ [] → db_inv s →
  ¬ Forall (λ b, b = xff) q ∨ no_overshoot (p ++ q) (db_model s) →
  Forall (call_fits (PrefixDB_fits db (append prefix1 prefix2))) cs →
  size (prefix_view (p ++ q) (db_model s)) + weight cs < fuel →
  (run_calls (NewPrefixDB (NewPrefixDB db fuel prefix1) fuel prefix2) fuel cs s).1 =
  (run_calls (NewPrefixDB db fuel (append prefix1 prefix2)) fuel cs s).1.
Proof.
  intros Hp Hq Hinv Hcase Hfit Hfuel.
  destruct (prefixdb_run db (append prefix1 prefix2) fuel cs s) as (s1 & -> & _); try done.
  { simpl. by destruct (data prefix1). }
  assert (Forall (call_fits (PrefixDB_fits (DBContract0 := exact_contract db prefix1 fuel Hp (db_model s))
    (exact_PrefixDB db prefix1 fuel) prefix2)) cs) as Hfit2.
  { apply (calls_fit_mono (PrefixDB_fits db (append prefix1 prefix2))); [| |by intros n Hn|exact Hfit];
      unfold PrefixDB_fits; simpl; fold p q.
    - intros [k v|k]; simpl; by rewrite <-(assoc_L (++)).
    - intros k. by rewrite <-(assoc_L (++)). }
  change (data (append prefix1 prefix2)) with (p ++ q). rewrite <-(prefix_view_nested p q) in * by done.
  destruct (incr_ref q) as [r|] eqn:Hr.
  - rewrite (nested_exact db prefix1 prefix2 fuel cs s r Hq Hr), <-(overshoots_nested p q r) by done.
    by destruct (prefixdb_run (exact_PrefixDB db prefix1 fuel)
      (DBContract0 := exact_contract db prefix1 fuel Hp (db_model s)) prefix2 fuel cs s Hq
      (conj Hinv (ns_ok_refl _ _)) Hfit2 Hfuel) as (s2 & -> & _).
  - destruct Hcase as [Hff|Hno]; [by apply incr_ref_None in Hr|].
    destruct (prefixdb_run (NewPrefixDB db fuel prefix1)
      (DBContract0 := PrefixDB_contract db prefix1 fuel Hp (db_model s) (no_overshoot_ff p q _ Hr Hno))
      prefix2 fuel cs s Hq (conj Hinv (ns_ok_refl _ _)) Hfit2 Hfuel) as (s2 & -> & _).
    rewrite (proj2 (overshoots_false (p ++ q) (db_model s)) Hno). simpl. f_equal. f_equal.
    apply overshoots_false, exact_no_overshoot. unfold exact_prefix. apply orb_true_iff. right.
    by apply bool_decide_eq_true, incr_ref_None.
Qed.

(** C21: a forward scan of a PrefixDB delivers the namespace in ascending order
    whatever the prefix and whatever else the database holds. *)
Theorem prefixdb_forward prefix fuel start end_ (s : S) (p := data prefix) :
  p ≠ [] → db_inv s → bad_bounds start end_ = false → size (prefix_view p (db_model s)) < fuel →
  reply (run_scan (NewPrefixDB db fuel prefix) fuel start end_ false) s
    (Ok (as_slices (scan (prefix_view p (db_model s)) start end_ false)))
    (λ s', db_inv s' ∧ db_model s' = db_model s).
Proof.
  intros Hp Hinv Hb Hfuel. unfold run_scan.
  destruct (PrefixDB_Iterator_spec db prefix Hp s start end_ Hinv Hb) as (itr & Hitr & Hrep).
  eapply reply_bind; [exact Hitr|]. intros s' Hs'. exists s'. split; [|done].
  pose proof (length_scan (prefix_view p (db_model s)) start end_ false).
  destruct (collect_spec (IteratorContract0 := prefixDBIterator_contract) itr start end_ _ fuel Hrep)
    as (it' & Hc & _); [unfold PrefixDB_model; fold p; lia|].
  unfold deferred. by rewrite Hc.
Qed.

(** C22: the reverse scan of a PrefixDB without an end misses the whole namespace
    as soon as the database holds a key that [cpIncr] fails to exclude (below): it
    delivers nothing and reports no error. *)
Theorem prefixdb_reverse_blind prefix fuel start (s : S) k v (p := data prefix) :
  p ≠ [] → db_inv s → bad_bounds start None = false →
  overshoot p k → db_model s !! k = Some v →
  reply (run_scan (NewPrefixDB db fuel prefix) (1 + fuel) start None true) s (Ok [])
    (λ s', db_inv s' ∧ db_model s' = db_model s).
Proof.
  intros Hp Hinv Hb Hov Hk. apply reverse_scan_blind; [done..| |lia]. apply overshoots_spec. eauto.
Qed.

(** C23: [IteratePrefix] with a non-empty prefix delivers, in ascending order, the
    entries whose key extends the prefix and those whose key is the big-endian
    successor of the prefix without some of its trailing zero bytes; there are none
    of the latter unless the prefix ends in [0xFF] and is not all [0xFF].  With an
    empty prefix it delivers everything. *)
Theorem IteratePrefix_delivers prefix (s : S) (p := data prefix) :
  db_inv s →
  ∃ it st en l, reply (IteratePrefix db prefix) s (Ok it)
      (λ s', db_inv s' ∧ db_model s' = db_model s) ∧
    it_rep it st en l ∧ StronglySorted key_lt l ∧
    (∀ k v, (k, v) ∈ l ↔ db_model s !! k = Some v ∧ (p `prefix_of` k ∨ overshoot p k)) ∧
    (exact_prefix p = true → ∀ k v, (k, v) ∈ l ↔ db_model s !! k = Some v ∧ p `prefix_of` k).
Proof.
  intros Hinv.
  assert (∃ it st en, reply (IteratePrefix db prefix) s (Ok it)
      (λ s', db_inv s' ∧ db_model s' = db_model s) ∧
    it_rep it st en (scan (db_model s) st en false) ∧
    ∀ k, in_domain st en k ↔ p `prefix_of` k ∨ overshoot p k) as (it & st & en & Hit & Hrep & Hdom).
  { unfold IteratePrefix. destruct (len prefix =? 0) eqn:Hlen.
    - destruct (law_Iterator s None None Hinv eq_refl) as (it & Hit & Hrep).
      exists it, None, None. split_and!; [done|done|]. intros k.
      assert (p = []) as -> by by apply Nat.eqb_eq, nil_length_inv in Hlen.
      split; [left; apply prefix_nil|]. intros _. split; [apply ble_nil|done].
    - apply len_ne in Hlen. destruct (law_Iterator s (cp prefix) (incr_ref p) Hinv) as (it & Hit & Hrep).
      { pose proof (prefix_bounds prefix Hlen None None) as Hb. simpl in Hb.
        unfold append in Hb. simpl in Hb. by rewrite app_nil_r in Hb. }
      exists it, (cp prefix), (incr_ref p). split_and!; [|done|intros k; apply in_range_incr_ref].
      eapply (reply_bind _ _ _ _ _ (eq s)); [rewrite cpIncr_ref by done; by eexists|].
      by intros ? <-. }
  exists it, st, en, (scan (db_model s) st en false).
  assert (∀ k v, (k, v) ∈ scan (db_model s) st en false ↔
    db_model s !! k = Some v ∧ (p `prefix_of` k ∨ overshoot p k)) as Hel.
  { intros k v. by rewrite elem_of_scan, Hdom. }
  split_and!; [done|done|apply scan_sorted|done|]. intros Hex k v. rewrite Hel.
  pose proof (exact_prefix_no_overshoot p k Hex). tauto.
Qed.

(** The empty prefix is not a namespace: an iterator without an end panics in
    [cpIncr], as does a reverse iterator. *)
Theorem prefixdb_empty_prefix prefix start (s : S) :
  data prefix = [] → bad_bounds start None = false →
  PrefixDB_Iterator db prefix start None s = (Panic "cpIncr expects non-zero bz length", s) ∧
  PrefixDB_ReverseIterator db prefix start None s = (Panic "cpIncr expects non-zero bz length", s).
Proof.
  intros Hp Hb. unfold PrefixDB_Iterator, PrefixDB_ReverseIterator. fold (bad_bounds start None).
  rewrite Hb. simpl. unfold cpIncr, len. by rewrite Hp.
Qed.

End theorems.

(** ** On MemDB *)

Definition memdb : DBOps (MemDB (list item)) memDBIterator memDBBatch := MemDB_ops.

(** The keys [01 FF 61], [02 00 7A] and [02]; the last is between [01 FF] and its
    successor [02 00]. *)
Definition demo_calls : list call :=
  [CSet (Some [x01; xff; x61]) (Some [x0a]); CSet (Some [x02; x00; x7a]) (Some [x0b]);
   CSet (Some [x02]) (Some [])].
Definition demo_db : MemDB (list item) := (run_calls memdb 10 demo_calls NewMemDB).2.
Definition demo_store : store :=
  <[[x02] := []]> (<[[x02; x00; x7a] := [x0b]]> (<[[x01; xff; x61] := [x0a]]> ∅)).

Lemma demo_store_eq : (spec_calls demo_calls ∅).2 = demo_store.
Proof. reflexivity. Qed.

Lemma demo_db_inv : MemDB_inv demo_db ∧ MemDB_model demo_db = demo_store.
Proof.
  destruct NewMemDB_inv as [H1 H2].
  destruct (run_calls_spec memdb 10 demo_calls NewMemDB) as (s' & Hrun & Hinv & Hm).
  - exact H1.
  - by apply calls_fit.
  - change (size (MemDB_model (T := list item) NewMemDB) + weight demo_calls < 10).
    rewrite H2, map_size_empty. cbv. lia.
  - unfold demo_db. rewrite Hrun. split; [exact Hinv|].
    change (MemDB_model s' = (spec_calls demo_calls (MemDB_model (T := list item) NewMemDB)).2) in Hm.
    by rewrite H2, demo_store_eq in Hm.
Qed.

Lemma demo_size p n : 3 + n < 20 → size (prefix_view p (MemDB_model demo_db)) + n < 20.
Proof.
  intros Hn. pose proof (prefix_view_size p (MemDB_model demo_db)) as H.
  rewrite (proj2 demo_db_inv) in *.
  assert (size demo_store ≤ 3); [|lia].
  unfold demo_store. rewrite !map_size_insert, map_size_empty. repeat case_match; simpl; lia.
Qed.

Definition demo_program : list call :=
  [CGet (Some [x00; x7a]); CSet (Some [x10]) (Some [x11]); CScan None None true;
   CBatch [BSet (Some [x12]) (Some [x13]); BDelete (Some [x10])] false; CScan (Some [x01]) None false].

Lemma prefixdb_refines_witness :
  ∃ s', run_calls (NewPrefixDB memdb 20 (Some [x02])) 20 demo_program demo_db =
    ((spec_calls demo_program (prefix_view [x02] (MemDB_model demo_db))).1, s') ∧
    MemDB_model s' !! [x02] = Some [].
Proof.
  destruct (prefixdb_refines memdb (Some [x02]) 20 demo_program demo_db) as (ans & s' & H1 & _ & H2 & _ & _ & H3).
  - discriminate.
  - exact (proj1 demo_db_inv).
  - by apply calls_fit.
  - apply demo_size. cbv. lia.
  - exists s'. split.
    + rewrite H1. f_equal. apply H2. by apply exact_no_overshoot.
    + transitivity (MemDB_model demo_db !! [x02]).
      * apply H3. intros [_ H]. by destruct H.
      * rewrite (proj2 demo_db_inv). unfold demo_store. by rewrite lookup_insert_eq.
Defined.

(** Two namespaces, [01 FF] and [02 00]. *)
Definition two_prefixes (j : bool) : slice := Some (if j then [x01; xff] else [x02; x00]).
Definition two_clients : list (bool * call) :=
  [(true, CSet (Some [x10]) (Some [x11])); (false, CScan None None true); (false, CDelete (Some [x7a]));
   (true, CScan None None false); (false, CHas (Some [x10])); (true, CScan None (Some [xff]) true)].

Lemma prefixdb_isolated_witness :
  ∃ answers s', run_side_by_side memdb two_prefixes 20 two_clients demo_db = (answers, s') ∧
    of_one false answers = (spec_calls (of_one false two_clients) (prefix_view [x02; x00] (MemDB_model demo_db))).1.
Proof.
  destruct (prefixdb_isolated memdb two_prefixes 20 two_clients demo_db) as (answers & s' & H & _ & Hall).
  - by intros [].
  - intros [] [] Hne; (by destruct Hne) || (intros H; by apply (bool_decide_pack _) in H).
  - exact (proj1 demo_db_inv).
  - repeat constructor.
  - intros j. apply demo_size. destruct j; cbv; lia.
  - exists answers, s'. split; [exact H|]. exact (proj2 (Hall false) eq_refl).
Defined.

Lemma prefixdb_nested_witness :
  (run_calls (NewPrefixDB (NewPrefixDB memdb 20 (Some [x02])) 20 (Some [x00])) 20 demo_program demo_db).1 =
  (run_calls (NewPrefixDB memdb 20 (Some [x02; x00])) 20 demo_program demo_db).1.
Proof.
  apply (prefixdb_nested memdb (Some [x02]) (Some [x00]) 20 demo_program demo_db).
  - discriminate.
  - discriminate.
  - exact (proj1 demo_db_inv).
  - left. intros H. apply Forall_cons in H as [H _]. discriminate H.
  - by apply calls_fit.
  - apply demo_size. cbv. lia.
Defined.

(** The condition on the inner prefix is needed: with [01] over [FF] and the raw
    key [02] in the database, the nested reverse scan finds the entry [61] and that
    of the single PrefixDB nothing. *)
Example nested_differs :
  (run_calls (NewPrefixDB (NewPrefixDB memdb 20 (Some [x01])) 20 (Some [xff])) 20 [CScan None None true] demo_db).1 =
    [AScan (Ok [(Some [x61], Some [x0a])])] ∧
  (run_calls (NewPrefixDB memdb 20 (Some [x01; xff])) 20 [CScan None None true] demo_db).1 = [AScan (Ok [])].
Proof. split; vm_compute; reflexivity. Qed.

Lemma prefixdb_forward_witness :
  reply (run_scan (NewPrefixDB memdb 20 (Some [x01; xff])) 20 None None false) demo_db
    (Ok (as_slices (scan (prefix_view [x01; xff] (MemDB_model demo_db)) None None false)))
    (λ s', MemDB_inv s' ∧ MemDB_model s' = MemDB_model demo_db).
Proof.
  refine (prefixdb_forward memdb (Some [x01; xff]) 20 None None demo_db _ _ _ _).
  - discriminate.
  - exact (proj1 demo_db_inv).
  - reflexivity.
  - rewrite <-(Nat.add_0_r (size _)). apply demo_size. lia.
Defined.

(** On the store above, whose namespace [01 FF] holds the key [61]. *)
Lemma prefixdb_reverse_blind_witness :
  prefix_view [x01; xff] (MemDB_model demo_db) !! [x61] = Some [x0a] ∧
  reply (run_scan (NewPrefixDB memdb 20 (Some [x01; xff])) 21 None None true) demo_db (Ok [])
    (λ s', MemDB_inv s' ∧ MemDB_model s' = MemDB_model demo_db).
Proof.
  split.
  - rewrite lookup_prefix_view, (proj2 demo_db_inv), decide_False by discriminate. unfold demo_store.
    by rewrite !lookup_insert_ne, lookup_insert_eq by discriminate.
  - refine (prefixdb_reverse_blind memdb (Some [x01; xff]) 20 None demo_db [x02] [] _ _ _ _ _).
    + discriminate.
    + exact (proj1 demo_db_inv).
    + reflexivity.
    + by exists 0.
    + change (db_model demo_db) with (MemDB_model demo_db).
      rewrite (proj2 demo_db_inv). unfold demo_store. by rewrite lookup_insert_eq.
Defined.

(** [IteratePrefix] for [01 FF] delivers the key [02]. *)
Lemma IteratePrefix_delivers_witness :
  ∃ it st en l, reply (IteratePrefix memdb (Some [x01; xff])) demo_db (Ok it)
      (λ s', MemDB_inv s' ∧ MemDB_model s' = MemDB_model demo_db) ∧
    it_rep it st en l ∧ ([x02], []) ∈ l ∧ ¬ [x01; xff] `prefix_of` [x02].
Proof.
  destruct (IteratePrefix_delivers memdb (Some [x01; xff]) demo_db)
    as (it & st & en & l & Hit & Hrep & _ & Hl & _); [exact (proj1 demo_db_inv)|].
  exists it, st, en, l. split_and!; [exact Hit|exact Hrep| |].
  - apply Hl. split; [|right; by exists 0].
    change (db_model demo_db) with (MemDB_model demo_db).
    rewrite (proj2 demo_db_inv). unfold demo_store. by rewrite lookup_insert_eq.
  - by apply (bool_decide_eq_false ([x01; xff] `prefix_of` [x02])).
Defined.

Lemma prefixdb_empty_prefix_witness :
  PrefixDB_Iterator memdb (Some []) None None demo_db =
    (Panic "cpIncr expects non-zero bz length", demo_db).
Proof. exact (proj1 (prefixdb_empty_prefix memdb (Some []) None demo_db eq_refl eq_refl)). Defined.
