(* ===== verification/Session.v ===== *)
(** * Sessions: interleaved calls on a database, its batches and its iterators

    A client that keeps several batches and iterators at a time and calls their
    methods in any order, within the contract of types.go: "No writes can happen
    to a domain while there exists an iterator over it, some backends may take
    out database locks to ensure this will not happen", and nothing is called on
    an iterator after [Close]. *)

From S2P Require Import Prelude Go Util Spec Types Client BatchLife.

Inductive iter_op := OValid | ONext | OKey | OValue | OError | OClose.

(** Batches and iterators are named by the order in which they were created. *)
Inductive cmd :=
  | Point (c : call)
  | NewBatch
  | OnBatch (i : nat) (c : batch_step)
  | Open (start end_ : slice) (reverse : bool)
  | OnIter (i : nat) (op : iter_op).

Inductive outcome :=
  | OAnswer (a : answer)
  | OUnit (r : result unit)
  | OBool (r : result bool)
  | OSlice (r : result slice)
  | OErr (e : option error)
  | ONothing.                                           (* no such handle *)

(** ** Running a session *)

Section run.
Context {S I B : Type} `{!IteratorOps I, !BatchOps S B} (ops : DBOps S I B).

(** A closed iterator is forgotten. *)
Record session := Sess { ss_db : S; ss_batches : list B; ss_iters : list (option I) }.

Definition run_iter_op (op : iter_op) (it : I) : outcome * option I :=
  match op with
  | OValid => let '(r, it) := it_Valid it in (OBool r, Some it)
  | ONext => let '(r, it) := it_Next it in (OUnit r, Some it)
  | OKey => let '(r, it) := it_Key it in (OSlice r, Some it)
  | OValue => let '(r, it) := it_Value it in (OSlice r, Some it)
  | OError => (OErr (it_Error it), Some it)
  | OClose => let '(r, _) := it_Close it in (OUnit r, None)
  end.

Definition run_cmd (c : cmd) (s : session) : outcome * session :=
  match c with
  | Point c =>
      let '(a, db) := run_call ops 0 c (ss_db s) in (OAnswer a, Sess db (ss_batches s) (ss_iters s))
  | NewBatch =>
      let '(r, db) := db_NewBatch ops (ss_db s) in
      (OUnit (result_map (λ _, tt) r),
       Sess db (match r with Ok b => ss_batches s ++ [b] | _ => ss_batches s end) (ss_iters s))
  | OnBatch i c =>
      match ss_batches s !! i with
      | Some b =>
          let '(r, (b, db)) := run_batch_step c (b, ss_db s) in
          (OUnit r, Sess db (<[i := b]> (ss_batches s)) (ss_iters s))
      | None => (ONothing, s)
      end
  | Open start end_ reverse =>
      let '(r, db) := (if reverse then db_ReverseIterator ops start end_
                       else db_Iterator ops start end_) (ss_db s) in
      (OUnit (result_map (λ _, tt) r),
       Sess db (ss_batches s) (match r with Ok it => ss_iters s ++ [Some it] | _ => ss_iters s end))
  | OnIter i op =>
      match ss_iters s !! i with
      | Some (Some it) =>
          let '(o, it) := run_iter_op op it in
          (o, Sess (ss_db s) (ss_batches s) (<[i := it]> (ss_iters s)))
      | _ => (ONothing, s)
      end
  end.

Fixpoint run_session (l : list cmd) (s : session) : list outcome * session :=
  match l with
  | [] => ([], s)
  | c :: l =>
      let '(o, s) := run_cmd c s in
      let '(os, s) := run_session l s in (o :: os, s)
  end.

End run.
Arguments session : clear implicits.

(** ** The abstract session *)

(** The store, the operations of the batches (nothing once written or closed),
    the open iterators with their domain and what they have still to deliver. *)
Record aiter := AIter { ai_start : slice; ai_end : slice; ai_left : list entry }.
Record asession := ASess {
  as_store : store;
  as_batches : list (option (list write));
  as_iters : list (option aiter);
}.

Definition spec_iter_op (op : iter_op) (l : list entry) : outcome * option (list entry) :=
  match op, l with
  | OValid, _ => (OBool (Ok (bool_decide (l ≠ []))), Some l)
  | ONext, _ :: l => (OUnit (Ok tt), Some l)
  | ONext, [] => (OUnit (Panic invalid_msg), Some [])
  | OKey, (k, _) :: _ => (OSlice (Ok (Some k)), Some l)
  | OValue, (_, v) :: _ => (OSlice (Ok (Some v)), Some l)
  | OKey, [] | OValue, [] => (OSlice (Panic invalid_msg), Some [])
  | OError, _ => (OErr None, Some l)
  | OClose, _ => (OUnit (Ok tt), None)
  end.

(** An outcome that is [None] here is some error. *)
Definition spec_cmd (c : cmd) (a : asession) : option outcome * asession :=
  match c with
  | Point c =>
      let '(r, m) := spec_call c (as_store a) in
      (Some (OAnswer r), ASess m (as_batches a) (as_iters a))
  | NewBatch => (Some (OUnit (Ok tt)), ASess (as_store a) (as_batches a ++ [Some []]) (as_iters a))
  | OnBatch i c =>
      match as_batches a !! i with
      | Some ws =>
          let '(r, (ws, m)) := spec_batch_step c ws (as_store a) in
          (OUnit <$> r, ASess m (<[i := ws]> (as_batches a)) (as_iters a))
      | None => (Some ONothing, a)
      end
  | Open start end_ reverse =>
      if bad_bounds start end_ then (Some (OUnit (Err errKeyEmpty)), a)
      else (Some (OUnit (Ok tt)),
            ASess (as_store a) (as_batches a)
              (as_iters a ++ [Some (AIter start end_ (scan (as_store a) start end_ reverse))]))
  | OnIter i op =>
      match as_iters a !! i with
      | Some (Some it) =>
          let '(o, l) := spec_iter_op op (ai_left it) in
          (Some o, ASess (as_store a) (as_batches a) (<[i := AIter (ai_start it) (ai_end it) <$> l]> (as_iters a)))
      | _ => (Some ONothing, a)
      end
  end.

Fixpoint spec_session (l : list cmd) (a : asession) : list (option outcome) * asession :=
  match l with
  | [] => ([], a)
  | c :: l =>
      let '(o, a) := spec_cmd c a in
      let '(os, a) := spec_session l a in (o :: os, a)
  end.

Definition meets (o : outcome) (expected : option outcome) : Prop :=
  match expected with Some o' => o = o' | None => ∃ e, o = OUnit (Err e) end.

(** ** What the contract allows *)

Definition writes (c : call) : bool :=
  match c with CSet _ _ | CSetSync _ _ | CDelete _ | CDeleteSync _ => true | _ => false end.
Definition is_point (c : call) : Prop :=
  match c with CScan _ _ _ | CBatch _ _ => False | _ => True end.
Definition call_key (c : call) : bytes :=
  match c with
  | CSet key _ | CSetSync key _ | CDelete key | CDeleteSync key => data key
  | _ => []
  end.

(** No iterator is open. *)
Definition quiet (a : asession) : Prop := Forall (λ it, it = None) (as_iters a).
(** No open iterator has the key in its domain. *)
Definition outside (a : asession) (k : bytes) : Prop :=
  Forall (from_option (λ it, ¬ in_domain (ai_start it) (ai_end it) k) True) (as_iters a).

(** What a backend does about writes while iterators are open: it lets them
    happen (its iterators read a snapshot), and then types.go forbids those in the
    domain of an open iterator; or its locks make a write wait for the iterators
    ([MemDB], whose goroutine holds the mutex for reading; bbolt, where a write
    transaction may wait for the read transactions), and then a client that
    writes must have closed its iterators. *)
Inductive write_policy := Snapshots | Locks.

Definition may_write (policy : write_policy) (keys : list bytes) (a : asession) : Prop :=
  match policy with
  | Snapshots => Forall (outside a) keys
  | Locks => quiet a
  end.

Definition allowed (policy : write_policy) (fits : limits) (c : cmd) (a : asession) : Prop :=
  match c with
  | Point c => is_point c ∧ call_fits fits c ∧ (writes c = true → may_write policy [call_key c] a)
  | OnBatch i (BCall c) =>
      batch_call_fits fits c ∧ within fits (S (length (default [] (as_batches a !! i ≫= id))))
  | OnBatch i (BWrite _) => may_write policy (write_key <$> default [] (as_batches a !! i ≫= id)) a
  | _ => True
  end.

Fixpoint allowed_session (policy : write_policy) (fits : limits) (l : list cmd) (a : asession) : Prop :=
  match l with
  | [] => True
  | c :: l => allowed policy fits c a ∧ allowed_session policy fits l (spec_cmd c a).2
  end.

(** Where a client may write with its iterators closed, it may write outside
    their domains. *)
Lemma allowed_Locks policy fits l a : allowed_session Locks fits l a → allowed_session policy fits l a.
Proof.
  revert a. induction l as [|c l IH]; intros a; [done|]. intros [Hc Hl]. split; [|by apply IH].
  assert (∀ keys, quiet a → may_write policy keys a) as Hq.
  { intros keys Ha. destruct policy; [|done]. apply list.Forall_forall. intros k _.
    eapply Forall_impl; [exact Ha|]. by intros ? ->. }
  destruct c as [c| |i [c|sync|]| |]; simpl in *; try done; [|by apply Hq].
  destruct Hc as (Hp & Hf & Hw). split_and!; [done|done|]. intros Hwr. by apply Hq, Hw.
Qed.

(** ** Refinement *)

Section refinement.
Context {S I B : Type} `{!IteratorOps I, !BatchOps S B} (ops : DBOps S I B).
Context `{!DBContract ops}.

Definition iter_rel (it : option I) (a : option aiter) : Prop :=
  match it, a with
  | Some it, Some a => it_rep it (ai_start a) (ai_end a) (ai_left a)
  | None, None => True
  | _, _ => False
  end.

Definition session_rel (s : session S I B) (a : asession) : Prop :=
  db_inv (ss_db s) ∧ db_model (ss_db s) = as_store a ∧
  Forall2 batch_rep (ss_batches s) (as_batches a) ∧ Forall2 iter_rel (ss_iters s) (as_iters a).

Lemma run_iter_op_spec op it start end_ l : it_rep it start end_ l →
  (run_iter_op op it).1 = (spec_iter_op op l).1 ∧
  iter_rel (run_iter_op op it).2 (AIter start end_ <$> (spec_iter_op op l).2).
Proof.
  intros H.
  destruct op; simpl.
  - destruct (law_Valid it start end_ l H) as (it' & -> & ?). by split.
  - destruct l as [|x l].
    + destruct (law_Next_invalid it start end_ H) as (it' & -> & ?). by split.
    + destruct (law_Next it start end_ x l H) as (it' & -> & ?). by split.
  - destruct l as [|[k v] l].
    + destruct (law_Key_invalid it start end_ H) as (it' & -> & ?). by split.
    + destruct (law_Key it start end_ k v l H) as (it' & -> & ?). by split.
  - destruct l as [|[k v] l].
    + destruct (law_Value_invalid it start end_ H) as (it' & -> & ?). by split.
    + destruct (law_Value it start end_ k v l H) as (it' & -> & ?). by split.
  - rewrite (law_Error it start end_ l H). by split.
  - destruct (law_it_Close it start end_ l H) as (it' & -> & _). done.
Qed.

Lemma run_open_spec s start end_ rev : db_inv s →
  let open := if rev : bool then db_ReverseIterator ops start end_ else db_Iterator ops start end_ in
  if bad_bounds start end_ then reply open s (Err errKeyEmpty) (λ s', db_inv s' ∧ db_model s' = db_model s)
  else ∃ it, reply open s (Ok it) (λ s', db_inv s' ∧ db_model s' = db_model s) ∧
    it_rep it start end_ (scan (db_model s) start end_ rev).
Proof.
  intros Hinv. destruct (bad_bounds start end_) eqn:Hb, rev; simpl.
  - by apply law_ReverseIterator_bad.
  - by apply law_Iterator_bad.
  - by apply law_ReverseIterator.
  - by apply law_Iterator.
Qed.

Lemma run_point_spec c s : db_inv s → is_point c → call_fits db_fits c →
  ∃ s', run_call ops 0 c s = ((spec_call c (db_model s)).1, s') ∧
    db_inv s' ∧ db_model s' = (spec_call c (db_model s)).2.
Proof.
  intros Hinv Hp Hfit.
  destruct (run_call_spec ops (Datatypes.S (size (db_model s))) c s Hinv Hfit) as (s' & H & ?); [lia|].
  exists s'. split; [|done]. by destruct c.
Qed.

Lemma run_cmd_spec policy c s a : session_rel s a → allowed policy db_fits c a →
  meets (run_cmd ops c s).1 (spec_cmd c a).1 ∧ session_rel (run_cmd ops c s).2 (spec_cmd c a).2.
Proof.
  destruct s as [db bs its], a as [m wss ls]. intros (Hinv & Hm & Hbs & Hits) Hok. simpl in *. subst m.
  destruct c as [c| |i c|start end_ rev|i op]; simpl in *.
  - destruct Hok as (Hp & Hfit & _). destruct (run_point_spec c db Hinv Hp Hfit) as (db' & -> & ? & ?).
    destruct (spec_call c (db_model db)). by split.
  - destruct (law_NewBatch db Hinv) as (b & (db' & -> & ? & ?) & Hb). split; [done|].
    split_and!; simpl; try done. by apply Forall2_app; [|constructor].
  - destruct (wss !! i) as [ws|] eqn:Hws.
    + destruct (Forall2_lookup_r _ _ _ _ _ Hbs Hws) as (b & -> & Hb).
      destruct (run_batch_step_spec ops c b ws db Hb Hinv) as (r & Hr & [b' db'] & -> & Hb' & ? & ?).
      { by destruct c; [destruct Hok|..]. }
      { intros c' ->. by destruct Hok. }
      destruct (spec_batch_step c ws (db_model db)) as [o [ws' m']]. simpl in *.
      split; [|split_and!; try done; by apply Forall2_insert].
      destruct o; simpl in *; [by subst|]. destruct Hr as [e ->]. by eexists.
    + assert (bs !! i = None) as ->; [|by split].
      apply lookup_ge_None. rewrite (Forall2_length _ _ _ Hbs). by apply lookup_ge_None.
  - pose proof (run_open_spec db start end_ rev Hinv) as H. destruct (bad_bounds start end_).
    + destruct H as (db' & -> & ? & ?). by split.
    + destruct H as (it & (db' & -> & ? & ?) & Hit). split; [done|].
      split_and!; simpl; try done. apply Forall2_app; [done|]. by constructor.
  - destruct (ls !! i) as [l|] eqn:Hl.
    + destruct (Forall2_lookup_r _ _ _ _ _ Hits Hl) as (it & -> & Hrel).
      destruct it as [it|], l as [[start end_ l]|]; simpl in Hrel; try done.
      destruct (run_iter_op_spec op it start end_ l Hrel) as [Ho Hrel']. simpl in *.
      destruct (run_iter_op op it) as [o it'], (spec_iter_op op l) as [o' l']. simpl in *.
      split; [done|]. split_and!; try done. by apply Forall2_insert.
    + assert (its !! i = None) as ->; [|by split].
      apply lookup_ge_None. rewrite (Forall2_length _ _ _ Hits). by apply lookup_ge_None.
Qed.

(** A database that meets the contract answers every session. *)
Lemma session_refines policy l s :
  db_inv s → allowed_session policy db_fits l (ASess (db_model s) [] []) →
  let spec := spec_session l (ASess (db_model s) [] []) in
  ∃ outs s', run_session ops l (Sess s [] []) = (outs, s') ∧ Forall2 meets outs spec.1 ∧
    db_inv (ss_db s') ∧ db_model (ss_db s') = as_store spec.2.
Proof.
  intros Hinv Hok. assert (session_rel (Sess s [] []) (ASess (db_model s) [] [])) as Hrel by done.
  revert Hok Hrel. generalize (Sess s ([] : list B) ([] : list (option I))), (ASess (db_model s) [] []).
  clear. induction l as [|c l IH]; intros s a Hok Hrel; simpl.
  - exists [], s. destruct Hrel as (? & ? & _). by split_and!.
  - destruct Hok as [Hc Hok]. destruct (run_cmd_spec policy c s a Hrel Hc) as [Hmeets Hrel'].
    destruct (run_cmd ops c s) as [o s1], (spec_cmd c a) as [o' a1]. simpl in *.
    destruct (IH s1 a1 Hok Hrel') as (outs & s2 & -> & Houts & ?).
    destruct (spec_session l a1). exists (o :: outs), s2. split_and!; [done|by constructor|apply H..].
Qed.

End refinement.

(** Every session a client may run on the database [s], whose contents are
    [m], is answered as the abstract session. *)
Definition serves {S I B : Type} `{!IteratorOps I, !BatchOps S B} (ops : DBOps S I B)
    (policy : write_policy) (fits : limits) (s : S) (m : store) : Prop :=
  ∀ l, allowed_session policy fits l (ASess m [] []) →
    ∃ outs s', run_session ops l (Sess s [] []) = (outs, s') ∧
      Forall2 meets outs (spec_session l (ASess m [] [])).1.

Lemma contract_serves {S I B : Type} `{!IteratorOps I, !BatchOps S B} (ops : DBOps S I B)
    `{!DBContract ops} policy (s : S) :
  db_inv s → serves ops policy db_fits s (db_model s).
Proof.
  intros Hinv l Hok. destruct (session_refines ops policy l s Hinv Hok) as (outs & s' & ? & ? & _).
  by exists outs, s'.
Qed.
