(* ===== verification/SessionThms.v ===== *)
(** * Sessions on the backends

    Each backend with its write policy and its limits. *)

From S2P Require Import Prelude Go Util Spec Types Client BatchLife Session BTree MemDB MemDBCorrect.
From S2P Require Import Path Cursor KVLib KVBackend GoLevelDB GoLevelDBCorrect RocksDB RocksDBCorrect CLevelDB CLevelDBCorrect.
From S2P Require Import BoltLib BoltDB BoltDBCorrect BadgerLib BadgerDB BadgerDBCorrect PrefixDB PrefixDBCorrect PrefixDBThms.

Section backends.
Context {T : Type} `{!BTreeOps item T} `{!BTreeLaws (T := T) item_Less}.
Context {D C W : Type} `{!CursorOps C, !CursorLaws C, !KVOps D C W} `{!KVLaws D C W (Err ErrNotFound)}.
Context {D' C' W' : Type} `{!CursorOps C', !CursorLaws C', !KVOps D' C' W'} `{!KVLaws D' C' W' (Ok None)}.
Context {BD BTx BCu : Type} `{!BoltOps BD BTx BCu, !BoltLaws BD BTx BCu bucket}.
Context {GD GTx GC GWB GItem : Type} `{!BadgerOps GD GTx GC GWB GItem, !BadgerLaws GD GTx GC GWB GItem}.

(** C11: on every backend a client may keep several batches and iterators
    at a time and call them, and the database, in any order: every call is answered
    as by the abstract session.  On goleveldb, rocksdb, cleveldb and badger
    (policy [Snapshots]) the client must not write within the domain of an iterator
    it has open, which is the contract of types.go; on [MemDB] and bbolt (policy
    [Locks]), where a write would wait for its own iterator, it must have closed its
    iterators before it writes.  The calls are within the limits of bbolt and
    badger, and badger starts without empty values. *)
Theorem backends_serve_sessions :
  (∀ db : MemDB T, MemDB_inv db → serves MemDB_ops Locks no_limits db (MemDB_model db)) ∧
  (∀ prop fuel (d : D), lib_ok d →
    serves (GoLevelDB_ops prop fuel) Snapshots no_limits {| gl_db := d |} (lib_model d)) ∧
  (∀ prop fuel (d : D'), lib_ok d →
    serves (RocksDB_ops prop fuel) Snapshots no_limits
      {| rk_db := d; rk_wo := NewDefaultWriteOptions; rk_woSync := RocksDB.SetSync true NewDefaultWriteOptions |}
      (lib_model d)) ∧
  (∀ prop fuel (d : D'), lib_ok d →
    serves (CLevelDB_ops prop fuel) Snapshots no_limits
      {| cl_db := d; cl_wo := NewWriteOptions; cl_woSync := CLevelDB.SetSync true NewWriteOptions |}
      (lib_model d)) ∧
  (∀ fmt (d : BD), bolt_ok d → serves (BoltDB_ops fmt) Locks bolt_limits {| bo_db := d |} (bolt_model d)) ∧
  (∀ d : GD, bg_ok d → full_store (bg_model d) →
    serves (BadgerDB_ops (D := GD) (Tx := GTx) (C := GC) (WB := GWB)) Snapshots badger_limits {| bg_db := d |} (bg_model d)).
Proof.
  split_and!.
  - intros db H. exact (contract_serves MemDB_ops Locks db H).
  - intros prop fuel d H.
    exact (contract_serves (GoLevelDB_ops prop fuel) (DBContract0 := GoLevelDB_contract prop fuel) Snapshots {| gl_db := d |} (conj Logic.I H)).
  - intros prop fuel d H.
    by apply (contract_serves (RocksDB_ops prop fuel) (DBContract0 := RocksDB_contract prop fuel) Snapshots
      {| rk_db := d; rk_wo := NewDefaultWriteOptions; rk_woSync := RocksDB.SetSync true NewDefaultWriteOptions |}).
  - intros prop fuel d H.
    by apply (contract_serves (CLevelDB_ops prop fuel) (DBContract0 := CLevelDB_contract prop fuel) Snapshots
      {| cl_db := d; cl_wo := NewWriteOptions; cl_woSync := CLevelDB.SetSync true NewWriteOptions |}).
  - intros fmt d H. exact (contract_serves (BoltDB_ops fmt) (DBContract0 := BoltDB_contract fmt) Locks {| bo_db := d |} H).
  - intros d H Hf. exact (contract_serves BadgerDB_ops (DBContract0 := BadgerDB_contract) Snapshots {| bg_db := d |} (conj H Hf)).
Qed.

End backends.

(** The same for a PrefixDB over any database that meets the contract. *)
Lemma prefixdb_serves {S I B : Type} `{!IteratorOps I, !BatchOps S B} (db : DBOps S I B) `{!DBContract db}
    policy prefix fuel (s : S) :
  data prefix ≠ [] → db_inv s → no_overshoot (data prefix) (db_model s) →
  serves (NewPrefixDB db fuel prefix) policy (PrefixDB_fits db prefix) s (prefix_view (data prefix) (db_model s)).
Proof.
  intros Hp Hinv Hno.
  exact (contract_serves (NewPrefixDB db fuel prefix)
    (DBContract0 := PrefixDB_contract db prefix fuel Hp (db_model s) Hno) policy s (conj Hinv (ns_ok_refl _ _))).
Qed.

(** ** Instances *)

(** Two batches and two iterators at a time; the second batch is written after
    the iterators are closed, and once more after that. *)
Definition two_handles : list cmd :=
  [NewBatch; NewBatch; OnBatch 0 (BCall (BSet (Some [x61]) (Some [x01])));
   OnBatch 1 (BCall (BDelete (Some [x61]))); OnBatch 0 (BWrite true);
   Open None None false; Open (Some [x61]) None true;
   OnBatch 1 (BCall (BSet (Some [x62]) (Some [x02])));
   OnIter 1 OKey; OnIter 0 OValid; OnIter 0 ONext; OnIter 0 OKey; OnIter 1 OValue;
   Point (CGet (Some [x61])); OnIter 1 OClose; OnIter 0 OClose;
   OnBatch 1 (BWrite false); OnBatch 1 (BWrite false); Point (CGet (Some [x61])); Point (CHas (Some [x62]))].

Example two_handles_run :
  (run_session (MemDB_ops (T := list item)) two_handles (Sess NewMemDB [] [])).1 =
  [OUnit (Ok tt); OUnit (Ok tt); OUnit (Ok tt); OUnit (Ok tt); OUnit (Ok tt);
   OUnit (Ok tt); OUnit (Ok tt); OUnit (Ok tt);
   OSlice (Ok (Some [x61])); OBool (Ok true); OUnit (Ok tt); OSlice (Panic invalid_msg);
   OSlice (Ok (Some [x01])); OAnswer (AValue (Ok (Some [x01]))); OUnit (Ok tt); OUnit (Ok tt);
   OUnit (Ok tt); OUnit (Err errBatchClosed); OAnswer (AValue (Ok None)); OAnswer (ABool (Ok true))].
Proof. vm_compute. reflexivity. Qed.

(** Writes beside the domain of an open iterator. *)
Definition write_beside : list cmd :=
  [Point (CSet (Some [x61]) (Some [x01])); Open (Some [x61]) (Some [x62]) false; NewBatch;
   OnBatch 0 (BCall (BDelete (Some [x70]))); OnBatch 0 (BWrite true); Point (CSetSync (Some [x62]) (Some [x02]));
   OnIter 0 OKey; OnIter 0 ONext; OnIter 0 OValid; OnIter 0 OClose].

Lemma backends_serve_sessions_witness :
  (∃ outs s', run_session (MemDB_ops (T := list item)) two_handles (Sess NewMemDB [] []) = (outs, s') ∧
    Forall2 meets outs (spec_session two_handles (ASess ∅ [] [])).1) ∧
  (∃ outs s', run_session (BatchOps0 := goLevelDBBatch_ops (KVOps0 := RefKV.kv_ops (Err ErrNotFound)))
      (GoLevelDB_ops (KVOps0 := RefKV.kv_ops (Err ErrNotFound)) (λ _, mret EmptyString) 10) write_beside
      (Sess {| gl_db := ∅ |} [] []) = (outs, s') ∧
    Forall2 meets outs (spec_session write_beside (ASess ∅ [] [])).1).
Proof.
  pose proof (@backends_serve_sessions (list item) _ _
    store RefKV.cursor (list write) _ _ (RefKV.kv_ops (Err ErrNotFound)) (RefKV.kv_laws (Err ErrNotFound))
    store RefKV.cursor (list write) _ _ (RefKV.kv_ops (Ok None)) (RefKV.kv_laws (Ok None))
    RefBolt.db RefBolt.db RefBolt.cursor _ (RefBolt.laws bucket)
    store store _ _ entry RefBadger.ops RefBadger.laws) as (H & H2 & _). split.
  - specialize (H NewMemDB (proj1 NewMemDB_inv)).
    rewrite (proj2 NewMemDB_inv) in H. apply H. repeat split; intros; repeat constructor; discriminate.
  - apply (H2 (λ _, mret EmptyString) 10 ∅ Logic.I).
    assert (¬ in_domain (Some [x61]) (Some [x62]) [x70]) by by apply (bool_decide_eq_false (in_domain _ _ _)).
    assert (¬ in_domain (Some [x61]) (Some [x62]) [x62]) by by apply (bool_decide_eq_false (in_domain _ _ _)).
    cbn -[in_domain lib_model]. split_and!; try done; intros; repeat constructor; simpl; done.
Defined.
