(* ===== verification/Backends.v ===== *)
(** * The [init] functions of the backends and the databases [NewDB] makes

    The values of the interface type [DB] that the registry makes are those of
    the six backends; every backend registers a constructor of such values.
    What [NewDB] returns is a database on which a client can run any session
    within the limits and the write policy of the backend. *)

From S2P Require Import Prelude Go Util Spec Types Client BatchLife Session Interface BTree MemDB MemDBCorrect Registry.
From S2P Require Import Path Cursor KVLib KVBackend GoLevelDB GoLevelDBCorrect RocksDB RocksDBCorrect CLevelDB CLevelDBCorrect.
From S2P Require Import BoltLib BoltDB BoltDBCorrect BoltDBThms BadgerLib BadgerDB BadgerDBCorrect.

(** The database is there and serves a client; its contents are [m]. *)
Definition ready {S I B : Type} `{!IteratorOps I, !BatchOps S B} (ops : DBOps S I B)
    (r : result S) (policy : write_policy) (fits : limits) (m : store) : Prop :=
  ∃ db, r = Ok db ∧ serves ops policy fits db m.

Section backends.
Context {T : Type} `{!BTreeOps item T}.
(** goleveldb *)
Context {D C W : Type} `{!CursorOps C, !KVOps D C W}.
Context {GOptions : Type} (OpenFile : string → option GOptions → result D) (GetProperty : string → M D string).
(** cleveldb *)
Context {D2 C2 W2 : Type} `{!CursorOps C2, !KVOps D2 C2 W2}.
Context {LOptions : Type} (NewOptions : LOptions) (SetCache : Z → LOptions → LOptions)
  (SetCreateIfMissing : bool → LOptions → LOptions) (OpenC : string → LOptions → result D2)
  (PropertyValue : string → D2 → string).
(** rocksdb: [gorocksdb.OpenDb] with the options [NewRocksDB] builds *)
Context {D3 C3 W3 : Type} `{!CursorOps C3, !KVOps D3 C3 W3}.
Context {TableOptions ROptions Cache Filter : Type}.
Context (NewDefaultBlockBasedTableOptions : TableOptions)
  (NewLRUCache : Z → Cache) (SetBlockCache : Cache → TableOptions → TableOptions)
  (NewBloomFilter : Z → Filter) (SetFilterPolicy : Filter → TableOptions → TableOptions)
  (NewDefaultOptions : ROptions) (SetBlockBasedTableFactory : TableOptions → ROptions → ROptions)
  (SetMaxOpenFiles : Z → ROptions → ROptions) (SetCreateIfMissingR : bool → ROptions → ROptions)
  (IncreaseParallelism : Z → ROptions → ROptions) (NumCPU : Z)
  (OptimizeLevelStyleCompaction : Z → ROptions → ROptions)
  (OpenDb : ROptions → string → result D3) (GetPropertyR : string → D3 → string).
(** bbolt *)
Context {BD BTx BCu : Type} `{!BoltOps BD BTx BCu}.
Context {BOptions : Type} (ReadOnly : BOptions → bool) (DefaultOptions : BOptions)
  (OpenB : string → BOptions → result BD) (fmt_stats : BoltStats → string).
(** badger *)
Context {GD GTx GC GWB GItem : Type} `{!BadgerOps GD GTx GC GWB GItem}.
Context {XOptions : Type} (DefaultOptionsX : string → XOptions) (set_SyncWrites : bool → XOptions → XOptions)
  (no_Logger : XOptions → XOptions) (OpenX : XOptions → result GD) (MkdirAll : string → result unit).
(** Fuel of the loops of [Print] *)
Context (fuel : nat).

Abbreviation newRocksDB := (NewRocksDB NewDefaultBlockBasedTableOptions NewLRUCache SetBlockCache NewBloomFilter
  SetFilterPolicy NewDefaultOptions SetBlockBasedTableFactory SetMaxOpenFiles SetCreateIfMissingR
  IncreaseParallelism NumCPU OptimizeLevelStyleCompaction OpenDb).
Abbreviation newCLevelDB := (NewCLevelDB NewOptions SetCache SetCreateIfMissing OpenC).
Abbreviation newBoltDB := (NewBoltDB ReadOnly DefaultOptions OpenB).
Abbreviation newBadgerDB := (badgerDBCreator DefaultOptionsX set_SyncWrites no_Logger OpenX MkdirAll).

(** [type DB interface]: the values of the types that are registered. *)
Definition DB : Type :=
  MemDB T + (GoLevelDB D + (CLevelDB D2 + (RocksDB D3 + (BoltDB BD + BadgerDB GD)))).
Definition DBIterator : Type :=
  memDBIterator + (goLevelDBIterator C + (cLevelDBIterator C2 + (rocksDBIterator C3 +
    (boltDBIterator BTx BCu + badgerDBIterator GTx GC)))).
Definition DBBatch : Type :=
  memDBBatch + (goLevelDBBatch W + (cLevelDBBatch W2 + (rocksDBBatch W3 + (boltDBBatch + badgerDBBatch GWB)))).

#[local] Existing Instances sum_iterator_ops sum_batch_ops.
#[global] Instance DBIterator_ops : IteratorOps DBIterator := _.
#[global] Instance DBBatch_ops : BatchOps DB DBBatch := _.
Definition DB_ops : DBOps DB DBIterator DBBatch :=
  sum_ops (MemDB_ops (T := T)) (sum_ops (GoLevelDB_ops GetProperty fuel) (sum_ops (CLevelDB_ops PropertyValue fuel)
    (sum_ops (RocksDB_ops GetPropertyR fuel) (sum_ops (BoltDB_ops fmt_stats)
      (BadgerDB_ops (D := GD) (Tx := GTx) (C := GC) (WB := GWB)))))).

Definition of_MemDB (db : MemDB T) : DB := inl db.
Definition of_GoLevelDB (db : GoLevelDB D) : DB := inr (inl db).
Definition of_CLevelDB (db : CLevelDB D2) : DB := inr (inr (inl db)).
Definition of_RocksDB (db : RocksDB D3) : DB := inr (inr (inr (inl db))).
Definition of_BoltDB (db : BoltDB BD) : DB := inr (inr (inr (inr (inl db)))).
Definition of_BadgerDB (db : BadgerDB GD) : DB := inr (inr (inr (inr (inr db)))).

(** The constructor each [init] registers, with the name and [force]. *)
Definition init_memdb : string * dbCreator (DB := DB) * bool :=
  (MemDBBackend, λ name dir, Ok (of_MemDB NewMemDB), false).
Definition init_goleveldb : string * dbCreator (DB := DB) * bool :=
  (GoLevelDBBackend, λ name dir, result_map of_GoLevelDB (NewGoLevelDB OpenFile name dir), false).
Definition init_cleveldb : string * dbCreator (DB := DB) * bool :=
  (CLevelDBBackend, λ name dir, result_map of_CLevelDB (newCLevelDB name dir), false).
Definition init_rocksdb : string * dbCreator (DB := DB) * bool :=
  (RocksDBBackend, λ name dir, result_map of_RocksDB (newRocksDB name dir), false).
Definition init_boltdb : string * dbCreator (DB := DB) * bool :=
  (BoltDBBackend, λ name dir, result_map of_BoltDB (newBoltDB name dir), false).
Definition init_badgerdb : string * dbCreator (DB := DB) * bool :=
  (BadgerDBBackend, λ name dir, result_map of_BadgerDB (newBadgerDB name dir), true).

Definition all_creators : creators (DB := DB) := {|
  c_badgerdb := init_badgerdb.1.2; c_boltdb := init_boltdb.1.2; c_cleveldb := init_cleveldb.1.2;
  c_goleveldb := init_goleveldb.1.2; c_memdb := init_memdb.1.2; c_rocksdb := init_rocksdb.1.2;
|}.

(** The [init] functions of a build. *)
Definition build (t : build_tags) : list (string * dbCreator (DB := DB) * bool) :=
  (if t_badgerdb t then [init_badgerdb] else []) ++
  (if t_boltdb t then [init_boltdb] else []) ++
  (if t_cleveldb t then [init_cleveldb] else []) ++
  [init_goleveldb; init_memdb] ++
  (if t_rocksdb t then [init_rocksdb] else []).

Lemma build_inits t : build t = inits all_creators t.
Proof. done. Qed.

Context `{!BTreeLaws (T := T) item_Less}.
Context `{!CursorLaws C} `{!KVLaws D C W (Err ErrNotFound)}.
Context `{!CursorLaws C2} `{!KVLaws D2 C2 W2 (Ok None)}.
Context `{!CursorLaws C3} `{!KVLaws D3 C3 W3 (Ok None)}.
Context `{!BoltLaws BD BTx BCu bucket} `{!BadgerLaws GD GTx GC GWB GItem}.

Lemma NewCLevelDB_fields name dir (db : CLevelDB D2) :
  newCLevelDB name dir = Ok db →
  CLevelDB.wo_sync (cl_wo db) = false ∧ CLevelDB.wo_sync (cl_woSync db) = true.
Proof. unfold NewCLevelDB. destruct (OpenC _ _); simpl; intros; by simplify_eq. Qed.

Lemma NewRocksDB_fields name dir (db : RocksDB D3) :
  newRocksDB name dir = Ok db →
  RocksDB.wo_sync (rk_wo db) = false ∧ RocksDB.wo_sync (rk_woSync db) = true.
Proof. unfold NewRocksDB, NewRocksDBWithOptions. destruct (OpenDb _ _); simpl; intros; by simplify_eq. Qed.

(** The backend of a build can be opened: its limits and the contents of the
    files its library finds.  The memory backend is always there, and empty. *)
Inductive opens (t : build_tags) (name dir : string) : BackendType → write_policy → limits → store → Prop :=
  | opens_memdb : opens t name dir MemDBBackend Locks no_limits ∅
  | opens_goleveldb db : NewGoLevelDB OpenFile name dir = Ok db → lib_ok (gl_db db) →
      opens t name dir GoLevelDBBackend Snapshots no_limits (lib_model (gl_db db))
  | opens_cleveldb db : t_cleveldb t = true → newCLevelDB name dir = Ok db → lib_ok (cl_db db) →
      opens t name dir CLevelDBBackend Snapshots no_limits (lib_model (cl_db db))
  | opens_rocksdb db : t_rocksdb t = true → newRocksDB name dir = Ok db → lib_ok (rk_db db) →
      opens t name dir RocksDBBackend Snapshots no_limits (lib_model (rk_db db))
  | opens_boltdb d : t_boltdb t = true → ReadOnly DefaultOptions = false →
      OpenB (filepath_Join [dir; (name +:+ ".db")%string]) DefaultOptions = Ok d → bolt_file d →
      opens t name dir BoltDBBackend Locks bolt_limits (bolt_model d)
  | opens_badgerdb db : t_badgerdb t = true → newBadgerDB name dir = Ok db →
      bg_ok (bg_db db) → full_store (bg_model (bg_db db)) →
      opens t name dir BadgerDBBackend Snapshots badger_limits (bg_model (bg_db db)).

Lemma creator_conforms t name dir backend policy fits m :
  opens t name dir backend policy fits m →
  ∃ creator d, built_in all_creators t backend = Some creator ∧ creator name dir = Ok d ∧
    conforms DB_ops fits d m.
Proof.
  destruct 1 as [|db Hdb Hok|db Ht Hdb Hok|db Ht Hdb Hok|d Ht Hro Hopen Hfile|db Ht Hdb Hok Hfull];
    unfold built_in; simpl; rewrite ?Ht; eexists.
  - exists (of_MemDB NewMemDB). split; [done|]. split; [done|]. apply conforms_l.
    destruct (NewMemDB_inv (T := T)) as [Hinv Hm]. rewrite <-Hm. exact (contract_conforms MemDB_ops NewMemDB Hinv).
  - exists (of_GoLevelDB db). split; [done|]. simpl. rewrite Hdb. split; [done|]. apply conforms_r, conforms_l.
    exact (contract_conforms (GoLevelDB_ops GetProperty fuel) db (conj Logic.I Hok)).
  - exists (of_CLevelDB db). split; [done|]. simpl. rewrite Hdb. split; [done|]. apply conforms_r, conforms_r, conforms_l.
    exact (contract_conforms (CLevelDB_ops PropertyValue fuel) db (conj (NewCLevelDB_fields name dir db Hdb) Hok)).
  - exists (of_RocksDB db). split; [done|]. simpl. rewrite Hdb. split; [done|].
    apply conforms_r, conforms_r, conforms_r, conforms_l.
    exact (contract_conforms (RocksDB_ops GetPropertyR fuel) db (conj (NewRocksDB_fields name dir db Hdb) Hok)).
  - destruct (proj2 (NewBoltDB_ready ReadOnly OpenB name dir DefaultOptions) d Hro Hopen Hfile) as (db & Hdb & Hok & <-).
    exists (of_BoltDB db). split; [done|]. simpl. unfold NewBoltDB. rewrite Hdb. split; [done|].
    apply conforms_r, conforms_r, conforms_r, conforms_r, conforms_l.
    exact (contract_conforms (BoltDB_ops fmt_stats) db Hok).
  - exists (of_BadgerDB db). split; [done|]. simpl. rewrite Hdb. split; [done|].
    apply conforms_r, conforms_r, conforms_r, conforms_r, conforms_r.
    exact (contract_conforms BadgerDB_ops db (conj Hok Hfull)).
Qed.

(** C29: in whatever order the [init] functions of the files of a build
    run, [NewDB] makes the database that is asked for: an empty one in memory,
    or one with the contents of the files the library has opened (for badger,
    without empty values), on which every session of a client that keeps to the limits and the
    write policy of the backend is answered as on the abstract store:
    bbolt's and badger's limits on keys, values and batches, and no write in the domain of an
    open iterator, or none while any iterator is open for [MemDB] and bbolt.
    An error of the constructor is wrapped; for any other name [NewDB] fails and
    lists exactly the backends of the build. *)
Theorem NewDB_ready (range : gmap string dbCreator → list string) t l name dir
    (new := λ backend, NewDB range (run_inits l backends0) name backend dir) :
  (∀ b, range b ≡ₚ elements (dom b)) → l ≡ₚ build t →
  (∀ backend policy fits m, opens t name dir backend policy fits m → ready DB_ops (new backend) policy fits m) ∧
  (∀ backend creator e, built_in all_creators t backend = Some creator → creator name dir = Err e →
    new backend = Err (errorfW "failed to initialize database" e)) ∧
  (∀ backend, built_in all_creators t backend = None →
    ∃ keys, new backend = Err (errUnknownBackend backend keys) ∧ keys ≡ₚ ((build t).*1).*1).
Proof.
  intros Hrange Hl. rewrite build_inits in *.
  assert (Hnew := λ backend, NewDB_inits range all_creators t l name backend dir Hrange Hl). simpl in Hnew.
  split; [|split].
  - intros backend policy fits m (creator & d & Hb & Hd & (C0 & _ & Hinv & <- & <-))%creator_conforms.
    exists d. split; [|by apply contract_serves]. specialize (Hnew backend). by rewrite Hb, Hd in Hnew.
  - intros backend creator e Hb He. specialize (Hnew backend). by rewrite Hb, He in Hnew.
  - intros backend Hb. specialize (Hnew backend). by rewrite Hb in Hnew.
Qed.

End backends.

(** ** An instance: a build with bbolt, whose other libraries cannot open a file *)

Abbreviation demo_DB := (DB (T := list item) (D := store) (D2 := store) (D3 := store) (BD := RefBolt.db) (GD := store)).

Section instance.
#[local] Instance demo_gl_ops : KVOps store RefKV.cursor (list write) := RefKV.kv_ops (Err ErrNotFound).

Definition no_disk {A} : result A := Err (errorsNew "no disk").
Definition bolt_tags : build_tags :=
  {| t_badgerdb := false; t_boltdb := true; t_cleveldb := false; t_rocksdb := false |}.

(** [bbolt.Open] finds a file whose bucket has one pair. *)
Definition demo_build : list (string * dbCreator (DB := demo_DB) * bool) :=
  build (λ _ (_ : option unit), no_disk)
    tt (λ _ o, o) (λ _ o, o) (λ _ _, no_disk)
    tt (λ _, tt) (λ _ o, o) (λ _, tt) (λ _ o, o) tt (λ _ o, o) (λ _ o, o) (λ _ o, o) (λ _ o, o) 1%Z (λ _ o, o)
    (λ _ _, no_disk)
    (λ b : bool, b) false (λ _ _, Ok ({[ bucket := {[ [x61] := [x01] ]} ]} : RefBolt.db))
    (λ _ : string, tt) (λ _ o, o) (λ o, o) (λ _, no_disk) (λ _, Ok tt) bolt_tags.
Definition demo_ops := @DB_ops (list item) _
  store RefKV.cursor (list write) _ demo_gl_ops (λ _, mret EmptyString)
  store RefKV.cursor (list write) _ (RefKV.kv_ops (Ok None)) (λ _ _, EmptyString)
  store RefKV.cursor (list write) _ (RefKV.kv_ops (Ok None)) (λ _ _, EmptyString)
  RefBolt.db RefBolt.db RefBolt.cursor _ (λ _, EmptyString)
  store store _ _ entry RefBadger.ops 10.

Definition demo_batch_ops := @DBBatch_ops (list item) _
  store RefKV.cursor (list write) demo_gl_ops store RefKV.cursor (list write) (RefKV.kv_ops (Ok None))
  store RefKV.cursor (list write) (RefKV.kv_ops (Ok None))
  RefBolt.db RefBolt.db RefBolt.cursor _ store store _ _ entry RefBadger.ops.

Lemma NewDB_ready_witness :
  let new backend := NewDB (λ b, elements (dom b)) (run_inits (reverse demo_build) backends0) "state" backend "/data" in
  ready demo_ops (new MemDBBackend) Locks no_limits ∅ ∧
  ready demo_ops (new BoltDBBackend) Locks bolt_limits {[ [x61] := [x01] ]} ∧
  new GoLevelDBBackend = Err (errorfW "failed to initialize database" (errorsNew "no disk")) ∧
  ∃ keys, new "leveldb"%string = Err (errUnknownBackend "leveldb" keys) ∧
    keys ≡ₚ [BoltDBBackend; GoLevelDBBackend; MemDBBackend].
Proof.
  pose proof (@NewDB_ready (list item) _
    store RefKV.cursor (list write) _ demo_gl_ops unit (λ _ _, no_disk) (λ _, mret EmptyString)
    store RefKV.cursor (list write) _ (RefKV.kv_ops (Ok None)) unit
    tt (λ _ o, o) (λ _ o, o) (λ _ _, no_disk) (λ _ _, EmptyString)
    store RefKV.cursor (list write) _ (RefKV.kv_ops (Ok None)) unit unit unit unit
    tt (λ _, tt) (λ _ o, o) (λ _, tt) (λ _ o, o) tt (λ _ o, o) (λ _ o, o) (λ _ o, o) (λ _ o, o) 1%Z (λ _ o, o)
    (λ _ _, no_disk) (λ _ _, EmptyString)
    RefBolt.db RefBolt.db RefBolt.cursor _ bool
    (λ b : bool, b) false (λ _ _, Ok ({[ bucket := {[ [x61] := [x01] ]} ]} : RefBolt.db)) (λ _, EmptyString)
    store store _ _ entry RefBadger.ops unit (λ _ : string, tt) (λ _ o, o) (λ o, o) (λ _, no_disk) (λ _, Ok tt) 10
    _ _ (RefKV.kv_laws _) _ (RefKV.kv_laws _) _ (RefKV.kv_laws _) (RefBolt.laws bucket) RefBadger.laws
    (λ b, elements (dom b)) bolt_tags (reverse demo_build) "state" "/data"
    (λ b, Permutation_refl _) (reverse_Permutation _)) as (H1 & H2 & H3).
  intros new. split; [|split; [|split]].
  - apply H1. constructor.
  - change (ready demo_ops (new BoltDBBackend) Locks bolt_limits
      (bolt_model (BoltLaws := RefBolt.laws bucket) ({[ bucket := {[ [x61] := [x01] ]} ]} : RefBolt.db))).
    apply H1. by apply opens_boltdb.
  - exact (H2 GoLevelDBBackend _ _ eq_refl eq_refl).
  - exact (H3 "leveldb"%string eq_refl).
Defined.
End instance.
