(* ===== verification/Durable.v ===== *)
(** * Crashes: what the [Sync] methods promise

    types.go: "SetSync sets the value for the given key, and flushes it to
    storage before returning", and the same for [DeleteSync] and [WriteSync].
    [DurableContract] says so of a database: its state allows some contents
    after a crash, among them the current ones; a call may add the contents it
    leaves, and a [Sync] call that succeeds leaves no other.  For every such
    database, a crash after a program loses at most the calls after the last
    [Sync] call, the last ones first, and batches as a whole; and so it goes on
    when the database is opened again. *)

From S2P Require Import Prelude Go Util Spec Types Client.

(** ** Contents after a crash *)

Definition succeeds {A} (r : result A) : bool := match r with Ok _ => true | _ => false end.

(** From the possible contents [P] to [Q], by a call that leaves [m']. *)
Definition advance (sync : bool) (P Q : store → Prop) (m' : store) : Prop :=
  Q m' ∧ ∀ m, Q m → m = m' ∨ sync = false ∧ P m.

Lemma advance_refl (P : store → Prop) m : P m → advance false P P m.
Proof. split; auto. Qed.

(** A call that reads before, one that reads after, and a flush after a write. *)
Lemma advance_read_l sync P Q R m m' :
  P m → advance false P Q m → advance sync Q R m' → advance sync P R m'.
Proof.
  intros HP [_ HQ] [Hm' HR]. split; [done|]. intros x [->|[Hs [->|[_ ?]]%HQ]]%HR; auto.
Qed.

Lemma advance_read_r s1 s2 P Q R m' :
  advance s1 P Q m' → advance s2 Q R m' → advance (s1 || s2) P R m'.
Proof.
  intros [_ HQ] [Hm' HR]. split; [done|]. intros x [->|[-> [->|[-> ?]]%HQ]]%HR; auto.
Qed.

Lemma advance_weaken P Q m : advance true P Q m → advance false P Q m.
Proof. intros [? HQ]. split; [done|]. intros x [->|[??]]%HQ; auto. Qed.

Definition persists {S A : Type} (crash : S → store → Prop) (model : S → store) (sync : bool)
    (m : M S A) (s : S) : Prop :=
  advance (sync && succeeds (m s).1) (crash s) (crash (m s).2) (model (m s).2).

(** ** The contract *)

Class DurableContract {S I B : Type} `{!IteratorOps I, !BatchOps S B} (ops : DBOps S I B)
    `{!DBContract ops} := {
  db_crash : S → store → Prop;
  batch_crash (bs : B * S) : store → Prop := db_crash bs.2;
  batch_model (bs : B * S) : store := db_model bs.2;
  dur_now s : db_inv s → db_crash s (db_model s);
  dur_Get s key : db_inv s → fits_read db_fits (data key) →
    persists db_crash db_model false (db_Get ops key) s;
  dur_Has s key : db_inv s → fits_read db_fits (data key) →
    persists db_crash db_model false (db_Has ops key) s;
  dur_Set (sync : bool) s key value : db_inv s → set_fits db_fits key value →
    persists db_crash db_model sync ((if sync then db_SetSync ops else db_Set ops) key value) s;
  dur_Delete (sync : bool) s key : db_inv s → delete_fits db_fits key →
    persists db_crash db_model sync ((if sync then db_DeleteSync ops else db_Delete ops) key) s;
  dur_Iterator (rev : bool) s start end_ : db_inv s →
    persists db_crash db_model false
      (if rev then db_ReverseIterator ops start end_ else db_Iterator ops start end_) s;
  dur_NewBatch s : db_inv s → persists db_crash db_model false (db_NewBatch ops) s;
  dur_batch_Set b ws s key value : batch_rep b (Some ws) → db_inv s → set_fits db_fits key value →
    within db_fits (Datatypes.S (length ws)) →
    persists batch_crash batch_model false (b_Set key value) (b, s);
  dur_batch_Delete b ws s key : batch_rep b (Some ws) → db_inv s → delete_fits db_fits key →
    within db_fits (Datatypes.S (length ws)) →
    persists batch_crash batch_model false (b_Delete key) (b, s);
  dur_batch_Write (sync : bool) b ws s : batch_rep b (Some ws) → db_inv s →
    persists batch_crash batch_model sync (if sync then b_WriteSync else b_Write) (b, s);
  dur_batch_Close b s : batch_rep b None → db_inv s →
    persists batch_crash batch_model false b_Close (b, s);
}.

(** ** Programs *)

(** Whether the call flushes: a [Sync] call that is not refused. *)
Definition call_syncs (c : call) (m : store) : bool :=
  match c with
  | CSetSync key value => succeeds (spec_Set m key value).1
  | CDeleteSync key => succeeds (spec_Delete m key).1
  | CBatch _ sync => sync
  | _ => false
  end.

(** How many calls of a program are safe: up to the last one that flushes. *)
Fixpoint synced (cs : list call) (m : store) : nat :=
  match cs with
  | [] => 0
  | c :: cs =>
      let n := synced cs (spec_call c m).2 in
      if call_syncs c m || negb (n =? 0) then S n else 0
  end.

Section programs.
Context {S I B : Type} `{!IteratorOps I, !BatchOps S B} (ops : DBOps S I B).
Context `{!DBContract ops, !DurableContract ops}.

(** The operations of a batch before it is written. *)
Lemma run_batch_calls_persists l b ws s :
  batch_rep b (Some ws) → db_inv s → Forall (batch_call_fits db_fits) l →
  within db_fits (length ws + length l) →
  advance false (db_crash s) (db_crash (run_batch_calls l (b, s)).2.2) (db_model s).
Proof.
  revert b ws s. induction l as [|c l IH]; intros b ws s Hb Hinv Hfit Hlim; [by apply advance_refl, dur_now|].
  apply Forall_cons in Hfit as [Hc Hfit]. simpl in Hlim.
  assert (within db_fits (Datatypes.S (length ws))) as Hone by (eapply within_le, Hlim; lia).
  destruct (run_batch_call_spec ops c b ws s Hb Hinv Hc Hone) as ([b1 s1] & Hrun & Hb1 & Hinv1 & Hm1).
  destruct (spec_batch_call_open ws c) as (ws1 & Hws1 & Hlen). rewrite Hws1 in Hb1. simpl in *.
  assert (persists batch_crash batch_model false (run_batch_call c) (b, s)) as Hp.
  { destruct c; [by eapply dur_batch_Set|by eapply dur_batch_Delete]. }
  unfold persists, batch_crash, batch_model in Hp. rewrite Hrun in *. simpl in Hp.
  specialize (IH b1 ws1 s1 Hb1 Hinv1 Hfit).
  destruct (run_batch_calls l (b1, s1)) as [rs bs] eqn:E. simpl in *. rewrite Hm1 in *.
  eapply advance_read_l; [by apply dur_now|exact Hp|]. apply IH. eapply within_le, Hlim. lia.
Qed.

Lemma run_batch_persists l sync s :
  db_inv s → Forall (batch_call_fits db_fits) l → within db_fits (length l) →
  advance sync (db_crash s) (db_crash (run_batch ops l sync s).2) (spec_call (CBatch l sync) (db_model s)).2.
Proof.
  intros Hinv Hfit Hlim. destruct (run_batch_spec ops l sync s Hinv Hfit Hlim) as (sf & Hf & _ & Hmf).
  rewrite <-Hmf. unfold run_batch in *. pose proof (dur_NewBatch s Hinv) as Hnew. unfold persists in Hnew.
  destruct (law_NewBatch s Hinv) as (b & (s1 & H1 & Hinv1 & Hm1) & Hb). rewrite H1 in *. simpl in Hnew.
  pose proof (run_batch_calls_persists l b [] s1 Hb Hinv1 Hfit Hlim) as Hfill.
  destruct (run_batch_calls_spec ops l b [] s1 Hb Hinv1 Hfit Hlim) as (b2 & s2 & ws & H2 & Hws & Hb2 & Hinv2 & Hm2).
  rewrite H2 in *. simpl in Hfill.
  assert (∃ bs, (if sync then b_WriteSync else b_Write) (b2, s2) = (Ok tt, bs) ∧
    batch_rep bs.1 None ∧ db_inv bs.2) as ([b3 s3] & Hw & Hb3 & Hinv3).
  { destruct sync; [destruct (law_batch_WriteSync b2 ws s2 Hb2 Hinv2) as (bs & ? & ? & ? & _)
                   |destruct (law_batch_Write b2 ws s2 Hb2 Hinv2) as (bs & ? & ? & ? & _)]; eauto. }
  pose proof (dur_batch_Write sync b2 ws s2 Hb2 Hinv2) as Hpw.
  unfold persists, batch_crash, batch_model in Hpw. rewrite Hw in *. simpl in *. rewrite andb_true_r in Hpw.
  pose proof (dur_batch_Close b3 s3 Hb3 Hinv3) as Hpc.
  destruct (law_batch_Close b3 None s3 Hb3 Hinv3) as ([b4 s4] & Hc & _ & _ & Hm4).
  unfold persists, batch_crash, batch_model in Hpc. rewrite Hc in *. simpl in *. injection Hf as _ <-.
  rewrite Hm1 in Hnew, Hfill.
  eapply advance_read_l; [by apply dur_now|exact Hnew|].
  eapply (advance_read_l _ _ _ _ (db_model s)); [rewrite <-Hm1; by apply dur_now|exact Hfill|].
  rewrite <-(orb_false_r sync). eapply advance_read_r; [|exact Hpc]. by rewrite Hm4.
Qed.

Lemma run_call_persists fuel c s :
  db_inv s → call_fits db_fits c → size (db_model s) < fuel →
  advance (call_syncs c (db_model s)) (db_crash s) (db_crash (run_call ops fuel c s).2)
    (spec_call c (db_model s)).2.
Proof.
  intros Hinv Hfit Hfuel. destruct (run_call_spec ops fuel c s Hinv Hfit Hfuel) as (sf & Hf & _ & Hmf).
  destruct c as [key|key|key v|key v|key|key|start end_ rev|l sync]; [..|destruct Hfit; by apply run_batch_persists];
    rewrite <-Hmf; simpl in *.
  - pose proof (dur_Get s key Hinv Hfit) as Hp. unfold persists in Hp.
    destruct (db_Get ops key s). by simplify_eq/=.
  - pose proof (dur_Has s key Hinv Hfit) as Hp. unfold persists in Hp.
    destruct (db_Has ops key s). by simplify_eq/=.
  - pose proof (dur_Set false s key v Hinv Hfit) as Hp. unfold persists in Hp.
    destruct (db_Set ops key v s), (spec_Set (db_model s) key v). by simplify_eq/=.
  - pose proof (dur_Set true s key v Hinv Hfit) as Hp. unfold persists in Hp.
    destruct (db_SetSync ops key v s), (spec_Set (db_model s) key v). by simplify_eq/=.
  - pose proof (dur_Delete false s key Hinv Hfit) as Hp. unfold persists in Hp.
    destruct (db_Delete ops key s), (spec_Delete (db_model s) key). by simplify_eq/=.
  - pose proof (dur_Delete true s key Hinv Hfit) as Hp. unfold persists in Hp.
    destruct (db_DeleteSync ops key s), (spec_Delete (db_model s) key). by simplify_eq/=.
  - pose proof (dur_Iterator rev s start end_ Hinv) as Hp. unfold persists, run_scan, mbind, M_bind in *.
    destruct (if rev then _ else _) as [[it|?|?|] s']; by simplify_eq/=.
Qed.

(** Every possible content is one of the program's, after the last flush; or the
    program flushes nothing and it was possible before. *)
Lemma run_calls_persists fuel cs s m :
  db_inv s → Forall (call_fits db_fits) cs → size (db_model s) + weight cs < fuel →
  db_crash (run_calls ops fuel cs s).2 m →
  (∃ n, synced cs (db_model s) ≤ n ≤ length cs ∧ m = (spec_calls (take n cs) (db_model s)).2) ∨
  synced cs (db_model s) = 0 ∧ db_crash s m.
Proof.
  revert s. induction cs as [|c cs IH]; intros s Hinv Hfit Hfuel Hm; [by right|].
  apply Forall_cons in Hfit as [Hc Hfit]. unfold weight in *. simpl in Hfuel.
  pose proof (run_call_persists fuel c s Hinv Hc) as Hp. simpl in Hm.
  destruct (run_call_spec ops fuel c s Hinv Hc) as (s1 & Hrun & Hinv1 & Hm1); [lia|]. rewrite Hrun in *.
  pose proof (spec_call_size c (db_model s)) as Hsize. cbn [synced].
  destruct (spec_call c (db_model s)) as [a m1] eqn:Hspec. simpl in *. subst m1.
  assert (db_crash (run_calls ops fuel cs s1).2 m) as Hm' by by destruct (run_calls ops fuel cs s1).
  destruct (IH s1 Hinv1 Hfit ltac:(lia) Hm') as [(n & Hn & ->)|[H0 Hcr]].
  - left. exists (Datatypes.S n). split; [destruct (_ || _); lia|]. simpl. rewrite Hspec.
    by destruct (spec_calls (take n cs) (db_model s1)).
  - rewrite H0. simpl. rewrite orb_false_r. specialize (Hp ltac:(lia)).
    apply Hp in Hcr as [->|[-> ?]]; [|by right].
    left. exists 1. split; [destruct (call_syncs _ _); lia|]. simpl. by rewrite Hspec.
Qed.

End programs.

(** ** One crash

    A program on a database with the contents [m], all of them on disk: a crash
    after it leaves what some of its first calls leave, among them every call
    that flushes; the whole program is always possible. *)
Definition survives_one {S I B : Type} `{!IteratorOps I, !BatchOps S B} (ops : DBOps S I B)
    (fits : limits) (crash : S → store → Prop) (s : S) (m : store) : Prop :=
  ∀ fuel cs, Forall (call_fits fits) cs → size m + weight cs < fuel →
  (∀ x, crash s x → x = m) →
  let '(answers, s') := run_calls ops fuel cs s in
  answers = (spec_calls cs m).1 ∧ crash s' (spec_calls cs m).2 ∧
  ∀ x, crash s' x → ∃ n, synced cs m ≤ n ≤ length cs ∧ x = (spec_calls (take n cs) m).2.

Lemma durable_survives_one {S I B : Type} `{!IteratorOps I, !BatchOps S B} (ops : DBOps S I B)
    `{!DBContract ops, !DurableContract ops} s :
  db_inv s → survives_one ops db_fits db_crash s (db_model s).
Proof.
  intros Hinv fuel cs Hfit Hfuel Hclean. pose proof (run_calls_persists ops fuel cs s) as Hp.
  destruct (run_calls_spec ops fuel cs s Hinv Hfit Hfuel) as (s1 & H & Hinv1 & Hm1).
  rewrite H in *. split; [done|]. split; [rewrite <-Hm1; by apply dur_now|].
  intros m Hm. destruct (Hp m Hinv Hfit Hfuel Hm) as [?|[H0 Hcr]]; [done|].
  exists 0. rewrite H0. split; [lia|]. by apply Hclean.
Qed.

(** ** Many crashes

    Round after round, a program runs, the process is killed, and the database
    is opened again: its contents are some the crash may leave, all on disk. *)
Section rounds.
Context {S I B : Type} `{!IteratorOps I, !BatchOps S B} (ops : DBOps S I B).
Context (inv : S → Prop) (model : S → store) (crash : S → store → Prop) (fuel : nat).

Definition on_disk (s : S) : Prop := ∀ x, crash s x → x = model s.

Inductive rounds : S → list (list call) → list (list answer) → S → Prop :=
  | rounds_nil s : rounds s [] [] s
  | rounds_cons s cs answers s1 s2 css ass s' :
      run_calls ops fuel cs s = (answers, s1) →
      inv s2 → crash s1 (model s2) → on_disk s2 →
      rounds s2 css ass s' → rounds s (cs :: css) (answers :: ass) s'.
End rounds.

(** On the abstract store, every round answers in full and keeps some of its
    first calls, among them every call that flushes. *)
Inductive spec_rounds : store → list (list call) → list (list answer) → store → Prop :=
  | spec_rounds_nil m : spec_rounds m [] [] m
  | spec_rounds_cons m cs n css ass m' :
      synced cs m ≤ n ≤ length cs → spec_rounds (spec_calls (take n cs) m).2 css ass m' →
      spec_rounds m (cs :: css) ((spec_calls cs m).1 :: ass) m'.

(** However often the process is killed. *)
Definition survives {S I B : Type} `{!IteratorOps I, !BatchOps S B} (ops : DBOps S I B) (fits : limits)
    (inv : S → Prop) (model : S → store) (crash : S → store → Prop) (s : S) : Prop :=
  on_disk model crash s →
  survives_one ops fits crash s (model s) ∧
  ∀ fuel css ass s', Forall (Forall (call_fits fits)) css → size (model s) + sum_list_with weight css < fuel →
    rounds ops inv model crash fuel s css ass s' → spec_rounds (model s) css ass (model s').

Lemma weight_take n cs : weight (take n cs) ≤ weight cs.
Proof.
  unfold weight. rewrite <-(take_drop n cs) at 2. rewrite sum_list_with_app. lia.
Qed.

Lemma spec_calls_size cs m : size (spec_calls cs m).2 ≤ size m + weight cs.
Proof.
  revert m. induction cs as [|c cs IH]; intros m; [simpl; lia|]. unfold weight in *. simpl.
  pose proof (spec_call_size c m). destruct (spec_call c m) as [a m1]. simpl in *. specialize (IH m1).
  destruct (spec_calls cs m1). simpl in *. lia.
Qed.

Lemma survives_rounds {S I B : Type} `{!IteratorOps I, !BatchOps S B} (ops : DBOps S I B) (fits : limits)
    (inv : S → Prop) (model : S → store) (crash : S → store → Prop) :
  (∀ s, inv s → survives_one ops fits crash s (model s)) →
  ∀ s, inv s → survives ops fits inv model crash s.
Proof.
  intros Hone s Hinv Hdisk. split; [by apply Hone|]. intros fuel css ass s' Hfits Hfuel Hrun. revert Hinv Hdisk Hfits Hfuel.
  induction Hrun as [s|s cs answers s1 s2 css ass s' Hcs Hinv2 Hcrash Hdisk2 Hrun IH]; intros Hinv Hdisk Hfits Hfuel.
  { constructor. }
  apply Forall_cons in Hfits as [Hfit Hfits]. simpl in Hfuel.
  pose proof (Hone s Hinv fuel cs Hfit ltac:(lia) Hdisk) as H. rewrite Hcs in H.
  destruct H as (-> & _ & Hlost). destruct (Hlost _ Hcrash) as (n & Hn & Hm2).
  apply (spec_rounds_cons _ _ n); [done|]. rewrite <-Hm2. apply IH; [done|done|done|].
  rewrite Hm2. pose proof (spec_calls_size (take n cs) (model s)). pose proof (weight_take n cs). lia.
Qed.

Lemma durable_survives {S I B : Type} `{!IteratorOps I, !BatchOps S B} (ops : DBOps S I B)
    `{!DBContract ops, !DurableContract ops} s :
  db_inv s → survives ops db_fits db_inv db_model db_crash s.
Proof. apply survives_rounds. intros s'. apply durable_survives_one. Qed.
