(* ===== verification/DurableBackends.v ===== *)
(** * The backends on disk keep what is synced

    The libraries with their documented durability: [KVDurable] for goleveldb,
    rocksdb and cleveldb (a write is on disk when its option [Sync] is set),
    [BoltDurable] (a transaction is on disk when it has committed),
    [BadgerDurable] ([Sync] writes to disk what is pending).  The backends over
    them, and a PrefixDB over any of these, meet [DurableContract]. *)

From S2P Require Import Prelude Go Util Spec Types Client MemDB MemDBCorrect Cursor KVLib KVBackend Durable.
From S2P Require Import GoLevelDB GoLevelDBCorrect RocksDB RocksDBCorrect CLevelDB CLevelDBCorrect.
From S2P Require Import BoltLib BoltDB BoltDBCorrect BadgerLib BadgerDB BadgerDBCorrect.
From S2P Require Import PrefixDB PrefixDBCorrect.

(** A call that leaves the state and flushes nothing. *)
Lemma persists_same {S A : Type} crash model sync (m : M S A) s r :
  crash s (model s) → m s = (r, s) → sync && succeeds r = false → persists crash model sync m s.
Proof. intros Hc Hm Hr. unfold persists. rewrite Hm. simpl. rewrite Hr. by apply advance_refl. Qed.

Lemma persists_batch_same {B S A : Type} (crash : S → store → Prop) (model : S → store) (m : M (B * S) A) b s :
  crash s (model s) → (m (b, s)).2.2 = s →
  persists (λ bs, crash bs.2) (λ bs, model bs.2) false m (b, s).
Proof. intros Hc Hm. unfold persists. simpl. rewrite Hm. by apply advance_refl. Qed.

(** A method of a field of the state. *)
Lemma on_field_persists {S D A : Type} (proj : S → D) set crash model sync (m : M D A) s :
  (∀ d s, proj (set d s) = d) → persists crash model sync m (proj s) →
  persists (λ s, crash (proj s)) (λ s, model (proj s)) sync (on_field proj set m) s.
Proof.
  intros Hps H. unfold persists, on_field in *. destruct (m (proj s)) as [r d]. simpl in *. by rewrite Hps.
Qed.

(** ** goleveldb, rocksdb, cleveldb *)

Class KVDurable (D C W : Type) (absent : result slice)
    `{!CursorOps C, !CursorLaws C, !KVOps D C W, !KVLaws D C W absent} := {
  lib_crash : D → store → Prop;
  kdur_now d : lib_ok d → lib_crash d (lib_model d);
  kdur_Get d key : lib_ok d → persists lib_crash lib_model false (lib_Get key) d;
  kdur_Put sync d key value : lib_ok d → persists lib_crash lib_model sync (lib_Put sync key value) d;
  kdur_Delete sync d key : lib_ok d → persists lib_crash lib_model sync (lib_Delete sync key) d;
  kdur_Write sync d w : lib_ok d → persists lib_crash lib_model sync (lib_Write sync w) d;
}.

Section kv.
Context {S D C W I B : Type} `{!CursorOps C, !CursorLaws C, !KVOps D C W, !IteratorOps I,
  !BatchOps S B, !CursorWrapper C I}.
Context (absent : result slice) `{!KVLaws D C W absent, !KVDurable D C W absent}.
Context (absent_ok : ∀ v, absent ≠ Ok (Some v)).
Context (ops : DBOps S I B) `{!KVBackend absent ops}.

Definition kb_crash (s : S) : store → Prop := lib_crash (kb_db s).

Lemma kb_now (s : S) : kb_inv absent ops s → kb_crash s (kb_model absent ops s).
Proof. intros [_ H]. by apply kdur_now. Qed.

Lemma kb_call_persists {A} sync (m : M D A) (s : S) :
  persists lib_crash lib_model sync m (kb_db s) →
  persists kb_crash (kb_model absent ops) sync (kb_call m) s.
Proof. apply on_field_persists, kb_db_set. Qed.

Lemma kb_Get_persists (s : S) key :
  kb_inv absent ops s → persists kb_crash (kb_model absent ops) false (db_Get ops key) s.
Proof.
  intros Hinv. destruct (len key =? 0) eqn:Hk.
  { eapply persists_same; [by apply kb_now|rewrite kb_Get; by rewrite Hk|done]. }
  pose proof (kb_call_persists false (lib_Get key) s (kdur_Get _ key (proj2 Hinv))) as H.
  unfold persists in *. rewrite kb_Get, Hk. by destruct (kb_call (lib_Get key) s).
Qed.

Instance kv_durable : DurableContract (DBContract0 := kv_backend_contract absent absent_ok ops) ops.
Proof.
  refine {| db_crash := kb_crash : S → store → Prop |}; simpl.
  - exact kb_now.
  - intros s key Hinv _. by apply kb_Get_persists.
  - intros s key Hinv _. pose proof (kb_Get_persists s key Hinv) as H. unfold persists in *.
    rewrite kb_Has. by destruct (db_Get ops key s).
  - intros sync s key value Hinv _.
    assert (kb_ok s) as Hok by apply Hinv. unfold persists. rewrite kb_Set by done.
    destruct (len key =? 0); [|destruct value as [v|]].
    1, 3: rewrite andb_false_r; by apply advance_refl, kb_now.
    exact (kb_call_persists sync (lib_Put sync key (Some v)) s (kdur_Put _ _ _ _ (proj2 Hinv))).
  - intros sync s key Hinv _.
    assert (kb_ok s) as Hok by apply Hinv. unfold persists. rewrite kb_Delete by done.
    destruct (len key =? 0); [rewrite andb_false_r; by apply advance_refl, kb_now|].
    exact (kb_call_persists sync (lib_Delete sync key) s (kdur_Delete _ _ _ (proj2 Hinv))).
  - intros rev s start end_ Hinv. pose proof (kb_Iterator rev start end_ s) as H.
    unfold persists. destruct rev; simpl in H; rewrite H; destruct (bad_bounds _ _);
      by apply advance_refl, kb_now.
  - intros s Hinv. destruct (kb_NewBatch s) as (b & H & _). by eapply persists_same; [apply kb_now|exact H|].
  - intros b ws s key value Hb Hinv _ _. eapply persists_batch_same; [by apply kb_now|].
    rewrite kb_batch_Set. destruct (len key =? 0), (is_nil value), (kb_batch b); done.
  - intros b ws s key Hb Hinv _ _. eapply persists_batch_same; [by apply kb_now|].
    rewrite kb_batch_Delete. destruct (len key =? 0), (kb_batch b); done.
  - intros sync b ws s Hb Hinv. assert (kb_ok s) as Hok by apply Hinv. unfold persists.
    rewrite kb_batch_Write by done. unfold kb_batch_rep in Hb. destruct (kb_batch b) as [w|]; [|done].
    pose proof (kb_call_persists sync (lib_Write sync w) s (kdur_Write _ _ _ (proj2 Hinv))) as H.
    unfold persists in H. by destruct (kb_call (lib_Write sync w) s).
  - intros b s Hb Hinv. destruct (kb_batch_Close b s) as (b' & H & _).
    eapply persists_batch_same; [by apply kb_now|]. by rewrite H.
Defined.

End kv.

Lemma ErrNotFound_absent (v : bytes) : Err ErrNotFound ≠ Ok (Some v).
Proof. done. Qed.
Lemma nil_absent (v : bytes) : Ok None ≠ Ok (Some v).
Proof. done. Qed.

(** ** bbolt *)

Lemma persists_weaken {S A : Type} crash model sync (m : M S A) s :
  persists crash model true m s → persists crash model sync m s.
Proof. unfold persists. destruct sync; [done|]. simpl. destruct (succeeds _); [apply advance_weaken|done]. Qed.

Class BoltDurable (D Tx Cu : Type) `{!BoltOps D Tx Cu, !BoltLaws D Tx Cu bucket} := {
  bolt_crash : D → store → Prop;
  bodur_now d : bolt_ok d → bolt_crash d (bolt_model d);
  bodur_View {A} (f : M Tx A) d : bolt_ok d → persists bolt_crash bolt_model false (bolt_View f) d;
  bodur_Update f d : bolt_ok d → persists bolt_crash bolt_model true (bolt_Update f) d;
  bodur_Batch f d : bolt_ok d → persists bolt_crash bolt_model true (bolt_Batch f) d;
  bodur_Begin writable d : bolt_ok d → persists bolt_crash bolt_model false (bolt_Begin writable) d;
}.

Section bolt.
Context {D Tx Cu : Type} `{!BoltOps D Tx Cu, !BoltLaws D Tx Cu bucket, !BoltDurable D Tx Cu}.
Context (fmt_stats : BoltStats → string).

Definition bo_crash (db : BoltDB D) : store → Prop := bolt_crash (bo_db db).

Lemma bo_now db : bo_inv db → bo_crash db (bo_model db).
Proof. apply bodur_now. Qed.

Lemma on_bo_persists {A} sync (m : M D A) db :
  persists bolt_crash bolt_model sync m (bo_db db) → persists bo_crash bo_model sync (on_bo m) db.
Proof. by apply on_field_persists. Qed.

Lemma BoltDB_Get_persists key db : bo_inv db → persists bo_crash bo_model false (BoltDB_Get key) db.
Proof.
  intros Hinv. unfold BoltDB_Get. destruct (len key =? 0); [by eapply persists_same; [apply bo_now| |]|].
  by apply on_bo_persists, bodur_View.
Qed.

Lemma BoltDB_Set_persists sync key value db : bo_inv db → persists bo_crash bo_model sync (BoltDB_Set key value) db.
Proof.
  intros Hinv. apply persists_weaken. unfold BoltDB_Set.
  destruct (len key =? 0); [by eapply persists_same; [apply bo_now| |]|].
  destruct (is_nil value); [by eapply persists_same; [apply bo_now| |]|].
  by apply on_bo_persists, bodur_Update.
Qed.

Lemma BoltDB_Delete_persists sync key db : bo_inv db → persists bo_crash bo_model sync (BoltDB_Delete key) db.
Proof.
  intros Hinv. apply persists_weaken. unfold BoltDB_Delete.
  destruct (len key =? 0); [by eapply persists_same; [apply bo_now| |]|].
  by apply on_bo_persists, bodur_Update.
Qed.

Lemma bind_persists {S A B : Type} crash model (m : M S A) (f : A → B) (s : S) :
  persists crash model false m s → persists crash model false (a ← m; mret (f a)) s.
Proof. unfold persists, mbind, M_bind. destruct (m s) as [[a|?|?|] s']; done. Qed.

#[export] Instance BoltDB_durable : DurableContract (BoltDB_ops (D := D) (Tx := Tx) (Cu := Cu) fmt_stats).
Proof.
  refine {| db_crash := bo_crash : BoltDB D → store → Prop |}; simpl.
  - exact bo_now.
  - intros db key Hinv _. by apply BoltDB_Get_persists.
  - intros db key Hinv _. by apply bind_persists, BoltDB_Get_persists.
  - intros [] db key value Hinv _; by apply BoltDB_Set_persists.
  - intros [] db key Hinv _; by apply BoltDB_Delete_persists.
  - intros rev db start end_ Hinv. destruct rev; unfold BoltDB_Iterator, BoltDB_ReverseIterator;
      (case_match; [by eapply persists_same; [apply bo_now| |]|]);
      by apply bind_persists, on_bo_persists, bodur_Begin.
  - intros db Hinv. by eapply persists_same; [apply bo_now| |].
  - intros [l] ws db key value _ Hinv _ _. apply persists_batch_same; [by apply bo_now|]. simpl.
    unfold boltDBBatch_Set. by destruct (len key =? 0), (is_nil value), l.
  - intros [l] ws db key _ Hinv _ _. apply persists_batch_same; [by apply bo_now|]. simpl.
    unfold boltDBBatch_Delete. by destruct (len key =? 0), l.
  - intros sync [[l|]] ws db Hb Hinv; [|done]. apply persists_weaken.
    pose proof (on_bo_persists true (bolt_Batch (bolt_write_ops l)) db (bodur_Batch _ _ Hinv)) as H.
    destruct sync; unfold persists, boltDBBatch_WriteSync, boltDBBatch_Write, mbind, M_bind, on_snd in *; simpl;
      destruct (on_bo (bolt_Batch (bolt_write_ops l)) db) as [[[]|?|?|] db']; exact H.
  - intros b db _ Hinv. by apply persists_batch_same; [apply bo_now|].
Defined.

End bolt.

(** ** badger *)

Class BadgerDurable (D Tx C WB Item : Type) `{!BadgerOps D Tx C WB Item, !BadgerLaws D Tx C WB Item} := {
  bg_crash : D → store → Prop;
  bgdur_now d : bg_ok d → bg_crash d (bg_model d);
  bgdur_View {A} (f : M Tx A) d : bg_ok d → persists bg_crash bg_model false (bg_View f) d;
  bgdur_Update f d : bg_ok d → persists bg_crash bg_model false (bg_Update f) d;
  bgdur_Sync d : bg_ok d → persists bg_crash bg_model true bg_Sync d;
  (** a batch that fits one transaction *)
  bgdur_wb_Set key value wb ws d : wb_open wb ws → bg_ok d → length ws < txn_limit →
    persists (λ bd, bg_crash bd.2) (λ bd, bg_model bd.2) false (bwb_Set key value) (wb, d);
  bgdur_wb_Delete key wb ws d : wb_open wb ws → bg_ok d → length ws < txn_limit →
    persists (λ bd, bg_crash bd.2) (λ bd, bg_model bd.2) false (bwb_Delete key) (wb, d);
  bgdur_wb_Flush wb ws d : wb_open wb ws → bg_ok d →
    persists (λ bd, bg_crash bd.2) (λ bd, bg_model bd.2) false bwb_Flush (wb, d);
}.

Section badger.
Context {D Tx C WB Item : Type} `{!BadgerOps D Tx C WB Item, !BadgerLaws D Tx C WB Item,
  !BadgerDurable D Tx C WB Item}.

Definition bgd_crash (db : BadgerDB D) : store → Prop := bg_crash (bg_db db).
Abbreviation batch_persists := (persists (λ bs, bgd_crash bs.2) (λ bs, bgd_model bs.2)).

Lemma bgd_now db : bgd_inv db → bgd_crash db (bgd_model db).
Proof. intros [? _]. by apply bgdur_now. Qed.

Lemma on_bg_persists {A} sync (m : M D A) db :
  persists bg_crash bg_model sync m (bg_db db) → persists bgd_crash bgd_model sync (on_bg m) db.
Proof. by apply on_field_persists. Qed.

Lemma on_wb_persists {A} sync (m : M (WB * D) A) (b : badgerDBBatch WB) db :
  persists (λ bd, bg_crash bd.2) (λ bd, bg_model bd.2) sync m (bgb_wb b, bg_db db) →
  batch_persists sync (on_wb m) (b, db).
Proof. unfold persists, on_wb. by destruct (m (bgb_wb b, bg_db db)) as [r [wb d]]. Qed.

(** [Sync] after a write that succeeded. *)
Lemma withSync_persists (m : M (BadgerDB D) unit) db r :
  persists bgd_crash bgd_model false m db → reply m db r bgd_inv →
  persists bgd_crash bgd_model true (withSync (on_bg bg_Sync) m) db.
Proof.
  intros Hp (db' & Hm & [Hok Hfull]). unfold persists, withSync, mbind, M_bind in *. rewrite Hm in *. simpl in Hp.
  destruct r as [[]|?|?|]; try exact Hp. simpl.
  pose proof (on_bg_persists true bg_Sync db' (bgdur_Sync _ Hok)) as Hs. unfold persists in Hs.
  destruct (on_bg_reply bg_Sync db' _ _ Hfull (bglaw_Sync _ Hok)) as (db2 & H2 & _ & Hm2).
  rewrite H2 in *. simpl in *. rewrite Hm2 in *. exact (advance_read_r false true _ _ _ _ Hp Hs).
Qed.

Lemma BadgerDB_Set_persists key value db : bgd_inv db → persists bgd_crash bgd_model false (BadgerDB_Set key value) db.
Proof.
  intros Hinv. unfold BadgerDB_Set. destruct (len key =? 0); [by eapply persists_same; [apply bgd_now| |]|].
  destruct (is_nil value); [by eapply persists_same; [apply bgd_now| |]|].
  by apply on_bg_persists, bgdur_Update, Hinv.
Qed.

Lemma BadgerDB_Delete_persists key db : bgd_inv db → persists bgd_crash bgd_model false (BadgerDB_Delete key) db.
Proof.
  intros Hinv. unfold BadgerDB_Delete. destruct (len key =? 0); [by eapply persists_same; [apply bgd_now| |]|].
  by apply on_bg_persists, bgdur_Update, Hinv.
Qed.

Lemma badgerDBBatch_Write_persists b ws db : bgb_rep b (Some ws) → bgd_inv db →
  batch_persists false badgerDBBatch_Write (b, db).
Proof.
  intros (Hf & Hopen & _) Hinv. destruct b as [wb f]. simpl in Hf, Hopen. subst f.
  exact (on_wb_persists false bwb_Flush {| bgb_wb := wb; bgb_firstFlush := false |} db
    (bgdur_wb_Flush wb ws _ Hopen (proj1 Hinv))).
Qed.

Lemma badgerDBBatch_WriteSync_persists b ws db : bgb_rep b (Some ws) → bgd_inv db →
  batch_persists true badgerDBBatch_WriteSync (b, db).
Proof.
  intros Hb Hinv. pose proof (badgerDBBatch_Write_persists b ws db Hb Hinv) as Hp.
  destruct (badgerDBBatch_Write_spec b ws db Hb Hinv) as ([b' db'] & Hw & _ & [Hok Hfull] & _).
  unfold persists, badgerDBBatch_WriteSync, withSync, mbind, M_bind in *. rewrite Hw in *. simpl in *.
  pose proof (on_bg_persists true bg_Sync db' (bgdur_Sync _ Hok)) as Hs. unfold persists in Hs.
  destruct (on_bg_reply bg_Sync db' _ _ Hfull (bglaw_Sync _ Hok)) as (db2 & H2 & _ & Hm2).
  rewrite H2 in *. simpl in *. rewrite Hm2 in *. exact (advance_read_r false true _ _ _ _ Hp Hs).
Qed.

#[export] Instance BadgerDB_durable : DurableContract (BadgerDB_ops (D := D) (Tx := Tx) (C := C) (WB := WB)).
Proof.
  refine {| db_crash := bgd_crash : BadgerDB D → store → Prop |}; simpl.
  - exact bgd_now.
  - intros db key Hinv _. unfold BadgerDB_Get.
    destruct (len key =? 0); [by eapply persists_same; [apply bgd_now| |]|].
    by apply on_bg_persists, bgdur_View, Hinv.
  - intros db key Hinv _. unfold BadgerDB_Has.
    destruct (len key =? 0); [by eapply persists_same; [apply bgd_now| |]|].
    by apply on_bg_persists, bgdur_View, Hinv.
  - intros [] db key value Hinv Hfit; [|by apply BadgerDB_Set_persists].
    eapply withSync_persists; [by apply BadgerDB_Set_persists|].
    eapply reply_mono; [by apply BadgerDB_Set_spec|]. by intros ? [? _].
  - intros [] db key Hinv Hfit; [|by apply BadgerDB_Delete_persists].
    eapply withSync_persists; [by apply BadgerDB_Delete_persists|].
    eapply reply_mono; [by apply BadgerDB_Delete_spec|]. by intros ? [? _].
  - intros rev db start end_ Hinv. destruct rev;
      unfold BadgerDB_Iterator, BadgerDB_ReverseIterator, BadgerDB_iteratorOpts;
      (case_match; by eapply persists_same; [apply bgd_now| |]).
  - intros db Hinv. by eapply persists_same; [apply bgd_now| |].
  - intros b ws db key value (_ & Hopen & _) Hinv _ Hlim. unfold badgerDBBatch_Set.
    destruct (len key =? 0); [by apply persists_batch_same; [apply bgd_now|]|].
    destruct (is_nil value); [by apply persists_batch_same; [apply bgd_now|]|].
    by eapply on_wb_persists, bgdur_wb_Set; [exact Hopen|apply Hinv|].
  - intros b ws db key (_ & Hopen & _) Hinv _ Hlim. unfold badgerDBBatch_Delete.
    destruct (len key =? 0); [by apply persists_batch_same; [apply bgd_now|]|].
    by eapply on_wb_persists, bgdur_wb_Delete; [exact Hopen|apply Hinv|].
  - intros [] b ws db Hb Hinv; [by eapply badgerDBBatch_WriteSync_persists|by eapply badgerDBBatch_Write_persists].
  - intros b db _ Hinv. by apply persists_batch_same; [apply bgd_now|].
Defined.

End badger.

(** ** PrefixDB *)

Lemma persists_image {S A : Type} (crash : S → store → Prop) (model : S → store) (f : store → store) sync (m : M S A) (s : S) :
  persists crash model sync m s →
  persists (λ s x, ∃ y, crash s y ∧ x = f y) (λ s, f (model s)) sync m s.
Proof.
  intros [Hc Hall]. split; [by eexists|]. intros x (y & Hy & ->).
  apply Hall in Hy as [->|[? ?]]; [by left|]. right. eauto.
Qed.

(** A call, then a pure function of its result that may fail. *)
Lemma lift_persists {S A B : Type} crash model (m : M S A) (f : A → result B) (s : S) :
  persists crash model false m s → persists crash model false (a ← m; lift_result (f a)) s.
Proof. unfold persists, mbind, M_bind. destruct (m s) as [[a|?|?|] s']; done. Qed.

Section prefix.
Context {S I B : Type} `{!IteratorOps I, !BatchOps S B} (db : DBOps S I B).
Context `{!DBContract db, !DurableContract db} (prefix : slice) (fuel : nat).
Context (prefix_ne : data prefix ≠ []) (m0 : store).
Let p : bytes := data prefix.

(** The namespace of a possible content. *)
Definition PrefixDB_crash (s : S) (x : store) : Prop := ∃ y, db_crash s y ∧ x = prefix_view p y.
Abbreviation inv := (PrefixDB_inv db prefix m0).
Abbreviation model := (PrefixDB_model db prefix).

Lemma PrefixDB_now s : inv s → PrefixDB_crash s (model s).
Proof. intros [H _]. eexists. split; [by apply dur_now|done]. Qed.

Lemma PrefixDB_persists {A} sync (m : M S A) s :
  persists db_crash db_model sync m s → persists PrefixDB_crash model sync m s.
Proof. apply (persists_image _ _ (prefix_view p)). Qed.

Lemma on_batch_persists {A} sync (m : M (B * S) A) (pb : prefixDBBatch B) s :
  persists batch_crash batch_model sync m (pb_source pb, s) →
  persists (λ bs, PrefixDB_crash bs.2) (λ bs, model bs.2) sync (on_batch m) (pb, s).
Proof.
  intros [Hc Hall]%(persists_image _ _ (prefix_view p)). unfold persists, on_batch.
  destruct (m (pb_source pb, s)) as [r [b s']]. done.
Qed.

Lemma PrefixDB_iterator_persists (rev : bool) s start end_ : inv s →
  persists PrefixDB_crash model false
    (if rev then PrefixDB_ReverseIterator db prefix start end_ else PrefixDB_Iterator db prefix start end_) s.
Proof.
  intros Hinv. destruct rev; unfold PrefixDB_Iterator, PrefixDB_ReverseIterator;
    (case_match; [by eapply persists_same; [apply PrefixDB_now| |]|]);
    (destruct (prefix_end prefix end_) as [pend|?|?|];
      [|by eapply persists_same; [apply PrefixDB_now| |]..]).
  - apply (lift_persists _ _ (db_ReverseIterator db (append (cp prefix) start) pend)), PrefixDB_persists.
    exact (dur_Iterator true s _ _ (proj1 Hinv)).
  - apply (lift_persists _ _ (db_Iterator db (append (cp prefix) start) pend)), PrefixDB_persists.
    exact (dur_Iterator false s _ _ (proj1 Hinv)).
Qed.

Definition PrefixDB_durable (Hno : no_overshoot p m0) :
  DurableContract (DBContract0 := PrefixDB_contract db prefix fuel prefix_ne m0 Hno) (NewPrefixDB db fuel prefix).
Proof using All.
  refine {| db_crash := PrefixDB_crash : S → store → Prop |}; simpl.
  - exact PrefixDB_now.
  - intros s key Hinv Hfit. unfold PrefixDB_Get.
    destruct (len key =? 0); [by eapply persists_same; [apply PrefixDB_now| |]|].
    by apply bind_persists, PrefixDB_persists, dur_Get; [apply Hinv|].
  - intros s key Hinv Hfit. unfold PrefixDB_Has.
    destruct (len key =? 0); [by eapply persists_same; [apply PrefixDB_now| |]|].
    by apply bind_persists, PrefixDB_persists, dur_Has; [apply Hinv|].
  - intros sync s key value Hinv Hfit.
    pose proof (dur_Set sync s (prefixed prefix key) value (proj1 Hinv)) as H.
    destruct sync; unfold PrefixDB_SetSync, PrefixDB_Set;
      (destruct (len key =? 0); [by eapply persists_same; [apply PrefixDB_now| |]|]);
      (destruct value as [v|]; [|by eapply persists_same; [apply PrefixDB_now| |]]);
      by apply PrefixDB_persists, H.
  - intros sync s key Hinv Hfit.
    pose proof (dur_Delete sync s (prefixed prefix key) (proj1 Hinv)) as H.
    destruct sync; unfold PrefixDB_DeleteSync, PrefixDB_Delete;
      (destruct (len key =? 0); [by eapply persists_same; [apply PrefixDB_now| |]|]);
      by apply PrefixDB_persists, H.
  - exact PrefixDB_iterator_persists.
  - intros s Hinv. by apply bind_persists, PrefixDB_persists, dur_NewBatch, Hinv.
  - intros pb ws s key value (Hp & Hb & _) Hinv Hfit Hlim. unfold prefixDBBatch_Set.
    destruct (len key =? 0); [by apply persists_batch_same; [apply PrefixDB_now|]|].
    destruct value as [v|]; [|by apply persists_batch_same; [apply PrefixDB_now|]]. simpl.
    eapply (on_batch_persists false (b_Set (append (cp (pb_prefix pb)) key) (Some v))). rewrite Hp.
    eapply dur_batch_Set; [exact Hb|apply Hinv|done|by apply prefixed_within].
  - intros pb ws s key (Hp & Hb & _) Hinv Hfit Hlim. unfold prefixDBBatch_Delete.
    destruct (len key =? 0); [by apply persists_batch_same; [apply PrefixDB_now|]|].
    eapply (on_batch_persists false (b_Delete (append (cp (pb_prefix pb)) key))). rewrite Hp.
    eapply dur_batch_Delete; [exact Hb|apply Hinv|done|by apply prefixed_within].
  - intros sync pb ws s (Hp & Hb & _) Hinv.
    pose proof (dur_batch_Write sync (pb_source pb) _ s Hb (proj1 Hinv)) as H.
    destruct sync; by apply on_batch_persists.
  - intros pb s (_ & Hb & _) Hinv. by apply on_batch_persists, dur_batch_Close; [|apply Hinv].
Defined.

End prefix.
