(* ===== verification/DurableThms.v ===== *)
(** * What survives a crash, on each backend *)

From S2P Require Import Prelude Go Util Spec Types Client MemDB MemDBCorrect Cursor KVLib KVBackend Durable DurableBackends.
From S2P Require Import GoLevelDB GoLevelDBCorrect RocksDB RocksDBCorrect CLevelDB CLevelDBCorrect.
From S2P Require Import BoltLib BoltDB BoltDBCorrect BadgerLib BadgerDB BadgerDBCorrect.
From S2P Require Import PrefixDB PrefixDBCorrect.

Section backends.
Context {D C W : Type} `{!CursorOps C, !CursorLaws C, !KVOps D C W} `{!KVLaws D C W (Err ErrNotFound)}.
Context `{!KVDurable D C W (Err ErrNotFound)}.
Context {D' C' W' : Type} `{!CursorOps C', !CursorLaws C', !KVOps D' C' W'} `{!KVLaws D' C' W' (Ok None)}.
Context `{!KVDurable D' C' W' (Ok None)}.
Context {BD BTx BCu : Type} `{!BoltOps BD BTx BCu, !BoltLaws BD BTx BCu bucket, !BoltDurable BD BTx BCu}.
Context {GD GTx GC GWB GItem : Type} `{!BadgerOps GD GTx GC GWB GItem, !BadgerLaws GD GTx GC GWB GItem}.
Context `{!BadgerDurable GD GTx GC GWB GItem}.
Context {S I B : Type} `{!IteratorOps I, !BatchOps S B} (db : DBOps S I B) `{!DBContract db, !DurableContract db}.

(** The databases the constructors make. *)
Definition rocks_opened (db : RocksDB D') : Prop :=
  (RocksDB.wo_sync (rk_wo db) = false ∧ RocksDB.wo_sync (rk_woSync db) = true) ∧ lib_ok (rk_db db).
Definition clevel_opened (db : CLevelDB D') : Prop :=
  (CLevelDB.wo_sync (cl_wo db) = false ∧ CLevelDB.wo_sync (cl_woSync db) = true) ∧ lib_ok (cl_db db).
Definition badger_opened (db : BadgerDB GD) : Prop := bg_ok (bg_db db) ∧ full_store (bg_model (bg_db db)).
(** Any durable database, when no key that lacks the prefix is in the way of a
    reverse scan. *)
Definition prefix_opened (prefix : slice) (s : S) : Prop := db_inv s ∧ no_overshoot (data prefix) (db_model s).

(** C12: on every backend that keeps its data on disk, also through a
    PrefixDB over such a database: round after round a program of calls runs, the
    process is killed, and the database is opened again.  Every call is answered as by the
    abstract store; what is found at each opening is what some of the first calls
    of the round leave; every [SetSync], [DeleteSync] and [WriteSync] that
    succeeded is among them with the calls before it, and a batch is there as a
    whole or not at all.  The database starts with all its contents on disk; the
    calls are within the limits of bbolt and badger; badger
    starts without empty values; the prefix of the PrefixDB is not empty and the
    database below holds, at the start and whenever it is opened again, no key that
    [cpIncr] fails to exclude from its namespace. *)
Theorem synced_writes_survive :
  (∀ prop fuel (db : GoLevelDB D), lib_ok (gl_db db) →
    survives (GoLevelDB_ops prop fuel) no_limits (λ db, lib_ok (gl_db db)) (λ db, lib_model (gl_db db))
      (λ db, lib_crash (gl_db db)) db) ∧
  (∀ prop fuel (db : RocksDB D'), rocks_opened db →
    survives (RocksDB_ops prop fuel) no_limits rocks_opened (λ db, lib_model (rk_db db))
      (λ db, lib_crash (rk_db db)) db) ∧
  (∀ prop fuel (db : CLevelDB D'), clevel_opened db →
    survives (CLevelDB_ops prop fuel) no_limits clevel_opened (λ db, lib_model (cl_db db))
      (λ db, lib_crash (cl_db db)) db) ∧
  (∀ fmt (db : BoltDB BD), bolt_ok (bo_db db) →
    survives (BoltDB_ops fmt) bolt_limits (λ db, bolt_ok (bo_db db)) (λ db, bolt_model (bo_db db))
      (λ db, bolt_crash (bo_db db)) db) ∧
  (∀ db : BadgerDB GD, badger_opened db →
    survives (BadgerDB_ops (D := GD) (Tx := GTx) (C := GC) (WB := GWB)) badger_limits badger_opened
      (λ db, bg_model (bg_db db)) (λ db, bg_crash (bg_db db)) db) ∧
  (∀ prefix fuel (s : S), data prefix ≠ [] → prefix_opened prefix s →
    survives (NewPrefixDB db fuel prefix) (PrefixDB_fits db prefix) (prefix_opened prefix)
      (λ s, prefix_view (data prefix) (db_model s))
      (λ s x, ∃ y, db_crash s y ∧ x = prefix_view (data prefix) y) s).
Proof.
  split; [|split; [|split; [|split; [|split]]]].
  - intros prop fuel d H. revert d H. apply survives_rounds. intros d H.
    exact (durable_survives_one _ (DurableContract0 := kv_durable (Err ErrNotFound) ErrNotFound_absent (GoLevelDB_ops prop fuel))
      d (conj Logic.I H)).
  - intros prop fuel d H.
    exact (durable_survives _ (DurableContract0 := kv_durable (Ok None) nil_absent (RocksDB_ops prop fuel)) d H).
  - intros prop fuel d H.
    exact (durable_survives _ (DurableContract0 := kv_durable (Ok None) nil_absent (CLevelDB_ops prop fuel)) d H).
  - intros fmt d H. exact (durable_survives (BoltDB_ops fmt) d H).
  - intros d H. exact (durable_survives BadgerDB_ops d H).
  - intros prefix fuel s Hp. revert s. apply survives_rounds. intros s [Hinv Hno].
    exact (durable_survives_one _ (DurableContract0 := PrefixDB_durable db prefix fuel Hp (db_model s) Hno) s
      (conj Hinv (ns_ok_refl _ _))).
Qed.

End backends.

(** ** Instances

    A library with a write-ahead log: the contents, and those a crash may fall
    back to. *)

Module RefDisk.

Abbreviation disk := (store * list store)%type.

Definition write (sync : bool) (f : store → store) (d : disk) : disk :=
  (f d.1, if sync then [] else d.1 :: d.2).
Definition crash (d : disk) (m : store) : Prop := m = d.1 ∨ m ∈ d.2.

Lemma write_advance (sync : bool) (f : store → store) (d : disk) :
  advance sync (crash d) (crash (write sync f d)) (write sync f d).1.
Proof.
  split; [by left|]. unfold crash. destruct sync; simpl; intros x [->|Hx]; auto.
  - by apply elem_of_nil in Hx.
  - apply elem_of_cons in Hx as [->|Hx]; auto.
Qed.

Section ref.
Context (absent : result slice).

Instance kv_ops : KVOps disk RefKV.cursor (list Spec.write) := {|
  lib_Get key d := (match d.1 !! data key with Some v => Ok (Some v) | None => absent end, d);
  lib_Put sync key value d := (Ok tt, write sync <[data key := data value]> d);
  lib_Delete sync key d := (Ok tt, write sync (delete (data key)) d);
  lib_Write sync ws d := (Ok tt, write sync (apply_writes ws) d);
  lib_NewIterator r d :=
    RefKV.Cursor (match r with None => entries d.1 | Some (s, e) => scan d.1 s e false end) None;
  lib_Close := mret tt;
  wb_New := [];
  wb_Put key value ws := ws ++ [WSet (data key) (data value)];
  wb_Delete key ws := ws ++ [WDelete (data key)];
  wb_Release _ := [];
|}.

Instance kv_laws : KVLaws disk RefKV.cursor (list Spec.write) absent.
Proof.
  refine {| lib_ok _ := True; lib_model d := d.1; wb_rep := eq |}; simpl; intros; subst;
    try done; by eexists.
Defined.

Instance kv_durable : KVDurable disk RefKV.cursor (list Spec.write) absent.
Proof.
  refine {| lib_crash := crash : disk → store → Prop |}; unfold persists; simpl; intros.
  - by left.
  - apply advance_refl. by left.
  - rewrite andb_true_r. apply write_advance.
  - rewrite andb_true_r. apply write_advance.
  - rewrite andb_true_r. apply write_advance.
Defined.

End ref.

(** Libraries that write to disk at once. *)
Lemma at_once {S A : Type} (model : S → store) sync (m : M S A) (s : S) :
  persists (λ s x, x = model s) model sync m s.
Proof. split; [done|]. intros x ->. by left. Qed.

Instance bolt_durable : BoltDurable RefBolt.db RefBolt.db RefBolt.cursor (BoltLaws0 := RefBolt.laws bucket).
Proof. refine {| bolt_crash d m := m = RefBolt.contents bucket d |}; intros; done || apply at_once. Defined.

Instance badger_durable :
  BadgerDurable store store (bool * list entry * option nat) (option (list Spec.write)) entry (BadgerLaws0 := RefBadger.laws).
Proof. refine {| bg_crash d m := m = d |}; intros; done || apply at_once || apply (at_once snd). Defined.

End RefDisk.

(** Two writes are flushed; the three after them may be lost, the last first. *)
Definition crash_program : list call :=
  [CSet (Some [x61]) (Some [x01]); CSetSync (Some [x62]) (Some [x02]);
   CBatch [BDelete (Some [x61]); BSet (Some [x63]) (Some [x03])] false;
   CSetSync None (Some [x04]); CDelete (Some [x62])].

#[local] Instance disk_kv_ops : KVOps RefDisk.disk RefKV.cursor (list write) := RefDisk.kv_ops (Err ErrNotFound).
Definition clean_db (m : store) : GoLevelDB RefDisk.disk := {| gl_db := (m, []) |}.
Definition disk_ops := GoLevelDB_ops (λ _, mret EmptyString) 10.
Definition disk_run := run_calls disk_ops 20 crash_program (clean_db ∅).

Example crash_program_disk :
  let d := gl_db disk_run.2 in
  (entries d.1, entries <$> d.2) =
  ([([x63], [x03])], [[([x62], [x02]); ([x63], [x03])]; [([x61], [x01]); ([x62], [x02])]]).
Proof. vm_compute. reflexivity. Qed.

(** The first crash loses the last call; the program of the second round reads
    what is left, deletes a key and flushes, and its last call is lost again. *)
Definition fallback (db : GoLevelDB RefDisk.disk) : store := default ∅ ((gl_db db).2 !! 0).
Definition second_program : list call := [CGet (Some [x62]); CDeleteSync (Some [x63]); CSet (Some [x64]) (Some [x05])].
Definition left_over : store := fallback disk_run.2.
Definition second_run := run_calls disk_ops 20 second_program (clean_db left_over).
Definition final : store := fallback second_run.2.

Example two_rounds_stores : (entries left_over, second_run.1, entries final) =
  ([([x62], [x02]); ([x63], [x03])], [AValue (Ok (Some [x02])); AUnit (Ok tt); AUnit (Ok tt)], [([x62], [x02])]).
Proof. vm_compute. reflexivity. Qed.

Abbreviation disk_rounds := (rounds disk_ops (λ _, True) (λ db, (gl_db db).1) (λ db, RefDisk.crash (gl_db db)) 20).

Lemma clean_on_disk m : on_disk (λ db, (gl_db db).1) (λ db, RefDisk.crash (gl_db db)) (clean_db m).
Proof. intros x [?|Hx]; [done|by apply elem_of_nil in Hx]. Qed.

Lemma fallback_crash db : (length (gl_db db).2 =? 0) = false → RefDisk.crash (gl_db db) (fallback db).
Proof.
  unfold fallback. intros H. right. destruct (gl_db db).2 as [|x l]; [done|]. by apply list_elem_of_here.
Qed.

Lemma two_rounds :
  disk_rounds (clean_db ∅) [crash_program; second_program] [disk_run.1; second_run.1] (clean_db final).
Proof.
  assert (H1 : (length (gl_db disk_run.2).2 =? 0) = false) by (vm_compute; reflexivity).
  assert (H2 : (length (gl_db second_run.2).2 =? 0) = false) by (vm_compute; reflexivity).
  refine (rounds_cons _ _ _ _ _ _ _ _ disk_run.2 (clean_db left_over) _ _ _ (surjective_pairing disk_run)
    Logic.I (fallback_crash _ H1) (clean_on_disk _) _).
  refine (rounds_cons _ _ _ _ _ _ _ _ second_run.2 (clean_db final) _ _ _ (surjective_pairing second_run)
    Logic.I (fallback_crash _ H2) (clean_on_disk _) (rounds_nil _ _ _ _ _ _)).
Qed.

Lemma synced_writes_survive_witness :
  synced crash_program ∅ = 2 ∧ synced second_program left_over = 2 ∧
  spec_rounds ∅ [crash_program; second_program]
    [disk_run.1; second_run.1] final.
Proof.
  split; [vm_compute; reflexivity|]. split; [vm_compute; reflexivity|].
  pose proof (@synced_writes_survive _ _ _ _ _ _ (RefDisk.kv_laws _) (RefDisk.kv_durable _)
    _ _ _ _ _ _ (RefDisk.kv_laws _) (RefDisk.kv_durable _)
    _ _ _ _ _ RefDisk.bolt_durable _ _ _ _ _ _ _ RefDisk.badger_durable
    _ _ _ _ _ (BoltDB_ops (λ _, EmptyString)) (BoltDB_contract _)
    (BoltDB_durable (BoltDurable0 := RefDisk.bolt_durable) _)) as H.
  refine (proj2 (proj1 H (λ _, mret EmptyString) 10 (clean_db ∅) Logic.I _) 20 _ _ _ _ _ two_rounds).
  - intros x [?|Hx]; [done|by apply elem_of_nil in Hx].
  - repeat (constructor; try done).
  - vm_compute. lia.
Defined.
