(* ===== verification/Heap.v ===== *)
(** * Byte slices in memory: which slices share an array

    The other files take a slice for its contents.  This file has the arrays
    behind the slices and the functions that copy, write and slice them, as the
    sources do: [cp] and [cpIncr] of util.go, [prefixed] of prefixdb.go, the
    copies and suffixes the iterators of bbolt and PrefixDB return, and
    [moveSliceToBytes] of rocksdb_iterator.go with the memory of the C library
    (HeapIter.v has the [Key] methods of the iterators).
    The theorems justify the other files: each of these functions returns what
    its pure counterpart computes and leaves every array that existed as it
    was. *)

From S2P Require Import Prelude Go Util Spec Types RocksDB PrefixDB.

(** ** Memory *)

(** The arrays, by address; allocation takes the next address. *)
Abbreviation heap := (list bytes).

(** A slice that is not nil: address and offset, [len], [cap]. *)
Record header := Hdr { s_ptr : nat; s_off : nat; s_len : nat; s_cap : nat }.
Abbreviation gslice := (option header).

Definition g_len (s : gslice) : nat := match s with None => 0 | Some x => s_len x end.
Definition g_cap (s : gslice) : nat := match s with None => 0 | Some x => s_cap x end.

Definition contents (h : heap) (s : gslice) : bytes :=
  match s with
  | None => []
  | Some x => take (s_len x) (drop (s_off x) (default [] (h !! s_ptr x)))
  end.
(** The slice of the other files. *)
Definition view (h : heap) (s : gslice) : slice := (λ _, contents h s) <$> s.

Definition wf (h : heap) (s : gslice) : Prop :=
  match s with
  | None => True
  | Some x => s_len x ≤ s_cap x ∧ ∃ a, h !! s_ptr x = Some a ∧ s_off x + s_cap x ≤ length a
  end.

(** ** The operations of the language *)

(** [make([]byte, n)] *)
Definition make_bytes (n : nat) : M heap gslice := λ h,
  (Ok (Some (Hdr (length h) 0 n n)), h ++ [replicate n x00]).

Definition write_array (i : nat) (bs a : bytes) : bytes := take i a ++ bs ++ drop (i + length bs) a.

(** [s[i]] and [s[i] = b] *)
Definition g_index (s : gslice) (i : nat) : M heap byte := λ h,
  match contents h s !! i with
  | Some b => (Ok b, h)
  | None => (Panic "index out of range", h)
  end.
Definition g_store (s : gslice) (i : nat) (b : byte) : M heap unit := λ h,
  match s with
  | Some x => if i <? s_len x then (Ok tt, alter (write_array (s_off x + i) [b]) (s_ptr x) h)
              else (Panic "index out of range", h)
  | None => (Panic "index out of range", h)
  end.

(** [copy(dst, src)], for the bytes of [src] *)
Definition g_write (dst : gslice) (src : bytes) : M heap nat := λ h,
  let bs := take (g_len dst) src in
  (Ok (length bs),
   match dst with None => h | Some d => alter (write_array (s_off d) bs) (s_ptr d) h end).
Definition g_copy (dst src : gslice) : M heap nat := λ h, g_write dst (contents h src) h.

(** [s[lo:]] *)
Definition g_slice_from (s : gslice) (lo : nat) : M heap gslice := λ h,
  if lo <=? g_len s then
    (Ok ((λ x, Hdr (s_ptr x) (s_off x + lo) (s_len x - lo) (s_cap x - lo)) <$> s), h)
  else (Panic "slice bounds out of range", h).

Section append.
(** The capacity of the array [append] allocates, for the old capacity and the
    length it needs. *)
Context (grow : nat → nat → nat).

(** [append(s, t...)]: in place when the capacity allows, else in a new array *)
Definition g_append (s t : gslice) : M heap gslice := λ h,
  let ts := contents h t in
  let n := g_len s + length ts in
  if n <=? g_cap s then
    match s with
    | None => (Ok None, h)
    | Some x =>
        (Ok (Some (Hdr (s_ptr x) (s_off x) n (s_cap x))),
         alter (write_array (s_off x + s_len x) ts) (s_ptr x) h)
    end
  else
    let c := grow (g_cap s) n in
    (Ok (Some (Hdr (length h) 0 n c)), h ++ [contents h s ++ ts ++ replicate (c - n) x00]).

(** ** The functions of the sources *)

(** util.go: [cp], [cpIncr] *)
Definition h_cp (bz : gslice) : M heap gslice :=
  ret ← make_bytes (g_len bz);
  _ ← g_copy ret bz;
  mret ret.

Fixpoint h_cpIncr_loop (n : nat) (ret : gslice) : M heap gslice :=
  match n with
  | O => mret None
  | S i =>
      b ← g_index ret i;
      if (Byte.to_N b <? 255)%N then _ ← g_store ret i (byte_incr b); mret ret
      else
        _ ← g_store ret i x00;
        if i =? 0 then mret None else h_cpIncr_loop i ret
  end.

Definition h_cpIncr (bz : gslice) : M heap gslice :=
  if g_len bz =? 0 then panic "cpIncr expects non-zero bz length"
  else ret ← h_cp bz; h_cpIncr_loop (g_len bz) ret.

(** prefixdb.go: [append(cp(pdb.prefix), key...)] *)
Definition h_prefixed (prefix key : gslice) : M heap gslice :=
  c ← h_cp prefix; g_append c key.

(** boltdb.go, boltdb_iterator.go: [append([]byte{}, v...)] *)
Definition h_bolt_copy (v : gslice) : M heap gslice :=
  empty ← make_bytes 0; g_append empty v.

(** prefixdb_iterator.go: [key[len(itr.prefix):]] *)
Definition h_strip (key prefix : gslice) : M heap gslice := g_slice_from key (g_len prefix).

End append.

(** ** Facts *)

Lemma contents_length h s : wf h s → length (contents h s) = g_len s.
Proof.
  destruct s as [x|]; [|done]. intros (Hle & a & Ha & Hcap). simpl. rewrite Ha. simpl.
  rewrite length_take, length_drop. lia.
Qed.

Lemma len_view h s : wf h s → len (view h s) = g_len s.
Proof. intros H. rewrite <-(contents_length h s H). by destruct s. Qed.

Lemma data_view h s : data (view h s) = contents h s.
Proof. by destruct s. Qed.

(** What was there before reads the same in a larger heap. *)
Lemma contents_mono h h' s : wf h s → h `prefix_of` h' → contents h' s = contents h s.
Proof.
  destruct s as [x|]; [|done]. intros (_ & a & Ha & _) [k ->]. simpl.
  by rewrite (lookup_app_l_Some _ _ _ _ Ha), Ha.
Qed.

Lemma wf_mono h h' s : wf h s → h `prefix_of` h' → wf h' s.
Proof.
  destruct s as [x|]; [|done]. intros (? & a & Ha & ?) [k ->]. split; [done|].
  exists a. by rewrite (lookup_app_l_Some _ _ _ _ Ha).
Qed.

Lemma view_mono h h' s : wf h s → h `prefix_of` h' → view h' s = view h s.
Proof. intros Hs Hh. unfold view. by rewrite (contents_mono h h'). Qed.

Lemma write_array_nil a : write_array 0 [] a = a.
Proof. done. Qed.

Lemma write_array_all bs a : length bs = length a → write_array 0 bs a = bs.
Proof. intros H. unfold write_array. simpl. by rewrite H, drop_all, app_nil_r. Qed.

Lemma write_array_insert i b (a : bytes) : i < length a → write_array i [b] a = <[i := b]> a.
Proof. intros H. unfold write_array. simpl. by rewrite insert_take_drop, Nat.add_1_r. Qed.

(** The last array of the heap, and a slice of all of it. *)
Abbreviation whole h n := (Some (Hdr (length h) 0 n n)).

Lemma alter_last (f : bytes → bytes) (h : heap) a : alter f (length h) (h ++ [a]) = h ++ [f a].
Proof. induction h as [|x h IH]; simpl; [done|]. f_equal. exact IH. Qed.

Lemma contents_whole h a : contents (h ++ [a]) (whole h (length a)) = a.
Proof. simpl. by rewrite list_lookup_middle, firstn_all. Qed.

Lemma wf_whole h a : wf (h ++ [a]) (whole h (length a)).
Proof. split; [done|]. exists a. by rewrite list_lookup_middle. Qed.

(** [v := make([]byte, len(src)); copy(v, src)] *)
Lemma make_copy_spec h bs :
  (v ← make_bytes (length bs); _ ← g_write v bs; mret v) h = (Ok (whole h (length bs)), h ++ [bs]).
Proof.
  unfold mbind, M_bind, make_bytes, g_write. simpl.
  by rewrite alter_last, firstn_all, write_array_all by by rewrite length_replicate.
Qed.

(** [cp] allocates a copy. *)
Lemma h_cp_spec h s : wf h s →
  h_cp s h = (Ok (whole h (length (contents h s))), h ++ [contents h s]).
Proof.
  intros Hs. rewrite <-make_copy_spec. unfold h_cp, mbind, M_bind, make_bytes, g_copy. cbn -[contents g_write].
  by rewrite (contents_mono h), (contents_length h s Hs) by (done || by eexists).
Qed.

(** The loop of [cpIncr] writes to its copy what the pure loop computes. *)
Lemma h_cpIncr_loop_spec h n a : n ≤ length a →
  ∃ a', length a' = length a ∧
    h_cpIncr_loop n (whole h (length a)) (h ++ [a]) =
      (result_map (λ r, (λ _, Hdr (length h) 0 (length a) (length a)) <$> r) (cpIncr_loop n a), h ++ [a']) ∧
    ∀ r, cpIncr_loop n a = Ok (Some r) → r = a'.
Proof.
  revert a. induction n as [|i IH]; intros a Hi; [by exists a|].
  destruct (lookup_lt_is_Some_2 a i Hi) as [b Hb].
  assert (g_index (whole h (length a)) i (h ++ [a]) = (Ok b, h ++ [a])) as Hindex.
  { unfold g_index. by rewrite contents_whole, Hb. }
  assert (∀ c, g_store (whole h (length a)) i c (h ++ [a]) = (Ok tt, h ++ [<[i := c]> a])) as Hstore.
  { intros c. simpl. rewrite (proj2 (Nat.ltb_lt i (length a))) by lia.
    by rewrite alter_last, write_array_insert by lia. }
  cbn [h_cpIncr_loop cpIncr_loop]. rewrite (M_bind_Ok _ _ _ _ _ Hindex), Hb.
  destruct (Byte.to_N b <? 255)%N.
  - exists (<[i := byte_incr b]> a). rewrite length_insert. split; [done|].
    rewrite (M_bind_Ok _ _ _ _ _ (Hstore _)). split; [reflexivity|]. by intros r [= <-].
  - rewrite (M_bind_Ok _ _ _ _ _ (Hstore _)). destruct (i =? 0).
    + exists (<[i := x00]> a). by rewrite length_insert.
    + destruct (IH (<[i := x00]> a)) as (a' & Hlen & Hrun & Hr); [rewrite length_insert; lia|].
      rewrite length_insert in Hlen, Hrun. by exists a'.
Qed.

(** [append] to a slice without spare capacity that nobody else knows. *)
Lemma g_append_spec grow h a t : (∀ c n, n ≤ grow c n) → wf h t →
  ∃ r h', g_append grow (whole h (length a)) t (h ++ [a]) = (Ok (Some r), h') ∧
    h `prefix_of` h' ∧ wf h' (Some r) ∧ length h ≤ s_ptr r ∧
    contents h' (Some r) = a ++ contents h t.
Proof.
  intros Hgrow Ht. assert (contents (h ++ [a]) t = contents h t) as Hc.
  { apply contents_mono; [done|by eexists]. }
  unfold g_append. cbn -[contents]. rewrite Hc.
  destruct (Nat.leb_spec (length a + length (contents h t)) (length a)) as [Hle|Hlt].
  - assert (contents h t = []) as Hnil by (apply nil_length_inv; lia). rewrite Hnil. simpl.
    rewrite alter_last, Nat.add_0_r, app_nil_r. unfold write_array. simpl.
    rewrite Nat.add_0_r, take_drop.
    eexists _, _. split; [done|].
    split; [by eexists|]. split; [apply wf_whole|]. split; [done|]. apply contents_whole.
  - set (n := length a + length (contents h t)). set (c := grow (length a) n).
    assert (n ≤ c) by apply Hgrow. rewrite contents_whole.
    eexists _, _. split; [done|].
    assert (((h ++ [a]) ++ [a ++ contents h t ++ replicate (c - n) x00]) !! length (h ++ [a]) =
      Some (a ++ contents h t ++ replicate (c - n) x00)) as Hlook by by rewrite list_lookup_middle.
    split; [|split; [|split]]; simpl.
    + rewrite <-(assoc_L (++)). by eexists.
    + split; [done|]. eexists. split; [exact Hlook|].
      rewrite !length_app, length_replicate. unfold n in *. lia.
    + rewrite length_app. lia.
    + rewrite Hlook. cbn [default from_option]. rewrite drop_0, (assoc_L (++)). apply take_app_length'.
      rewrite length_app. done.
Qed.

(** ** The theorems *)

Section theorems.
Context (grow : nat → nat → nat) (Hgrow : ∀ c n, n ≤ grow c n).

(** [cpIncr], which writes into the array of its result, computes what
    the pure [cpIncr] does, panic and overflow included, into an array of its
    own: its argument and every other array keep their contents. *)
Theorem cpIncr_in_memory h s : wf h s →
  ∃ r h', h_cpIncr s h = (r, h') ∧ result_map (view h') r = cpIncr (view h s) ∧
    h `prefix_of` h' ∧ ∀ x, r = Ok (Some x) → length h ≤ s_ptr x.
Proof.
  intros Hs. unfold h_cpIncr, cpIncr. rewrite (len_view h s Hs).
  destruct (g_len s =? 0); [by eexists _, _|].
  rewrite (M_bind_Ok _ _ _ _ _ (h_cp_spec h s Hs)). unfold cp. simpl. rewrite data_view.
  destruct (h_cpIncr_loop_spec h (g_len s) (contents h s)) as (a & Hlen & -> & Hr);
    [by rewrite contents_length|].
  eexists _, _. split; [done|]. split_and!; [|by eexists|].
  - destruct (cpIncr_loop (g_len s) (contents h s)) as [[r|]| | |]; try done. simpl.
    rewrite (Hr r eq_refl). unfold view. simpl. by rewrite list_lookup_middle, <-Hlen, firstn_all.
  - intros x. by destruct (cpIncr_loop (g_len s) (contents h s)) as [[r|]| | |]; intros [= <-].
Qed.

(** A sequence of calls of [prefixed]. *)
Fixpoint h_prefixed_all (prefix : gslice) (keys : list gslice) : M heap (list gslice) :=
  match keys with
  | [] => mret []
  | key :: keys => r ← h_prefixed grow prefix key; rs ← h_prefixed_all prefix keys; mret (r :: rs)
  end.

Lemma h_prefixed_spec h prefix key : wf h prefix → wf h key →
  ∃ r h', h_prefixed grow prefix key h = (Ok (Some r), h') ∧ h `prefix_of` h' ∧
    wf h' (Some r) ∧ length h ≤ s_ptr r ∧
    view h' (Some r) = prefixed (view h prefix) (view h key).
Proof.
  intros Hp Hk. unfold h_prefixed. rewrite (M_bind_Ok _ _ _ _ _ (h_cp_spec h prefix Hp)).
  destruct (g_append_spec grow h (contents h prefix) key Hgrow Hk) as (r & h' & -> & Hh & Hr & Hptr & Hc).
  exists r, h'. do 4 (split; [done|]). unfold view, prefixed, append, cp. cbn [fmap option_fmap option_map].
  rewrite Hc. cbn [data default from_option id]. by destruct prefix, key.
Qed.

Lemma h_prefixed_all_spec h prefix keys : wf h prefix → Forall (wf h) keys →
  ∃ rs h', h_prefixed_all prefix keys h = (Ok (Some <$> rs), h') ∧ h `prefix_of` h' ∧
    (λ r, view h' (Some r)) <$> rs = (λ key, prefixed (view h prefix) (view h key)) <$> keys ∧
    NoDup (s_ptr <$> rs) ∧ Forall (λ r, length h ≤ s_ptr r ∧ s_ptr r < length h') rs.
Proof.
  revert h. induction keys as [|key keys IH]; intros h Hp Hkeys; [by exists [], h; repeat constructor|].
  apply Forall_cons in Hkeys as [Hk Hkeys].
  destruct (h_prefixed_spec h prefix key Hp Hk) as (r & h1 & Hr & Hh1 & Hwf & Hptr & Hview).
  destruct (IH h1) as (rs & h2 & Hrs & Hh2 & Hviews & Hnd & Hptrs).
  { by eapply wf_mono. }
  { eapply Forall_impl; [exact Hkeys|]. intros s Hs. by eapply wf_mono. }
  assert (s_ptr r < length h1) as Hlt.
  { destruct Hwf as (_ & a & Ha & _). by eapply lookup_lt_Some. }
  pose proof (prefix_length _ _ Hh1). pose proof (prefix_length _ _ Hh2).
  exists (r :: rs), h2. cbn [h_prefixed_all]. rewrite (M_bind_Ok _ _ _ _ _ Hr), (M_bind_Ok _ _ _ _ _ Hrs).
  split_and!; [done|by trans h1| | |].
  - cbn [fmap list_fmap]. f_equal; [by rewrite (view_mono h1 h2 (Some r) Hwf Hh2)|].
    rewrite Hviews. apply list_fmap_ext. intros i s Hs%list_elem_of_lookup_2.
    rewrite Forall_forall in Hkeys. by rewrite !(view_mono h h1) by auto.
  - cbn [fmap list_fmap]. constructor; [|done]. intros (x & Hx & Hin)%list_elem_of_fmap.
    rewrite Forall_forall in Hptrs. destruct (Hptrs x Hin). lia.
  - constructor; [lia|]. eapply Forall_impl; [exact Hptrs|]. simpl. lia.
Qed.

(** C30: however many keys a PrefixDB prefixes, each result has an array
    of its own and keeps reading as the prefix followed by the key: no call
    writes to the prefix, to a key, or to an earlier result. *)
Theorem prefixed_in_memory h prefix keys : wf h prefix → Forall (wf h) keys →
  ∃ rs h', h_prefixed_all prefix keys h = (Ok (Some <$> rs), h') ∧ h `prefix_of` h' ∧
    (λ r, view h' (Some r)) <$> rs = (λ key, prefixed (view h prefix) (view h key)) <$> keys ∧
    NoDup (s_ptr <$> rs) ∧ Forall (λ r, length h ≤ s_ptr r) rs.
Proof.
  intros Hp Hkeys. destruct (h_prefixed_all_spec h prefix keys Hp Hkeys) as (rs & h' & ? & ? & ? & ? & Hf).
  exists rs, h'. split_and!; try done. eapply Forall_impl; [exact Hf|]. by intros ? [? _].
Qed.

(** [append([]byte{}, v...)] is a copy in a new array. *)
Lemma h_bolt_copy_spec h v : wf h v →
  ∃ r h', h_bolt_copy grow v h = (Ok (Some r), h') ∧ h `prefix_of` h' ∧ wf h' (Some r) ∧ length h ≤ s_ptr r ∧
    contents h' (Some r) = contents h v.
Proof.
  intros Hv. unfold h_bolt_copy. rewrite (M_bind_Ok _ _ h (h ++ [[]]) (whole h 0)) by done.
  destruct (g_append_spec grow h [] v Hgrow Hv) as (r & h' & Hr & ?). simpl in Hr. by exists r, h'.
Qed.

(** Slicing off a prefix. *)
Lemma h_strip_spec h x prefix p k :
  wf h (Some x) → g_len prefix = length p → contents h (Some x) = p ++ k →
  ∃ y, h_strip (Some x) prefix h = (Ok (Some y), h) ∧ wf h (Some y) ∧ s_ptr y = s_ptr x ∧
    contents h (Some y) = k.
Proof.
  intros Hx Hlen Hc. pose proof (contents_length h (Some x) Hx) as Hl.
  rewrite Hc, length_app in Hl. simpl in Hl. unfold h_strip, g_slice_from. rewrite Hlen. simpl.
  rewrite (proj2 (Nat.leb_le _ _)) by lia. eexists. split; [done|].
  destruct Hx as (Hle & a & Ha & Hcap). split; [|split; [done|]].
  { split; simpl; [lia|]. exists a. split; [done|lia]. }
  simpl in *. rewrite Ha in *. simpl in *. rewrite <-drop_drop.
  rewrite <-(drop_app_length p k), <-Hc. by rewrite skipn_firstn_comm.
Qed.

End theorems.

(** ** Memory of the C library: rocksdb_iterator.go *)

(** [*gorocksdb.Slice]: [Data] reads memory of the library, [Free] releases it. *)
Class RSliceOps (CS RS : Type) := {
  rs_Exists : RS → bool;
  rs_Data : RS → M CS bytes;
  rs_Free : RS → M CS unit;
}.

(** A slice that holds [bs] (nil if it does not exist).  A slice of [Get] owns
    its memory; those of an iterator "are marked as freed": the memory is the
    iterator's. *)
Class RSliceLaws (CS RS : Type) `{!RSliceOps CS RS} := {
  rs_live : CS → RS → slice → bool → Prop;
  rs_released : CS → RS → Prop;
  rslaw_Exists c s bs owned : rs_live c s bs owned → rs_Exists s = negb (is_nil bs);
  rslaw_Data c s bs owned : rs_live c s (Some bs) owned → rs_Data s c = (Ok bs, c);
  rslaw_Free c s bs owned : rs_live c s bs owned →
    reply (rs_Free s) c (Ok tt) (λ c',
      (if owned then rs_released c' s else rs_live c' s bs false) ∧
      ∀ s' bs' owned', s' ≠ s → rs_live c s' bs' owned' → rs_live c' s' bs' owned');
}.

Section rocks.
Context {CS RS : Type} `{!RSliceOps CS RS}.

(** [func moveSliceToBytes(s *gorocksdb.Slice) []byte] *)
Definition h_moveSliceToBytes (s : RS) : M (CS * heap) gslice :=
  deferred (on_fst (rs_Free s))
    (if negb (rs_Exists s) then mret None
     else
       d ← on_fst (rs_Data s);
       v ← on_snd (make_bytes (length d));
       d ← on_fst (rs_Data s);
       _ ← on_snd (g_write v d);
       mret v).

Context `{!RSliceLaws CS RS}.

(** [moveSliceToBytes] returns a copy in memory of Go, made before
    the slice is freed; memory the slice owned is released, memory of an
    iterator stays with it, and no other slice and no array changes. *)
Theorem moveSliceToBytes_in_memory c h s bs owned : rs_live c s bs owned →
  ∃ r c' h', h_moveSliceToBytes s (c, h) = (Ok r, (c', h')) ∧
    view h' r = moveSliceToBytes bs ∧ h `prefix_of` h' ∧
    wf h' r ∧ (∀ y, r = Some y → length h ≤ s_ptr y) ∧
    (if owned then rs_released c' s else rs_live c' s bs false) ∧
    ∀ s' bs' owned', s' ≠ s → rs_live c s' bs' owned' → rs_live c' s' bs' owned'.
Proof.
  intros Hs. destruct (rslaw_Free c s bs owned Hs) as (c' & Hfree & Hafter & Hothers).
  unfold h_moveSliceToBytes, deferred. rewrite (rslaw_Exists c s bs owned Hs).
  destruct bs as [bs|]; simpl.
  - pose proof (rslaw_Data c s bs owned Hs) as Hd. pose proof (make_copy_spec h bs) as Hcopy.
    unfold mbind, M_bind, on_fst, on_snd, make_bytes in *. rewrite Hd. simpl in *. rewrite Hd.
    injection Hcopy as Hcopy. rewrite Hcopy. simpl. rewrite Hfree.
    eexists _, c', _. split; [done|]. split_and!; [|by eexists|apply wf_whole|by intros y [= <-]|done|done].
    unfold view. cbn [fmap option_fmap option_map]. by rewrite contents_whole.
  - unfold on_fst. simpl. rewrite Hfree. by eexists None, c', h.
Qed.

End rocks.

(** ** Instances *)

(** Memory of C as a map of blocks; a slice is an address, or nothing, and
    whether it owns its block. *)
Module RefC.
Abbreviation mem := (gmap nat bytes).
Abbreviation rslice := (option nat * bool)%type.

#[global] Instance ops : RSliceOps mem rslice := {|
  rs_Exists s := bool_decide (is_Some s.1);
  rs_Data s c := match s.1 ≫= λ l, c !! l with Some bs => (Ok bs, c) | None => (Panic "segmentation fault", c) end;
  rs_Free s c := (Ok tt, match s with (Some l, true) => delete l c | _ => c end);
|}.

(** Two slices never own one block, and a block an iterator owns is not freed:
    the live slices are at different addresses. *)
Definition live (c : mem) (s : rslice) (bs : slice) (owned : bool) : Prop :=
  s.2 = owned ∧
  match s.1, bs with Some l, Some bs => c !! l = Some bs ∧ Nat.even l = owned | None, None => True | _, _ => False end.

Definition laws : RSliceLaws mem rslice.
Proof.
  refine {| rs_live := live; rs_released c s := match s.1 with Some l => c !! l = None | None => True end |}.
  - intros c [[l|] o] [bs|] owned [_ H]; simpl in *; done.
  - intros c [[l|] o] bs owned [_ H]; simpl in *; [|done]. destruct H as [-> _]. done.
  - intros c [[l|] o] [bs|] owned [Ho H]; simpl in *; try done; subst o.
    + destruct owned; eexists; (split; [done|]); simpl; [|done]. split; [apply lookup_delete_eq|].
      intros [[l'|] o'] [bs'|] owned' Hne [Ho' H']; simpl in *; try done. split; [done|].
      subst o'. destruct H as [_ He], H' as [Hl' He']. simpl. rewrite lookup_delete_ne; [done|].
      intros <-. congruence.
    + eexists. split; [by destruct owned|]. by destruct owned.
Defined.
End RefC.

Section instances.

(** Doubling, as the runtime does for small slices. *)
Definition double (c n : nat) : nat := n `max` (2 * c).
Lemma double_ok c n : n ≤ double c n.
Proof. unfold double. lia. Qed.

(** An array with the prefix 01 FF and, behind it, a key: the prefix has spare
    capacity, which the key occupies. *)
Definition shared : heap := [[x01; xff; x61; x62]].
Definition sh_prefix : gslice := Some (Hdr 0 0 2 4).
Definition sh_key : gslice := Some (Hdr 0 2 2 2).

Lemma sh_wf : wf shared sh_prefix ∧ wf shared sh_key.
Proof. split; (split; [simpl; lia|]); eexists; (split; [done|]); simpl; lia. Qed.

Example cpIncr_runs :
  h_cpIncr sh_prefix shared = (Ok (Some (Hdr 1 0 2 2)), [[x01; xff; x61; x62]; [x02; x00]]).
Proof. reflexivity. Qed.

(** Without [cp] the prefix would be extended over the key. *)
Example append_in_place :
  g_append double sh_prefix (Some (Hdr 0 3 1 1)) shared =
    (Ok (Some (Hdr 0 0 3 4)), [[x01; xff; x62; x62]]).
Proof. reflexivity. Qed.

Lemma cpIncr_in_memory_witness :
  ∃ r h', h_cpIncr sh_prefix shared = (r, h') ∧ result_map (view h') r = Ok (Some [x02; x00]).
Proof.
  destruct (cpIncr_in_memory shared sh_prefix (proj1 sh_wf)) as (r & h' & H1 & H2 & _).
  exists r, h'. exact (conj H1 H2).
Defined.

Lemma prefixed_in_memory_witness :
  ∃ rs h', h_prefixed_all double sh_prefix [sh_key; sh_key] shared = (Ok (Some <$> rs), h') ∧
    NoDup (s_ptr <$> rs).
Proof.
  destruct (prefixed_in_memory double double_ok shared sh_prefix [sh_key; sh_key]) as (rs & h' & H & _ & _ & Hnd & _).
  - exact (proj1 sh_wf).
  - constructor; [exact (proj2 sh_wf)|]. constructor; [exact (proj2 sh_wf)|constructor].
  - exists rs, h'. exact (conj H Hnd).
Defined.

#[local] Instance ref_rslice_laws : RSliceLaws RefC.mem RefC.rslice := RefC.laws.

Lemma moveSliceToBytes_in_memory_witness :
  ∃ r c' h', h_moveSliceToBytes (Some 2, true) ({[ 2 := [x61] ]} : RefC.mem, shared) = (Ok r, (c', h')) ∧
    view h' r = Some [x61] ∧ c' !! 2 = None.
Proof.
  destruct (moveSliceToBytes_in_memory ({[ 2 := [x61] ]} : RefC.mem) shared (Some 2, true) (Some [x61]) true)
    as (r & c' & h' & H1 & H2 & _ & _ & _ & H3 & _).
  - split; [reflexivity|]. split; [apply lookup_singleton_eq|reflexivity].
  - exists r, c', h'. split; [exact H1|]. split; [exact H2|exact H3].
Defined.

End instances.
