(* ===== verification/HeapIter.v ===== *)
(** * The keys iterators return, in memory

    The [Key] methods of the iterators of all backends and of PrefixDB on the
    memory of Heap.v.  A library reuses its buffers when its iterator moves; the
    theorem says which keys are not affected.  The state is the memory of the C
    libraries and the arrays of Go. *)

From S2P Require Import Prelude Go Util Spec Types BTree MemDB Cursor KVLib GoLevelDB RocksDB CLevelDB BoltLib BoltDB BadgerLib BadgerDB PrefixDB Heap.

Section iterators.
Context (grow : nat → nat → nat) {CS RS : Type} `{!RSliceOps CS RS}.

(** ** The methods

    [valid] is what [Valid] says; the methods start with [itr.assertIsValid()]. *)

Definition h_assertIsValid (valid : bool) : M (CS * heap) unit :=
  if valid then mret tt else panic "iterator is invalid".

(** goleveldb_iterator.go: [return cp(itr.source.Key())] *)
Definition h_goLevelDBIterator_Key (valid : bool) (source_Key : gslice) : M (CS * heap) gslice :=
  _ ← h_assertIsValid valid; on_snd (h_cp source_Key).

(** boltdb_iterator.go: [return append([]byte{}, itr.currentKey...)] *)
Definition h_boltDBIterator_Key (valid : bool) (currentKey : gslice) : M (CS * heap) gslice :=
  _ ← h_assertIsValid valid; on_snd (h_bolt_copy grow currentKey).

(** rocksdb_iterator.go: [return moveSliceToBytes(itr.source.Key())] *)
Definition h_rocksDBIterator_Key (valid : bool) (source_Key : RS) : M (CS * heap) gslice :=
  _ ← h_assertIsValid valid; h_moveSliceToBytes source_Key.

(** cleveldb_iterator.go: [return itr.source.Key()] *)
Definition h_cLevelDBIterator_Key (valid : bool) (source_Key : M (CS * heap) gslice) : M (CS * heap) gslice :=
  _ ← h_assertIsValid valid; source_Key.

(** badger_db.go: [return i.iter.Item().KeyCopy(nil)] *)
Definition h_badgerDBIterator_Key (valid : bool) (KeyCopy : gslice → M (CS * heap) gslice) : M (CS * heap) gslice :=
  if valid then KeyCopy None else panic "iterator is invalid".

(** memdb_iterator.go: [return i.item.key], the slice in the tree *)
Definition h_memDBIterator_Key (valid : bool) (item_key : gslice) : M (CS * heap) gslice :=
  _ ← h_assertIsValid valid; mret item_key.

(** prefixdb_iterator.go: [Valid], when the flag is set, there is no error and
    the source is valid, compares the start of the key with the prefix (what it
    records as an error otherwise is not a slice); then [Key]:
    [key := itr.source.Key(); return key[len(itr.prefix):]]. *)
Definition h_prefixDBIterator_Valid (source_Key : M (CS * heap) gslice) (prefix : gslice) : M (CS * heap) bool :=
  key ← source_Key;
  x ← get;
  mret (negb ((g_len key <? g_len prefix) ||
              negb (bool_decide (take (g_len prefix) (contents x.2 key) = contents x.2 prefix)))).

Definition h_prefixDBIterator_Key (source_Key : M (CS * heap) gslice) (prefix : gslice) : M (CS * heap) gslice :=
  valid ← h_prefixDBIterator_Valid source_Key prefix;
  _ ← h_assertIsValid valid;
  key ← source_Key;
  on_snd (h_strip key prefix).

(** PrefixDBs over one another, the innermost first. *)
Fixpoint h_nested (source_Key : M (CS * heap) gslice) (prefixes : list gslice) : M (CS * heap) gslice :=
  match prefixes with
  | [] => source_Key
  | prefix :: prefixes => h_nested (h_prefixDBIterator_Key source_Key prefix) prefixes
  end.

(** ** What is promised *)

(** The arrays from address [n] on are kept: what is done with the arrays that
    existed before is not restricted. *)
Definition keeps (n : nat) (h h' : heap) : Prop :=
  ∀ l a, n ≤ l → h !! l = Some a → h' !! l = Some a.

(** The call returns [bs], and what it returned stays so whatever then happens
    to the arrays that existed before it, the buffers of the library among them. *)
Definition survives (m : M (CS * heap) gslice) (x : CS * heap) (bs : slice) : Prop :=
  ∃ r x', m x = (Ok r, x') ∧ x.2 `prefix_of` x'.2 ∧
    ∀ h2, keeps (length x.2) x'.2 h2 → view h2 r = bs.

(** A method that returns [bs] in a new array, as often as it is called, from
    the states [P]. *)
Definition key_source (m : M (CS * heap) gslice) (P : CS * heap → Prop) (bs : bytes) : Prop :=
  ∀ x, P x → ∃ r x', m x = (Ok (Some r), x') ∧ P x' ∧ x.2 `prefix_of` x'.2 ∧
    wf x'.2 (Some r) ∧ length x.2 ≤ s_ptr r ∧ contents x'.2 (Some r) = bs.

Lemma contents_keeps n h h' r : wf h (Some r) → n ≤ s_ptr r → keeps n h h' →
  contents h' (Some r) = contents h (Some r).
Proof. intros (_ & a & Ha & _) Hn Hk. simpl. by rewrite Ha, (Hk _ _ Hn Ha). Qed.

Lemma key_source_survives m P bs x : key_source m P bs → P x → survives m x (Some bs).
Proof.
  intros Hm Hx. destruct (Hm x Hx) as (r & x' & Hr & _ & Hh & Hwf & Hptr & Hc).
  exists (Some r), x'. split; [done|]. split; [done|]. intros h2 H2. unfold view.
  cbn [fmap option_fmap option_map]. by rewrite (contents_keeps (length x.2) x'.2 h2 r Hwf Hptr H2), Hc.
Qed.

(** A slice whose contents stay as the memory grows. *)
Definition holds (v : gslice) (bs : bytes) (x : CS * heap) : Prop := wf x.2 v ∧ contents x.2 v = bs.

Lemma holds_mono v bs x x' : holds v bs x → x.2 `prefix_of` x'.2 → holds v bs x'.
Proof. intros [Hv Hc] Hh. split; [by eapply wf_mono|]. by rewrite (contents_mono x.2 x'.2). Qed.

(** ** The backends *)

Lemma on_snd_eq {A} (m : M heap A) (x : CS * heap) r h' : m x.2 = (r, h') → on_snd m x = (r, (x.1, h')).
Proof. destruct x as [c h]. simpl. by intros ->. Qed.

Lemma goleveldb_source v bs : key_source (h_goLevelDBIterator_Key true v) (holds v bs) bs.
Proof.
  intros x [Hv Hc]. exists (Hdr (length x.2) 0 (length bs) (length bs)), (x.1, x.2 ++ [bs]).
  assert (x.2 `prefix_of` (x.1, x.2 ++ [bs]).2) as Hh by by eexists.
  split.
  { apply (on_snd_eq (h_cp v)). rewrite (h_cp_spec x.2 v Hv), Hc. done. }
  split; [by apply (holds_mono v bs x)|]. split; [done|]. split; [apply wf_whole|]. split; [done|]. apply contents_whole.
Qed.

Lemma bolt_source v bs : (∀ c n, n ≤ grow c n) → key_source (h_boltDBIterator_Key true v) (holds v bs) bs.
Proof.
  intros Hgrow x [Hv Hc]. destruct (h_bolt_copy_spec grow Hgrow x.2 v Hv) as (r & h' & Hr & Hh & Hwf & Hptr & Hc').
  exists r, (x.1, h'). split; [by apply (on_snd_eq (h_bolt_copy grow v))|].
  split; [by apply (holds_mono v bs x)|]. split; [done|]. split; [done|]. split; [done|]. change (contents h' (Some r) = bs). by rewrite Hc'.
Qed.

Lemma rocks_source `{!RSliceLaws CS RS} s bs :
  key_source (h_rocksDBIterator_Key true s) (λ x, rs_live x.1 s (Some bs) false) bs.
Proof.
  intros [c h] Hs. simpl in Hs.
  destruct (moveSliceToBytes_in_memory c h s (Some bs) false Hs) as (r & c' & h' & Hr & Hv & Hh & Hwf & Hptr & Hlive & _).
  destruct r as [r|]; [|done]. exists r, (c', h'). split; [done|]. split; [done|]. split; [done|]. split; [done|].
  split; [by apply Hptr|]. by injection Hv.
Qed.

(** ** PrefixDB *)

Lemma prefix_source m P prefix p k :
  key_source m P (p ++ k) →
  key_source (h_prefixDBIterator_Key m prefix) (λ x, P x ∧ holds prefix p x) k.
Proof.
  intros Hm x [Hx Hp]. destruct (Hm x Hx) as (r1 & x1 & Hr1 & Hx1 & Hh1 & Hwf1 & _ & Hc1).
  assert (holds prefix p x1) as [Hp1 Hc1p] by by eapply holds_mono.
  destruct (Hm x1 Hx1) as (r2 & x2 & Hr2 & Hx2 & Hh2 & Hwf2 & Hptr2 & Hc2).
  assert (g_len prefix = length p) as Hlen by by rewrite <-(contents_length _ _ Hp1), Hc1p.
  assert (h_prefixDBIterator_Valid m prefix x = (Ok true, x1)) as Hvalid.
  { unfold h_prefixDBIterator_Valid. rewrite (M_bind_Ok _ _ _ _ _ Hr1). cbn -[contents g_len Nat.ltb]. unfold mbind, M_bind.
    cbn -[contents g_len Nat.ltb]. rewrite Hc1, Hc1p, Hlen, take_app_length, bool_decide_eq_true_2 by done.
    pose proof (contents_length _ _ Hwf1) as Hl. rewrite Hc1, length_app in Hl.
    rewrite <-Hl, (proj2 (Nat.ltb_ge _ _)) by lia. done. }
  destruct (h_strip_spec x2.2 r2 prefix p k Hwf2 Hlen Hc2) as (y & Hy & Hwy & Hpy & Hcy).
  exists y, x2. split.
  { unfold h_prefixDBIterator_Key. rewrite (M_bind_Ok _ _ _ _ _ Hvalid). unfold h_assertIsValid.
    rewrite (M_bind_Ok (mret tt) _ x1 x1 tt) by done. rewrite (M_bind_Ok _ _ _ _ _ Hr2).
    rewrite (on_snd_eq _ _ _ _ Hy). by destruct x2. }
  assert (x.2 `prefix_of` x2.2) as Hh by by trans x1.2.
  split; [split; [done|by eapply holds_mono]|]. split; [done|]. split; [done|].
  split; [|done]. rewrite Hpy. pose proof (prefix_length _ _ Hh1). lia.
Qed.

Lemma nested_source m P prefixes ps k :
  key_source m P (concat ps ++ k) → length prefixes = length ps →
  key_source (h_nested m prefixes) (λ x, P x ∧ Forall2 (λ prefix p, holds prefix p x) prefixes ps) k.
Proof.
  revert m P ps. induction prefixes as [|prefix prefixes IH]; intros m P [|p ps] Hm Hlen; try done; simpl in *.
  - intros x [Hx _]. destruct (Hm x Hx) as (r & x' & Hr & Hx' & Hrest). exists r, x'. split; [done|]. by split; [split; [|constructor]|].
  - rewrite <-(assoc_L (++)) in Hm. apply (prefix_source m P prefix p) in Hm.
    specialize (IH _ _ ps Hm ltac:(lia)). intros x [Hx [Hp Hps]%Forall2_cons].
    destruct (IH x) as (r & x' & Hr & [[Hx' Hp'] Hps'] & ?); [done|].
    exists r, x'. split; [done|]. split; [|done]. split; [done|]. by constructor.
Qed.

Lemma nested_survives m P c h prefixes k :
  key_source m P (concat (contents h <$> prefixes) ++ k) → P (c, h) → Forall (wf h) prefixes →
  survives (h_nested m prefixes) (c, h) (Some k).
Proof.
  intros Hm Hx Hps. eapply key_source_survives; [apply (nested_source m P prefixes _ k Hm); by rewrite length_fmap|].
  split; [done|]. apply Forall2_fmap_r. apply Forall_Forall2_diag. eapply Forall_impl; [exact Hps|]. by split.
Qed.

End iterators.

(** ** The theorem *)

Section theorem.
Context (grow : nat → nat → nat) {CS RS : Type} `{!RSliceOps CS RS, !RSliceLaws CS RS}.
Context {C : Type} `{!CursorOps C} {Tx Cu : Type}.
Context {D BTx BC WB Item : Type} `{!BadgerOps D BTx BC WB Item}.

(** C31: a key an iterator has returned stays what it was, whatever the
    library does with its buffers afterwards, on every backend but [MemDB], and also through
    PrefixDBs nested to any depth.  The iterators of goleveldb, bbolt and rocksdb
    return copies of what the library shows; those of cleveldb and badger return the copy
    the library makes, for which badger's is given no buffer to use; and those of PrefixDB the end of the
    copy below.  [MemDB] returns the slice that is in its tree: it stays as long as nobody
    writes to that array, and who does changes the key in the database. *)
Theorem iterator_keys_survive (c : CS) (h : heap) prefixes k (key := concat (contents h <$> prefixes) ++ k) :
  (∀ a n, n ≤ grow a n) → Forall (wf h) prefixes →
  (∀ (itr : goLevelDBIterator C) v, goLevelDBIterator_Valid itr = (Ok true, itr) →
    cur_Key (gli_source itr) = view h v → wf h v → contents h v = key →
    (goLevelDBIterator_Key itr).1 = Ok (Some key) ∧
    survives (h_nested (h_goLevelDBIterator_Key true v) prefixes) (c, h) (Some k)) ∧
  (∀ (itr : boltDBIterator Tx Cu) v, boltDBIterator_Valid itr = (Ok true, itr) →
    boi_currentKey itr = view h v → wf h v → contents h v = key →
    (boltDBIterator_Key itr).1 = Ok (Some key) ∧
    survives (h_nested (h_boltDBIterator_Key grow true v) prefixes) (c, h) (Some k)) ∧
  (∀ (itr : rocksDBIterator C) s, rocksDBIterator_Valid itr = (Ok true, itr) →
    cur_Key (rki_source itr) = Some key → rs_live c s (Some key) false →
    (rocksDBIterator_Key itr).1 = Ok (Some key) ∧
    survives (h_nested (h_rocksDBIterator_Key true s) prefixes) (c, h) (Some k)) ∧
  (* levigo: [Key] "returns a copy the key in the database the iterator currently
     holds", from [C.GoBytes] *)
  (∀ (itr : cLevelDBIterator C) source_Key P, cLevelDBIterator_Valid itr = (Ok true, itr) →
    cur_Key (cli_source itr) = Some key → key_source source_Key P key → P (c, h) →
    (cLevelDBIterator_Key itr).1 = Ok (Some key) ∧
    survives (h_nested (h_cLevelDBIterator_Key true source_Key) prefixes) (c, h) (Some k)) ∧
  (* badger: [KeyCopy] writes to the slice it is given, and "if nil is passed ...
     a new slice would be allocated and returned" *)
  (∀ (itr : badgerDBIterator BTx BC) KeyCopy P, badgerDBIterator_isValid itr = true →
    item_KeyCopy (bi_Item (bgi_iter itr)) = Some key → key_source (KeyCopy None) P key → P (c, h) →
    (badgerDBIterator_Key itr).1 = Ok (Some key) ∧
    survives (h_nested (h_badgerDBIterator_Key true KeyCopy) prefixes) (c, h) (Some k)) ∧
  (∀ (itr : memDBIterator) it v, mit_item itr = Some it → item_key it = view h v → wf h v →
    (memDBIterator_Key itr).1 = Ok (view h v) ∧ h_memDBIterator_Key true v (c, h) = (Ok v, (c, h)) ∧
    (∀ h2, (∀ x, v = Some x → h2 !! s_ptr x = h !! s_ptr x) → view h2 v = view h v) ∧
    (∀ b b0, contents h v !! 0 = Some b0 → b ≠ b0 →
      ∃ h2, g_store v 0 b h = (Ok tt, h2) ∧ view h2 v ≠ view h v)).
Proof.
  intros Hgrow Hps. split_and!.
  - intros itr v Hvalid Hv Hwf Hc. split.
    + unfold goLevelDBIterator_Key, goLevelDBIterator_assertIsValid, mbind, M_bind. rewrite Hvalid. simpl.
      unfold cp. by rewrite Hv, data_view, Hc.
    + by eapply nested_survives; [apply goleveldb_source| |].
  - intros itr v Hvalid Hv Hwf Hc. split.
    + unfold boltDBIterator_Key, boltDBIterator_assertIsValid, mbind, M_bind. rewrite Hvalid. simpl.
      unfold append. simpl. rewrite Hv, data_view, Hc. done.
    + by eapply nested_survives; [by apply bolt_source| |].
  - intros itr s Hvalid Hv Hs. split.
    + unfold rocksDBIterator_Key, rocksDBIterator_assertIsValid, mbind, M_bind. rewrite Hvalid. simpl. by rewrite Hv.
    + by eapply nested_survives; [by apply rocks_source| |].
  - intros itr source_Key P Hvalid Hv Hs HP. split.
    + unfold cLevelDBIterator_Key, cLevelDBIterator_assertIsValid, mbind, M_bind. rewrite Hvalid. simpl. by rewrite Hv.
    + by eapply nested_survives; [exact Hs| |].
  - intros itr KeyCopy P Hvalid Hv Hs HP. split.
    + unfold badgerDBIterator_Key, badgerDBIterator_Valid, mbind, M_bind. simpl. rewrite Hvalid. simpl. by rewrite Hv.
    + by eapply nested_survives; [exact Hs| |].
  - intros itr it v Hit Hv Hwf. split_and!.
    + unfold memDBIterator_Key, memDBIterator_assertIsValid, memDBIterator_Valid, deref_item, mbind, M_bind. simpl.
      rewrite bool_decide_eq_true_2 by by eexists. simpl. rewrite Hit. simpl. by rewrite Hv.
    + done.
    + intros h2 H2. unfold view. destruct v as [x|]; [|done]. simpl. by rewrite H2.
    + intros b b0 Hb0 Hb. destruct v as [x|]; [|done]. pose proof (contents_length h _ Hwf) as Hl.
      destruct Hwf as (Hle & a & Ha & Hcap). unfold g_store.
      assert (0 < s_len x) as Hpos by (rewrite <-(eq_refl : g_len (Some x) = s_len x), <-Hl; by eapply lookup_lt_Some).
      rewrite (proj2 (Nat.ltb_lt _ _)) by done. eexists. split; [done|].
      intros [= Heq]. simpl in *. rewrite Ha in *. simpl in *.
      rewrite Nat.add_0_r, list_lookup_alter_eq, Ha in Heq. simpl in Heq. rewrite write_array_insert in Heq by lia.
      apply (f_equal (.!! 0)) in Heq. rewrite Hb0, lookup_take_lt, lookup_drop, Nat.add_0_r in Heq by done.
      rewrite list_lookup_insert_eq in Heq by lia. congruence.
Qed.

End theorem.

(** ** An instance

    The database holds the key [01 FF 61 62] in a buffer of goleveldb, which
    overwrites it after [Next]; the client sees [61 62] through a PrefixDB. *)

#[local] Instance ref_rslice_laws : RSliceLaws RefC.mem RefC.rslice := RefC.laws.

Definition sh_iter : goLevelDBIterator RefKV.cursor :=
  newGoLevelDBIterator (RefKV.Cursor [([x01; xff; x61; x62], [x01])] None) None None false.

Lemma iterator_keys_survive_witness :
  ∃ r x', h_nested (h_goLevelDBIterator_Key true (Some (Hdr 0 0 4 4))) [sh_prefix] (∅ : RefC.mem, shared) = (Ok (Some r), x') ∧
    view (<[0 := [x00; x00; x00; x00]]> x'.2) (Some r) = Some [x61; x62].
Proof.
  destruct (iterator_keys_survive (C := RefKV.cursor) (Tx := RefBolt.db) (Cu := RefBolt.cursor) (D := store) double (∅ : RefC.mem) shared
    [sh_prefix] [x61; x62] double_ok) as (H & _).
  { constructor; [exact (proj1 sh_wf)|constructor]. }
  destruct (H sh_iter (Some (Hdr 0 0 4 4))) as [_ (r & x' & Hr & _ & Hview)].
  - reflexivity.
  - reflexivity.
  - split; [simpl; lia|]. eexists. split; [reflexivity|]. simpl. lia.
  - reflexivity.
  - assert (view (<[0 := [x00; x00; x00; x00]]> x'.2) r = Some [x61; x62]) as Hv.
    { apply Hview. intros l a Hl Ha. rewrite list_lookup_insert_ne; [exact Ha|]. simpl in Hl. lia. }
    destruct r as [r|]; [|discriminate Hv]. exists r, x'. split; [exact Hr|exact Hv].
Defined.
