(* ===== verification/Wire.v ===== *)
(** * Integers at their width, and the protocol-buffers wire format

    The conversions of Go between integer types, and a reader of the encoding
    of fields, as developers.google.com/protocol-buffers/docs/encoding describes
    it: a sequence of keys (field number and wire type, as a varint), each
    followed by its value.  It says which bytes are a sequence of fields that a
    message does not know, which is what [XXX_unrecognized] may hold. *)

From S2P Require Import Prelude Go.

(** ** Conversions *)

(** [uint32(z)], [uint64(z)], [int32(z)], [int64(z)], [byte(z)] *)
Definition uint32 (z : Z) : Z := z mod 2 ^ 32.
Definition uint64 (z : Z) : Z := z mod 2 ^ 64.
Definition int32 (z : Z) : Z := (z + 2 ^ 31) mod 2 ^ 32 - 2 ^ 31.
Definition int64 (z : Z) : Z := (z + 2 ^ 63) mod 2 ^ 64 - 2 ^ 63.
Definition byte_of_Z (z : Z) : byte := default x00 (Byte.of_N (Z.to_N (z mod 256))).

Definition in_int32 (z : Z) : Prop := (- 2 ^ 31 ≤ z < 2 ^ 31)%Z.
Definition in_int64 (z : Z) : Prop := (- 2 ^ 63 ≤ z < 2 ^ 63)%Z.

Lemma int32_id z : in_int32 z → int32 z = z.
Proof. unfold in_int32, int32. intros H. rewrite Z.mod_small; lia. Qed.
Lemma int64_id z : in_int64 z → int64 z = z.
Proof. unfold in_int64, int64. intros H. rewrite Z.mod_small; lia. Qed.
Lemma int32_range z : in_int32 (int32 z).
Proof. unfold in_int32, int32. pose proof (Z.mod_pos_bound (z + 2 ^ 31) (2 ^ 32)). lia. Qed.
Lemma int64_range z : in_int64 (int64 z).
Proof. unfold in_int64, int64. pose proof (Z.mod_pos_bound (z + 2 ^ 63) (2 ^ 64)). lia. Qed.

Definition Z_of_byte (b : byte) : Z := Z.of_N (Byte.to_N b).

Lemma Z_of_byte_range b : (0 ≤ Z_of_byte b < 256)%Z.
Proof. unfold Z_of_byte. pose proof (Byte.to_N_bounded b). lia. Qed.

Lemma Z_of_byte_of_Z z : Z_of_byte (byte_of_Z z) = (z mod 256)%Z.
Proof.
  unfold Z_of_byte, byte_of_Z. pose proof (Z.mod_pos_bound z 256 ltac:(lia)) as Hz.
  destruct (Byte.of_N (Z.to_N (z mod 256))) as [b|] eqn:Hb.
  - apply Byte.to_of_N in Hb. simpl. rewrite Hb. lia.
  - apply Byte.of_N_None_iff in Hb. lia.
Qed.

(** ** Reading fields *)

(** A varint: seven bits per byte, the lowest first, until a byte below 128;
    at most [n] bytes are read. *)
Fixpoint varint_loop (n : nat) (bs : bytes) : option (Z * bytes) :=
  match n, bs with
  | S n, b :: bs =>
      if (Z_of_byte b <? 128)%Z then Some (Z_of_byte b, bs)
      else '(v, rest) ← varint_loop n bs; Some ((Z_of_byte b - 128 + 128 * v)%Z, rest)
  | _, _ => None
  end.

(** The library refuses a varint of more than ten bytes, and one that does not
    fit 64 bits. *)
Definition decode_varint (bs : bytes) : option (Z * bytes) :=
  '(v, rest) ← varint_loop 10 bs; if (v <? 2 ^ 64)%Z then Some (v, rest) else None.

Definition split_bytes (n : nat) (bs : bytes) : option (bytes * bytes) :=
  if n <=? length bs then Some (take n bs, drop n bs) else None.

Inductive payload := PVarint (v : Z) | PFixed64 (bs : bytes) | PBytes (bs : bytes) | PFixed32 (bs : bytes).

(** The value that follows a key of wire type [wire]; 3 and 4, groups, are not read. *)
Definition decode_payload (wire : Z) (bs : bytes) : option (payload * bytes) :=
  if (wire =? 0)%Z then '(v, bs) ← decode_varint bs; Some (PVarint v, bs)
  else if (wire =? 1)%Z then '(p, bs) ← split_bytes 8 bs; Some (PFixed64 p, bs)
  else if (wire =? 2)%Z then
    '(l, bs) ← decode_varint bs; '(p, bs) ← split_bytes (Z.to_nat l) bs; Some (PBytes p, bs)
  else if (wire =? 5)%Z then '(p, bs) ← split_bytes 4 bs; Some (PFixed32 p, bs)
  else None.

Definition field : Type := Z * payload.

Definition decode_field (bs : bytes) : option (field * bytes) :=
  '(key, bs) ← decode_varint bs;
  '(p, bs) ← decode_payload (key mod 8) bs;
  Some ((key / 8, p)%Z, bs).

Fixpoint decode_fields (fuel : nat) (bs : bytes) : option (list field) :=
  match bs, fuel with
  | [], _ => Some []
  | _, O => None
  | _, S fuel => '(f, bs) ← decode_field bs; (f ::.) <$> decode_fields fuel bs
  end.

(** A sequence of fields, all of them with a number from [max] on. *)
Definition unknown_fields (max : Z) (s : slice) : bool :=
  match decode_fields (len s) (data s) with
  | Some fs => forallb (λ f, max <=? f.1)%Z fs
  | None => false
  end.

(** ** Lemmas *)

(** A reader that has found a value finds the same when more bytes follow, and
    has read at least [n] bytes. *)
Definition reads {A} (d : bytes → option (A * bytes)) (n : nat) : Prop :=
  ∀ bs a rest, d bs = Some (a, rest) →
    n + length rest ≤ length bs ∧ ∀ x, d (bs ++ x) = Some (a, rest ++ x).

Lemma reads_Some {A} (a : A) : reads (λ bs, Some (a, bs)) 0.
Proof. intros bs b rest [= <- <-]. by split; [lia|]. Qed.

Lemma reads_bind {A B} d (f : A → bytes → option (B * bytes)) n k : n ≤ k →
  reads d n → (∀ a, reads (f a) (k - n)) → reads (λ bs, '(a, bs) ← d bs; f a bs) k.
Proof.
  intros Hk Hd Hf bs b rest. destruct (d bs) as [[a bs']|] eqn:Ha; simpl; [|done]. intros Hb.
  destruct (Hd _ _ _ Ha) as [? Hext]. destruct (Hf _ _ _ _ Hb) as [? Hext']. split; [lia|].
  intros x. rewrite Hext. simpl. by rewrite Hext'.
Qed.

Lemma reads_weaken {A} (d : bytes → option (A * bytes)) n k : reads d n → k ≤ n → reads d k.
Proof. intros Hd Hk bs a rest H. destruct (Hd _ _ _ H). split; [lia|done]. Qed.

Lemma reads_varint_loop n : reads (varint_loop n) 1.
Proof.
  induction n as [|n IH]; [done|]. intros [|b bs] v rest; [done|]. simpl.
  destruct (Z_of_byte b <? 128)%Z; [intros [= <- <-]; simpl; by split; [lia|]|].
  destruct (varint_loop n bs) as [[v' rest']|] eqn:Hv; simpl; [|done]. intros [= <- <-].
  destruct (IH _ _ _ Hv) as [? Hext]. split; [lia|]. intros x. by rewrite Hext.
Qed.

Lemma reads_varint : reads decode_varint 1.
Proof.
  apply (reads_bind (varint_loop 10) (λ v bs, if (v <? 2 ^ 64)%Z then Some (v, bs) else None) 1);
    [lia|apply reads_varint_loop|]. intros v.
  destruct (v <? 2 ^ 64)%Z; [apply reads_Some|by intros ???].
Qed.

Lemma reads_split n : reads (split_bytes n) 0.
Proof.
  intros bs a rest. unfold split_bytes. destruct (Nat.leb_spec n (length bs)); [|done].
  intros [= <- <-]. rewrite length_drop. split; [lia|]. intros x.
  rewrite length_app, (proj2 (Nat.leb_le _ _)) by lia.
  by rewrite take_app_le, drop_app_le by lia.
Qed.

Lemma reads_payload wire : reads (decode_payload wire) 0.
Proof.
  unfold decode_payload.
  destruct (wire =? 0)%Z; [|destruct (wire =? 1)%Z; [|destruct (wire =? 2)%Z; [|destruct (wire =? 5)%Z]]].
  - eapply reads_weaken; [eapply (reads_bind _ _ 1 1); [lia|apply reads_varint|intros; apply reads_Some]|lia].
  - eapply (reads_bind _ _ 0); [lia|apply reads_split|intros; apply reads_Some].
  - eapply reads_weaken; [eapply (reads_bind _ _ 1 1); [lia|apply reads_varint|intros l]|lia].
    eapply (reads_bind _ _ 0); [lia|apply reads_split|intros; apply reads_Some].
  - eapply (reads_bind _ _ 0); [lia|apply reads_split|intros; apply reads_Some].
  - by intros ???.
Qed.

Lemma reads_field : reads decode_field 1.
Proof.
  eapply (reads_bind _ _ 1); [lia|apply reads_varint|intros key].
  eapply (reads_bind _ _ 0); [lia|apply reads_payload|intros; apply reads_Some].
Qed.

(** The length of the input is enough fuel. *)
Lemma decode_fields_fuel n m bs fs :
  decode_fields n bs = Some fs → length bs ≤ m → decode_fields m bs = Some fs.
Proof.
  revert m bs fs. induction n as [|n IH]; intros m [|b bs] fs; simpl; try (by destruct m).
  intros H Hm. destruct m as [|m]; [lia|]. simpl.
  destruct (decode_field (b :: bs)) as [[f rest]|] eqn:Hf; simpl in *; [|done].
  destruct (decode_fields n rest) as [fs'|] eqn:Hn; simpl in *; [|done]. simplify_eq.
  destruct (reads_field _ _ _ Hf) as [Hlen _]. simpl in Hlen. by rewrite (IH m rest fs' Hn) by lia.
Qed.

Lemma decode_fields_snoc n bs fs b f :
  decode_fields n bs = Some fs → decode_field b = Some (f, []) →
  decode_fields (S n) (bs ++ b) = Some (fs ++ [f]).
Proof.
  intros H Hb. revert bs fs H. induction n as [|n IH]; intros bs fs H.
  - destruct bs; simplify_eq/=. destruct b; [done|]. simpl. by rewrite Hb.
  - destruct bs as [|c bs]; simplify_eq/=; [destruct b; [done|]; simpl; by rewrite Hb|].
    destruct (decode_field (c :: bs)) as [[f' rest]|] eqn:Hf; simpl in H; [|done].
    destruct (decode_fields n rest) as [fs'|] eqn:Hn; simpl in H; [|done]. simplify_eq.
    destruct (reads_field _ _ _ Hf) as [_ Hext]. specialize (Hext b). simpl in Hext. rewrite Hext. simpl.
    by rewrite (IH _ _ Hn).
Qed.

Lemma unknown_fields_intro max s n fs :
  decode_fields n (data s) = Some fs → Forall (λ f, max ≤ f.1)%Z fs → unknown_fields max s = true.
Proof.
  intros H Hall. unfold unknown_fields. rewrite (decode_fields_fuel _ (len s) _ _ H) by done.
  apply forallb_forall. intros f Hf. rewrite list.Forall_forall in Hall.
  apply Z.leb_le, Hall. by apply list_elem_of_In.
Qed.
