(* ===== verification/Proto.v ===== *)
(** * remotedb/proto: the messages of the gRPC service

    The structs of defs.pb.go with their generated comparisons, and what the
    protobuf library does to a message that is sent: an empty byte string is
    the default value of proto3, it is not encoded and is nil at the receiver. *)

From S2P Require Import Prelude Go Wire.

(** ** Messages *)

Module protodb.

(** [type Operation_Type int32] *)
Definition Operation_SET : Z := 0.
Definition Operation_DELETE : Z := 1.

Record Entity := {
  Entity_Id : Z;
  Entity_Key : slice;
  Entity_Value : slice;
  Entity_Exists : bool;
  Entity_Start : slice;
  Entity_End : slice;
  Entity_Err : string;
  Entity_CreatedAt : Z;
  Entity_unrecognized : slice;
}.

Record Operation := {
  Operation_Entity : option Entity;
  Operation_Type : Z;
  Operation_unrecognized : slice;
}.

Record Batch := { Batch_Ops : list (option Operation); Batch_unrecognized : slice }.

Record Nothing := { Nothing_unrecognized : slice }.

Record Domain := { Domain_Start : slice; Domain_End : slice; Domain_unrecognized : slice }.

Record Iterator := {
  Iterator_Domain : option Domain;
  Iterator_Valid : bool;
  Iterator_Key : slice;
  Iterator_Value : slice;
  Iterator_unrecognized : slice;
}.

Record Stats := { Stats_Data : gmap string string; Stats_TimeAt : Z; Stats_unrecognized : slice }.

Record Init := { Init_Type : string; Init_Name : string; Init_Dir : string; Init_unrecognized : slice }.

(** Composite literals: the fields that are not named are zero. *)
Definition Entity0 : Entity :=
  {| Entity_Id := 0; Entity_Key := None; Entity_Value := None; Entity_Exists := false;
     Entity_Start := None; Entity_End := None; Entity_Err := ""; Entity_CreatedAt := 0;
     Entity_unrecognized := None |}.
Definition EntityKV (key value : slice) : Entity :=
  {| Entity_Id := 0; Entity_Key := key; Entity_Value := value; Entity_Exists := false;
     Entity_Start := None; Entity_End := None; Entity_Err := ""; Entity_CreatedAt := 0;
     Entity_unrecognized := None |}.
Definition EntityRange (start end_ : slice) : Entity :=
  {| Entity_Id := 0; Entity_Key := None; Entity_Value := None; Entity_Exists := false;
     Entity_Start := start; Entity_End := end_; Entity_Err := ""; Entity_CreatedAt := 0;
     Entity_unrecognized := None |}.
Definition EntityExists (exists_ : bool) : Entity :=
  {| Entity_Id := 0; Entity_Key := None; Entity_Value := None; Entity_Exists := exists_;
     Entity_Start := None; Entity_End := None; Entity_Err := ""; Entity_CreatedAt := 0;
     Entity_unrecognized := None |}.
Definition EntityCreatedAt (createdAt : Z) : Entity :=
  {| Entity_Id := 0; Entity_Key := None; Entity_Value := None; Entity_Exists := false;
     Entity_Start := None; Entity_End := None; Entity_Err := ""; Entity_CreatedAt := createdAt;
     Entity_unrecognized := None |}.
Definition EntityErr (key : slice) (err : string) : Entity :=
  {| Entity_Id := 0; Entity_Key := key; Entity_Value := None; Entity_Exists := false;
     Entity_Start := None; Entity_End := None; Entity_Err := err; Entity_CreatedAt := 0;
     Entity_unrecognized := None |}.

End protodb.
Import protodb.

(** ** The generated comparisons

    [func (this *T) Equal(that interface{}) bool] takes a nil interface, a
    pointer, a value of [T], or a value of another type. *)

Inductive iface (T : Type) := INil | IPtr (p : option T) | IVal (v : T) | IOther.
Arguments INil {_}.
Arguments IPtr {_} _.
Arguments IVal {_} _.
Arguments IOther {_}.

(** The part all of them share; [fields] compares two structs. *)
Definition Equal_with {T} (fields : T → T → bool) (this : option T) (that : iface T) : bool :=
  match that with
  | INil => match this with None => true | Some _ => false end
  | IOther => false
  | IPtr None => match this with None => true | Some _ => false end
  | IPtr (Some that1) | IVal that1 =>
      match this with None => false | Some this => fields this that1 end
  end.

Definition Entity_Equal : option Entity → iface Entity → bool := Equal_with (λ this that1,
  if negb (Entity_Id this =? Entity_Id that1)%Z then false
  else if negb (bytes_Equal (Entity_Key this) (Entity_Key that1)) then false
  else if negb (bytes_Equal (Entity_Value this) (Entity_Value that1)) then false
  else if negb (eqb (Entity_Exists this) (Entity_Exists that1)) then false
  else if negb (bytes_Equal (Entity_Start this) (Entity_Start that1)) then false
  else if negb (bytes_Equal (Entity_End this) (Entity_End that1)) then false
  else if negb (String.eqb (Entity_Err this) (Entity_Err that1)) then false
  else if negb (Entity_CreatedAt this =? Entity_CreatedAt that1)%Z then false
  else if negb (bytes_Equal (Entity_unrecognized this) (Entity_unrecognized that1)) then false
  else true).

Definition Operation_Equal : option Operation → iface Operation → bool := Equal_with (λ this that1,
  if negb (Entity_Equal (Operation_Entity this) (IPtr (Operation_Entity that1))) then false
  else if negb (Operation_Type this =? Operation_Type that1)%Z then false
  else if negb (bytes_Equal (Operation_unrecognized this) (Operation_unrecognized that1)) then false
  else true).

(** [for i := range this.Ops { if !this.Ops[i].Equal(that1.Ops[i]) { return false } }] *)
Fixpoint ops_Equal (l l' : list (option Operation)) : bool :=
  match l, l' with
  | op :: l, op' :: l' => if negb (Operation_Equal op (IPtr op')) then false else ops_Equal l l'
  | _, _ => true
  end.

Definition Batch_Equal : option Batch → iface Batch → bool := Equal_with (λ this that1,
  if negb (length (Batch_Ops this) =? length (Batch_Ops that1)) then false
  else if negb (ops_Equal (Batch_Ops this) (Batch_Ops that1)) then false
  else if negb (bytes_Equal (Batch_unrecognized this) (Batch_unrecognized that1)) then false
  else true).

Definition Nothing_Equal : option Nothing → iface Nothing → bool := Equal_with (λ this that1,
  if negb (bytes_Equal (Nothing_unrecognized this) (Nothing_unrecognized that1)) then false
  else true).

Definition Domain_Equal : option Domain → iface Domain → bool := Equal_with (λ this that1,
  if negb (bytes_Equal (Domain_Start this) (Domain_Start that1)) then false
  else if negb (bytes_Equal (Domain_End this) (Domain_End that1)) then false
  else if negb (bytes_Equal (Domain_unrecognized this) (Domain_unrecognized that1)) then false
  else true).

Definition Iterator_Equal : option Iterator → iface Iterator → bool := Equal_with (λ this that1,
  if negb (Domain_Equal (Iterator_Domain this) (IPtr (Iterator_Domain that1))) then false
  else if negb (eqb (Iterator_Valid this) (Iterator_Valid that1)) then false
  else if negb (bytes_Equal (Iterator_Key this) (Iterator_Key that1)) then false
  else if negb (bytes_Equal (Iterator_Value this) (Iterator_Value that1)) then false
  else if negb (bytes_Equal (Iterator_unrecognized this) (Iterator_unrecognized that1)) then false
  else true).

(** [this.Data[i] != that1.Data[i]] for the keys of [this.Data]; a key that is
    not in a Go map has the value "". *)
Definition map_get (m : gmap string string) (k : string) : string := default "" (m !! k).

Definition Stats_Equal : option Stats → iface Stats → bool := Equal_with (λ this that1,
  if negb (size (Stats_Data this) =? size (Stats_Data that1)) then false
  else if negb (forallb (λ i, String.eqb (map_get (Stats_Data this) i) (map_get (Stats_Data that1) i))
                  (map_to_list (Stats_Data this)).*1) then false
  else if negb (Stats_TimeAt this =? Stats_TimeAt that1)%Z then false
  else if negb (bytes_Equal (Stats_unrecognized this) (Stats_unrecognized that1)) then false
  else true).

Definition Init_Equal : option Init → iface Init → bool := Equal_with (λ this that1,
  if negb (String.eqb (Init_Type this) (Init_Type that1)) then false
  else if negb (String.eqb (Init_Name this) (Init_Name that1)) then false
  else if negb (String.eqb (Init_Dir this) (Init_Dir that1)) then false
  else if negb (bytes_Equal (Init_unrecognized this) (Init_unrecognized that1)) then false
  else true).

(** ** What a message becomes on the wire *)

Definition norm_bytes (s : slice) : slice := if len s =? 0 then None else s.

Class Message (T : Type) := {
  norm : T → T;
  (** a bound on the length of the encoding *)
  msg_size : T → nat;
  (** the library can encode and decode it: integers have their width, strings are
      valid UTF-8, no element of a list is nil, and the bytes of
      [XXX_unrecognized] are fields the message does not have *)
  valid_msg : T → Prop;
}.

(** Strings the sources send are ASCII, hence valid UTF-8. *)
Definition is_ascii (s : string) : bool :=
  forallb (λ c, (Ascii.nat_of_ascii c <? 128)) (String.list_ascii_of_string s).

#[global] Instance Entity_message : Message Entity := {|
  norm e :=
    {| Entity_Id := Entity_Id e; Entity_Key := norm_bytes (Entity_Key e);
       Entity_Value := norm_bytes (Entity_Value e); Entity_Exists := Entity_Exists e;
       Entity_Start := norm_bytes (Entity_Start e); Entity_End := norm_bytes (Entity_End e);
       Entity_Err := Entity_Err e; Entity_CreatedAt := Entity_CreatedAt e;
       Entity_unrecognized := norm_bytes (Entity_unrecognized e) |};
  msg_size e :=
    len (Entity_Key e) + len (Entity_Value e) + len (Entity_Start e) + len (Entity_End e) +
    String.length (Entity_Err e) + len (Entity_unrecognized e) + 100;
  valid_msg e := in_int32 (Entity_Id e) ∧ is_ascii (Entity_Err e) = true ∧
    in_int64 (Entity_CreatedAt e) ∧ unknown_fields 9 (Entity_unrecognized e) = true;
|}.

#[global] Instance Operation_message : Message Operation := {|
  norm op :=
    {| Operation_Entity := norm <$> Operation_Entity op; Operation_Type := Operation_Type op;
       Operation_unrecognized := norm_bytes (Operation_unrecognized op) |};
  msg_size op := from_option msg_size 0 (Operation_Entity op) + len (Operation_unrecognized op) + 40;
  valid_msg op := from_option valid_msg True (Operation_Entity op) ∧ in_int32 (Operation_Type op) ∧
    unknown_fields 3 (Operation_unrecognized op) = true;
|}.

#[global] Instance Batch_message : Message Batch := {|
  norm b :=
    {| Batch_Ops := fmap (M := option) norm <$> Batch_Ops b;
       Batch_unrecognized := norm_bytes (Batch_unrecognized b) |};
  msg_size b :=
    sum_list_with (from_option (λ op, msg_size op + 20) 0) (Batch_Ops b) + len (Batch_unrecognized b);
  valid_msg b := Forall (from_option valid_msg False) (Batch_Ops b) ∧
    unknown_fields 2 (Batch_unrecognized b) = true;
|}.

#[global] Instance Nothing_message : Message Nothing := {|
  norm n := {| Nothing_unrecognized := norm_bytes (Nothing_unrecognized n) |};
  msg_size n := len (Nothing_unrecognized n);
  valid_msg n := unknown_fields 1 (Nothing_unrecognized n) = true;
|}.

#[global] Instance Domain_message : Message Domain := {|
  norm d :=
    {| Domain_Start := norm_bytes (Domain_Start d); Domain_End := norm_bytes (Domain_End d);
       Domain_unrecognized := norm_bytes (Domain_unrecognized d) |};
  msg_size d := len (Domain_Start d) + len (Domain_End d) + len (Domain_unrecognized d) + 40;
  valid_msg d := unknown_fields 3 (Domain_unrecognized d) = true;
|}.

#[global] Instance Iterator_message : Message Iterator := {|
  norm i :=
    {| Iterator_Domain := norm <$> Iterator_Domain i; Iterator_Valid := Iterator_Valid i;
       Iterator_Key := norm_bytes (Iterator_Key i); Iterator_Value := norm_bytes (Iterator_Value i);
       Iterator_unrecognized := norm_bytes (Iterator_unrecognized i) |};
  msg_size i :=
    from_option msg_size 0 (Iterator_Domain i) + len (Iterator_Key i) + len (Iterator_Value i) +
    len (Iterator_unrecognized i) + 60;
  valid_msg i := from_option valid_msg True (Iterator_Domain i) ∧
    unknown_fields 5 (Iterator_unrecognized i) = true;
|}.

#[global] Instance Stats_message : Message Stats := {|
  norm s :=
    {| Stats_Data := Stats_Data s; Stats_TimeAt := Stats_TimeAt s;
       Stats_unrecognized := norm_bytes (Stats_unrecognized s) |};
  msg_size s :=
    sum_list_with (λ kv, String.length kv.1 + String.length kv.2 + 40) (map_to_list (Stats_Data s)) +
    len (Stats_unrecognized s) + 20;
  valid_msg s := map_Forall (λ k v, is_ascii k = true ∧ is_ascii v = true) (Stats_Data s) ∧
    in_int64 (Stats_TimeAt s) ∧ unknown_fields 3 (Stats_unrecognized s) = true;
|}.

#[global] Instance Init_message : Message Init := {|
  norm i :=
    {| Init_Type := Init_Type i; Init_Name := Init_Name i; Init_Dir := Init_Dir i;
       Init_unrecognized := norm_bytes (Init_unrecognized i) |};
  msg_size i :=
    String.length (Init_Type i) + String.length (Init_Name i) + String.length (Init_Dir i) +
    len (Init_unrecognized i) + 40;
  valid_msg i := is_ascii (Init_Type i) = true ∧ is_ascii (Init_Name i) = true ∧
                 is_ascii (Init_Dir i) = true ∧ unknown_fields 4 (Init_unrecognized i) = true;
|}.

(** The library's [Marshal] and [Unmarshal] (called by [XXX_Marshal] and
    [XXX_Unmarshal]); [F] is the type of encodings and [max_msg] the largest
    message the connection takes. *)
Class Codec (F T : Type) `{!Message T} (max_msg : nat) := {
  Marshal : T → result F;
  Unmarshal : F → result T;
  codec_roundtrip x : valid_msg x → msg_size x ≤ max_msg →
    ∃ f, Marshal x = Ok f ∧ Unmarshal f = Ok (norm x);
}.

(** ** Lemmas *)

(** A message whose scalar fields are constants is valid. *)
Ltac plain_msg := cbn; unfold in_int32, in_int64; repeat split; (reflexivity || lia).

Lemma norm_bytes_Some k : k ≠ [] → norm_bytes (Some k) = Some k.
Proof. by destruct k. Qed.

Lemma norm_bytes_data s : data (norm_bytes s) = data s.
Proof. by destruct s as [[|]|]. Qed.

Lemma norm_bytes_len s : len (norm_bytes s) = len s.
Proof. by destruct s as [[|]|]. Qed.

Lemma norm_bytes_idemp s : norm_bytes (norm_bytes s) = norm_bytes s.
Proof. by destruct s as [[|]|]. Qed.

(** [bytes.Equal] is equality up to what the wire forgets. *)
Lemma bytes_Equal_norm s t : bytes_Equal s t = true ↔ norm_bytes s = norm_bytes t.
Proof.
  unfold bytes_Equal. rewrite bool_decide_eq_true. split.
  - intros H. destruct s as [[|??]|], t as [[|??]|]; simpl in H; by simplify_eq.
  - intros H. by rewrite <-(norm_bytes_data s), <-(norm_bytes_data t), H.
Qed.

Lemma reject_first b c : (if negb b then false else c) = true ↔ b = true ∧ c = true.
Proof. destruct b; naive_solver. Qed.

Lemma Build_Batch_inj l u l' u' : Build_Batch l u = Build_Batch l' u' → l = l' ∧ u = u'.
Proof. by injection 1. Qed.

(** Structs are equal when their fields are. *)
Ltac fields_eq :=
  split; [intros; destruct_and!; congruence|let H := fresh in intros H; injection H; by intros; split_and!].

(** A comparison of pointers is right when the comparison of structs is. *)
Lemma Equal_ptr {T} `{!Message T} (fields : T → T → bool) :
  (∀ a b, fields a b = true ↔ norm a = norm b) →
  ∀ a b : option T, Equal_with fields a (IPtr b) = true ↔ norm <$> a = norm <$> b.
Proof.
  intros H [a|] [b|]; [|done..]. simpl. rewrite H. split; [by intros ->|by intros [= ->]].
Qed.

Lemma Entity_Equal_spec (a b : option Entity) :
  Entity_Equal a (IPtr b) = true ↔ norm <$> a = norm <$> b.
Proof.
  apply Equal_ptr. clear. intros [] []. cbn -[bytes_Equal norm_bytes Z.eqb String.eqb eqb].
  rewrite !reject_first, !bytes_Equal_norm, !Z.eqb_eq, !String.eqb_eq, !eqb_true_iff. fields_eq.
Qed.

Lemma Operation_Equal_spec (a b : option Operation) :
  Operation_Equal a (IPtr b) = true ↔ norm <$> a = norm <$> b.
Proof.
  apply Equal_ptr. clear. intros [] []. cbn -[bytes_Equal norm_bytes Z.eqb Entity_Equal fmap Entity_message].
  rewrite !reject_first, !bytes_Equal_norm, !Z.eqb_eq, Entity_Equal_spec. fields_eq.
Qed.

Lemma ops_Equal_spec (l l' : list (option Operation)) :
  length l = length l' →
  ops_Equal l l' = true ↔ fmap (M := option) norm <$> l = fmap (M := option) norm <$> l'.
Proof.
  revert l'. induction l as [|op l IH]; intros [|op' l'] Hl; try done. injection Hl as Hl.
  change (ops_Equal (op :: l) (op' :: l')) with
    (if negb (Operation_Equal op (IPtr op')) then false else ops_Equal l l').
  rewrite reject_first, Operation_Equal_spec, IH by done. rewrite !fmap_cons. split.
  - by intros [-> ->].
  - by intros [= H ?].
Qed.

Lemma Batch_Equal_spec (a b : option Batch) :
  Batch_Equal a (IPtr b) = true ↔ norm <$> a = norm <$> b.
Proof.
  apply Equal_ptr. clear. intros [l u] [l' u']. cbn -[bytes_Equal norm_bytes ops_Equal fmap Operation_message].
  rewrite !reject_first, bytes_Equal_norm, Nat.eqb_eq. split.
  - intros (Hl & H & Hu & _). rewrite ops_Equal_spec in H by done. by rewrite H, Hu.
  - intros [H Hu]%Build_Batch_inj. assert (length l = length l') as Hl.
    { apply (f_equal length) in H. by rewrite !length_fmap in H. }
    by rewrite ops_Equal_spec.
Qed.

Lemma Domain_Equal_spec (a b : option Domain) :
  Domain_Equal a (IPtr b) = true ↔ norm <$> a = norm <$> b.
Proof.
  apply Equal_ptr. clear. intros [] []. cbn -[bytes_Equal norm_bytes].
  rewrite !reject_first, !bytes_Equal_norm. fields_eq.
Qed.

Lemma Iterator_Equal_spec (a b : option Iterator) :
  Iterator_Equal a (IPtr b) = true ↔ norm <$> a = norm <$> b.
Proof.
  apply Equal_ptr. clear. intros [] []. cbn -[bytes_Equal norm_bytes eqb Domain_Equal fmap Domain_message].
  rewrite !reject_first, !bytes_Equal_norm, !eqb_true_iff, Domain_Equal_spec. fields_eq.
Qed.

Lemma Init_Equal_spec (a b : option Init) :
  Init_Equal a (IPtr b) = true ↔ norm <$> a = norm <$> b.
Proof.
  apply Equal_ptr. clear. intros [] []. cbn -[bytes_Equal norm_bytes String.eqb].
  rewrite !reject_first, !bytes_Equal_norm, !String.eqb_eq. fields_eq.
Qed.

Lemma Nothing_Equal_spec (a b : option Nothing) :
  Nothing_Equal a (IPtr b) = true ↔ norm <$> a = norm <$> b.
Proof.
  apply Equal_ptr. clear. intros [] []. cbn -[bytes_Equal norm_bytes].
  rewrite !reject_first, !bytes_Equal_norm. fields_eq.
Qed.

(** The loop of [Stats.Equal] over the keys of [this.Data]. *)
Lemma data_Equal_spec (m m' : gmap string string) :
  map_Forall (λ _ v, v ≠ "") m → size m = size m' →
  forallb (λ i, String.eqb (map_get m i) (map_get m' i)) (map_to_list m).*1 = true → m = m'.
Proof.
  intros Hne Hsz Hall. apply (map_subseteq_size_eq m m'); [|by rewrite Hsz].
  apply map_subseteq_spec. intros k v Hk. rewrite forallb_forall in Hall.
  assert (In k (map_to_list m).*1) as Hin.
  { apply list_elem_of_In, list_elem_of_fmap. exists (k, v). by rewrite elem_of_map_to_list. }
  apply Hall, String.eqb_eq in Hin. unfold map_get in Hin. rewrite Hk in Hin. simpl in Hin.
  specialize (Hne k v Hk). destruct (m' !! k) as [v'|]; simplify_eq/=; done.
Qed.

(** Right when no value of the map is empty: a missing key reads as "". *)
Lemma Stats_Equal_spec (a b : Stats) : map_Forall (λ _ v, v ≠ "") (Stats_Data a) →
  Stats_Equal (Some a) (IPtr (Some b)) = true ↔ norm a = norm b.
Proof.
  destruct a as [m t u], b as [m' t' u']. intros Hne. simpl in Hne.
  cbn -[bytes_Equal norm_bytes String.eqb Z.eqb forallb size]. rewrite !reject_first, bytes_Equal_norm, Z.eqb_eq, Nat.eqb_eq.
  split.
  - intros (Hsz & Hall & -> & -> & _). by rewrite (data_Equal_spec m m' Hne Hsz Hall).
  - intros [= -> -> ->]. split_and!; try done. apply forallb_forall. intros k _. apply String.eqb_refl.
Qed.

(** Two different maps that [Equal] takes for equal. *)
Lemma Stats_Equal_confused :
  let stats k := {| Stats_Data := {[ k := "" ]}; Stats_TimeAt := 0; Stats_unrecognized := None |} in
  Stats_Equal (Some (stats "a")) (IPtr (Some (stats "b"))) = true ∧ norm (stats "a") ≠ norm (stats "b").
Proof. split; [reflexivity|]. by intros [=]. Qed.

Lemma Entity_norm_idemp (e : Entity) : norm (norm e) = norm e.
Proof. destruct e. cbn -[norm_bytes]. by rewrite !norm_bytes_idemp. Qed.

Lemma Operation_norm_idemp (op : Operation) : norm (norm op) = norm op.
Proof.
  destruct op as [[e|] t u]; cbn -[norm_bytes Entity_message]; by rewrite ?Entity_norm_idemp, norm_bytes_idemp.
Qed.

Lemma Batch_norm_idemp (b : Batch) : norm (norm b) = norm b.
Proof.
  destruct b as [l u]. cbn -[norm_bytes fmap Operation_message]. rewrite norm_bytes_idemp. f_equal.
  rewrite <-list_fmap_compose. apply list_fmap_ext. intros _ [op|] _; [|done].
  exact (f_equal Some (Operation_norm_idemp op)).
Qed.

Lemma Domain_norm_idemp (d : Domain) : norm (norm d) = norm d.
Proof. destruct d. cbn -[norm_bytes]. by rewrite !norm_bytes_idemp. Qed.

Lemma Iterator_norm_idemp (i : Iterator) : norm (norm i) = norm i.
Proof.
  destruct i as [[d|] v k w u]; cbn -[norm_bytes Domain_message];
    by rewrite ?Domain_norm_idemp, !norm_bytes_idemp.
Qed.

Lemma Init_norm_idemp (i : Init) : norm (norm i) = norm i.
Proof. destruct i. cbn -[norm_bytes]. by rewrite !norm_bytes_idemp. Qed.

Lemma Nothing_norm_idemp (n : Nothing) : norm (norm n) = norm n.
Proof. destruct n. cbn -[norm_bytes]. by rewrite norm_bytes_idemp. Qed.

(** ** Sending and receiving *)

(** What the receiver gets. *)
Definition transfer {F T} (max_msg : nat) `{!Message T, !Codec F T max_msg} (x : T) : result T :=
  match Marshal x with Ok f => Unmarshal f | Err e => Err e | Panic m => Panic m | Diverge => Diverge end.

Lemma transfer_norm {F T} (max_msg : nat) `{!Message T, !Codec F T max_msg} (x : T) :
  valid_msg x → msg_size x ≤ max_msg → transfer (F := F) max_msg x = Ok (norm x).
Proof. intros Hv Hs. destruct (codec_roundtrip x Hv Hs) as (f & H1 & H2). unfold transfer. by rewrite H1. Qed.

(** [Equal] tells a message from its copy at the receiver never, and two
    messages apart exactly when their copies differ. *)
Definition Equal_follows_wire {F T} (max_msg : nat) `{!Message T, !Codec F T max_msg}
    (Equal : option T → iface T → bool) : Prop :=
  ∀ a b : T, valid_msg a → valid_msg b → msg_size a ≤ max_msg → msg_size b ≤ max_msg →
  ∃ a' b', transfer (F := F) max_msg a = Ok a' ∧ transfer (F := F) max_msg b = Ok b' ∧
    Equal (Some a) (IPtr (Some a')) = true ∧ (Equal (Some a) (IPtr (Some b)) = true ↔ a' = b').

Lemma Equal_follows_norm {F T} (max_msg : nat) `{!Message T, !Codec F T max_msg}
    (Equal : option T → iface T → bool) :
  (∀ a b, Equal a (IPtr b) = true ↔ norm <$> a = norm <$> b) → (∀ x : T, norm (norm x) = norm x) →
  Equal_follows_wire (F := F) max_msg Equal.
Proof.
  intros H Hidemp a b Ha Hb Hla Hlb. exists (norm a), (norm b).
  rewrite !transfer_norm, !H by done. simpl. rewrite Hidemp.
  split_and!; [done|done|done|]. split; [by intros [= ?]|by intros ->].
Qed.

(** C37: the generated [Equal] methods compare messages up to what the encoding
    forgets: a message is [Equal] to its copy at the receiver, and two messages
    are [Equal] exactly when their copies are the same.  For [Stats] this holds
    of messages without empty values in their map only: with them [Equal] takes
    some different messages for equal. *)
Theorem Equal_up_to_encoding F max_msg `{!Codec F Entity max_msg, !Codec F Operation max_msg,
    !Codec F Batch max_msg, !Codec F Nothing max_msg, !Codec F Domain max_msg,
    !Codec F Iterator max_msg, !Codec F Init max_msg} :
  Equal_follows_wire (F := F) max_msg Entity_Equal ∧ Equal_follows_wire (F := F) max_msg Operation_Equal ∧
  Equal_follows_wire (F := F) max_msg Batch_Equal ∧ Equal_follows_wire (F := F) max_msg Nothing_Equal ∧
  Equal_follows_wire (F := F) max_msg Domain_Equal ∧ Equal_follows_wire (F := F) max_msg Iterator_Equal ∧
  Equal_follows_wire (F := F) max_msg Init_Equal ∧
  (∀ a b : Stats, map_Forall (λ _ v, v ≠ "") (Stats_Data a) →
    Stats_Equal (Some a) (IPtr (Some b)) = true ↔ norm a = norm b) ∧
  ∃ a b : Stats, Stats_Equal (Some a) (IPtr (Some b)) = true ∧ norm a ≠ norm b.
Proof.
  repeat apply conj; try (apply Equal_follows_norm).
  - exact Entity_Equal_spec.
  - exact Entity_norm_idemp.
  - exact Operation_Equal_spec.
  - exact Operation_norm_idemp.
  - exact Batch_Equal_spec.
  - exact Batch_norm_idemp.
  - exact Nothing_Equal_spec.
  - exact Nothing_norm_idemp.
  - exact Domain_Equal_spec.
  - exact Domain_norm_idemp.
  - exact Iterator_Equal_spec.
  - exact Iterator_norm_idemp.
  - exact Init_Equal_spec.
  - exact Init_norm_idemp.
  - exact Stats_Equal_spec.
  - eexists _, _. exact Stats_Equal_confused.
Qed.

(** ** A concrete codec *)

Module RefCodec.

Inductive frame :=
  | FEntity (e : Entity) | FBatch (b : Batch) | FNothing (n : Nothing)
  | FIterator (i : Iterator) | FStats (s : Stats) | FInit (i : Init)
  | FOperation (op : Operation) | FDomain (d : Domain).

Definition errWrongType : error := errLib "proto" "wrong wire type".

#[local] Ltac codec := intros x _ _; by eexists.

#[global, refine] Instance entity_codec max_msg : Codec frame Entity max_msg := {|
  Marshal e := Ok (FEntity (norm e));
  Unmarshal f := match f with FEntity e => Ok e | _ => Err errWrongType end |}.
Proof. codec. Defined.
#[global, refine] Instance batch_codec max_msg : Codec frame Batch max_msg := {|
  Marshal e := Ok (FBatch (norm e));
  Unmarshal f := match f with FBatch e => Ok e | _ => Err errWrongType end |}.
Proof. codec. Defined.
#[global, refine] Instance nothing_codec max_msg : Codec frame Nothing max_msg := {|
  Marshal e := Ok (FNothing (norm e));
  Unmarshal f := match f with FNothing e => Ok e | _ => Err errWrongType end |}.
Proof. codec. Defined.
#[global, refine] Instance iterator_codec max_msg : Codec frame Iterator max_msg := {|
  Marshal e := Ok (FIterator (norm e));
  Unmarshal f := match f with FIterator e => Ok e | _ => Err errWrongType end |}.
Proof. codec. Defined.
#[global, refine] Instance stats_codec max_msg : Codec frame Stats max_msg := {|
  Marshal e := Ok (FStats (norm e));
  Unmarshal f := match f with FStats e => Ok e | _ => Err errWrongType end |}.
Proof. codec. Defined.
#[global, refine] Instance init_codec max_msg : Codec frame Init max_msg := {|
  Marshal e := Ok (FInit (norm e));
  Unmarshal f := match f with FInit e => Ok e | _ => Err errWrongType end |}.
Proof. codec. Defined.
#[global, refine] Instance operation_codec max_msg : Codec frame Operation max_msg := {|
  Marshal e := Ok (FOperation (norm e));
  Unmarshal f := match f with FOperation e => Ok e | _ => Err errWrongType end |}.
Proof. codec. Defined.
#[global, refine] Instance domain_codec max_msg : Codec frame Domain max_msg := {|
  Marshal e := Ok (FDomain (norm e));
  Unmarshal f := match f with FDomain e => Ok e | _ => Err errWrongType end |}.
Proof. codec. Defined.

End RefCodec.

Lemma Equal_up_to_encoding_witness :
  ∃ a', transfer (F := RefCodec.frame) 1000 (EntityKV (Some [x61]) (Some [])) = Ok a' ∧
    Entity_Value a' = None ∧
    Entity_Equal (Some (EntityKV (Some [x61]) (Some []))) (IPtr (Some a')) = true.
Proof.
  destruct (Equal_up_to_encoding RefCodec.frame 1000) as [H _].
  destruct (H (EntityKV (Some [x61]) (Some [])) Entity0) as (a' & b' & H1 & _ & H2 & _).
  - plain_msg.
  - plain_msg.
  - cbv. lia.
  - cbv. lia.
  - exists a'. injection H1 as <-. split; [reflexivity|]. split; [reflexivity|exact H2].
Defined.
