(* ===== verification/Populate.v ===== *)
(** * remotedb/proto/defs.pb.go: random messages

    The generated [NewPopulated...] functions, which make random messages out of
    a source of random numbers, with the encoder of varints and of unknown
    fields they use.  The source, an interface of the file, is a type class with
    the documented ranges of math/rand as laws. *)

From S2P Require Import Prelude Go Util Spec Types TestHelpers Wire Proto.
Import protodb.

(** ** The source of random numbers *)

(** [type randyDefs interface]; the methods the file calls. *)
Class randyDefs (R : Type) := {
  Int63 : M R Z;
  Int31 : M R Z;
  Intn : Z → M R Z;
}.

(** A call that returns, whatever the state, a value with the property [P]. *)
Definition yields {R A} (m : M R A) (P : A → Prop) : Prop := ∀ r, ∃ a r', m r = (Ok a, r') ∧ P a.

Class RandyLaws (R : Type) `{!randyDefs R} := {
  rand_Int63 : yields Int63 (λ v, 0 ≤ v < 2 ^ 63)%Z;
  rand_Int31 : yields Int31 (λ v, 0 ≤ v < 2 ^ 31)%Z;
  rand_Intn n : (0 < n)%Z → yields (Intn n) (λ v, 0 ≤ v < n)%Z;
}.

(** ** Strings of Go *)

(** The bytes [string(runes)] has for a rune: UTF-8, U+FFFD for an invalid one. *)
Definition utf8 (ru : Z) : bytes :=
  let cont k := byte_of_Z (Z.lor 128 (Z.land (Z.shiftr ru k) 63)) in
  if ((0 <=? ru) && (ru <? 128))%Z then [byte_of_Z ru]
  else if ((0 <=? ru) && (ru <? 2048))%Z then [byte_of_Z (Z.lor 192 (Z.shiftr ru 6)); cont 0%Z]
  else if ((ru <? 0) || (1114111 <? ru) || ((55296 <=? ru) && (ru <=? 57343)))%Z then [xef; xbf; xbd]
  else if (ru <? 65536)%Z then [byte_of_Z (Z.lor 224 (Z.shiftr ru 12)); cont 6%Z; cont 0%Z]
  else [byte_of_Z (Z.lor 240 (Z.shiftr ru 18)); cont 12%Z; cont 6%Z; cont 0%Z].
Definition string_of_runes (l : list Z) : string := String.string_of_list_byte (mjoin (utf8 <$> l)).

(** ** Varints *)

(** [for v >= 1<<7 { ... }] and the last byte *)
Fixpoint encodeVarint_loop (fuel : nat) (dAtA : slice) (v : Z) : result slice :=
  if (2 ^ 7 <=? v)%Z then
    match fuel with
    | O => Diverge
    | S fuel =>
        encodeVarint_loop fuel (Some (data dAtA ++ [byte_of_Z (Z.lor (Z.land v 127) 128)])) (Z.shiftr v 7)
    end
  else Ok (Some (data dAtA ++ [byte_of_Z v])).

(** A [uint64] has at most ten groups of seven bits. *)
Definition encodeVarintPopulateDefs (dAtA : slice) (v : Z) : result slice := encodeVarint_loop 10 dAtA v.

Section populate.
Context {R : Type} `{!randyDefs R}.

(** [n] calls of [m], one after the other *)
Fixpoint times {A} (n : nat) (m : M R A) : M R (list A) :=
  match n with
  | O => mret []
  | S n => a ← m; l ← times n m; mret (a :: l)
  end.

(** [byte(r.Intn(256))] *)
Definition rand_byte : M R byte := v ← Intn 256; mret (byte_of_Z v).

(** [if r.Intn(n) == 0] *)
Definition one_in (n : Z) : M R bool := v ← Intn n; mret (v =? 0)%Z.

(** [v := r.Intn(100); s = make([]byte, v); for i := 0; i < v; i++ { s[i] = byte(r.Intn(256)) }] *)
Definition rand_slice : M R slice :=
  v ← Intn 100; bs ← times (Z.to_nat v) rand_byte; mret (Some bs).

Definition randUTF8RuneDefs : M R Z :=
  ru ← Intn 62;
  if (ru <? 10)%Z then mret (ru + 48)%Z
  else if (ru <? 36)%Z then mret (ru + 55)%Z
  else mret (ru + 61)%Z.

Definition randStringDefs : M R string :=
  v11 ← Intn 100; tmps ← times (Z.to_nat v11) randUTF8RuneDefs; mret (string_of_runes tmps).

Definition randFieldDefs (dAtA : slice) (fieldNumber wire : Z) : M R slice :=
  let key := Z.lor (uint32 (Z.shiftl (uint32 fieldNumber) 3)) (uint32 wire) in
  if (wire =? 0)%Z then
    dAtA ← lift_result (encodeVarintPopulateDefs dAtA (uint64 key));
    v12 ← Int63;
    negative ← one_in 2;
    let v12 := if negative : bool then int64 (v12 * -1) else v12 in
    lift_result (encodeVarintPopulateDefs dAtA (uint64 v12))
  else if (wire =? 1)%Z then
    dAtA ← lift_result (encodeVarintPopulateDefs dAtA (uint64 key));
    bs ← times 8 rand_byte;
    mret (append dAtA (Some bs))
  else if (wire =? 2)%Z then
    dAtA ← lift_result (encodeVarintPopulateDefs dAtA (uint64 key));
    ll ← Intn 100;
    dAtA ← lift_result (encodeVarintPopulateDefs dAtA (uint64 ll));
    bs ← times (Z.to_nat ll) rand_byte;
    mret (append dAtA (Some bs))
  else
    dAtA ← lift_result (encodeVarintPopulateDefs dAtA (uint64 key));
    bs ← times 4 rand_byte;
    mret (append dAtA (Some bs)).

(** [for i := 0; i < l; i++ { ... }]; [n] is [l - i] *)
Fixpoint randUnrecognized_loop (n : nat) (maxFieldNumber : Z) (dAtA : slice) : M R slice :=
  match n with
  | O => mret dAtA
  | S n =>
      wire ← Intn 4;
      let wire := if (wire =? 3)%Z then 5%Z else wire in
      k ← Intn 100;
      dAtA ← randFieldDefs dAtA (maxFieldNumber + k) wire;
      randUnrecognized_loop n maxFieldNumber dAtA
  end.

Definition randUnrecognizedDefs (maxFieldNumber : Z) : M R slice :=
  l ← Intn 5; randUnrecognized_loop (Z.to_nat l) maxFieldNumber None.

(** [if !easy && r.Intn(10) != 0 { this.XXX_unrecognized = randUnrecognizedDefs(r, n) }] *)
Definition populate_unrecognized (easy : bool) (maxFieldNumber : Z) : M R slice :=
  if easy then mret None
  else zero ← one_in 10; if zero : bool then mret None else randUnrecognizedDefs maxFieldNumber.

(** ** The messages *)

(** [x := r.Int63(); if r.Intn(2) == 0 { x *= -1 }], and the same with [Int31] *)
Definition rand_int64 : M R Z :=
  v ← Int63; negative ← one_in 2; mret (if negative : bool then int64 (int64 v * -1) else int64 v).
Definition rand_int32 : M R Z :=
  v ← Int31; negative ← one_in 2; mret (if negative : bool then int32 (int32 v * -1) else int32 v).

Definition NewPopulatedEntity (easy : bool) : M R Entity :=
  id ← rand_int32; key ← rand_slice; value ← rand_slice; exists_ ← one_in 2;
  start ← rand_slice; end_ ← rand_slice; err ← randStringDefs; createdAt ← rand_int64;
  unrecognized ← populate_unrecognized easy 9;
  mret {| Entity_Id := id; Entity_Key := key; Entity_Value := value; Entity_Exists := exists_;
          Entity_Start := start; Entity_End := end_; Entity_Err := err; Entity_CreatedAt := createdAt;
          Entity_unrecognized := unrecognized |}.

Definition NewPopulatedOperation (easy : bool) : M R Operation :=
  no_entity ← one_in 5;
  entity ← (if no_entity : bool then mret None else e ← NewPopulatedEntity easy; mret (Some e));
  i ← Intn 2;
  type ← match [0; 1]%Z !! Z.to_nat i with Some t => mret t | None => panic "index out of range" end;
  unrecognized ← populate_unrecognized easy 3;
  mret {| Operation_Entity := entity; Operation_Type := type; Operation_unrecognized := unrecognized |}.

Definition NewPopulatedBatch (easy : bool) : M R Batch :=
  no_ops ← one_in 5;
  ops ← (if no_ops : bool then mret []
         else v1 ← Intn 5; times (Z.to_nat v1) (op ← NewPopulatedOperation easy; mret (Some op)));
  unrecognized ← populate_unrecognized easy 2;
  mret {| Batch_Ops := ops; Batch_unrecognized := unrecognized |}.

Definition NewPopulatedNothing (easy : bool) : M R Nothing :=
  unrecognized ← populate_unrecognized easy 1; mret {| Nothing_unrecognized := unrecognized |}.

Definition NewPopulatedDomain (easy : bool) : M R Domain :=
  start ← rand_slice; end_ ← rand_slice; unrecognized ← populate_unrecognized easy 3;
  mret {| Domain_Start := start; Domain_End := end_; Domain_unrecognized := unrecognized |}.

Definition NewPopulatedIterator (easy : bool) : M R Iterator :=
  no_domain ← one_in 5;
  domain ← (if no_domain : bool then mret None else d ← NewPopulatedDomain easy; mret (Some d));
  valid ← one_in 2; key ← rand_slice; value ← rand_slice;
  unrecognized ← populate_unrecognized easy 5;
  mret {| Iterator_Domain := domain; Iterator_Valid := valid; Iterator_Key := key;
          Iterator_Value := value; Iterator_unrecognized := unrecognized |}.

(** [this.Data[randStringDefs(r)] = randStringDefs(r)]: the key is made first. *)
Definition rand_entry : M R (string * string) := k ← randStringDefs; v ← randStringDefs; mret (k, v).

Definition NewPopulatedStats (easy : bool) : M R Stats :=
  no_data ← one_in 5;
  entries ← (if no_data : bool then mret [] else v10 ← Intn 10; times (Z.to_nat v10) rand_entry);
  timeAt ← rand_int64;
  unrecognized ← populate_unrecognized easy 3;
  mret {| Stats_Data := foldl (λ m kv, <[kv.1 := kv.2]> m) ∅ entries; Stats_TimeAt := timeAt;
          Stats_unrecognized := unrecognized |}.

Definition NewPopulatedInit (easy : bool) : M R Init :=
  type ← randStringDefs; name ← randStringDefs; dir ← randStringDefs;
  unrecognized ← populate_unrecognized easy 4;
  mret {| Init_Type := type; Init_Name := name; Init_Dir := dir; Init_unrecognized := unrecognized |}.

End populate.

(** ** What the functions return *)

Lemma yields_ret {R A} (a : A) (P : A → Prop) : P a → yields (mret (M := M R) a) P.
Proof. intros H r. by eexists _, _. Qed.

Lemma yields_bind {R A B} (m : M R A) (f : A → M R B) P Q :
  yields m P → (∀ a, P a → yields (f a) Q) → yields (m ≫= f) Q.
Proof.
  intros Hm Hf r. destruct (Hm r) as (a & r1 & Ha & Pa). rewrite (M_bind_Ok _ _ _ _ _ Ha). by apply Hf.
Qed.

Lemma yields_mono {R A} (m : M R A) (P Q : A → Prop) : yields m P → (∀ a, P a → Q a) → yields m Q.
Proof. intros Hm H r. destruct (Hm r) as (a & r' & ? & ?). eexists _, _. eauto. Qed.

Lemma yields_lift {R A} (x : result A) (a : A) (P : A → Prop) :
  x = Ok a → P a → yields (lift_result (S := R) x) P.
Proof. intros -> H r. by eexists _, _. Qed.

Lemma yields_known {R A B} (x : result A) (a : A) (f : A → M R B) P :
  x = Ok a → yields (f a) P → yields (lift_result x ≫= f) P.
Proof. intros -> H. exact H. Qed.

(** *** Varints *)

(** A number of [S k] groups of seven bits takes at most [S k] bytes. *)
Lemma encodeVarint_loop_spec k fuel dAtA v : k ≤ fuel → (0 ≤ v < 128 ^ Z.of_nat (S k))%Z →
  ∃ e, encodeVarint_loop fuel dAtA v = Ok (Some (data dAtA ++ e)) ∧ length e ≤ S k ∧
    ∀ n rest, S k ≤ n → varint_loop n (e ++ rest) = Some (v, rest).
Proof.
  revert fuel dAtA v. induction k as [|k IH]; intros fuel dAtA v Hk Hv;
    (destruct (Z.leb_spec (2 ^ 7) v) as [H7|H7];
     [|exists [byte_of_Z v]; split; [destruct fuel; simpl; by rewrite (proj2 (Z.leb_gt _ _))|];
       split; [simpl; lia|]; intros [|n] rest ?; [lia|]; simpl;
       rewrite Z_of_byte_of_Z, Z.mod_small by lia; by rewrite (proj2 (Z.ltb_lt _ _)) by lia]).
  { change (128 ^ Z.of_nat 1)%Z with 128%Z in Hv. lia. }
  destruct fuel as [|fuel]; [lia|]. cbn [encodeVarint_loop]. rewrite (proj2 (Z.leb_le _ _)) by done.
  set (b := byte_of_Z (Z.lor (Z.land v 127) 128)).
  assert (Z_of_byte b = v mod 128 + 128)%Z as Hb.
  { unfold b. rewrite Z_of_byte_of_Z. change 127%Z with (Z.ones 7). rewrite Z.land_ones, Z.lor_comm by lia.
    pose proof (Z.mod_pos_bound v (2 ^ 7) ltac:(lia)). change 128%Z with (Z.shiftl 1 7) at 1.
    rewrite Z_lor_shiftl, Z.mod_small by lia. change (2 ^ 7)%Z with 128%Z in *. lia. }
  rewrite Z.shiftr_div_pow2 by lia. change (2 ^ 7)%Z with 128%Z in *.
  destruct (IH fuel (Some (data dAtA ++ [b])) (v / 128)%Z) as (e & -> & Hlen & Hdec); [lia| |].
  { rewrite Nat2Z.inj_succ, Z.pow_succ_r in Hv by lia. split; [apply Z.div_pos; lia|].
    apply Z.div_lt_upper_bound; lia. }
  exists (b :: e). split; [simpl; by rewrite <-(assoc_L (++))|]. split; [simpl; lia|].
  intros [|n] rest Hn; [lia|]. simpl. rewrite Hb. pose proof (Z.mod_pos_bound v 128 ltac:(lia)).
  rewrite (proj2 (Z.ltb_ge _ _)), Hdec by lia. simpl. do 2 f_equal. rewrite (Z.div_mod v 128) at 3 by lia. lia.
Qed.

(** The encoder terminates on every [uint64], takes at most ten bytes and is
    inverse to the reader. *)
Lemma encodeVarint_spec dAtA v : (0 ≤ v < 2 ^ 64)%Z →
  ∃ e, encodeVarintPopulateDefs dAtA v = Ok (Some (data dAtA ++ e)) ∧ length e ≤ 10 ∧
    ∀ rest, decode_varint (e ++ rest) = Some (v, rest).
Proof.
  intros H. destruct (encodeVarint_loop_spec 9 10 dAtA v) as (e & He & Hlen & Hdec); [lia| |].
  { change (128 ^ Z.of_nat 10)%Z with (2 ^ 70)%Z. lia. }
  exists e. split_and!; [done..|]. intros rest. unfold decode_varint. rewrite Hdec by lia. simpl.
  by rewrite (proj2 (Z.ltb_lt _ _)) by lia.
Qed.

Section populated.
Context {R : Type} `{!randyDefs R, !RandyLaws R}.

Lemma yields_times {A} (m : M R A) P n : yields m P → yields (times n m) (λ l, length l = n ∧ Forall P l).
Proof.
  intros Hm. induction n as [|n IH]; simpl; [by apply yields_ret|].
  eapply yields_bind; [exact Hm|]. intros a Pa. eapply yields_bind; [exact IH|]. intros l [Hl Pl].
  apply yields_ret. simpl. by split; [lia|constructor].
Qed.

Lemma yields_one_in n : (0 < n)%Z → yields (one_in (R := R) n) (λ _, True).
Proof. intros Hn. eapply yields_bind; [by apply rand_Intn|]. intros v _. by apply yields_ret. Qed.

Lemma yields_rand_byte : yields rand_byte (λ _, True).
Proof. eapply yields_bind; [by apply rand_Intn|]. intros v _. by apply yields_ret. Qed.

(** *** Fields *)

(** What is appended to the bytes so far is one field. *)
Definition one_field (num : Z) (dAtA s : slice) : Prop :=
  ∃ e p, s = Some (data dAtA ++ e) ∧ length e ≤ 130 ∧ decode_field e = Some ((num, p), []).

Lemma field_key num wire : (0 < num < 2 ^ 29)%Z → (0 ≤ wire < 8)%Z →
  uint64 (Z.lor (uint32 (Z.shiftl (uint32 num) 3)) (uint32 wire)) = (num * 8 + wire)%Z.
Proof.
  intros Hn Hw. unfold uint64, uint32. rewrite (Z.mod_small num), (Z.mod_small wire) by lia.
  rewrite (Z.mod_small (Z.shiftl num 3)) by (rewrite Z.shiftl_mul_pow2; lia).
  rewrite Z_lor_shiftl by lia. rewrite Z.mod_small; lia.
Qed.

(** A key followed by bytes the reader takes as the value of its wire type. *)
Lemma one_field_intro num wire dAtA key_e p_e p s : (0 ≤ wire < 8)%Z →
  s = Some (data dAtA ++ key_e ++ p_e) → length key_e ≤ 10 → length p_e ≤ 119 →
  (∀ rest, decode_varint (key_e ++ rest) = Some ((num * 8 + wire)%Z, rest)) →
  decode_payload wire p_e = Some (p, []) → one_field num dAtA s.
Proof.
  intros Hw -> Hk Hp Hkey Hpay. exists (key_e ++ p_e), p. split; [done|].
  split; [rewrite length_app; lia|]. unfold decode_field. rewrite Hkey. simpl.
  rewrite Z.add_comm, Z.mod_add, Z.mod_small, Hpay by lia. simpl.
  by rewrite Z.div_add, Z.div_small, Z.add_0_l by lia.
Qed.

Lemma split_bytes_all n bs : length bs = n → split_bytes n bs = Some (bs, []).
Proof. intros <-. unfold split_bytes. by rewrite Nat.leb_refl, take_ge, drop_ge by lia. Qed.

Lemma yields_field dAtA num wire : (0 < num < 2 ^ 29)%Z → (wire = 0 ∨ wire = 1 ∨ wire = 2 ∨ wire = 5)%Z →
  yields (randFieldDefs dAtA num wire) (one_field num dAtA).
Proof.
  intros Hn Hw. unfold randFieldDefs. rewrite field_key by lia.
  destruct (encodeVarint_spec dAtA (num * 8 + wire)%Z) as (e & He & Hlen & Hdec); [lia|].
  assert (∀ n, yields (times n rand_byte) (λ bs, length bs = n)) as Hbytes.
  { intros n. eapply yields_mono; [apply yields_times, yields_rand_byte|]. by intros bs [? _]. }
  assert (∀ k n, yields (bs ← times n rand_byte; mret (append (Some (data dAtA ++ k)) (Some bs)))
    (λ s, ∃ bs, length bs = n ∧ s = Some (data dAtA ++ k ++ bs))) as Happ.
  { intros k n. eapply yields_bind; [apply Hbytes|]. intros bs Hbs. apply yields_ret. exists bs.
    split; [done|]. unfold append. simpl. by rewrite <-(assoc_L (++)). }
  destruct Hw as [->|[->|[->| ->]]]; cbn [Z.eqb Pos.eqb];
    (eapply yields_known; [exact He|]).
  - eapply yields_bind; [apply rand_Int63|]. intros v _.
    eapply yields_bind; [by apply yields_one_in|]. intros negative _.
    set (v12 := if negative then _ else _).
    destruct (encodeVarint_spec (Some (data dAtA ++ e)) (uint64 v12)) as (e2 & He2 & Hlen2 & Hdec2).
    { unfold uint64. apply Z.mod_pos_bound. lia. }
    eapply yields_lift; [exact He2|]. simpl. eapply (one_field_intro num 0 dAtA e e2); [lia|..].
    + by rewrite (assoc_L (++)).
    + done.
    + lia.
    + done.
    + unfold decode_payload. simpl. rewrite <-(app_nil_r e2), Hdec2. done.
  - eapply yields_mono; [apply Happ|]. intros s (bs & Hbs & ->).
    eapply (one_field_intro num 1 dAtA e bs); [lia|done|done|lia|done|].
    unfold decode_payload. simpl. by rewrite split_bytes_all.
  - eapply yields_bind; [by apply rand_Intn|]. intros ll Hll. cbv beta in *.
    destruct (encodeVarint_spec (Some (data dAtA ++ e)) (uint64 ll)) as (e2 & He2 & Hlen2 & Hdec2).
    { unfold uint64. apply Z.mod_pos_bound. lia. }
    assert (uint64 ll = ll) as Hu by (unfold uint64; apply Z.mod_small; lia). rewrite Hu in *. simpl in He2. rewrite <-(assoc_L (++)) in He2.
    eapply yields_known; [exact He2|].
    eapply yields_mono; [apply Happ|]. intros s (bs & Hbs & ->).
    eapply (one_field_intro num 2 dAtA e (e2 ++ bs)); [lia|by rewrite <-(assoc_L (++))|done|rewrite length_app; lia|done|].
    unfold decode_payload. simpl. rewrite Hdec2. simpl. by rewrite split_bytes_all.
  - eapply yields_mono; [apply Happ|]. intros s (bs & Hbs & ->).
    eapply (one_field_intro num 5 dAtA e bs); [lia|done|done|lia|done|].
    unfold decode_payload. simpl. by rewrite split_bytes_all.
Qed.

(** After [n] fields. *)
Definition fields_so_far (max : Z) (n : nat) (s : slice) : Prop :=
  ∃ fs, decode_fields n (data s) = Some fs ∧ len s ≤ 130 * n ∧ Forall (λ f, max ≤ f.1)%Z fs.

Lemma fields_so_far_snoc max n s s' num :
  fields_so_far max n s → (max ≤ num)%Z → one_field num s s' → fields_so_far max (S n) s'.
Proof.
  intros (fs & Hfs & Hlen & Hall) Hnum (e & p & -> & He & Hf). exists (fs ++ [(num, p)]).
  split; [by apply decode_fields_snoc|]. split; [|apply Forall_app; by repeat constructor].
  unfold len in *. simpl. rewrite length_app. lia.
Qed.

Lemma yields_unrecognized_loop n k max s : (0 < max < 100)%Z → fields_so_far max k s →
  yields (randUnrecognized_loop n max s) (fields_so_far max (k + n)).
Proof.
  intros Hmax. revert k s. induction n as [|n IH]; intros k s Hs; cbn [randUnrecognized_loop].
  { apply yields_ret. by rewrite Nat.add_0_r. }
  eapply yields_bind; [by apply rand_Intn|]. intros wire Hwire. cbv beta in *.
  eapply yields_bind; [by apply rand_Intn|]. intros j Hj. cbv beta in *.
  eapply yields_bind; [apply yields_field; [lia|destruct (Z.eqb_spec wire 3); lia]|]. intros s' Hs'.
  rewrite Nat.add_succ_r. apply (IH (S k)). eapply fields_so_far_snoc; [exact Hs| |exact Hs']. lia.
Qed.

(** The bytes of [XXX_unrecognized]: at most four fields, none of the message;
    nil for an easy message. *)
Definition rand_unknown (easy : bool) (max : Z) (s : slice) : Prop :=
  unknown_fields max s = true ∧ len s ≤ 520 ∧ (easy = true → s = None).

Lemma rand_unknown_nil easy max : rand_unknown easy max None.
Proof. split; [done|]. split; [|done]. apply Nat.le_0_l. Qed.

Lemma yields_unrecognized easy max : (0 < max < 100)%Z →
  yields (populate_unrecognized easy max) (rand_unknown easy max).
Proof.
  intros Hmax. unfold populate_unrecognized. destruct easy; [apply yields_ret, rand_unknown_nil|].
  eapply yields_bind; [by apply yields_one_in|]. intros zero _.
  destruct zero; [apply yields_ret, rand_unknown_nil|].
  eapply yields_bind; [by apply rand_Intn|]. intros l Hl. cbv beta in *.
  eapply yields_mono; [apply (yields_unrecognized_loop _ 0); [done|]|].
  - exists []. split; [done|]. split; [apply Nat.le_0_l|constructor].
  - intros s (fs & Hfs & Hlen & Hall). split; [by eapply unknown_fields_intro|]. split; [lia|done].
Qed.

(** *** Strings and bytes *)

Definition rand_text (s : string) : Prop :=
  Forall alphanumeric (String.list_byte_of_string s) ∧ String.length s < 100.
Definition rand_bytes (s : slice) : Prop := ∃ bs, s = Some bs ∧ length bs < 100.

Lemma yields_rune : yields randUTF8RuneDefs (λ ru, ∃ b, utf8 ru = [b] ∧ alphanumeric b).
Proof.
  eapply yields_bind; [by apply rand_Intn|]. intros v Hv. cbv beta in *.
  assert (∀ ru, (48 ≤ ru ≤ 57 ∨ 65 ≤ ru ≤ 90 ∨ 97 ≤ ru ≤ 122)%Z → ∃ b, utf8 ru = [b] ∧ alphanumeric b) as H.
  { intros ru Hru. exists (byte_of_Z ru). unfold utf8.
    rewrite (proj2 (Z.leb_le 0 ru)), (proj2 (Z.ltb_lt ru 128)) by lia. split; [done|].
    pose proof (Z_of_byte_of_Z ru) as Hb. rewrite Z.mod_small in Hb by lia.
    unfold alphanumeric, Z_of_byte in *. lia. }
  destruct (Z.ltb_spec v 10); [|destruct (Z.ltb_spec v 36)]; apply yields_ret, H; lia.
Qed.

Lemma string_of_list_byte_length l : String.length (String.string_of_list_byte l) = length l.
Proof. induction l as [|b l IH]; [done|]. simpl. by rewrite <-IH. Qed.

Lemma yields_text : yields randStringDefs rand_text.
Proof.
  eapply yields_bind; [by apply rand_Intn|]. intros v Hv. cbv beta in *.
  eapply yields_bind; [apply yields_times, yields_rune|]. intros l [Hlen Hall]. apply yields_ret.
  assert (∃ bs, mjoin (utf8 <$> l) = bs ∧ length bs = length l ∧ Forall alphanumeric bs) as (bs & Hbs & Hl & Hbs').
  { clear Hlen. induction Hall as [|ru l (b & Hb & Hal) _ (bs & Hbs & Hl & Hbs')]; [by exists []|].
    exists (b :: bs). rewrite fmap_cons. simpl. rewrite Hb, Hbs. simpl. by split_and!; [|lia|constructor]. }
  unfold rand_text, string_of_runes.
  rewrite Hbs, String.list_byte_of_string_of_list_byte, string_of_list_byte_length. split; [done|lia].
Qed.

Lemma yields_slice : yields rand_slice rand_bytes.
Proof.
  eapply yields_bind; [by apply rand_Intn|]. intros v Hv. cbv beta in *.
  eapply yields_bind; [apply yields_times, yields_rand_byte|]. intros bs [Hlen _]. apply yields_ret.
  exists bs. split; [done|lia].
Qed.

Lemma yields_int64 : yields rand_int64 in_int64.
Proof.
  eapply yields_bind; [apply rand_Int63|]. intros v _. eapply yields_bind; [by apply yields_one_in|].
  intros [] _; apply yields_ret, int64_range.
Qed.

Lemma yields_int32 : yields rand_int32 in_int32.
Proof.
  eapply yields_bind; [apply rand_Int31|]. intros v _. eapply yields_bind; [by apply yields_one_in|].
  intros [] _; apply yields_ret, int32_range.
Qed.

(** *** Messages *)

Definition Entity_populated (easy : bool) (e : Entity) : Prop :=
  in_int32 (Entity_Id e) ∧ rand_bytes (Entity_Key e) ∧ rand_bytes (Entity_Value e) ∧
  rand_bytes (Entity_Start e) ∧ rand_bytes (Entity_End e) ∧ rand_text (Entity_Err e) ∧
  in_int64 (Entity_CreatedAt e) ∧ rand_unknown easy 9 (Entity_unrecognized e).
Definition Operation_populated (easy : bool) (op : Operation) : Prop :=
  from_option (Entity_populated easy) True (Operation_Entity op) ∧
  Operation_Type op ∈ [Operation_SET; Operation_DELETE] ∧
  rand_unknown easy 3 (Operation_unrecognized op).
Definition Batch_populated (easy : bool) (b : Batch) : Prop :=
  length (Batch_Ops b) < 5 ∧ Forall (from_option (Operation_populated easy) False) (Batch_Ops b) ∧
  rand_unknown easy 2 (Batch_unrecognized b).
Definition Nothing_populated (easy : bool) (n : Nothing) : Prop :=
  rand_unknown easy 1 (Nothing_unrecognized n).
Definition Domain_populated (easy : bool) (d : Domain) : Prop :=
  rand_bytes (Domain_Start d) ∧ rand_bytes (Domain_End d) ∧ rand_unknown easy 3 (Domain_unrecognized d).
Definition Iterator_populated (easy : bool) (i : Iterator) : Prop :=
  from_option (Domain_populated easy) True (Iterator_Domain i) ∧ rand_bytes (Iterator_Key i) ∧
  rand_bytes (Iterator_Value i) ∧ rand_unknown easy 5 (Iterator_unrecognized i).
Definition Stats_populated (easy : bool) (s : Stats) : Prop :=
  size (Stats_Data s) < 10 ∧ map_Forall (λ k v, rand_text k ∧ rand_text v) (Stats_Data s) ∧
  in_int64 (Stats_TimeAt s) ∧ rand_unknown easy 3 (Stats_unrecognized s).
Definition Init_populated (easy : bool) (i : Init) : Prop :=
  rand_text (Init_Type i) ∧ rand_text (Init_Name i) ∧ rand_text (Init_Dir i) ∧
  rand_unknown easy 4 (Init_unrecognized i).

(** One draw of the function body. *)
#[local] Ltac draw :=
  lazymatch goal with
  | |- yields (mbind _ rand_slice) _ => eapply yields_bind; [apply yields_slice|intros ? ?]
  | |- yields (mbind _ randStringDefs) _ => eapply yields_bind; [apply yields_text|intros ? ?]
  | |- yields (mbind _ rand_int64) _ => eapply yields_bind; [apply yields_int64|intros ? ?]
  | |- yields (mbind _ rand_int32) _ => eapply yields_bind; [apply yields_int32|intros ? ?]
  | |- yields (mbind _ (one_in _)) _ => eapply yields_bind; [apply yields_one_in; lia|intros [] _]
  | |- yields (mbind _ (populate_unrecognized _ _)) _ =>
      eapply yields_bind; [apply yields_unrecognized; lia|intros ? ?]
  | |- yields (mbind _ (mret _)) _ => rewrite (left_id_L _ _)
  end.

Lemma yields_Entity easy : yields (NewPopulatedEntity easy) (Entity_populated easy).
Proof. unfold NewPopulatedEntity. repeat draw; by apply yields_ret. Qed.

Lemma yields_Domain easy : yields (NewPopulatedDomain easy) (Domain_populated easy).
Proof. unfold NewPopulatedDomain. repeat draw; by apply yields_ret. Qed.

Lemma yields_Init easy : yields (NewPopulatedInit easy) (Init_populated easy).
Proof. unfold NewPopulatedInit. repeat draw; by apply yields_ret. Qed.

Lemma yields_Nothing easy : yields (NewPopulatedNothing easy) (Nothing_populated easy).
Proof. unfold NewPopulatedNothing. repeat draw; by apply yields_ret. Qed.

(** [if r.Intn(n) != 0 { x = ... }] *)
Lemma yields_some {A} (none : bool) (m : M R A) P : yields m P →
  yields (if none then mret None else a ← m; mret (Some a)) (from_option P True).
Proof.
  intros Hm. destruct none; [by apply yields_ret|]. eapply yields_bind; [exact Hm|]. intros. by apply yields_ret.
Qed.

Lemma yields_Iterator easy : yields (NewPopulatedIterator easy) (Iterator_populated easy).
Proof.
  unfold NewPopulatedIterator. eapply yields_bind; [by apply yields_one_in|]. intros none _.
  eapply yields_bind; [apply yields_some, yields_Domain|]. intros d Hd. repeat draw; by apply yields_ret.
Qed.

Lemma yields_Operation easy : yields (NewPopulatedOperation easy) (Operation_populated easy).
Proof.
  unfold NewPopulatedOperation. eapply yields_bind; [by apply yields_one_in|]. intros none _.
  eapply yields_bind; [apply yields_some, yields_Entity|]. intros e He.
  eapply yields_bind; [by apply rand_Intn|]. intros i Hi. cbv beta in *.
  apply (yields_bind _ _ (λ t, t ∈ [Operation_SET; Operation_DELETE])).
  - assert (i = 0 ∨ i = 1)%Z as [-> | ->] by lia; apply yields_ret; set_solver.
  - intros t Ht. repeat draw. by apply yields_ret.
Qed.

Lemma yields_Batch easy : yields (NewPopulatedBatch easy) (Batch_populated easy).
Proof.
  unfold NewPopulatedBatch. eapply yields_bind; [by apply yields_one_in|]. intros none _.
  apply (yields_bind _ _ (λ l, length l < 5 ∧ Forall (from_option (Operation_populated easy) False) l)).
  - destruct none; [apply yields_ret; by split; [simpl; lia|]|].
    eapply yields_bind; [by apply rand_Intn|]. intros v Hv. cbv beta in *.
    eapply yields_mono; [apply (yields_times _ (from_option (Operation_populated easy) False))|].
    + eapply yields_bind; [apply yields_Operation|]. intros op Hop. by apply yields_ret.
    + intros l [Hl Hall]. by split; [lia|].
  - intros l [Hl Hall]. repeat draw. by apply yields_ret.
Qed.

Lemma foldl_insert_entries (P : string → string → Prop) l (m : gmap string string) :
  map_Forall P m → Forall (λ kv, P kv.1 kv.2) l →
  let m' := foldl (λ m kv, <[kv.1 := kv.2]> m) m l in map_Forall P m' ∧ size m' ≤ size m + length l.
Proof.
  intros Hm Hl. revert m Hm. induction Hl as [|[k v] l Hkv Hl IH]; intros m Hm; simpl; [by split; [|lia]|].
  destruct (IH (<[k := v]> m)) as [? Hsz]; [by apply map_Forall_insert_2|]. split; [done|].
  simpl in Hsz. rewrite map_size_insert in Hsz. destruct (m !! k); simpl in Hsz; lia.
Qed.

Lemma yields_Stats easy : yields (NewPopulatedStats easy) (Stats_populated easy).
Proof.
  unfold NewPopulatedStats. eapply yields_bind; [by apply yields_one_in|]. intros none _.
  apply (yields_bind _ _ (λ l, length l < 10 ∧ Forall (λ kv, rand_text kv.1 ∧ rand_text kv.2) l)).
  - destruct none; [apply yields_ret; by split; [simpl; lia|]|].
    eapply yields_bind; [by apply rand_Intn|]. intros v Hv. cbv beta in *.
    eapply yields_mono; [apply (yields_times _ (λ kv, rand_text kv.1 ∧ rand_text kv.2))|].
    + unfold rand_entry. repeat draw. by apply yields_ret.
    + intros l [Hl Hall]. by split; [lia|].
  - intros l [Hl Hall]. repeat draw. apply yields_ret.
    destruct (foldl_insert_entries (λ k v, rand_text k ∧ rand_text v) l ∅) as [Hf Hsz]; [done|done|].
    rewrite map_size_empty in Hsz. split; [|done]. unfold Stats_Data. lia.
Qed.

(** C39: every generated [NewPopulated] function returns, and what it
    returns has the type of its message: integers have their width, keys and
    values are at most 99 bytes and not nil, strings are alphanumeric, an
    operation sets or deletes, batches hold at most four operations and no nil
    pointer, and [XXX_unrecognized] is a sequence of well-formed fields with
    numbers the message does not have, nil if [easy]. *)
Theorem populated_typed easy :
  yields (NewPopulatedEntity easy) (Entity_populated easy) ∧
  yields (NewPopulatedOperation easy) (Operation_populated easy) ∧
  yields (NewPopulatedBatch easy) (Batch_populated easy) ∧
  yields (NewPopulatedNothing easy) (Nothing_populated easy) ∧
  yields (NewPopulatedDomain easy) (Domain_populated easy) ∧
  yields (NewPopulatedIterator easy) (Iterator_populated easy) ∧
  yields (NewPopulatedStats easy) (Stats_populated easy) ∧
  yields (NewPopulatedInit easy) (Init_populated easy).
Proof.
  repeat apply conj; [apply yields_Entity|apply yields_Operation|apply yields_Batch|apply yields_Nothing
    |apply yields_Domain|apply yields_Iterator|apply yields_Stats|apply yields_Init].
Qed.

End populated.

(** ** The generated tests *)

Lemma alphanumeric_ascii c : alphanumeric (Ascii.byte_of_ascii c) → (Ascii.nat_of_ascii c <? 128) = true.
Proof.
  destruct c as [[] [] [] [] [] [] [] []]; try reflexivity; unfold alphanumeric; simpl; intros; exfalso; lia.
Qed.

Lemma rand_text_ascii s : rand_text s → is_ascii s = true.
Proof.
  intros [H _]. unfold is_ascii, String.list_byte_of_string in *. apply forallb_forall. intros c Hc.
  apply alphanumeric_ascii. rewrite list.Forall_forall in H. apply H, list_elem_of_In, in_map, Hc.
Qed.

Lemma rand_bytes_len s : rand_bytes s → len s ≤ 99.
Proof. intros (bs & -> & H). unfold len. simpl. lia. Qed.

(** [msg_size] bounds what the tests send; 4 MB is the default limit of grpc. *)
Definition fits_test {T} `{!Message T} (n : nat) (x : T) : Prop := valid_msg x ∧ msg_size x ≤ n.

Lemma Entity_fits easy e : Entity_populated easy e → fits_test 1200 e.
Proof.
  intros (Hid & Hk & Hv & Hs & He & Herr & Hc & Hu & Hlen & _). split.
  - split; [done|]. split; [by apply rand_text_ascii|]. done.
  - apply rand_bytes_len in Hk, Hv, Hs, He. destruct Herr as [_ Herr]. cbn -[len]. lia.
Qed.

Lemma Operation_fits easy op : Operation_populated easy op → fits_test 1800 op.
Proof.
  destruct op as [e t u]. intros (He & Ht & Hu & Hlen & _). simpl in *.
  assert (in_int32 t) as Ht' by (unfold in_int32; rewrite !elem_of_cons in Ht; destruct Ht as [->|[->|?%not_elem_of_nil]]; done || (cbv; done)).
  destruct e as [e|].
  - apply Entity_fits in He as [Hv Hs]. split; [done|]. cbn -[len Entity_message]. lia.
  - split; [done|]. cbn -[len]. lia.
Qed.

Lemma Batch_fits easy b : Batch_populated easy b → fits_test (8 * 1000) b.
Proof.
  destruct b as [l u]. intros (Hl & Hall & Hu & Hlen & _). simpl in *.
  assert (Forall (λ op, from_option valid_msg False op ∧ from_option (λ op, msg_size op + 20) 0 op ≤ 1820) l) as H.
  { eapply Forall_impl; [exact Hall|]. intros [op|] Hop; [|done]. apply Operation_fits in Hop as [? ?].
    split; [done|]. cbn -[Operation_message]. lia. }
  split.
  - split; [|done]. eapply Forall_impl; [exact H|]. by intros ? [? _].
  - assert (sum_list_with (from_option (λ op, msg_size op + 20) 0) l ≤ 1820 * length l) as Hsum.
    { clear -H. induction H as [|op l [_ Hop] _ IH]; [done|].
      cbn [sum_list_with length]. lia. }
    cbn -[len Operation_message sum_list_with]. lia.
Qed.

Lemma Nothing_fits easy n : Nothing_populated easy n → fits_test 600 n.
Proof. intros (Hu & Hlen & _). split; [done|]. cbn -[len]. lia. Qed.

Lemma Domain_fits easy d : Domain_populated easy d → fits_test 800 d.
Proof.
  intros (Hs & He & Hu & Hlen & _). apply rand_bytes_len in Hs, He. split; [done|]. cbn -[len]. lia.
Qed.

Lemma Iterator_fits easy i : Iterator_populated easy i → fits_test 2000 i.
Proof.
  destruct i as [d v k w u]. intros (Hd & Hk & Hw & Hu & Hlen & _). simpl in *.
  apply rand_bytes_len in Hk, Hw. destruct d as [d|].
  - apply Domain_fits in Hd as [Hv Hs]. split; [done|]. cbn -[len Domain_message]. lia.
  - split; [done|]. cbn -[len]. lia.
Qed.

Lemma Stats_fits easy s : Stats_populated easy s → fits_test 3000 s.
Proof.
  destruct s as [m t u]. intros (Hsz & Hm & Ht & Hu & Hlen & _). simpl in *. split.
  - split; [|done]. intros k v Hkv. destruct (Hm k v Hkv). split; by apply rand_text_ascii.
  - assert (sum_list_with (λ kv, String.length kv.1 + String.length kv.2 + 40) (map_to_list m) ≤ 240 * size m) as Hsum.
    { rewrite <-length_map_to_list. apply map_Forall_to_list in Hm.
      induction Hm as [|[k v] l [[_ Hk] [_ Hv]] _ IH]; [done|]. cbn [sum_list_with length fst snd]. lia. }
    cbn -[len sum_list_with]. lia.
Qed.

Lemma Init_fits easy i : Init_populated easy i → fits_test 900 i.
Proof.
  intros (Ht & Hn & Hd & Hu & Hlen & _). split.
  - by split_and!; try apply rand_text_ascii.
  - destruct Ht, Hn, Hd. cbn -[len]. lia.
Qed.

(** The body of a generated test: the message is encoded, decoded, and the copy
    is [Equal] to it. *)
Definition test_passes {F T} (max_msg : nat) `{!Message T, !Codec F T max_msg}
    (Equal : option T → iface T → bool) (x : T) : Prop :=
  ∃ y, transfer (F := F) max_msg x = Ok y ∧ Equal (Some x) (IPtr (Some y)) = true.

Lemma fits_test_passes {F T} (max_msg n : nat) `{!Message T, !Codec F T max_msg}
    (Equal : option T → iface T → bool) (x : T) :
  n ≤ max_msg → Equal (Some x) (IPtr (Some (norm x))) = true → fits_test n x →
  test_passes (F := F) max_msg Equal x.
Proof. intros Hn He [Hv Hs]. exists (norm x). split; [|done]. apply transfer_norm; [done|lia]. Qed.

Lemma Equal_copy {T} `{!Message T} (Equal : option T → iface T → bool) (x : T) :
  (∀ a b, Equal a (IPtr b) = true ↔ norm <$> a = norm <$> b) → norm (norm x) = norm x →
  Equal (Some x) (IPtr (Some (norm x))) = true.
Proof. intros H Hx. rewrite H. simpl. by rewrite Hx. Qed.

Lemma Stats_Equal_copy (s : Stats) : Stats_Equal (Some s) (IPtr (Some (norm s))) = true.
Proof.
  destruct s as [m t u]. cbn -[bytes_Equal norm_bytes String.eqb Z.eqb forallb size].
  rewrite !reject_first, bytes_Equal_norm, Z.eqb_refl, Nat.eqb_refl, norm_bytes_idemp.
  split_and!; try done. apply forallb_forall. intros k _. apply String.eqb_refl.
Qed.

Section tests.
Context {R F : Type} (max_msg : nat) `{!randyDefs R, !RandyLaws R}.
Context `{!Codec F Entity max_msg, !Codec F Operation max_msg, !Codec F Batch max_msg,
  !Codec F Nothing max_msg, !Codec F Domain max_msg, !Codec F Iterator max_msg,
  !Codec F Stats max_msg, !Codec F Init max_msg}.

(** The round trip of the generated tests (defspb_test.go) succeeds for
    every seed: whatever random message is made, the library encodes it, and
    what it decodes is [Equal] to the message. *)
Theorem populated_roundtrip easy : 8 * 1000 ≤ max_msg →
  yields (R := R) (NewPopulatedEntity easy) (test_passes (F := F) max_msg Entity_Equal) ∧
  yields (R := R) (NewPopulatedOperation easy) (test_passes (F := F) max_msg Operation_Equal) ∧
  yields (R := R) (NewPopulatedBatch easy) (test_passes (F := F) max_msg Batch_Equal) ∧
  yields (R := R) (NewPopulatedNothing easy) (test_passes (F := F) max_msg Nothing_Equal) ∧
  yields (R := R) (NewPopulatedDomain easy) (test_passes (F := F) max_msg Domain_Equal) ∧
  yields (R := R) (NewPopulatedIterator easy) (test_passes (F := F) max_msg Iterator_Equal) ∧
  yields (R := R) (NewPopulatedStats easy) (test_passes (F := F) max_msg Stats_Equal) ∧
  yields (R := R) (NewPopulatedInit easy) (test_passes (F := F) max_msg Init_Equal).
Proof.
  intros Hmax. repeat apply conj; eapply yields_mono.
  - apply yields_Entity.
  - intros x Hx%Entity_fits. eapply fits_test_passes; [|apply Equal_copy|exact Hx];
      [lia|exact Entity_Equal_spec|apply Entity_norm_idemp].
  - apply yields_Operation.
  - intros x Hx%Operation_fits. eapply fits_test_passes; [|apply Equal_copy|exact Hx];
      [lia|exact Operation_Equal_spec|apply Operation_norm_idemp].
  - apply yields_Batch.
  - intros x Hx%Batch_fits. eapply fits_test_passes; [|apply Equal_copy|exact Hx];
      [lia|exact Batch_Equal_spec|apply Batch_norm_idemp].
  - apply yields_Nothing.
  - intros x Hx%Nothing_fits. eapply fits_test_passes; [|apply Equal_copy|exact Hx];
      [lia|exact Nothing_Equal_spec|apply Nothing_norm_idemp].
  - apply yields_Domain.
  - intros x Hx%Domain_fits. eapply fits_test_passes; [|apply Equal_copy|exact Hx];
      [lia|exact Domain_Equal_spec|apply Domain_norm_idemp].
  - apply yields_Iterator.
  - intros x Hx%Iterator_fits. eapply fits_test_passes; [|apply Equal_copy|exact Hx];
      [lia|exact Iterator_Equal_spec|apply Iterator_norm_idemp].
  - apply yields_Stats.
  - intros x Hx%Stats_fits. eapply fits_test_passes; [|apply Stats_Equal_copy|exact Hx]. lia.
  - apply yields_Init.
  - intros x Hx%Init_fits. eapply fits_test_passes; [|apply Equal_copy|exact Hx];
      [lia|exact Init_Equal_spec|apply Init_norm_idemp].
Qed.

End tests.

(** ** A concrete source: a linear congruential generator *)

Module Lcg.

Definition next (r : Z) : Z := (r * 6364136223846793005 + 1442695040888963407) mod 2 ^ 64.

#[global] Instance randy : randyDefs Z := {|
  Int63 := λ r, (Ok (Z.shiftr (next r) 1), next r);
  Int31 := λ r, (Ok (Z.shiftr (next r) 33), next r);
  Intn := λ n r, if (n <=? 0)%Z then (Panic "invalid argument to Intn", r)
                 else (Ok (Z.shiftr (next r) 33 mod n), next r)%Z;
|}.

Lemma next_shift r k : (0 ≤ k ≤ 64)%Z → (0 ≤ Z.shiftr (next r) k < 2 ^ (64 - k))%Z.
Proof.
  intros Hk. unfold next. set (x := (_ mod _)%Z). assert (0 ≤ x < 2 ^ 64)%Z by (apply Z.mod_pos_bound; lia).
  pose proof (Z.pow_pos_nonneg 2 k). rewrite Z.shiftr_div_pow2 by lia. split; [apply Z.div_pos; lia|].
  apply Z.div_lt_upper_bound; [lia|]. rewrite <-Z.pow_add_r by lia. replace (k + (64 - k))%Z with 64%Z by lia. lia.
Qed.

#[global] Instance laws : RandyLaws Z.
Proof.
  split.
  - intros r. eexists _, _. split; [reflexivity|]. exact (next_shift r 1 ltac:(lia)).
  - intros r. eexists _, _. split; [reflexivity|]. exact (next_shift r 33 ltac:(lia)).
  - intros n Hn r. eexists _, _. simpl. rewrite (proj2 (Z.leb_gt n 0)) by lia. split; [reflexivity|].
    apply Z.mod_pos_bound. lia.
Qed.

End Lcg.

(** A message with unknown fields, and what the reader finds in them. *)
Example lcg_entity : ∃ e r', NewPopulatedEntity (R := Z) false 9%Z = (Ok e, r') ∧
  length (default [] (decode_fields 4 (data (Entity_unrecognized e)))) = 2.
Proof. eexists _, _. split; [vm_compute; reflexivity|]. vm_compute. reflexivity. Qed.

Lemma populated_typed_witness :
  ∃ b r', NewPopulatedBatch (R := Z) false 11%Z = (Ok b, r') ∧ Batch_populated false b.
Proof.
  destruct (populated_typed (R := Z) false) as (_ & _ & H & _). destruct (H 11%Z) as (b & r' & H1 & H2).
  exists b, r'. exact (conj H1 H2).
Defined.

Lemma populated_roundtrip_witness :
  ∃ b r', NewPopulatedBatch (R := Z) false 11%Z = (Ok b, r') ∧
    test_passes (F := RefCodec.frame) (8 * 1000) Batch_Equal b.
Proof.
  destruct (populated_roundtrip (R := Z) (F := RefCodec.frame) (8 * 1000) false) as (_ & _ & H & _).
  - exact (le_n _).
  - destruct (H 11%Z) as (b & r' & H1 & H2). exists b, r'. exact (conj H1 H2).
Defined.
