(* ===== verification/GrpcServer.v ===== *)
(** * remotedb/grpcdb/server.go: the gRPC server

    The methods of [server] over any database.  A method of the nil interface
    [s.db] (before [Init], or after an [Init] that failed) panics. *)

From S2P Require Import Prelude Go Util Spec Types Registry Proto.
Import protodb.

Definition nil_deref : string := "runtime error: invalid memory address or nil pointer dereference".

Section server.
Context {S I B : Type} `{!IteratorOps I, !BatchOps S B} (ops : DBOps S I B).

(** [type server struct]; [mu] is held by [Init] alone. *)
Record server := { s_db : option S }.

(** A call of a method of [s.db]. *)
Definition on_db {A} (m : M S A) : M server A := λ s,
  match s_db s with
  | None => (Panic nil_deref, s)
  | Some d => let '(r, d) := m d in (r, {| s_db := Some d |})
  end.

(** ** Init *)

(** [db.NewDB] returns a nil [DB] next to an error. *)
Definition server_Init (range : gmap string dbCreator → list string)
    (backends : gmap string dbCreator) (now : Z) (inp : Init) : M server Entity := λ s,
  match NewDB range backends (Init_Name inp) (Init_Type inp) (Init_Dir inp) with
  | Ok d => (Ok (EntityCreatedAt now), {| s_db := Some d |})
  | Err err => (Err err, {| s_db := None |})
  | Panic msg => (Panic msg, s)
  | Diverge => (Diverge, s)
  end.

(** ** Point operations *)

(** [var nothing = new(protodb.Nothing)] *)
Definition nothing : Nothing := {| Nothing_unrecognized := None |}.

Definition server_Delete (inp : Entity) : M server Nothing :=
  _ ← on_db (db_Delete ops (Entity_Key inp)); mret nothing.

Definition server_DeleteSync (inp : Entity) : M server Nothing :=
  _ ← on_db (db_DeleteSync ops (Entity_Key inp)); mret nothing.

Definition server_Get (inp : Entity) : M server Entity :=
  value ← on_db (db_Get ops (Entity_Key inp)); mret (EntityKV None value).

Definition server_Has (inp : Entity) : M server Entity :=
  exists_ ← on_db (db_Has ops (Entity_Key inp)); mret (EntityExists exists_).

Definition server_Set (inp : Entity) : M server Nothing :=
  _ ← on_db (db_Set ops (Entity_Key inp) (Entity_Value inp)); mret nothing.

Definition server_SetSync (inp : Entity) : M server Nothing :=
  _ ← on_db (db_SetSync ops (Entity_Key inp) (Entity_Value inp)); mret nothing.

Definition server_Stats (now : Z) (inp : Nothing) : M server Stats :=
  stats ← on_db (db_Stats ops);
  mret {| Stats_Data := stats; Stats_TimeAt := now; Stats_unrecognized := None |}.

(** ** Iterators

    [T] is the state of the stream the messages are sent to. *)

Fixpoint handleIterator {T} (fuel : nat) (sendFunc : Iterator → M T unit) : M (I * T) unit :=
  match fuel with
  | O => λ s, (Diverge, s)
  | Datatypes.S fuel =>
      valid ← on_fst it_Valid;
      if (valid : bool) then
        '(it, _) ← get;
        let '(start, end_) := it_Domain it in
        key ← on_fst it_Key;
        value ← on_fst it_Value;
        valid ← on_fst it_Valid;
        let out := {| Iterator_Domain := Some {| Domain_Start := start; Domain_End := end_;
                                                 Domain_unrecognized := None |};
                      Iterator_Valid := valid; Iterator_Key := key; Iterator_Value := value;
                      Iterator_unrecognized := None |} in
        _ ← on_snd (sendFunc out);
        _ ← on_fst it_Next;
        handleIterator fuel sendFunc
      else mret tt
  end.

(** [it, err := open; if err != nil { return err }; defer it.Close(); return s.handleIterator(it, send)] *)
Definition serve_iterator {T} (fuel : nat) (open : M S I) (send : Iterator → M T unit) :
    M (server * T) unit := λ '(s, t),
  match on_db open s with
  | (Ok it, s) =>
      let '(r, (_, t)) := deferred (on_fst it_Close) (handleIterator fuel send) (it, t) in (r, (s, t))
  | (Err err, s) => (Err err, (s, t))
  | (Panic msg, s) => (Panic msg, (s, t))
  | (Diverge, s) => (Diverge, (s, t))
  end.

Definition server_Iterator {T} (fuel : nat) (query : Entity) (send : Iterator → M T unit) :
    M (server * T) unit :=
  serve_iterator fuel (db_Iterator ops (Entity_Start query) (Entity_End query)) send.

Definition server_ReverseIterator {T} (fuel : nat) (query : Entity) (send : Iterator → M T unit) :
    M (server * T) unit :=
  serve_iterator fuel (db_ReverseIterator ops (Entity_Start query) (Entity_End query)) send.

(** ** Batches *)

(** [for _, op := range b.Ops { switch op.Type ... }]; no default case.  A nil
    operation or entity is dereferenced. *)
Fixpoint batch_ops (l : list (option Operation)) : M (B * S) unit :=
  match l with
  | [] => mret tt
  | None :: _ => panic nil_deref
  | Some op :: l =>
      _ ← (if (Operation_Type op =? Operation_SET)%Z then
             match Operation_Entity op with
             | None => panic nil_deref
             | Some e => b_Set (Entity_Key e) (Entity_Value e)
             end
           else if (Operation_Type op =? Operation_DELETE)%Z then
             match Operation_Entity op with
             | None => panic nil_deref
             | Some e => b_Delete (Entity_Key e)
             end
           else mret tt);
      batch_ops l
  end.

Definition server_batchWrite (b : Batch) (sync : bool) : M server Nothing :=
  on_db (λ d,
    match db_NewBatch ops d with
    | (Ok bat, d) =>
        let '(r, (_, d)) :=
          deferred b_Close
            (_ ← batch_ops (Batch_Ops b);
             _ ← (if sync then b_WriteSync else b_Write);
             mret nothing) (bat, d) in
        (r, d)
    | (Err err, d) => (Err err, d)
    | (Panic msg, d) => (Panic msg, d)
    | (Diverge, d) => (Diverge, d)
    end).

Definition server_BatchWrite (b : Batch) : M server Nothing := server_batchWrite b false.
Definition server_BatchWriteSync (b : Batch) : M server Nothing := server_batchWrite b true.

End server.
Arguments server : clear implicits.
