(* ===== verification/GrpcServerCorrect.v ===== *)
(** * The gRPC server over a database that meets the contract *)

From S2P Require Import Prelude Go Util Spec Types Client Registry Proto GrpcServer.
Import protodb.

Section server_correct.
Context {S I B : Type} `{!IteratorOps I, !BatchOps S B} (ops : DBOps S I B).
Context `{!DBContract ops, !IteratorBounds I}.
Implicit Types (s : server S) (m : store).

(** The server has a database, which holds [m]. *)
Definition srv_ok s m : Prop := ∃ d, s_db s = Some d ∧ db_inv d ∧ db_model d = m.

Lemma on_db_reply {A} (f : M S A) s m (r : result A) (m' : store) :
  srv_ok s m →
  (∀ d, db_inv d → db_model d = m → reply f d r (λ d', db_inv d' ∧ db_model d' = m')) →
  reply (on_db f) s r (λ s', srv_ok s' m').
Proof.
  intros (d & Hd & Hinv & Hm) Hf. destruct (Hf d Hinv Hm) as (d' & H & ? & ?).
  exists {| s_db := Some d' |}. unfold on_db. rewrite Hd, H. split; [done|]. by exists d'.
Qed.

(** A method that calls the database and builds its reply. *)
Lemma then_reply {A B'} (f : M (server S) A) (g : A → B') s (r : result A) (Q : server S → Prop) :
  reply f s r Q → reply (a ← f; mret (g a)) s (result_map g r) Q.
Proof.
  intros (s' & H & HQ). exists s'. unfold mbind, M_bind. rewrite H. by destruct r.
Qed.

Lemma server_Get_spec s m e :
  srv_ok s m → fits_read db_fits (data (Entity_Key e)) →
  reply (server_Get ops e) s (result_map (EntityKV None) (spec_Get m (Entity_Key e))) (λ s', srv_ok s' m).
Proof.
  intros Hs Hf. apply then_reply, (on_db_reply _ s m); [done|]. intros d Hinv <-. by apply law_Get.
Qed.

Lemma server_Has_spec s m e :
  srv_ok s m → fits_read db_fits (data (Entity_Key e)) →
  reply (server_Has ops e) s (result_map EntityExists (spec_Has m (Entity_Key e))) (λ s', srv_ok s' m).
Proof.
  intros Hs Hf. apply then_reply, (on_db_reply _ s m); [done|]. intros d Hinv <-. by apply law_Has.
Qed.

Lemma server_Set_spec s m (sync : bool) e :
  srv_ok s m → set_fits db_fits (Entity_Key e) (Entity_Value e) →
  reply ((if sync then server_SetSync ops else server_Set ops) e) s
    (result_map (λ _, nothing) (spec_Set m (Entity_Key e) (Entity_Value e)).1)
    (λ s', srv_ok s' (spec_Set m (Entity_Key e) (Entity_Value e)).2).
Proof.
  intros Hs Hfit. destruct sync; apply then_reply, (on_db_reply _ s m); try done; intros d Hinv <-;
    [by apply law_SetSync|by apply law_Set].
Qed.

Lemma server_Delete_spec s m (sync : bool) e :
  srv_ok s m → delete_fits db_fits (Entity_Key e) →
  reply ((if sync then server_DeleteSync ops else server_Delete ops) e) s
    (result_map (λ _, nothing) (spec_Delete m (Entity_Key e)).1)
    (λ s', srv_ok s' (spec_Delete m (Entity_Key e)).2).
Proof.
  intros Hs Hfit. destruct sync; apply then_reply, (on_db_reply _ s m); try done; intros d Hinv <-;
    [by apply law_DeleteSync|by apply law_Delete].
Qed.

(** ** Streams *)

(** The message for an entry. *)
Definition iter_msg (st en : slice) (kv : entry) : Iterator :=
  {| Iterator_Domain := Some {| Domain_Start := st; Domain_End := en; Domain_unrecognized := None |};
     Iterator_Valid := true; Iterator_Key := Some kv.1; Iterator_Value := Some kv.2;
     Iterator_unrecognized := None |}.
(** Its domain has the bounds in the order the iterator gives them. *)
Definition is_iter_msg (st en : slice) (kv : entry) (msg : Iterator) : Prop :=
  msg = iter_msg st en kv ∨ msg = iter_msg en st kv.

Lemma on_snd_reply {X Y A} (f : M Y A) (x : X) (y : Y) r (Q : Y → Prop) :
  reply f y r Q → reply (on_snd f) (x, y) r (λ xy, xy.1 = x ∧ Q xy.2).
Proof. intros (y' & H & HQ). exists (x, y'). unfold on_snd. by rewrite H. Qed.

(** The loop sends one message per entry, in order, and ends. *)
Lemma handleIterator_spec {T} (send : Iterator → M T unit) (next : T → Iterator → T) it st en l t fuel :
  it_rep it st en l → length l < fuel →
  (∀ kv msg t, kv ∈ l → is_iter_msg st en kv msg → send msg t = (Ok tt, next t msg)) →
  reply (handleIterator fuel send) (it, t) (Ok tt)
    (λ x, it_rep x.1 st en [] ∧ ∃ msgs, Forall2 (is_iter_msg st en) l msgs ∧ x.2 = foldl next t msgs).
Proof.
  revert it t l. induction fuel as [|fuel IH]; intros it t l Hrep Hlen Hsend; [lia|]. simpl.
  eapply reply_bind; [by apply on_fst_reply, law_Valid|]. intros [it1 t1] [H1 E1]; simpl in H1, E1; subst t1.
  destruct l as [|[k v] l].
  { rewrite bool_decide_eq_false_2 by auto. apply reply_ret. split; [done|]. by exists []. }
  rewrite bool_decide_eq_true_2 by done.
  eapply (reply_bind _ _ _ _ _ (eq (it1, t))); [by eexists|]. intros ? <-.
  assert (∃ st' en', it_Domain it1 = (st', en') ∧ is_iter_msg st en (k, v) (iter_msg st' en' (k, v)))
    as (st' & en' & -> & Hmsg).
  { unfold is_iter_msg. destruct (law_Bounds _ _ _ _ H1) as [-> | ->]; eauto. }
  eapply reply_bind; [by apply on_fst_reply, (law_Key _ _ _ _ _ _ H1)|]. intros [it2 t2] [H2 E2]; simpl in H2, E2; subst t2.
  eapply reply_bind; [by apply on_fst_reply, (law_Value _ _ _ _ _ _ H2)|]. intros [it3 t3] [H3 E3]; simpl in H3, E3; subst t3.
  eapply reply_bind; [by apply on_fst_reply, (law_Valid _ _ _ _ H3)|]. intros [it4 t4] [H4 E4]; simpl in H4, E4; subst t4.
  rewrite bool_decide_eq_true_2 by done. simpl.
  eapply reply_bind.
  { apply (on_snd_reply (send (iter_msg st' en' (k, v))) it4 t (Ok tt)
      (eq (next t (iter_msg st' en' (k, v))))).
    eexists. split; [by eapply Hsend; [apply list_elem_of_here|]|done]. }
  intros [it5 t5] [E5 E5']; simpl in E5, E5'; subst it5 t5.
  eapply reply_bind; [by apply on_fst_reply, (law_Next _ _ _ _ _ H4)|]. intros [it6 t6] [H6 E6]; simpl in H6, E6; subst t6.
  eapply reply_mono; [apply (IH _ _ l); [done|simpl in Hlen; lia|]|].
  { intros kv msg t' Hkv. by apply Hsend, list_elem_of_further. }
  intros [it7 t7] [? (msgs & ? & ->)]. split; [done|]. exists (iter_msg st' en' (k, v) :: msgs).
  split; [by constructor|done].
Qed.

Lemma server_iterator_spec {T} (send : Iterator → M T unit) (next : T → Iterator → T) (rev : bool)
    s m q t fuel :
  let st := Entity_Start q in let en := Entity_End q in
  srv_ok s m → bad_bounds st en = false → size m < fuel →
  (∀ kv msg t, kv ∈ scan m st en rev → is_iter_msg st en kv msg → send msg t = (Ok tt, next t msg)) →
  reply ((if rev then server_ReverseIterator ops fuel else server_Iterator ops fuel) q send) (s, t)
    (Ok tt) (λ x, srv_ok x.1 m ∧
      ∃ msgs, Forall2 (is_iter_msg st en) (scan m st en rev) msgs ∧ x.2 = foldl next t msgs).
Proof.
  intros st en (d & Hd & Hinv & Hm) Hb Hfuel Hsend.
  assert (∃ it, reply (if rev then db_ReverseIterator ops st en else db_Iterator ops st en) d (Ok it)
      (λ d', db_inv d' ∧ db_model d' = m) ∧ it_rep it st en (scan m st en rev))
    as (it & (d' & Hit & Hinv' & Hm') & Hrep).
  { rewrite <-Hm. destruct rev; [by apply law_ReverseIterator|by apply law_Iterator]. }
  pose proof (length_scan m st en rev).
  destruct (handleIterator_spec send next it st en _ t fuel Hrep) as ([it' t'] & Hh & _ & Ht);
    [lia|done|].
  exists ({| s_db := Some d' |}, t'). split; [|by split; [exists d'|]].
  assert (on_db (if rev then db_ReverseIterator ops st en else db_Iterator ops st en) s =
    (Ok it, {| s_db := Some d' |})) as Hdb.
  { unfold on_db. by rewrite Hd, Hit. }
  destruct rev; simpl; unfold server_Iterator, server_ReverseIterator, serve_iterator;
    fold st en; rewrite Hdb; unfold deferred; rewrite Hh; simpl; by destruct (it_Close it').
Qed.

Lemma server_iterator_bad {T} (send : Iterator → M T unit) (rev : bool) s m q t fuel :
  srv_ok s m → bad_bounds (Entity_Start q) (Entity_End q) = true →
  reply ((if rev then server_ReverseIterator ops fuel else server_Iterator ops fuel) q send) (s, t)
    (Err errKeyEmpty) (λ x, srv_ok x.1 m ∧ x.2 = t).
Proof.
  intros (d & Hd & Hinv & Hm) Hb.
  assert (reply (if rev then db_ReverseIterator ops (Entity_Start q) (Entity_End q)
      else db_Iterator ops (Entity_Start q) (Entity_End q)) d (Err errKeyEmpty)
      (λ d', db_inv d' ∧ db_model d' = m)) as (d' & H & ? & ?).
  { rewrite <-Hm. destruct rev; [by apply law_ReverseIterator_bad|by apply law_Iterator_bad]. }
  exists ({| s_db := Some d' |}, t). split; [|by split; [exists d'|]].
  destruct rev; unfold server_Iterator, server_ReverseIterator, serve_iterator, on_db;
    by rewrite Hd, H.
Qed.

(** ** Batches *)

(** The operation a client sends for a call of a batch. *)
Definition op_of (c : batch_call) : Operation :=
  match c with
  | BSet key value => {| Operation_Entity := Some (EntityKV key value);
                         Operation_Type := Operation_SET; Operation_unrecognized := None |}
  | BDelete key => {| Operation_Entity := Some (EntityKV key None);
                      Operation_Type := Operation_DELETE; Operation_unrecognized := None |}
  end.

(** The server stops at the first operation the batch refuses. *)
Fixpoint spec_batch_ops (l : list batch_call) (ws : list write) : result (list write) :=
  match l with
  | [] => Ok ws
  | c :: l =>
      match spec_batch_call (Some ws) c with
      | (Ok _, Some ws) => spec_batch_ops l ws
      | (Err e, _) => Err e
      | _ => Ok ws
      end
  end.

(** A refused operation refuses the batch, whatever follows. *)
Lemma spec_batch_ops_refused l more ws e : spec_batch_ops l ws = Err e → spec_batch_ops (l ++ more) ws = Err e.
Proof.
  revert ws. induction l as [|c l IH]; intros ws; simpl; [done|].
  destruct (spec_batch_call (Some ws) c) as [[] []]; naive_solver.
Qed.

Lemma spec_batch_ops_cases l ws :
  (∃ ws', spec_batch_ops l ws = Ok ws') ∨ (∃ e, spec_batch_ops l ws = Err e).
Proof.
  revert ws. induction l as [|c l IH]; intros ws; simpl; [eauto|].
  destruct (spec_batch_call (Some ws) c) as [[] [ws'|]]; eauto.
Qed.

Lemma batch_ops_spec l b ws d :
  batch_rep b (Some ws) → db_inv d → Forall (batch_call_fits db_fits) l →
  within db_fits (length ws + length l) →
  reply (batch_ops (Some ∘ op_of <$> l)) (b, d) (result_map (λ _, tt) (spec_batch_ops l ws))
    (λ bd, db_inv bd.2 ∧ db_model bd.2 = db_model d ∧
       match spec_batch_ops l ws with Ok ws' => batch_rep bd.1 (Some ws') | _ => ∃ o, batch_rep bd.1 o end).
Proof.
  revert b ws d. induction l as [|c l IH]; intros b ws d Hb Hinv Hfit Hlim.
  { by apply reply_ret. }
  apply Forall_cons in Hfit as [Hc Hfit]. simpl in Hlim.
  assert (within db_fits (Datatypes.S (length ws))) as Hone by (eapply within_le, Hlim; lia).
  assert (reply (match c with BSet key value => b_Set key value | BDelete key => b_Delete key end)
      (b, d) (spec_batch_call (Some ws) c).1
      (λ bd, batch_rep bd.1 (spec_batch_call (Some ws) c).2 ∧ db_inv bd.2 ∧ db_model bd.2 = db_model d))
    as Hcall.
  { destruct c; [by apply law_batch_Set|by apply law_batch_Delete]. }
  assert ((∃ ws1, spec_batch_call (Some ws) c = (Ok tt, Some ws1) ∧ length ws1 ≤ Datatypes.S (length ws)) ∨
          (∃ e, spec_batch_call (Some ws) c = (Err e, Some ws))) as Hshape.
  { destruct c as [key [v|]|key]; simpl; unfold spec_batch_Set, spec_batch_Delete;
      case_match; try (by eauto); left; eexists; (split; [done|]); rewrite length_app; simpl; lia. }
  cbn -[spec_batch_call op_of].
  destruct Hshape as [(ws1 & E & Hlen)|[e E]]; rewrite E in *; simpl in Hcall.
  - eapply reply_bind.
    { destruct c; exact Hcall. }
    intros [b1 d1] (Hb1 & Hinv1 & Hm1). simpl in *.
    eapply reply_mono; [apply IH; [done..|eapply within_le, Hlim; lia]|]. simpl. intros [b2 d2] (? & Hm2 & ?). simpl in *.
    rewrite Hm2. by split_and!.
  - apply reply_bind_Err. destruct Hcall as ([b1 d1] & Hcall & Hb1 & Hinv1 & Hm1).
    exists (b1, d1). split; [by destruct c|]. simpl in *. eauto.
Qed.

Lemma server_batchWrite_spec s m l (sync : bool) u :
  srv_ok s m → Forall (batch_call_fits db_fits) l → within db_fits (length l) →
  reply (server_batchWrite ops {| Batch_Ops := Some ∘ op_of <$> l; Batch_unrecognized := u |} sync) s
    (result_map (λ _, nothing) (spec_batch_ops l []))
    (λ s', srv_ok s' match spec_batch_ops l [] with Ok ws => apply_writes ws m | _ => m end).
Proof.
  intros Hs Hfit Hlim. apply (on_db_reply _ s m); [done|]. intros d Hinv <-.
  destruct (law_NewBatch d Hinv) as (b & (d1 & Hnew & Hinv1 & Hm1) & Hb). unfold reply. rewrite Hnew.
  destruct (batch_ops_spec l b [] d1 Hb Hinv1 Hfit Hlim) as ([b2 d2] & Hops & Hinv2 & Hm2 & Hb2).
  simpl in *. unfold deferred, mbind, M_bind at 1. rewrite Hops.
  destruct (spec_batch_ops l []) as [ws|e|msg|]; simpl;
    [|destruct Hb2 as [o Hb2];
      destruct (law_batch_Close b2 o d2 Hb2 Hinv2) as ([b4 d4] & Hc & _ & Hinv4 & Hm4);
      rewrite Hc; exists d4; simpl in *; split_and!; [done|done|congruence]..].
  assert (reply (if sync then b_WriteSync else b_Write) (b2, d2) (Ok tt)
    (λ bs, batch_rep bs.1 None ∧ db_inv bs.2 ∧ db_model bs.2 = apply_writes ws (db_model d2)))
    as ([b3 d3] & Hw & Hb3 & Hinv3 & Hm3).
  { destruct sync; [by apply (law_batch_WriteSync b2 ws)|by apply (law_batch_Write b2 ws)]. }
  unfold M_bind. rewrite Hw. simpl in *.
  destruct (law_batch_Close b3 None d3 Hb3 Hinv3) as ([b4 d4] & Hc & _ & Hinv4 & Hm4).
  rewrite Hc. exists d4. simpl in *. split_and!; [done|done|congruence].
Qed.

End server_correct.
