(* ===== verification/ServerConc.v ===== *)
(** * remotedb/grpcdb/server.go: [Init] and the requests beside it

    gRPC runs every request in its own goroutine.  [Init] assigns [s.db] under
    [s.mu]; the other methods read [s.db] without it.  The value of an interface
    type has two words, its type and a pointer to its data: the memory model of Go
    lets a read beside a write see one word of the old value and one of the new.
    Every step here is one access of one goroutine. *)

From S2P Require Import Prelude Go Registry Proto GrpcServer.
Import protodb.

(** ** State *)

(** The value of an interface variable; nil has no type. *)
Record words := Words { w_type : option string; w_data : option nat }.
Definition nil_words : words := Words None None.

(** One word of [v] in place of that of [w]: the type, or the data. *)
Definition put_word (type : bool) (v w : words) : words :=
  if type then Words (w_type v) (w_data w) else Words (w_type w) (w_data v).
Definition same_word (type : bool) (v w : words) : Prop :=
  if type then w_type v = w_type w else w_data v = w_data w.

(** [Init] before [Lock], before the assignment, between its words, after it,
    after [Unlock]; a request before it reads [s.db], between the words, and when
    it calls the method of the value it has read. *)
Inductive thread :=
  | IStart (inp : Init) | ILocked (inp : Init) | IHalf (inp : Init) (type : bool)
  | IWritten (inp : Init) | IDone (inp : Init)
  | RStart | RHalf (type : bool) (v : words) | RCall (v : words).  (* one word of [v] is read *)

Record csrv := CSrv { c_db : words; c_mu : bool; c_threads : list thread }.

Section conc.
(** The databases the registry makes: their type, and where they are. *)
Context (range : gmap string (dbCreator (DB := string * nat)) → list string)
  (backends : gmap string (dbCreator (DB := string * nat))).

Definition new_db (inp : Init) : result (string * nat) :=
  NewDB range backends (Init_Name inp) (Init_Type inp) (Init_Dir inp).

(** [s.db, err = db.NewDB(...)]: nil next to an error. *)
Inductive assigns (inp : Init) : words → Prop :=
  | assigns_Ok k p : new_db inp = Ok (k, p) → assigns inp (Words (Some k) (Some p))
  | assigns_Err e : new_db inp = Err e → assigns inp nil_words.

Inductive cstep (s : csrv) : csrv → Prop :=
  | c_Lock i inp : c_threads s !! i = Some (IStart inp) → c_mu s = false →
      cstep s (CSrv (c_db s) true (<[i := ILocked inp]> (c_threads s)))
  | c_write1 i inp v type : c_threads s !! i = Some (ILocked inp) → assigns inp v →
      cstep s (CSrv (put_word type v (c_db s)) (c_mu s) (<[i := IHalf inp type]> (c_threads s)))
  | c_write2 i inp v type : c_threads s !! i = Some (IHalf inp type) → assigns inp v →
      cstep s (CSrv (put_word (negb type) v (c_db s)) (c_mu s) (<[i := IWritten inp]> (c_threads s)))
  | c_Unlock i inp : c_threads s !! i = Some (IWritten inp) →
      cstep s (CSrv (c_db s) false (<[i := IDone inp]> (c_threads s)))
  | c_read1 i type : c_threads s !! i = Some RStart →
      cstep s (CSrv (c_db s) (c_mu s) (<[i := RHalf type (c_db s)]> (c_threads s)))
  | c_read2 i type v : c_threads s !! i = Some (RHalf type v) →
      cstep s (CSrv (c_db s) (c_mu s) (<[i := RCall (put_word (negb type) (c_db s) v)]> (c_threads s))).

(** A server with a database, some calls of [Init] and some requests. *)
Definition cstart (v : words) (inps : list Init) (requests : nat) : csrv :=
  CSrv v false ((IStart <$> inps) ++ replicate requests RStart).

Lemma assigns_det inp v v' : assigns inp v → assigns inp v' → v = v'.
Proof. destruct 1, 1; congruence. Qed.

Lemma put_both type v w : same_word type w v → put_word (negb type) v w = v.
Proof. destruct v, w, type; simpl; by intros ->. Qed.
Lemma put_same type v w : same_word type (put_word type v w) v.
Proof. by destruct type. Qed.

(** ** The mutex *)

Definition inside (t : thread) : bool :=
  match t with ILocked _ | IHalf _ _ | IWritten _ => true | _ => false end.
Definition init_of (t : thread) : option Init :=
  match t with
  | IStart inp | ILocked inp | IHalf inp _ | IWritten inp | IDone inp => Some inp
  | _ => None
  end.

(** The values [s.db] has between two calls of [Init]. *)
Definition left_by (v0 : words) (inps : list Init) (v : words) : Prop :=
  v = v0 ∨ ∃ inp, inp ∈ inps ∧ assigns inp v.

(** What the holder of the mutex has done. *)
Definition holder (v0 : words) (inps : list Init) (w : words) (t : thread) : Prop :=
  match t with
  | ILocked _ => left_by v0 inps w
  | IHalf inp type => ∃ v, assigns inp v ∧ same_word type w v
  | IWritten inp => assigns inp w
  | _ => False
  end.

Definition mutex_inv (v0 : words) (inps : list Init) (s : csrv) : Prop :=
  (∀ i t inp, c_threads s !! i = Some t → init_of t = Some inp → inp ∈ inps) ∧
  if c_mu s then
    ∃ i t, c_threads s !! i = Some t ∧ holder v0 inps (c_db s) t ∧
      ∀ j u, c_threads s !! j = Some u → inside u = true → j = i
  else left_by v0 inps (c_db s) ∧ ∀ j u, c_threads s !! j = Some u → inside u = false.

Lemma insert_thread (l : list thread) i t t' j u :
  l !! i = Some t → <[i := t']> l !! j = Some u → j = i ∧ u = t' ∨ j ≠ i ∧ l !! j = Some u.
Proof.
  intros Hi Hj. destruct (decide (j = i)) as [->|Hne]; [left|right; by rewrite list_lookup_insert_ne in Hj by done].
  rewrite list_lookup_insert_eq in Hj by (by eapply lookup_lt_Some). by simplify_eq.
Qed.

(** The [Init] a thread runs does not change. *)
Lemma same_init (inps : list Init) (l : list thread) i t t' :
  (∀ i t inp, l !! i = Some t → init_of t = Some inp → inp ∈ inps) →
  l !! i = Some t → init_of t' = init_of t →
  ∀ j u inp, <[i := t']> l !! j = Some u → init_of u = Some inp → inp ∈ inps.
Proof.
  intros Hin Hi Ht j u inp Hj Hu. destruct (insert_thread _ _ _ _ _ _ Hi Hj) as [[-> ->]|[_ Hj']]; [|by eapply Hin].
  eapply Hin; [exact Hi|by rewrite <-Ht].
Qed.

(** The thread that holds the mutex goes on, and still holds it. *)
Lemma holder_step v0 inps s i t t' w :
  mutex_inv v0 inps s → c_threads s !! i = Some t → inside t = true → inside t' = true → init_of t' = init_of t →
  (holder v0 inps (c_db s) t → holder v0 inps w t') →
  mutex_inv v0 inps (CSrv w (c_mu s) (<[i := t']> (c_threads s))).
Proof.
  intros [Hin Hmu] Hi Ht Ht' Hinit Hstep. split; [by eapply same_init|]. simpl.
  destruct (c_mu s); [|destruct Hmu as [_ Hno]; by rewrite (Hno _ _ Hi) in Ht].
  destruct Hmu as (i0 & t0 & Hi0 & Hh & Huniq). pose proof (Huniq _ _ Hi Ht) as <-.
  assert (t0 = t) as -> by congruence. exists i, t'. split; [apply list_lookup_insert_eq; by eapply lookup_lt_Some|]. split; [by apply Hstep|].
  intros j u Hj Hu. destruct (insert_thread _ _ _ _ _ _ Hi Hj) as [[-> _]|[_ Hj']]; [done|by eapply Huniq].
Qed.

(** A thread outside of the mutex does not touch it. *)
Lemma outside_step v0 inps s i t t' :
  mutex_inv v0 inps s → c_threads s !! i = Some t → inside t = false → inside t' = false → init_of t' = init_of t →
  mutex_inv v0 inps (CSrv (c_db s) (c_mu s) (<[i := t']> (c_threads s))).
Proof.
  intros [Hin Hmu] Hi Ht Ht' Hinit. split; [by eapply same_init|]. simpl. destruct (c_mu s).
  - destruct Hmu as (i0 & t0 & Hi0 & Hh & Huniq). exists i0, t0. split; [|split; [done|]].
    + rewrite list_lookup_insert_ne; [done|]. intros ->. simplify_eq. by destruct t0.
    + intros j u Hj Hu. destruct (insert_thread _ _ _ _ _ _ Hi Hj) as [[-> ->]|[_ Hj']]; [congruence|by eapply Huniq].
  - destruct Hmu as [Hdb Hno]. split; [done|]. intros j u Hj.
    destruct (insert_thread _ _ _ _ _ _ Hi Hj) as [[-> ->]|[_ Hj']]; [done|by eapply Hno].
Qed.

Lemma mutex_step v0 inps s s' : mutex_inv v0 inps s → cstep s s' → mutex_inv v0 inps s'.
Proof.
  intros Hinv. destruct 1 as [i inp Hi Hmu|i inp v type Hi Hv|i inp v type Hi Hv|i inp Hi|i type Hi|i type v Hi].
  - destruct Hinv as [Hin H]. rewrite Hmu in H. destruct H as [Hdb Hno]. split; [by eapply same_init|]. simpl.
    exists i, (ILocked inp). split; [apply list_lookup_insert_eq; by eapply lookup_lt_Some|]. split; [done|].
    intros j u Hj Hu. destruct (insert_thread _ _ _ _ _ _ Hi Hj) as [[-> _]|[_ Hj']]; [done|].
    by rewrite (Hno _ _ Hj') in Hu.
  - eapply holder_step; [done|exact Hi|done..|]. intros _. exists v. split; [done|apply put_same].
  - eapply holder_step; [done|exact Hi|done..|]. intros (v' & Hv' & Hsame).
    simpl. rewrite (assigns_det _ _ _ Hv Hv') in *. by rewrite put_both.
  - destruct Hinv as [Hin H]. split; [by eapply same_init|]. simpl.
    destruct (c_mu s); [|destruct H as [_ Hno]; by specialize (Hno _ _ Hi)].
    destruct H as (i0 & t0 & Hi0 & Hh & Huniq). pose proof (Huniq _ _ Hi eq_refl) as <-.
    assert (t0 = IWritten inp) as -> by congruence. split.
    + right. exists inp. split; [|done]. by eapply Hin.
    + intros j u Hj. destruct (insert_thread _ _ _ _ _ _ Hi Hj) as [[-> ->]|[Hne Hj']]; [done|].
      destruct (inside u) eqn:Hu; [|done]. by destruct (Hne (Huniq _ _ Hj' Hu)).
  - by eapply outside_step; [|exact Hi|..].
  - by eapply outside_step; [|exact Hi|..].
Qed.

Lemma cstart_thread v inps n i t :
  c_threads (cstart v inps n) !! i = Some t → t = RStart ∨ ∃ inp, t = IStart inp ∧ inp ∈ inps.
Proof.
  simpl. intros [H|[_ H]]%lookup_app_Some.
  - right. rewrite list_lookup_fmap in H. destruct (inps !! i) as [inp|] eqn:E; simplify_eq/=.
    exists inp. split; [done|by eapply list_elem_of_lookup_2].
  - left. by apply lookup_replicate in H as [-> _].
Qed.

Lemma mutex_start v inps n : mutex_inv v inps (cstart v inps n).
Proof.
  split.
  - intros i t inp Hi Ht. by destruct (cstart_thread _ _ _ _ _ Hi) as [-> |(inp' & -> & ?)]; simplify_eq/=.
  - simpl. split; [by left|]. intros j u Hj. by destruct (cstart_thread v inps n _ _ Hj) as [-> |(inp' & -> & _)].
Qed.

(** ** The requests *)

(** [type_of p] is the type of the database at [p]. *)
Context (type_of : nat → string).
Definition whole (v : words) : Prop := ∃ p, v = Words (Some (type_of p)) (Some p).

(** Every database has the type [k]: no word that is read is of another one. *)
Definition of_type (k : string) (v : words) : Prop := w_type v = Some k ∧ ∃ p, w_data v = Some p ∧ type_of p = k.
Definition read_ok (k : string) (t : thread) : Prop :=
  match t with RHalf _ v | RCall v => of_type k v | _ => True end.
Definition typed_inv (k : string) (s : csrv) : Prop :=
  of_type k (c_db s) ∧ Forall (read_ok k) (c_threads s).

Lemma of_type_put k type v w : of_type k v → of_type k w → of_type k (put_word type v w).
Proof. destruct type; intros [Hv1 Hv2] [Hw1 Hw2]; by split. Qed.

Lemma typed_step k (inps : list Init) s s' :
  (∀ inp v, inp ∈ inps → assigns inp v → of_type k v) →
  (∀ i t inp, c_threads s !! i = Some t → init_of t = Some inp → inp ∈ inps) →
  typed_inv k s → cstep s s' → typed_inv k s'.
Proof.
  intros Hall Hin [Hdb Hts]. assert (∀ i t, c_threads s !! i = Some t → read_ok k t) as Hread
    by (intros; by eapply Forall_lookup_1).
  destruct 1 as [i inp Hi _|i inp v type Hi Hv|i inp v type Hi Hv|i inp Hi|i type Hi|i type v Hi];
    (split; [|by apply Forall_insert; [|try apply of_type_put; try exact (Hread _ _ Hi)]]); simpl;
    eauto using of_type_put.
Qed.


Lemma reach_inv v inps n s : rtc cstep (cstart v inps n) s → mutex_inv v inps s.
Proof. apply (rtc_ind_r (λ s, mutex_inv v inps s)); [apply mutex_start|]. intros. by eapply mutex_step. Qed.

Lemma reach_typed k inps n p0 s :
  type_of p0 = k → (∀ inp v, inp ∈ inps → assigns inp v → of_type k v) →
  rtc cstep (cstart (Words (Some k) (Some p0)) inps n) s → typed_inv k s.
Proof.
  intros Hp0 Hall Hreach. revert Hreach. apply (rtc_ind_r (λ s, typed_inv k s)).
  - split; [split; [done|by exists p0]|]. apply Forall_lookup_2. intros i t Hi.
    by destruct (cstart_thread _ _ _ _ _ Hi) as [-> |(inp & -> & _)].
  - intros s1 s2 Hs1 Hstep Hinv. eapply typed_step; [exact Hall| |done|done].
    exact (proj1 (reach_inv _ _ _ _ Hs1)).
Qed.

(** The schedule that tears a value: a request reads the type, an [Init] runs,
    the request reads the data. *)
Lemma torn_read v0 inps n i inp v :
  inps !! i = Some inp → assigns inp v → 0 < n →
  ∃ s, rtc cstep (cstart v0 inps n) s ∧ RCall (Words (w_type v0) (w_data v)) ∈ c_threads s.
Proof.
  intros Hi Hv Hn. set (l := (IStart <$> inps) ++ replicate n RStart). set (r := length inps).
  assert (l !! i = Some (IStart inp)) as Hli.
  { apply lookup_app_l_Some. by rewrite list_lookup_fmap, Hi. }
  assert (l !! r = Some RStart) as Hlr.
  { unfold l. rewrite lookup_app_r by (rewrite length_fmap; done). rewrite length_fmap. unfold r.
    rewrite Nat.sub_diag. by apply lookup_replicate_2. }
  assert (i ≠ r) as Hne by (apply lookup_lt_Some in Hi; unfold r; lia).
  pose proof (lookup_lt_Some _ _ _ Hli) as Hlti. pose proof (lookup_lt_Some _ _ _ Hlr) as Hltr.
  assert (∀ l' : list thread, length l' = length l → ∀ t : thread, <[i := t]> l' !! i = Some t) as Heqi
    by (intros l' Hl' t; apply list_lookup_insert_eq; lia).
  eexists (CSrv _ _ _). split.
  - eapply rtc_l; [eapply (c_read1 _ r true); exact Hlr|]. simpl. fold l.
    eapply rtc_l; [eapply (c_Lock _ i inp); [simpl; by rewrite list_lookup_insert_ne|done]|]. simpl.
    eapply rtc_l; [eapply (c_write1 _ i inp v true); [apply Heqi; by rewrite length_insert|done]|]. simpl.
    eapply rtc_l; [eapply (c_write2 _ i inp v true); [apply Heqi; by rewrite !length_insert|done]|]. simpl.
    eapply rtc_l; [eapply (c_read2 _ r true v0)|apply rtc_refl]. simpl.
    rewrite !list_lookup_insert_ne by done. by apply list_lookup_insert_eq.
  - simpl. apply list_elem_of_lookup_2 with r. apply list_lookup_insert_eq. by rewrite !length_insert.
Qed.

(** C33: [Init] beside other requests, whatever the scheduler does.  The
    mutex protects the calls of [Init] from each other: whenever it is free,
    [s.db] is the first database or what one whole call has assigned.  The other
    methods do not take it: that every request calls the methods of a type on a
    database of that type holds exactly when every [Init] succeeds with the type
    the server has already. *)
Theorem Init_races k0 p0 inps n :
  type_of p0 = k0 → (∀ inp k p, new_db inp = Ok (k, p) → type_of p = k) →
  (∀ inp, inp ∈ inps → ∃ v, assigns inp v) → 0 < n →
  let start := cstart (Words (Some k0) (Some p0)) inps n in
  (∀ s, rtc cstep start s → c_mu s = false → left_by (Words (Some k0) (Some p0)) inps (c_db s)) ∧
  ((∀ s v, rtc cstep start s → RCall v ∈ c_threads s → whole v) ↔
   Forall (λ inp, ∃ p, new_db inp = Ok (k0, p)) inps).
Proof.
  intros Hp0 Htype Hret Hn start. split.
  { intros s Hs Hmu. apply reach_inv in Hs as [_ Hs]. rewrite Hmu in Hs. apply Hs. }
  split.
  - intros Hwhole. apply Forall_lookup_2. intros i inp Hi.
    destruct (Hret inp) as [v Hv]; [by eapply list_elem_of_lookup_2|].
    destruct (torn_read (Words (Some k0) (Some p0)) inps n i inp v Hi Hv Hn) as (s & Hs & Hcall).
    destruct (Hwhole _ _ Hs Hcall) as (p & Hp). simpl in Hp. destruct Hv as [k q Hnew|e Hnew]; [|done].
    injection Hp as Hk ->. exists p. by rewrite Hk, (Htype _ _ _ Hnew).
  - intros Hall s v Hs Hcall. eapply reach_typed in Hs as [_ Hs]; [|done|].
    + rewrite list.Forall_forall in Hs. specialize (Hs _ Hcall). destruct v as [t d], Hs as [Ht (p & Hd & Hp)].
      simpl in *. exists p. by rewrite Ht, Hd, Hp.
    + intros inp w Hinp Hw. rewrite list.Forall_forall in Hall. destruct (Hall _ Hinp) as [p Hnew].
      destruct Hw as [k q Hnew'|e Hnew']; [|congruence]. assert (k = k0 ∧ q = p) as [-> ->] by (split; congruence).
      split; [done|]. exists p. split; [done|]. by eapply Htype.
Qed.

End conc.

(** ** An instance: a server that has a MemDB, with two backends *)

Section instance.
Definition race_backends : gmap string (dbCreator (DB := string * nat)) :=
  {[ MemDBBackend := (λ _ _, Ok (MemDBBackend, 1)) : dbCreator;
     GoLevelDBBackend := (λ _ _, Ok (GoLevelDBBackend, 2)) : dbCreator ]}.
Definition race_type (p : nat) : string := if p =? 2 then GoLevelDBBackend else MemDBBackend.
Definition init_as (backend : string) : Init :=
  {| Init_Type := backend; Init_Name := "state"; Init_Dir := "/data"; Init_unrecognized := None |}.
Abbreviation race_step := (cstep (λ b, elements (dom b)) race_backends).
Abbreviation race_start := (cstart (Words (Some MemDBBackend) (Some 0))).

Lemma race_types inp k p : new_db (λ b, elements (dom b)) race_backends inp = Ok (k, p) → race_type p = k.
Proof.
  unfold new_db, NewDB, race_backends. destruct (_ !! Init_Type inp) as [c|] eqn:E; [|done].
  rewrite lookup_insert_Some, lookup_singleton_Some in E.
  by destruct E as [[_ <-]|(_ & _ & <-)]; intros [= <- <-].
Qed.

(** A second [Init] with the same backend is harmless; with another one a
    request may call a method of MemDB on a GoLevelDB. *)
Lemma Init_races_witness :
  (∀ s v, rtc race_step (race_start [init_as MemDBBackend] 1) s → RCall v ∈ c_threads s → whole race_type v) ∧
  (¬ ∀ s v, rtc race_step (race_start [init_as GoLevelDBBackend] 1) s → RCall v ∈ c_threads s → whole race_type v).
Proof.
  split.
  - apply (proj2 (Init_races (λ b, elements (dom b)) race_backends race_type MemDBBackend 0
      [init_as MemDBBackend] 1 eq_refl race_types
      ltac:(intros inp ->%list_elem_of_singleton; eexists; by eapply assigns_Ok) ltac:(lia))).
    apply Forall_singleton. by exists 1.
  - intros H. apply (proj2 (Init_races (λ b, elements (dom b)) race_backends race_type MemDBBackend 0
      [init_as GoLevelDBBackend] 1 eq_refl race_types
      ltac:(intros inp ->%list_elem_of_singleton; eexists; by eapply assigns_Ok) ltac:(lia))) in H.
    apply Forall_singleton in H as [p H]. by vm_compute in H.
Defined.
End instance.
