(* ===== verification/GetStream.v ===== *)
(** * remotedb/grpcdb/server.go: GetStream

    The handler and the goroutine it starts, with the unbuffered channel between
    them, as an interleaving step relation: every step is one action of the
    goroutine, of the handler, a message that passes from the one to the other,
    an action of the client at the other end of the stream, or a call of another
    client.  [ds.Recv] delivers the requests that have arrived and blocks while
    there is none, until the client has ended the stream (io.EOF) or the stream
    has broken (any error); [ds.Send] may fail at any time. *)

From S2P Require Import Prelude Go Util Spec Types BTree MemDB MemDBCorrect Proto GrpcServer GrpcServerCorrect.
Import protodb.

Section getstream.
Context {S I B : Type} `{!IteratorOps I, !BatchOps S B} (ops : DBOps S I B).
(** [err.Error()]; what the other handlers do to the server. *)
Context (Error : error → string) (others : server S → server S → Prop).

(** ** State *)

(** The stream as the server's [Recv] sees it: the requests the client has still
    to send, those that have arrived, how it ended, whether requests were lost. *)
Record peer := Peer {
  e_todo : list Entity;
  e_in : list Entity;
  e_end : option error;
  e_broken : bool;
}.

(** The goroutine: at [ds.Recv()]; at [s.Get(ctx, in)]; at [responsesChan <- out],
    after which it returns or goes on; at the deferred [close]; finished; crashed. *)
Inductive rstate :=
  | RRecv
  | RGet (inp : Entity)
  | RSend (out : Entity) (return_ : bool)
  | RClose
  | RDone
  | RPanic.

(** The handler: at [range responsesChan], at [ds.Send(out)], returned. *)
Inductive hstate :=
  | HRange
  | HSend (out : Entity)
  | HReturn (err : option error).

(** [st_asked] is a history variable: the requests answered so far, each with the
    server [Get] was called on. *)
Record getStream := Stream {
  st_srv : server S;
  st_peer : peer;
  st_r : rstate;
  st_h : hstate;
  st_closed : bool;
  st_sent : list Entity;
  st_asked : list (Entity * server S);
}.

Definition stream_start (srv : server S) (requests : list Entity) : getStream :=
  {| st_srv := srv; st_peer := Peer requests [] None false; st_r := RRecv; st_h := HRange; st_closed := false;
     st_sent := []; st_asked := [] |}.

Definition set_peer (e : peer) (s : getStream) : getStream :=
  Stream (st_srv s) e (st_r s) (st_h s) (st_closed s) (st_sent s) (st_asked s).
Definition set_r (r : rstate) (s : getStream) : getStream :=
  Stream (st_srv s) (st_peer s) r (st_h s) (st_closed s) (st_sent s) (st_asked s).
Definition set_h (h : hstate) (s : getStream) : getStream :=
  Stream (st_srv s) (st_peer s) (st_r s) h (st_closed s) (st_sent s) (st_asked s).

(** ** Steps *)

(** What follows [in, err := ds.Recv()] when it fails. *)
Definition after_Recv_err (err : error) : rstate := RSend (EntityErr None (Error err)) true.

(** What follows [out, err := s.Get(ctx, in)]: [Get] returns nil next to an
    error, and the key of the request is sent back with it. *)
Definition after_Get (inp : Entity) (r : result Entity) : rstate :=
  match r with
  | Ok out => RSend out false
  | Err err => RSend (EntityErr (Entity_Key inp) (Error err)) true
  | Panic _ | Diverge => RPanic
  end.

Inductive stream_label := Goroutine | Pass | Handler | Client | Other.

Inductive stream_step (s : getStream) : stream_label → getStream → Prop :=
  | g_Recv inp rest :                                   (* in, err := ds.Recv() *)
      st_r s = RRecv → e_in (st_peer s) = inp :: rest →
      stream_step s Goroutine
        (set_r (RGet inp) (set_peer (Peer (e_todo (st_peer s)) rest (e_end (st_peer s)) (e_broken (st_peer s))) s))
  | g_Recv_err err :                                    (* ds.Recv() fails *)
      st_r s = RRecv → e_in (st_peer s) = [] → e_end (st_peer s) = Some err →
      stream_step s Goroutine (set_r (after_Recv_err err) s)
  | g_Get inp :                                         (* out, err := s.Get(ctx, in) *)
      st_r s = RGet inp →
      stream_step s Goroutine
        (Stream (server_Get ops inp (st_srv s)).2 (st_peer s) (after_Get inp (server_Get ops inp (st_srv s)).1)
           (st_h s) (st_closed s) (st_sent s) (st_asked s ++ [(inp, st_srv s)]))
  | g_close :                                           (* defer close(responsesChan) *)
      st_r s = RClose →
      stream_step s Goroutine
        (Stream (st_srv s) (st_peer s) RDone (st_h s) true (st_sent s) (st_asked s))
  | c_pass out return_ :                                (* responsesChan <- out meets the range *)
      st_r s = RSend out return_ → st_h s = HRange →
      stream_step s Pass (set_h (HSend out) (set_r (if return_ : bool then RClose else RRecv) s))
  | h_Send out :                                        (* ds.Send(out) succeeds *)
      st_h s = HSend out →
      stream_step s Handler
        (Stream (st_srv s) (st_peer s) (st_r s) HRange (st_closed s) (st_sent s ++ [out]) (st_asked s))
  | h_Send_err out err :                                (* ds.Send(out) fails: return err *)
      st_h s = HSend out →
      stream_step s Handler (set_h (HReturn (Some err)) s)
  | h_end :                                             (* the channel is closed: return nil *)
      st_h s = HRange → st_closed s = true →
      stream_step s Handler (set_h (HReturn None) s)
  | p_send inp todo :                                   (* a request arrives *)
      e_todo (st_peer s) = inp :: todo → e_end (st_peer s) = None →
      stream_step s Client (set_peer (Peer todo (e_in (st_peer s) ++ [inp]) None (e_broken (st_peer s))) s)
  | p_end err :                                         (* the client ends the stream *)
      e_todo (st_peer s) = [] → e_end (st_peer s) = None →
      stream_step s Client (set_peer (Peer [] (e_in (st_peer s)) (Some err) (e_broken (st_peer s))) s)
  | p_break err :                                       (* the stream breaks *)
      e_end (st_peer s) = None →
      stream_step s Client (set_peer (Peer [] [] (Some err) true) s)
  | o_call srv :                                        (* another request of another client *)
      others (st_srv s) srv →
      stream_step s Other
        (Stream srv (st_peer s) (st_r s) (st_h s) (st_closed s) (st_sent s) (st_asked s)).

Inductive stream_steps : getStream → getStream → Prop :=
  | steps_refl s : stream_steps s s
  | steps_step s s' s'' lab : stream_steps s s' → stream_step s' lab s'' → stream_steps s s''.

(** ** What the client is sent *)

Context `{!DBContract ops, !IteratorBounds I}.
Context (others_ok : ∀ srv srv' m, srv_ok ops srv m → others srv srv' → ∃ m', srv_ok ops srv' m').

(** The message for a request and the store it finds. *)
Definition response (q : Entity * store) : Entity :=
  match spec_Get q.2 (Entity_Key q.1) with
  | Ok value => EntityKV None value
  | Err err => EntityErr (Entity_Key q.1) (Error err)
  | _ => Entity0
  end.

Definition accepted (q : Entity * store) : Prop := data (Entity_Key q.1) ≠ [].

(** How far the goroutine is: still receiving, or about to return, after the
    error of [Recv] or after a request that [Get] refused. *)
Inductive stage (e : peer) : bool → list (Entity * store) → list Entity → Prop :=
  | stage_recv qs : Forall accepted qs → stage e false qs []
  | stage_eof qs err : Forall accepted qs → e_in e = [] → e_end e = Some err →
      stage e true qs [EntityErr None (Error err)]
  | stage_refused qs q : Forall accepted qs → ¬ accepted q → stage e true (qs ++ [q]) [].

Definition returning (r : rstate) : bool :=
  match r with RRecv | RGet _ => false | RSend _ return_ => return_ | _ => true end.
Definition in_flight (r : rstate) : list Entity :=
  match r with RSend out _ => [out] | _ => [] end.
(** The request that was received and is not answered yet. *)
Definition received (r : rstate) : list Entity :=
  match r with RGet inp => [inp] | _ => [] end.

(** The messages of the goroutine, in order: sent, in the handler, waiting. *)
Definition delivered (s : getStream) (msgs : list Entity) : Prop :=
  match st_h s with
  | HRange | HReturn None => msgs = st_sent s ++ in_flight (st_r s)
  | HSend out => msgs = st_sent s ++ [out] ++ in_flight (st_r s)
  | HReturn (Some _) => st_sent s `prefix_of` msgs
  end.

Definition logged (q : Entity * store) (a : Entity * server S) : Prop := q.1 = a.1 ∧ srv_ok ops a.2 q.2.

(** What has become of the requests: answered, in [Get], arrived, still to be
    sent, unless the stream broke; it broke or ended when nothing is left to send. *)
Definition accounted (requests asked : list Entity) (s : getStream) : Prop :=
  let e := st_peer s in
  if e_broken e then asked ++ received (st_r s) ++ e_in e `prefix_of` requests ∧ e_todo e = []
  else asked ++ received (st_r s) ++ e_in e ++ e_todo e = requests ∧ (e_end e ≠ None → e_todo e = []).

Definition stream_inv (requests : list Entity) (s : getStream) : Prop :=
  st_r s ≠ RPanic ∧ (∃ m, srv_ok ops (st_srv s) m) ∧
  (st_closed s = true ↔ st_r s = RDone) ∧ (st_h s = HReturn None → st_r s = RDone) ∧
  (e_broken (st_peer s) = true → e_end (st_peer s) ≠ None) ∧
  ∃ qs tail, Forall2 logged qs (st_asked s) ∧ accounted requests qs.*1 s ∧
    stage (st_peer s) (returning (st_r s)) qs tail ∧ delivered s ((response <$> qs) ++ tail).

(** The goroutine answers a request. *)
Lemma after_Get_spec inp srv m :
  srv_ok ops srv m → fits_read db_fits (data (Entity_Key inp)) →
  srv_ok ops (server_Get ops inp srv).2 m ∧
  after_Get inp (server_Get ops inp srv).1 =
    RSend (response (inp, m)) (bool_decide (data (Entity_Key inp) = [])).
Proof.
  intros Hs Hf. destruct (server_Get_spec ops srv m inp Hs Hf) as (srv' & -> & Hs'). split; [done|].
  unfold response, spec_Get, len. simpl. by destruct (data (Entity_Key inp)).
Qed.

(** A message more of the goroutine, while the handler did not see it. *)
Lemma delivered_more s s' msgs out :
  delivered s msgs → in_flight (st_r s) = [] → st_h s ≠ HReturn None →
  st_h s' = st_h s → st_sent s' = st_sent s → in_flight (st_r s') = [out] →
  delivered s' (msgs ++ [out]).
Proof.
  unfold delivered. intros H Hr Hh -> -> ->. rewrite Hr in H. simpl in H.
  destruct (st_h s) as [|?|[e|]]; subst; rewrite ?app_nil_r; simpl; rewrite <-?(assoc_L (++)); try done.
  by apply prefix_app_r.
Qed.

(** Requests that the goroutine has received are among those of the client. *)
Lemma accounted_in requests asked s inp :
  accounted requests asked s → st_r s = RGet inp → inp ∈ requests.
Proof.
  unfold accounted. intros H Hr. rewrite Hr in H. simpl in H. destruct (e_broken (st_peer s)).
  - destruct H as [[k ->] _]. set_solver.
  - destruct H as [<- _]. set_solver.
Qed.

Section inv_steps.
Context (requests : list Entity) (Hreq : Forall (λ inp, fits_read db_fits (data (Entity_Key inp))) requests).

(** The goroutine's own steps but [Get]. *)
Lemma inv_Recv s inp rest :
  stream_inv requests s → st_r s = RRecv → e_in (st_peer s) = inp :: rest →
  stream_inv requests
    (set_r (RGet inp) (set_peer (Peer (e_todo (st_peer s)) rest (e_end (st_peer s)) (e_broken (st_peer s))) s)).
Proof.
  intros (Hp & Hm & Hcl & Hret & Hbr & qs & tail & Hlog & Hacc & Hst & Hdel) Hr Hin.
  rewrite Hr in *. split_and!; simpl; [done|done|naive_solver|naive_solver|done|]. exists qs, tail.
  split_and!; [done| | |].
  - unfold accounted in *. simpl. rewrite Hr, Hin in Hacc. by destruct (e_broken (st_peer s)).
  - simpl in *. inversion Hst; subst. by constructor.
  - unfold delivered in *. simpl. by rewrite Hr in Hdel.
Qed.

Lemma inv_Recv_err s err :
  stream_inv requests s → st_r s = RRecv → e_in (st_peer s) = [] → e_end (st_peer s) = Some err →
  stream_inv requests (set_r (after_Recv_err err) s).
Proof.
  intros (Hp & Hm & Hcl & Hret & Hbr & qs & tail & Hlog & Hacc & Hst & Hdel) Hr Hin Hend.
  rewrite Hr in *. inversion Hst as [? Hok| |]; subst. rewrite app_nil_r in Hdel.
  split_and!; simpl; [done|done|naive_solver|naive_solver|done|].
  exists qs, [EntityErr None (Error err)]. split_and!; [done| |by constructor|].
  - unfold accounted in *. simpl. by rewrite Hr in Hacc.
  - apply (delivered_more s); try done; [by rewrite Hr|]. naive_solver.
Qed.

Lemma inv_Get s inp :
  stream_inv requests s → st_r s = RGet inp →
  stream_inv requests
    (Stream (server_Get ops inp (st_srv s)).2 (st_peer s) (after_Get inp (server_Get ops inp (st_srv s)).1)
       (st_h s) (st_closed s) (st_sent s) (st_asked s ++ [(inp, st_srv s)])).
Proof.
  intros (Hp & [m Hm] & Hcl & Hret & Hbr & qs & tail & Hlog & Hacc & Hst & Hdel) Hr.
  assert (fits_read db_fits (data (Entity_Key inp))) as Hf.
  { rewrite list.Forall_forall in Hreq. apply Hreq. by eapply accounted_in. }
  destruct (after_Get_spec inp (st_srv s) m Hm Hf) as [Hm' Hafter].
  rewrite Hr in *. inversion Hst as [? Hok| |]; subst. rewrite app_nil_r in Hdel.
  split_and!; simpl; [by rewrite Hafter|by exists m|rewrite Hafter; naive_solver|naive_solver|done|].
  exists (qs ++ [(inp, m)]), []. rewrite Hafter, app_nil_r, !fmap_app. split_and!.
  - apply Forall2_app; [done|]. by constructor.
  - unfold accounted in *. simpl. rewrite Hr in Hacc. rewrite <-!(assoc_L (++)). exact Hacc.
  - simpl. case_bool_decide as Hk; constructor; try done; [by intros []|].
    apply Forall_app. split; [done|]. by constructor.
  - apply (delivered_more s); try done; [by rewrite Hr|]. naive_solver.
Qed.

(** Steps of the client do not concern the goroutine, unless it waits. *)
Lemma inv_peer s e :
  stream_inv requests s →
  (∀ asked, accounted requests asked s → accounted requests asked (set_peer e s)) →
  (e_broken e = true → e_end e ≠ None) → e_end (st_peer s) = None →
  stream_inv requests (set_peer e s).
Proof.
  intros (Hp & Hm & Hcl & Hret & Hbr & qs & tail & Hlog & Hacc & Hst & Hdel) He Hb Hend.
  split_and!; simpl; [done..|]. exists qs, tail. split_and!; [done|by apply He| |done].
  inversion Hst as [| |]; subst; [by constructor|congruence|by constructor].
Qed.

Lemma accounted_send s asked inp todo :
  e_todo (st_peer s) = inp :: todo → e_end (st_peer s) = None → accounted requests asked s →
  accounted requests asked (set_peer (Peer todo (e_in (st_peer s) ++ [inp]) None (e_broken (st_peer s))) s).
Proof.
  unfold accounted. simpl. intros Ht He. rewrite Ht. destruct (e_broken (st_peer s)); [by intros [_ ?]|].
  intros [<- _]. split; [|done]. by rewrite <-!(assoc_L (++)).
Qed.

Lemma accounted_end s asked err :
  e_todo (st_peer s) = [] → accounted requests asked s →
  accounted requests asked (set_peer (Peer [] (e_in (st_peer s)) (Some err) (e_broken (st_peer s))) s).
Proof. unfold accounted. simpl. intros ->. destruct (e_broken (st_peer s)); naive_solver. Qed.

Lemma accounted_break s asked err :
  accounted requests asked s → accounted requests asked (set_peer (Peer [] [] (Some err) true) s).
Proof.
  unfold accounted. simpl. rewrite app_nil_r. destruct (e_broken (st_peer s)).
  - intros [[k ->] _]. split; [|done]. exists (e_in (st_peer s) ++ k). by rewrite <-!(assoc_L (++)).
  - intros [<- _]. split; [|done]. exists (e_in (st_peer s) ++ e_todo (st_peer s)). by rewrite <-!(assoc_L (++)).
Qed.

Lemma stream_inv_step s lab s' : stream_inv requests s → stream_step s lab s' → stream_inv requests s'.
Proof.
  intros Hinv Hstep. pose proof Hinv as (Hp & Hm & Hcl & Hret & Hbr & qs & tail & Hlog & Hacc & Hst & Hdel).
  destruct Hstep as [inp rest Hr Hin|err Hr Hin He|inp Hr|Hr|out ret Hr Hh|out Hh|out err Hh|Hh Hc
    |inp todo Ht He|err Ht He|err He|srv Hother].
  - by apply inv_Recv.
  - by apply inv_Recv_err.
  - by apply inv_Get.
  - split_and!; simpl; [done|done|done|done|done|]. exists qs, tail. rewrite Hr in Hst.
    split_and!; [done| |done|]; unfold accounted, delivered in *; simpl; by rewrite Hr in *.
  - split_and!; simpl; [by destruct ret|done|rewrite Hcl, Hr; by destruct ret|done|done|].
    exists qs, tail. rewrite Hr in Hst. split_and!; [done| |by destruct ret|].
    + unfold accounted in *. simpl. rewrite Hr in Hacc. by destruct ret.
    + unfold delivered in *. rewrite Hh, Hr in Hdel. simpl in *. rewrite Hdel. by destruct ret.
  - split_and!; simpl; [done|done|done|done|done|]. exists qs, tail. split_and!; [done|done|done|].
    unfold delivered in *. rewrite Hh in Hdel. simpl in *. by rewrite <-(assoc_L (++)).
  - split_and!; simpl; [done|done|done|done|done|]. exists qs, tail. split_and!; [done|done|done|].
    unfold delivered in *. rewrite Hh in Hdel. simpl in *. rewrite Hdel. by apply prefix_app_r.
  - split_and!; simpl; [done|done|done|intros _; by apply Hcl|done|]. exists qs, tail.
    split_and!; [done|done|done|]. unfold delivered in *. by rewrite Hh in Hdel.
  - apply inv_peer; [done| |naive_solver|done]. intros asked. by apply accounted_send.
  - apply inv_peer; [done| |done|done]. intros asked. by apply accounted_end.
  - apply inv_peer; [done| |done|done]. intros asked. by apply accounted_break.
  - destruct Hm as [m Hm]. destruct (others_ok _ _ _ Hm Hother) as [m' Hm'].
    split_and!; simpl; [done|by exists m'|done|done|done|]. exists qs, tail. by split_and!.
Qed.

Lemma stream_inv_steps srv m s :
  srv_ok ops srv m → stream_steps (stream_start srv requests) s → stream_inv requests s.
Proof.
  intros Hm Hs. remember (stream_start srv requests) as s0 eqn:Hs0.
  induction Hs as [s|s s1 s2 lab _ IH Hstep]; subst; [|by eapply stream_inv_step; eauto].
  split_and!; simpl; [done|by exists m|done|done|done|]. exists [], []. split_and!; [done| | |done].
  - by split.
  - by constructor.
Qed.

End inv_steps.

(** For every database that meets the contract, whatever the other
    clients do meanwhile, [GetStream] sends the answers to the requests in their
    order, each for the database as it is when [Get] is called for it, and
    then the error of [Recv]; a request with an empty key ends the stream with
    its error and nothing after.  When the handler returns nil all of this has been sent. *)
Lemma GetStream_answers requests srv m s :
  Forall (λ inp, fits_read db_fits (data (Entity_Key inp))) requests →
  srv_ok ops srv m → stream_steps (stream_start srv requests) s →
  st_r s ≠ RPanic ∧
  ∃ qs tail, Forall2 logged qs (st_asked s) ∧ qs.*1 `prefix_of` requests ∧
    (tail = [] ∨ ∃ err, tail = [EntityErr None (Error err)] ∧ e_end (st_peer s) = Some err ∧
       (e_broken (st_peer s) = false → qs.*1 = requests)) ∧
    st_sent s `prefix_of` (response <$> qs) ++ tail ∧
    (st_h s = HReturn None → st_sent s = (response <$> qs) ++ tail ∧
      (tail ≠ [] ∨ tail = [] ∧ ∃ qs' q, qs = qs' ++ [q] ∧ ¬ accepted q)).
Proof.
  intros Hreq Hm Hs.
  destruct (stream_inv_steps requests Hreq srv m s Hm Hs)
    as (Hp & _ & _ & Hret & _ & qs & tail & Hlog & Hacc & Hst & Hdel).
  split; [done|]. exists qs, tail. split_and!; [done| | | |].
  - unfold accounted in Hacc. destruct (e_broken (st_peer s)).
    + destruct Hacc as [[k ->] _]. rewrite <-!(assoc_L (++)). by apply prefix_app_r.
    + destruct Hacc as [<- _]. by apply prefix_app_r.
  - destruct (returning (st_r s)) eqn:Hr; inversion Hst as [|? err Hok Hin Hend|]; subst; [|by left|by left].
    right. exists err. split_and!; [done|done|]. intros Hb. unfold accounted in Hacc. rewrite Hb, Hin in Hacc.
    destruct Hacc as [<- Ht]. rewrite (Ht ltac:(by rewrite Hend)), !app_nil_r.
    destruct (st_r s); simpl in *; try done; by rewrite app_nil_r.
  - unfold delivered in Hdel. destruct (st_h s) as [| |[]]; try done; rewrite Hdel; by apply prefix_app_r.
  - intros Hh. specialize (Hret Hh). unfold delivered in Hdel. rewrite Hh, Hret in Hdel.
    rewrite Hret in Hst. simpl in *. rewrite app_nil_r in Hdel. split; [done|].
    inversion Hst; subst; [by left|right; eauto].
Qed.

(** ** Termination *)

Definition r_weight (r : rstate) : nat :=
  match r with
  | RRecv => 4 | RGet _ => 7 | RSend _ true => 3 | RSend _ false => 6 | RClose => 1 | RDone | RPanic => 0
  end.
Definition h_weight (h : hstate) : nat :=
  match h with HRange => 1 | HSend _ => 2 | HReturn _ => 0 end.
Definition stream_measure (s : getStream) : nat :=
  4 * (length (e_todo (st_peer s)) + length (e_in (st_peer s))) + r_weight (st_r s) + h_weight (st_h s).

(** The server's own actions. *)
Definition own (lab : stream_label) : Prop := lab ≠ Client ∧ lab ≠ Other.

Lemma measure_step s lab s' :
  stream_step s lab s' →
  stream_measure s' ≤ stream_measure s ∧ (own lab → stream_measure s' < stream_measure s).
Proof.
  unfold stream_measure, own.
  destruct 1 as [inp rest Hr Hin|err Hr Hin He|inp Hr|Hr|out [] Hr Hh|out Hh|out err Hh|Hh Hc
    |inp todo Ht He|err Ht He|err He|srv Hother]; simpl; rewrite ?Hr, ?Hin, ?Hh, ?Ht, ?length_app; simpl;
    (split; [|intros [??]; try done]); try lia;
    destruct (server_Get ops inp (st_srv s)) as [[] ?]; simpl; lia.
Qed.

(** [ds.Recv] blocks: the client has sent nothing more and has not ended the
    stream; the handler waits for the goroutine. *)
Definition idle (s : getStream) : Prop :=
  st_r s = RRecv ∧ st_h s = HRange ∧ e_in (st_peer s) = [] ∧ e_end (st_peer s) = None.

Lemma stream_progress requests s :
  stream_inv requests s → (∀ err, st_h s ≠ HReturn err) → idle s ∨ ∃ lab s', own lab ∧ stream_step s lab s'.
Proof.
  intros (Hp & _ & Hcl & _) Hh.
  destruct (st_h s) as [|out|err] eqn:Eh; [|right; by eexists Handler, _; split; [|by eapply h_Send]|by destruct (Hh err)].
  destruct (st_r s) as [|inp|out ret| | |] eqn:Er.
  - destruct (e_in (st_peer s)) as [|inp rest] eqn:Ei; [|right; by eexists Goroutine, _; split; [|by eapply g_Recv]].
    destruct (e_end (st_peer s)) as [err|] eqn:Ee; [|by left].
    right. by eexists Goroutine, _; split; [|by eapply g_Recv_err].
  - right. by eexists Goroutine, _; split; [|by eapply g_Get].
  - right. by eexists Pass, _; split; [|by eapply c_pass].
  - right. by eexists Goroutine, _; split; [|by apply g_close].
  - right. eexists Handler, _. split; [done|]. apply h_end; [done|]. by apply Hcl.
  - done.
Qed.

(** While the client does nothing, an idle stream stays so. *)
Lemma idle_blocks requests s lab s' :
  stream_inv requests s → idle s → stream_step s lab s' → ¬ own lab ∧ (lab = Other → idle s').
Proof.
  intros (_ & _ & Hcl & _) (Hr & Hh & Hin & He) Hstep. unfold own.
  destruct Hstep as [| | | | | | |? Hc| | | |]; simpl; try congruence; try (split; [tauto|done]).
  apply Hcl in Hc. congruence.
Qed.

Lemma steps_trans s1 s2 s3 : stream_steps s1 s2 → stream_steps s2 s3 → stream_steps s1 s3.
Proof. intros H12 H23. induction H23 as [|s2 s s3 lab _ IH Hstep]; [done|]. by eapply steps_step; [apply IH|]. Qed.

(** The goroutine has messages to pass on. *)
Definition g_running (r : rstate) : bool := match r with RRecv | RGet _ | RSend _ _ => true | _ => false end.

(** When [Send] fails the handler returns while its goroutine runs on. *)
Lemma goroutine_leaks requests srv m s err s' :
  Forall (λ inp, fits_read db_fits (data (Entity_Key inp))) requests →
  srv_ok ops srv m → stream_steps (stream_start srv requests) s →
  st_h s = HReturn (Some err) → g_running (st_r s) = true → stream_steps s s' →
  g_running (st_r s') = true ∧
  (∀ out ret, st_r s' = RSend out ret →
    ∀ lab s2, stream_step s' lab s2 → ¬ own lab ∧ st_r s2 = RSend out ret).
Proof.
  intros Hreq Hm Hs0 Hh Hrun Hs.
  assert (st_h s' = HReturn (Some err) ∧ g_running (st_r s') = true) as [Hh' Hrun'].
  { induction Hs as [s|s s1 s2 lab Hs IH Hstep]; [done|]. destruct IH as [Hh1 Hrun1]; [done..|].
    pose proof (stream_inv_steps requests Hreq srv m s2 Hm (steps_step _ _ _ _ (steps_trans _ _ _ Hs0 Hs) Hstep))
      as (Hp & _).
    destruct Hstep as [inp rest Hr Hin|er Hr Hin He|inp Hr|Hr|out ret Hr Hh2|out Hh2|out er Hh2|Hh2 Hc| | | |];
      simpl in *; try congruence; try done.
    - split; [done|]. by destruct (server_Get ops inp (st_srv s1)) as [[] ?].
    - by rewrite Hr in Hrun1. }
  split; [done|]. intros out ret Hr lab s2 Hstep. unfold own.
  destruct Hstep; simpl; try congruence; split; (tauto || done).
Qed.


End getstream.

(** ** Instances: a server over MemDB while other clients call [Set] *)

Section instance.
Abbreviation memdb := (MemDB (list item)).
Abbreviation ops := (MemDB_ops (T := list item)).

Definition other_Set (s s' : server memdb) : Prop :=
  ∃ key v, s' = (server_Set ops (EntityKV key (Some v)) s).2.

Lemma other_Set_ok srv srv' m :
  srv_ok ops srv m → other_Set srv srv' → ∃ m', srv_ok ops srv' m'.
Proof.
  intros Hs (key & v & ->).
  destruct (server_Set_spec ops srv m false (EntityKV key (Some v)) Hs) as (s' & H & Hs'); [done|].
  rewrite H. by eexists.
Qed.

Definition text (e : error) : string :=
  match e with
  | errKeyEmpty => "key cannot be empty"
  | errLib _ msg => msg
  | _ => "error"
  end.
Definition EOF : error := errLib "io" "EOF".

Definition mem_server : server memdb := {| s_db := Some NewMemDB |}.
Lemma mem_server_ok : srv_ok ops mem_server ∅.
Proof. exists NewMemDB. split; [done|]. apply NewMemDB_inv. Qed.

Definition two_requests : list Entity := [EntityKV (Some [x61]) None; EntityKV (Some [x61]) None].

Abbreviation mem_steps := (stream_steps ops text other_Set).
Abbreviation mem_start := (stream_start mem_server two_requests).

Ltac act H tac := eapply steps_step in H; [|tac]; simpl in H.

(** The key is set between the moment the second request is received and [Get]:
    nil, the value, the end. *)
Lemma sample_stream : ∃ s, mem_steps mem_start s ∧ st_h s = HReturn None ∧
  st_sent s = [EntityKV None None; EntityKV None (Some [x01]); EntityErr None (text EOF)].
Proof.
  pose proof (steps_refl ops text other_Set mem_start) as H.
  act H ltac:(by eapply p_send).
  act H ltac:(by eapply g_Recv).
  act H ltac:(by eapply g_Get).
  act H ltac:(by eapply c_pass).
  act H ltac:(by eapply p_send).
  act H ltac:(by eapply g_Recv).
  act H ltac:(apply o_call; by exists (Some [x61]), [x01]).
  act H ltac:(by eapply g_Get).
  act H ltac:(by eapply h_Send).
  act H ltac:(by eapply c_pass).
  act H ltac:(by eapply h_Send).
  act H ltac:(by apply (p_end _ _ _ _ EOF)).
  act H ltac:(by eapply g_Recv_err).
  act H ltac:(by eapply c_pass).
  act H ltac:(by eapply g_close).
  act H ltac:(by eapply h_Send).
  act H ltac:(by eapply h_end).
  eexists. split; [exact H|]. done.
Qed.

Lemma two_requests_fit : Forall (λ inp, fits_read no_limits (data (Entity_Key inp))) two_requests.
Proof. by repeat constructor. Qed.

Example stream_answers :
  ∃ s qs tail, mem_steps mem_start s ∧ st_sent s = (response text <$> qs) ++ tail ∧
    st_sent s = [EntityKV None None; EntityKV None (Some [x01]); EntityErr None (text EOF)].
Proof.
  destruct sample_stream as (s & Hs & Hh & Hsent).
  destruct (GetStream_answers ops text other_Set other_Set_ok two_requests mem_server ∅ s
    two_requests_fit mem_server_ok Hs) as (_ & qs & tail & _ & _ & _ & _ & H).
  exists s, qs, tail. split_and!; [exact Hs|exact (proj1 (H Hh))|exact Hsent].
Qed.

(** The first [Send] fails. *)
Lemma failed_stream : ∃ s, mem_steps mem_start s ∧
  st_h s = HReturn (Some (errLib "grpc" "transport is closing")) ∧ g_running (st_r s) = true.
Proof.
  pose proof (steps_refl ops text other_Set mem_start) as H.
  act H ltac:(by eapply p_send).
  act H ltac:(by eapply g_Recv).
  act H ltac:(by eapply g_Get).
  act H ltac:(by eapply c_pass).
  act H ltac:(by eapply (h_Send_err _ _ _ _ _ (errLib "grpc" "transport is closing"))).
  eexists. split; [exact H|]. done.
Qed.


End instance.
