(* ===== verification/RemoteDB.v ===== *)
(** * remotedb/remotedb.go, batch.go, iterator.go: the client

    [RemoteDB] over the generated interface [DBClient]. *)

From S2P Require Import Prelude Go Util Spec Types Proto.
Import protodb.

(** [type DBClient interface], [DB_IteratorClient] and
    [DB_ReverseIteratorClient]: [W] is what is behind the connection, [St] the
    state of a stream. *)
Class DBClient (W St : Type) := {
  dc_Init : Init → M W Entity;
  dc_Get : Entity → M W Entity;
  dc_Has : Entity → M W Entity;
  dc_Set : Entity → M W Nothing;
  dc_SetSync : Entity → M W Nothing;
  dc_Delete : Entity → M W Nothing;
  dc_DeleteSync : Entity → M W Nothing;
  dc_Iterator : Entity → M W St;
  dc_ReverseIterator : Entity → M W St;
  dc_Stats : Nothing → M W Stats;
  dc_BatchWrite : Batch → M W Nothing;
  dc_BatchWriteSync : Batch → M W Nothing;
  st_Recv : M St Iterator;
  st_CloseSend : M St unit;
}.

Section remotedb.
Context {W St : Type} `{!DBClient W St}.

(** [type RemoteDB struct] *)
Record RemoteDB := { rd_dc : W }.
Definition on_dc {A} : M W A → M RemoteDB A := on_field rd_dc (λ w _, {| rd_dc := w |}).

(** [newRemoteDB(gdc, err)] *)
Definition newRemoteDB (gdc : result W) : result RemoteDB := result_map (λ w, {| rd_dc := w |}) gdc.

(** [type Init struct] and [InitRemote] *)
Record RemoteInit := { Dir : string; Name : string; Type_ : string }.
Definition RemoteDB_InitRemote (inp : RemoteInit) : M RemoteDB unit :=
  _ ← on_dc (dc_Init {| Init_Type := Type_ inp; Init_Name := Name inp; Init_Dir := Dir inp;
                        Init_unrecognized := None |});
  mret tt.

Definition RemoteDB_Close : M RemoteDB unit := mret tt.

Definition RemoteDB_Delete (key : slice) : M RemoteDB unit :=
  _ ← wrap_err "remoteDB.Delete" (on_dc (dc_Delete (EntityKV key None))); mret tt.

Definition RemoteDB_DeleteSync (key : slice) : M RemoteDB unit :=
  _ ← wrap_err "remoteDB.DeleteSync" (on_dc (dc_DeleteSync (EntityKV key None))); mret tt.

Definition RemoteDB_Set (key value : slice) : M RemoteDB unit :=
  _ ← wrap_err "remoteDB.Set" (on_dc (dc_Set (EntityKV key value))); mret tt.

Definition RemoteDB_SetSync (key value : slice) : M RemoteDB unit :=
  _ ← wrap_err "remoteDB.SetSync" (on_dc (dc_SetSync (EntityKV key value))); mret tt.

Definition RemoteDB_Get (key : slice) : M RemoteDB slice :=
  res ← wrap_err "remoteDB.Get error" (on_dc (dc_Get (EntityKV key None)));
  mret (Entity_Value res).

Definition RemoteDB_Has (key : slice) : M RemoteDB bool :=
  res ← on_dc (dc_Has (EntityKV key None)); mret (Entity_Exists res).

Definition RemoteDB_Print : M RemoteDB (list string) := throw (errorsNew "remoteDB.Print: unimplemented").

(** The nil map on an error *)
Definition RemoteDB_Stats : M RemoteDB (gmap string string) :=
  r ← attempt (on_dc (dc_Stats {| Nothing_unrecognized := None |}));
  mret match r with inl stats => Stats_Data stats | inr _ => ∅ end.

(** ** Batches *)

(** [type batch struct]; [None] is the nil [ops] of a closed batch. *)
Record batch := { rb_ops : option (list Operation) }.

Definition newBatch : batch := {| rb_ops := Some [] |}.

Definition batch_Set (key value : slice) : M batch unit :=
  b ← get;
  match rb_ops b with
  | None => throw errBatchClosed
  | Some l =>
      let op := {| Operation_Entity := Some (EntityKV key value); Operation_Type := Operation_SET;
                   Operation_unrecognized := None |} in
      put {| rb_ops := Some (l ++ [op]) |}
  end.

Definition batch_Delete (key : slice) : M batch unit :=
  b ← get;
  match rb_ops b with
  | None => throw errBatchClosed
  | Some l =>
      let op := {| Operation_Entity := Some (EntityKV key None); Operation_Type := Operation_DELETE;
                   Operation_unrecognized := None |} in
      put {| rb_ops := Some (l ++ [op]) |}
  end.

Definition batch_Close : M batch unit := put {| rb_ops := None |}.

(** [&protodb.Batch{Ops: b.ops}] *)
Definition batch_msg (l : list Operation) : Batch :=
  {| Batch_Ops := Some <$> l; Batch_unrecognized := None |}.

Definition batch_Write : M (batch * RemoteDB) unit :=
  bs ← get;
  match rb_ops bs.1 with
  | None => throw errBatchClosed
  | Some l =>
      _ ← on_snd (wrap_err "remoteDB.BatchWrite" (on_dc (dc_BatchWrite (batch_msg l))));
      on_fst batch_Close
  end.

Definition batch_WriteSync : M (batch * RemoteDB) unit :=
  bs ← get;
  match rb_ops bs.1 with
  | None => throw errBatchClosed
  | Some l =>
      _ ← on_snd (wrap_err "RemoteDB.BatchWriteSync" (on_dc (dc_BatchWriteSync (batch_msg l))));
      on_fst batch_Close
  end.

#[global] Instance batch_ops_instance : BatchOps RemoteDB batch := {|
  b_Set key value := on_fst (batch_Set key value);
  b_Delete key := on_fst (batch_Delete key);
  b_Write := batch_Write;
  b_WriteSync := batch_WriteSync;
  b_Close := on_fst batch_Close;
|}.

Definition RemoteDB_NewBatch : M RemoteDB batch := mret newBatch.

(** ** Iterators *)

(** [type iterator struct] *)
Record iterator := { ri_dic : St; ri_cur : option Iterator; ri_err : option error }.

(** [itr.cur != nil && itr.cur.Valid && itr.err == nil] *)
Definition iterator_isValid (itr : iterator) : bool :=
  match ri_cur itr with
  | None => false
  | Some cur => Iterator_Valid cur && match ri_err itr with None => true | Some _ => false end
  end.

Definition iterator_Valid : M iterator bool := itr ← get; mret (iterator_isValid itr).

Definition iterator_Domain (itr : iterator) : slice * slice :=
  match ri_cur itr with
  | None => (None, None)
  | Some cur =>
      match Iterator_Domain cur with
      | None => (None, None)
      | Some d => (Domain_Start d, Domain_End d)
      end
  end.

(** [itr.cur, err = itr.dic.Recv()]: nil next to an error; an earlier error is
    overwritten by a later one only *)
Definition iterator_Next : M iterator unit := λ itr,
  match st_Recv (ri_dic itr) with
  | (Ok m, st) => (Ok tt, {| ri_dic := st; ri_cur := Some m; ri_err := ri_err itr |})
  | (Err err, st) => (Ok tt, {| ri_dic := st; ri_cur := None; ri_err := Some err |})
  | (Panic msg, st) => (Panic msg, {| ri_dic := st; ri_cur := ri_cur itr; ri_err := ri_err itr |})
  | (Diverge, st) => (Diverge, {| ri_dic := st; ri_cur := ri_cur itr; ri_err := ri_err itr |})
  end.

Definition iterator_assertIsValid : M iterator unit :=
  v ← iterator_Valid;
  if (v : bool) then mret tt else panic "iterator is invalid".

Definition iterator_Key : M iterator slice :=
  _ ← iterator_assertIsValid;
  itr ← get;
  match ri_cur itr with None => panic "nil pointer dereference" | Some cur => mret (Iterator_Key cur) end.

Definition iterator_Value : M iterator slice :=
  _ ← iterator_assertIsValid;
  itr ← get;
  match ri_cur itr with None => panic "nil pointer dereference" | Some cur => mret (Iterator_Value cur) end.

Definition iterator_Error (itr : iterator) : option error := ri_err itr.

Definition iterator_Close : M iterator unit :=
  on_field ri_dic (λ st itr, {| ri_dic := st; ri_cur := ri_cur itr; ri_err := ri_err itr |}) st_CloseSend.

(** [itr.Next()] primes the iterator. *)
Definition makeIterator (dic : St) : result iterator :=
  let '(r, itr) := iterator_Next {| ri_dic := dic; ri_cur := None; ri_err := None |} in
  result_map (λ _, itr) r.

(** [type reverseIterator struct]: the same fields and methods, except that
    [Close] does nothing. *)
Record reverseIterator := { rr_itr : iterator }.

Definition on_rr {A} : M iterator A → M reverseIterator A := on_field rr_itr (λ i _, {| rr_itr := i |}).
Definition reverseIterator_Valid : M reverseIterator bool := on_rr iterator_Valid.
Definition reverseIterator_Domain (itr : reverseIterator) : slice * slice := iterator_Domain (rr_itr itr).
Definition reverseIterator_Next : M reverseIterator unit := on_rr iterator_Next.
Definition reverseIterator_Key : M reverseIterator slice := on_rr iterator_Key.
Definition reverseIterator_Value : M reverseIterator slice := on_rr iterator_Value.
Definition reverseIterator_Error (itr : reverseIterator) : option error := iterator_Error (rr_itr itr).
Definition reverseIterator_Close : M reverseIterator unit := mret tt.

Definition makeReverseIterator (dric : St) : result reverseIterator :=
  result_map (λ i, {| rr_itr := i |}) (makeIterator dric).

(** The values of the interface [db.Iterator] the client returns. *)
Inductive remote_iter := Fwd (itr : iterator) | Rev (itr : reverseIterator).

Definition on_remote {A} (f : M iterator A) (g : M reverseIterator A) : M remote_iter A := λ it,
  match it with
  | Fwd i => let '(r, i) := f i in (r, Fwd i)
  | Rev i => let '(r, i) := g i in (r, Rev i)
  end.

#[global] Instance remote_iter_ops : IteratorOps remote_iter := {|
  it_Domain it := match it with Fwd i => iterator_Domain i | Rev i => reverseIterator_Domain i end;
  it_Valid := on_remote iterator_Valid reverseIterator_Valid;
  it_Next := on_remote iterator_Next reverseIterator_Next;
  it_Key := on_remote iterator_Key reverseIterator_Key;
  it_Value := on_remote iterator_Value reverseIterator_Value;
  it_Error it := match it with Fwd i => iterator_Error i | Rev i => reverseIterator_Error i end;
  it_Close := on_remote iterator_Close reverseIterator_Close;
|}.

Definition RemoteDB_Iterator (start end_ : slice) : M RemoteDB remote_iter :=
  dic ← wrap_err "RemoteDB.Iterator error" (on_dc (dc_Iterator (EntityRange start end_)));
  lift_result (result_map Fwd (makeIterator dic)).

Definition RemoteDB_ReverseIterator (start end_ : slice) : M RemoteDB remote_iter :=
  dic ← wrap_err "RemoteDB.Iterator error" (on_dc (dc_ReverseIterator (EntityRange start end_)));
  lift_result (result_map Rev (makeReverseIterator dic)).

Definition RemoteDB_ops : DBOps RemoteDB remote_iter batch := {|
  db_Get := RemoteDB_Get;
  db_Has := RemoteDB_Has;
  db_Set := RemoteDB_Set;
  db_SetSync := RemoteDB_SetSync;
  db_Delete := RemoteDB_Delete;
  db_DeleteSync := RemoteDB_DeleteSync;
  db_Iterator := RemoteDB_Iterator;
  db_ReverseIterator := RemoteDB_ReverseIterator;
  db_Close := RemoteDB_Close;
  db_NewBatch := RemoteDB_NewBatch;
  db_Print := RemoteDB_Print;
  db_Stats := RemoteDB_Stats;
|}.

End remotedb.
Arguments RemoteDB : clear implicits.
Arguments iterator : clear implicits.
Arguments reverseIterator : clear implicits.
Arguments remote_iter : clear implicits.
