(* ===== verification/Grpc.v ===== *)
(** * remotedb/proto/defs.pb.go: the generated stubs and the service table

    The client stubs encode a request, name the method and decode the reply;
    the service table maps the name to a handler, which decodes the request and
    calls the method of [server].  [ClientConn] is the part of
    google.golang.org/grpc the stubs use and [GrpcLaws] its documented
    behaviour for a connection to a server with this table. *)

From S2P Require Import Prelude Go Util Spec Types Registry Proto GrpcServer RemoteDB.
Import protodb.

(** ** The connection of the client *)

Class ClientConn (F W St : Type) := {
  cc_Invoke : string → F → M W F;
  cc_NewStream : string → M W St;
  cs_SendMsg : F → M (St * W) unit;      (* starts the handler at the server *)
  cs_RecvMsg : M St F;
  cs_CloseSend : M St unit;
}.

(** A message to be encoded, one to be decoded. *)
Definition encode {F T S} {max_msg : nat} `{!Message T, !Codec F T max_msg} (x : T) : M S F :=
  lift_result (Marshal (max_msg := max_msg) x).
Definition decode {F T S} {max_msg : nat} `{!Message T, !Codec F T max_msg} (f : F) : M S T :=
  lift_result (Unmarshal (max_msg := max_msg) f).
Arguments encode {_ _ _} _ {_ _} _.
Arguments decode {_ _ _} _ {_ _} _.

Section stubs.
Context {F W St : Type} (max_msg : nat) `{!ClientConn F W St}.
Context `{!Codec F Entity max_msg, !Codec F Batch max_msg, !Codec F Nothing max_msg,
  !Codec F Iterator max_msg, !Codec F Stats max_msg, !Codec F Init max_msg}.

(** [out := new(Out); err := c.cc.Invoke(ctx, method, in, out); ...] *)
Definition invoke {In Out} `{!Message In, !Codec F In max_msg, !Message Out, !Codec F Out max_msg}
    (method : string) (inp : In) : M W Out :=
  f ← encode max_msg inp; out ← cc_Invoke method f; decode max_msg out.

Definition dBClient_Init : Init → M W Entity := invoke "/protodb.DB/init".
Definition dBClient_Get : Entity → M W Entity := invoke "/protodb.DB/get".
Definition dBClient_Has : Entity → M W Entity := invoke "/protodb.DB/has".
Definition dBClient_Set : Entity → M W Nothing := invoke "/protodb.DB/set".
Definition dBClient_SetSync : Entity → M W Nothing := invoke "/protodb.DB/setSync".
Definition dBClient_Delete : Entity → M W Nothing := invoke "/protodb.DB/delete".
Definition dBClient_DeleteSync : Entity → M W Nothing := invoke "/protodb.DB/deleteSync".
Definition dBClient_Stats : Nothing → M W Stats := invoke "/protodb.DB/stats".
Definition dBClient_BatchWrite : Batch → M W Nothing := invoke "/protodb.DB/batchWrite".
Definition dBClient_BatchWriteSync : Batch → M W Nothing := invoke "/protodb.DB/batchWriteSync".

(** [stream, err := c.cc.NewStream(...); x.ClientStream.SendMsg(in); x.ClientStream.CloseSend()] *)
Definition open_stream (method : string) (inp : Entity) : M W St := λ w,
  match cc_NewStream method w with
  | (Ok stream, w) =>
      let '(r, (stream, w)) :=
        (f ← encode max_msg inp; _ ← cs_SendMsg f; on_fst cs_CloseSend) (stream, w) in
      (result_map (λ _, stream) r, w)
  | (Err err, w) => (Err err, w)
  | (Panic msg, w) => (Panic msg, w)
  | (Diverge, w) => (Diverge, w)
  end.

Definition dBClient_Iterator : Entity → M W St := open_stream "/protodb.DB/iterator".
Definition dBClient_ReverseIterator : Entity → M W St := open_stream "/protodb.DB/reverseIterator".

(** [m := new(Iterator); x.ClientStream.RecvMsg(m)] *)
Definition dBIteratorClient_Recv : M St Iterator := f ← cs_RecvMsg; decode max_msg f.

Definition dBClient : DBClient W St := {|
  dc_Init := dBClient_Init;
  dc_Get := dBClient_Get;
  dc_Has := dBClient_Has;
  dc_Set := dBClient_Set;
  dc_SetSync := dBClient_SetSync;
  dc_Delete := dBClient_Delete;
  dc_DeleteSync := dBClient_DeleteSync;
  dc_Iterator := dBClient_Iterator;
  dc_ReverseIterator := dBClient_ReverseIterator;
  dc_Stats := dBClient_Stats;
  dc_BatchWrite := dBClient_BatchWrite;
  dc_BatchWriteSync := dBClient_BatchWriteSync;
  st_Recv := dBIteratorClient_Recv;
  st_CloseSend := cs_CloseSend;
|}.

End stubs.

(** ** The handlers of the server *)

(** A call names "/service/method". *)
Definition ServiceName : string := "protodb.DB".
Fixpoint dispatch {H} (table : list (string * H)) (method : string) : option H :=
  match table with
  | [] => None
  | (name, h) :: table =>
      if String.eqb method ("/" +:+ ServiceName +:+ "/" +:+ name)%string then Some h
      else dispatch table method
  end.

(** [type DBServer interface]; [X] is the state of the server, and a stream of
    the server collects the frames that are sent. *)
Record DBServer (F X : Type) := {
  srv_Init : Init → M X Entity;
  srv_Get : Entity → M X Entity;
  srv_Has : Entity → M X Entity;
  srv_Set : Entity → M X Nothing;
  srv_SetSync : Entity → M X Nothing;
  srv_Delete : Entity → M X Nothing;
  srv_DeleteSync : Entity → M X Nothing;
  srv_Iterator : Entity → (Iterator → M (list F) unit) → M (X * list F) unit;
  srv_ReverseIterator : Entity → (Iterator → M (list F) unit) → M (X * list F) unit;
  srv_Stats : Nothing → M X Stats;
  srv_BatchWrite : Batch → M X Nothing;
  srv_BatchWriteSync : Batch → M X Nothing;
}.
Arguments srv_Init {_ _} _ _ _.
Arguments srv_Get {_ _} _ _ _.
Arguments srv_Has {_ _} _ _ _.
Arguments srv_Set {_ _} _ _ _.
Arguments srv_SetSync {_ _} _ _ _.
Arguments srv_Delete {_ _} _ _ _.
Arguments srv_DeleteSync {_ _} _ _ _.
Arguments srv_Iterator {_ _} _ _ _ _.
Arguments srv_ReverseIterator {_ _} _ _ _ _.
Arguments srv_Stats {_ _} _ _ _.
Arguments srv_BatchWrite {_ _} _ _ _.
Arguments srv_BatchWriteSync {_ _} _ _ _.

(** [*server] of grpcdb is a [DBServer]. *)
Definition server_DBServer {F S I B : Type} `{!IteratorOps I, !BatchOps S B} (ops : DBOps S I B)
    (range : gmap string (dbCreator (DB := S)) → list string)
    (backends : gmap string (dbCreator (DB := S))) (now : Z) (fuel : nat) : DBServer F (server S) := {|
  srv_Init := server_Init range backends now;
  srv_Get := server_Get ops;
  srv_Has := server_Has ops;
  srv_Set := server_Set ops;
  srv_SetSync := server_SetSync ops;
  srv_Delete := server_Delete ops;
  srv_DeleteSync := server_DeleteSync ops;
  srv_Iterator := server_Iterator ops fuel;
  srv_ReverseIterator := server_ReverseIterator ops fuel;
  srv_Stats := server_Stats ops now;
  srv_BatchWrite := server_BatchWrite ops;
  srv_BatchWriteSync := server_BatchWriteSync ops;
|}.

Section handlers.
Context {F X : Type} (max_msg : nat) (srv : DBServer F X).
Context `{!Codec F Entity max_msg, !Codec F Batch max_msg, !Codec F Nothing max_msg,
  !Codec F Iterator max_msg, !Codec F Stats max_msg, !Codec F Init max_msg}.

(** [interceptor grpc.UnaryServerInterceptor], nil unless the options of
    [NewServer] set one: it gets the full method name, the request and the
    handler *)
Definition interceptor : Type := ∀ In Out : Type, string → In → (In → M X Out) → M X Out.

(** [func _DB_X_Handler(srv, ctx, dec, interceptor)]; the reply is then encoded *)
Definition unary_handler {In Out} `{!Message In, !Codec F In max_msg, !Message Out, !Codec F Out max_msg}
    (FullMethod : string) (method : In → M X Out) (ic : option interceptor)
    (req : F) : M X F :=
  inp ← decode max_msg req;
  out ← match ic with
        | None => method inp
        | Some ic => ic In Out FullMethod inp method
        end;
  encode max_msg out.

Definition _DB_Init_Handler := unary_handler "/protodb.DB/Init" (srv_Init srv).
Definition _DB_Get_Handler := unary_handler "/protodb.DB/Get" (srv_Get srv).
Definition _DB_Has_Handler := unary_handler "/protodb.DB/Has" (srv_Has srv).
Definition _DB_Set_Handler := unary_handler "/protodb.DB/Set" (srv_Set srv).
Definition _DB_SetSync_Handler := unary_handler "/protodb.DB/SetSync" (srv_SetSync srv).
Definition _DB_Delete_Handler := unary_handler "/protodb.DB/Delete" (srv_Delete srv).
Definition _DB_DeleteSync_Handler := unary_handler "/protodb.DB/DeleteSync" (srv_DeleteSync srv).
Definition _DB_Stats_Handler := unary_handler "/protodb.DB/Stats" (srv_Stats srv).
Definition _DB_BatchWrite_Handler := unary_handler "/protodb.DB/BatchWrite" (srv_BatchWrite srv).
Definition _DB_BatchWriteSync_Handler :=
  unary_handler "/protodb.DB/BatchWriteSync" (srv_BatchWriteSync srv).

(** [m := new(Entity); stream.RecvMsg(m); return srv.Iterator(m, &dBIteratorServer{stream})] *)
Definition dBIteratorServer_Send (m : Iterator) : M (list F) unit :=
  f ← encode max_msg m; modify (λ sent, sent ++ [f]).

Definition _DB_Iterator_Handler (req : F) : M (X * list F) unit :=
  m ← decode max_msg req; srv_Iterator srv m dBIteratorServer_Send.
Definition _DB_ReverseIterator_Handler (req : F) : M (X * list F) unit :=
  m ← decode max_msg req; srv_ReverseIterator srv m dBIteratorServer_Send.

(** [var _DB_serviceDesc = grpc.ServiceDesc{...}]; the stream "getStream", which
    the client does not use, is in [GetStream] *)
Definition Methods : list (string * (option interceptor → F → M X F)) :=
  [("init", _DB_Init_Handler);
   ("get", _DB_Get_Handler);
   ("has", _DB_Has_Handler);
   ("set", _DB_Set_Handler);
   ("setSync", _DB_SetSync_Handler);
   ("delete", _DB_Delete_Handler);
   ("deleteSync", _DB_DeleteSync_Handler);
   ("stats", _DB_Stats_Handler);
   ("batchWrite", _DB_BatchWrite_Handler);
   ("batchWriteSync", _DB_BatchWriteSync_Handler)].
Definition Streams : list (string * (F → M (X * list F) unit)) :=
  [("iterator", _DB_Iterator_Handler);
   ("reverseIterator", _DB_ReverseIterator_Handler)].

(** The service without interceptor. *)
Definition unary_methods (method : string) : option (F → M X F) := (λ h, h None) <$> dispatch Methods method.
Definition stream_methods (method : string) : option (F → M (X * list F) unit) := dispatch Streams method.

End handlers.

(** ** The behaviour of the connection *)

Definition io_EOF : error := errLib "io" "EOF".

(** [unary] and [streaming] are the handlers of the server by method name.  A
    handler that panics takes the server down: nothing is said of the
    connection after that. *)
Class GrpcLaws (F W St S : Type) `{!ClientConn F W St}
    (unary : string → option (F → M (server S) F))
    (streaming : string → option (F → M (server S * list F) unit)) := {
  conn_ok : W → Prop;
  conn_srv : W → server S;
  (** the error a client gets for an error of a handler *)
  status_of : error → error;
  glaw_Invoke w method h f out srv' : conn_ok w → unary method = Some h →
    h f (conn_srv w) = (Ok out, srv') →
    reply (cc_Invoke method f) w (Ok out) (λ w', conn_ok w' ∧ conn_srv w' = srv');
  glaw_Invoke_Err w method h f e srv' : conn_ok w → unary method = Some h →
    h f (conn_srv w) = (Err e, srv') →
    reply (cc_Invoke method f) w (Err (status_of e)) (λ w', conn_ok w' ∧ conn_srv w' = srv');
  (** a stream before the request, and one that has still to deliver some
      frames and then an error *)
  stream_new : St → string → Prop;
  stream_rep : St → list F → error → Prop;
  glaw_NewStream w method h : conn_ok w → streaming method = Some h →
    ∃ st, reply (cc_NewStream method) w (Ok st) (λ w', conn_ok w' ∧ conn_srv w' = conn_srv w) ∧
      stream_new st method;
  glaw_SendMsg st w method h f srv' sent : conn_ok w → stream_new st method →
    streaming method = Some h → h f (conn_srv w, []) = (Ok tt, (srv', sent)) →
    reply (cs_SendMsg f) (st, w) (Ok tt)
      (λ sw, conn_ok sw.2 ∧ conn_srv sw.2 = srv' ∧ stream_rep sw.1 sent io_EOF);
  glaw_SendMsg_Err st w method h f srv' sent e : conn_ok w → stream_new st method →
    streaming method = Some h → h f (conn_srv w, []) = (Err e, (srv', sent)) →
    reply (cs_SendMsg f) (st, w) (Ok tt)
      (λ sw, conn_ok sw.2 ∧ conn_srv sw.2 = srv' ∧ stream_rep sw.1 sent (status_of e));
  glaw_CloseSend st l e : stream_rep st l e →
    reply cs_CloseSend st (Ok tt) (λ st', stream_rep st' l e);
  glaw_RecvMsg st f l e : stream_rep st (f :: l) e →
    reply cs_RecvMsg st (Ok f) (λ st', stream_rep st' l e);
  glaw_RecvMsg_end st e : stream_rep st [] e →
    reply cs_RecvMsg st (Err e) (λ st', stream_rep st' [] e);
}.

(** ** A concrete connection

    The server of a process that lives until a handler panics; a stream that
    has received its request keeps the frames of the reply. *)

Module RefGrpc.
Section ref.
Context {F S : Type} (unary : string → option (F → M (server S) F))
  (streaming : string → option (F → M (server S * list F) unit)).

Definition world : Type := option (server S).
Inductive stream := SNew (method : string) | SOpen (frames : list F) (end_ : error).

Definition Unavailable : error := errLib "grpc" "Unavailable".
Definition Unimplemented : error := errLib "grpc" "Unimplemented".
Definition Unknown (e : error) : error := errorfW "rpc error: code = Unknown desc" e.

Definition Invoke (method : string) (f : F) : M world F := λ w,
  match w, unary method with
  | None, _ => (Err Unavailable, w)
  | _, None => (Err Unimplemented, w)
  | Some srv, Some h =>
      match h f srv with
      | (Ok out, srv) => (Ok out, Some srv)
      | (Err e, srv) => (Err (Unknown e), Some srv)
      | (Panic _, _) => (Err Unavailable, None)
      | (Diverge, srv) => (Diverge, Some srv)
      end
  end.

Definition SendMsg (f : F) : M (stream * world) unit := λ '(st, w),
  match st, w with
  | SNew method, Some srv =>
      match streaming method with
      | None => (Ok tt, (SOpen [] Unimplemented, w))
      | Some h =>
          match h f (srv, []) with
          | (Ok _, (srv, sent)) => (Ok tt, (SOpen sent io_EOF, Some srv))
          | (Err e, (srv, sent)) => (Ok tt, (SOpen sent (Unknown e), Some srv))
          | (Panic _, (_, sent)) => (Ok tt, (SOpen sent Unavailable, None))
          | (Diverge, (srv, _)) => (Diverge, (st, Some srv))
          end
      end
  | _, _ => (Err Unavailable, (st, w))
  end.

Definition RecvMsg : M stream F := λ st,
  match st with
  | SNew _ => (Err Unavailable, st)
  | SOpen [] e => (Err e, st)
  | SOpen (f :: l) e => (Ok f, SOpen l e)
  end.

Definition conn : ClientConn F world stream := {|
  cc_Invoke := Invoke;
  cc_NewStream method w := match w with None => (Err Unavailable, w) | _ => (Ok (SNew method), w) end;
  cs_SendMsg := SendMsg;
  cs_RecvMsg := RecvMsg;
  cs_CloseSend := mret tt;
|}.
Local Existing Instance conn.

Definition laws : GrpcLaws F world stream S unary streaming.
Proof.
  refine {| conn_ok w := is_Some w; conn_srv w := default {| s_db := None |} w;
            status_of := Unknown; stream_new st method := st = SNew method;
            stream_rep st l e := st = SOpen l e |}.
  - intros w method h f out srv' [srv ->] Hh H. eexists. split; [|by split; [eexists|]].
    simpl in *. unfold Invoke. by rewrite Hh, H.
  - intros w method h f e srv' [srv ->] Hh H. eexists. split; [|by split; [eexists|]].
    simpl in *. unfold Invoke. by rewrite Hh, H.
  - intros w method h [srv ->] _. eexists. split; [|done]. by eexists.
  - intros st w method h f srv' sent [srv ->] -> Hh H. eexists. simpl in *. rewrite Hh, H.
    split; [done|]. split_and!; [by eexists|done..].
  - intros st w method h f srv' sent e [srv ->] -> Hh H. eexists. simpl in *. rewrite Hh, H.
    split; [done|]. split_and!; [by eexists|done..].
  - intros st l e ->. by eexists.
  - intros st f l e ->. by eexists.
  - intros st e ->. by eexists.
Defined.

End ref.
Arguments world : clear implicits.
Arguments stream : clear implicits.
End RefGrpc.
