(* ===== verification/RemoteDBCorrect.v ===== *)
(** * The client, the stubs and the server together

    A [RemoteDB] whose connection leads to a server over a database that meets
    the contract: what each method delivers, for arguments of any shape. *)

From S2P Require Import Prelude Go Util Spec Types Client Registry Proto.
From S2P Require Import GrpcServer GrpcServerCorrect RemoteDB Grpc.
Import protodb.

(** ** A call over a connection *)

Section call.
Context {F W St S : Type} (max_msg : nat) (unary : string → option (F → M (server S) F))
  (streaming : string → option (F → M (server S * list F) unit)).
Context `{!ClientConn F W St, !GrpcLaws F W St S unary streaming}.
Implicit Types (w : W).

Definition sendable {T} `{!Message T} (x : T) : Prop := valid_msg x ∧ msg_size x ≤ max_msg.

(** A stub whose name leads to the handler of [f] behaves as [f] on what the
    encoding leaves of the request. *)
Lemma invoke_reply {In Out} `{!Message In, !Codec F In max_msg, !Message Out, !Codec F Out max_msg}
    method FullMethod (f : In → M (server S) Out) inp w (r : result Out) (Q : server S → Prop) :
  unary method = Some (unary_handler max_msg FullMethod f None) →
  conn_ok w → sendable inp → reply (f (norm inp)) (conn_srv w) r Q →
  match r with
  | Ok out => sendable out →
      reply (invoke max_msg method inp) w (Ok (norm out)) (λ w', conn_ok w' ∧ Q (conn_srv w'))
  | Err e => reply (invoke (Out := Out) max_msg method inp) w (Err (status_of e))
               (λ w', conn_ok w' ∧ Q (conn_srv w'))
  | _ => True
  end.
Proof.
  intros Htab Hw [Hv Hsz] (srv' & Hf & HQ). destruct (codec_roundtrip inp Hv Hsz) as (fr & Henc & Hdec).
  destruct r as [out|e|msg|]; [|..]; try done.
  - intros [Hv' Hsz']. destruct (codec_roundtrip out Hv' Hsz') as (fr' & Henc' & Hdec').
    eapply (reply_bind _ _ _ fr _ (eq w)); [exists w; unfold encode, lift_result; by rewrite Henc|].
    intros ? <-. eapply reply_bind.
    + eapply (glaw_Invoke w method _ fr fr' srv'); [done|done|].
      unfold unary_handler, encode, decode, lift_result, mbind, M_bind. by rewrite Hdec, Hf, Henc'.
    + intros w' [? <-]. exists w'. unfold decode, lift_result. by rewrite Hdec'.
  - eapply (reply_bind _ _ _ fr _ (eq w)); [exists w; unfold encode, lift_result; by rewrite Henc|].
    intros ? <-. apply reply_bind_Err. eapply reply_mono.
    + eapply (glaw_Invoke_Err w method _ fr e srv'); [done|done|].
      unfold unary_handler, decode, lift_result, mbind, M_bind. by rewrite Hdec, Hf.
    + intros w' [? <-]. done.
Qed.

End call.

(** ** Stubs and handlers *)

Section link.
Context {F W St S I B : Type} (max_msg : nat) `{!IteratorOps I, !BatchOps S B} (ops : DBOps S I B).
Context `{!Codec F Entity max_msg, !Codec F Batch max_msg, !Codec F Nothing max_msg,
  !Codec F Iterator max_msg, !Codec F Stats max_msg, !Codec F Init max_msg}.
Context (range : gmap string (dbCreator (DB := S)) → list string)
  (backends : gmap string (dbCreator (DB := S))) (now : Z) (fuel : nat).

(** The methods of the server by name. *)
Abbreviation srv := (server_DBServer ops range backends now fuel).
Definition unary_table : string → option (F → M (server S) F) := unary_methods max_msg srv.
Definition stream_table : string → option (F → M (server S * list F) unit) := stream_methods max_msg srv.

Context `{!ClientConn F W St, !GrpcLaws F W St S unary_table stream_table}.
#[local] Hint Extern 0 (DBClient _ _) => exact (dBClient max_msg) : typeclass_instances.
Implicit Types (w : W).
Abbreviation sendable := (sendable max_msg).

Lemma invoke_spec {In Out} `{!Message In, !Codec F In max_msg, !Message Out, !Codec F Out max_msg}
    method FullMethod (f : In → M (server S) Out) inp w (r : result Out) (Q : server S → Prop) :
  unary_table method = Some (unary_handler max_msg FullMethod f None) →
  conn_ok w → sendable inp → reply (f (norm inp)) (conn_srv w) r Q →
  match r with
  | Ok out => sendable out →
      reply (invoke max_msg method inp) w (Ok (norm out)) (λ w', conn_ok w' ∧ Q (conn_srv w'))
  | Err e => reply (invoke (Out := Out) max_msg method inp) w (Err (status_of e))
               (λ w', conn_ok w' ∧ Q (conn_srv w'))
  | _ => True
  end.
Proof. exact (invoke_reply max_msg unary_table stream_table method FullMethod f inp w r Q). Qed.

(** The names of the stubs lead to the handlers of the same methods. *)
Lemma tables :
  unary_table "/protodb.DB/init" = Some (_DB_Init_Handler max_msg srv None) ∧
  unary_table "/protodb.DB/get" = Some (_DB_Get_Handler max_msg srv None) ∧
  unary_table "/protodb.DB/has" = Some (_DB_Has_Handler max_msg srv None) ∧
  unary_table "/protodb.DB/set" = Some (_DB_Set_Handler max_msg srv None) ∧
  unary_table "/protodb.DB/setSync" = Some (_DB_SetSync_Handler max_msg srv None) ∧
  unary_table "/protodb.DB/delete" = Some (_DB_Delete_Handler max_msg srv None) ∧
  unary_table "/protodb.DB/deleteSync" = Some (_DB_DeleteSync_Handler max_msg srv None) ∧
  unary_table "/protodb.DB/stats" = Some (_DB_Stats_Handler max_msg srv None) ∧
  unary_table "/protodb.DB/batchWrite" = Some (_DB_BatchWrite_Handler max_msg srv None) ∧
  unary_table "/protodb.DB/batchWriteSync" = Some (_DB_BatchWriteSync_Handler max_msg srv None) ∧
  stream_table "/protodb.DB/iterator" = Some (_DB_Iterator_Handler max_msg srv) ∧
  stream_table "/protodb.DB/reverseIterator" = Some (_DB_ReverseIterator_Handler max_msg srv).
Proof. by split_and!. Qed.

(** ** Point operations *)

Context `{!DBContract ops, !IteratorBounds I}.
Implicit Types (rd : RemoteDB W) (m : store).

(** The connection leads to a server whose database holds [m]. *)
Definition remote_ok rd m : Prop := conn_ok (rd_dc rd) ∧ srv_ok ops (conn_srv (rd_dc rd)) m.

Lemma on_dc_reply {A} (f : M W A) rd (r : result A) m' :
  reply f (rd_dc rd) r (λ w', conn_ok w' ∧ srv_ok ops (conn_srv w') m') →
  reply (on_dc f) rd r (λ rd', remote_ok rd' m').
Proof. exact (on_field_reply rd_dc (λ w _, {| rd_dc := w |}) f rd r _ (λ _ _, eq_refl)). Qed.

Lemma wrap_err_Ok {X A} msg (f : M X A) x a (Q : X → Prop) :
  reply f x (Ok a) Q → reply (wrap_err msg f) x (Ok a) Q.
Proof. intros (x' & H & HQ). exists x'. unfold wrap_err. by rewrite H. Qed.

Lemma wrap_err_Err {X A} msg (f : M X A) x e (Q : X → Prop) :
  reply f x (Err e) Q → reply (wrap_err msg f) x (Err (errorfW msg e)) Q.
Proof. intros (x' & H & HQ). exists x'. unfold wrap_err. by rewrite H. Qed.

(** How a method of the client wraps what a stub delivers. *)
Definition wrapped {A} (msg : string) (r : result A) : result A :=
  match r with Err e => Err (errorfW msg (status_of e)) | r => r end.

Lemma spec_Get_norm m key : spec_Get m (norm_bytes key) = spec_Get m key.
Proof. unfold spec_Get. by rewrite norm_bytes_len, norm_bytes_data. Qed.
Lemma spec_Has_norm m key : spec_Has m (norm_bytes key) = spec_Has m key.
Proof. unfold spec_Has. by rewrite norm_bytes_len, norm_bytes_data. Qed.
Lemma spec_Set_norm m key value : spec_Set m (norm_bytes key) value = spec_Set m key value.
Proof. unfold spec_Set. by rewrite norm_bytes_len, norm_bytes_data. Qed.
Lemma spec_Delete_norm m key : spec_Delete m (norm_bytes key) = spec_Delete m key.
Proof. unfold spec_Delete. by rewrite norm_bytes_len, norm_bytes_data. Qed.

Lemma sendable_KV key value : len key + len value + 100 ≤ max_msg → sendable (EntityKV key value).
Proof.
  intros. split; [done|].
  change (len key + len value + 0 + 0 + 0 + 0 + 100 ≤ max_msg). lia.
Qed.

Lemma sendable_key key : len key + 100 ≤ max_msg → len key + len None + 100 ≤ max_msg.
Proof. change (len None) with 0. lia. Qed.

Lemma RemoteDB_Get_spec rd m key :
  remote_ok rd m → fits_read db_fits (data key) → len key + 100 ≤ max_msg →
  (∀ v, spec_Get m key = Ok (Some v) → length v + 100 ≤ max_msg) →
  reply (RemoteDB_Get key) rd
    (wrapped "remoteDB.Get error" (result_map norm_bytes (spec_Get m key))) (λ rd', remote_ok rd' m).
Proof.
  intros [Hw Hs] Hf Hk Hv. unfold RemoteDB_Get. rewrite <-norm_bytes_data in Hf.
  pose proof (invoke_spec "/protodb.DB/get" _ (server_Get ops) (EntityKV key None) (rd_dc rd) _ _
    (proj1 (proj2 tables)) Hw (sendable_KV key None (sendable_key key Hk)) (server_Get_spec ops _ m (norm (EntityKV key None)) Hs Hf)) as H.
  simpl in H. rewrite spec_Get_norm in H. unfold spec_Get in *. destruct (len key =? 0) eqn:E; simpl in *.
  - by apply reply_bind_Err, wrap_err_Err, on_dc_reply.
  - eapply reply_bind.
    + apply wrap_err_Ok, on_dc_reply, H. apply (sendable_KV None).
      destruct (m !! data key) as [v|]; simpl; [|unfold len in *; simpl; lia].
      specialize (Hv v eq_refl). unfold len. simpl. lia.
    + intros rd' Hrd'. by apply reply_ret.
Qed.

Lemma RemoteDB_Has_spec rd m key :
  remote_ok rd m → fits_read db_fits (data key) → len key + 100 ≤ max_msg →
  reply (RemoteDB_Has key) rd
    (match spec_Has m key with Err e => Err (status_of e) | r => r end) (λ rd', remote_ok rd' m).
Proof.
  intros [Hw Hs] Hf Hk. unfold RemoteDB_Has. rewrite <-norm_bytes_data in Hf.
  pose proof (invoke_spec "/protodb.DB/has" _ (server_Has ops) (EntityKV key None) (rd_dc rd) _ _
    (proj1 (proj2 (proj2 tables))) Hw (sendable_KV key None (sendable_key key Hk)) (server_Has_spec ops _ m (norm (EntityKV key None)) Hs Hf)) as H.
  simpl in H. rewrite spec_Has_norm in H. unfold spec_Has in *. destruct (len key =? 0) eqn:E; simpl in *.
  - by apply reply_bind_Err, on_dc_reply.
  - eapply reply_bind.
    + apply on_dc_reply, H. split; [done|]. unfold len in *. simpl in *. lia.
    + intros rd' Hrd'. by apply reply_ret.
Qed.

Lemma sendable_nothing : sendable nothing.
Proof. split; [done|]. simpl. unfold len. simpl. lia. Qed.

(** A method whose reply is [Nothing]. *)
Lemma nothing_call (msg method FullMethod : string) {In} `{!Message In, !Codec F In max_msg}
    (f : In → M (server S) Nothing) inp rd (r : result unit) m' :
  unary_table method = Some (unary_handler max_msg FullMethod f None) →
  conn_ok (rd_dc rd) → sendable inp → (∃ e, r = Err e) ∨ r = Ok tt →
  reply (f (norm inp)) (conn_srv (rd_dc rd)) (result_map (λ _, nothing) r) (λ s, srv_ok ops s m') →
  reply (_ ← wrap_err msg (on_dc (invoke (Out := Nothing) max_msg method inp)); mret tt) rd
    (wrapped msg r) (λ rd', remote_ok rd' m').
Proof.
  intros Htab Hw Hin Hr Hf. pose proof (invoke_spec method _ f inp _ _ _ Htab Hw Hin Hf) as H.
  destruct Hr as [[e ->] | ->]; simpl in *.
  - by apply reply_bind_Err, wrap_err_Err, on_dc_reply.
  - eapply reply_bind; [by apply wrap_err_Ok, on_dc_reply, H, sendable_nothing|]. intros. by apply reply_ret.
Qed.

Lemma RemoteDB_Set_spec rd m (sync : bool) key value :
  remote_ok rd m → len key + len value + 100 ≤ max_msg →
  set_fits db_fits (norm_bytes key) (norm_bytes value) →
  reply ((if sync then RemoteDB_SetSync else RemoteDB_Set) key value) rd
    (wrapped (if sync then "remoteDB.SetSync" else "remoteDB.Set") (spec_Set m key (norm_bytes value)).1)
    (λ rd', remote_ok rd' (spec_Set m key (norm_bytes value)).2).
Proof.
  intros [Hw Hs] Hsz Hfit. pose proof (sendable_KV _ _ Hsz) as Hin.
  pose proof (server_Set_spec ops _ m sync (norm (EntityKV key value)) Hs Hfit) as H.
  cbn [norm Entity_message Entity_Key Entity_Value EntityKV] in H. rewrite !spec_Set_norm in H.
  destruct tables as (_ & _ & _ & T1 & T2 & _).
  destruct sync; [eapply (nothing_call _ _ _ _ _ _ _ _ T2)|eapply (nothing_call _ _ _ _ _ _ _ _ T1)];
    eauto using spec_Set_cases.
Qed.

Lemma RemoteDB_Delete_spec rd m (sync : bool) key :
  remote_ok rd m → len key + 100 ≤ max_msg → delete_fits db_fits key →
  reply ((if sync then RemoteDB_DeleteSync else RemoteDB_Delete) key) rd
    (wrapped (if sync then "remoteDB.DeleteSync" else "remoteDB.Delete") (spec_Delete m key).1)
    (λ rd', remote_ok rd' (spec_Delete m key).2).
Proof.
  intros [Hw Hs] Hsz Hfit. pose proof (sendable_KV _ _ (sendable_key _ Hsz)) as Hin.
  pose proof (server_Delete_spec ops _ m sync (norm (EntityKV key None)) Hs) as H.
  cbn [norm Entity_message Entity_Key Entity_Value EntityKV] in H.
  unfold delete_fits in *. rewrite norm_bytes_data, spec_Delete_norm in H. specialize (H Hfit).
  destruct tables as (_ & _ & _ & _ & _ & T1 & T2 & _).
  destruct sync; [eapply (nothing_call _ _ _ _ _ _ _ _ T2)|eapply (nothing_call _ _ _ _ _ _ _ _ T1)];
    eauto using spec_Delete_cases.
Qed.

(** ** Streams *)

Lemma open_stream_spec method h inp w fr srv' sent :
  conn_ok w → stream_table method = Some h → Marshal (max_msg := max_msg) inp = Ok fr →
  h fr (conn_srv w, []) = (Ok tt, (srv', sent)) →
  ∃ st, reply (open_stream max_msg method inp) w (Ok st) (λ w', conn_ok w' ∧ conn_srv w' = srv') ∧
    stream_rep st sent io_EOF.
Proof.
  intros Hw Htab Henc Hh.
  destruct (glaw_NewStream w method h Hw Htab) as (st & (w1 & H1 & Hw1 & Hsrv1) & Hst).
  rewrite <-Hsrv1 in Hh.
  destruct (glaw_SendMsg st w1 method h fr srv' sent Hw1 Hst Htab Hh) as ([st2 w2] & H2 & Hw2 & Hsrv2 & Hrep).
  destruct (glaw_CloseSend st2 sent io_EOF Hrep) as (st3 & H3 & Hrep3). simpl in *.
  exists st3. split; [|done]. exists w2. split; [|done].
  unfold open_stream, encode, lift_result. rewrite H1. unfold mbind, M_bind. rewrite Henc, H2.
  unfold on_fst. by rewrite H3.
Qed.

(** The stream a handler fills. *)
Definition next_frame (sent : list F) (msg : Iterator) : list F :=
  match Marshal (max_msg := max_msg) msg with Ok f => sent ++ [f] | _ => sent end.

Lemma Send_next msg sent :
  sendable msg → dBIteratorServer_Send max_msg msg sent = (Ok tt, next_frame sent msg).
Proof.
  intros [Hv Hs]. destruct (codec_roundtrip msg Hv Hs) as (f & H & _).
  unfold dBIteratorServer_Send, next_frame, encode, lift_result, mbind, M_bind. by rewrite H.
Qed.

Definition frame_of (f : F) (msg : Iterator) : Prop := Unmarshal (max_msg := max_msg) f = Ok (norm msg).

Lemma next_frames msgs sent :
  Forall sendable msgs →
  ∃ frames, foldl next_frame sent msgs = sent ++ frames ∧ Forall2 frame_of frames msgs.
Proof.
  intros Hmsgs. revert sent. induction Hmsgs as [|msg msgs [Hv Hs] _ IH]; intros sent.
  { exists []. by rewrite app_nil_r. }
  destruct (codec_roundtrip msg Hv Hs) as (f & H1 & H2). simpl. unfold next_frame at 2. rewrite H1.
  destruct (IH (sent ++ [f])) as (frames & -> & Hf). exists (f :: frames).
  rewrite <-(assoc_L (++)). split; [done|]. by constructor.
Qed.

(** A stream that has still to deliver the messages of [l]. *)
Definition streams (sd : St) (st en : slice) (l : list entry) : Prop :=
  ∃ frames msgs, stream_rep sd frames io_EOF ∧ Forall2 (is_iter_msg st en) l msgs ∧ Forall2 frame_of frames msgs.

Lemma sendable_iter st en kv msg :
  len st + len en + length kv.1 + length kv.2 + 100 ≤ max_msg → is_iter_msg st en kv msg → sendable msg.
Proof.
  intros Hsz [-> | ->]; (split; [done|]);
    [change (len st + len en + 0 + 40 + length kv.1 + length kv.2 + 0 + 60 ≤ max_msg)
    |change (len en + len st + 0 + 40 + length kv.1 + length kv.2 + 0 + 60 ≤ max_msg)]; lia.
Qed.

Lemma sendable_range st en : len st + len en + 100 ≤ max_msg → sendable (EntityRange st en).
Proof.
  intros. split; [done|]. change (0 + 0 + len st + len en + 0 + 0 + 100 ≤ max_msg). lia.
Qed.

Lemma open_iterator_spec rd m (rev : bool) start end_ :
  let st := norm_bytes start in let en := norm_bytes end_ in
  remote_ok rd m → len start + len end_ + 100 ≤ max_msg → size m < fuel →
  (∀ k v, (k, v) ∈ scan m st en rev → len start + len end_ + length k + length v + 100 ≤ max_msg) →
  ∃ sd, reply ((if rev then dBClient_ReverseIterator max_msg else dBClient_Iterator max_msg)
                 (EntityRange start end_)) (rd_dc rd) (Ok sd)
      (λ w', conn_ok w' ∧ srv_ok ops (conn_srv w') m) ∧
    streams sd st en (scan m st en rev).
Proof.
  intros st en [Hw Hs] Hsz Hfuel Hsend.
  destruct (sendable_range start end_ Hsz) as [Hv Hs'].
  destruct (codec_roundtrip (EntityRange start end_) Hv Hs') as (fr & Henc & Hdec).
  assert (∀ kv msg, kv ∈ scan m st en rev → is_iter_msg st en kv msg → sendable msg) as Hmsgs.
  { intros [k v] msg Hkv. apply sendable_iter. unfold st, en. rewrite !norm_bytes_len. by apply Hsend. }
  destruct (server_iterator_spec ops (dBIteratorServer_Send max_msg) next_frame rev (conn_srv (rd_dc rd)) m
    (norm (EntityRange start end_)) [] fuel Hs) as ([srv' sent] & Hrun & Hsrv & msgs & Hshape & Hsent).
  { simpl. unfold bad_bounds. by destruct start as [[|]|], end_ as [[|]|]. }
  { done. }
  { intros kv msg t Hkv Hmsg. by eapply Send_next, Hmsgs. }
  simpl in Hsrv, Hsent, Hshape. fold st en in Hshape.
  destruct (next_frames msgs []) as (frames & Hfold & Hframes).
  { apply Forall_lookup_2. intros i msg Hi. destruct (Forall2_lookup_r _ _ _ _ _ Hshape Hi) as (kv & Hkv & ?).
    eapply Hmsgs; [by eapply list_elem_of_lookup_2|done]. }
  rewrite Hfold in Hsent. simpl in Hsent. subst sent.
  destruct (open_stream_spec (if rev then "/protodb.DB/reverseIterator" else "/protodb.DB/iterator")
    (if rev then _DB_ReverseIterator_Handler max_msg srv else _DB_Iterator_Handler max_msg srv)
    (EntityRange start end_) (rd_dc rd) fr srv' frames Hw) as (sd & Hopen & Hrep).
  - destruct rev; apply tables.
  - done.
  - destruct rev; unfold _DB_ReverseIterator_Handler, _DB_Iterator_Handler, decode, lift_result,
      mbind, M_bind; by rewrite Hdec.
  - exists sd. split; [|by exists frames, msgs]. eapply reply_mono.
    + by destruct rev.
    + by intros w' [? ->].
Qed.

(** ** The iterators of the client *)

Definition ri_rep (itr : iterator St) (st en : slice) (l : list entry) : Prop :=
  match l with
  | [] => ri_cur itr = None ∧ ri_err itr = Some io_EOF
  | kv :: l => (∃ msg, is_iter_msg st en kv msg ∧ ri_cur itr = Some (norm msg)) ∧ ri_err itr = None ∧
               streams (ri_dic itr) st en l
  end.

Lemma iterator_Next_spec itr st en l :
  streams (ri_dic itr) st en l → ri_err itr = None →
  reply iterator_Next itr (Ok tt) (λ itr', ri_rep itr' st en l).
Proof.
  intros (frames & msgs & Hrep & Hl & Hf) Herr. destruct l as [|kv l].
  - apply Forall2_nil_inv_l in Hl as ->. apply Forall2_nil_inv_r in Hf as ->. destruct (glaw_RecvMsg_end _ _ Hrep) as (sd & H & _).
    exists {| ri_dic := sd; ri_cur := None; ri_err := Some io_EOF |}. split; [|done].
    unfold iterator_Next, st_Recv. simpl. unfold dBIteratorClient_Recv, mbind, M_bind. by rewrite H.
  - apply Forall2_cons_inv_l in Hl as (msg & msgs' & Hmsg & Hl & ->). apply Forall2_cons_inv_r in Hf as (f & frames' & Hf & Hfs & ->).
    destruct (glaw_RecvMsg _ _ _ _ Hrep) as (sd & H & Hrep').
    exists {| ri_dic := sd; ri_cur := Some (norm msg); ri_err := ri_err itr |}.
    split; [|split_and!; [by exists msg|done|by exists frames', msgs']].
    unfold iterator_Next, st_Recv. simpl. unfold dBIteratorClient_Recv, mbind, M_bind, decode, lift_result.
    rewrite H. unfold frame_of in Hf. by rewrite Hf.
Qed.

Lemma makeIterator_spec sd st en l :
  streams sd st en l → ∃ itr, makeIterator sd = Ok itr ∧ ri_rep itr st en l.
Proof.
  intros Hs. destruct (iterator_Next_spec {| ri_dic := sd; ri_cur := None; ri_err := None |} st en l)
    as (itr & H & Hrep); [done|done|]. exists itr. unfold makeIterator. by rewrite H.
Qed.

Lemma iterator_valid itr st en l : ri_rep itr st en l → iterator_isValid itr = bool_decide (l ≠ []).
Proof.
  unfold iterator_isValid. destruct l as [|kv l].
  - intros [-> _]. by rewrite bool_decide_eq_false_2 by auto.
  - intros ((msg & [-> | ->] & ->) & -> & _); by rewrite bool_decide_eq_true_2.
Qed.

(** The iterator behind a value of the interface. *)
Definition core (it : remote_iter St) : iterator St :=
  match it with Fwd i => i | Rev r => rr_itr r end.
Definition remote_rep (it : remote_iter St) (st en : slice) (l : list entry) : Prop :=
  ri_rep (core it) st en l.

Lemma on_remote_reply {A} (f : M (iterator St) A) (it : remote_iter St) r Q :
  reply f (core it) r Q → reply (on_remote f (on_rr f)) it r (λ it', Q (core it')).
Proof.
  intros (i & H & HQ). destruct it as [i0|[i0]]; simpl in H.
  - exists (Fwd i). simpl. by rewrite H.
  - exists (Rev {| rr_itr := i |}). simpl. unfold on_rr, on_field. simpl. by rewrite H.
Qed.

Lemma remote_Valid it st en l :
  remote_rep it st en l →
  reply it_Valid it (Ok (bool_decide (l ≠ []))) (λ it', remote_rep it' st en l).
Proof.
  intros H. apply (on_remote_reply iterator_Valid it _ (λ i, ri_rep i st en l)).
  exists (core it). split; [|done]. rewrite <-(iterator_valid _ _ _ _ H). done.
Qed.

Lemma remote_Next it st en kv l :
  remote_rep it st en (kv :: l) → reply it_Next it (Ok tt) (λ it', remote_rep it' st en l).
Proof.
  intros (_ & Herr & Hs). apply (on_remote_reply iterator_Next it _ (λ i, ri_rep i st en l)).
  by apply iterator_Next_spec.
Qed.

Lemma remote_Key it st en k v l :
  remote_rep it st en ((k, v) :: l) →
  reply it_Key it (Ok (norm_bytes (Some k))) (λ it', remote_rep it' st en ((k, v) :: l)).
Proof.
  intros H. apply (on_remote_reply iterator_Key it _ (λ i, ri_rep i st en ((k, v) :: l))).
  exists (core it). split; [|done]. pose proof (iterator_valid _ _ _ _ H) as Hv.
  destruct H as ((msg & Hmsg & Hcur) & Herr & _). unfold iterator_Key, iterator_assertIsValid, iterator_Valid, mbind, M_bind.
  simpl. rewrite Hv. simpl. rewrite Hcur. by destruct Hmsg as [-> | ->].
Qed.

Lemma remote_Value it st en k v l :
  remote_rep it st en ((k, v) :: l) →
  reply it_Value it (Ok (norm_bytes (Some v))) (λ it', remote_rep it' st en ((k, v) :: l)).
Proof.
  intros H. apply (on_remote_reply iterator_Value it _ (λ i, ri_rep i st en ((k, v) :: l))).
  exists (core it). split; [|done]. pose proof (iterator_valid _ _ _ _ H) as Hv.
  destruct H as ((msg & Hmsg & Hcur) & Herr & _). unfold iterator_Value, iterator_assertIsValid, iterator_Valid, mbind, M_bind.
  simpl. rewrite Hv. simpl. rewrite Hcur. by destruct Hmsg as [-> | ->].
Qed.

(** What a client reads of an entry. *)
Definition wire_entry (kv : entry) : slice * slice := (norm_bytes (Some kv.1), norm_bytes (Some kv.2)).

Lemma remote_collect it st en l n :
  remote_rep it st en l → length l < n →
  reply (collect n) it (Ok (wire_entry <$> l)) (λ it', remote_rep it' st en []).
Proof.
  revert it l. induction n as [|n IH]; intros it l Hrep Hlen; [lia|]. simpl.
  eapply reply_bind; [eapply remote_Valid, Hrep|]. intros it1 H1. destruct l as [|[k v] l].
  { rewrite bool_decide_eq_false_2 by auto. by apply reply_ret. }
  rewrite bool_decide_eq_true_2 by done.
  eapply reply_bind; [eapply remote_Key, H1|]. intros it2 H2.
  eapply reply_bind; [eapply remote_Value, H2|]. intros it3 H3.
  eapply reply_bind; [eapply remote_Next, H3|]. intros it4 H4.
  eapply reply_bind; [apply IH; [exact H4|simpl in Hlen; lia]|]. intros it5 H5.
  by apply reply_ret.
Qed.

Lemma RemoteDB_iterator_spec rd m (rev : bool) start end_ :
  let st := norm_bytes start in let en := norm_bytes end_ in
  remote_ok rd m → len start + len end_ + 100 ≤ max_msg → size m < fuel →
  (∀ k v, (k, v) ∈ scan m st en rev → len start + len end_ + length k + length v + 100 ≤ max_msg) →
  ∃ it, reply ((if rev then RemoteDB_ReverseIterator else RemoteDB_Iterator) start end_) rd (Ok it)
      (λ rd', remote_ok rd' m) ∧ remote_rep it st en (scan m st en rev).
Proof.
  intros st en Hrd Hsz Hfuel Hsend.
  destruct (open_iterator_spec rd m rev start end_ Hrd Hsz Hfuel Hsend) as (sd & Hopen & Hs).
  destruct (makeIterator_spec sd st en _ Hs) as (itr & Hmk & Hrep).
  exists (if rev then Rev {| rr_itr := itr |} else Fwd itr). split; [|by destruct rev].
  destruct rev; (eapply reply_bind; [by apply wrap_err_Ok, on_dc_reply|]); intros rd' Hrd'; exists rd';
    unfold makeReverseIterator, lift_result; by rewrite Hmk.
Qed.

(** ** Batches *)

Definition remote_batch (b : batch) (l : list batch_call) : Prop := rb_ops b = Some (op_of <$> l).

Lemma remote_batch_call b l (c : batch_call) rd :
  remote_batch b l →
  ∃ b', run_batch_call c (b, rd) =
      (Ok tt, (b', rd)) ∧ remote_batch b' (l ++ [c]).
Proof.
  intros Hb. exists {| rb_ops := Some (op_of <$> l ++ [c]) |}. split; [|done]. rewrite fmap_app.
  destruct b as [o]. unfold remote_batch in Hb. simpl in Hb. subst o. by destruct c.
Qed.

(** What the encoding leaves of a call. *)
Definition wire_batch_call (c : batch_call) : batch_call :=
  match c with
  | BSet key value => BSet (norm_bytes key) (norm_bytes value)
  | BDelete key => BDelete (norm_bytes key)
  end.

Lemma norm_batch_msg l :
  norm (batch_msg (op_of <$> l)) =
    {| Batch_Ops := Some ∘ op_of <$> (wire_batch_call <$> l); Batch_unrecognized := None |}.
Proof.
  unfold batch_msg. cbn -[fmap Operation_message]. f_equal. rewrite <-!list_fmap_compose.
  apply list_fmap_ext. by intros _ [] _.
Qed.

(** A bound on the encoding of the calls. *)
Definition batch_size (l : list batch_call) : nat :=
  sum_list_with (λ c, match c with BSet key value => len key + len value | BDelete key => len key end + 160) l.

Lemma sendable_batch l : batch_size l ≤ max_msg → sendable (batch_msg (op_of <$> l)).
Proof.
  intros Hsz. split.
  - split; [|done]. apply Forall_fmap, Forall_fmap, list.Forall_forall. by intros [] _.
  - etrans; [|exact Hsz]. unfold batch_msg. cbn -[fmap Operation_message].
    change (len None) with 0. rewrite Nat.add_0_r. clear Hsz. unfold batch_size.
    induction l as [|c l IH]; [done|]. rewrite !fmap_cons. cbn [sum_list_with].
    apply Nat.add_le_mono; [|exact IH].
    destruct c as [key value|key].
    + change (len key + len value + 0 + 0 + 0 + 0 + 100 + 0 + 40 + 20 ≤ len key + len value + 160). lia.
    + change (len key + 0 + 0 + 0 + 0 + 0 + 100 + 0 + 40 + 20 ≤ len key + 160). lia.
Qed.

Lemma RemoteDB_batch_Write_spec b l rd m (sync : bool) :
  remote_batch b l → remote_ok rd m → batch_size l ≤ max_msg →
  Forall (batch_call_fits db_fits) (wire_batch_call <$> l) → within db_fits (length l) →
  let r := spec_batch_ops (wire_batch_call <$> l) [] in
  (∃ ws, r = Ok ws) ∨ (∃ e, r = Err e) →
  reply (if sync then b_WriteSync else b_Write) (b, rd)
    (wrapped (if sync then "RemoteDB.BatchWriteSync" else "remoteDB.BatchWrite") (result_map (λ _, tt) r))
    (λ bs, match r with
           | Ok ws => rb_ops bs.1 = None ∧ remote_ok bs.2 (apply_writes ws m)
           | _ => bs.1 = b ∧ remote_ok bs.2 m
           end).
Proof.
  intros Hb [Hw Hs] Hsz Hfit Hlim r Hr. destruct b as [o]. unfold remote_batch in Hb. simpl in Hb. subst o.
  pose proof (server_batchWrite_spec ops _ m _ sync None Hs Hfit ltac:(by rewrite length_fmap)) as Hsrv. rewrite <-norm_batch_msg in Hsrv.
  fold r in Hsrv. pose proof (sendable_batch l Hsz) as Hin.
  destruct tables as (_ & _ & _ & _ & _ & _ & _ & _ & T1 & T2 & _).
  assert (reply (wrap_err (if sync then "RemoteDB.BatchWriteSync" else "remoteDB.BatchWrite")
      (on_dc ((if sync then dBClient_BatchWriteSync max_msg else dBClient_BatchWrite max_msg)
                (batch_msg (op_of <$> l))))) rd
      (wrapped (if sync then "RemoteDB.BatchWriteSync" else "remoteDB.BatchWrite")
        (result_map (λ _, nothing) r))
      (λ rd', remote_ok rd' match r with Ok ws => apply_writes ws m | _ => m end))
    as (rd' & Hcall & Hrd').
  { destruct Hr as [[ws Hr]|[e Hr]]; rewrite Hr in *; simpl in *.
    - apply wrap_err_Ok, on_dc_reply. destruct sync;
        [apply (invoke_spec _ _ _ _ _ _ _ T2 Hw Hin Hsrv), sendable_nothing
        |apply (invoke_spec _ _ _ _ _ _ _ T1 Hw Hin Hsrv), sendable_nothing].
    - apply wrap_err_Err, on_dc_reply. destruct sync;
        [apply (invoke_spec _ _ _ _ _ _ _ T2 Hw Hin Hsrv)
        |apply (invoke_spec _ _ _ _ _ _ _ T1 Hw Hin Hsrv)]. }
  exists (match r with Ok _ => {| rb_ops := None |} | _ => {| rb_ops := Some (op_of <$> l) |} end, rd').
  destruct Hr as [[ws Hr]|[e Hr]]; rewrite Hr in *; simpl in *; (split; [|done]);
    destruct sync; simpl; unfold batch_Write, batch_WriteSync, mbind, M_bind, on_snd; simpl;
    simpl in Hcall; by rewrite Hcall.
Qed.

End link.
