(* ===== verification/Stubs.v ===== *)
(** * remotedb/proto/defs.pb.go: getters, [Reset] and [UnimplementedDBServer]

    The methods of the messages that call no library, and the server whose
    methods are not implemented yet: over a connection, every stub of a client
    gets the status Unimplemented with the name of the method. *)

From S2P Require Import Prelude Go Util Spec Types Registry Proto GrpcServer RemoteDB Grpc RemoteDBCorrect.
Import protodb.

(** ** Messages *)

(** [var Operation_Type_name], [var Operation_Type_value] *)
Definition Operation_Type_name : gmap Z string := {[ 0%Z := "SET"%string; 1%Z := "DELETE"%string ]}.
Definition Operation_Type_value : gmap string Z := {[ "SET"%string := 0%Z; "DELETE"%string := 1%Z ]}.

(** A getter of a nil message returns the zero value. *)
Definition getter {T A : Type} (field : T → A) (zero : A) (m : option T) : A :=
  match m with Some m => field m | None => zero end.

Definition Batch_GetOps := getter Batch_Ops [].
Definition Operation_GetEntity := getter Operation_Entity None.
Definition Operation_GetType := getter Operation_Type Operation_SET.
Definition Entity_GetId := getter Entity_Id 0%Z.
Definition Entity_GetKey := getter Entity_Key None.
Definition Entity_GetValue := getter Entity_Value None.
Definition Entity_GetExists := getter Entity_Exists false.
Definition Entity_GetStart := getter Entity_Start None.
Definition Entity_GetEnd := getter Entity_End None.
Definition Entity_GetErr := getter Entity_Err ""%string.
Definition Entity_GetCreatedAt := getter Entity_CreatedAt 0%Z.
Definition Domain_GetStart := getter Domain_Start None.
Definition Domain_GetEnd := getter Domain_End None.
Definition Iterator_GetDomain := getter Iterator_Domain None.
Definition Iterator_GetValid := getter Iterator_Valid false.
Definition Iterator_GetKey := getter Iterator_Key None.
Definition Iterator_GetValue := getter Iterator_Value None.
Definition Stats_GetData := getter Stats_Data ∅.
Definition Stats_GetTimeAt := getter Stats_TimeAt 0%Z.
Definition Init_GetType := getter Init_Type ""%string.
Definition Init_GetName := getter Init_Name ""%string.
Definition Init_GetDir := getter Init_Dir ""%string.

(** [func (m *T) Reset() { *m = T{} }] *)
Definition reset {T : Type} (zero : T) : M (option T) unit := λ m,
  match m with Some _ => (Ok tt, Some zero) | None => (Panic nil_deref, None) end.
Definition Batch_Reset := reset {| Batch_Ops := []; Batch_unrecognized := None |}.
Definition Operation_Reset :=
  reset {| Operation_Entity := None; Operation_Type := 0; Operation_unrecognized := None |}.
Definition Entity_Reset := reset Entity0.
Definition Nothing_Reset := reset {| Nothing_unrecognized := None |}.
Definition Domain_Reset := reset {| Domain_Start := None; Domain_End := None; Domain_unrecognized := None |}.
Definition Iterator_Reset := reset {| Iterator_Domain := None; Iterator_Valid := false;
  Iterator_Key := None; Iterator_Value := None; Iterator_unrecognized := None |}.
Definition Stats_Reset := reset {| Stats_Data := ∅; Stats_TimeAt := 0; Stats_unrecognized := None |}.
Definition Init_Reset :=
  reset {| Init_Type := ""; Init_Name := ""; Init_Dir := ""; Init_unrecognized := None |}.

(** ** [UnimplementedDBServer] *)

(** [status.Errorf(codes.Unimplemented, "method %s not implemented")] *)
Definition unimplemented (method : string) : error :=
  errLib "codes.Unimplemented" ("method " +:+ method +:+ " not implemented")%string.

Definition UnimplementedDBServer {F X : Type} : DBServer F X := {|
  srv_Init _ := throw (unimplemented "Init");
  srv_Get _ := throw (unimplemented "Get");
  srv_Has _ := throw (unimplemented "Has");
  srv_Set _ := throw (unimplemented "Set");
  srv_SetSync _ := throw (unimplemented "SetSync");
  srv_Delete _ := throw (unimplemented "Delete");
  srv_DeleteSync _ := throw (unimplemented "DeleteSync");
  srv_Iterator _ _ := throw (unimplemented "Iterator");
  srv_ReverseIterator _ _ := throw (unimplemented "ReverseIterator");
  srv_Stats _ := throw (unimplemented "Stats");
  srv_BatchWrite _ := throw (unimplemented "BatchWrite");
  srv_BatchWriteSync _ := throw (unimplemented "BatchWriteSync");
|}.

Section unimplemented.
Context {F W St S : Type} (max_msg : nat).
Context `{!Codec F Entity max_msg, !Codec F Batch max_msg, !Codec F Nothing max_msg,
  !Codec F Iterator max_msg, !Codec F Stats max_msg, !Codec F Init max_msg}.
Abbreviation unary := (unary_methods max_msg (UnimplementedDBServer (F := F) (X := server S))).
Abbreviation streaming := (stream_methods max_msg (UnimplementedDBServer (F := F) (X := server S))).
Context `{!ClientConn F W St, !GrpcLaws F W St S unary streaming}.

(** The stub fails with the status and leaves the server alone. *)
Definition refused {A : Type} (m : M W A) (method : string) (w : W) : Prop :=
  reply m w (Err (status_of (unimplemented method))) (λ w', conn_ok w' ∧ conn_srv w' = conn_srv w).

Lemma invoke_refused {In Out} `{!Message In, !Codec F In max_msg, !Message Out, !Codec F Out max_msg}
    name FullMethod method (inp : In) w :
  unary name = Some (unary_handler max_msg FullMethod (λ _ : In, throw (A := Out) (unimplemented method)) None) →
  conn_ok w → sendable max_msg inp → refused (invoke (Out := Out) max_msg name inp) method w.
Proof.
  intros Htab Hw Hs. apply (invoke_reply max_msg unary streaming name _ _ inp w (Err (unimplemented method))
    (λ s, s = conn_srv w) Htab Hw Hs). by eexists.
Qed.

(** A stream opens, and delivers nothing but the status. *)
Definition refused_stream (m : M W St) (method : string) (w : W) : Prop :=
  ∃ st, reply m w (Ok st) (λ w', conn_ok w' ∧ conn_srv w' = conn_srv w) ∧
    (dBIteratorClient_Recv max_msg st).1 = Err (status_of (unimplemented method)).

Lemma stream_refused name method inp h w :
  streaming name = Some h → (∀ fr s, Unmarshal (max_msg := max_msg) fr = Ok (norm inp) →
    h fr (s, []) = (Err (unimplemented method), (s, []))) →
  conn_ok w → sendable max_msg inp → refused_stream (open_stream max_msg name inp) method w.
Proof.
  intros Htab Hh Hw [Hv Hsz]. destruct (codec_roundtrip inp Hv Hsz) as (fr & Henc & Hdec).
  destruct (glaw_NewStream w name h Hw Htab) as (st & (w1 & H1 & Hw1 & Hsrv1) & Hst).
  destruct (glaw_SendMsg_Err st w1 name h fr (conn_srv w1) [] _ Hw1 Hst Htab (Hh _ _ Hdec))
    as ([st2 w2] & H2 & Hw2 & Hsrv2 & Hrep). simpl in *.
  destruct (glaw_CloseSend st2 [] _ Hrep) as (st3 & H3 & Hrep3). exists st3. split.
  - exists w2. split; [|by rewrite Hsrv2, Hsrv1]. unfold open_stream, encode, lift_result. rewrite H1.
    unfold mbind, M_bind. rewrite Henc, H2. unfold on_fst. by rewrite H3.
  - destruct (glaw_RecvMsg_end st3 _ Hrep3) as (st4 & H4 & _).
    unfold dBIteratorClient_Recv, mbind, M_bind. by rewrite H4.
Qed.

(** Every stub of a client of a server that only embeds [UnimplementedDBServer]
    fails with the status Unimplemented and the name of the method; the streams
    of iterators open and end with it.  No call changes the server. *)
Theorem unimplemented_calls w (i : Init) (e : Entity) (n : Nothing) (b : Batch) :
  conn_ok w → sendable max_msg i → sendable max_msg e → sendable max_msg n → sendable max_msg b →
  refused (dBClient_Init max_msg i) "Init" w ∧ refused (dBClient_Get max_msg e) "Get" w ∧
  refused (dBClient_Has max_msg e) "Has" w ∧ refused (dBClient_Set max_msg e) "Set" w ∧
  refused (dBClient_SetSync max_msg e) "SetSync" w ∧ refused (dBClient_Delete max_msg e) "Delete" w ∧
  refused (dBClient_DeleteSync max_msg e) "DeleteSync" w ∧ refused (dBClient_Stats max_msg n) "Stats" w ∧
  refused (dBClient_BatchWrite max_msg b) "BatchWrite" w ∧
  refused (dBClient_BatchWriteSync max_msg b) "BatchWriteSync" w ∧
  refused_stream (dBClient_Iterator max_msg e) "Iterator" w ∧
  refused_stream (dBClient_ReverseIterator max_msg e) "ReverseIterator" w.
Proof.
  intros Hw Hi He Hn Hb.
  assert (∀ method (fr : F) (s : server S), Unmarshal (max_msg := max_msg) fr = Ok (norm e) →
    (m ← decode max_msg fr; (λ _ : Entity, throw (unimplemented method)) m) (s, [] : list F) =
      (Err (unimplemented method) : result unit, (s, []))) as Hstream.
  { intros method fr s Hdec. unfold decode, lift_result, mbind, M_bind. by rewrite Hdec. }
  do 10 (split; [by eapply (invoke_refused _ "")|]). split.
  - exact (stream_refused "/protodb.DB/iterator" _ e _ w eq_refl (Hstream _) Hw He).
  - exact (stream_refused "/protodb.DB/reverseIterator" _ e _ w eq_refl (Hstream _) Hw He).
Qed.

End unimplemented.

(** ** Instance: the reference connection *)

Section instance.
Abbreviation unary := (unary_methods (F := RefCodec.frame) 1000 UnimplementedDBServer).
Abbreviation streaming := (stream_methods (F := RefCodec.frame) 1000 UnimplementedDBServer).
#[local] Instance unimplemented_conn : ClientConn RefCodec.frame (RefGrpc.world unit) (RefGrpc.stream RefCodec.frame) :=
  RefGrpc.conn unary streaming.

Example unimplemented_Get :
  dBClient_Get 1000 (EntityKV (Some [x61]) None) (Some {| s_db := None |}) =
  (Err (RefGrpc.Unknown (unimplemented "Get")), Some {| s_db := None |}).
Proof. vm_compute. reflexivity. Qed.
End instance.
