(* ===== verification/RemoteDBThms.v ===== *)
(** * The remote database: theorems and instances *)

From S2P Require Import Prelude Go Util Spec Types Client Registry BTree MemDB MemDBCorrect Proto.
From S2P Require Import GrpcServer GrpcServerCorrect RemoteDB Grpc RemoteDBCorrect.
Import protodb.

(** ** Programs the encoding does not touch

    Keys and values are not empty, and short enough for a message ([K] and
    [V] bound keys and values); a bound of a scan is nil or not empty. *)

Section plain.
Context (K V max_msg : nat).

Definition plain_key (key : slice) : Prop := data key ≠ [] ∧ len key ≤ K.
Definition plain_value (value : slice) : Prop := data value ≠ [] ∧ len value ≤ V.
Definition plain_bound (b : slice) : Prop := norm_bytes b = b ∧ len b ≤ K.
Definition plain_batch_call (c : batch_call) : Prop :=
  match c with
  | BSet key value => plain_key key ∧ plain_value value
  | BDelete key => plain_key key
  end.
Definition plain_call (c : call) : Prop :=
  match c with
  | CGet key | CHas key | CDelete key | CDeleteSync key => plain_key key
  | CSet key value | CSetSync key value => plain_key key ∧ plain_value value
  | CScan start end_ _ => plain_bound start ∧ plain_bound end_
  | CBatch l _ => Forall plain_batch_call l ∧ batch_size l ≤ max_msg
  end.

(** The entries of a store such programs fill. *)
Definition plain_entry (k v : bytes) : Prop := k ≠ [] ∧ v ≠ [] ∧ length k ≤ K ∧ length v ≤ V.

Lemma plain_norm value : data value ≠ [] → norm_bytes value = value.
Proof. by destruct value as [[|]|]. Qed.

Lemma plain_len key : data key ≠ [] → (len key =? 0) = false.
Proof. intros H. apply Nat.eqb_neq. unfold len. by destruct (data key). Qed.

Lemma plain_write key value : plain_key key → plain_value value →
  ∃ k v, key = Some k ∧ value = Some v ∧ plain_entry k v.
Proof.
  intros [Hk Hlk] [Hv Hlv]. destruct key as [k|], value as [v|]; try done.
  exists k, v. by repeat split.
Qed.

Definition write_of (c : batch_call) : write :=
  match c with BSet key value => WSet (data key) (data value) | BDelete key => WDelete (data key) end.

Lemma plain_batch_call_spec c ws :
  plain_batch_call c → spec_batch_call (Some ws) c = (Ok tt, Some (ws ++ [write_of c])).
Proof.
  destruct c as [key value|key]; simpl; unfold spec_batch_Set, spec_batch_Delete.
  - intros [Hk Hv]. rewrite plain_len by apply Hk. destruct (plain_write key value Hk Hv) as (k & v & -> & -> & _).
    done.
  - intros [Hk _]. by rewrite plain_len.
Qed.

Lemma plain_batch_ops l ws :
  Forall plain_batch_call l → spec_batch_ops l ws = Ok (ws ++ (write_of <$> l)).
Proof.
  intros Hl. revert ws. induction Hl as [|c l Hc _ IH]; intros ws; simpl; [by rewrite app_nil_r|].
  rewrite plain_batch_call_spec by done. by rewrite IH, <-(assoc_L (++)).
Qed.

Lemma plain_batch_calls l ws :
  Forall plain_batch_call l →
  spec_batch_calls l (Some ws) = ((λ _, Ok tt) <$> l, Some (ws ++ (write_of <$> l))).
Proof.
  intros Hl. revert ws. induction Hl as [|c l Hc _ IH]; intros ws; simpl; [by rewrite app_nil_r|].
  rewrite plain_batch_call_spec by done. by rewrite IH, <-(assoc_L (++)).
Qed.

Lemma plain_wire l : Forall plain_batch_call l → wire_batch_call <$> l = l.
Proof.
  induction 1 as [|c l Hc _ IH]; [done|]. rewrite fmap_cons, IH. f_equal.
  destruct c as [key value|key]; simpl in *.
  - destruct Hc as [[Hk _] [Hv _]]. by rewrite !plain_norm.
  - destruct Hc as [Hk _]. by rewrite plain_norm.
Qed.

Lemma plain_apply ws l m :
  Forall plain_batch_call l → ws = write_of <$> l → map_Forall plain_entry m →
  map_Forall plain_entry (apply_writes ws m).
Proof.
  intros Hl ->. revert m. unfold apply_writes. induction Hl as [|c l Hc _ IH]; intros m Hm; simpl; [done|].
  apply IH. destruct c as [key value|key]; simpl in *.
  - destruct Hc as [Hk Hv]. destruct (plain_write key value Hk Hv) as (k & v & -> & -> & ?).
    by apply map_Forall_insert_2.
  - by apply map_Forall_delete.
Qed.

Lemma plain_call_store c m :
  plain_call c → map_Forall plain_entry m → map_Forall plain_entry (spec_call c m).2.
Proof.
  intros Hc Hm.
  assert (∀ key value, plain_key key → plain_value value →
    map_Forall plain_entry (spec_Set m key value).2) as Hset.
  { intros key value Hk Hv. destruct (plain_write key value Hk Hv) as (k & v & -> & -> & ?).
    unfold spec_Set. rewrite plain_len by apply Hk. by apply map_Forall_insert_2. }
  assert (∀ key, map_Forall plain_entry (spec_Delete m key).2) as Hdel.
  { intros key. unfold spec_Delete. case_match; simpl; [done|]. by apply map_Forall_delete. }
  destruct c as [key|key|key v|key v|key|key|st en rev|l sync]; simpl in *; try done.
  - destruct Hc as [Hk Hv]. specialize (Hset key v Hk Hv). by destruct (spec_Set m key v).
  - destruct Hc as [Hk Hv]. specialize (Hset key v Hk Hv). by destruct (spec_Set m key v).
  - specialize (Hdel key). by destruct (spec_Delete m key).
  - specialize (Hdel key). by destruct (spec_Delete m key).
  - destruct Hc as [Hl _]. rewrite plain_batch_calls by done. simpl. by eapply plain_apply.
Qed.

End plain.

(** ** Theorems *)

Section theorems.
Context {F W St S I B : Type} (max_msg : nat) `{!IteratorOps I, !BatchOps S B} (ops : DBOps S I B).
Context `{!Codec F Entity max_msg, !Codec F Batch max_msg, !Codec F Nothing max_msg,
  !Codec F Iterator max_msg, !Codec F Stats max_msg, !Codec F Init max_msg}.
Context (range : gmap string (dbCreator (DB := S)) → list string)
  (backends : gmap string (dbCreator (DB := S))) (now : Z) (fuel : nat).
Context `{!ClientConn F W St}.
Context `{!GrpcLaws F W St S (unary_table max_msg ops range backends now fuel)
  (stream_table max_msg ops range backends now fuel)}.
Context `{!DBContract ops, !IteratorBounds I} (K V : nat).
#[local] Hint Extern 0 (DBClient _ _) => exact (dBClient max_msg) : typeclass_instances.
Implicit Types (rd : RemoteDB W) (m : store).

Abbreviation ok := (remote_ok max_msg ops range backends now fuel).

Lemma plain_entries_wire m st en rev :
  map_Forall (plain_entry K V) m → wire_entry <$> scan m st en rev = as_slices (scan m st en rev).
Proof.
  intros Hm. apply list_fmap_ext. intros i [k v] Hi%list_elem_of_lookup_2.
  apply elem_of_scan in Hi as [Hi _]. destruct (Hm k v Hi) as (Hk & Hv & _).
  unfold wire_entry. simpl. by rewrite !norm_bytes_Some.
Qed.

Lemma remote_scan rd m rev start end_ :
  ok rd m → map_Forall (plain_entry K V) m → plain_bound K start → plain_bound K end_ →
  3 * K + V + 100 ≤ max_msg → size m < fuel →
  reply (run_scan RemoteDB_ops fuel start end_ rev) rd (spec_scan m start end_ rev) (λ rd', ok rd' m).
Proof.
  intros Hrd Hm [Hns Hls] [Hne Hle] HK Hfuel. unfold run_scan, spec_scan.
  assert (bad_bounds start end_ = false) as ->.
  { unfold bad_bounds. by destruct start as [[|]|], end_ as [[|]|]. }
  destruct (RemoteDB_iterator_spec max_msg ops range backends now fuel rd m rev start end_ Hrd)
    as (it & Hit & Hrep); [lia|done| |].
  { intros k v [Hkv _]%elem_of_scan. destruct (Hm k v Hkv) as (_ & _ & ? & ?). lia. }
  rewrite Hns, Hne in Hrep. eapply reply_bind.
  { destruct rev; exact Hit. }
  intros rd' Hrd'. exists rd'. split; [|done].
  pose proof (length_scan m start end_ rev).
  destruct (remote_collect max_msg ops range backends now fuel it start end_ _ fuel Hrep) as (it' & Hc & _); [lia|].
  unfold deferred. rewrite Hc. simpl. by rewrite plain_entries_wire.
Qed.

Lemma remote_batch_calls l done_ b rd :
  remote_batch b done_ →
  ∃ b', run_batch_calls l (b, rd) = ((λ _, Ok tt) <$> l, (b', rd)) ∧ remote_batch b' (done_ ++ l).
Proof.
  revert done_ b. induction l as [|c l IH]; intros done_ b Hb; cbn [run_batch_calls].
  { exists b. by rewrite app_nil_r. }
  destruct (remote_batch_call max_msg b done_ c rd Hb) as (b1 & H & Hb1). rewrite H.
  destruct (IH _ _ Hb1) as (b2 & -> & Hb2). exists b2. by rewrite <-(assoc_L (++)) in Hb2.
Qed.

Lemma remote_run_batch rd m l sync :
  ok rd m → Forall (plain_batch_call K V) l → batch_size l ≤ max_msg →
  Forall (batch_call_fits db_fits) l → within db_fits (length l) →
  ∃ rd', run_batch RemoteDB_ops l sync rd = ((spec_call (CBatch l sync) m).1, rd') ∧
    ok rd' (spec_call (CBatch l sync) m).2.
Proof.
  intros Hrd Hl Hsz Hfit Hlim. unfold run_batch. simpl.
  destruct (remote_batch_calls l [] newBatch rd eq_refl) as (b & Hcalls & Hb). simpl in *. rewrite Hcalls.
  pose proof (plain_wire K V l Hl) as Hwire.
  destruct (RemoteDB_batch_Write_spec max_msg ops range backends now fuel b l rd m sync Hb Hrd Hsz)
    as ([b' rd'] & Hw & Hpost); rewrite ?Hwire; [done|done| |].
  { left. rewrite (plain_batch_ops K V) by done. eauto. }
  rewrite Hwire, (plain_batch_ops K V) in Hw, Hpost by done. simpl in Hpost. destruct Hpost as [Hb' Hrd'].
  rewrite (plain_batch_calls K V) by done. simpl in *. exists rd'. split; [|done]. by rewrite Hw.
Qed.

Lemma remote_run_call rd m c :
  ok rd m → map_Forall (plain_entry K V) m → plain_call K V max_msg c → call_fits db_fits c →
  3 * K + V + 100 ≤ max_msg → size m < fuel →
  ∃ rd', run_call RemoteDB_ops fuel c rd = ((spec_call c m).1, rd') ∧ ok rd' (spec_call c m).2.
Proof.
  intros Hrd Hm Hc Hfit HK Hfuel.
  assert (∀ (sync : bool) key v, plain_key K key → plain_value V v → set_fits db_fits key v →
    reply ((if sync then RemoteDB_SetSync else RemoteDB_Set) key v) rd (spec_Set m key v).1
      (λ rd', ok rd' (spec_Set m key v).2)) as Hset.
  { intros sync key v Hk Hv Hf. pose proof (RemoteDB_Set_spec max_msg ops range backends now fuel rd m sync key v Hrd) as H.
    rewrite !plain_norm in H by (apply Hk || apply Hv).
    destruct Hk as [Hk Hlk], Hv as [Hv Hlv]. specialize (H ltac:(lia) Hf).
    destruct v as [v|]; [|done]. unfold spec_Set in *. rewrite plain_len in * by done. by destruct sync. }
  assert (∀ (sync : bool) key, plain_key K key → delete_fits db_fits key →
    reply ((if sync then RemoteDB_DeleteSync else RemoteDB_Delete) key) rd (spec_Delete m key).1
      (λ rd', ok rd' (spec_Delete m key).2)) as Hdel.
  { intros sync key [Hk Hlk] Hf.
    pose proof (RemoteDB_Delete_spec max_msg ops range backends now fuel rd m sync key Hrd ltac:(lia) Hf) as H.
    unfold spec_Delete in *. rewrite plain_len in * by done. by destruct sync. }
  destruct c as [key|key|key v|key v|key|key|start end_ rev|l sync]; simpl in *.
  - destruct Hc as [Hk Hlk].
    destruct (RemoteDB_Get_spec max_msg ops range backends now fuel rd m key Hrd Hfit) as (rd' & H & Hrd'); [lia| |].
    { intros v Hv. unfold spec_Get in Hv. rewrite plain_len in Hv by done. injection Hv as Hv.
      destruct (Hm _ _ Hv) as (_ & _ & _ & ?). lia. }
    rewrite H. exists rd'. split; [|done]. unfold spec_Get. rewrite plain_len by done. simpl.
    destruct (m !! data key) as [v|] eqn:Hv; [|done]. destruct (Hm _ _ Hv) as (_ & ? & _).
    by rewrite norm_bytes_Some.
  - destruct Hc as [Hk Hlk].
    destruct (RemoteDB_Has_spec max_msg ops range backends now fuel rd m key Hrd Hfit) as (rd' & H & Hrd'); [lia|].
    rewrite H. exists rd'. split; [|done]. unfold spec_Has. by rewrite plain_len.
  - destruct Hc as [Hk Hv], (Hset false key v Hk Hv Hfit) as (rd' & -> & ?). exists rd'. by destruct (spec_Set m key v).
  - destruct Hc as [Hk Hv], (Hset true key v Hk Hv Hfit) as (rd' & -> & ?). exists rd'. by destruct (spec_Set m key v).
  - destruct (Hdel false key Hc Hfit) as (rd' & -> & ?). exists rd'. by destruct (spec_Delete m key).
  - destruct (Hdel true key Hc Hfit) as (rd' & -> & ?). exists rd'. by destruct (spec_Delete m key).
  - destruct Hc as [Hs He]. destruct (remote_scan rd m rev start end_) as (rd' & -> & ?); [done..|]. by exists rd'.
  - destruct Hc as [Hl Hsz], Hfit as [Hfit Hlim]. by apply remote_run_batch.
Qed.

(** The answers to a program, and what the server then holds. *)
Lemma remote_run_calls cs rd m :
  ok rd m → map_Forall (plain_entry K V) m → Forall (plain_call K V max_msg) cs →
  Forall (call_fits db_fits) cs → 3 * K + V + 100 ≤ max_msg → size m + weight cs < fuel →
  ∃ rd', run_calls RemoteDB_ops fuel cs rd = ((spec_calls cs m).1, rd') ∧ ok rd' (spec_calls cs m).2.
Proof.
  intros Hrd Hm Hcs Hfit HK. revert rd m Hrd Hm.
  induction cs as [|c cs IH]; intros rd m Hrd Hm Hfuel; simpl; [by exists rd|].
  apply Forall_cons in Hcs as [Hc Hcs], Hfit as [Hf Hfit]. unfold weight in *. simpl in Hfuel.
  destruct (remote_run_call rd m c) as (rd1 & H1 & Hrd1); [done..|lia|]. rewrite H1.
  pose proof (spec_call_size c m) as Hsize. pose proof (plain_call_store K V max_msg c m Hc Hm) as Hm1.
  destruct (spec_call c m) as [a m1]. simpl in *.
  destruct (IH Hcs Hfit rd1 m1 Hrd1 Hm1) as (rd2 & H2 & Hrd2); [lia|]. rewrite H2.
  destruct (spec_calls cs m1) as [l m2]. simpl in *. by exists rd2.
Qed.

(** A batch whose message is within the limit of the connection, of operations
    within the limits of the server's database. *)
Definition batch_ok (l : list batch_call) : Prop :=
  batch_size l ≤ max_msg ∧ Forall (batch_call_fits db_fits) (wire_batch_call <$> l) ∧ within db_fits (length l).

(** How [Write] reports an error of the server. *)
Definition refusal (sync : bool) (e : error) : error :=
  errorfW (if sync then "RemoteDB.BatchWriteSync" else "remoteDB.BatchWrite") (status_of e).

Lemma remote_batch_accepted b l rd m (sync : bool) ws :
  remote_batch b l → ok rd m → batch_ok l → spec_batch_ops (wire_batch_call <$> l) [] = Ok ws →
  reply (if sync then batch_WriteSync else batch_Write) (b, rd) (Ok tt)
    (λ bs, rb_ops bs.1 = None ∧ ok bs.2 (apply_writes ws m)).
Proof.
  intros Hb Hrd (Hsz & Hfit & Hlim) E.
  pose proof (RemoteDB_batch_Write_spec max_msg ops range backends now fuel b l rd m sync Hb Hrd Hsz Hfit Hlim) as H.
  simpl in H. rewrite E in H. specialize (H (or_introl (ex_intro _ ws eq_refl))). by destruct sync.
Qed.

Lemma remote_batch_refused b l rd m (sync : bool) e :
  remote_batch b l → ok rd m → batch_ok l → spec_batch_ops (wire_batch_call <$> l) [] = Err e →
  reply (if sync then batch_WriteSync else batch_Write) (b, rd) (Err (refusal sync e)) (λ bs, bs.1 = b ∧ ok bs.2 m).
Proof.
  intros Hb Hrd (Hsz & Hfit & Hlim) E.
  pose proof (RemoteDB_batch_Write_spec max_msg ops range backends now fuel b l rd m sync Hb Hrd Hsz Hfit Hlim) as H.
  simpl in H. rewrite E in H. specialize (H (or_intror (ex_intro _ e eq_refl))). by destruct sync.
Qed.

Lemma closed_batch_method (c : M (batch * RemoteDB W) unit) bs :
  batch_method c → rb_ops bs.1 = None → c bs = (Err errBatchClosed, bs).
Proof. destruct bs as [[o] rd]. simpl. by intros [] ->. Qed.

(** C13: a remote database is as good as a local one for programs the
    encoding does not touch (keys and values not empty and short enough for a
    message): over any database behind the server that meets the contract, the
    client gets the answers of the abstract store, in point operations, batches
    and forward and reverse scans. *)
Theorem RemoteDB_transparent cs rd m :
  ok rd m → map_Forall (plain_entry K V) m → Forall (plain_call K V max_msg) cs →
  Forall (call_fits db_fits) cs → 3 * K + V + 100 ≤ max_msg → size m + weight cs < fuel →
  ∃ rd', run_calls RemoteDB_ops fuel cs rd = ((spec_calls cs m).1, rd') ∧ ok rd' (spec_calls cs m).2.
Proof. exact (remote_run_calls cs rd m). Qed.

(** C34: a remote batch is checked by the server only, and as a whole, for
    batches whose message is within the limit of the connection and whose
    operations are within the limits of the server's database.
    [Set] and [Delete] of the client accept every argument.  If all the operations
    are well formed, [Write] applies them in order and the batch is closed: every
    later call but [Close] fails without reaching the server.  If one is not,
    [Write] fails with the first refusal, nothing is written and the batch stays
    open with all its operations; as none of them can be taken back, it can never be written:
    whatever the client adds is accepted, and every later [Write] is refused alike. *)
Theorem RemoteDB_batch_atomic l rd m (sync : bool) :
  ok rd m → batch_ok l →
  let outcome := spec_batch_ops (wire_batch_call <$> l) [] in
  ∃ b, run_batch_calls l (newBatch, rd) = ((λ _, Ok tt) <$> l, (b, rd)) ∧
  match outcome with
  | Ok ws => reply (if sync then batch_WriteSync else batch_Write) (b, rd) (Ok tt)
               (λ bs, rb_ops bs.1 = None ∧ ok bs.2 (apply_writes ws m) ∧
                 ∀ c : M (batch * RemoteDB W) unit, batch_method c → c bs = (Err errBatchClosed, bs))
  | Err e => reply (if sync then batch_WriteSync else batch_Write) (b, rd) (Err (refusal sync e))
               (λ bs, bs.1 = b ∧ ok bs.2 m ∧
                 ∀ (more : list batch_call) (sync' : bool), batch_ok (l ++ more) →
                 ∃ b2, run_batch_calls more bs = ((λ _, Ok tt) <$> more, (b2, bs.2)) ∧
                   reply (if sync' then batch_WriteSync else batch_Write) (b2, bs.2) (Err (refusal sync' e))
                     (λ bs', bs'.1 = b2 ∧ ok bs'.2 m))
  | _ => False
  end.
Proof.
  intros Hrd Hl outcome.
  destruct (remote_batch_calls l [] newBatch rd eq_refl) as (b & Hcalls & Hb). exists b. split; [done|]. simpl in Hb.
  destruct (spec_batch_ops_cases (wire_batch_call <$> l) []) as [[ws E]|[e E]]; unfold outcome; rewrite E.
  - eapply reply_mono; [exact (remote_batch_accepted b l rd m sync ws Hb Hrd Hl E)|].
    intros bs [Hclosed Hok]. split_and!; [done|done|]. intros c Hc. by apply closed_batch_method.
  - eapply reply_mono; [exact (remote_batch_refused b l rd m sync e Hb Hrd Hl E)|].
    intros [b1 rd1] [Hb1 Hrd1]. simpl in *. subst b1. split_and!; [done|done|]. intros more sync' Hmore.
    destruct (remote_batch_calls more l b rd1 Hb) as (b2 & Hcalls2 & Hb2). exists b2. split; [done|].
    apply (remote_batch_refused b2 (l ++ more)); [done..|]. rewrite fmap_app. by apply spec_batch_ops_refused.
Qed.

End theorems.

(** ** Initialisation *)

Section init.
Context {S I B : Type} `{!IteratorOps I, !BatchOps S B} (ops : DBOps S I B).
Context (range : gmap string (dbCreator (DB := S)) → list string)
  (backends : gmap string (dbCreator (DB := S))) (now : Z).

(** [Init] gives the server the database [NewDB] makes; when [NewDB]
    fails, the error reaches the client and the server has no database any more,
    also when it had one before: every request after that panics. *)
Theorem server_Init_db (s : server S) inp q b :
  match NewDB range backends (Init_Name inp) (Init_Type inp) (Init_Dir inp) with
  | Ok d => server_Init range backends now inp s = (Ok (EntityCreatedAt now), {| s_db := Some d |})
  | Err e =>
      let s' := {| s_db := None |} in
      server_Init range backends now inp s = (Err e, s') ∧
      server_Get ops q s' = (Panic nil_deref, s') ∧ server_Has ops q s' = (Panic nil_deref, s') ∧
      server_Set ops q s' = (Panic nil_deref, s') ∧ server_Delete ops q s' = (Panic nil_deref, s') ∧
      server_BatchWrite ops b s' = (Panic nil_deref, s') ∧
      server_Iterator ops 0 q (λ _ (t : unit), (Ok tt, t)) (s', tt) = (Panic nil_deref, (s', tt))
  | _ => True
  end.
Proof. unfold server_Init. destruct (NewDB _ _ _ _ _); [done|by split_and!|done|done]. Qed.

End init.

(** ** Instances: a server over MemDB, the reference codec and connection *)

Section instance.
Abbreviation tree := (list item).
Abbreviation memdb := (MemDB tree).
Abbreviation ops := (MemDB_ops (T := tree)).

Definition no_range (b : gmap string (dbCreator (DB := memdb))) : list string := [].
Definition no_backends : gmap string (dbCreator (DB := memdb)) := ∅.
Abbreviation unary := (unary_table (F := RefCodec.frame) 1000 ops no_range no_backends 0 10).
Abbreviation streaming := (stream_table (F := RefCodec.frame) 1000 ops no_range no_backends 0 10).

Local Instance ref_conn : ClientConn RefCodec.frame (RefGrpc.world memdb) (RefGrpc.stream RefCodec.frame) :=
  RefGrpc.conn unary streaming.
Local Instance ref_grpc_laws :
  GrpcLaws RefCodec.frame (RefGrpc.world memdb) (RefGrpc.stream RefCodec.frame) memdb unary streaming :=
  RefGrpc.laws unary streaming.
Local Instance ref_client : DBClient (RefGrpc.world memdb) (RefGrpc.stream RefCodec.frame) := dBClient 1000.

Definition remote_mem (db : memdb) : RemoteDB (RefGrpc.world memdb) :=
  {| rd_dc := Some {| s_db := Some db |} |}.

Lemma remote_mem_ok db : MemDB_inv db →
  remote_ok 1000 ops no_range no_backends 0 10 (remote_mem db) (MemDB_model db).
Proof. intros H. split; [by eexists|]. by exists db. Qed.

Lemma remote_new_ok : remote_ok 1000 ops no_range no_backends 0 10 (remote_mem NewMemDB) ∅.
Proof. pose proof (remote_mem_ok NewMemDB (proj1 NewMemDB_inv)) as H. by rewrite (proj2 NewMemDB_inv) in H. Qed.

Definition remote_program : list call :=
  [CSet (Some [x62]) (Some [x02]); CSetSync (Some [x61]) (Some [x01]); CGet (Some [x61]);
   CBatch [BSet (Some [x63]) (Some [x03]); BDelete (Some [x62])] true;
   CScan None (Some [x63]) true; CScan (Some [x61]) None false; CDelete (Some [x61])].

Lemma remote_program_plain : Forall (plain_call 100 100 1000) remote_program.
Proof. repeat constructor; cbv; first [discriminate|lia|done]. Qed.

Lemma RemoteDB_transparent_witness :
  ∃ rd', run_calls RemoteDB_ops 10 remote_program (remote_mem NewMemDB) =
    ((spec_calls remote_program ∅).1, rd').
Proof.
  destruct (RemoteDB_transparent 1000 ops no_range no_backends 0 10 100 100 remote_program
    (remote_mem NewMemDB) ∅) as (rd' & H & _).
  - exact remote_new_ok.
  - exact (map_Forall_empty _).
  - exact remote_program_plain.
  - exact (no_limits_fit _).
  - cbv. lia.
  - rewrite map_size_empty. cbv. lia.
  - exists rd'. exact H.
Defined.

(** The value of the second [Set] is empty; the client adds a third, and tries again. *)
Lemma RemoteDB_batch_atomic_witness :
  ∃ b, run_batch_calls [BSet (Some [x61]) (Some [x01]); BSet (Some [x62]) (Some [])]
      (newBatch, remote_mem NewMemDB) = ([Ok tt; Ok tt], (b, remote_mem NewMemDB)) ∧
    reply batch_Write (b, remote_mem NewMemDB)
      (Err (errorfW "remoteDB.BatchWrite" (RefGrpc.Unknown errValueNil)))
      (λ bs, ∃ b2, run_batch_calls [BSet (Some [x63]) (Some [x03])] bs = ([Ok tt], (b2, bs.2)) ∧
         reply batch_WriteSync (b2, bs.2) (Err (errorfW "RemoteDB.BatchWriteSync" (RefGrpc.Unknown errValueNil)))
           (λ bs', remote_ok 1000 ops no_range no_backends 0 10 bs'.2 ∅)).
Proof.
  destruct (RemoteDB_batch_atomic 1000 ops no_range no_backends 0 10
    [BSet (Some [x61]) (Some [x01]); BSet (Some [x62]) (Some [])] (remote_mem NewMemDB) ∅ false
    remote_new_ok) as (b & Hcalls & Hwrite).
  - split; [cbv; lia|]. split; [repeat constructor|exact Logic.I].
  - exists b. split; [exact Hcalls|].
    eapply reply_mono; [exact Hwrite|]. intros bs (_ & _ & Hagain).
    destruct (Hagain [BSet (Some [x63]) (Some [x03])] true) as (b2 & H1 & H2).
    { split; [cbv; lia|]. split; [repeat constructor|exact Logic.I]. }
    exists b2. split; [exact H1|]. eapply reply_mono; [exact H2|]. intros bs' [_ H]. exact H.
Defined.

End instance.
