(* ===== verification/RemoteSpec.v ===== *)
(** * What a remote database answers, to any program

    A specification of [RemoteDB] against the abstract store that covers every
    argument: an empty byte string travels as nil, in arguments, bounds and
    values; what the server refuses comes back as a wrapped status; a batch is
    checked as a whole by the server.  A program that only uses what the encoding
    keeps is answered as by a local database. *)

From S2P Require Import Prelude Go Util Spec Types Client Registry BTree MemDB MemDBCorrect Proto.
From S2P Require Import GrpcServer GrpcServerCorrect RemoteDB Grpc RemoteDBCorrect RemoteDBThms.
Import protodb.

(** ** The specification *)

Section spec.
(** The error a client gets for an error of the server. *)
Context (status : error → error).

Definition with_status {A} (msg : string) (r : result A) : result A :=
  match r with Err e => Err (errorfW msg (status e)) | r => r end.

Definition remote_call (c : call) (m : store) : answer * store :=
  match c with
  | CGet key => (AValue (with_status "remoteDB.Get error" (result_map norm_bytes (spec_Get m key))), m)
  | CHas key => (ABool (match spec_Has m key with Err e => Err (status e) | r => r end), m)
  | CSet key value =>
      let '(r, m) := spec_Set m key (norm_bytes value) in (AUnit (with_status "remoteDB.Set" r), m)
  | CSetSync key value =>
      let '(r, m) := spec_Set m key (norm_bytes value) in (AUnit (with_status "remoteDB.SetSync" r), m)
  | CDelete key => let '(r, m) := spec_Delete m key in (AUnit (with_status "remoteDB.Delete" r), m)
  | CDeleteSync key => let '(r, m) := spec_Delete m key in (AUnit (with_status "remoteDB.DeleteSync" r), m)
  | CScan start end_ rev =>
      (AScan (Ok (wire_entry <$> scan m (norm_bytes start) (norm_bytes end_) rev)), m)
  | CBatch l sync =>
      let r := spec_batch_ops (wire_batch_call <$> l) [] in
      (ABatch ((λ _, Ok tt) <$> l)
         (with_status (if sync then "RemoteDB.BatchWriteSync" else "remoteDB.BatchWrite") (result_map (λ _, tt) r)),
       match r with Ok ws => apply_writes ws m | _ => m end)
  end.

Fixpoint remote_calls (cs : list call) (m : store) : list answer * store :=
  match cs with
  | [] => ([], m)
  | c :: cs =>
      let '(a, m) := remote_call c m in
      let '(l, m) := remote_calls cs m in (a :: l, m)
  end.
End spec.

(** ** Programs whose messages are short enough *)

Section small.
Context (K V max_msg : nat).

Definition small_entry (k v : bytes) : Prop := length k ≤ K ∧ length v ≤ V.
Definition small_write (w : write) : Prop := match w with WSet k v => small_entry k v | WDelete _ => True end.
Definition small_batch_call (c : batch_call) : Prop :=
  match c with BSet key value => len key ≤ K ∧ len value ≤ V | BDelete key => len key ≤ K end.
Definition small_call (c : call) : Prop :=
  match c with
  | CGet key | CHas key | CDelete key | CDeleteSync key => len key ≤ K
  | CSet key value | CSetSync key value => len key ≤ K ∧ len value ≤ V
  | CScan start end_ _ => len start ≤ K ∧ len end_ ≤ K
  | CBatch l _ => Forall small_batch_call l ∧ batch_size l ≤ max_msg
  end.

(** What the server is asked to store. *)
Definition wire_call_fits (fits : limits) (c : call) : Prop :=
  match c with
  | CGet key | CHas key => fits_read fits (data key)
  | CSet key value | CSetSync key value => set_fits fits key (norm_bytes value)
  | CDelete key | CDeleteSync key => delete_fits fits key
  | CScan _ _ _ => True
  | CBatch l _ => Forall (batch_call_fits fits) (wire_batch_call <$> l) ∧ within fits (length l)
  end.

Lemma small_spec_Set m key value :
  len key ≤ K → len value ≤ V → map_Forall small_entry m → map_Forall small_entry (spec_Set m key (norm_bytes value)).2.
Proof.
  intros Hk Hv Hm. unfold spec_Set. case_match; simpl; [done|].
  destruct (norm_bytes value) as [v|] eqn:E; simpl; [|done]. apply map_Forall_insert_2; [|done].
  split; [done|]. rewrite <-(norm_bytes_len value), E in Hv. exact Hv.
Qed.

Lemma small_spec_Delete m key : map_Forall small_entry m → map_Forall small_entry (spec_Delete m key).2.
Proof. intros Hm. unfold spec_Delete. case_match; simpl; [done|]. by apply map_Forall_delete. Qed.

Lemma small_apply ws m : Forall small_write ws → map_Forall small_entry m → map_Forall small_entry (apply_writes ws m).
Proof.
  intros Hws. revert m. unfold apply_writes. induction Hws as [|w ws Hw _ IH]; intros m Hm; simpl; [done|].
  apply IH. destruct w; simpl in *; [by apply map_Forall_insert_2|by apply map_Forall_delete].
Qed.

(** The operations the server accepts. *)
Lemma small_batch_ops l ws ws' :
  Forall small_batch_call l → Forall small_write ws → spec_batch_ops (wire_batch_call <$> l) ws = Ok ws' →
  Forall small_write ws' ∧ length ws' ≤ length ws + length l.
Proof.
  intros Hl. revert ws. induction Hl as [|c l Hc _ IH]; intros ws Hws; simpl.
  { intros [= ->]. split; [done|lia]. }
  destruct c as [key value|key]; simpl in *; unfold spec_batch_Set, spec_batch_Delete;
    destruct (len (norm_bytes key) =? 0); [done| |done|]; rewrite norm_bytes_data.
  - destruct (norm_bytes value) as [v|] eqn:E; [|done]. intros H. apply IH in H as [Hs Hlen].
    + split; [done|]. rewrite length_app in Hlen. simpl in Hlen. lia.
    + apply Forall_app. split; [done|]. apply Forall_singleton. destruct Hc as [Hk Hv]. split; [done|].
      rewrite <-(norm_bytes_len value), E in Hv. exact Hv.
  - intros H. apply IH in H as [Hs Hlen].
    + split; [done|]. rewrite length_app in Hlen. simpl in Hlen. lia.
    + apply Forall_app. split; [done|]. by apply Forall_singleton.
Qed.

Lemma remote_call_store status c m :
  small_call c → map_Forall small_entry m →
  map_Forall small_entry (remote_call status c m).2 ∧ size (remote_call status c m).2 ≤ size m + call_weight c.
Proof.
  intros Hc Hm. pose proof (spec_call_size) as Hsize.
  destruct c as [key|key|key v|key v|key|key|start end_ rev|l sync]; simpl in *; try (split; [done|lia]).
  - pose proof (small_spec_Set m key v (proj1 Hc) (proj2 Hc) Hm). specialize (Hsize (CSet key (norm_bytes v)) m).
    simpl in Hsize. by destruct (spec_Set m key (norm_bytes v)).
  - pose proof (small_spec_Set m key v (proj1 Hc) (proj2 Hc) Hm). specialize (Hsize (CSet key (norm_bytes v)) m).
    simpl in Hsize. by destruct (spec_Set m key (norm_bytes v)).
  - pose proof (small_spec_Delete m key Hm). specialize (Hsize (CDelete key) m).
    simpl in Hsize. by destruct (spec_Delete m key).
  - pose proof (small_spec_Delete m key Hm). specialize (Hsize (CDelete key) m).
    simpl in Hsize. by destruct (spec_Delete m key).
  - destruct (spec_batch_ops _ _) as [ws|e|msg|] eqn:E; try (split; [done|lia]).
    destruct (small_batch_ops l [] ws) as [Hws Hlen]; [apply Hc|constructor|done|]. simpl in Hlen.
    split; [by apply small_apply|]. pose proof (size_apply_writes ws m). lia.
Qed.

End small.

(** ** The client, the stubs and the server meet it *)

Section theorems.
Context {F W St S I B : Type} (max_msg : nat) `{!IteratorOps I, !BatchOps S B} (ops : DBOps S I B).
Context `{!Codec F Entity max_msg, !Codec F Batch max_msg, !Codec F Nothing max_msg,
  !Codec F Iterator max_msg, !Codec F Stats max_msg, !Codec F Init max_msg}.
Context (range : gmap string (dbCreator (DB := S)) → list string)
  (backends : gmap string (dbCreator (DB := S))) (now : Z) (fuel : nat).
Context `{!ClientConn F W St}.
Context `{!GrpcLaws F W St S (unary_table max_msg ops range backends now fuel)
  (stream_table max_msg ops range backends now fuel)}.
Context `{!DBContract ops, !IteratorBounds I} (K V : nat).
#[local] Hint Extern 0 (DBClient _ _) => exact (dBClient max_msg) : typeclass_instances.
Implicit Types (rd : RemoteDB W) (m : store).
Abbreviation ok := (remote_ok max_msg ops range backends now fuel).
Abbreviation spec := (remote_call status_of).

Lemma answer_Set rd m (sync : bool) key value :
  ok rd m → len key ≤ K → len value ≤ V → K + V + 100 ≤ max_msg → set_fits db_fits key (norm_bytes value) →
  ∃ rd', (if sync then RemoteDB_SetSync else RemoteDB_Set) key value rd =
      (with_status status_of (if sync then "remoteDB.SetSync" else "remoteDB.Set") (spec_Set m key (norm_bytes value)).1, rd') ∧
    ok rd' (spec_Set m key (norm_bytes value)).2.
Proof.
  intros Hrd Hk Hv HK Hfit.
  assert (set_fits db_fits (norm_bytes key) (norm_bytes value)) as Hfit'.
  { unfold set_fits in *. by rewrite norm_bytes_data. }
  exact (RemoteDB_Set_spec max_msg ops range backends now fuel rd m sync key value Hrd ltac:(lia) Hfit').
Qed.

Lemma answer_scan rd m rev start end_ :
  ok rd m → map_Forall (small_entry K V) m → len start ≤ K → len end_ ≤ K →
  3 * K + V + 100 ≤ max_msg → size m < fuel →
  reply (run_scan RemoteDB_ops fuel start end_ rev) rd
    (Ok (wire_entry <$> scan m (norm_bytes start) (norm_bytes end_) rev)) (λ rd', ok rd' m).
Proof.
  intros Hrd Hm Hls Hle HK Hfuel. unfold run_scan.
  destruct (RemoteDB_iterator_spec max_msg ops range backends now fuel rd m rev start end_ Hrd)
    as (it & Hit & Hrep); [lia|done| |].
  { intros k v [Hkv _]%elem_of_scan. destruct (Hm k v Hkv). lia. }
  eapply reply_bind; [destruct rev; exact Hit|]. intros rd' Hrd'. exists rd'. split; [|done].
  pose proof (length_scan m (norm_bytes start) (norm_bytes end_) rev).
  destruct (remote_collect max_msg ops range backends now fuel it _ _ _ fuel Hrep) as (it' & Hc & _); [lia|].
  unfold deferred. by rewrite Hc.
Qed.

Lemma answer_batch rd m l sync :
  ok rd m → batch_size l ≤ max_msg → Forall (batch_call_fits db_fits) (wire_batch_call <$> l) →
  within db_fits (length l) →
  ∃ rd', run_batch RemoteDB_ops l sync rd = ((spec (CBatch l sync) m).1, rd') ∧ ok rd' (spec (CBatch l sync) m).2.
Proof.
  intros Hrd Hsz Hfit Hlim. unfold run_batch. simpl.
  destruct (remote_batch_calls max_msg l [] newBatch rd eq_refl) as (b & Hcalls & Hb). simpl in Hcalls, Hb. rewrite Hcalls.
  pose proof (spec_batch_ops_cases (wire_batch_call <$> l) []) as Hcases.
  destruct (RemoteDB_batch_Write_spec max_msg ops range backends now fuel b l rd m sync Hb Hrd Hsz Hfit Hlim Hcases)
    as ([b' rd'] & Hw & Hpost). simpl in Hw, Hpost. rewrite Hw. simpl. exists rd'. split; [done|].
  destruct Hcases as [[ws E]|[e E]]; rewrite E in *; apply Hpost.
Qed.

Lemma answer_call rd m c :
  ok rd m → map_Forall (small_entry K V) m → small_call K V max_msg c → wire_call_fits db_fits c →
  3 * K + V + 100 ≤ max_msg → size m < fuel →
  ∃ rd', run_call RemoteDB_ops fuel c rd = ((spec c m).1, rd') ∧ ok rd' (spec c m).2.
Proof.
  intros Hrd Hm Hc Hfit HK Hfuel.
  destruct c as [key|key|key v|key v|key|key|start end_ rev|l sync]; simpl in *.
  - destruct (RemoteDB_Get_spec max_msg ops range backends now fuel rd m key Hrd Hfit) as (rd' & H & Hrd'); [lia| |].
    { intros v Hv. unfold spec_Get in Hv. destruct (len key =? 0); [done|]. injection Hv as Hv.
      destruct (Hm _ _ Hv). lia. }
    rewrite H. by exists rd'.
  - destruct (RemoteDB_Has_spec max_msg ops range backends now fuel rd m key Hrd Hfit) as (rd' & H & Hrd'); [lia|].
    rewrite H. by exists rd'.
  - destruct (answer_Set rd m false key v) as (rd' & H & ?); [done|apply Hc|apply Hc|lia|done|].
    rewrite H. exists rd'. by destruct (spec_Set m key (norm_bytes v)).
  - destruct (answer_Set rd m true key v) as (rd' & H & ?); [done|apply Hc|apply Hc|lia|done|].
    rewrite H. exists rd'. by destruct (spec_Set m key (norm_bytes v)).
  - destruct (RemoteDB_Delete_spec max_msg ops range backends now fuel rd m false key Hrd) as (rd' & H & ?); [lia|done|].
    rewrite H. exists rd'. by destruct (spec_Delete m key).
  - destruct (RemoteDB_Delete_spec max_msg ops range backends now fuel rd m true key Hrd) as (rd' & H & ?); [lia|done|].
    rewrite H. exists rd'. by destruct (spec_Delete m key).
  - destruct Hc as [Hs He]. destruct (answer_scan rd m rev start end_) as (rd' & -> & ?); [done..|]. by exists rd'.
  - destruct Hc as [Hl Hsz], Hfit as [Hfit Hlim]. by apply answer_batch.
Qed.

(** C32: the remote database over any database that meets the contract,
    for every program whose messages are short enough: the answers are those of
    [remote_calls].  An empty value is refused as a nil one is, and is read as
    nil where one is stored; an empty bound is no bound; what the server refuses
    is a wrapped status and changes nothing; [Set] and [Delete] of a batch accept
    everything, and its [Write] applies all operations or, at the first that is
    refused, none. *)
Theorem RemoteDB_answers cs rd m :
  ok rd m → map_Forall (small_entry K V) m → Forall (small_call K V max_msg) cs →
  Forall (wire_call_fits db_fits) cs → 3 * K + V + 100 ≤ max_msg → size m + weight cs < fuel →
  ∃ rd', run_calls RemoteDB_ops fuel cs rd = ((remote_calls status_of cs m).1, rd') ∧
    ok rd' (remote_calls status_of cs m).2.
Proof.
  intros Hrd Hm Hcs Hfit HK. revert rd m Hrd Hm.
  induction cs as [|c cs IH]; intros rd m Hrd Hm Hfuel; simpl; [by exists rd|].
  apply Forall_cons in Hcs as [Hc Hcs], Hfit as [Hf Hfit]. unfold weight in *. simpl in Hfuel.
  destruct (answer_call rd m c) as (rd1 & H1 & Hrd1); [done..|lia|]. rewrite H1.
  destruct (remote_call_store K V max_msg status_of c m Hc Hm) as [Hm1 Hsize].
  destruct (spec c m) as [a m1]. simpl in *.
  destruct (IH Hcs Hfit rd1 m1 Hrd1 Hm1) as (rd2 & H2 & Hrd2); [lia|]. rewrite H2.
  destruct (remote_calls status_of cs m1) as [l m2]. simpl in *. by exists rd2.
Qed.

End theorems.

(** ** An instance: a server over a MemDB that holds an empty value *)

Section instance.
#[local] Existing Instances ref_conn ref_grpc_laws ref_client.
Abbreviation tree := (list item).
Abbreviation memdb := (MemDB tree).
Abbreviation ops := (MemDB_ops (T := tree)).

(** A database that holds an empty value. *)
Definition one_empty : memdb := (MemDB_Set (Some [x61]) (Some []) NewMemDB).2.

Lemma one_empty_ok : remote_ok 1000 ops no_range no_backends 0 10 (remote_mem one_empty) {[ [x61] := [] ]}.
Proof.
  destruct (law_Set (DBContract := MemDB_contract) NewMemDB (Some [x61]) (Some [])
    (proj1 NewMemDB_inv) Logic.I) as (db & H & Hinv & Hm).
  assert (one_empty = db) as <- by (unfold one_empty; simpl in H; by rewrite H).
  pose proof (remote_mem_ok one_empty Hinv) as Hok.
  assert (MemDB_model one_empty = {[ [x61] := [] ]}) as Hmodel.
  { etrans; [exact Hm|]. change (<[ [x61] := [] ]> (MemDB_model (NewMemDB (T := tree))) = {[ [x61] := [] ]}).
    by rewrite (proj2 NewMemDB_inv). }
  by rewrite Hmodel in Hok.
Qed.

Definition awkward_program : list call :=
  [CGet (Some [x61]); CHas (Some [x61]); CSet (Some [x62]) (Some []); CGet (Some []); CSet (Some [x62]) (Some [x02]);
   CScan (Some []) (Some []) true; CBatch [BSet (Some [x63]) (Some [x03]); BSet (Some [x64]) None] true;
   CScan None None false].

Lemma RemoteDB_answers_witness :
  ∃ rd', run_calls RemoteDB_ops 10 awkward_program (remote_mem one_empty) =
    ([AValue (Ok None); ABool (Ok true);
      AUnit (Err (errorfW "remoteDB.Set" (RefGrpc.Unknown errValueNil)));
      AValue (Err (errorfW "remoteDB.Get error" (RefGrpc.Unknown errKeyEmpty))); AUnit (Ok tt);
      AScan (Ok [(Some [x62], Some [x02]); (Some [x61], None)]);
      ABatch [Ok tt; Ok tt] (Err (errorfW "RemoteDB.BatchWriteSync" (RefGrpc.Unknown errValueNil)));
      AScan (Ok [(Some [x61], None); (Some [x62], Some [x02])])], rd').
Proof.
  destruct (RemoteDB_answers 1000 ops no_range no_backends 0 10 100 100 awkward_program
    (remote_mem one_empty) {[ [x61] := [] ]} one_empty_ok) as (rd' & H & _).
  - apply map_Forall_singleton. split; cbv; lia.
  - repeat constructor; cbv; lia.
  - repeat constructor.
  - cbv. lia.
  - rewrite map_size_singleton. cbv. lia.
  - exists rd'. etrans; [exact H|]. f_equal.
Defined.
End instance.
