(* ===== verification/IterErrors.v ===== *)
(** * Iterators that fail

    types.go: "Error returns the last error encountered by the iterator, if
    any."  What the iterators of the backends do when the library or the stream
    behind them reports an error, whatever else it does; and what becomes of the
    error of an iterator the server of a RemoteDB runs over. *)

From S2P Require Import Prelude Go Util Spec Types Client Session Cursor KVLib GoLevelDB RocksDB CLevelDB BadgerLib BadgerDB PrefixDB Proto GrpcServer RemoteDB Grpc.
Import protodb.

(** ** An iterator that has given up *)

Section iter.
Context {I : Type} `{!IteratorOps I}.

Fixpoint run_iter_ops (l : list iter_op) (it : I) : list outcome :=
  match l with
  | [] => []
  | op :: l =>
      match run_iter_op op it with
      | (o, Some it) => o :: run_iter_ops l it
      | (o, None) => [o]
      end
  end.

Definition failing_outcome (e : error) (op : iter_op) : outcome :=
  match op with
  | OValid => OBool (Ok false)
  | ONext => OUnit (Panic invalid_msg)
  | OKey | OValue => OSlice (Panic invalid_msg)
  | OError => OErr (Some e)
  | OClose => OUnit (Ok tt)
  end.

(** It is invalid and reports [e], whatever is called on it before [Close]. *)
Definition gives_up (it : I) (e : error) : Prop :=
  ∀ l, OClose ∉ l → run_iter_ops l it = failing_outcome e <$> l.

Lemma gives_up_invariant (F : I → Prop) e it :
  (∀ it op, F it → op ≠ OClose → ∃ it', run_iter_op op it = (failing_outcome e op, Some it') ∧ F it') →
  F it → gives_up it e.
Proof.
  intros Hstep Hit l. revert it Hit. induction l as [|op l IH]; intros it Hit Hl; [done|]. simpl.
  apply not_elem_of_cons in Hl as [Hop Hl]. destruct (Hstep it op Hit) as (it' & -> & Hit'); [done|].
  f_equal. by apply IH.
Qed.

Lemma gives_up_step it e op :
  gives_up it e → op ≠ OClose →
  ∃ it', run_iter_op op it = (failing_outcome e op, Some it') ∧ gives_up it' e.
Proof.
  intros H Hop. pose proof (H [op]) as H1. simpl in H1.
  destruct (run_iter_op op it) as [o [it'|]] eqn:E.
  - assert (o = failing_outcome e op) as -> by (injection H1; [done|set_solver]).
    exists it'. split; [done|]. intros l Hl. specialize (H (op :: l)). simpl in H. rewrite E in H.
    injection H; [done|set_solver].
  - destruct op; simpl in E; repeat case_match; simplify_eq.
Qed.

(** The methods one by one. *)
Lemma gives_up_Valid it e : gives_up it e → ∃ it', it_Valid it = (Ok false, it') ∧ gives_up it' e.
Proof.
  intros H. destruct (gives_up_step it e OValid H) as (it' & E & ?); [done|]. simpl in E.
  destruct (it_Valid it). simplify_eq. by eexists.
Qed.
Lemma gives_up_Error it e : gives_up it e → it_Error it = Some e.
Proof. intros H. destruct (gives_up_step it e OError H) as (it' & E & ?); [done|]. by simplify_eq/=. Qed.

(** It delivers some entries and then gives up. *)
Inductive fails_after (e : error) : I → list (slice * slice) → Prop :=
  | fails_now it : gives_up it e → fails_after e it []
  | fails_later it it1 it2 it3 it4 it5 k v l :
      it_Valid it = (Ok true, it1) → it_Key it1 = (Ok k, it2) → it_Value it2 = (Ok v, it3) →
      it_Valid it3 = (Ok true, it4) → it_Next it4 = (Ok tt, it5) → fails_after e it5 l →
      fails_after e it ((k, v) :: l).

End iter.

(** ** The iterators of the libraries *)

Section kv.
Context {C : Type} `{!CursorOps C}.

Lemma goLevelDBIterator_gives_up (itr : goLevelDBIterator C) e :
  cur_Err (gli_source itr) = Some e → gives_up itr e.
Proof.
  apply (gives_up_invariant (λ itr, cur_Err (gli_source itr) = Some e)). clear itr. intros itr op He Hop.
  assert (∃ itr', goLevelDBIterator_Valid itr = (Ok false, itr') ∧ cur_Err (gli_source itr') = Some e) as (itr' & Hv & He').
  { unfold goLevelDBIterator_Valid, goLevelDBIterator_Error, mbind, M_bind. simpl.
    destruct (gli_isInvalid itr); [by eexists|]. rewrite He. by eexists. }
  destruct op; [..|done]; simpl; unfold goLevelDBIterator_Next, goLevelDBIterator_Key, goLevelDBIterator_Value,
    goLevelDBIterator_assertIsValid, goLevelDBIterator_Error, mbind, M_bind; rewrite ?Hv, ?He; by eexists.
Qed.

Lemma rocksDBIterator_gives_up (itr : rocksDBIterator C) e :
  cur_Err (rki_source itr) = Some e → gives_up itr e.
Proof.
  apply (gives_up_invariant (λ itr, cur_Err (rki_source itr) = Some e)). clear itr. intros itr op He Hop.
  assert (∃ itr', rocksDBIterator_Valid itr = (Ok false, itr') ∧ cur_Err (rki_source itr') = Some e) as (itr' & Hv & He').
  { unfold rocksDBIterator_Valid, mbind, M_bind. simpl.
    destruct (rki_isInvalid itr); [by eexists|]. rewrite He. by eexists. }
  destruct op; [..|done]; simpl; unfold rocksDBIterator_Next, rocksDBIterator_Key, rocksDBIterator_Value,
    rocksDBIterator_assertIsValid, rocksDBIterator_Error, mbind, M_bind; rewrite ?Hv, ?He; by eexists.
Qed.

Lemma cLevelDBIterator_gives_up (itr : cLevelDBIterator C) e :
  cur_Err (cli_source itr) = Some e → gives_up itr e.
Proof.
  intros He0. apply (gives_up_invariant (eq itr)); [|done]. intros ? op <- Hop.
  assert (cLevelDBIterator_Valid itr = (Ok false, itr)) as Hv.
  { unfold cLevelDBIterator_Valid, mbind, M_bind. simpl. destruct (cli_isInvalid itr); [done|]. by rewrite He0. }
  destruct op; [..|done]; simpl; unfold cLevelDBIterator_Next, cLevelDBIterator_Key, cLevelDBIterator_Value,
    cLevelDBIterator_assertIsValid, cLevelDBIterator_Error, mbind, M_bind; rewrite ?Hv, ?He0; by eexists.
Qed.

End kv.

(** ** A PrefixDB over a database whose iterator fails *)

Section prefix.
Context {I : Type} `{!IteratorOps I}.

Lemma prefixDBIterator_gives_up (itr : prefixDBIterator I) e :
  gives_up (pit_source itr) e → gives_up itr e.
Proof.
  apply (gives_up_invariant (λ itr, gives_up (pit_source itr) e)). clear itr. intros itr op He Hop.
  assert (∃ itr', prefixDBIterator_Valid itr = (Ok false, itr') ∧ gives_up (pit_source itr') e) as (itr' & Hv & He').
  { unfold prefixDBIterator_Valid, on_source, mbind, M_bind. simpl. destruct (_ || _); [by eexists|].
    destruct (gives_up_Valid _ _ He) as (src & -> & Hsrc). by eexists. }
  destruct op; [..|done]; simpl; unfold prefixDBIterator_Next, prefixDBIterator_Key, prefixDBIterator_Value,
    prefixDBIterator_Error; cbn [prefixDBIterator_Next_fuel];
    unfold prefixDBIterator_assertIsValid, mbind, M_bind; rewrite ?Hv, ?(gives_up_Error _ _ He); by eexists.
Qed.

Lemma newPrefixIterator_gives_up prefix start end_ (source : I) e :
  gives_up source e → ∃ itr, newPrefixIterator prefix start end_ source = Ok itr ∧ gives_up itr e.
Proof.
  intros He. destruct (gives_up_Valid _ _ He) as (src1 & H1 & He1).
  destruct (gives_up_Valid _ _ He1) as (src2 & H2 & He2).
  unfold newPrefixIterator, newPrefixIterator_prime, mbind, M_bind. rewrite H1. simpl. rewrite H2. simpl.
  eexists. split; [done|]. by apply prefixDBIterator_gives_up.
Qed.

End prefix.

(** ** The iterators of the client of a remote database *)

Section remote.
Context {W St : Type} `{!DBClient W St}.

(** A stream that delivers the messages [ms] and then the error [e], [io.EOF]
    when the server has sent everything. *)
Inductive delivers (e : error) : St → list Iterator → Prop :=
  | delivers_end st st' : st_Recv st = (Err e, st') → st_Recv st' = (Err e, st') → delivers e st []
  | delivers_msg st st' m ms : st_Recv st = (Ok m, st') → delivers e st' ms → delivers e st (m :: ms).

Definition frame_pair (m : Iterator) : slice * slice := (Iterator_Key m, Iterator_Value m).

(** Where the client is: a message, or the end. *)
Definition at_frames (e : error) (itr : iterator St) (ms : list Iterator) : Prop :=
  match ms with
  | [] => ri_cur itr = None ∧ ri_err itr = Some e ∧ st_Recv (ri_dic itr) = (Err e, ri_dic itr)
  | m :: ms => ri_cur itr = Some m ∧ ri_err itr = None ∧ delivers e (ri_dic itr) ms
  end.

Lemma iterator_Next_frames e st ms itr :
  delivers e st ms → ri_dic itr = st → ri_err itr = None →
  ∃ itr', iterator_Next itr = (Ok tt, itr') ∧ at_frames e itr' ms.
Proof.
  intros H <- He. unfold iterator_Next. inversion H as [? ? Hr ?|? ? ? ? Hr ?]; subst; rewrite Hr; by eexists.
Qed.

Definition remote_of (rev : bool) (itr : iterator St) : remote_iter St :=
  if rev then Rev {| rr_itr := itr |} else Fwd itr.

(** One round of the client's loop. *)
Lemma stream_iter_round (rev : bool) itr m :
  ri_cur itr = Some m → ri_err itr = None → Iterator_Valid m = true →
  it_Valid (remote_of rev itr) = (Ok true, remote_of rev itr) ∧
  it_Key (remote_of rev itr) = (Ok (Iterator_Key m), remote_of rev itr) ∧
  it_Value (remote_of rev itr) = (Ok (Iterator_Value m), remote_of rev itr).
Proof.
  intros Hc He Hv. assert (iterator_isValid itr = true) as Hvalid.
  { unfold iterator_isValid. by rewrite Hc, He, Hv. }
  destruct itr as [st cur err]. simpl in Hc. subst cur.
  destruct rev; simpl; unfold reverseIterator_Valid, reverseIterator_Key, reverseIterator_Value, on_rr, on_field;
    simpl; unfold iterator_Key, iterator_Value, iterator_assertIsValid, iterator_Valid, mbind, M_bind; simpl;
    by rewrite Hvalid.
Qed.

Lemma stream_iter_Next (rev : bool) itr r itr' :
  iterator_Next itr = (r, itr') → it_Next (remote_of rev itr) = (r, remote_of rev itr').
Proof.
  intros H. destruct rev; simpl; unfold reverseIterator_Next, on_rr, on_field; simpl; by rewrite H.
Qed.

Lemma stream_iter_end (rev : bool) itr :
  iterator_isValid itr = false →
  it_Valid (remote_of rev itr) = (Ok false, remote_of rev itr) ∧
  it_Key (remote_of rev itr) = (Panic invalid_msg, remote_of rev itr) ∧
  it_Value (remote_of rev itr) = (Panic invalid_msg, remote_of rev itr).
Proof.
  intros Hvalid. destruct itr as [st cur err].
  destruct rev; simpl; unfold reverseIterator_Valid, reverseIterator_Key, reverseIterator_Value, on_rr, on_field;
    simpl; unfold iterator_Key, iterator_Value, iterator_assertIsValid, iterator_Valid, mbind, M_bind; simpl;
    by rewrite Hvalid.
Qed.

Lemma collect_frames e fuel (rev : bool) itr ms :
  at_frames e itr ms → Forall (λ m, Iterator_Valid m = true) ms → length ms < fuel →
  ∃ itr', collect fuel (remote_of rev itr) = (Ok (frame_pair <$> ms), remote_of rev itr') ∧ at_frames e itr' [].
Proof.
  revert itr ms. induction fuel as [|fuel IH]; intros itr ms Hat Hv Hlen; [lia|]. cbn [collect].
  unfold mbind, M_bind. destruct ms as [|m ms].
  - destruct (stream_iter_end rev itr) as [-> _]; [unfold iterator_isValid; by rewrite (proj1 Hat)|]. by exists itr.
  - destruct Hat as (Hc & He & Hd). apply Forall_cons in Hv as [Hm Hv]. simpl in Hlen.
    destruct (stream_iter_round rev itr m Hc He Hm) as (-> & -> & ->).
    destruct (iterator_Next_frames e _ ms itr Hd eq_refl He) as (itr1 & Hn & Hat1).
    rewrite (stream_iter_Next rev _ _ _ Hn).
    destruct (IH itr1 ms Hat1 Hv) as (itr2 & -> & Hend); [lia|]. by exists itr2.
Qed.

(** After an error, or the end of the stream, the iterator is invalid and says
    why. *)
Lemma stream_iter_scan e fuel (rev : bool) st ms :
  delivers e st ms → Forall (λ m, Iterator_Valid m = true) ms → length ms < fuel →
  ∃ it it', (if rev then result_map Rev (makeReverseIterator st) else result_map Fwd (makeIterator st)) = Ok it ∧
    collect fuel it = (Ok (frame_pair <$> ms), it') ∧
    it_Error it' = Some e ∧ it_Valid it' = (Ok false, it') ∧ it_Key it' = (Panic invalid_msg, it') ∧
    it_Value it' = (Panic invalid_msg, it') ∧ it_Next it' = (Ok tt, it').
Proof.
  intros Hd Hv Hlen.
  destruct (iterator_Next_frames e st ms {| ri_dic := st; ri_cur := None; ri_err := None |} Hd) as (itr & Hn & Hat); [done..|].
  destruct (collect_frames e fuel rev itr ms Hat Hv Hlen) as (itr' & Hc & Hend & Herr & Hst).
  exists (remote_of rev itr), (remote_of rev itr'). split.
  { unfold makeReverseIterator, makeIterator. rewrite Hn. by destruct rev. }
  split; [done|]. split; [by destruct rev|].
  destruct (stream_iter_end rev itr') as (-> & -> & ->); [unfold iterator_isValid; by rewrite Hend|].
  do 3 (split; [done|]). apply stream_iter_Next. unfold iterator_Next. rewrite Hst.
  destruct itr' as [sd cur err]. simpl in *. by subst.
Qed.

End remote.

(** ** The server

    The messages are appended to a list, as on a connection that takes them all. *)

Section server.
Context {S I B : Type} `{!IteratorOps I, !BatchOps S B} (ops : DBOps S I B).

Definition record_frame (m : Iterator) : M (list Iterator) unit := λ sent, (Ok tt, sent ++ [m]).

Lemma handleIterator_fails fuel (it : I) sent l e :
  fails_after e it l → length l < fuel →
  ∃ it' ms, handleIterator fuel record_frame (it, sent) = (Ok tt, (it', sent ++ ms)) ∧
    frame_pair <$> ms = l ∧ Forall (λ m, Iterator_Valid m = true) ms ∧ it_Error it' = Some e.
Proof.
  intros H. revert fuel sent. induction H as [it H|it it1 it2 it3 it4 it5 k v l H1 H2 H3 H4 H5 H IH];
    intros [|fuel] sent Hlen; simpl in Hlen; try lia; cbn [handleIterator]; unfold mbind, M_bind, on_fst, on_snd.
  - destruct (gives_up_Valid it e H) as (it' & -> & H'). exists it', []. simpl. rewrite app_nil_r.
    split_and!; [done..|]. by apply gives_up_Error.
  - rewrite H1. simpl. destruct (it_Domain it1) as [start end_]. rewrite H2, H3, H4. simpl. rewrite H5.
    destruct (IH fuel (sent ++ [{| Iterator_Domain := Some {| Domain_Start := start; Domain_End := end_; Domain_unrecognized := None |};
      Iterator_Valid := true; Iterator_Key := k; Iterator_Value := v; Iterator_unrecognized := None |}])
      ltac:(lia)) as (it' & ms & -> & Hms & Hv & He).
    eexists it', (_ :: ms). rewrite <-(assoc_L (++)). split_and!; [done|by rewrite fmap_cons, Hms|by constructor|done].
Qed.

(** The handler drops the error. *)
Lemma serve_iterator_fails fuel open (d d' : S) (it : I) l e :
  open d = (Ok it, d') → fails_after e it l → length l < fuel →
  ∃ ms, serve_iterator fuel open record_frame ({| s_db := Some d |}, []) = (Ok tt, ({| s_db := Some d' |}, ms)) ∧
    frame_pair <$> ms = l ∧ Forall (λ m, Iterator_Valid m = true) ms.
Proof.
  intros Hopen Hit Hlen. destruct (handleIterator_fails fuel it [] l e Hit Hlen) as (it' & ms & H & Hms & Hv & _).
  exists ms. split; [|done]. unfold serve_iterator, on_db. simpl. rewrite Hopen. unfold deferred. rewrite H. simpl.
  unfold on_fst. by destruct (it_Close it').
Qed.

End server.

(** ** The theorem *)

Section theorem.
Context {C : Type} `{!CursorOps C} {I : Type} `{!IteratorOps I}.
Context {D Tx BC WB Item : Type} `{!BadgerOps D Tx BC WB Item}.
Context {W St : Type} `{!DBClient W St}.
Context {S B : Type} `{!BatchOps S B} (ops : DBOps S I B).

(** The client of a RemoteDB makes an iterator of a stream. *)
Definition client_iterator (rev : bool) (st : St) : result (remote_iter St) :=
  if rev then result_map Rev (makeReverseIterator st) else result_map Fwd (makeIterator st).

(** C27: where the errors of iterators go.  When the iterator of the library
    behind goleveldb, rocksdb or cleveldb has an error, the backend's iterator
    is invalid and reports it, and [Next], [Key] and [Value] panic, whatever was
    called before; a PrefixDB iterator passes all of this on, also one that is
    created over an iterator that has failed already; an iterator of badger that
    cannot read a value returns nil and reports the error.  An iterator of a
    RemoteDB delivers what the stream delivers and then is invalid and reports
    how the stream ended (its [Next] does not panic there), so that the documented
    usage of an iterator ends with the error [io.EOF] when the server has sent
    everything, where an iterator that meets the contract ends without one.  An
    error of the server's own iterator is lost: [handleIterator] never calls [Error],
    the handler returns nil after the entries before the error, the stream ends with
    [io.EOF], and the client cannot tell the scan from a complete one. *)
Theorem iterators_report_errors (e : error) :
  (∀ itr : goLevelDBIterator C, cur_Err (gli_source itr) = Some e → gives_up itr e) ∧
  (∀ itr : rocksDBIterator C, cur_Err (rki_source itr) = Some e → gives_up itr e) ∧
  (∀ itr : cLevelDBIterator C, cur_Err (cli_source itr) = Some e → gives_up itr e) ∧
  (∀ itr : prefixDBIterator I, gives_up (pit_source itr) e → gives_up itr e) ∧
  (∀ prefix start end_ (source : I), gives_up source e →
    ∃ itr, newPrefixIterator prefix start end_ source = Ok itr ∧ gives_up itr e) ∧
  (∀ itr : badgerDBIterator Tx BC, badgerDBIterator_isValid itr = true →
    item_ValueCopy (bi_Item (bgi_iter itr)) = Err e →
    ∃ itr', badgerDBIterator_Value itr = (Ok None, itr') ∧ badgerDBIterator_Error itr' = Some e) ∧
  (∀ fuel (rev : bool) (st : St) ms,
    delivers e st ms → Forall (λ m, Iterator_Valid m = true) ms → length ms < fuel →
    ∃ it it', client_iterator rev st = Ok it ∧
      collect fuel it = (Ok (frame_pair <$> ms), it') ∧
      it_Error it' = Some e ∧ it_Valid it' = (Ok false, it') ∧ it_Key it' = (Panic invalid_msg, it') ∧
      it_Value it' = (Panic invalid_msg, it') ∧ it_Next it' = (Ok tt, it') ∧
      (typical_usage fuel it).1 = Ok (frame_pair <$> ms, Some e)) ∧
  (∀ `{!IteratorContract I} fuel (it : I) start end_ l, it_rep it start end_ l → length l < fuel →
    (typical_usage fuel it).1 = Ok (as_slices l, None)) ∧
  (∀ fuel (rev : bool) query (d d' : S) (it : I) l (st : St),
    (if rev then db_ReverseIterator ops (Entity_Start query) (Entity_End query)
     else db_Iterator ops (Entity_Start query) (Entity_End query)) d = (Ok it, d') →
    fails_after e it l → length l < fuel →
    ∃ ms, (if rev then server_ReverseIterator ops fuel query record_frame
           else server_Iterator ops fuel query record_frame) ({| s_db := Some d |}, []) =
        (Ok tt, ({| s_db := Some d' |}, ms)) ∧ frame_pair <$> ms = l ∧
      (delivers io_EOF st ms →
        ∃ cit, client_iterator rev st = Ok cit ∧ (typical_usage fuel cit).1 = Ok (l, Some io_EOF))).
Proof.
  repeat apply conj.
  - intros itr. apply goLevelDBIterator_gives_up.
  - intros itr. apply rocksDBIterator_gives_up.
  - intros itr. apply cLevelDBIterator_gives_up.
  - intros itr. apply prefixDBIterator_gives_up.
  - intros prefix start end_ source. apply newPrefixIterator_gives_up.
  - intros itr Hv He. unfold badgerDBIterator_Value, badgerDBIterator_Valid, attempt, lift_result, mbind, M_bind. simpl.
    rewrite Hv. simpl. rewrite He. by eexists.
  - intros fuel rev st ms Hd Hv Hlen.
    destruct (stream_iter_scan e fuel rev st ms Hd Hv Hlen) as (it & it' & H1 & H2 & H3 & ? & ? & ? & ?).
    exists it, it'. split_and!; [done..|]. by rewrite (typical_usage_eq _ _ _ _ H2), H3.
  - intros HI fuel it start end_ l. apply typical_usage_spec.
  - intros fuel rev query d d' it l st Hopen Hit Hlen.
    destruct (serve_iterator_fails fuel _ d d' it l e Hopen Hit Hlen) as (ms & Hserve & Hms & Hv).
    exists ms. split; [by destruct rev|]. split; [done|]. intros Hd.
    destruct (stream_iter_scan io_EOF fuel rev st ms Hd Hv) as (cit & it' & H1 & H2 & H3 & _).
    { rewrite <-Hms, length_fmap in Hlen. done. }
    exists cit. split; [done|]. by rewrite (typical_usage_eq _ _ _ _ H2), H3, Hms.
Qed.

End theorem.

(** ** Instances *)

(** A cursor that has failed, and a stream with its messages. *)
#[local] Instance failed_cursor : CursorOps error := {|
  cur_First := id; cur_Last := id; cur_Seek _ := id; cur_Next := id; cur_Prev := id;
  cur_Valid _ := true; cur_Key _ := None; cur_Value _ := None; cur_Err := Some; cur_Release := id;
|}.

#[local] Instance recorded : DBClient unit (list Iterator * error) := {|
  dc_Init _ := throw (errorsNew EmptyString); dc_Get _ := throw (errorsNew EmptyString); dc_Has _ := throw (errorsNew EmptyString); dc_Set _ := throw (errorsNew EmptyString);
  dc_SetSync _ := throw (errorsNew EmptyString); dc_Delete _ := throw (errorsNew EmptyString); dc_DeleteSync _ := throw (errorsNew EmptyString);
  dc_Iterator _ := throw (errorsNew EmptyString); dc_ReverseIterator _ := throw (errorsNew EmptyString); dc_Stats _ := throw (errorsNew EmptyString);
  dc_BatchWrite _ := throw (errorsNew EmptyString); dc_BatchWriteSync _ := throw (errorsNew EmptyString);
  st_Recv st := match st.1 with [] => (Err st.2, st) | m :: ms => (Ok m, (ms, st.2)) end;
  st_CloseSend := mret tt;
|}.

Definition io_error : error := errLib "io" "read error".
Definition one_message : Iterator :=
  {| Iterator_Domain := None; Iterator_Valid := true; Iterator_Key := Some [x61]; Iterator_Value := Some [x01];
     Iterator_unrecognized := None |}.

(** A database of one method: its iterators deliver one entry, then fail. *)
Record flaky := { fl_left : nat }.
#[local] Instance flaky_ops : IteratorOps flaky := {|
  it_Domain _ := (None, None);
  it_Valid it := (Ok (negb (fl_left it =? 0)), it);
  it_Next it := (if fl_left it =? 0 then Panic invalid_msg else Ok tt, {| fl_left := pred (fl_left it) |});
  it_Key it := (if fl_left it =? 0 then Panic invalid_msg else Ok (Some [x61]), it);
  it_Value it := (if fl_left it =? 0 then Panic invalid_msg else Ok (Some [x01]), it);
  it_Error it := if fl_left it =? 0 then Some io_error else None;
  it_Close := mret tt;
|}.
#[local] Instance no_batches : BatchOps unit unit := {|
  b_Set _ _ := mret tt; b_Delete _ := mret tt; b_Write := mret tt; b_WriteSync := mret tt; b_Close := mret tt;
|}.
Definition flaky_db : DBOps unit flaky unit := {|
  db_Get _ := mret None; db_Has _ := mret false; db_Set _ _ := mret tt; db_SetSync _ _ := mret tt;
  db_Delete _ := mret tt; db_DeleteSync _ := mret tt;
  db_Iterator _ _ := mret {| fl_left := 1 |}; db_ReverseIterator _ _ := mret {| fl_left := 1 |};
  db_Close := mret tt; db_NewBatch := mret tt; db_Print := mret []; db_Stats := mret ∅;
|}.

Lemma flaky_fails : fails_after io_error {| fl_left := 1 |} [(Some [x61], Some [x01])].
Proof.
  eapply fails_later; [done..|]. constructor. apply (gives_up_invariant (eq {| fl_left := 0 |})); [|done].
  intros ? [] <- Hop; try done; by eexists.
Qed.

Lemma iterators_report_errors_witness :
  gives_up (newGoLevelDBIterator io_error None None true) io_error ∧
  (∃ it it', client_iterator true ([one_message], io_error) = Ok it ∧
    collect 2 it = (Ok [(Some [x61], Some [x01])], it') ∧ it_Error it' = Some io_error) ∧
  ∃ ms, server_Iterator flaky_db 5 (EntityRange None None) record_frame ({| s_db := Some tt |}, []) =
      (Ok tt, ({| s_db := Some tt |}, ms)) ∧
    ∃ it, client_iterator false (ms, io_EOF) = Ok it ∧
      (typical_usage 5 it).1 = Ok ([(Some [x61], Some [x01])], Some io_EOF).
Proof.
  destruct (iterators_report_errors (C := error) (D := store) (W := unit) flaky_db io_error)
    as (H1 & _ & _ & _ & _ & _ & H2 & _ & H3).
  split; [apply H1; reflexivity|]. split.
  - destruct (H2 2 true ([one_message], io_error) [one_message]) as (it & it' & Hm & Hc & He & _).
    + by eapply delivers_msg, delivers_end.
    + by repeat constructor.
    + simpl. lia.
    + exists it, it'. exact (conj Hm (conj Hc He)).
  - set (sent := (server_Iterator flaky_db 5 (EntityRange None None) record_frame ({| s_db := Some tt |}, [])).2.2).
    destruct (H3 5 false (EntityRange None None) tt tt {| fl_left := 1 |} _ (sent, io_EOF) eq_refl flaky_fails)
      as (ms & Hs & _ & Hd); [simpl; lia|].
    assert (sent = ms) as -> by (unfold sent; by rewrite Hs).
    exists ms. split; [exact Hs|]. apply Hd.
    injection Hs as <-. by eapply delivers_msg, delivers_end.
Defined.
