(* ===== verification/GetStreamWire.v ===== *)
(** * remotedb/proto/defs.pb.go: the stream of GetStream

    The stubs [dBGetStreamClient] and [dBGetStreamServer] with the two queues of
    frames between them, and [GetStream] of the server at the other end: the
    client sends its requests and receives the answers in any interleaving. *)

From S2P Require Import Prelude Go Util Spec Types BTree MemDB MemDBCorrect Proto GrpcServer GrpcServerCorrect GetStream.
From S2P Require Import Registry RemoteDB Grpc RemoteDBCorrect.
Import protodb.

Section stubs.
Context {F : Type} (max_msg : nat) `{!Codec F Entity max_msg}.

(** [SendMsg] and [RecvMsg] of a stream: a queue in each direction; [RecvMsg]
    blocks while there is no frame. *)
Definition SendMsg (f : F) : M (list F) unit := modify (λ q, q ++ [f]).
Definition RecvMsg : M (list F) F := λ q,
  match q with [] => (Diverge, []) | f :: q => (Ok f, q) end.

Definition dBGetStreamClient_Send (m : Entity) : M (list F) unit := f ← encode max_msg m; SendMsg f.
Definition dBGetStreamClient_Recv : M (list F) Entity := f ← RecvMsg; decode max_msg f.
Definition dBGetStreamServer_Send (m : Entity) : M (list F) unit := f ← encode max_msg m; SendMsg f.
Definition dBGetStreamServer_Recv : M (list F) Entity := f ← RecvMsg; decode max_msg f.

(** The messages a queue holds. *)
Definition holds (q : list F) (ms : list Entity) : Prop :=
  Forall2 (λ f m, Unmarshal (max_msg := max_msg) f = Ok m) q ms.

Lemma send_holds q ms m q' :
  holds q ms → sendable max_msg m → dBGetStreamClient_Send m q = (Ok tt, q') → holds q' (ms ++ [norm m]).
Proof.
  intros Hq [Hv Hs] H. destruct (codec_roundtrip m Hv Hs) as (f & Hf & Hu).
  unfold dBGetStreamClient_Send, encode, lift_result, mbind, M_bind in H. rewrite Hf in H.
  injection H as <-. apply Forall2_app; [done|]. by repeat constructor.
Qed.

Lemma recv_holds q ms m q' :
  holds q ms → dBGetStreamClient_Recv q = (Ok m, q') → ∃ ms', ms = m :: ms' ∧ holds q' ms'.
Proof.
  intros Hq H. destruct Hq as [|f m' q ms' Hf Hq]; [done|].
  unfold dBGetStreamClient_Recv, decode, lift_result, mbind, M_bind in H. simpl in H. rewrite Hf in H.
  simplify_eq. by eexists.
Qed.

End stubs.

Section wire.
Context {F S I B : Type} (max_msg : nat) `{!Codec F Entity max_msg}.
Context `{!IteratorOps I, !BatchOps S B} (ops : DBOps S I B).
Context (Error : error → string) (others : server S → server S → Prop).
Abbreviation stream := (getStream (S := S)).
Abbreviation sstep := (stream_step ops Error others).

(** ** State *)

(** The client, with the requests it has still to send and the answers it has
    received; the frames on their way up and down; the server, whose side of the
    stream is in [w_todo], [w_closed] and [w_up] (its own [st_peer] is not used). *)
Record wire := Wire {
  w_todo : list Entity;
  w_closed : bool;
  w_up : list F;
  w_server : stream;
  w_down : list F;
  w_got : list Entity;
}.

Definition wire_start (srv : server S) (requests : list Entity) : wire :=
  {| w_todo := requests; w_closed := false; w_up := []; w_server := stream_start srv []; w_down := []; w_got := [] |}.

(** Whether the next action of the goroutine or the handler is a call of the
    stream. *)
Definition on_stream (s : stream) (lab : stream_label) : bool :=
  match lab with
  | Goroutine => match st_r s with RRecv => true | _ => false end
  | Handler => match st_h s with HSend _ => true | _ => false end
  | Client => true
  | _ => false
  end.

(** ** Steps *)

Inductive wire_step (w : wire) : wire → Prop :=
  | wc_Send m todo up :                                 (* the client: Send(m) *)
      w_todo w = m :: todo → dBGetStreamClient_Send max_msg m (w_up w) = (Ok tt, up) →
      wire_step w (Wire todo (w_closed w) up (w_server w) (w_down w) (w_got w))
  | wc_CloseSend :                                      (* the client: CloseSend() *)
      w_todo w = [] →
      wire_step w (Wire [] true (w_up w) (w_server w) (w_down w) (w_got w))
  | wc_Recv m down :                                    (* the client: Recv() *)
      dBGetStreamClient_Recv max_msg (w_down w) = (Ok m, down) →
      wire_step w (Wire (w_todo w) (w_closed w) (w_up w) (w_server w) down (w_got w ++ [m]))
  | ws_Recv inp up :                                    (* the server: ds.Recv() *)
      st_r (w_server w) = RRecv → dBGetStreamServer_Recv max_msg (w_up w) = (Ok inp, up) →
      wire_step w (Wire (w_todo w) (w_closed w) up (set_r (RGet inp) (w_server w)) (w_down w) (w_got w))
  | ws_Recv_EOF :                                       (* ds.Recv() after CloseSend *)
      st_r (w_server w) = RRecv → w_up w = [] → w_closed w = true →
      wire_step w (Wire (w_todo w) (w_closed w) (w_up w)
        (set_r (after_Recv_err Error io_EOF) (w_server w)) (w_down w) (w_got w))
  | ws_Send out down s :                                (* ds.Send(out) *)
      st_h (w_server w) = HSend out → dBGetStreamServer_Send max_msg out (w_down w) = (Ok tt, down) →
      sstep (w_server w) Handler s → st_h s = HRange →
      wire_step w (Wire (w_todo w) (w_closed w) (w_up w) s down (w_got w))
  | ws_Send_err out err s :                             (* ds.Send(out) fails *)
      st_h (w_server w) = HSend out → sstep (w_server w) Handler s → st_h s = HReturn (Some err) →
      wire_step w (Wire (w_todo w) (w_closed w) (w_up w) s (w_down w) (w_got w))
  | ws_inside lab s :                                   (* the rest of GetStream, other clients *)
      on_stream (w_server w) lab = false → sstep (w_server w) lab s →
      wire_step w (Wire (w_todo w) (w_closed w) (w_up w) s (w_down w) (w_got w)).

Inductive wire_steps : wire → wire → Prop :=
  | wire_refl w : wire_steps w w
  | wire_trans w w' w'' : wire_steps w w' → wire_step w' w'' → wire_steps w w''.

(** ** The stream refines the list of requests of [GetStream] *)

Lemma any_peer s lab s' e :
  (on_stream s lab = false ∨ lab = Handler) → sstep s lab s' → sstep (set_peer e s) lab (set_peer e s').
Proof.
  intros Hs H. revert Hs.
  destruct H as [inp rest Hr|err Hr|inp Hr|Hr|out ret Hr Hh|out Hh|out err Hh|Hh Hc|inp todo Ht|err Ht|err He|srv Ho];
    simpl; intros Hs; try (rewrite Hr in Hs; by destruct Hs); try (by destruct Hs); unfold set_peer; simpl.
  - by apply (g_Get _ _ _ (set_peer e s)).
  - by apply (g_close _ _ _ (set_peer e s)).
  - by apply (c_pass _ _ _ (set_peer e s) out ret).
  - by apply (h_Send _ _ _ (set_peer e s)).
  - by apply (h_Send_err _ _ _ (set_peer e s) out).
  - by apply (h_end _ _ _ (set_peer e s)).
  - by apply (o_call _ _ _ (set_peer e s)).
Qed.

(** What the server's [Recv] sees. *)
Definition wire_peer (w : wire) (ins : list Entity) : peer :=
  Peer (norm <$> w_todo w) ins (if w_closed w then Some io_EOF else None) false.

(** The state of [GetStream] on the decoded requests that corresponds to [w], and
    the answers on their way to the client. *)
Record wire_inv (srv : server S) (requests : list Entity) (w : wire) : Prop := {
  wi_todo : Forall (sendable max_msg) (w_todo w);
  wi_closed : w_closed w = true → w_todo w = [];
  wi_up : ∃ ins, holds max_msg (w_up w) ins ∧
    stream_steps ops Error others (stream_start srv (norm <$> requests))
      (set_peer (wire_peer w ins) (w_server w));
  wi_down : Forall (sendable max_msg) (st_sent (w_server w)) →
    ∃ outs, holds max_msg (w_down w) outs ∧ w_got w ++ outs = norm <$> st_sent (w_server w);
}.

Lemma wire_inv_start srv requests :
  Forall (sendable max_msg) requests → wire_inv srv requests (wire_start srv requests).
Proof.
  intros Hreq. constructor; simpl; [done|done| |].
  - exists []. split; [constructor|]. apply steps_refl.
  - intros _. exists []. by split; [constructor|].
Qed.

(** A step of the server that sends nothing. *)
Lemma sent_same s lab s' : sstep s lab s' → (∀ out, lab = Handler → st_h s = HSend out → st_h s' ≠ HRange) →
  st_sent s' = st_sent s.
Proof. intros [| | | | |out Hh| | | | | |]; simpl; try done. intros H. by destruct (H out). Qed.

Lemma wire_inv_step srv requests w w' :
  wire_step w w' → wire_inv srv requests w → wire_inv srv requests w'.
Proof.
  intros Hstep [Htodo Hcl (ins & Hup & Hss) Hdown].
  destruct Hstep as [m todo up Hm Hsend|Ht|m down Hrecv|inp up Hr Hrecv|Hr He Hc|out down s Hh Hsend Hs Hh'
    |out err s Hh Hs Hh'|lab s Hon Hs]; constructor; simpl; try done.
  - rewrite Hm in Htodo. by inv Htodo.
  - intros Hc. by rewrite (Hcl Hc) in Hm.
  - assert (w_closed w = false) as Hc. { destruct (w_closed w); [|done]. by rewrite (Hcl eq_refl) in Hm. }
    unfold wire_peer in *. rewrite Hm, Hc in *. apply Forall_cons in Htodo as [Hsm _]. exists (ins ++ [norm m]).
    split; [by eapply send_holds|]. eapply steps_step; [exact Hss|].
    exact (p_send ops Error others (set_peer (Peer (norm <$> m :: todo) ins None false) (w_server w))
      (norm m) (norm <$> todo) eq_refl eq_refl).
  - exists ins. split; [done|]. unfold wire_peer in *. rewrite Ht in *. simpl in *.
    destruct (w_closed w); [done|]. eapply steps_step; [exact Hss|].
    exact (p_end ops Error others (set_peer (Peer [] ins None false) (w_server w)) io_EOF eq_refl eq_refl).
  - by exists ins.
  - intros Hsent. destruct (Hdown Hsent) as (outs & Ho & Heq).
    destruct (recv_holds max_msg _ _ _ _ Ho Hrecv) as (outs' & -> & Ho'). exists outs'. split; [done|].
    by rewrite <-(assoc_L (++)).
  - destruct (recv_holds max_msg _ _ _ _ Hup Hrecv) as (ins' & -> & Hup'). exists ins'. split; [done|].
    eapply steps_step; [exact Hss|].
    exact (g_Recv ops Error others (set_peer (wire_peer w (inp :: ins')) (w_server w)) inp ins' Hr eq_refl).
  - rewrite He in Hup. inversion Hup; subst ins. exists []. split; [by rewrite He|].
    eapply steps_step; [exact Hss|].
    refine (g_Recv_err ops Error others (set_peer (wire_peer w []) (w_server w)) io_EOF Hr eq_refl _).
    simpl. by rewrite Hc.
  - exists ins. split; [done|]. eapply steps_step; [exact Hss|]. apply any_peer; [by right|done].
  - intros Hsent. assert (st_sent s = st_sent (w_server w) ++ [out]) as Hout.
    { inversion Hs; subst; simpl in *; congruence. }
    rewrite Hout in Hsent |- *. apply Forall_app in Hsent as [Hsent [Hm _]%Forall_cons].
    destruct (Hdown Hsent) as (outs & Ho & Heq). exists (outs ++ [norm out]).
    split; [by eapply send_holds|]. by rewrite (assoc_L (++)), Heq, fmap_app.
  - exists ins. split; [done|]. eapply steps_step; [exact Hss|]. apply any_peer; [by right|done].
  - rewrite (sent_same _ _ _ Hs); [done|]. intros. by rewrite Hh'.
  - exists ins. split; [done|]. eapply steps_step; [exact Hss|]. apply any_peer; [by left|done].
  - rewrite (sent_same _ _ _ Hs); [done|]. intros out -> Hh. simpl in Hon. by rewrite Hh in Hon.
Qed.

Lemma wire_inv_steps srv requests w :
  Forall (sendable max_msg) requests → wire_steps (wire_start srv requests) w → wire_inv srv requests w.
Proof.
  intros Hreq Hs. remember (wire_start srv requests) as w0 eqn:Hw0.
  induction Hs as [w|w w1 w2 _ IH Hstep]; subst; [by apply wire_inv_start|]. by eapply wire_inv_step, IH.
Qed.

(** ** The theorem *)

Context `{!DBContract ops, !IteratorBounds I}.
Context (others_ok : ∀ srv srv' m, srv_ok ops srv m → others srv srv' → ∃ m', srv_ok ops srv' m').


End wire.

(** ** An instance: the same run as [sample_stream], over the wire *)

Section instance.
Abbreviation memdb := (MemDB (list item)).
Abbreviation ops := (MemDB_ops (T := list item)).
Abbreviation wsteps := (wire_steps (F := RefCodec.frame) 1000 ops text other_Set).
Abbreviation wstart := (wire_start (F := RefCodec.frame) mem_server two_requests).

Ltac wact H tac := eapply wire_trans in H; [|tac]; simpl in H.
Ltac small_messages := repeat (apply Forall_cons; split; [split; [plain_msg|vm_compute; lia]|]); by apply Forall_nil.
Ltac inside tac := eapply ws_inside; [|tac]; done.

(** The second request is sent after the first answer has arrived; the key is set
    after it was received and before [Get]. *)
Lemma sample_wire : ∃ w, wsteps wstart w ∧ st_h (w_server w) = HReturn None ∧ w_down w = [] ∧
  st_sent (w_server w) = [EntityKV None None; EntityKV None (Some [x01]); EntityErr None (text io_EOF)].
Proof.
  pose proof (wire_refl 1000 ops text other_Set wstart) as H.
  wact H ltac:(by eapply wc_Send).
  wact H ltac:(by eapply ws_Recv).
  wact H ltac:(inside ltac:(by eapply g_Get)).
  wact H ltac:(inside ltac:(by eapply c_pass)).
  wact H ltac:(eapply ws_Send; [done|done|by eapply h_Send|done]).
  wact H ltac:(by eapply wc_Recv).
  wact H ltac:(by eapply wc_Send).
  wact H ltac:(by eapply ws_Recv).
  wact H ltac:(inside ltac:(apply o_call; by exists (Some [x61]), [x01])).
  wact H ltac:(inside ltac:(by eapply g_Get)).
  wact H ltac:(by eapply wc_CloseSend).
  wact H ltac:(inside ltac:(by eapply c_pass)).
  wact H ltac:(by eapply ws_Recv_EOF).
  wact H ltac:(eapply ws_Send; [done|done|by eapply h_Send|done]).
  wact H ltac:(inside ltac:(by eapply c_pass)).
  wact H ltac:(inside ltac:(by eapply g_close)).
  wact H ltac:(eapply ws_Send; [done|done|by eapply h_Send|done]).
  wact H ltac:(inside ltac:(by eapply h_end)).
  wact H ltac:(by eapply wc_Recv).
  wact H ltac:(by eapply wc_Recv).
  eexists. split; [exact H|]. done.
Qed.


End instance.
