(* ===== verification/RemoteSetup.v ===== *)
(** * remotedb/grpcdb/client.go, server.go, remotedb.go: connecting

    [NewClient], [NewServer], [ListenAndServe] and [NewRemoteDB] over
    parameters for packages credentials, grpc and net, and [InitRemote] over
    the registry of backends, the server, the stubs and the client together. *)

From S2P Require Import Prelude Go Util Spec Types Client Interface Registry Proto.
From S2P Require Import Wire GrpcServer GrpcServerCorrect RemoteDB Grpc RemoteDBCorrect RemoteDBThms.
Import protodb.

(** ** The client *)

Section client.
Context {W Creds : Type} (NewClientTLSFromFile : string → string → result Creds)
  (Dial : string → Creds → result W).

(** [NewDBClient(cc)] is the connection with the methods of [dBClient]. *)
Definition NewClient (serverAddr serverCert : string) : result W :=
  match NewClientTLSFromFile serverCert "" with
  | Ok creds => Dial serverAddr creds
  | Err err => Err err
  | Panic msg => Panic msg
  | Diverge => Diverge
  end.

Definition NewRemoteDB (serverAddr serverKey : string) : result (RemoteDB W) :=
  newRemoteDB (NewClient serverAddr serverKey).

End client.

(** ** The server *)

Section server.
Context {S G Net L Creds ServerOption : Type}.
(** [credentials.NewServerTLSFromFile], [grpc.Creds], [grpc.NewServer],
    [protodb.RegisterDBServer], [net.Listen], [srv.Serve] *)
Context (NewServerTLSFromFile : string → string → result Creds) (grpc_Creds : Creds → ServerOption)
  (grpc_NewServer : list ServerOption → G) (RegisterDBServer : G → server S → G)
  (Listen : string → string → M Net L) (Serve : G → L → M Net unit).

(** [new(server)] *)
Definition new_server : server S := {| s_db := None |}.

Definition NewServer (cert key : string) (opts : list ServerOption) : result G :=
  result_map (λ creds, RegisterDBServer (grpc_NewServer (opts ++ [grpc_Creds creds])) new_server)
    (NewServerTLSFromFile cert key).

Definition ListenAndServe (addr cert key : string) (opts : list ServerOption) : M Net unit :=
  ln ← Listen "tcp" addr;
  srv ← lift_result (NewServer cert key opts);
  Serve srv ln.

(** When the certificate cannot be read, [ListenAndServe] returns its error with
    the network as [net.Listen] left it: the listener stays open. *)
Lemma ListenAndServe_keeps_listener addr cert key opts n n' ln err :
  Listen "tcp" addr n = (Ok ln, n') → NewServerTLSFromFile cert key = Err err →
  ListenAndServe addr cert key opts n = (Err err, n').
Proof.
  intros HL Hc. unfold ListenAndServe. rewrite (M_bind_Ok _ _ _ _ _ HL).
  unfold mbind, M_bind, lift_result, NewServer. by rewrite Hc.
Qed.

End server.

(** ** From [InitRemote] to the answers *)

Section end_to_end.
Context {F W St S I B : Type} (max_msg : nat) `{!IteratorOps I, !BatchOps S B} (ops : DBOps S I B).
Context `{!Codec F Entity max_msg, !Codec F Batch max_msg, !Codec F Nothing max_msg,
  !Codec F Iterator max_msg, !Codec F Stats max_msg, !Codec F Init max_msg}.
(** The registry of the server: its [init] functions have run in some order. *)
Context (range : gmap string (dbCreator (DB := S)) → list string)
  (l : list (string * dbCreator (DB := S) * bool)) (now : Z) (fuel : nat).
Context `{!ClientConn F W St}.
Context `{!GrpcLaws F W St S (unary_table max_msg ops range (run_inits l backends0) now fuel)
  (stream_table max_msg ops range (run_inits l backends0) now fuel)}.
Context (K V : nat).
#[local] Hint Extern 0 (DBClient _ _) => exact (dBClient max_msg) : typeclass_instances.

Definition init_msg (inp : RemoteInit) : Init :=
  {| Init_Type := Type_ inp; Init_Name := Name inp; Init_Dir := Dir inp; Init_unrecognized := None |}.

(** How [InitRemote] answers, and what it does to the server. *)
Lemma InitRemote_reply (rd : RemoteDB W) inp (r : result S) :
  NewDB range (run_inits l backends0) (Name inp) (Type_ inp) (Dir inp) = r →
  conn_ok (rd_dc rd) → sendable max_msg (init_msg inp) → in_int64 now → 100 ≤ max_msg →
  match r with
  | Ok d => reply (RemoteDB_InitRemote inp) rd (Ok tt)
      (λ rd', conn_ok (rd_dc rd') ∧ conn_srv (rd_dc rd') = {| s_db := Some d |})
  | Err e => reply (RemoteDB_InitRemote inp) rd (Err (status_of e))
      (λ rd', conn_ok (rd_dc rd') ∧ conn_srv (rd_dc rd') = {| s_db := None |})
  | _ => True
  end.
Proof.
  intros Hnew Hw Hmsg Hnow Hmax. unfold RemoteDB_InitRemote.
  assert (∀ (out : result Entity) srv', server_Init range (run_inits l backends0) now (norm (init_msg inp))
    (conn_srv (rd_dc rd)) = (out, srv') → reply (server_Init range (run_inits l backends0) now (norm (init_msg inp)))
    (conn_srv (rd_dc rd)) out (λ s, s = srv')) as Hinit by (intros; by eexists).
  unfold server_Init in Hinit at 1. simpl in Hinit. rewrite Hnew in Hinit.
  destruct r as [d|e|msg|]; try done; specialize (Hinit _ _ eq_refl);
    pose proof (invoke_spec max_msg ops range (run_inits l backends0) now fuel "/protodb.DB/init" _ _
      (init_msg inp) (rd_dc rd) _ _ (proj1 (tables max_msg ops range (run_inits l backends0) now fuel)) Hw Hmsg Hinit) as H;
    simpl in H.
  - eapply reply_bind; [apply (on_field_reply rd_dc (λ w _, {| rd_dc := w |})), H; [done|]|intros; by apply reply_ret].
    split; [done|]. simpl. unfold len. simpl. lia.
  - apply reply_bind_Err. exact (on_field_reply rd_dc (λ w _, {| rd_dc := w |}) _ rd _ _ (λ _ _, eq_refl) H).
Qed.

(** A backend that creates a database that meets the contract: [InitRemote]
    succeeds, and then every program the encoding does not touch is answered as
    by an abstract store that starts with the contents of the new database. *)
Lemma InitRemote_answers (rd : RemoteDB W) inp fits d m :
  NewDB range (run_inits l backends0) (Name inp) (Type_ inp) (Dir inp) = Ok d → conforms ops fits d m →
  conn_ok (rd_dc rd) → sendable max_msg (init_msg inp) → in_int64 now → 3 * K + V + 100 ≤ max_msg →
  map_Forall (plain_entry K V) m →
  ∃ rd1, RemoteDB_InitRemote inp rd = (Ok tt, rd1) ∧
    ∀ cs, Forall (plain_call K V max_msg) cs → Forall (call_fits fits) cs → size m + weight cs < fuel →
      ∃ rd2, run_calls RemoteDB_ops fuel cs rd1 = ((spec_calls cs m).1, rd2).
Proof.
  intros Hnew (C & Hb & Hinv & <- & <-) Hw Hmsg Hnow HK Hm.
  destruct (InitRemote_reply rd inp (Ok d) Hnew Hw Hmsg Hnow ltac:(lia)) as (rd1 & Hinit & Hw1 & Hsrv).
  exists rd1. split; [done|]. intros cs Hcs Hfit Hfuel.
  destruct (remote_run_calls max_msg ops range (run_inits l backends0) now fuel K V cs rd1 (db_model d))
    as (rd2 & Hrun & _); [|done..|by exists rd2].
  split; [done|]. rewrite Hsrv. by exists d.
Qed.

End end_to_end.
