(* ===== verification/RemoteBackends.v ===== *)
(** * A remote database over every backend

    The whole program in one statement: [NewRemoteDB] connects to a server of
    any build, [InitRemote] has it open any of its backends through the registry,
    and the answers the client reads are those of the abstract store. *)

From S2P Require Import Prelude Go Util Spec Types Client Session Interface BTree MemDB MemDBCorrect Registry.
From S2P Require Import Path Cursor KVLib KVBackend GoLevelDB GoLevelDBCorrect RocksDB RocksDBCorrect CLevelDB CLevelDBCorrect.
From S2P Require Import BoltLib BoltDB BoltDBCorrect BadgerLib BadgerDB BadgerDBCorrect Backends.
From S2P Require Import Wire Proto GrpcServer GrpcServerCorrect RemoteDB Grpc RemoteDBCorrect RemoteDBThms RemoteSetup.
Import protodb.

Section remote_backends.
Context {T : Type} `{!BTreeOps item T}.
(** goleveldb *)
Context {D C W : Type} `{!CursorOps C, !KVOps D C W}.
Context {GOptions : Type} (OpenFile : string → option GOptions → result D) (GetProperty : string → M D string).
(** cleveldb *)
Context {D2 C2 W2 : Type} `{!CursorOps C2, !KVOps D2 C2 W2}.
Context {LOptions : Type} (NewOptions : LOptions) (SetCache : Z → LOptions → LOptions)
  (SetCreateIfMissing : bool → LOptions → LOptions) (OpenC : string → LOptions → result D2)
  (PropertyValue : string → D2 → string).
(** rocksdb: [gorocksdb.OpenDb] with the options [NewRocksDB] builds *)
Context {D3 C3 W3 : Type} `{!CursorOps C3, !KVOps D3 C3 W3}.
Context {TableOptions ROptions Cache Filter : Type}.
Context (NewDefaultBlockBasedTableOptions : TableOptions)
  (NewLRUCache : Z → Cache) (SetBlockCache : Cache → TableOptions → TableOptions)
  (NewBloomFilter : Z → Filter) (SetFilterPolicy : Filter → TableOptions → TableOptions)
  (NewDefaultOptions : ROptions) (SetBlockBasedTableFactory : TableOptions → ROptions → ROptions)
  (SetMaxOpenFiles : Z → ROptions → ROptions) (SetCreateIfMissingR : bool → ROptions → ROptions)
  (IncreaseParallelism : Z → ROptions → ROptions) (NumCPU : Z)
  (OptimizeLevelStyleCompaction : Z → ROptions → ROptions)
  (OpenDb : ROptions → string → result D3) (GetPropertyR : string → D3 → string).
(** bbolt *)
Context {BD BTx BCu : Type} `{!BoltOps BD BTx BCu}.
Context {BOptions : Type} (ReadOnly : BOptions → bool) (DefaultOptions : BOptions)
  (OpenB : string → BOptions → result BD) (fmt_stats : BoltStats → string).
(** badger *)
Context {GD GTx GC GWB GItem : Type} `{!BadgerOps GD GTx GC GWB GItem}.
Context {XOptions : Type} (DefaultOptionsX : string → XOptions) (set_SyncWrites : bool → XOptions → XOptions)
  (no_Logger : XOptions → XOptions) (OpenX : XOptions → result GD) (MkdirAll : string → result unit).
(** Fuel of the loops of [Print] *)
Context (pfuel : nat).

Abbreviation newRocksDB := (NewRocksDB NewDefaultBlockBasedTableOptions NewLRUCache SetBlockCache NewBloomFilter
  SetFilterPolicy NewDefaultOptions SetBlockBasedTableFactory SetMaxOpenFiles SetCreateIfMissingR
  IncreaseParallelism NumCPU OptimizeLevelStyleCompaction OpenDb).
Abbreviation newCLevelDB := (NewCLevelDB NewOptions SetCache SetCreateIfMissing OpenC).
Abbreviation newBoltDB := (NewBoltDB ReadOnly DefaultOptions OpenB).
Abbreviation newBadgerDB := (badgerDBCreator DefaultOptionsX set_SyncWrites no_Logger OpenX MkdirAll).

Context `{!BTreeLaws (T := T) item_Less}.
Context `{!CursorLaws C} `{!KVLaws D C W (Err ErrNotFound)}.
Context `{!CursorLaws C2} `{!KVLaws D2 C2 W2 (Ok None)}.
Context `{!CursorLaws C3} `{!KVLaws D3 C3 W3 (Ok None)}.
Context `{!BoltLaws BD BTx BCu bucket} `{!BadgerLaws GD GTx GC GWB GItem}.


Abbreviation DB := (Backends.DB (T := T) (D := D) (D2 := D2) (D3 := D3) (BD := BD) (GD := GD)).
Abbreviation opened := (opens OpenFile NewOptions SetCache SetCreateIfMissing OpenC
  NewDefaultBlockBasedTableOptions NewLRUCache SetBlockCache NewBloomFilter
  SetFilterPolicy NewDefaultOptions SetBlockBasedTableFactory SetMaxOpenFiles SetCreateIfMissingR
  IncreaseParallelism NumCPU OptimizeLevelStyleCompaction OpenDb ReadOnly DefaultOptions OpenB
  DefaultOptionsX set_SyncWrites no_Logger OpenX MkdirAll).
Abbreviation creators := (all_creators (T := T) OpenFile NewOptions SetCache SetCreateIfMissing OpenC
  NewDefaultBlockBasedTableOptions NewLRUCache SetBlockCache NewBloomFilter
  SetFilterPolicy NewDefaultOptions SetBlockBasedTableFactory SetMaxOpenFiles SetCreateIfMissingR
  IncreaseParallelism NumCPU OptimizeLevelStyleCompaction OpenDb ReadOnly DefaultOptions OpenB
  DefaultOptionsX set_SyncWrites no_Logger OpenX MkdirAll).
Abbreviation methods := (DB_ops (T := T) (D := D) (C := C) (W := W) (D2 := D2) (C2 := C2) (W2 := W2)
  (D3 := D3) (C3 := C3) (W3 := W3) (BD := BD) (BTx := BTx) (BCu := BCu) (GD := GD) (GTx := GTx) (GC := GC) (GWB := GWB)
  GetProperty PropertyValue GetPropertyR fmt_stats pfuel).

(** The connection: encoded messages, the client's side, and a server over the
    databases of the registry. *)
Context {F Cl St Creds : Type} (max_msg : nat).
Context `{!Codec F Entity max_msg, !Codec F Batch max_msg, !Codec F Nothing max_msg,
  !Codec F Iterator max_msg, !Codec F Stats max_msg, !Codec F Init max_msg}.
Context (NewClientTLSFromFile : string → string → result Creds) (Dial : string → Creds → result Cl).
Context (range : gmap string (dbCreator (DB := DB)) → list string) (t : build_tags)
  (l : list (string * dbCreator (DB := DB) * bool)) (now : Z) (fuel : nat).
Context `{!ClientConn F Cl St}.
Context `{!GrpcLaws F Cl St DB (unary_table max_msg methods range (run_inits l backends0) now fuel)
  (stream_table max_msg methods range (run_inits l backends0) now fuel)}.
Context (K V : nat).
#[local] Hint Extern 0 (DBClient _ _) => exact (dBClient max_msg) : typeclass_instances.

(** C14: from the address of a server to the answers of a program, over
    every backend.  With a certificate that can be read and a connection that
    can be made, [NewRemoteDB] succeeds.  [InitRemote] with a backend that can be
    opened succeeds, whatever database the server had before.  Then a program is
    answered as by an abstract store that starts with the contents of the files
    the backend found, provided that all keys and values, in the files and in the
    calls, are non-empty and of at most [K] and [V] bytes, that scans have no empty
    non-nil bound, that the messages, of batches in particular, are within the limit
    of the connection, and that the calls are within the limits of the backend (those
    of bbolt and badger on keys, values and batches).  With a backend that is not of the build, or whose constructor
    fails, [InitRemote] reports the error of [NewDB]. *)
Theorem RemoteDB_end_to_end serverAddr serverKey creds w :
  NewClientTLSFromFile serverKey "" = Ok creds → Dial serverAddr creds = Ok w → conn_ok w →
  (∀ b, range b ≡ₚ elements (dom b)) → l ≡ₚ inits creators t → in_int64 now → 3 * K + V + 100 ≤ max_msg →
  ∃ rd, NewRemoteDB NewClientTLSFromFile Dial serverAddr serverKey = Ok rd ∧
    ∀ inp, sendable max_msg (init_msg inp) →
    (∀ policy fits m, opened t (Name inp) (Dir inp) (Type_ inp) policy fits m → map_Forall (plain_entry K V) m →
      ∃ rd1, RemoteDB_InitRemote inp rd = (Ok tt, rd1) ∧
        ∀ cs, Forall (plain_call K V max_msg) cs → Forall (call_fits fits) cs → size m + weight cs < fuel →
          ∃ rd2, run_calls RemoteDB_ops fuel cs rd1 = ((spec_calls cs m).1, rd2)) ∧
    (built_in creators t (Type_ inp) = None →
      ∃ keys, (RemoteDB_InitRemote inp rd).1 = Err (status_of (errUnknownBackend (Type_ inp) keys)) ∧
        keys ≡ₚ ((inits creators t).*1).*1) ∧
    (∀ creator e, built_in creators t (Type_ inp) = Some creator → creator (Name inp) (Dir inp) = Err e →
      (RemoteDB_InitRemote inp rd).1 = Err (status_of (errorfW "failed to initialize database" e))).
Proof.
  intros Hcreds Hdial Hw Hrange Hl Hnow HK. exists {| rd_dc := w |}.
  split; [unfold NewRemoteDB, newRemoteDB, NewClient; by rewrite Hcreds, Hdial|]. intros inp Hmsg.
  pose proof (NewDB_inits range creators t l (Name inp) (Type_ inp) (Dir inp) Hrange Hl) as Hnew. simpl in Hnew.
  pose proof (InitRemote_reply max_msg methods range l now fuel {| rd_dc := w |} inp) as Hreply.
  split; [|split].
  - intros policy fits m (creator & d & Hb & Hd & Hconf)%(creator_conforms (T := T) _ GetProperty _ _ _ _ PropertyValue
      _ _ _ _ _ _ _ _ _ _ _ _ _ GetPropertyR _ _ _ fmt_stats _ _ _ _ _ pfuel) Hm.
    rewrite Hb, Hd in Hnew. by eapply (InitRemote_answers max_msg methods).
  - intros Hb. rewrite Hb in Hnew. destruct Hnew as (keys & Hnew & Hkeys). exists keys. split; [|done].
    destruct (Hreply _ Hnew Hw Hmsg Hnow ltac:(lia)) as (rd1 & -> & _). done.
  - intros creator e Hb He. rewrite Hb, He in Hnew.
    destruct (Hreply _ Hnew Hw Hmsg Hnow ltac:(lia)) as (rd1 & -> & _). done.
Qed.

End remote_backends.

(** ** An instance: a server whose build has bbolt, and a file of one pair *)

Section instance.
#[local] Existing Instance demo_batch_ops.
Definition demo_range (b : gmap string (dbCreator (DB := demo_DB))) : list string := elements (dom b).
Abbreviation unary := (unary_table (F := RefCodec.frame) 1000 demo_ops demo_range (run_inits demo_build backends0) 0 20).
Abbreviation streaming := (stream_table (F := RefCodec.frame) 1000 demo_ops demo_range (run_inits demo_build backends0) 0 20).

#[local] Instance demo_conn : ClientConn RefCodec.frame (RefGrpc.world demo_DB) (RefGrpc.stream RefCodec.frame) :=
  RefGrpc.conn unary streaming.
#[local] Instance demo_grpc :
  GrpcLaws RefCodec.frame (RefGrpc.world demo_DB) (RefGrpc.stream RefCodec.frame) demo_DB unary streaming :=
  RefGrpc.laws unary streaming.
#[local] Instance demo_client : DBClient (RefGrpc.world demo_DB) (RefGrpc.stream RefCodec.frame) := dBClient 1000.

(** One certificate, and one server that listens, with no database yet. *)
Definition ref_certificate (certFile _ : string) : result string :=
  if String.eqb certFile "server.crt" then Ok "tls" else Err (errorsNew "no such file").
Definition ref_dial (addr _ : string) : result (RefGrpc.world demo_DB) :=
  if String.eqb addr "localhost:26670" then Ok (Some new_server) else Err (errorsNew "no such host").

Definition bolt_init : RemoteInit := {| Dir := "/data"; Name := "state"; Type_ := "boltdb" |}.
Definition level_init : RemoteInit := {| Dir := "/data"; Name := "state"; Type_ := "goleveldb" |}.
Definition bolt_program : list call :=
  [CGet (Some [x61]); CSetSync (Some [x62]) (Some [x02]); CScan None None true;
   CBatch [BSet (Some [x63]) (Some [x03]); BDelete (Some [x61])] true; CScan (Some [x61]) (Some [x63]) false].

Example bolt_program_runs :
  match NewRemoteDB ref_certificate ref_dial "localhost:26670" "server.crt" with
  | Ok rd => let '(r, rd) := RemoteDB_InitRemote bolt_init rd in
             (r, (run_calls RemoteDB_ops 20 bolt_program rd).1)
  | _ => (Ok tt, [])
  end = (Ok tt, (spec_calls bolt_program {[ [x61] := [x01] ]}).1).
Proof. vm_compute. reflexivity. Qed.

Lemma RemoteDB_end_to_end_witness :
  ∃ rd, NewRemoteDB ref_certificate ref_dial "localhost:26670" "server.crt" = Ok rd ∧
    (∃ rd1 rd2, RemoteDB_InitRemote bolt_init rd = (Ok tt, rd1) ∧
      run_calls RemoteDB_ops 20 bolt_program rd1 = ((spec_calls bolt_program {[ [x61] := [x01] ]}).1, rd2)) ∧
    (RemoteDB_InitRemote level_init rd).1 =
      Err (status_of (errorfW "failed to initialize database" (errorsNew "no disk"))).
Proof.
  destruct (RemoteDB_end_to_end (KVOps0 := demo_gl_ops) (KVLaws0 := RefKV.kv_laws _)
    (KVOps1 := RefKV.kv_ops (Ok None)) (KVLaws1 := RefKV.kv_laws _)
    (KVOps2 := RefKV.kv_ops (Ok None)) (KVLaws2 := RefKV.kv_laws _)
    (BoltLaws0 := RefBolt.laws bucket) (BadgerLaws0 := RefBadger.laws)
    (λ _ (_ : option unit), no_disk) (λ _, mret EmptyString)
    tt (λ _ o, o) (λ _ o, o) (λ _ _, no_disk) (λ _ _, EmptyString)
    tt (λ _, tt) (λ _ o, o) (λ _, tt) (λ _ o, o) tt (λ _ o, o) (λ _ o, o) (λ _ o, o) (λ _ o, o) 1%Z (λ _ o, o)
    (λ _ _, no_disk) (λ _ _, EmptyString)
    (λ b : bool, b) false (λ _ _, Ok ({[ bucket := {[ [x61] := [x01] ]} ]} : RefBolt.db)) (λ _, EmptyString)
    (λ _ : string, tt) (λ _ o, o) (λ o, o) (λ _, no_disk) (λ _, Ok tt) 10
    1000 ref_certificate ref_dial demo_range bolt_tags demo_build 0%Z 20 100 100
    "localhost:26670" "server.crt" "tls" (Some new_server) eq_refl eq_refl) as (rd & Hrd & Hinp).
  - by eexists.
  - intros b. reflexivity.
  - reflexivity.
  - unfold in_int64. lia.
  - cbv. lia.
  - exists rd. split; [exact Hrd|]. split.
    + destruct (Hinp bolt_init) as [Hopen _]; [split; [plain_msg|cbv; lia]|].
      destruct (Hopen Locks bolt_limits (bolt_model (BoltLaws := RefBolt.laws bucket)
        ({[ bucket := {[ [x61] := [x01] ]} ]} : RefBolt.db))) as (rd1 & H1 & Hrun).
      * by apply opens_boltdb.
      * change (map_Forall (plain_entry 100 100) ({[ [x61] := [x01] ]} : store)).
        apply map_Forall_singleton. split_and!; [done|done|cbv; lia|cbv; lia].
      * destruct (Hrun bolt_program) as (rd2 & H2); [repeat constructor; cbv; first [discriminate|lia|done]|
          repeat constructor; cbv; first [discriminate|lia|done]|vm_compute; lia|]. exists rd1, rd2. split; [exact H1|exact H2].
    + destruct (Hinp level_init) as (_ & _ & Hfail); [split; [plain_msg|cbv; lia]|].
      exact (Hfail _ _ eq_refl eq_refl).
Defined.

End instance.
